(* ===== verification/_CoqProject ===== *)
-Q . S2P
Prelude.v
Files.v
Wal.v
Policy.v
Lru.v
Lfu.v
Dispatch.v
HashTable.v
Store.v
TableFacts.v
Table.v
Recovery.v
Crc.v
Snapshot.v
Lifecycle.v
Checkpoint.v
Scanner.v
Resp.v
Protocol.v
Epoll.v
EpollFacts.v
Engine.v
Binding.v
Shards.v
Sharded.v
ShardedFacts.v
Raft.v
RaftNode.v
RaftVotes.v
RaftLogs.v
RaftSafety.v
HashRing.v
GoServer.v
RaftStore.v
Router.v
Replica.v
SimpleServer.v
Workload.v
Bench.v
BenchPersistence.v
BenchThreads.v
