(* ===== verification/Prelude.v ===== *)
(** * A verification development for the DistributedKV storage engine

    The program is a key-value store: a C++ storage engine under src/engine and
    Go processes under src/node that replicate and serve it. This development
    models the engine and the packages of the Go node as executable definitions
    and proves what each part promises.

    ** The parts and how they interact

    A hash table (src/engine/src/hash_table.cpp) stores entries with access
    metadata and an optional expiry time. On every insert it asks an eviction
    policy (lru_policy.cpp, lfu_policy.cpp) for victims while the values exceed
    a limit, and it appends every change to a write-ahead log (wal.cpp).
    Recovery replays the log; snapshots (snapshot.cpp) save and load the whole
    table with a CRC64. Above the table are three engines, with worker threads
    and queues (sharded_engine.cpp), with one lock per shard
    (sharded_engine_sync.h) and with one lock (mutex_engine.h), and a C
    interface (engine.cpp) used by the Go binding (src/node/engine/engine.go).
    A server (epoll_server.cpp) speaks the RESP protocol (resp.cpp).

    In the Go node, a RESP server (server/resp_server.go) runs the commands of
    its clients on the binding. Raft nodes (raft/node.go, rpc.go, cluster.go)
    replicate a log of commands; raft/storage.go has stores for their state. A
    process runs one Raft node per shard (sharding/multi_raft.go); a router
    (router.go) proposes an operation to the shard that a consistent hash ring
    (hash_ring.go) assigns to its key. The distributed server
    (cmd/distributed_server/main.go) puts one engine behind one Raft node.

    The programs under src/engine/bench run the table and the engines on mixed
    loads, with and without threads and logs, and recover a table from a
    snapshot and a log.

    ** Files

    - Prelude.v: bytes, machine integers as [Z] with wrap-around written out,
      lists, sums over maps, counting loops with early exit.
    - Files.v: the disk as a map from paths to bytes, and the part of
      [std::ofstream] and [std::ifstream] the engine uses.
    - Wal.v: [WALWriter] with its batch buffer, [WALReader] with its stream
      state, the record format.
    - Policy.v: the class [EvictionPolicy], what the table relies on. Lru.v and
      Lfu.v: the two policies, each an instance; the [std::priority_queue] of
      LFU is the class [LFU.PriorityQueue] with the documented contract.
      Dispatch.v: the table's choice between them, again an instance.
    - HashTable.v: the state of [HashTable] (buckets, counter, policy, writer,
      disk) and its operations. Store.v: the buckets as a finite map.
      TableFacts.v: the invariant [ht_inv] and what each operation does to the
      map [contents]. Table.v: the specification and the theorems.
    - Recovery.v: [replay_wal]. Crc.v, Snapshot.v: checksum, writer, reader,
      [create_snapshot], [load_snapshot]. Lifecycle.v: all operations of the
      table in any order. Checkpoint.v: snapshots and the log together, with
      the recovery of bench_persistence.cpp. Scanner.v: the thread that scans
      for expired keys.
    - Resp.v: values, serialiser, the incremental parser, commands, formatter.
      Protocol.v: its theorems.
    - Epoll.v: descriptors, registrations, connections, the event loop, with the
      answers of the system calls as arguments. EpollFacts.v: its theorems.
    - Engine.v: engine.cpp, and [Set], [Get], [Delete] of engine.go. Binding.v:
      the Go engine from [New] to [Close].
    - Shards.v: routing (class [Router], two instances), arrays of tables, the
      engines with locks. Sharded.v: the engine with worker threads as a step
      relation over all interleavings. ShardedFacts.v: its theorems.
    - Raft.v: a node and its handlers, log slices with the arrays they share,
      and the cluster as a step relation: timers, goroutines and messages in
      flight in any order, lost or repeated. RaftNode.v: what each handler does.
      RaftVotes.v and RaftLogs.v: the invariants on terms and votes, and on logs
      and commits. RaftSafety.v: the theorems.
    - RaftStore.v: the interface [LogStore] (a class), the store in memory (an
      instance), and the state file with crashes between its writes.
    - HashRing.v: the ring; [sort.Slice] is the class [SortSlice].
    - GoServer.v: a connection of the RESP server of the Go node.
    - Router.v: the manager of the shards, the router with its retries, the
      leader trackers, and the lock they share.
    - Replica.v: the distributed server (cmd/distributed_server/main.go), an
      engine behind a Raft node with clients that send lines. SimpleServer.v: the
      server without Raft (cmd/simple_server/main.go).
    - Workload.v: sequences of requests that fit into memory see a plain map, on
      a table with or without a log and on shards with locks. Bench.v:
      bench_single_threaded.cpp and bench_comparison.cpp, with the orders in
      which threads take locks. BenchPersistence.v: bench_persistence.cpp.
      BenchThreads.v: bench_multi_threaded.cpp, clients and the engine with
      worker threads as a step relation over all interleavings.

    ** What the theorems show

    - Hash table: every request sequence is a run of a bounded map with expiry
      ([table_refines_bounded_map]); all operations keep it well-formed
      ([table_well_formed]); eviction terminates and bounds memory
      ([evict_loop_terminates], [insert_memory_bound]); the load factor
      ([insert_load_factor]), the expiry scan and the statistics are as
      described; the empty key defeats eviction. With the scanner thread it is
      that map, from which a pass takes entries that had expired when it read the
      clock, or whose keys were set while it went on
      ([scanner_refines_expiring_map]), so that a fresh value can be lost
      ([scanner_loses_fresh_value]); no pass reads outside the table, and
      stopping the thread returns.
    - Policies: after any calls of the table, the LRU victim is a key that was
      touched before all others ([lru_candidate_is_least_recent]), the LFU victim
      one whose last reported count is least ([lfu_candidate_is_least_frequent]).
    - Log: a log cut at any byte yields the records that are whole in it, a
      crash loses less than a batch, the size counter is the file length, replay
      restores the contents, and the one ordering of records that loses data.
    - Snapshots: loading restores the table; truncation and bursts of up to
      seven bytes are detected; the table-driven CRC is the bitwise one; a
      rejected snapshot leaves its entries behind.
    - Checkpoints: with snapshots and truncations of the log in any order among
      the requests, snapshot and log together restore the table
      ([checkpoint_recovery]); dying while the next snapshot is begun loses
      everything before the last one ([snapshot_crash_loses_checkpoint]).
    - Benchmarks: each get finds its key and nothing is evicted, on one thread
      ([single_threaded_results]), for every order of the locks
      ([comparison_same_work]) and in every interleaving with worker threads,
      which also ends ([multi_threaded_completes]); a log changes no answer
      ([persistence_same_answers]); the recovery that is measured restores the
      data set ([benchmark_recovers_dataset]).
    - Protocol: serialised values are told apart, the parser terminates on all
      inputs and delivers scalars in whatever pieces they arrive; it never
      delivers a command and drops pipelined input.
    - Server: the server's tables agree with the kernel's in every reachable
      state, also where the kernel refuses to change the events of a client,
      which the server does not notice ([epoll_tables_consistent],
      [epoll_refused_change_stalls_reply]); no descriptor leaks, output keeps its
      order; the handler is never called, and an array header can end the process.
    - Engines: set, get and delete of the C interface are those of a map with
      deadlines, with a limit on memory that is built in
      ([engine_refines_contract]); replaying a log and saving a snapshot always
      fail; the Go buffer suffices; both sharded engines are one map cut into parts by
      routing; with worker threads requests are answered once and in order, and
      each is answered within a bounded number of steps of its worker, but
      stopping may abandon requests or hang.
    - Raft: in clusters of at most three nodes whose vote requests are read in
      the election they belong to, there is one leader per term, logs with an
      entry in common agree before it, what is committed stays, nodes are given
      the same commands, and no node panics ([raft_election_safety],
      [raft_log_matching], [raft_committed_stays], [raft_state_machine_safety],
      [raft_never_panics]). Both restrictions are needed
      ([raft_election_safety_limits]). The quorum test makes every node
      indispensable, a full channel loses commands, and a leader's own election
      timer deposes it. Term and vote on disk survive a crash at any point.
    - Routing: the ring returns the successor of a key's hash, adding a shard
      moves keys only to it, removing one moves only its own. An operation is
      proposed at most once, and exactly once if the router reports success. The
      trackers report leaders that were deposed, and their lock can deadlock.
    - Replication: processes that are wired as one cluster, in which reads and
      applied commands do not overlap, and that have applied equally many commands
      hold the same values ([replicas_agree]); a client's write is logged as a command
      that does what the line says ([client_write_logged]); reads answer what the
      applied commands leave.
    - Go binding and server: the binding is a map with deadlines until it is
      closed ([binding_refines_map]); pipelined commands are read, run and
      answered in order ([go_server_serves_pipeline]), each as a map with
      deadlines answers it, except that DEL always answers 1
      ([go_server_command_correct]); a negative count ends the process. The lines
      of the server without Raft are answered so too
      ([simple_server_serves_lines]).

    ** Bounds and fuel

    [evict_loop] runs once more than there are entries and [candidate_loop] once
    more than there are heap entries; the theorems show that the loops leave
    through their own exits. [capacity_loop] doubles at most 64 times, the width
    of [size_t]. [parse] has fuel for two rounds per byte of input and two more, and
    [resp_parse_terminates] shows it is never used up. [replay_loop] takes its
    fuel as an argument; [wal_recovery_restores_contents] and
    [checkpoint_recovery] show how much is enough. The benchmarks have the
    numbers of operations, keys and threads of the code. Loops that count to a number read from a file recurse on that
    number ([for_loop]). [read_bulks] and [connection_loop] have fuel for one
    round per byte of input, which [go_server_connection_ends] shows is enough;
    [route_loop] runs [maxRetries] times, as in the code. Sizes are compared as integers; where the code adds
    them in [size_t], the sums wrap and the theorems that need it assume that
    the values stored fit into 64 bits.

    ** Parameters

    Clock readings, random bucket samples, the order of equal elements in a
    priority queue, the answers of system calls, the indeterminate value of
    uninitialised locals and the largest size [std::vector::reserve] accepts are
    arguments of the definitions that use them, and so are the draws of
    [std::uniform_int_distribution]. So are, in the Go node, the
    capacity that [append] gives a new array ([grow]), how many messages are
    received from a channel while a node fills it ([reads]),
    [strings.ToUpper] outside ASCII, [encoding/json] with its round trip, and
    what other goroutines do between two attempts of the router.

    ** Not modelled

    [fsync], destructors and [Close] functions that only release memory,
    spurious wake-ups of condition variables, the unit tests, and the times that
    the benchmarks measure and print.
    In the expiry scan, the read of a bucket and the removal of a key are one
    step each, between which the owner of the table may do anything; the code
    takes no lock to make them so. The reads that a vote goroutine makes of its
    node are one step too. HTTP is a network that delivers a request any
    number of times or never. Left out are cmd/server and cmd/raft_test, which
    read flags and call the modelled packages, cmd/sharded_server, which does
    not type-check, and the accept loops of the servers: a connection has the
    engine to itself, although the code lets goroutines share it. *)

From stdpp Require Export base tactics option list gmap fin_maps strings.
From coqutil Require Export Byte Word.LittleEndianList.
From Stdlib Require Export ZArith Lia.

#[global] Open Scope Z_scope.

(** ** Bytes and strings

    [std::string] is a sequence of bytes; keys, values, file contents and
    network buffers are all [bytes]. *)

Abbreviation bytes := (list Init.Byte.byte).

#[global] Instance byte_eq_dec : EqDecision Init.Byte.byte := Byte.byte_eq_dec.

#[global] Instance byte_countable : Countable Init.Byte.byte :=
  inj_countable Byte.to_N Byte.of_N Byte.of_to_N.

(** A literal of the source, as bytes. *)
Definition str (s : string) : bytes := String.list_byte_of_string s.

(** [size()] of a string, vector or list as a [size_t]. *)
Definition zlen {A} (l : list A) : Z := Z.of_nat (length l).

(** ** Machine integers

    A [w]-bit integer is a [Z]; the wrap-around of unsigned arithmetic and of
    integral conversions is written out. *)

Definition u8 (z : Z) : Z := z mod 2 ^ 8.
Definition u32 (z : Z) : Z := z mod 2 ^ 32.
Definition u64 (z : Z) : Z := z mod 2 ^ 64.
Definition s64 (z : Z) : Z := (z + 2 ^ 63) mod 2 ^ 64 - 2 ^ 63.

(** [make] of Go panics on a length or capacity that is negative or exceeds
    the address space. *)
Definition make_panics (elem_size len : Z) : bool := (len <? 0) || (2 ^ 48 <? elem_size * len).

Declare Scope kv_scope.
Delimit Scope kv_scope with kv.
Notation "x +64 y" := (u64 (x + y)) (at level 50, left associativity) : kv_scope.
Notation "x -64 y" := (u64 (x - y)) (at level 50, left associativity) : kv_scope.
Notation "x *64 y" := (u64 (x * y)) (at level 40, left associativity) : kv_scope.
#[global] Open Scope kv_scope.

Create HintDb kv.
Create Rewrite HintDb kv_rewrite.

(** ** Tactics of the development *)

(** Case analysis on every [if] over a boolean comparison or a [decide]. *)
Ltac split_ifs :=
  repeat match goal with
         | |- context [decide ?P] => destruct (decide P)
         | H : context [decide ?P] |- _ => destruct (decide P)
         | |- context [if ?b then _ else _] => destruct b eqn:?
         | H : context [if ?b then _ else _] |- _ => destruct b eqn:?
         end.

(** Boolean tests on [Z] to propositions. *)
Ltac zbool :=
  repeat match goal with
         | H : (_ <? _) = true |- _ => apply Z.ltb_lt in H
         | H : (_ <? _) = false |- _ => apply Z.ltb_ge in H
         | H : (_ <=? _) = true |- _ => apply Z.leb_le in H
         | H : (_ <=? _) = false |- _ => apply Z.leb_gt in H
         | H : (_ =? _) = true |- _ => apply Z.eqb_eq in H
         | H : (_ =? _) = false |- _ => apply Z.eqb_neq in H
         end.

(** Linear arithmetic with quotients and remainders. *)
Ltac zmod := Z.to_euclidean_division_equations; lia.

(** [lia] with the wrap-around functions unfolded. *)
Ltac wrap_lia :=
  unfold u8, u32, u64, s64, zlen in *; Z.div_mod_to_equations; lia.

(** ** Wrap-around *)

Lemma u64_small z : 0 <= z < 2 ^ 64 → u64 z = z.
Proof. intros. by apply Z.mod_small. Qed.

Lemma u32_small z : 0 <= z < 2 ^ 32 → u32 z = z.
Proof. intros. by apply Z.mod_small. Qed.

Lemma u64_bound z : 0 <= u64 z < 2 ^ 64.
Proof. by apply Z.mod_pos_bound. Qed.

Lemma u32_bound z : 0 <= u32 z < 2 ^ 32.
Proof. by apply Z.mod_pos_bound. Qed.

Lemma s64_bound z : - 2 ^ 63 <= s64 z < 2 ^ 63.
Proof. unfold s64. pose proof (Z.mod_pos_bound (z + 2 ^ 63) (2 ^ 64)). lia. Qed.

Lemma u64_s64 z : u64 (s64 z) = u64 z.
Proof.
  unfold u64, s64. rewrite Zminus_mod_idemp_l.
  f_equal. lia.
Qed.

Lemma s64_u64 z : s64 (u64 z) = s64 z.
Proof. unfold u64, s64. by rewrite Zplus_mod_idemp_l. Qed.

Lemma s64_small z : - 2 ^ 63 <= z < 2 ^ 63 → s64 z = z.
Proof. intros. unfold s64. rewrite Z.mod_small; lia. Qed.

Lemma u64_succ z : u64 (u64 z + 1) = u64 (z + 1).
Proof. unfold u64. by rewrite Zplus_mod_idemp_l. Qed.

Lemma u64_pred z : u64 (u64 z - 1) = u64 (z - 1).
Proof. unfold u64. by rewrite Zminus_mod_idemp_l. Qed.

#[export] Hint Resolve u64_bound u32_bound s64_bound : kv.

Lemma zlen_nonneg {A} (l : list A) : 0 <= zlen l.
Proof. unfold zlen. lia. Qed.

Lemma zlen_app {A} (l k : list A) : zlen (l ++ k) = zlen l + zlen k.
Proof. unfold zlen. rewrite length_app. lia. Qed.

Lemma zlen_nil {A} : zlen ([] : list A) = 0.
Proof. done. Qed.

Lemma zlen_cons {A} (x : A) l : zlen (x :: l) = zlen l + 1.
Proof. unfold zlen. simpl. lia. Qed.

#[export] Hint Rewrite @zlen_app @zlen_nil @zlen_cons : kv_rewrite.
#[export] Hint Resolve zlen_nonneg : kv.

(** ** Little-endian fields

    The engine writes integers with [file_.write(&x, sizeof x)] on a
    little-endian machine: an [n]-byte integer is [le_split n]. *)

#[global] Opaque le_split le_combine.

Lemma le_roundtrip n z :
  0 <= z < 2 ^ (Z.of_nat n * 8) → le_combine (le_split n z) = z.
Proof. intros. rewrite le_combine_split. by apply Z.mod_small. Qed.

Lemma le_split_take n z rest : take n (le_split n z ++ rest) = le_split n z.
Proof. rewrite take_app_length'; [done|by rewrite length_le_split]. Qed.

Lemma le_split_drop n z rest : drop n (le_split n z ++ rest) = rest.
Proof. rewrite drop_app_length'; [done|by rewrite length_le_split]. Qed.

(** ** Association lists and maps *)

(** Dropping every binding of a key from an association list deletes the key
    from the map it denotes. *)
Lemma list_to_map_filter_ne `{Countable K} {A} (k : K) (l : list (K * A)) :
  (list_to_map (filter (λ p, p.1 ≠ k) l) : gmap K A) = delete k (list_to_map l).
Proof.
  induction l as [|[k' a] l IH]; simpl.
  - by rewrite delete_empty.
  - rewrite filter_cons. simpl. case_decide as Hk.
    + simpl. by rewrite IH, delete_insert_ne by done.
    + subst k'. by rewrite IH, delete_insert_eq.
Qed.

(** Sum of a finite map of sizes. *)
Definition map_total `{Countable K} (m : gmap K Z) : Z := map_fold (λ _ v acc, v + acc) 0 m.

Lemma map_total_empty `{Countable K} : map_total (∅ : gmap K Z) = 0.
Proof. done. Qed.

Lemma map_total_insert `{Countable K} (m : gmap K Z) k v :
  m !! k = None → map_total (<[k:=v]> m) = v + map_total m.
Proof. intros. unfold map_total. rewrite map_fold_insert_L; [done|lia|done]. Qed.

Lemma map_total_delete `{Countable K} (m : gmap K Z) k v :
  m !! k = Some v → map_total m = v + map_total (delete k m).
Proof.
  intros. rewrite <- (map_total_insert (delete k m) k) by apply lookup_delete_eq.
  by rewrite insert_delete_id.
Qed.

Lemma map_total_nonneg `{Countable K} (m : gmap K Z) :
  map_Forall (λ _ v, 0 <= v) m → 0 <= map_total m.
Proof.
  induction m as [|k v m Hk IH] using map_ind; intros Hm; [done|].
  rewrite map_total_insert by done. apply map_Forall_insert in Hm as [? ?]; [|done].
  specialize (IH ltac:(done)). lia.
Qed.

(** ** Filters *)

Lemma filter_ext_in {A} (P Q : A → Prop) `{!∀ x, Decision (P x), !∀ x, Decision (Q x)}
    (l : list A) :
  (∀ x, x ∈ l → P x ↔ Q x) → filter P l = filter Q l.
Proof.
  induction l as [|x l IH]; intros Hext; [done|].
  rewrite !filter_cons, IH by (intros; apply Hext; by right).
  destruct (Hext x ltac:(left)). repeat case_decide; tauto.
Qed.

Lemma filter_fmap {A B} (f : A → B) (Q : A → Prop) (P : B → Prop)
    `{!∀ x, Decision (Q x), !∀ x, Decision (P x)} (l : list A) :
  (∀ x, Q x ↔ P (f x)) → f <$> filter Q l = filter P (f <$> l).
Proof.
  intros HQ. induction l as [|x l IH]; [done|].
  rewrite fmap_cons, !filter_cons. destruct (HQ x).
  repeat case_decide; [rewrite fmap_cons; by f_equal|tauto|tauto|done].
Qed.

Lemma filter_ne_id {A} `{EqDecision A} (x : A) (l : list A) : x ∉ l → filter (λ y, y ≠ x) l = l.
Proof.
  induction l as [|y l IH]; intros Hx; [done|]. apply not_elem_of_cons in Hx as [? ?].
  rewrite filter_cons, decide_True, IH by done. done.
Qed.

Lemma NoDup_key_inj {A B} (f : A → B) (l : list A) x y :
  NoDup (f <$> l) → x ∈ l → y ∈ l → f x = f y → x = y.
Proof.
  induction l as [|z l IH]; simpl; [by intros _ ?%not_elem_of_nil|].
  rewrite NoDup_cons. intros [Hz Hl] Hx Hy Hf.
  apply elem_of_cons in Hx as [->|Hx], Hy as [->|Hy]; auto;
    exfalso; apply Hz; rewrite list_elem_of_fmap; eauto.
Qed.

(** ** Counting loops

    [for (size_t i = 0; i < n; ++i)] with an early return: the body either
    continues with a new state or leaves with a result. The recursion is on
    the binary representation of [n], so a huge count that leaves early is
    still evaluated. *)

Section loops.
Context {S R : Type} (body : S → S + R).

Fixpoint for_pos (n : positive) (s : S) : S + R :=
  match n with
  | xH => body s
  | xO n => match for_pos n s with inl s => for_pos n s | inr r => inr r end
  | xI n =>
      match body s with
      | inl s => match for_pos n s with inl s => for_pos n s | inr r => inr r end
      | inr r => inr r
      end
  end.

Definition for_loop (n : Z) (s : S) : S + R :=
  match n with Zpos n => for_pos n s | _ => inl s end.

Fixpoint for_nat (n : nat) (s : S) : S + R :=
  match n with
  | O => inl s
  | Datatypes.S n => match body s with inl s => for_nat n s | inr r => inr r end
  end.

Lemma for_nat_add n m s :
  for_nat (n + m) s = match for_nat n s with inl s => for_nat m s | inr r => inr r end.
Proof.
  revert s. induction n as [|n IH]; intros s; simpl; [done|]. by destruct (body s).
Qed.

Lemma for_pos_nat n s : for_pos n s = for_nat (Pos.to_nat n) s.
Proof.
  revert s. induction n as [n IH|n IH|]; intros s.
  - rewrite Pos2Nat.inj_xI. simpl for_pos. simpl for_nat. destruct (body s); [|done].
    rewrite Nat.add_0_r, for_nat_add, IH. by destruct (for_nat _ _).
  - rewrite Pos2Nat.inj_xO. simpl for_pos. simpl Nat.mul. rewrite Nat.add_0_r, for_nat_add, IH.
    by destruct (for_nat _ _).
  - simpl. by destruct (body s).
Qed.

Lemma for_loop_nat n s : for_loop n s = for_nat (Z.to_nat n) s.
Proof. destruct n; [done|apply for_pos_nat|done]. Qed.
End loops.
