(* ===== verification/Files.v ===== *)
(** * The file system and the binary streams of the engine

    The persistence code opens files by path ([std::ofstream] in append or
    truncating mode, [std::ifstream]), writes raw bytes and reads them back.
    This file models what it uses of the standard library: a disk that maps
    paths to contents, the three ways of opening a file, and
    [istream::read] with [gcount()] and the stream state. *)

From S2P Require Import Prelude.

(** The files the process sees, and the paths the operating system refuses to
    open. *)
Record Disk := mkDisk {
  files : gmap bytes bytes;
  denied : gset bytes;
}.

Definition empty_disk : Disk := mkDisk ∅ ∅.

Definition contents_of (d : Disk) (path : bytes) : bytes :=
  default [] (files d !! path).

Definition set_file (d : Disk) (path content : bytes) : Disk :=
  mkDisk (<[path := content]> (files d)) (denied d).

(** [ofstream::open(path, binary | app | out)]: creates the file when it is
    absent, keeps its contents otherwise. [None]: [is_open()] is false. *)
Definition open_append (d : Disk) (path : bytes) : option Disk :=
  if decide (path ∈ denied d) then None
  else Some (set_file d path (contents_of d path)).

(** [ofstream::open(path, binary | out | trunc)]. *)
Definition open_trunc (d : Disk) (path : bytes) : option Disk :=
  if decide (path ∈ denied d) then None else Some (set_file d path []).

(** [ifstream]: the file it was opened on, the read position, [good()]. *)
Record ifstream := mkIfstream {
  is_path : bytes;
  is_pos : nat;
  is_good : bool;
}.

(** [ifstream::open(path, binary | in)]: [None] when [is_open()] is false. *)
Definition open_in (d : Disk) (path : bytes) : option ifstream :=
  if decide (path ∈ denied d) then None
  else match files d !! path with
       | Some _ => Some (mkIfstream path 0 true)
       | None => None
       end.

(** [istream::read(buf, n)]: the bytes delivered ([gcount()] is their number).
    A short read sets [eofbit] and [failbit]; a stream that is not good
    delivers nothing. The contents are looked up when the read happens, so a
    reader sees what a writer of the same file has flushed meanwhile. *)
Definition read (d : Disk) (s : ifstream) (n : Z) : bytes * ifstream :=
  if is_good s then
    let avail := drop (is_pos s) (contents_of d (is_path s)) in
    let got := take (Z.to_nat (Z.min n (zlen avail))) avail in
    (got, mkIfstream (is_path s) (is_pos s + length got) (n <=? zlen avail))
  else ([], s).

(** The unread bytes of a stream. *)
Definition unread (d : Disk) (s : ifstream) : bytes :=
  drop (is_pos s) (contents_of d (is_path s)).

(** ** Reading a field that is there, and one that is not *)

(** The stream after [n] more bytes were delivered. *)
Definition advance (s : ifstream) (n : nat) : ifstream :=
  mkIfstream (is_path s) (is_pos s + n) true.

Lemma unread_advance d s n bs rest :
  unread d s = bs ++ rest → n = length bs → unread d (advance s n) = rest.
Proof.
  unfold unread, advance; simpl. intros H ->.
  by rewrite <- drop_drop, H, drop_app_length.
Qed.

Lemma advance_advance s n m : advance (advance s n) m = advance s (n + m).
Proof. unfold advance; simpl. f_equal. lia. Qed.

Lemma read_full d s n bs rest :
  is_good s = true → unread d s = bs ++ rest → zlen bs = n →
  read d s n = (bs, advance s (length bs)).
Proof.
  unfold read, unread, advance. intros -> Hu Hn. rewrite Hu.
  rewrite zlen_app, Z.min_l by (pose proof (zlen_nonneg rest); lia).
  replace (Z.to_nat n) with (length bs) by (unfold zlen in *; lia).
  rewrite take_app_length.
  replace (n <=? _) with true; [done|].
  symmetry. apply Z.leb_le. pose proof (zlen_nonneg rest). lia.
Qed.

Lemma read_short d s n :
  zlen (unread d s) < n → zlen (read d s n).1 <> n.
Proof.
  unfold read, unread. intros H.
  pose proof (zlen_nonneg (drop (is_pos s) (contents_of d (is_path s)))).
  destruct (is_good s); simpl; [|rewrite zlen_nil; lia].
  unfold zlen in *. rewrite length_take. lia.
Qed.

Lemma contents_of_set_file d p c : contents_of (set_file d p c) p = c.
Proof. unfold contents_of, set_file; simpl. by rewrite lookup_insert_eq. Qed.

Lemma contents_of_set_file_ne d p q c :
  p ≠ q → contents_of (set_file d p c) q = contents_of d q.
Proof. intros. unfold contents_of, set_file; simpl. by rewrite lookup_insert_ne. Qed.

#[export] Hint Rewrite contents_of_set_file : kv_rewrite.

(** ** Reading as splitting

    The pure counterpart of [read]: cut [n] bytes off, or fail. *)

Definition split_at (n : Z) (p : bytes) : option (bytes * bytes) :=
  if n <=? zlen p then Some (take (Z.to_nat n) p, drop (Z.to_nat n) p) else None.

Lemma split_at_Some n p a b :
  0 <= n → split_at n p = Some (a, b) ↔ p = a ++ b ∧ zlen a = n.
Proof.
  intros Hn. unfold split_at, zlen. destruct (Z.leb_spec n (Z.of_nat (length p))).
  - split.
    + intros [= <- <-]. rewrite take_drop, length_take. split; [done|lia].
    + intros [-> <-]. by rewrite Nat2Z.id, take_app_length, drop_app_length.
  - split; [done|]. intros [-> <-]. rewrite length_app in *. lia.
Qed.

Lemma split_at_app n p q a b :
  0 <= n → split_at n p = Some (a, b) → split_at n (p ++ q) = Some (a, b ++ q).
Proof.
  intros Hn. rewrite !split_at_Some by done. intros [-> ?]. by rewrite <- app_assoc.
Qed.

Lemma read_split_Some d s n a b :
  is_good s = true → 0 <= n → split_at n (unread d s) = Some (a, b) →
  read d s n = (a, advance s (length a)) ∧ zlen a = n
  ∧ unread d (advance s (length a)) = b.
Proof.
  intros Hg Hn Hs. apply split_at_Some in Hs as [Hu Hz]; [|done].
  split_and!; eauto using read_full, unread_advance.
Qed.

Lemma read_split_None d s n :
  split_at n (unread d s) = None → zlen (read d s n).1 ≠ n.
Proof.
  unfold split_at. destruct (Z.leb_spec n (zlen (unread d s))); [done|].
  intros _. by apply read_short.
Qed.

Lemma split_at_0 p : split_at 0 p = Some ([], p).
Proof. by apply split_at_Some. Qed.

Lemma split_at_front a b n : zlen a = n → split_at n (a ++ b) = Some (a, b).
Proof. intros <-. apply split_at_Some; [apply zlen_nonneg|done]. Qed.

Lemma split_at_length n p a b :
  0 <= n → split_at n p = Some (a, b) → zlen p = n + zlen b.
Proof. intros Hn (-> & <-)%split_at_Some; [|done]. by rewrite zlen_app. Qed.

Lemma set_file_present d p q c : is_Some (files d !! q) → is_Some (files (set_file d p c) !! q).
Proof. simpl. rewrite lookup_insert. case_decide; eauto. Qed.

Lemma contents_of_Some d p c : is_Some (files d !! p) → contents_of d p = c → files d !! p = Some c.
Proof. unfold contents_of. intros [x ->] <-. done. Qed.

#[export] Hint Resolve set_file_present : kv.
