(* ===== verification/Wal.v ===== *)
(** * The write-ahead log

    [WALWriter] and [WALReader] of src/engine/include/wal.h and
    src/engine/src/wal.cpp: the record format, the buffering writer, and the
    reader that recovery uses. *)

From S2P Require Import Prelude Files.

(** [enum class WALOpType : uint8_t]. The underlying type is fixed, so the
    cast in the reader can also produce a value without a name. *)
Inductive WALOpType :=
| SET
| DELETE
| EXPIRE
| UnnamedOp (b : Init.Byte.byte).

Definition op_byte (op : WALOpType) : Init.Byte.byte :=
  match op with
  | SET => Byte.x01
  | DELETE => Byte.x02
  | EXPIRE => Byte.x03
  | UnnamedOp b => b
  end.

(** [static_cast<WALOpType>(op)]. *)
Definition op_of_byte (b : Init.Byte.byte) : WALOpType :=
  match b with
  | Byte.x01 => SET
  | Byte.x02 => DELETE
  | Byte.x03 => EXPIRE
  | _ => UnnamedOp b
  end.

Record WALRecord := mkWALRecord {
  op_type : WALOpType;
  wkey : bytes;
  wvalue : bytes;
  ttl_ns : Z;
}.

(** ** WALWriter *)

Record WALWriter := mkWALWriter {
  filepath_ : bytes;
  batch_size_ : Z;
  buffer_ : list WALRecord;
  file_size_ : Z;
}.

(** The bytes [write_record] sends to the stream. The lengths are [uint32_t],
    so only the low 32 bits of [size()] are kept and only that many bytes of
    the key and the value follow. *)
Definition encode_record (r : WALRecord) : bytes :=
  let key_len := u32 (zlen (wkey r)) in
  let value_len := u32 (zlen (wvalue r)) in
  [op_byte (op_type r)]
    ++ le_split 4 key_len
    ++ take (Z.to_nat key_len) (wkey r)
    ++ le_split 4 value_len
    ++ (if 0 <? value_len then take (Z.to_nat value_len) (wvalue r) else [])
    ++ le_split 8 (ttl_ns r).

(** [write_record]: the sum [1 + 4 + key_len + 4 + value_len + 8] is computed
    in [uint32_t] before it is added to the [size_t] counter. *)
Definition write_record (r : WALRecord) (wd : WALWriter * Disk) : WALWriter * Disk :=
  let '(w, d) := wd in
  let key_len := u32 (zlen (wkey r)) in
  let value_len := u32 (zlen (wvalue r)) in
  (mkWALWriter (filepath_ w) (batch_size_ w) (buffer_ w)
     (file_size_ w +64 u32 (1 + 4 + key_len + 4 + value_len + 8)),
   set_file d (filepath_ w) (contents_of d (filepath_ w) ++ encode_record r)).

(** [WALWriter::WALWriter]; [None] is the [runtime_error] of a failed open. *)
Definition open_writer (filepath : bytes) (batch_size : Z) (d : Disk)
  : option (WALWriter * Disk) :=
  match open_append d filepath with
  | None => None
  | Some d' => Some (mkWALWriter filepath batch_size [] (zlen (contents_of d' filepath)), d')
  end.

(** [flush]: every buffered record is written, then the stream is flushed and
    synced and the buffer cleared. *)
Definition flush (wd : WALWriter * Disk) : WALWriter * Disk :=
  match buffer_ wd.1 with
  | [] => wd
  | rs =>
      let '(w, d) := fold_left (λ acc r, write_record r acc) rs wd in
      (mkWALWriter (filepath_ w) (batch_size_ w) [] (file_size_ w), d)
  end.

Definition append (r : WALRecord) (wd : WALWriter * Disk) : WALWriter * Disk :=
  let '(w, d) := wd in
  let w' := mkWALWriter (filepath_ w) (batch_size_ w) (buffer_ w ++ [r]) (file_size_ w) in
  if batch_size_ w <=? zlen (buffer_ w') then flush (w', d) else (w', d).

(** [~WALWriter]: flush, then close. *)
Definition close_writer (wd : WALWriter * Disk) : Disk := (flush wd).2.

Definition writer_size (w : WALWriter) : Z := file_size_ w.

Definition pending_count (w : WALWriter) : Z := zlen (buffer_ w).

(** ** WALReader *)

Record WALReader := mkWALReader {
  file_ : ifstream;
  records_read_ : Z;
}.

(** [WALReader::WALReader]; [None] is the [runtime_error]. *)
Definition open_reader (filepath : bytes) (d : Disk) : option WALReader :=
  match open_in d filepath with
  | None => None
  | Some s => Some (mkWALReader s 0)
  end.

(** [read_next]: [None] stands for the return value [false]. Each field is
    rejected when [gcount()] differs from its size. *)
Definition read_next (d : Disk) (rd : WALReader) : option WALRecord * WALReader :=
  let fail s := (None, mkWALReader s (records_read_ rd)) in
  if negb (is_good (file_ rd)) then (None, rd)
  else
    let '(b_op, s1) := read d (file_ rd) 1 in
    match b_op with
    | [op] =>
      let '(b_kl, s2) := read d s1 4 in
      if negb (zlen b_kl =? 4) then fail s2 else
      let key_len := le_combine b_kl in
      let '(key, s3) := read d s2 key_len in
      if negb (zlen key =? key_len) then fail s3 else
      let '(b_vl, s4) := read d s3 4 in
      if negb (zlen b_vl =? 4) then fail s4 else
      let value_len := le_combine b_vl in
      let '(value, s5) := if 0 <? value_len then read d s4 value_len else ([], s4) in
      if negb (zlen value =? value_len) then fail s5 else
      let '(b_ttl, s6) := read d s5 8 in
      if negb (zlen b_ttl =? 8) then fail s6 else
      (Some (mkWALRecord (op_of_byte op) key value (s64 (le_combine b_ttl))),
       mkWALReader s6 (records_read_ rd +64 1))
    | _ => fail s1
    end.

Definition is_valid (rd : WALReader) : bool := is_good (file_ rd).

Definition records_read (rd : WALReader) : Z := records_read_ rd.

(** [read_string]: the length-prefixed reader (a private helper no caller
    uses). *)
Definition read_string (d : Disk) (s : ifstream) : option bytes * ifstream :=
  let '(b_len, s1) := read d s 4 in
  if negb (zlen b_len =? 4) then (None, s1) else
  let len := le_combine b_len in
  let '(bs, s2) := read d s1 len in
  (if zlen bs =? len then Some bs else None, s2).

(** The records a reader delivers until it returns false: the loop
    [while (reader.read_next(record))] with the log left alone. A record takes
    at least 17 bytes, so the number of unread bytes bounds the iterations. *)
Fixpoint read_loop (fuel : nat) (d : Disk) (rd : WALReader) : list WALRecord :=
  match fuel with
  | O => []
  | S fuel =>
      match read_next d rd with
      | (Some r, rd') => r :: read_loop fuel d rd'
      | (None, _) => []
      end
  end.

Definition read_all (d : Disk) (rd : WALReader) : list WALRecord :=
  read_loop (S (length (unread d (file_ rd)))) d rd.

(** ** Records that the format can hold *)

(** Lengths below 2^32 and a [ttl_ns] in the range of [int64_t]; the operation
    is what the reader's cast would give. *)
Definition fits (r : WALRecord) : Prop :=
  zlen (wkey r) < 2 ^ 32 ∧ zlen (wvalue r) < 2 ^ 32 ∧
  - 2 ^ 63 <= ttl_ns r < 2 ^ 63 ∧ op_of_byte (op_byte (op_type r)) = op_type r.

Definition encode_all (rs : list WALRecord) : bytes := mbind encode_record rs.

Lemma encode_all_cons r rs : encode_all (r :: rs) = encode_record r ++ encode_all rs.
Proof. done. Qed.

Lemma encode_all_app rs1 rs2 : encode_all (rs1 ++ rs2) = encode_all rs1 ++ encode_all rs2.
Proof. apply bind_app. Qed.

Lemma encode_fits r :
  fits r →
  encode_record r =
    [op_byte (op_type r)] ++ le_split 4 (zlen (wkey r)) ++ wkey r
      ++ le_split 4 (zlen (wvalue r)) ++ wvalue r ++ le_split 8 (ttl_ns r).
Proof.
  intros (Hk & Hv & Ht & Ho). unfold encode_record.
  rewrite !u32_small by (split; [apply zlen_nonneg|done]).
  unfold zlen in *. rewrite !Nat2Z.id, !firstn_all.
  do 5 f_equal. destruct (wvalue r); done.
Qed.

Lemma length_encode_record r :
  fits r → zlen (encode_record r) = 17 + zlen (wkey r) + zlen (wvalue r).
Proof.
  intros H. rewrite encode_fits by done.
  rewrite !zlen_app. unfold zlen. rewrite !length_le_split. simpl. lia.
Qed.

Lemma encode_record_nonempty r : (17 ≤ length (encode_record r))%nat.
Proof.
  unfold encode_record. rewrite !length_app, !length_le_split. simpl. lia.
Qed.

#[global] Opaque encode_record.

Lemma le4_small z : 0 <= z < 2 ^ 32 → le_combine (le_split 4 z) = z.
Proof. intros. by apply le_roundtrip. Qed.

Lemma le8_s64 z : - 2 ^ 63 <= z < 2 ^ 63 → s64 (le_combine (le_split 8 z)) = z.
Proof.
  intros. rewrite le_combine_split. change (z mod _) with (u64 z).
  rewrite s64_u64. by apply s64_small.
Qed.

Lemma zlen_le_split n z : zlen (le_split n z) = Z.of_nat n.
Proof. unfold zlen. by rewrite length_le_split. Qed.

(** ** The record grammar

    [decode_record] reads one record off the front of a byte string: the
    reference that [read_next] implements on a stream. *)

Definition decode_record (p : bytes) : option (WALRecord * bytes) :=
  '(b_op, p1) ← split_at 1 p;
  '(b_kl, p2) ← split_at 4 p1;
  '(key, p3) ← split_at (le_combine b_kl) p2;
  '(b_vl, p4) ← split_at 4 p3;
  '(value, p5) ← split_at (le_combine b_vl) p4;
  '(b_ttl, p6) ← split_at 8 p5;
  op ← head b_op;
  Some (mkWALRecord (op_of_byte op) key value (s64 (le_combine b_ttl)), p6).

Lemma le_combine_nonneg bs : 0 <= le_combine bs.
Proof. apply le_combine_bound. Qed.

#[export] Hint Resolve le_combine_nonneg : kv.

(** One field of [read_next] against one step of [decode_record]: on success
    continue behind the field, on failure both reject. *)
Ltac read_field :=
  match goal with
  | |- context [split_at ?n (unread ?d ?s)] =>
      let E := fresh "E" in
      let Hz := fresh "Hz" in
      let Hrest := fresh "Hrest" in
      let fld := fresh "fld" in
      destruct (split_at n (unread d s)) as [[fld ?]|] eqn:E;
      [ apply read_split_Some in E as (-> & Hz & Hrest);
        [|done|solve [eauto with kv|lia]];
        subst; rewrite ?(proj2 (Z.eqb_eq _ _) Hz)
      | apply read_split_None in E; destruct (read d s n) as [fld ?];
        cbn -[split_at read unread zlen le_combine] in *;
        rewrite ?(proj2 (Z.eqb_neq _ _) E); try done ];
      cbn -[split_at read unread zlen le_combine] in *
  end.

(** [read_next] and [decode_record] agree: a record is delivered exactly when
    the unread bytes start with one, and the stream then stands behind it. *)
Definition agrees (d : Disk) (rd : WALReader) : Prop :=
  match decode_record (unread d (file_ rd)) with
  | Some (r, rest) =>
      ∃ n, read_next d rd
           = (Some r, mkWALReader (advance (file_ rd) n) (records_read_ rd +64 1))
      ∧ unread d (advance (file_ rd) n) = rest
  | None => (read_next d rd).1 = None
  end.

Lemma read_next_decode d rd : is_good (file_ rd) = true → agrees d rd.
Proof.
  intros Hg. unfold agrees, decode_record, read_next. rewrite Hg. simpl negb. cbv iota.
  read_field.
  2: { destruct fld as [|? [|? ?]]; done. }
  destruct fld as [|op [|? ?]]; [done| |unfold zlen in Hz; simpl in Hz; lia].
  do 3 read_field.
  destruct (Z.ltb_spec 0 (le_combine fld1)) as [Hlt|Hge].
  - do 2 read_field. eexists. by rewrite !advance_advance.
  - assert (le_combine fld1 = 0) as -> by (pose proof (le_combine_nonneg fld1); lia).
    rewrite split_at_0. cbn -[split_at read unread zlen le_combine].
    read_field. eexists. by rewrite !advance_advance.
Qed.

Lemma bind_Some_pair {A B C} (m : option (A * B)) (f : A * B → option C) c :
  m ≫= f = Some c → ∃ a b, m = Some (a, b) ∧ f (a, b) = Some c.
Proof. destruct m as [[a b]|]; [eauto|done]. Qed.

(** Take a successful [decode_record] apart, field by field. *)
Ltac decode_fields H :=
  repeat (let a := fresh "f" in let b := fresh "p" in let E := fresh "Ef" in
          apply bind_Some_pair in H as (a & b & E & H));
  apply bind_Some in H as (? & ? & H); simplify_eq.

Lemma decode_app p q r rest :
  decode_record p = Some (r, rest) → decode_record (p ++ q) = Some (r, rest ++ q).
Proof.
  unfold decode_record. intros H. decode_fields H.
  repeat (erewrite split_at_app; [|solve [eauto with kv|lia]|eassumption]; simpl).
  by simplify_option_eq.
Qed.

Lemma decode_shorter p r rest :
  decode_record p = Some (r, rest) → (length rest + 17 ≤ length p)%nat.
Proof.
  unfold decode_record. intros H. decode_fields H.
  repeat match goal with
         | E : split_at _ _ = Some _ |- _ =>
             apply split_at_length in E; [|solve [eauto with kv|lia]]
         end.
  pose proof (le_combine_nonneg f0). pose proof (le_combine_nonneg f2).
  unfold zlen in *. lia.
Qed.

Lemma decode_encode r rest :
  fits r → decode_record (encode_record r ++ rest) = Some (r, rest).
Proof.
  intros Hf. rewrite encode_fits by done. destruct Hf as (Hk & Hv & Ht & Ho).
  pose proof (zlen_nonneg (wkey r)). pose proof (zlen_nonneg (wvalue r)).
  unfold decode_record. rewrite <- !app_assoc.
  repeat (rewrite split_at_front
            by (rewrite ?le4_small by lia; done || apply zlen_le_split);
          cbn [mbind option_bind]).
  cbn [hd_error mbind option_bind].
  rewrite Ho, le8_s64 by done. by destruct r.
Qed.

(** A record cut short is not delivered. *)
Lemma decode_torn r n :
  fits r → (n < length (encode_record r))%nat →
  decode_record (take n (encode_record r)) = None.
Proof.
  intros Hf Hn. destruct (decode_record _) as [[r' rest]|] eqn:E; [|done].
  apply (decode_app _ (drop n (encode_record r))) in E. rewrite take_drop in E.
  pose proof (decode_encode r [] Hf) as E'. rewrite app_nil_r in E'.
  rewrite E in E'. injection E' as _ E'.
  apply app_eq_nil in E' as [_ E'].
  apply (f_equal length) in E'. rewrite length_drop in E'. simpl in E'. lia.
Qed.

(** ** Reading a log back, whole or torn *)

(** The records that lie entirely within the first [n] bytes of a log. *)
Fixpoint whole (rs : list WALRecord) (n : nat) : list WALRecord :=
  match rs with
  | [] => []
  | r :: rs =>
      if decide (length (encode_record r) ≤ n)%nat
      then r :: whole rs (n - length (encode_record r)) else []
  end.

Lemma whole_prefix rs n : whole rs n `prefix_of` rs.
Proof.
  revert n. induction rs as [|r rs IH]; intros n; simpl; [done|].
  case_decide; [by apply prefix_cons|apply prefix_nil].
Qed.

Lemma whole_all rs n : (length (encode_all rs) ≤ n)%nat → whole rs n = rs.
Proof.
  revert n. induction rs as [|r rs IH]; intros n; [done|].
  rewrite encode_all_cons, length_app. simpl. intros.
  rewrite decide_True by lia. rewrite IH by lia. done.
Qed.

Lemma take_encode_cons n r rs :
  (length (encode_record r) ≤ n)%nat →
  take n (encode_all (r :: rs))
  = encode_record r ++ take (n - length (encode_record r)) (encode_all rs).
Proof. intros. by rewrite encode_all_cons, take_app_ge. Qed.

Lemma read_loop_torn rs : ∀ fuel d rd n,
  Forall fits rs → is_good (file_ rd) = true →
  unread d (file_ rd) = take n (encode_all rs) →
  (length (unread d (file_ rd)) < fuel)%nat →
  read_loop fuel d rd = whole rs n.
Proof.
  induction rs as [|r rs IH]; intros fuel d rd n Hfits Hg Hu Hfuel;
    (destruct fuel as [|fuel]; [lia|]); simpl;
    pose proof (read_next_decode d rd Hg) as Hagree; unfold agrees in Hagree; rewrite Hu in *.
  - rewrite (take_nil n : take n (encode_all []) = []) in Hagree. simpl in Hagree. by destruct (read_next d rd) as [[?|] ?].
  - apply Forall_cons in Hfits as [Hr Hrs]. case_decide as Hn.
    + rewrite take_encode_cons in Hagree, Hfuel by done.
      rewrite decode_encode in Hagree by done.
      destruct Hagree as (m & -> & Hrest). f_equal. apply IH; [done..|].
      simpl. rewrite Hrest. rewrite length_app in Hfuel.
      pose proof (encode_record_nonempty r). lia.
    + rewrite encode_all_cons, take_app_le, decode_torn in Hagree by (done || lia).
      by destruct (read_next d rd) as [[?|] ?].
Qed.

(** Opening a log that holds the first [n] bytes of an encoded history. *)
Lemma read_all_torn d path rs n :
  Forall fits rs → path ∉ denied d →
  files d !! path = Some (take n (encode_all rs)) →
  ∃ rd, open_reader path d = Some rd ∧ read_all d rd = whole rs n.
Proof.
  intros Hfits Hden Hf. exists (mkWALReader (mkIfstream path 0 true) 0). split.
  - unfold open_reader, open_in. by rewrite decide_False, Hf by done.
  - eapply read_loop_torn; [done|done| |simpl; lia].
    unfold unread, contents_of; simpl. by rewrite Hf, drop_0.
Qed.

(** ** The writer's log

    What the file holds followed by what is still buffered: the sequence of
    records the engine has handed to the writer. *)

Definition log_of (wd : WALWriter * Disk) : bytes :=
  contents_of wd.2 (filepath_ wd.1) ++ encode_all (buffer_ wd.1).

Definition write_all (rs : list WALRecord) (wd : WALWriter * Disk) : WALWriter * Disk :=
  fold_left (λ acc r, write_record r acc) rs wd.

Lemma write_all_frame rs wd :
  filepath_ (write_all rs wd).1 = filepath_ wd.1
  ∧ batch_size_ (write_all rs wd).1 = batch_size_ wd.1
  ∧ buffer_ (write_all rs wd).1 = buffer_ wd.1
  ∧ denied (write_all rs wd).2 = denied wd.2
  ∧ (∀ p, p ≠ filepath_ wd.1 → contents_of (write_all rs wd).2 p = contents_of wd.2 p)
  ∧ contents_of (write_all rs wd).2 (filepath_ wd.1)
    = contents_of wd.2 (filepath_ wd.1) ++ encode_all rs.
Proof.
  revert wd. induction rs as [|r rs IH]; intros [w d]; simpl.
  - by rewrite app_nil_r.
  - destruct (IH (write_record r (w, d))) as (H1 & H2 & H3 & H4 & Hne & Heq).
    simpl in *. rewrite H1, H2, H3, H4, Heq, contents_of_set_file, <- app_assoc.
    split_and!; try done.
    intros p Hp. rewrite Hne, contents_of_set_file_ne; congruence.
Qed.

Lemma flush_frame wd :
  filepath_ (flush wd).1 = filepath_ wd.1
  ∧ batch_size_ (flush wd).1 = batch_size_ wd.1
  ∧ buffer_ (flush wd).1 = []
  ∧ denied (flush wd).2 = denied wd.2
  ∧ (∀ p, p ≠ filepath_ wd.1 → contents_of (flush wd).2 p = contents_of wd.2 p)
  ∧ contents_of (flush wd).2 (filepath_ wd.1) = log_of wd.
Proof.
  unfold flush, log_of. pose proof (write_all_frame (buffer_ wd.1) wd) as H.
  unfold write_all in H. destruct (buffer_ wd.1) as [|r rs] eqn:E.
  - by rewrite E, app_nil_r.
  - destruct (fold_left _ _ _) as [w d]. simpl in *. intuition auto.
Qed.

Lemma append_frame r wd :
  filepath_ (append r wd).1 = filepath_ wd.1
  ∧ batch_size_ (append r wd).1 = batch_size_ wd.1
  ∧ denied (append r wd).2 = denied wd.2
  ∧ (∀ p, p ≠ filepath_ wd.1 → contents_of (append r wd).2 p = contents_of wd.2 p).
Proof.
  destruct wd as [w d]. unfold append. case_match; [|done].
  pose proof (flush_frame (mkWALWriter (filepath_ w) (batch_size_ w)
                             (buffer_ w ++ [r]) (file_size_ w), d)). intuition auto.
Qed.

Lemma flush_log wd : log_of (flush wd) = log_of wd.
Proof.
  destruct (flush_frame wd) as (Hp & _ & Hb & _ & _ & Hc).
  unfold log_of at 1. by rewrite Hp, Hb, Hc, app_nil_r.
Qed.

Lemma append_log r wd : log_of (append r wd) = log_of wd ++ encode_record r.
Proof.
  destruct wd as [w d]. unfold append. case_match; [rewrite flush_log|];
    unfold log_of; simpl; rewrite encode_all_app; simpl;
    by rewrite <- app_assoc, app_nil_r.
Qed.

(** ** Batching

    [append_all] is a history of appends. *)

Definition append_all (rs : list WALRecord) (wd : WALWriter * Disk) : WALWriter * Disk :=
  fold_left (λ acc r, append r acc) rs wd.

(** Where a history of appends leaves the writer: the records split into those
    on disk, whose number is a multiple of the batch size, and fewer than a
    batch still buffered. *)
Definition batched (base : bytes) (rs : list WALRecord) (wd : WALWriter * Disk) : Prop :=
  ∃ done, rs = done ++ buffer_ wd.1
  ∧ contents_of wd.2 (filepath_ wd.1) = base ++ encode_all done
  ∧ zlen (buffer_ wd.1) < batch_size_ wd.1
  ∧ (batch_size_ wd.1 | zlen done).

Lemma append_batched base rs r wd :
  1 <= batch_size_ wd.1 → batched base rs wd → batched base (rs ++ [r]) (append r wd).
Proof.
  destruct wd as [w d]. intros Hb (done & -> & Hc & Hlt & Hdiv). simpl in *.
  unfold append. simpl. destruct (Z.leb_spec (batch_size_ w) (zlen (buffer_ w ++ [r]))) as [Hge|Hl].
  - pose proof (flush_frame (mkWALWriter (filepath_ w) (batch_size_ w)
                             (buffer_ w ++ [r]) (file_size_ w), d)) as (E1&E2&E3&_&_&E6).
    exists (done ++ buffer_ w ++ [r]). simpl in *. rewrite E1, E2, E3, E6.
    unfold log_of; simpl. rewrite Hc, !encode_all_app, !zlen_app in *. simpl.
    rewrite app_nil_r, <- !app_assoc. split_and!; try done.
    + rewrite zlen_nil. lia.
    + assert (zlen (buffer_ w) + zlen [r] = batch_size_ w) as ->
        by (autorewrite with kv_rewrite in *; lia).
      apply Z.divide_add_r; [done|apply Z.divide_refl].
  - exists done. simpl. rewrite app_assoc. done.
Qed.

Lemma append_all_batched base rs0 rs wd :
  1 <= batch_size_ wd.1 → batched base rs0 wd → batched base (rs0 ++ rs) (append_all rs wd).
Proof.
  revert rs0 wd. induction rs as [|r rs IH]; intros rs0 wd Hb Hw; simpl.
  - by rewrite app_nil_r.
  - rewrite (app_assoc rs0 [r] rs : rs0 ++ r :: rs = _). apply IH.
    + destruct (append_frame r wd) as (_ & -> & _). done.
    + by apply append_batched.
Qed.

Lemma append_all_frame rs wd :
  filepath_ (append_all rs wd).1 = filepath_ wd.1
  ∧ batch_size_ (append_all rs wd).1 = batch_size_ wd.1
  ∧ denied (append_all rs wd).2 = denied wd.2.
Proof.
  revert wd. induction rs as [|r rs IH]; intros wd; simpl; [done|].
  destruct (IH (append r wd)) as (-> & -> & ->).
  destruct (append_frame r wd) as (-> & -> & -> & _). done.
Qed.

Lemma write_all_present p rs wd :
  is_Some (files wd.2 !! p) → is_Some (files (write_all rs wd).2 !! p).
Proof.
  revert wd. induction rs as [|r rs IH]; intros [w d] Hp; simpl; [done|].
  apply IH. by apply set_file_present.
Qed.

Lemma flush_present p wd :
  is_Some (files wd.2 !! p) → is_Some (files (flush wd).2 !! p).
Proof.
  intros Hp. apply (write_all_present p (buffer_ wd.1)) in Hp.
  unfold flush, write_all in *. destruct (buffer_ wd.1); [done|].
  by destruct (fold_left _ _ _).
Qed.

Lemma append_present p r wd :
  is_Some (files wd.2 !! p) → is_Some (files (append r wd).2 !! p).
Proof.
  destruct wd as [w d]. unfold append. intros. case_match; [|done].
  by apply flush_present.
Qed.

Lemma append_all_present p rs wd :
  is_Some (files wd.2 !! p) → is_Some (files (append_all rs wd).2 !! p).
Proof.
  revert wd. induction rs as [|r rs IH]; intros wd Hp; simpl; [done|].
  by apply IH, append_present.
Qed.

Lemma open_writer_Some path b d w d' :
  open_writer path b d = Some (w, d') →
  w = mkWALWriter path b [] (zlen (contents_of d path))
  ∧ d' = set_file d path (contents_of d path) ∧ path ∉ denied d.
Proof.
  unfold open_writer, open_append. case_decide; [done|]. intros [= <- <-].
  by rewrite contents_of_set_file.
Qed.

(** C12: crash recovery of the log. A log file that a crash cut after any
    number [n] of bytes of a written history is opened by the reader, which
    delivers exactly the records that lie whole within those bytes, in order,
    and nothing of the torn one. *)
Theorem wal_torn_log_recovery d path rs n :
  Forall fits rs → path ∉ denied d →
  files d !! path = Some (take n (encode_all rs)) →
  ∃ rd, open_reader path d = Some rd ∧ read_all d rd = whole rs n.
Proof. apply read_all_torn. Qed.

Definition two_records : list WALRecord :=
  [mkWALRecord SET (str "k") (str "v1") 0; mkWALRecord DELETE (str "k") [] 0].

Lemma two_records_fit : Forall fits two_records.
Proof. repeat constructor; vm_compute; done. Qed.

Lemma wal_torn_log_recovery_witness :
  ∃ rd, open_reader (str "wal") (set_file empty_disk (str "wal") (take 30 (encode_all two_records)))
        = Some rd
  ∧ read_all (set_file empty_disk (str "wal") (take 30 (encode_all two_records))) rd
    = take 1 two_records.
Proof.
  refine (wal_torn_log_recovery _ (str "wal") two_records 30 two_records_fit _ _).
  - vm_compute. intros H. inversion H.
  - simpl. apply lookup_insert_eq.
Defined.

(** Batching loses less than one batch. After any history of appends to a
    fresh log, the process can be killed: what is on disk reads back as the
    longest prefix of the history whose length is a multiple of the batch
    size, so at most [batch_size - 1] of the latest records are missing. *)
Theorem wal_crash_keeps_whole_batches d0 path b rs w d w' d' :
  1 <= b → Forall fits rs → contents_of d0 path = [] →
  open_writer path b d0 = Some (w, d) →
  append_all rs (w, d) = (w', d') →
  ∃ rd, open_reader path d' = Some rd
  ∧ read_all d' rd = take (Z.to_nat (zlen rs / b * b)) rs.
Proof.
  intros Hb Hfits H0 (-> & -> & Hden)%open_writer_Some Happ.
  rewrite H0 in Happ.
  set (wd := (mkWALWriter path b [] (zlen []), set_file d0 path [])) in *.
  destruct (append_all_batched [] [] rs wd) as (flushed & Hrs & Hc & Hlt & k & Hk);
    [done|exists []; simpl; autorewrite with kv_rewrite; split_and!; try done; [lia|apply Z.divide_0_r]|].
  destruct (append_all_frame rs wd) as (Hp & Hbs & Hdn).
  rewrite Happ in *. simpl in *. rewrite Hp, Hbs in *.
  assert (take (Z.to_nat (zlen rs / b * b)) rs = flushed) as ->.
  { rewrite Hrs, zlen_app, Hk, Z.div_add_l, Z.div_small
      by (pose proof (zlen_nonneg (buffer_ w')); lia).
    rewrite Z.add_0_r, <- Hk. unfold zlen. rewrite Nat2Z.id. apply take_app_length. }
  rewrite <- (whole_all flushed (length (encode_all flushed)) ltac:(done)).
  apply read_all_torn; [rewrite Hrs in Hfits; by apply Forall_app in Hfits as [? _]|by rewrite Hdn|].
  rewrite firstn_all. apply contents_of_Some; [|done].
  change d' with ((w', d').2). rewrite <- Happ. apply append_all_present. simpl.
  rewrite lookup_insert_eq. eauto.
Qed.

Lemma wal_crash_keeps_whole_batches_witness :
  ∃ rd, open_reader (str "wal")
          (append_all (two_records ++ two_records ++ [mkWALRecord SET (str "z") (str "9") 5])
             (mkWALWriter (str "wal") 2 [] 0, set_file empty_disk (str "wal") [])).2 = Some rd
  ∧ read_all
      (append_all (two_records ++ two_records ++ [mkWALRecord SET (str "z") (str "9") 5])
         (mkWALWriter (str "wal") 2 [] 0, set_file empty_disk (str "wal") [])).2 rd
    = two_records ++ two_records.
Proof.
  refine (wal_crash_keeps_whole_batches empty_disk (str "wal") 2
            (two_records ++ two_records ++ [mkWALRecord SET (str "z") (str "9") 5])
            (mkWALWriter (str "wal") 2 [] 0) (set_file empty_disk (str "wal") [])
            (append_all (two_records ++ two_records ++ [mkWALRecord SET (str "z") (str "9") 5])
               (mkWALWriter (str "wal") 2 [] 0, set_file empty_disk (str "wal") [])).1
            _ _ _ _ _ _).
  - lia.
  - repeat constructor; vm_compute; done.
  - done.
  - vm_compute. done.
  - by destruct (append_all _ _).
Defined.

(** ** The size counter *)

(** The sum [write_record] adds does not wrap in [uint32_t]. *)
Definition size_fits (r : WALRecord) : Prop :=
  fits r ∧ 17 + zlen (wkey r) + zlen (wvalue r) < 2 ^ 32.

Definition size_exact (wd : WALWriter * Disk) : Prop :=
  file_size_ wd.1 = u64 (zlen (contents_of wd.2 (filepath_ wd.1))).

Lemma write_record_size r wd :
  size_fits r → size_exact wd → size_exact (write_record r wd).
Proof.
  destruct wd as [w d]. unfold size_exact. intros [Hf Hs] H. simpl in *.
  rewrite contents_of_set_file, zlen_app, length_encode_record, H by done.
  destruct Hf as (Hk & Hv & _).
  pose proof (zlen_nonneg (wkey r)). pose proof (zlen_nonneg (wvalue r)).
  rewrite !(u32_small (zlen _)) by lia. rewrite u32_small by lia.
  unfold u64. rewrite Zplus_mod_idemp_l. f_equal. lia.
Qed.

Lemma write_all_size rs wd :
  Forall size_fits rs → size_exact wd → size_exact (write_all rs wd).
Proof.
  revert wd. induction rs as [|r rs IH]; intros wd Hrs H; simpl; [done|].
  apply Forall_cons in Hrs as [Hr Hrs]. by apply IH, write_record_size.
Qed.

Lemma flush_size wd :
  Forall size_fits (buffer_ wd.1) → size_exact wd → size_exact (flush wd).
Proof.
  intros Hb H. apply (write_all_size (buffer_ wd.1)) in H; [|done].
  unfold flush, write_all in *. destruct (buffer_ wd.1); [done|].
  by destruct (fold_left _ _ _).
Qed.

Definition writer_inv (wd : WALWriter * Disk) : Prop :=
  Forall size_fits (buffer_ wd.1) ∧ size_exact wd.

Lemma append_inv r wd : size_fits r → writer_inv wd → writer_inv (append r wd).
Proof.
  destruct wd as [w d]. intros Hr [Hb Hs]. unfold append.
  assert (Forall size_fits (buffer_ w ++ [r])) by (apply Forall_app; auto).
  case_match; [|done].
  split; [|by apply flush_size].
  by destruct (flush_frame (mkWALWriter (filepath_ w) (batch_size_ w)
                 (buffer_ w ++ [r]) (file_size_ w), d)) as (_ & _ & -> & _).
Qed.

Lemma append_all_inv rs wd : Forall size_fits rs → writer_inv wd → writer_inv (append_all rs wd).
Proof.
  revert wd. induction rs as [|r rs IH]; intros wd Hrs H; simpl; [done|].
  apply Forall_cons in Hrs as [Hr Hrs]. by apply IH, append_inv.
Qed.

(** [WALWriter::size()] is the length of the log file. For a log below
    2^64 bytes and records whose encoding is below 2^32 bytes, the counter
    equals the number of bytes on disk after any history of appends, whatever
    the file held when it was opened. *)
Theorem wal_size_is_file_length path b d0 w d rs w' d' :
  open_writer path b d0 = Some (w, d) → Forall size_fits rs →
  append_all rs (w, d) = (w', d') →
  zlen (contents_of d' path) < 2 ^ 64 →
  zlen (contents_of d0 path) < 2 ^ 64 →
  writer_size w' = zlen (contents_of d' path).
Proof.
  intros (-> & -> & _)%open_writer_Some Hrs Happ Hlt Hlt0.
  set (wd := (_, _)) in Happ.
  assert (writer_inv wd) as Hinv.
  { split; [constructor|]. unfold size_exact, wd; simpl. rewrite contents_of_set_file.
    symmetry. apply u64_small. split; [apply zlen_nonneg|done]. }
  apply (append_all_inv rs) in Hinv as [_ Hs]; [|done].
  destruct (append_all_frame rs wd) as (Hp & _). rewrite Happ in *. simpl in *.
  unfold size_exact in Hs. simpl in Hs. rewrite Hp in Hs. unfold writer_size. rewrite Hs.
  apply u64_small. split; [apply zlen_nonneg|done].
Qed.

Lemma wal_size_is_file_length_witness :
  writer_size (append_all two_records
     (mkWALWriter (str "wal") 2 [] 0, set_file empty_disk (str "wal") [])).1 = 38.
Proof.
  transitivity (zlen (contents_of (append_all two_records
     (mkWALWriter (str "wal") 2 [] 0, set_file empty_disk (str "wal") [])).2 (str "wal")));
    [|vm_compute; done].
  refine (wal_size_is_file_length (str "wal") 2 empty_disk
            (mkWALWriter (str "wal") 2 [] 0) (set_file empty_disk (str "wal") [])
            two_records _ _ _ _ _ _ _).
  - vm_compute. done.
  - repeat constructor; vm_compute; done.
  - by destruct (append_all _ _).
  - vm_compute. done.
  - vm_compute. done.
Defined.
