(* ===== verification/Policy.v ===== *)
(** * The eviction-policy interface

    [HashTable] drives its eviction policy through five calls: [on_access],
    [on_insert], [on_delete], [get_eviction_candidate] and [should_evict]
    (src/engine/include/lru_policy.h, lfu_policy.h). The class states the calls
    and what the table relies on: which keys are tracked, with which size, how
    memory is counted, and that a candidate is a tracked key. The theorems on
    the table are proved against this interface; the LRU and the LFU policy and
    the table's dispatch between them are its instances. *)

From S2P Require Import Prelude.

(** The counter after [on_delete]: subtraction that stops at zero. *)
Definition mem_sub (mem sz : Z) : Z := if sz <=? mem then mem - sz else 0.

Class EvictionPolicy (P : Type) := {
  (** The calls. The table hands over both the access time, which LRU uses,
      and the access count, which LFU uses. *)
  pol_access : bytes → Z → Z → P → P;
  pol_insert : bytes → Z → Z → Z → P → P;
  pol_delete : bytes → Z → P → P;
  pol_candidate : P → bytes * P;
  pol_should_evict : P → bool;

  (** The abstract state: sizes by tracked key, the counter, the limit. *)
  pol_tracked : P → gmap bytes Z;
  pol_memory : P → Z;
  pol_limit : P → Z;
  pol_inv : P → Prop;

  pol_should_evict_spec p : pol_should_evict p = (pol_limit p <? pol_memory p);

  pol_access_spec k t c p :
    pol_inv p →
    pol_inv (pol_access k t c p) ∧ pol_tracked (pol_access k t c p) = pol_tracked p
    ∧ pol_memory (pol_access k t c p) = pol_memory p
    ∧ pol_limit (pol_access k t c p) = pol_limit p;

  pol_insert_spec k sz t c p :
    pol_inv p → pol_tracked p !! k = None →
    pol_inv (pol_insert k sz t c p)
    ∧ pol_tracked (pol_insert k sz t c p) = <[k := sz]> (pol_tracked p)
    ∧ pol_memory (pol_insert k sz t c p) = pol_memory p +64 sz
    ∧ pol_limit (pol_insert k sz t c p) = pol_limit p;

  pol_delete_spec k sz p :
    pol_inv p →
    pol_inv (pol_delete k sz p)
    ∧ pol_tracked (pol_delete k sz p) = delete k (pol_tracked p)
    ∧ pol_memory (pol_delete k sz p)
      = (if decide (is_Some (pol_tracked p !! k)) then mem_sub (pol_memory p) sz
         else pol_memory p)
    ∧ pol_limit (pol_delete k sz p) = pol_limit p;

  (** A candidate other than the empty string is tracked, and deleting it
      restores the invariant that asking for it may have suspended. The empty
      string means that nothing is tracked, unless the empty string is itself
      a tracked key. *)
  pol_candidate_spec p k p' :
    pol_inv p → pol_candidate p = (k, p') →
    pol_tracked p' = pol_tracked p ∧ pol_memory p' = pol_memory p
    ∧ pol_limit p' = pol_limit p
    ∧ (k ≠ [] → is_Some (pol_tracked p !! k)
               ∧ ∀ sz, pol_inv (pol_delete k sz p')
                  ∧ pol_tracked (pol_delete k sz p') = delete k (pol_tracked p)
                  ∧ pol_memory (pol_delete k sz p') = mem_sub (pol_memory p) sz
                  ∧ pol_limit (pol_delete k sz p') = pol_limit p)
    ∧ (k = [] → pol_inv p'
               ∧ (pol_tracked p = ∅ ∨ is_Some (pol_tracked p !! ([] : bytes))));
}.
