(* ===== verification/Lru.v ===== *)
(** * The least-recently-used policy

    [LRUPolicy] of src/engine/include/lru_policy.h and
    src/engine/src/lru_policy.cpp. The [std::list] is a list of nodes with
    their addresses, and an iterator is an address, so that the map from keys
    to iterators and the list are two structures that the operations have to
    keep consistent. *)

From stdpp Require Import sorting.
From S2P Require Import Prelude Policy.

Module LRU.

Record Entry := mkEntry {
  key : bytes;
  last_access_ns : Z;
  value_size : Z;
}.

(** A list node: its address and its entry. *)
Definition node : Type := nat * Entry.

Record LRUPolicy := mkLRU {
  memory_limit_ : Z;
  current_memory_ : Z;
  access_list_ : list node;          (* front = most recent *)
  key_to_iter_ : gmap bytes nat;     (* key to list iterator *)
  next_node : nat;                   (* address of the next allocated node *)
}.

(** [LRUPolicy::LRUPolicy]. *)
Definition make (memory_limit : Z) : LRUPolicy := mkLRU memory_limit 0 [] ∅ 0.

(** [*it]; [None] when no live node has the address. *)
Definition deref (l : list node) (it : nat) : option Entry :=
  (list_to_map l : gmap nat Entry) !! it.

(** [list::erase(it)]. *)
Definition erase (l : list node) (it : nat) : list node :=
  filter (λ n, n.1 ≠ it) l.

(** [on_access]. The node an iterator of the map points to is always live
    ([iter_live] below); the model leaves the state alone otherwise. *)
Definition on_access (k : bytes) (now : Z) (s : LRUPolicy) : LRUPolicy :=
  match key_to_iter_ s !! k with
  | None => s
  | Some it =>
      match deref (access_list_ s) it with
      | None => s
      | Some e =>
          let entry := mkEntry (key e) now (value_size e) in
          mkLRU (memory_limit_ s) (current_memory_ s)
            ((next_node s, entry) :: erase (access_list_ s) it)
            (<[k := next_node s]> (key_to_iter_ s))
            (S (next_node s))
      end
  end.

Definition on_insert (k : bytes) (sz now : Z) (s : LRUPolicy) : LRUPolicy :=
  mkLRU (memory_limit_ s) (current_memory_ s +64 sz)
    ((next_node s, mkEntry k now sz) :: access_list_ s)
    (<[k := next_node s]> (key_to_iter_ s))
    (S (next_node s)).

Definition on_delete (k : bytes) (sz : Z) (s : LRUPolicy) : LRUPolicy :=
  match key_to_iter_ s !! k with
  | None => s
  | Some it =>
      mkLRU (memory_limit_ s)
        (if sz <=? current_memory_ s then current_memory_ s - sz else 0)
        (erase (access_list_ s) it)
        (delete k (key_to_iter_ s))
        (next_node s)
  end.

(** [get_eviction_candidate]: the key at the back of the list, or the empty
    string. *)
Definition get_eviction_candidate (s : LRUPolicy) : bytes :=
  match last (access_list_ s) with
  | None => []
  | Some n => key n.2
  end.

Definition should_evict (s : LRUPolicy) : bool := memory_limit_ s <? current_memory_ s.

Definition current_memory (s : LRUPolicy) : Z := current_memory_ s.

(** ** Invariant *)

(** The keys from the most to the least recently used. *)
Definition recency (s : LRUPolicy) : list bytes := (λ n : node, key n.2) <$> access_list_ s.

Definition iter_map (l : list node) : gmap bytes nat :=
  list_to_map ((λ n : node, (key n.2, n.1)) <$> l).

Definition size_map (l : list node) : gmap bytes Z :=
  list_to_map ((λ n : node, (key n.2, value_size n.2)) <$> l).

Definition tracked (s : LRUPolicy) : gmap bytes Z := size_map (access_list_ s).

(** Node addresses are distinct and allocated, no key occurs twice, and the
    map holds exactly the address of each key's node. *)
Record inv (s : LRUPolicy) : Prop := {
  inv_addr : NoDup (access_list_ s).*1;
  inv_alloc : Forall (λ n : node, (n.1 < next_node s)%nat) (access_list_ s);
  inv_keys : NoDup (recency s);
  inv_iter : key_to_iter_ s = iter_map (access_list_ s);
}.

Lemma iter_map_lookup l k it :
  NoDup ((λ n : node, key n.2) <$> l) →
  iter_map l !! k = Some it ↔ ∃ e, (it, e) ∈ l ∧ key e = k.
Proof.
  intros Hnd. unfold iter_map. rewrite <- elem_of_list_to_map.
  - rewrite list_elem_of_fmap. split.
    + intros ([a e] & [= -> ->] & ?). eauto.
    + intros (e & ? & <-). by exists (it, e).
  - by rewrite <- list_fmap_compose.
Qed.

Lemma deref_elem l it e : NoDup l.*1 → (it, e) ∈ l → deref l it = Some e.
Proof. intros. by apply elem_of_list_to_map. Qed.

(** Every iterator of the map points to a live node of its own key. *)
Lemma iter_live s k it :
  inv s → key_to_iter_ s !! k = Some it →
  ∃ e, deref (access_list_ s) it = Some e ∧ key e = k ∧ (it, e) ∈ access_list_ s.
Proof.
  intros [Ha _ Hk Hi] H. rewrite Hi in H.
  apply iter_map_lookup in H as (e & He & ?); [|done].
  exists e. by rewrite (deref_elem _ _ e).
Qed.

(** Erasing by address is erasing by key. *)
Lemma erase_by_key l it e :
  NoDup l.*1 → NoDup ((λ n : node, key n.2) <$> l) → (it, e) ∈ l →
  erase l it = filter (λ n : node, key n.2 ≠ key e) l.
Proof.
  intros Ha Hk He. apply filter_ext_in. intros [a e'] He'. simpl.
  split; intros Hne Heq; apply Hne.
  - pose proof (NoDup_key_inj _ _ _ _ Hk He' He Heq). congruence.
  - pose proof (NoDup_key_inj fst _ _ _ Ha He' He Heq). congruence.
Qed.

Lemma iter_map_filter l k :
  iter_map (filter (λ n : node, key n.2 ≠ k) l) = delete k (iter_map l).
Proof.
  unfold iter_map. rewrite <- list_to_map_filter_ne. f_equal.
  by apply filter_fmap.
Qed.

Lemma size_map_cons n l :
  size_map (n :: l) = <[key n.2 := value_size n.2]> (size_map l).
Proof. done. Qed.

Lemma size_map_filter l k :
  size_map (filter (λ n : node, key n.2 ≠ k) l) = delete k (size_map l).
Proof.
  unfold size_map. rewrite <- list_to_map_filter_ne. f_equal.
  by apply filter_fmap.
Qed.

Lemma size_map_lookup l k sz :
  NoDup ((λ n : node, key n.2) <$> l) →
  size_map l !! k = Some sz ↔ ∃ n, n ∈ l ∧ key n.2 = k ∧ value_size n.2 = sz.
Proof.
  intros Hnd. unfold size_map. rewrite <- elem_of_list_to_map.
  - rewrite list_elem_of_fmap. naive_solver.
  - by rewrite <- list_fmap_compose.
Qed.

Lemma size_map_is_Some l k :
  NoDup ((λ n : node, key n.2) <$> l) →
  is_Some (size_map l !! k) ↔ k ∈ ((λ n : node, key n.2) <$> l).
Proof.
  intros Hnd. unfold is_Some. setoid_rewrite size_map_lookup; [|done].
  rewrite list_elem_of_fmap. naive_solver.
Qed.

(** The map of iterators and the list track the same keys. *)
Lemma iter_tracked s k :
  inv s → is_Some (key_to_iter_ s !! k) ↔ is_Some (tracked s !! k).
Proof.
  intros [_ _ Hk Hi]. rewrite Hi. unfold tracked, is_Some.
  setoid_rewrite iter_map_lookup; [|done]. setoid_rewrite size_map_lookup; [|done].
  split; [intros (it & e & ? & <-); by exists (value_size e), (it, e)|].
  intros (sz & [a e] & ? & <- & _). eauto.
Qed.

Lemma tracked_recency s k : inv s → is_Some (tracked s !! k) ↔ k ∈ recency s.
Proof. intros H. apply size_map_is_Some, H. Qed.

(** ** The operations preserve the invariant *)

Lemma make_inv lim : inv (make lim).
Proof. split; constructor. Qed.

(** Pushing a node with a fresh address and a key that the list lacks. *)
Lemma push_inv s l m mem e :
  NoDup l.*1 → Forall (λ n : node, (n.1 < next_node s)%nat) l →
  NoDup ((λ n : node, key n.2) <$> l) → m = iter_map l →
  key e ∉ ((λ n : node, key n.2) <$> l) →
  inv (mkLRU (memory_limit_ s) mem ((next_node s, e) :: l)
         (<[key e := next_node s]> m) (S (next_node s))).
Proof.
  intros Ha Hlt Hk -> Hnew. split; simpl.
  - apply NoDup_cons. split; [|done]. rewrite list_elem_of_fmap.
    intros (n & Hn & Hin). rewrite Forall_forall in Hlt. apply Hlt in Hin. lia.
  - apply Forall_cons. split; [simpl; lia|]. eapply Forall_impl; [done|]. simpl. lia.
  - by apply NoDup_cons.
  - done.
Qed.

Lemma key_not_in_filter (l : list node) k :
  k ∉ ((λ n : node, key n.2) <$> filter (λ n : node, key n.2 ≠ k) l).
Proof.
  rewrite list_elem_of_fmap. intros (n & -> & [? ?]%list_elem_of_filter). done.
Qed.

(** What an erased list keeps. *)
Lemma erase_keeps s it e :
  inv s → (it, e) ∈ access_list_ s →
  erase (access_list_ s) it = filter (λ n : node, key n.2 ≠ key e) (access_list_ s)
  ∧ NoDup (erase (access_list_ s) it).*1
  ∧ Forall (λ n : node, (n.1 < next_node s)%nat) (erase (access_list_ s) it)
  ∧ NoDup ((λ n : node, key n.2) <$> erase (access_list_ s) it).
Proof.
  intros [Ha Hlt Hk _] He.
  assert (erase (access_list_ s) it `sublist_of` access_list_ s) as Hs by apply sublist_filter.
  split_and!.
  - by apply erase_by_key.
  - eapply sublist_NoDup; [exact Ha|by apply fmap_sublist].
  - rewrite Forall_forall in *. intros n [_ ?]%list_elem_of_filter. auto.
  - eapply sublist_NoDup; [exact Hk|by apply fmap_sublist].
Qed.

Lemma on_access_spec k now s :
  inv s →
  inv (on_access k now s) ∧ tracked (on_access k now s) = tracked s
  ∧ recency (on_access k now s)
    = (if decide (k ∈ recency s) then k :: filter (λ k', k' ≠ k) (recency s) else recency s)
  ∧ current_memory_ (on_access k now s) = current_memory_ s
  ∧ memory_limit_ (on_access k now s) = memory_limit_ s.
Proof.
  intros Hinv. unfold on_access. destruct (key_to_iter_ s !! k) as [it|] eqn:Hit.
  - destruct (iter_live s k it Hinv Hit) as (e & -> & Hek & He). subst k.
    destruct (erase_keeps s it e Hinv He) as (Herase & Ha & Hlt & Hk).
    rewrite decide_True by (apply tracked_recency, iter_tracked; eauto).
    split_and!; try done.
    + rewrite <- (insert_delete_eq (key_to_iter_ s) (key e)).
      apply (push_inv s _ _ _ (mkEntry (key e) now (value_size e))); try done; simpl.
      * rewrite Herase, iter_map_filter. f_equal. apply Hinv.
      * rewrite Herase. apply key_not_in_filter.
    + unfold tracked. cbn [access_list_]. rewrite size_map_cons.
      rewrite Herase, size_map_filter, insert_delete_eq. apply insert_id.
      apply size_map_lookup; [apply Hinv|]. by exists (it, e).
    + unfold recency. simpl. f_equal. rewrite Herase. by apply filter_fmap.
  - rewrite decide_False; [done|].
    rewrite <- tracked_recency, <- iter_tracked, Hit by done. by intros [? ?].
Qed.

Lemma on_insert_spec k sz now s :
  inv s → tracked s !! k = None →
  inv (on_insert k sz now s) ∧ tracked (on_insert k sz now s) = <[k := sz]> (tracked s)
  ∧ recency (on_insert k sz now s) = k :: recency s.
Proof.
  intros Hinv Hnew. split; [|done].
  apply (push_inv s _ _ _ (mkEntry k now sz)); try apply Hinv.
  simpl. intros H%(tracked_recency s); [|done]. rewrite Hnew in H. by destruct H.
Qed.

Lemma on_delete_spec k sz s :
  inv s →
  inv (on_delete k sz s) ∧ tracked (on_delete k sz s) = delete k (tracked s)
  ∧ recency (on_delete k sz s) = filter (λ k', k' ≠ k) (recency s)
  ∧ current_memory_ (on_delete k sz s)
    = (if decide (is_Some (tracked s !! k)) then mem_sub (current_memory_ s) sz
       else current_memory_ s)
  ∧ memory_limit_ (on_delete k sz s) = memory_limit_ s.
Proof.
  intros Hinv. unfold on_delete. destruct (key_to_iter_ s !! k) as [it|] eqn:Hit.
  - destruct (iter_live s k it Hinv Hit) as (e & _ & Hek & He). subst k.
    destruct (erase_keeps s it e Hinv He) as (Herase & Ha & Hlt & Hk).
    rewrite decide_True by (apply iter_tracked; eauto).
    split_and!; try done.
    + split; try done. simpl. rewrite Herase, iter_map_filter. f_equal. apply Hinv.
    + unfold tracked. simpl. by rewrite Herase, size_map_filter.
    + unfold recency. simpl. rewrite Herase. by apply filter_fmap.
  - assert (tracked s !! k = None) as Hnone.
    { apply eq_None_not_Some. rewrite <- iter_tracked, Hit by done. by intros [? ?]. }
    rewrite decide_False by (rewrite Hnone; by intros [? ?]).
    rewrite delete_id by done. rewrite filter_ne_id; [done|].
    rewrite <- tracked_recency, Hnone by done. by intros [? ?].
Qed.

(** The candidate is the least recently used key. *)
Lemma candidate_last s :
  get_eviction_candidate s = default [] (last (recency s)).
Proof. unfold get_eviction_candidate, recency. rewrite fmap_last. by destruct (last _). Qed.

Lemma candidate_tracked s :
  inv s → get_eviction_candidate s ≠ [] → is_Some (tracked s !! get_eviction_candidate s).
Proof.
  intros Hinv. rewrite candidate_last, tracked_recency by done.
  destruct (last (recency s)) eqn:E; [|done]. intros _. simpl. by apply last_Some_elem_of.
Qed.

Lemma candidate_empty s :
  inv s → get_eviction_candidate s = [] →
  tracked s = ∅ ∨ is_Some (tracked s !! ([] : bytes)).
Proof.
  intros Hinv. unfold get_eviction_candidate. destruct (last (access_list_ s)) as [n|] eqn:E.
  - intros Hn. right. apply tracked_recency; [done|]. unfold recency.
    rewrite <- Hn, list_elem_of_fmap. exists n. eauto using last_Some_elem_of.
  - intros _. left. apply last_None in E. unfold tracked. by rewrite E.
Qed.

#[global] Program Instance lru_policy : EvictionPolicy LRUPolicy := {
  pol_access k now _ := on_access k now;
  pol_insert k sz now _ := on_insert k sz now;
  pol_delete := on_delete;
  pol_candidate s := (get_eviction_candidate s, s);
  pol_should_evict := should_evict;
  pol_tracked := tracked;
  pol_memory := current_memory_;
  pol_limit := memory_limit_;
  pol_inv := inv;
}.
Next Obligation. done. Qed.
Next Obligation. intros k now c s H. pose proof (on_access_spec k now s H). tauto. Qed.
Next Obligation. intros k sz now c s H Hn. pose proof (on_insert_spec k sz now s H Hn). tauto. Qed.
Next Obligation. intros k sz s H. pose proof (on_delete_spec k sz s H). tauto. Qed.
Next Obligation.
  intros s k s' H [= <- <-]. split_and!; try done.
  - intros Hk. pose proof (candidate_tracked s H Hk). split; [done|]. intros sz.
    pose proof (on_delete_spec (get_eviction_candidate s) sz s H) as Hd.
    rewrite decide_True in Hd by done. tauto.
  - intros Hk. split; [done|]. by apply candidate_empty.
Qed.

(** ** Recency against the history of calls *)

Inductive call :=
| Access (k : bytes) (now : Z)
| Insert (k : bytes) (sz now : Z)
| Delete (k : bytes) (sz : Z).

(** The histories the table produces: a key is inserted only when the policy
    does not track it. *)
Inductive history (lim : Z) : list call → LRUPolicy → Prop :=
| history_nil : history lim [] (make lim)
| history_access tr s k now :
    history lim tr s → history lim (tr ++ [Access k now]) (on_access k now s)
| history_insert tr s k sz now :
    history lim tr s → tracked s !! k = None →
    history lim (tr ++ [Insert k sz now]) (on_insert k sz now s)
| history_delete tr s k sz :
    history lim tr s → history lim (tr ++ [Delete k sz]) (on_delete k sz s).

Definition touches (k : bytes) (c : call) : bool :=
  match c with
  | Access k' _ | Insert k' _ _ => bool_decide (k = k')
  | Delete _ _ => false
  end.

(** The 1-based position of the last call that touches [k]; 0 if there is
    none. *)
Fixpoint last_touch (k : bytes) (tr : list call) : nat :=
  match tr with
  | [] => 0
  | c :: tr =>
      match last_touch k tr with
      | O => if touches k c then 1 else 0
      | S n => S (S n)
      end
  end.

Lemma last_touch_le k tr : (last_touch k tr ≤ length tr)%nat.
Proof.
  induction tr as [|c tr IH]; simpl; [lia|].
  destruct (last_touch k tr); [case_match; lia|lia].
Qed.

Lemma last_touch_snoc k tr c :
  last_touch k (tr ++ [c]) = if touches k c then S (length tr) else last_touch k tr.
Proof.
  induction tr as [|c' tr IH]; simpl; [done|].
  rewrite IH. by destruct (touches k c).
Qed.

(** Touched later. *)
Definition later (tr : list call) (a b : bytes) : Prop :=
  (last_touch b tr < last_touch a tr)%nat.

Lemma sorted_shift tr c k l :
  (∀ k', k' ≠ k → touches k' c = false) →
  StronglySorted (later tr) l →
  StronglySorted (later (tr ++ [c])) (filter (λ k', k' ≠ k) l).
Proof.
  intros Hc. induction 1 as [|x l Hl IH Hx]; [constructor|].
  rewrite filter_cons. case_decide as Hxk; [|done]. constructor; [done|].
  rewrite Forall_forall in *. intros y [Hy ?]%list_elem_of_filter.
  unfold later. rewrite !last_touch_snoc, !Hc by done. by apply Hx.
Qed.

Lemma sorted_front tr c k l :
  touches k c = true → (∀ k', k' ≠ k → touches k' c = false) →
  StronglySorted (later tr) l →
  StronglySorted (later (tr ++ [c])) (k :: filter (λ k', k' ≠ k) l).
Proof.
  intros Hk Hc Hl. constructor; [by apply sorted_shift|].
  rewrite Forall_forall. intros y [Hy _]%list_elem_of_filter.
  unfold later. rewrite !last_touch_snoc, Hk, Hc by done.
  pose proof (last_touch_le y tr). lia.
Qed.

Lemma touches_only c k k' : touches k c = true → k' ≠ k → touches k' c = false.
Proof. destruct c; simpl; rewrite ?bool_decide_eq_true, ?bool_decide_eq_false; congruence. Qed.

(** Along a history the list is ordered by the time of the last touch. *)
Lemma history_sorted lim tr s :
  history lim tr s → inv s ∧ StronglySorted (later tr) (recency s).
Proof.
  induction 1 as [|tr s k now H [Hi Hs]|tr s k sz now H [Hi Hs] Hn|tr s k sz H [Hi Hs]].
  - split; [apply make_inv|constructor].
  - pose proof (on_access_spec k now s Hi) as (? & _ & -> & _). split; [done|].
    case_decide as Hk.
    + apply sorted_front; [by apply bool_decide_eq_true| |done].
      intros k'. apply touches_only. by apply bool_decide_eq_true.
    + rewrite <- (filter_ne_id k (recency s)) by done. apply sorted_shift; [|done].
      intros k' ?. by apply bool_decide_eq_false.
  - pose proof (on_insert_spec k sz now s Hi Hn) as (? & _ & ->). split; [done|].
    assert (k ∉ recency s) as Hk.
    { rewrite <- tracked_recency, Hn by done. by intros [? ?]. }
    rewrite <- (filter_ne_id k (recency s)) by done.
    apply sorted_front; [by apply bool_decide_eq_true| |done].
    intros k'. apply touches_only. by apply bool_decide_eq_true.
  - pose proof (on_delete_spec k sz s Hi) as (? & _ & -> & _). split; [done|].
    by apply sorted_shift.
Qed.

(** The keys the policy has been told of and has not been told to forget, read
    off the calls alone. *)
Definition known (tr : list call) : gset bytes :=
  fold_left (λ ks c, match c with
                     | Access _ _ => ks
                     | Insert k _ _ => {[k]} ∪ ks
                     | Delete k _ => ks ∖ {[k]}
                     end) tr ∅.

Lemma history_known lim tr s : history lim tr s → dom (tracked s) = known tr.
Proof.
  unfold known. induction 1 as [|tr s k now H IH|tr s k sz now H IH Hn|tr s k sz H IH]; [done|..];
    rewrite fold_left_app; simpl; rewrite <- IH; apply history_sorted in H as [Hi _].
  - by pose proof (on_access_spec k now s Hi) as (_ & -> & _).
  - pose proof (on_insert_spec k sz now s Hi Hn) as (_ & -> & _). apply leibniz_equiv, dom_insert.
  - pose proof (on_delete_spec k sz s Hi) as (_ & -> & _). apply leibniz_equiv, dom_delete.
Qed.

(** C28: the victim is the least recently used key. After any calls in which a
    key is inserted only when it is not tracked, which the table sees to by
    deleting a key before it inserts it again: if a key was inserted and not
    deleted since, [get_eviction_candidate] answers such a key, and every other
    such key was inserted or accessed after the last time this one was. *)
Theorem lru_candidate_is_least_recent lim tr s :
  history lim tr s → known tr ≠ ∅ →
  get_eviction_candidate s ∈ known tr
  ∧ ∀ k, k ∈ known tr → k ≠ get_eviction_candidate s →
    (last_touch (get_eviction_candidate s) tr < last_touch k tr)%nat.
Proof.
  intros H. rewrite <- (history_known lim tr s H). destruct (history_sorted lim tr s H) as [Hi Hs].
  setoid_rewrite elem_of_dom. setoid_rewrite (tracked_recency s _ Hi). rewrite candidate_last.
  destruct (last (recency s)) as [x|] eqn:E; simpl.
  - intros _. split; [by apply last_Some_elem_of|]. apply last_Some in E as (l & E). rewrite E in *.
    intros k [Hk|Hk%list_elem_of_singleton]%elem_of_app Hne; [|done].
    eapply (StronglySorted_app_1_elem_of (later tr) l [x]); [done..|]. constructor.
  - apply last_None in E. intros [k Hk%elem_of_dom%tracked_recency]%set_choose_L; [|done].
    rewrite E in Hk. by apply not_elem_of_nil in Hk.
Qed.

Definition lru_calls : list call := [Insert (str "a") 1 0; Insert (str "b") 1 0; Access (str "a") 5].

Lemma lru_candidate_is_least_recent_witness :
  str "b" ∈ known lru_calls
  ∧ ∀ k, k ∈ known lru_calls → k ≠ str "b" → (last_touch (str "b") lru_calls < last_touch k lru_calls)%nat.
Proof.
  refine (lru_candidate_is_least_recent 10 lru_calls
            (on_access (str "a") 5 (on_insert (str "b") 1 0 (on_insert (str "a") 1 0 (make 10)))) _ _).
  - apply (history_access 10 [Insert (str "a") 1 0; Insert (str "b") 1 0]).
    apply (history_insert 10 [Insert (str "a") 1 0]); [|vm_compute; done].
    apply (history_insert 10 []); [constructor|vm_compute; done].
  - by vm_compute.
Defined.

End LRU.
