(* ===== verification/Lfu.v ===== *)
(** * The least-frequently-used policy

    [LFUPolicy] of src/engine/include/lfu_policy.h and
    src/engine/src/lfu_policy.cpp: a min-heap of entries with lazy deletion,
    and two maps that say which entries still count. The
    [std::priority_queue] is a class with the contract of its documentation
    (the order among equal counts is left open); a sorted list is one
    implementation. *)

From stdpp Require Import sorting.
From S2P Require Import Prelude Policy.

Module LFU.

Record Entry := mkEntry {
  key : bytes;
  access_count : Z;
  value_size : Z;
}.

(** [Entry::operator>]. *)
Definition greater (a b : Entry) : bool := access_count b <? access_count a.

(** ** std::priority_queue<Entry, std::vector<Entry>, std::greater<Entry>> *)

Class PriorityQueue (H : Type) := {
  heap_empty : H;
  heap_push : Entry → H → H;
  heap_top : H → option Entry;       (* [None]: [empty()] *)
  heap_pop : H → H;
  heap_elems : H → list Entry;       (* the contents, in some order *)

  heap_empty_elems : heap_elems heap_empty = [];
  heap_push_elems e h : heap_elems (heap_push e h) ≡ₚ e :: heap_elems h;
  heap_top_None h : heap_top h = None ↔ heap_elems h = [];
  heap_pop_elems h e : heap_top h = Some e → heap_elems h ≡ₚ e :: heap_elems (heap_pop h);
  heap_top_least h e e' :
    heap_top h = Some e → e' ∈ heap_elems h → greater e e' = false;
}.

(** A list sorted by count. *)
Record SortedQueue := mkSortedQueue {
  queue : list Entry;
  queue_sorted : StronglySorted (λ a b, access_count a <= access_count b) queue;
}.

Fixpoint insert_sorted (e : Entry) (l : list Entry) : list Entry :=
  match l with
  | [] => [e]
  | x :: l => if access_count e <=? access_count x then e :: x :: l else x :: insert_sorted e l
  end.

Lemma insert_sorted_perm e l : insert_sorted e l ≡ₚ e :: l.
Proof.
  induction l as [|x l IH]; simpl; [done|].
  case_match; [done|]. rewrite IH. apply Permutation_swap.
Qed.

Lemma insert_sorted_sorted e l :
  StronglySorted (λ a b, access_count a <= access_count b) l →
  StronglySorted (λ a b, access_count a <= access_count b) (insert_sorted e l).
Proof.
  induction 1 as [|x l Hl IH Hx]; simpl; [repeat constructor|].
  destruct (Z.leb_spec (access_count e) (access_count x)).
  - constructor; [by constructor|]. constructor; [done|].
    eapply Forall_impl; [done|]. simpl. lia.
  - constructor; [done|]. rewrite insert_sorted_perm. constructor; [lia|done].
Qed.

#[global] Program Instance sorted_queue : PriorityQueue SortedQueue := {
  heap_empty := mkSortedQueue [] (SSorted_nil _);
  heap_push e q := mkSortedQueue (insert_sorted e (queue q)) (insert_sorted_sorted _ _ (queue_sorted q));
  heap_top q := head (queue q);
  heap_pop q := mkSortedQueue (tail (queue q)) _;
  heap_elems := queue;
}.
Next Obligation. intros [[|x l] Hs]; simpl; [done|]. by apply StronglySorted_inv in Hs as [? _]. Qed.
Next Obligation. done. Qed.
Next Obligation. intros e [l Hs]; simpl. apply insert_sorted_perm. Qed.
Next Obligation. intros [[|x l] Hs]; simpl; split; congruence. Qed.
Next Obligation. intros [[|x l] Hs] e; simpl; [done|]. by intros [= ->]. Qed.
Next Obligation.
  intros [[|x l] Hs] e e'; simpl; [done|]. intros [= ->] He.
  apply StronglySorted_inv in Hs as [_ Hs]. unfold greater. apply Z.ltb_ge.
  apply elem_of_cons in He as [->|He]; [done|]. rewrite Forall_forall in Hs. by apply Hs.
Qed.

(** ** The policy *)

Record LFUPolicy (H : Type) := mkLFU {
  memory_limit_ : Z;
  current_memory_ : Z;
  heap_ : H;
  key_to_count_ : gmap bytes Z;
  key_to_size_ : gmap bytes Z;
}.
#[global] Arguments mkLFU {H}.
#[global] Arguments memory_limit_ {H}.
#[global] Arguments current_memory_ {H}.
#[global] Arguments heap_ {H}.
#[global] Arguments key_to_count_ {H}.
#[global] Arguments key_to_size_ {H}.

Section lfu.
Context {H : Type} `{!PriorityQueue H}.
Implicit Types s : LFUPolicy H.

(** [LFUPolicy::LFUPolicy]. *)
Definition make (memory_limit : Z) : LFUPolicy H := mkLFU memory_limit 0 heap_empty ∅ ∅.

(** [on_access]; [key_to_size_[key]] inserts a zero when the key is absent. *)
Definition on_access (k : bytes) (count : Z) (s : LFUPolicy H) : LFUPolicy H :=
  match key_to_count_ s !! k with
  | None => s
  | Some _ =>
      let sz := default 0 (key_to_size_ s !! k) in
      mkLFU (memory_limit_ s) (current_memory_ s)
        (heap_push (mkEntry k count sz) (heap_ s))
        (<[k := count]> (key_to_count_ s))
        (<[k := sz]> (key_to_size_ s))
  end.

Definition on_insert (k : bytes) (sz count : Z) (s : LFUPolicy H) : LFUPolicy H :=
  mkLFU (memory_limit_ s) (current_memory_ s +64 sz)
    (heap_push (mkEntry k count sz) (heap_ s))
    (<[k := count]> (key_to_count_ s))
    (<[k := sz]> (key_to_size_ s)).

Definition on_delete (k : bytes) (sz : Z) (s : LFUPolicy H) : LFUPolicy H :=
  match key_to_count_ s !! k with
  | None => s
  | Some _ =>
      mkLFU (memory_limit_ s)
        (if sz <=? current_memory_ s then current_memory_ s - sz else 0)
        (heap_ s)
        (delete k (key_to_count_ s))
        (delete k (key_to_size_ s))
  end.

(** The loop of [get_eviction_candidate]: each iteration pops one entry, so
    the number of entries bounds the iterations. *)
Fixpoint candidate_loop (fuel : nat) (counts : gmap bytes Z) (h : H) : bytes * H :=
  match fuel with
  | O => ([], h)
  | S fuel =>
      match heap_top h with
      | None => ([], h)
      | Some top =>
          let h' := heap_pop h in
          match counts !! key top with
          | Some c => if c =? access_count top then (key top, h')
                      else candidate_loop fuel counts h'
          | None => candidate_loop fuel counts h'
          end
      end
  end.

Definition get_eviction_candidate (s : LFUPolicy H) : bytes * LFUPolicy H :=
  let '(k, h) := candidate_loop (S (length (heap_elems (heap_ s)))) (key_to_count_ s) (heap_ s) in
  (k, mkLFU (memory_limit_ s) (current_memory_ s) h (key_to_count_ s) (key_to_size_ s)).

Definition should_evict (s : LFUPolicy H) : bool := memory_limit_ s <? current_memory_ s.

Definition current_memory (s : LFUPolicy H) : Z := current_memory_ s.

(** ** Invariant *)

(** An entry that lazy deletion still counts. *)
Definition valid (counts : gmap bytes Z) (e : Entry) : Prop :=
  counts !! key e = Some (access_count e).

#[local] Instance valid_dec counts e : Decision (valid counts e).
Proof. unfold valid. apply _. Defined.

(** The two maps have the same keys, and every tracked key has a valid entry in
    the heap. The empty key is excepted: [get_eviction_candidate] pops its
    entry, but the caller takes an empty answer for "no candidate" and does not
    delete it. *)
Record inv s : Prop := {
  inv_dom : ∀ k, is_Some (key_to_count_ s !! k) ↔ is_Some (key_to_size_ s !! k);
  inv_live : ∀ k c, k ≠ [] → key_to_count_ s !! k = Some c →
    ∃ e, e ∈ heap_elems (heap_ s) ∧ key e = k ∧ access_count e = c;
}.

(** What the loop does: the popped entries are stale up to the answer, which
    is valid and no more frequent than anything left. *)
Lemma candidate_loop_spec fuel counts h k h' :
  (length (heap_elems h) < fuel)%nat → candidate_loop fuel counts h = (k, h') →
  ∃ stale, Forall (λ e, ¬ valid counts e) stale
  ∧ ((∃ e, heap_elems h ≡ₚ stale ++ e :: heap_elems h' ∧ valid counts e ∧ key e = k
          ∧ Forall (λ e', access_count e <= access_count e') (heap_elems h'))
     ∨ (k = [] ∧ heap_elems h ≡ₚ stale ∧ heap_elems h' = [])).
Proof.
  revert h. induction fuel as [|fuel IH]; intros h Hf; simpl; [lia|].
  destruct (heap_top h) as [top|] eqn:Htop.
  2: { intros [= <- <-]. exists []. split; [constructor|]. right.
       apply heap_top_None in Htop. by rewrite Htop. }
  pose proof (heap_pop_elems h top Htop) as Hpop.
  assert (length (heap_elems (heap_pop h)) < fuel)%nat as Hf'.
  { apply Permutation_length in Hpop. simpl in Hpop. lia. }
  destruct (decide (valid counts top)) as [Hv|Hv]; unfold valid in Hv.
  - rewrite Hv, Z.eqb_refl. intros [= <- <-]. exists []. split; [constructor|]. left.
    exists top. split_and!; [done..|]. rewrite Forall_forall. intros e' He'.
    apply Z.ltb_ge. apply (heap_top_least h); [done|]. rewrite Hpop. by right.
  - intros Hloop. assert (candidate_loop fuel counts (heap_pop h) = (k, h')) as Hl.
    { destruct (counts !! key top) as [c|]; [|done].
      destruct (Z.eqb_spec c (access_count top)); [by subst|done]. }
    destruct (IH _ Hf' Hl) as (stale & Hst & Hcase).
    exists (top :: stale). split; [by constructor|].
    destruct Hcase as [(e & Hp & ?)|(? & Hp & ?)]; [left; exists e|right];
      rewrite Hpop, Hp; done.
Qed.

(** Asking for a candidate leaves all but the entries of the answer usable. *)
Lemma candidate_keeps s k s' :
  inv s → get_eviction_candidate s = (k, s') →
  key_to_count_ s' = key_to_count_ s ∧ key_to_size_ s' = key_to_size_ s
  ∧ current_memory_ s' = current_memory_ s ∧ memory_limit_ s' = memory_limit_ s
  ∧ (∀ k' c, k' ≠ [] → k' ≠ k → key_to_count_ s !! k' = Some c →
      ∃ e, e ∈ heap_elems (heap_ s') ∧ key e = k' ∧ access_count e = c)
  ∧ ((∃ c, key_to_count_ s !! k = Some c
       ∧ ∀ k' c', k' ≠ [] → key_to_count_ s !! k' = Some c' → c <= c')
     ∨ (k = [] ∧ ∀ k', is_Some (key_to_count_ s !! k') → k' = [])).
Proof.
  intros [_ Hlive]. unfold get_eviction_candidate.
  destruct (candidate_loop _ _ _) as [k0 h] eqn:Hl. intros [= -> <-]. simpl.
  apply candidate_loop_spec in Hl as (stale & Hst & Hcase); [|lia].
  rewrite Forall_forall in Hst. unfold valid in *. do 4 (split; [done|]).
  destruct Hcase as [(e & Hp & Hv & <- & Hmin)|(-> & Hp & Hnil)].
  - assert (∀ k' c, k' ≠ [] → key_to_count_ s !! k' = Some c →
      ∃ e', (e' = e ∨ e' ∈ heap_elems h) ∧ key e' = k' ∧ access_count e' = c) as Hfind.
    { intros k' c Hne Hc. destruct (Hlive k' c Hne Hc) as (e' & He' & <- & <-).
      rewrite Hp, elem_of_app, elem_of_cons in He'.
      destruct He' as [He'|He']; [by apply Hst in He'|eauto]. }
    split.
    + intros k' c Hne Hk' Hc. destruct (Hfind k' c Hne Hc) as (e' & [->|?] & ? & ?); [done|eauto].
    + left. exists (access_count e). split; [done|]. intros k' c' Hne Hc'.
      destruct (Hfind k' c' Hne Hc') as (e' & [->|He'] & _ & <-); [done|].
      rewrite Forall_forall in Hmin. by apply Hmin.
  - assert (∀ k', is_Some (key_to_count_ s !! k') → k' = []) as Hall.
    { intros k' [c Hc]. destruct (decide (k' = [])) as [|Hne]; [done|].
      destruct (Hlive k' c Hne Hc) as (e' & He' & <- & <-). rewrite Hp in He'.
      by apply Hst in He'. }
    split; [|by right]. intros k' c Hne _ Hc. destruct Hne. apply Hall. eauto.
Qed.

Lemma elem_of_push e x (h : H) : e ∈ heap_elems (heap_push x h) ↔ e = x ∨ e ∈ heap_elems h.
Proof. by rewrite heap_push_elems, elem_of_cons. Qed.

(** Pushing an entry for [k] with its new count keeps a live entry for every
    key that had one. *)
Lemma push_live (counts : gmap bytes Z) (h : H) k c sz k' c' :
  (counts !! k' = Some c' → ∃ e, e ∈ heap_elems h ∧ key e = k' ∧ access_count e = c') →
  <[k := c]> counts !! k' = Some c' →
  ∃ e, e ∈ heap_elems (heap_push (mkEntry k c sz) h) ∧ key e = k' ∧ access_count e = c'.
Proof.
  intros Hlive. rewrite lookup_insert. setoid_rewrite elem_of_push. case_decide as Hk.
  - intros [= ->]. exists (mkEntry k c' sz). auto.
  - intros (e & ? & ?)%Hlive. eauto.
Qed.

(** ** The operations preserve the invariant *)

Lemma lfu_make_inv lim : inv (make lim).
Proof. split; simpl; [done|]. intros k c _ Hk. by rewrite lookup_empty in Hk. Qed.

Lemma lfu_access_spec k c s :
  inv s →
  inv (on_access k c s) ∧ key_to_size_ (on_access k c s) = key_to_size_ s
  ∧ current_memory_ (on_access k c s) = current_memory_ s
  ∧ memory_limit_ (on_access k c s) = memory_limit_ s.
Proof.
  intros [Hdom Hlive]. unfold on_access. destruct (key_to_count_ s !! k) as [c0|] eqn:Hc; [|done].
  destruct (proj1 (Hdom k) ltac:(eauto)) as [sz Hsz]. rewrite Hsz. simpl.
  rewrite (insert_id (key_to_size_ s)) by done. split; [|done]. split; simpl.
  - intros k'. rewrite <- Hdom, lookup_insert. case_decide; subst; [|done]. rewrite Hc. naive_solver.
  - intros k' c' Hne. apply push_live. eauto.
Qed.

Lemma lfu_insert_spec k sz c s :
  inv s →
  inv (on_insert k sz c s) ∧ key_to_size_ (on_insert k sz c s) = <[k := sz]> (key_to_size_ s).
Proof.
  intros [Hdom Hlive]. split; [|done]. split; simpl.
  - intros k'. rewrite !lookup_insert. case_decide; [naive_solver|done].
  - intros k' c' Hne. apply push_live. eauto.
Qed.

(** Deleting [k] needs live entries only for the other keys. *)
Lemma lfu_delete_spec k sz s :
  (∀ k', is_Some (key_to_count_ s !! k') ↔ is_Some (key_to_size_ s !! k')) →
  (∀ k' c, k' ≠ [] → (k' ≠ k ∨ key_to_count_ s !! k = None) → key_to_count_ s !! k' = Some c →
    ∃ e, e ∈ heap_elems (heap_ s) ∧ key e = k' ∧ access_count e = c) →
  inv (on_delete k sz s) ∧ key_to_size_ (on_delete k sz s) = delete k (key_to_size_ s)
  ∧ current_memory_ (on_delete k sz s)
    = (if decide (is_Some (key_to_size_ s !! k)) then mem_sub (current_memory_ s) sz
       else current_memory_ s)
  ∧ memory_limit_ (on_delete k sz s) = memory_limit_ s.
Proof.
  intros Hdom Hlive. unfold on_delete. destruct (key_to_count_ s !! k) as [c0|] eqn:Hc.
  - rewrite decide_True by (apply Hdom; eauto). split_and!; try done. split; simpl.
    + intros k'. rewrite !lookup_delete. case_decide; [naive_solver|apply Hdom].
    + intros k' c' Hne. rewrite lookup_delete. case_decide; [done|]. intros. eauto.
  - assert (key_to_size_ s !! k = None) as Hn.
    { apply eq_None_not_Some. rewrite <- Hdom, Hc. by intros [? ?]. }
    rewrite decide_False by (rewrite Hn; by intros [? ?]). rewrite delete_id by done.
    split_and!; try done. split; [done|]. intros. eauto.
Qed.

#[global] Program Instance lfu_policy : EvictionPolicy (LFUPolicy H) := {
  pol_access k _ c := on_access k c;
  pol_insert k sz _ c := on_insert k sz c;
  pol_delete := on_delete;
  pol_candidate := get_eviction_candidate;
  pol_should_evict := should_evict;
  pol_tracked := key_to_size_;
  pol_memory := current_memory_;
  pol_limit := memory_limit_;
  pol_inv := inv;
}.
Next Obligation. done. Qed.
Next Obligation. intros k t c s Hi. by apply lfu_access_spec. Qed.
Next Obligation. intros k sz t c s Hi Hn. by destruct (lfu_insert_spec k sz c s Hi). Qed.
Next Obligation. intros k sz s [Hdom Hlive]. by apply lfu_delete_spec; eauto. Qed.
Next Obligation.
  intros s k s' Hi Hk. pose proof Hi as [Hdom Hlive].
  destruct (candidate_keeps s k s' Hi Hk) as (Hc & Hs & Hm & Hl & Hkeep & Hcase).
  rewrite Hs, Hm, Hl. split_and!; try done.
  - intros Hne. destruct Hcase as [(c & Hkc & _)|[? _]]; [|done].
    assert (is_Some (key_to_size_ s !! k)) as Hsz by (apply Hdom; eauto).
    split; [done|]. intros sz.
    destruct (lfu_delete_spec k sz s') as (? & Hsz' & Hmem & ?).
    + rewrite Hc, Hs. done.
    + rewrite Hc. intros k' c' ? [?|?]; [eauto|congruence].
    + rewrite Hs, Hm in *. rewrite decide_True in Hmem by done. split_and!; congruence.
  - intros ->. split.
    + split; [by rewrite Hc, Hs|]. rewrite Hc. eauto.
    + destruct Hcase as [(c & Hkc & _)|[_ Hall]]; [right; apply Hdom; eauto|].
      destruct (decide (key_to_size_ s = ∅)) as [|Hne]; [by left|right].
      apply map_choose in Hne as (k & x & Hx).
      assert (k = []) as -> by (apply Hall, Hdom; eauto). eauto.
Qed.

(** ** Frequency against the history of calls *)

Inductive call :=
| Access (k : bytes) (count : Z)
| Insert (k : bytes) (sz count : Z)
| Delete (k : bytes) (sz : Z).

(** The histories the table produces when no key is empty: the answer of
    [get_eviction_candidate], whose entry has left the heap, is deleted before
    anything else is called. *)
Inductive history (lim : Z) : list call → LFUPolicy H → Prop :=
| history_nil : history lim [] (make lim)
| history_access tr s k c :
    history lim tr s → k ≠ [] → history lim (tr ++ [Access k c]) (on_access k c s)
| history_insert tr s k sz c :
    history lim tr s → k ≠ [] → history lim (tr ++ [Insert k sz c]) (on_insert k sz c s)
| history_delete tr s k sz :
    history lim tr s → k ≠ [] → history lim (tr ++ [Delete k sz]) (on_delete k sz s)
| history_evict tr s k s' sz :
    history lim tr s → get_eviction_candidate s = (k, s') → k ≠ [] →
    history lim (tr ++ [Delete k sz]) (on_delete k sz s')
| history_no_victim tr s s' :
    history lim tr s → get_eviction_candidate s = ([], s') → history lim tr s'.

(** The access counts the calls have reported, read off the calls alone. *)
Definition reported (tr : list call) : gmap bytes Z :=
  fold_left (λ m c, match c with
                    | Access k n => if decide (is_Some (m !! k)) then <[k := n]> m else m
                    | Insert k _ n => <[k := n]> m
                    | Delete k _ => delete k m
                    end) tr ∅.

Lemma access_counts k c s :
  key_to_count_ (on_access k c s)
  = if decide (is_Some (key_to_count_ s !! k)) then <[k := c]> (key_to_count_ s) else key_to_count_ s.
Proof.
  unfold on_access. destruct (key_to_count_ s !! k) eqn:E; [by rewrite decide_True|].
  rewrite decide_False; [done|]. by intros [? ?].
Qed.

Lemma delete_counts k sz s : key_to_count_ (on_delete k sz s) = delete k (key_to_count_ s).
Proof. unfold on_delete. destruct (key_to_count_ s !! k) eqn:E; [done|]. by rewrite delete_id. Qed.

Lemma history_ok lim tr s :
  history lim tr s → inv s ∧ key_to_count_ s = reported tr ∧ reported tr !! [] = None.
Proof.
  unfold reported.
  induction 1 as [|tr s k c Hh (Hi & Hr & He) Hk|tr s k sz c Hh (Hi & Hr & He) Hk
    |tr s k sz Hh (Hi & Hr & He) Hk|tr s k s' sz Hh (Hi & Hr & He) Ha Hk|tr s s' Hh (Hi & Hr & He) Ha];
    rewrite ?fold_left_app; cbn [fold_left]; rewrite <- ?Hr in *.
  - split; [apply lfu_make_inv|done].
  - rewrite access_counts. split_and!; [by apply lfu_access_spec|done|].
    case_decide; [by rewrite lookup_insert_ne|done].
  - split_and!; [by apply lfu_insert_spec|done|]. by rewrite lookup_insert_ne.
  - rewrite delete_counts. destruct Hi as [Hdom Hlive].
    split_and!; [by apply lfu_delete_spec; eauto|done|]. by rewrite lookup_delete_ne.
  - destruct (@pol_candidate_spec _ lfu_policy s k s' Hi Ha) as (_ & _ & _ & Hc & _).
    destruct (candidate_keeps s k s' Hi Ha) as (Hs & _). rewrite delete_counts, Hs.
    split_and!; [by apply Hc|done|]. by rewrite lookup_delete_ne.
  - destruct (@pol_candidate_spec _ lfu_policy s [] s' Hi Ha) as (_ & _ & _ & _ & Hc).
    destruct (candidate_keeps s [] s' Hi Ha) as (Hs & _). rewrite Hs. split_and!; [by apply Hc|done..].
Qed.

(** C29: the victim is a least frequently used key. After any calls that never
    name the empty key, in which each answer of [get_eviction_candidate] was
    deleted before the next call: if a key was inserted and not deleted since,
    [get_eviction_candidate] answers such a key, and no such key was last
    reported with a smaller access count, whatever stale entries lazy deletion
    has left in the heap. *)
Theorem lfu_candidate_is_least_frequent lim tr s :
  history lim tr s → reported tr ≠ ∅ →
  ∃ c, reported tr !! (get_eviction_candidate s).1 = Some c
  ∧ ∀ k' c', reported tr !! k' = Some c' → c <= c'.
Proof.
  intros (Hi & Hr & He)%history_ok Hne. destruct (get_eviction_candidate s) as [k s'] eqn:Hk.
  destruct (candidate_keeps s k s' Hi Hk) as (_ & _ & _ & _ & _ & Hcase). rewrite Hr in Hcase. simpl.
  destruct Hcase as [(c & Hc & Hmin)|[_ Hall]].
  - exists c. split; [done|]. intros k' c' Hk'. apply (Hmin k'); [|done]. intros ->. by rewrite He in Hk'.
  - apply map_choose in Hne as (k' & c & Hc). assert (k' = []) as -> by (apply Hall; eauto).
    by rewrite He in Hc.
Qed.
End lfu.

(** "b" is evicted, although an older entry of "a" has a smaller count. *)
Definition lfu_calls : list call :=
  [Insert (str "a") 2 0; Insert (str "b") 2 1; Access (str "a") 2].

Lemma lfu_candidate_is_least_frequent_witness :
  ∃ c, reported lfu_calls !! str "b" = Some c ∧ ∀ k' c', reported lfu_calls !! k' = Some c' → c <= c'.
Proof.
  refine (lfu_candidate_is_least_frequent (H := SortedQueue) 3 lfu_calls
            (on_access (str "a") 2 (on_insert (str "b") 2 1 (on_insert (str "a") 2 0 (make 3)))) _ _).
  - apply (history_access 3 [Insert (str "a") 2 0; Insert (str "b") 2 1]); [|done].
    apply (history_insert 3 [Insert (str "a") 2 0]); [|done].
    apply (history_insert 3 []); [constructor|done].
  - intros E%(f_equal (lookup (str "b"))). vm_compute in E. discriminate E.
Defined.

End LFU.
