(* ===== verification/Dispatch.v ===== *)
(** * The table's choice of policy

    [HashTable] holds one of the two policies and selects it at every call with
    [eviction_policy_ == EvictionPolicy::LRU] (src/engine/src/hash_table.cpp).
    The choice is a sum; the dispatch is an instance of the policy interface. *)

From S2P Require Import Prelude Policy Lru Lfu.

(** [enum class EvictionPolicy { LRU, LFU }]. *)
Inductive EvictionPolicyKind :=
| KindLRU
| KindLFU.

(** Exactly one of [lru_policy_] and [lfu_policy_] is set. *)
Inductive TablePolicy (H : Type) :=
| UseLRU (p : LRU.LRUPolicy)
| UseLFU (p : LFU.LFUPolicy H).
#[global] Arguments UseLRU {H}.
#[global] Arguments UseLFU {H}.

Section dispatch.
Context {H : Type} `{!LFU.PriorityQueue H}.

Definition make_policy (kind : EvictionPolicyKind) (memory_limit : Z) : TablePolicy H :=
  match kind with
  | KindLRU => UseLRU (LRU.make memory_limit)
  | KindLFU => UseLFU (LFU.make memory_limit)
  end.

Definition table_on_access (k : bytes) (last_access_ns access_count : Z)
    (p : TablePolicy H) : TablePolicy H :=
  match p with
  | UseLRU q => UseLRU (LRU.on_access k last_access_ns q)
  | UseLFU q => UseLFU (LFU.on_access k access_count q)
  end.

Definition table_on_insert (k : bytes) (sz last_access_ns access_count : Z)
    (p : TablePolicy H) : TablePolicy H :=
  match p with
  | UseLRU q => UseLRU (LRU.on_insert k sz last_access_ns q)
  | UseLFU q => UseLFU (LFU.on_insert k sz access_count q)
  end.

Definition table_on_delete (k : bytes) (sz : Z) (p : TablePolicy H) : TablePolicy H :=
  match p with
  | UseLRU q => UseLRU (LRU.on_delete k sz q)
  | UseLFU q => UseLFU (LFU.on_delete k sz q)
  end.

Definition table_candidate (p : TablePolicy H) : bytes * TablePolicy H :=
  match p with
  | UseLRU q => (LRU.get_eviction_candidate q, UseLRU q)
  | UseLFU q => let '(k, q') := LFU.get_eviction_candidate q in (k, UseLFU q')
  end.

Definition table_should_evict (p : TablePolicy H) : bool :=
  match p with
  | UseLRU q => LRU.should_evict q
  | UseLFU q => LFU.should_evict q
  end.

(** The abstract state is that of the policy in use. *)
Definition table_view {A} (f : LRU.LRUPolicy → A) (g : LFU.LFUPolicy H → A) (p : TablePolicy H) : A :=
  match p with
  | UseLRU q => f q
  | UseLFU q => g q
  end.

#[global] Program Instance table_policy : EvictionPolicy (TablePolicy H) := {
  pol_access := table_on_access;
  pol_insert := table_on_insert;
  pol_delete := table_on_delete;
  pol_candidate := table_candidate;
  pol_should_evict := table_should_evict;
  pol_tracked := table_view pol_tracked pol_tracked;
  pol_memory := table_view pol_memory pol_memory;
  pol_limit := table_view pol_limit pol_limit;
  pol_inv := table_view pol_inv pol_inv;
}.
Next Obligation. by intros [q|q]. Qed.
Next Obligation. intros k t c [q|q] Hq; exact (pol_access_spec k t c q Hq). Qed.
Next Obligation. intros k sz t c [q|q] Hq Hn; exact (pol_insert_spec k sz t c q Hq Hn). Qed.
Next Obligation. intros k sz [q|q] Hq; exact (pol_delete_spec k sz q Hq). Qed.
Next Obligation.
  intros [q|q] k p' Hi; simpl.
  - intros [= <- <-]. exact (pol_candidate_spec q _ _ Hi eq_refl).
  - destruct (LFU.get_eviction_candidate q) as [k0 q'] eqn:E. intros [= -> <-].
    exact (pol_candidate_spec q k q' Hi E).
Qed.

Lemma make_policy_spec kind lim :
  pol_inv (make_policy kind lim) ∧ pol_tracked (make_policy kind lim) = ∅
  ∧ pol_memory (make_policy kind lim) = 0 ∧ pol_limit (make_policy kind lim) = lim.
Proof.
  destruct kind; simpl; split_and!; try done; first [apply LRU.make_inv|apply LFU.lfu_make_inv].
Qed.
End dispatch.
