(* ===== verification/HashTable.v ===== *)
(** * The hash table

    [HashTable] of src/engine/include/hash_table.h and
    src/engine/src/hash_table.cpp: chaining, the hash function, resizing,
    eviction through the policy interface, lazy and sampled expiry, and the
    write-ahead logging of every change. The recovery operations are in
    Recovery.v and Snapshot.v. *)

From S2P Require Import Prelude Files Wal Policy.

(** ** Data *)

Record ValueEntry := mkValueEntry {
  value : bytes;
  access_count : Z;
  last_access_ns : Z;
  expiry_ns : Z;       (* 0: no expiry *)
}.

(** The constructor of [ValueEntry]. *)
Definition new_entry (val : bytes) (ttl_ns : Z) : ValueEntry := mkValueEntry val 0 0 ttl_ns.

Record KeyValuePair := mkKV {
  kv_key : bytes;
  kv_value : ValueEntry;
  kv_hash : Z;
}.

#[global] Instance value_entry_eq_dec : EqDecision ValueEntry.
Proof. solve_decision. Defined.

#[global] Instance kv_eq_dec : EqDecision KeyValuePair.
Proof. solve_decision. Defined.

Abbreviation Chain := (list KeyValuePair).

Record HashTable (P : Type) := mkTable {
  buckets_ : list Chain;
  num_entries_ : Z;
  policy_ : P;
  wal_writer_ : option WALWriter;
  wal_path_ : bytes;
  disk : Disk;
}.
#[global] Arguments mkTable {P}.
#[global] Arguments buckets_ {P}.
#[global] Arguments num_entries_ {P}.
#[global] Arguments policy_ {P}.
#[global] Arguments wal_writer_ {P}.
#[global] Arguments wal_path_ {P}.
#[global] Arguments disk {P}.

Record HashTableStats := mkStats {
  num_entries : Z;
  num_buckets : Z;
  load_factor : Z * Z;        (* the quotient of the pair *)
  num_collisions : Z;
  max_chain_length : Z;
}.

(** ** The hash function *)

Definition hash_byte (h : Z) (c : Init.Byte.byte) : Z :=
  Z.lxor h (byte.unsigned c) *64 0x100000001b3.

Definition hash_mix (h : Z) : Z :=
  let h := Z.lxor h (Z.shiftr h 33) in
  let h := h *64 0xff51afd7ed558ccd in
  let h := Z.lxor h (Z.shiftr h 33) in
  let h := h *64 0xc4ceb9fe1a85ec53 in
  Z.lxor h (Z.shiftr h 33).

Definition hash (key : bytes) : Z :=
  hash_mix (fold_left hash_byte key 0x9e3779b97f4a7c15).

(** ** Chains *)

(** The loop [for (auto& kv : chain) if (kv.key == key)]: the position of the
    first pair with the key, as the pairs before it, itself, the pairs after. *)
Fixpoint chain_locate (k : bytes) (c : Chain) : option (Chain * KeyValuePair * Chain) :=
  match c with
  | [] => None
  | kv :: c =>
      if decide (kv_key kv = k) then Some ([], kv, c)
      else match chain_locate k c with
           | Some (before, hit, after) => Some (kv :: before, hit, after)
           | None => None
           end
  end.

Section table.
Context {P : Type} `{!EvictionPolicy P}.
Implicit Types t : HashTable P.

Definition set_buckets (bs : list Chain) (n : Z) (p : P) (t : HashTable P) : HashTable P :=
  mkTable bs n p (wal_writer_ t) (wal_path_ t) (disk t).

Definition bucket_index (h : Z) (bs : list Chain) : nat := Z.to_nat (h mod zlen bs).

Definition bucket (bs : list Chain) (i : nat) : Chain := default [] (bs !! i).

(** [if (wal_writer_) wal_writer_->append(record)]. *)
Definition log_record (r : WALRecord) (t : HashTable P) : HashTable P :=
  match wal_writer_ t with
  | None => t
  | Some w =>
      let '(w', d') := append r (w, disk t) in
      mkTable (buckets_ t) (num_entries_ t) (policy_ t) (Some w') (wal_path_ t) d'
  end.

(** ** remove *)

Definition remove (k : bytes) (t : HashTable P) : bool * HashTable P :=
  let t := log_record (mkWALRecord DELETE k [] 0) t in
  let i := bucket_index (hash k) (buckets_ t) in
  match chain_locate k (bucket (buckets_ t) i) with
  | Some (before, kv, after) =>
      let value_size := zlen (value (kv_value kv)) in
      (true, set_buckets (<[i := before ++ after]> (buckets_ t))
               (num_entries_ t -64 1)
               (pol_delete k value_size (policy_ t)) t)
  | None => (false, t)
  end.

(** ** Eviction *)

(** [evict_if_needed]: every iteration that does not leave the loop removes the
    victim, so the number of stored pairs bounds the iterations
    ([evict_loop_done] below). *)
Fixpoint evict_loop (fuel : nat) (t : HashTable P) : HashTable P :=
  match fuel with
  | O => t
  | S fuel =>
      if pol_should_evict (policy_ t) then
        let '(victim, p) := pol_candidate (policy_ t) in
        let t := set_buckets (buckets_ t) (num_entries_ t) p t in
        if decide (victim = []) then t
        else evict_loop fuel (remove victim t).2
      else t
  end.

Definition entries (t : HashTable P) : list KeyValuePair := concat (buckets_ t).

Definition evict_if_needed (t : HashTable P) : HashTable P :=
  evict_loop (S (length (entries t))) t.

(** ** Resizing *)

Definition place (bs : list Chain) (kv : KeyValuePair) : list Chain :=
  let i := bucket_index (kv_hash kv) bs in
  <[i := bucket bs i ++ [kv]]> bs.

Definition rehash (new_capacity : Z) (t : HashTable P) : HashTable P :=
  set_buckets (fold_left place (entries t) (replicate (Z.to_nat new_capacity) []))
    (num_entries_ t) (policy_ t) t.

(** [load_factor > LOAD_FACTOR_THRESHOLD], with the threshold 3/4. The number
    of buckets is a power of two, so for fewer than 2^53 entries the quotient
    of the two doubles is exact and the test is the comparison of integers. *)
Definition resize_if_needed (t : HashTable P) : HashTable P :=
  if 3 * zlen (buckets_ t) <? 4 * num_entries_ t
  then rehash (zlen (buckets_ t) * 2) t else t.

(** ** insert *)

Definition insert (k : bytes) (v : ValueEntry) (t : HashTable P) : bool * HashTable P :=
  let t := log_record (mkWALRecord SET k (value v) (s64 (expiry_ns v))) t in
  let t := evict_if_needed t in
  let t := resize_if_needed t in
  let h := hash k in
  let i := bucket_index h (buckets_ t) in
  let chain := bucket (buckets_ t) i in
  match chain_locate k chain with
  | Some (before, kv, after) =>
      let old_size := zlen (value (kv_value kv)) in
      (true, set_buckets (<[i := before ++ mkKV (kv_key kv) v h :: after]> (buckets_ t))
               (num_entries_ t)
               (pol_insert k (zlen (value v)) (last_access_ns v) (access_count v)
                  (pol_delete k old_size (policy_ t))) t)
  | None =>
      (true, set_buckets (<[i := chain ++ [mkKV k v h]]> (buckets_ t))
               (num_entries_ t +64 1)
               (pol_insert k (zlen (value v)) (last_access_ns v) (access_count v) (policy_ t)) t)
  end.

(** ** get *)

(** [is_expired]: [now] is the reading of [steady_clock] in nanoseconds. *)
Definition is_expired (now : Z) (e : ValueEntry) : bool :=
  if expiry_ns e =? 0 then false else expiry_ns e <=? u64 now.

(** [get] reads the clock twice: for the expiry test and for the access time.
    The pointer it returns is the entry after the update. *)
Definition get (k : bytes) (now_check now_access : Z) (t : HashTable P)
  : option ValueEntry * HashTable P :=
  let h := hash k in
  let i := bucket_index h (buckets_ t) in
  match chain_locate k (bucket (buckets_ t) i) with
  | Some (before, kv, after) =>
      if is_expired now_check (kv_value kv) then (None, t)
      else
        let v := mkValueEntry (value (kv_value kv)) (access_count (kv_value kv) +64 1)
                   (u64 now_access) (expiry_ns (kv_value kv)) in
        (Some v, set_buckets (<[i := before ++ mkKV (kv_key kv) v (kv_hash kv) :: after]> (buckets_ t))
                   (num_entries_ t)
                   (pol_access k (last_access_ns v) (access_count v) (policy_ t)) t)
  | None => (None, t)
  end.

(** ** Size and statistics *)

Definition ht_size (t : HashTable P) : Z := num_entries_ t.

Definition ht_empty (t : HashTable P) : bool := num_entries_ t =? 0.

Definition get_stats (t : HashTable P) : HashTableStats :=
  let '(collisions, longest) :=
    fold_left (λ '(collisions, longest) (chain : Chain),
                (if 1 <? zlen chain then collisions +64 (zlen chain - 1) else collisions,
                 Z.max longest (zlen chain)))
      (buckets_ t) (0, 0) in
  mkStats (num_entries_ t) (zlen (buckets_ t)) (num_entries_ t, zlen (buckets_ t))
    collisions longest.

(** [for_each]: the pairs in bucket order. *)
Definition for_each (t : HashTable P) : list (bytes * ValueEntry) :=
  (λ kv, (kv_key kv, kv_value kv)) <$> entries t.

(** ** Sampled expiry *)

Definition SAMPLE_SIZE : nat := 20.

(** The keys [scan_expired_keys] collects: [samples] are the bucket indices
    drawn from the random generator, [clock i j] the reading when the [j]-th
    pair of the [i]-th sampled bucket is tested. A bucket drawn twice
    contributes its keys twice. *)
Definition expired_in (clock : nat → Z) (chain : Chain) : list bytes :=
  kv_key <$> (filter (λ p, is_expired (clock p.1) (kv_value p.2) = true)
                (imap pair chain)).*2.

Definition expired_keys (samples : list nat) (clock : nat → nat → Z) (t : HashTable P) : list bytes :=
  concat (imap (λ i b, expired_in (clock i) (bucket (buckets_ t) b)) samples).

Definition scan_expired_keys (samples : list nat) (clock : nat → nat → Z) (t : HashTable P)
  : HashTable P :=
  fold_left (λ t k, (remove k t).2) (expired_keys samples clock t) t.

(** ** Write-ahead log management *)

(** [enable_wal]; the old writer, if any, is destroyed after the new one is
    opened. [None]: the constructor of the writer threw. *)
Definition enable_wal (path : bytes) (batch_size : Z) (t : HashTable P) : option (HashTable P) :=
  match open_writer path batch_size (disk t) with
  | None => None
  | Some (w, d) =>
      let d' := match wal_writer_ t with Some old => close_writer (old, d) | None => d end in
      Some (mkTable (buckets_ t) (num_entries_ t) (policy_ t) (Some w) path d')
  end.

Definition flush_wal (t : HashTable P) : HashTable P :=
  match wal_writer_ t with
  | None => t
  | Some w =>
      let '(w', d') := flush (w, disk t) in
      mkTable (buckets_ t) (num_entries_ t) (policy_ t) (Some w') (wal_path_ t) d'
  end.

Definition wal_size (t : HashTable P) : Z :=
  match wal_writer_ t with Some w => writer_size w | None => 0 end.

(** The default of [enable_wal]'s [batch_size]. *)
Definition DEFAULT_BATCH : Z := 100.

(** [truncate_wal]: the writer is destroyed (and flushes), the file is
    truncated, and a writer with the default batch size is opened. *)
Definition truncate_wal (t : HashTable P) : option (HashTable P) :=
  if decide (wal_path_ t = []) then Some t
  else
    let d := match wal_writer_ t with Some w => close_writer (w, disk t) | None => disk t end in
    let d' := default d (open_trunc d (wal_path_ t)) in
    enable_wal (wal_path_ t) DEFAULT_BATCH
      (mkTable (buckets_ t) (num_entries_ t) (policy_ t) None (wal_path_ t) d').

(** ** Construction *)

(** [while (capacity < initial_capacity) capacity <<= 1]: 64 doublings exhaust
    the width of [size_t]. *)
Fixpoint capacity_loop (fuel : nat) (capacity initial_capacity : Z) : Z :=
  match fuel with
  | O => capacity
  | S fuel =>
      if capacity <? initial_capacity
      then capacity_loop fuel (u64 (Z.shiftl capacity 1)) initial_capacity
      else capacity
  end.

Definition make_table (initial_capacity : Z) (p : P) (wal_path : bytes) (d : Disk)
  : option (HashTable P) :=
  let t := mkTable (replicate (Z.to_nat (capacity_loop 64 1 initial_capacity)) []) 0 p None [] d in
  if decide (wal_path = []) then Some t else enable_wal wal_path DEFAULT_BATCH t.
End table.
