(* ===== verification/Store.v ===== *)
(** * The buckets as a finite map

    Facts on the chains and buckets of the hash table, without its policy and
    log: a bucket vector whose pairs lie where their hash says denotes a finite
    map, and replacing one bucket or rehashing changes that map as intended. *)

From S2P Require Import Prelude HashTable.

(** ** Locating a pair in a chain *)

Lemma chain_locate_Some k c before kv after :
  chain_locate k c = Some (before, kv, after) →
  c = before ++ kv :: after ∧ kv_key kv = k.
Proof.
  revert before. induction c as [|x c IH]; intros before; simpl; [done|].
  case_decide; [by intros [= <- <- <-]|].
  destruct (chain_locate k c) as [[[b y] a]|]; [|done].
  intros [= <- <- <-]. by destruct (IH b eq_refl) as [-> ?].
Qed.

Lemma chain_locate_None k c : chain_locate k c = None → k ∉ kv_key <$> c.
Proof.
  induction c as [|x c IH]; simpl; [intros _; apply not_elem_of_nil|].
  case_decide; [done|]. destruct (chain_locate k c) as [[[? ?] ?]|]; [done|].
  intros _. apply not_elem_of_cons. auto.
Qed.

(** ** The map of a list of pairs *)

Definition pmap (l : list KeyValuePair) : gmap bytes ValueEntry :=
  list_to_map ((λ kv, (kv_key kv, kv_value kv)) <$> l).

Lemma pmap_fst (l : list KeyValuePair) :
  ((λ kv, (kv_key kv, kv_value kv)) <$> l).*1 = kv_key <$> l.
Proof. by rewrite <- list_fmap_compose. Qed.

Lemma pmap_perm l l' : NoDup (kv_key <$> l) → l ≡ₚ l' → pmap l = pmap l'.
Proof.
  intros Hnd Hp. apply list_to_map_proper; [by rewrite pmap_fst|by rewrite Hp].
Qed.

Lemma pmap_cons kv l : pmap (kv :: l) = <[kv_key kv := kv_value kv]> (pmap l).
Proof. done. Qed.

Lemma pmap_lookup l k v :
  NoDup (kv_key <$> l) →
  pmap l !! k = Some v ↔ ∃ kv, kv ∈ l ∧ kv_key kv = k ∧ kv_value kv = v.
Proof.
  intros Hnd. unfold pmap. rewrite <- elem_of_list_to_map by (by rewrite pmap_fst).
  rewrite list_elem_of_fmap. naive_solver.
Qed.

Lemma pmap_None l k : k ∉ kv_key <$> l → pmap l !! k = None.
Proof. intros H. apply not_elem_of_list_to_map_1. by rewrite pmap_fst. Qed.

Lemma pmap_is_Some l k : NoDup (kv_key <$> l) → is_Some (pmap l !! k) ↔ k ∈ kv_key <$> l.
Proof.
  intros Hnd. unfold is_Some. setoid_rewrite pmap_lookup; [|done].
  rewrite list_elem_of_fmap. naive_solver.
Qed.

(** ** Buckets *)

Lemma bucket_index_lt h bs : (0 < length bs)%nat → (bucket_index h bs < length bs)%nat.
Proof.
  intros. unfold bucket_index.
  pose proof (Z.mod_pos_bound h (zlen bs)). unfold zlen in *. lia.
Qed.

Lemma bucket_index_insert h bs i c : bucket_index h (<[i := c]> bs) = bucket_index h bs.
Proof. unfold bucket_index, zlen. by rewrite length_insert. Qed.

Lemma bucket_lookup bs i : (i < length bs)%nat → bs !! i = Some (bucket bs i).
Proof. intros [c Hc]%lookup_lt_is_Some_2. unfold bucket. by rewrite Hc. Qed.

(** One bucket against the rest. *)
Lemma bucket_perm bs i :
  (i < length bs)%nat →
  ∃ rest, concat bs ≡ₚ bucket bs i ++ rest
  ∧ ∀ c, concat (<[i := c]> bs) ≡ₚ c ++ rest.
Proof.
  intros Hi. exists (concat (take i bs) ++ concat (drop (S i) bs)). split.
  - rewrite <- (take_drop_middle bs i (bucket bs i)) at 1 by by apply bucket_lookup.
    rewrite concat_app, concat_cons. solve_Permutation.
  - intros c. rewrite insert_take_drop, concat_app, concat_cons by done. solve_Permutation.
Qed.

(** ** Well-formed bucket vectors *)

(** Pairs carry the hash of their key and lie in the bucket it selects. *)
Definition placed (bs : list Chain) : Prop :=
  ∀ i c kv, bs !! i = Some c → kv ∈ c →
    kv_hash kv = hash (kv_key kv) ∧ bucket_index (kv_hash kv) bs = i.

Record store_inv (bs : list Chain) : Prop := {
  store_nonempty : (0 < length bs)%nat;
  store_placed : placed bs;
  store_nodup : NoDup (kv_key <$> concat bs);
}.

Definition store_map (bs : list Chain) : gmap bytes ValueEntry := pmap (concat bs).

Lemma placed_set bs i c :
  placed bs →
  (∀ kv, kv ∈ c → kv_hash kv = hash (kv_key kv) ∧ bucket_index (kv_hash kv) bs = i) →
  placed (<[i := c]> bs).
Proof.
  intros Hp Hc j c' kv Hj Hkv. rewrite bucket_index_insert.
  destruct (decide (i = j)) as [->|Hne].
  - destruct (decide (j < length bs)%nat).
    + rewrite list_lookup_insert_eq in Hj by done. injection Hj as <-. auto.
    + rewrite list_insert_ge in Hj by lia. eauto.
  - rewrite list_lookup_insert_ne in Hj by done. eauto.
Qed.

(** A stored key is found in the bucket of its hash. *)
Lemma placed_bucket bs kv :
  placed bs → kv ∈ concat bs →
  kv ∈ bucket bs (bucket_index (hash (kv_key kv)) bs).
Proof.
  intros Hp Hkv. apply list_elem_of_In, in_concat in Hkv as (c & Hc & Hkv).
  apply list_elem_of_In, list_elem_of_lookup in Hc as [i Hi]. apply list_elem_of_In in Hkv.
  destruct (Hp i c kv Hi Hkv) as [Hh Hb]. rewrite <- Hh, Hb. unfold bucket. by rewrite Hi.
Qed.

(** ** Looking up *)

Definition bucket_of (k : bytes) (bs : list Chain) : Chain :=
  bucket bs (bucket_index (hash k) bs).

Lemma locate_lookup bs k :
  store_inv bs →
  store_map bs !! k = (λ x, kv_value x.1.2) <$> chain_locate k (bucket_of k bs).
Proof.
  intros [Hlen Hp Hnd]. unfold store_map.
  destruct (bucket_perm bs (bucket_index (hash k) bs)) as (rest & Hperm & _);
    [by apply bucket_index_lt|]. fold (bucket_of k bs) in Hperm.
  destruct (chain_locate k (bucket_of k bs)) as [[[b kv] a]|] eqn:E; simpl.
  - apply chain_locate_Some in E as [E <-]. apply pmap_lookup; [done|].
    exists kv. split; [|done]. rewrite Hperm, E. set_solver.
  - apply chain_locate_None in E. apply pmap_None. intros Hk. apply E.
    apply list_elem_of_fmap in Hk as (kv & -> & Hkv). apply list_elem_of_fmap.
    exists kv. split; [done|]. by apply placed_bucket.
Qed.

(** ** Replacing one bucket *)

(** Removing, updating and adding a pair all exchange some pairs [old] of the
    bucket of [k] for pairs [new] with key [k]. *)
Lemma exchange bs k before old after new :
  store_inv bs →
  bucket_of k bs = before ++ old ++ after →
  Forall (λ kv, kv_key kv = k ∧ kv_hash kv = hash k) new →
  let bs' := <[bucket_index (hash k) bs := before ++ new ++ after]> bs in
  ∃ rest, concat bs ≡ₚ old ++ rest ∧ concat bs' ≡ₚ new ++ rest
  ∧ (NoDup (kv_key <$> new ++ rest) → store_inv bs').
Proof.
  intros [Hlen Hp Hnd] Hb Hnew bs'. set (i := bucket_index (hash k) bs) in *.
  assert (i < length bs)%nat as Hi by by apply bucket_index_lt.
  destruct (bucket_perm bs i Hi) as (rest & Hperm & Hset).
  change (bucket bs i) with (bucket_of k bs) in Hperm. rewrite Hb in Hperm.
  assert (concat bs' ≡ₚ new ++ before ++ after ++ rest) as Hperm'.
  { unfold bs'. rewrite Hset. solve_Permutation. }
  exists (before ++ after ++ rest). split_and!; [rewrite Hperm; solve_Permutation|done|].
  intros Hnd'. split.
  - unfold bs'. by rewrite length_insert.
  - apply placed_set; [done|]. intros kv Hkv.
    destruct (decide (kv ∈ new)) as [Hin|Hnin].
    + rewrite Forall_forall in Hnew. by destruct (Hnew kv Hin) as [-> ->].
    + apply (Hp i (bucket bs i)); [by apply bucket_lookup|].
      change (bucket bs i) with (bucket_of k bs). rewrite Hb. set_solver.
  - by rewrite Hperm'.
Qed.

Lemma store_remove bs k before kv after :
  store_inv bs → chain_locate k (bucket_of k bs) = Some (before, kv, after) →
  let bs' := <[bucket_index (hash k) bs := before ++ after]> bs in
  store_inv bs' ∧ store_map bs' = delete k (store_map bs)
  ∧ length (concat bs) = S (length (concat bs')).
Proof.
  intros Hs [Hb Hk]%chain_locate_Some bs'.
  destruct (exchange bs k before [kv] after [] Hs Hb) as (rest & Hold & Hnew & Hinv); [constructor|].
  simpl in Hold, Hnew, Hinv. fold bs' in Hnew, Hinv. pose proof (store_nodup bs Hs) as Hnd. rewrite Hold in Hnd.
  apply NoDup_cons in Hnd as [Hk' Hnd]. rewrite Hk in Hk'.
  split_and!; [auto| |by rewrite Hold, Hnew].
  unfold store_map. rewrite (pmap_perm _ _ (store_nodup bs Hs) Hold), pmap_cons, Hk.
  rewrite delete_insert_id by by apply pmap_None. symmetry. by apply pmap_perm.
Qed.

Lemma store_update bs k before kv after v :
  store_inv bs → chain_locate k (bucket_of k bs) = Some (before, kv, after) →
  let bs' := <[bucket_index (hash k) bs := before ++ mkKV (kv_key kv) v (hash k) :: after]> bs in
  store_inv bs' ∧ store_map bs' = <[k := v]> (store_map bs)
  ∧ length (concat bs) = length (concat bs').
Proof.
  intros Hs [Hb Hk]%chain_locate_Some bs'.
  destruct (exchange bs k before [kv] after [mkKV (kv_key kv) v (hash k)] Hs Hb)
    as (rest & Hold & Hnew & Hinv); [by constructor|].
  simpl in Hold, Hnew, Hinv. fold bs' in Hnew, Hinv. pose proof (store_nodup bs Hs) as Hnd. rewrite Hold in Hnd.
  specialize (Hinv Hnd). split_and!; [done| |by rewrite Hold, Hnew].
  unfold store_map. rewrite (pmap_perm _ _ (store_nodup bs' Hinv) Hnew).
  rewrite (pmap_perm _ _ (store_nodup bs Hs) Hold), !pmap_cons, Hk. simpl.
  by rewrite insert_insert_eq.
Qed.

Lemma store_add bs k v :
  store_inv bs → chain_locate k (bucket_of k bs) = None →
  let bs' := <[bucket_index (hash k) bs := bucket_of k bs ++ [mkKV k v (hash k)]]> bs in
  store_inv bs' ∧ store_map bs' = <[k := v]> (store_map bs)
  ∧ length (concat bs') = S (length (concat bs)).
Proof.
  intros Hs Hloc bs'. pose proof (locate_lookup bs k Hs) as Hnone. rewrite Hloc in Hnone.
  destruct (exchange bs k (bucket_of k bs) [] [] [mkKV k v (hash k)] Hs)
    as (rest & Hold & Hnew & Hinv); [by rewrite app_nil_r|by constructor|].
  simpl in Hold, Hnew, Hinv. fold bs' in Hnew, Hinv. pose proof (store_nodup bs Hs) as Hnd. rewrite Hold in Hnd.
  assert (k ∉ kv_key <$> rest) as Hk.
  { rewrite <- Hold, <- pmap_is_Some by apply Hs. fold (store_map bs). rewrite Hnone.
    by intros [? ?]. }
  specialize (Hinv ltac:(by apply NoDup_cons)). split_and!; [done| |by rewrite Hold, Hnew].
  unfold store_map. rewrite (pmap_perm _ _ (store_nodup bs' Hinv) Hnew).
  by rewrite (pmap_perm _ _ (store_nodup bs Hs) Hold), pmap_cons.
Qed.

(** ** Rehashing *)

Lemma place_perm bs kv :
  (0 < length bs)%nat → concat (place bs kv) ≡ₚ kv :: concat bs.
Proof.
  intros Hlen. unfold place.
  destruct (bucket_perm bs (bucket_index (kv_hash kv) bs)) as (rest & Hold & Hset);
    [by apply bucket_index_lt|].
  rewrite Hset, Hold. solve_Permutation.
Qed.

Lemma place_placed bs kv :
  (0 < length bs)%nat → placed bs → kv_hash kv = hash (kv_key kv) → placed (place bs kv).
Proof.
  intros Hlen Hp Hh. apply placed_set; [done|]. intros kv' [Hin|Hin]%elem_of_app.
  - eapply Hp; [|done]. apply bucket_lookup. by apply bucket_index_lt.
  - apply list_elem_of_singleton in Hin as ->. done.
Qed.

Lemma length_place bs kv : length (place bs kv) = length bs.
Proof. unfold place. apply length_insert. Qed.

Lemma place_all l bs :
  (0 < length bs)%nat → placed bs → Forall (λ kv, kv_hash kv = hash (kv_key kv)) l →
  concat (fold_left place l bs) ≡ₚ l ++ concat bs
  ∧ placed (fold_left place l bs) ∧ length (fold_left place l bs) = length bs.
Proof.
  revert bs. induction l as [|kv l IH]; intros bs Hlen Hp Hl; simpl; [done|].
  apply Forall_cons in Hl as [Hkv Hl].
  destruct (IH (place bs kv)) as (Hperm & ? & ->);
    [by rewrite length_place|by apply place_placed|done|].
  split_and!; [|done|apply length_place].
  rewrite Hperm, place_perm by done. solve_Permutation.
Qed.

Lemma concat_replicate_nil {A} n : concat (replicate n ([] : list A)) = [].
Proof. induction n; simpl; done. Qed.

Lemma placed_hashes bs : placed bs → Forall (λ kv, kv_hash kv = hash (kv_key kv)) (concat bs).
Proof.
  intros Hp. rewrite Forall_forall. intros kv Hkv.
  apply list_elem_of_In, in_concat in Hkv as (c & Hc & Hkv).
  apply list_elem_of_In, list_elem_of_lookup in Hc as [i Hi]. apply list_elem_of_In in Hkv.
  by destruct (Hp i c kv Hi Hkv).
Qed.

Lemma placed_empty n : placed (replicate n []).
Proof. intros i c kv [-> _]%lookup_replicate Hkv. by apply not_elem_of_nil in Hkv. Qed.

Lemma store_empty n : (0 < n)%nat → store_inv (replicate n []) ∧ store_map (replicate n []) = ∅.
Proof.
  intros Hn. unfold store_map. rewrite concat_replicate_nil. split; [|done]. split.
  - by rewrite length_replicate.
  - apply placed_empty.
  - rewrite concat_replicate_nil. constructor.
Qed.

Lemma store_rehash bs n :
  store_inv bs → (0 < n)%nat →
  let bs' := fold_left place (concat bs) (replicate n []) in
  store_inv bs' ∧ store_map bs' = store_map bs ∧ length bs' = n
  ∧ length (concat bs') = length (concat bs).
Proof.
  intros Hs Hn bs'. pose proof (placed_hashes bs (store_placed bs Hs)) as Hh.
  destruct (place_all (concat bs) (replicate n [])) as (Hperm & Hp & Hlen);
    [by rewrite length_replicate|apply placed_empty|done|].
  rewrite concat_replicate_nil, app_nil_r in Hperm. rewrite length_replicate in Hlen.
  fold bs' in Hperm, Hp, Hlen. split_and!; [|symmetry; by apply pmap_perm, symmetry; [apply Hs|]|done|by rewrite Hperm].
  split; [lia|done|]. rewrite Hperm. apply Hs.
Qed.
