(* ===== verification/TableFacts.v ===== *)
(** * The hash table as a finite map

    The invariant of [HashTable] (buckets, counter and policy agree), that
    every operation preserves it, and what each operation does to the finite
    map the table denotes. *)

From S2P Require Import Prelude Files Wal Policy HashTable Store.

Section facts.
Context {P : Type} `{!EvictionPolicy P}.
Implicit Types t : HashTable P.

(** The abstract state of a table. *)
Definition contents (t : HashTable P) : gmap bytes ValueEntry := store_map (buckets_ t).

Definition sizes (m : gmap bytes ValueEntry) : gmap bytes Z := (λ v, zlen (value v)) <$> m.

(** The buckets form a store over a power-of-two number of chains, the counter
    counts the pairs, and the policy tracks exactly the stored keys with the
    sizes of their values. *)
Record ht_inv (t : HashTable P) : Prop := {
  ht_store : store_inv (buckets_ t);
  ht_pow2 : ∃ n, length (buckets_ t) = (2 ^ n)%nat;
  ht_count : num_entries_ t = u64 (zlen (entries t));
  ht_policy : pol_inv (policy_ t);
  ht_tracked : pol_tracked (policy_ t) = sizes (contents t);
}.

(** ** Logging leaves the data alone *)

Lemma log_record_frame r t :
  buckets_ (log_record r t) = buckets_ t ∧ num_entries_ (log_record r t) = num_entries_ t
  ∧ policy_ (log_record r t) = policy_ t ∧ wal_path_ (log_record r t) = wal_path_ t.
Proof. unfold log_record. destruct (wal_writer_ t); [|done]. by destruct (append _ _). Qed.

Lemma log_record_inv r t : ht_inv t → ht_inv (log_record r t).
Proof.
  destruct (log_record_frame r t) as (Hb & Hn & Hp & _). intros [Hs H2 Hc Hi Ht].
  split; unfold contents, entries in *; by rewrite ?Hb, ?Hn, ?Hp.
Qed.

Lemma log_record_contents r t : contents (log_record r t) = contents t.
Proof. unfold contents. by destruct (log_record_frame r t) as (-> & _). Qed.

Lemma log_record_entries r t : entries (log_record r t) = entries t.
Proof. unfold entries. by destruct (log_record_frame r t) as (-> & _). Qed.

(** ** remove *)

(** The shape of [remove]: the pair goes, the counter and the policy follow.
    The policy's own invariant is not needed, so that it also applies within
    eviction. *)
Lemma remove_shape k t :
  store_inv (buckets_ t) →
  let t' := (remove k t).2 in
  match contents t !! k with
  | Some v =>
      (remove k t).1 = true ∧ store_inv (buckets_ t') ∧ contents t' = delete k (contents t)
      ∧ num_entries_ t' = num_entries_ t -64 1
      ∧ policy_ t' = pol_delete k (zlen (value v)) (policy_ t)
      ∧ length (entries t) = S (length (entries t'))
      ∧ length (buckets_ t') = length (buckets_ t)
  | None =>
      (remove k t).1 = false ∧ buckets_ t' = buckets_ t
      ∧ num_entries_ t' = num_entries_ t ∧ policy_ t' = policy_ t
  end.
Proof.
  intros Hs. unfold remove. set (r := mkWALRecord _ _ _ _).
  destruct (log_record_frame r t) as (Hb & Hn & Hp & _).
  unfold contents. rewrite locate_lookup by done. rewrite Hb. fold (bucket_of k (buckets_ t)).
  destruct (chain_locate k (bucket_of k (buckets_ t))) as [[[b kv] a]|] eqn:E; simpl.
  - destruct (store_remove _ _ _ _ _ Hs E) as (? & ? & ?). rewrite Hn, Hp.
    unfold entries. simpl. rewrite length_insert. done.
  - done.
Qed.

Lemma sizes_delete k m : sizes (delete k m) = delete k (sizes m).
Proof. apply fmap_delete. Qed.

Lemma sizes_insert k v m : sizes (<[k := v]> m) = <[k := zlen (value v)]> (sizes m).
Proof. unfold sizes. by rewrite fmap_insert. Qed.

Lemma sizes_lookup k m : sizes m !! k = (λ v, zlen (value v)) <$> m !! k.
Proof. apply lookup_fmap. Qed.

Lemma tracked_lookup k t :
  ht_inv t → pol_tracked (policy_ t) !! k = (λ v, zlen (value v)) <$> contents t !! k.
Proof. intros H. by rewrite (ht_tracked t H), sizes_lookup. Qed.

(** The counter after one pair more or less. *)
Lemma count_pred n (l l' : list KeyValuePair) :
  n = u64 (zlen l) → length l = S (length l') → n -64 1 = u64 (zlen l').
Proof. intros -> Hl. rewrite u64_pred. f_equal. unfold zlen. lia. Qed.

Lemma count_succ n (l l' : list KeyValuePair) :
  n = u64 (zlen l) → length l' = S (length l) → n +64 1 = u64 (zlen l').
Proof. intros -> Hl. rewrite u64_succ. f_equal. unfold zlen. lia. Qed.

Lemma remove_inv k t : ht_inv t → ht_inv (remove k t).2.
Proof.
  intros Hinv. pose proof Hinv as [Hs [n H2] Hc Hi Ht].
  pose proof (remove_shape k t Hs) as H. cbv zeta in H.
  destruct (contents t !! k) as [v|] eqn:E.
  - destruct H as (_ & ? & Hm & Hn & Hp & Hlen & Hb).
    destruct (pol_delete_spec k (zlen (value v)) (policy_ t) Hi) as (? & Htr & _).
    split; [done|by exists n; rewrite Hb|rewrite Hn; by eapply count_pred|by rewrite Hp|].
    by rewrite Hp, Htr, Hm, sizes_delete, Ht.
  - destruct H as (_ & Hb & Hn & Hp). split; unfold contents, entries in *;
      rewrite ?Hb, ?Hn, ?Hp; eauto.
Qed.

Lemma remove_contents k t : ht_inv t → contents (remove k t).2 = delete k (contents t).
Proof.
  intros Hinv. pose proof (remove_shape k t (ht_store t Hinv)) as H. cbv zeta in H.
  destruct (contents t !! k) as [v|] eqn:E; [tauto|].
  destruct H as (_ & Hb & _). rewrite delete_id by done. unfold contents. by rewrite Hb.
Qed.

Lemma remove_result k t :
  ht_inv t → (remove k t).1 = bool_decide (is_Some (contents t !! k)).
Proof.
  intros Hinv. pose proof (remove_shape k t (ht_store t Hinv)) as H. cbv zeta in H.
  destruct (contents t !! k) as [v|] eqn:E; destruct H as (-> & _).
  - symmetry. apply bool_decide_eq_true. eauto.
  - symmetry. apply bool_decide_eq_false. by intros [? ?].
Qed.

(** ** Eviction *)

(** One round of eviction with a victim: the victim was stored and is gone,
    and the invariant is back. *)
Lemma evict_round t victim p :
  ht_inv t → pol_candidate (policy_ t) = (victim, p) → victim ≠ [] →
  let t1 := set_buckets (buckets_ t) (num_entries_ t) p t in
  let t' := (remove victim t1).2 in
  ht_inv t' ∧ contents t' = delete victim (contents t)
  ∧ length (entries t) = S (length (entries t'))
  ∧ length (buckets_ t') = length (buckets_ t)
  ∧ ∃ v, contents t !! victim = Some v
     ∧ pol_memory (policy_ t') = mem_sub (pol_memory (policy_ t)) (zlen (value v))
     ∧ pol_limit (policy_ t') = pol_limit (policy_ t).
Proof.
  intros Hinv Hc Hv t1 t'. pose proof Hinv as [Hs [n H2] Hcnt Hi Ht].
  destruct (pol_candidate_spec _ _ _ Hi Hc) as (_ & _ & _ & Hcand & _).
  destruct (Hcand Hv) as [Hsome Hdel].
  pose proof (remove_shape victim t1 Hs) as H. cbv zeta in H. fold t' in H.
  change (contents t1) with (contents t) in H. rewrite tracked_lookup in Hsome by done.
  destruct (contents t !! victim) as [v|] eqn:E; [|by destruct Hsome].
  destruct H as (_ & Hs' & Hm & Hn & Hp & Hlen & Hb). change (entries t1) with (entries t) in Hlen.
  destruct (Hdel (zlen (value v))) as (Hi' & Htr' & Hmem & Hlim).
  split_and!; [|done..|exists v; by rewrite Hp].
  split; [done|by exists n; rewrite Hb|rewrite Hn; by eapply count_pred|by rewrite Hp|].
  by rewrite Hp, Hm, sizes_delete, <- Ht.
Qed.

(** The loop ran to its exit: nothing more to evict, or the policy answered
    the empty string, which means an empty table unless the empty key is
    stored. *)
Definition evict_done (t : HashTable P) : Prop :=
  pol_should_evict (policy_ t) = false
  ∨ contents t = ∅ ∨ is_Some (contents t !! ([] : bytes)).

Lemma sizes_empty_inv m : sizes m = ∅ → m = ∅.
Proof. apply fmap_empty_inv. Qed.

Lemma set_policy_inv t p :
  ht_inv t → pol_inv p → pol_tracked p = pol_tracked (policy_ t) →
  ht_inv (set_buckets (buckets_ t) (num_entries_ t) p t).
Proof.
  intros [Hs H2 Hc Hi Ht] Hi' Ht'. split; try done. simpl. by rewrite Ht', Ht.
Qed.

Lemma evict_loop_done fuel t :
  ht_inv t → (length (entries t) < fuel)%nat →
  ht_inv (evict_loop fuel t) ∧ evict_done (evict_loop fuel t)
  ∧ contents (evict_loop fuel t) ⊆ contents t
  ∧ length (buckets_ (evict_loop fuel t)) = length (buckets_ t).
Proof.
  revert t. induction fuel as [|fuel IH]; intros t Hinv Hf; [lia|]. simpl.
  destruct (pol_should_evict (policy_ t)) eqn:Hev; [|split_and!; try done; by left].
  destruct (pol_candidate (policy_ t)) as [victim p] eqn:Hc.
  case_decide as Hv.
  - destruct (pol_candidate_spec _ _ _ (ht_policy t Hinv) Hc) as (Htr & _ & _ & _ & Hempty).
    destruct (Hempty Hv) as [Hi Hor]. split_and!; [by apply set_policy_inv| |done|done].
    right. rewrite (ht_tracked t Hinv), sizes_lookup in Hor. destruct Hor as [Hor|Hor].
    + left. by apply sizes_empty_inv.
    + right. by apply fmap_is_Some in Hor.
  - destruct (evict_round t victim p Hinv Hc Hv) as (Hinv' & Hm & Hlen & Hb & _).
    destruct (IH _ Hinv' ltac:(lia)) as (? & ? & Hsub & Hlb).
    split_and!; [done|done| |congruence]. etrans; [exact Hsub|]. rewrite Hm. apply delete_subseteq.
Qed.

Lemma evict_spec t :
  ht_inv t →
  ht_inv (evict_if_needed t) ∧ evict_done (evict_if_needed t)
  ∧ contents (evict_if_needed t) ⊆ contents t
  ∧ length (buckets_ (evict_if_needed t)) = length (buckets_ t).
Proof. intros Hinv. apply evict_loop_done; [done|lia]. Qed.

Lemma evict_id t : pol_should_evict (policy_ t) = false → evict_if_needed t = t.
Proof. intros H. unfold evict_if_needed. simpl. by rewrite H. Qed.

(** ** Resizing *)

Lemma resize_spec t :
  ht_inv t →
  let t' := resize_if_needed t in
  ht_inv t' ∧ contents t' = contents t ∧ length (entries t') = length (entries t)
  ∧ policy_ t' = policy_ t ∧ num_entries_ t' = num_entries_ t
  ∧ length (buckets_ t')
    = (if 3 * zlen (buckets_ t) <? 4 * num_entries_ t then (2 * length (buckets_ t))%nat
       else length (buckets_ t)).
Proof.
  intros Hinv t'. unfold t', resize_if_needed. case_match; [|done].
  pose proof Hinv as [Hs [n H2] Hc Hi Ht].
  assert (Z.to_nat (zlen (buckets_ t) * 2) = (2 * length (buckets_ t))%nat) as Hcap
    by (unfold zlen; lia).
  destruct (store_rehash (buckets_ t) (2 * length (buckets_ t))) as (Hs' & Hm & Hlen & Hcnt);
    [done|rewrite H2; pose proof (Nat.pow_nonzero 2 n); lia|].
  unfold rehash. rewrite Hcap. set (m := (2 * length (buckets_ t))%nat) in *.
  unfold entries, contents in *. cbn [buckets_ set_buckets policy_ num_entries_].
  split_and!; try done. split; try done; cbn [buckets_ set_buckets policy_ num_entries_].
  - exists (S n). rewrite Hlen. unfold m. rewrite H2. simpl. lia.
  - rewrite Hc. unfold entries, zlen. simpl. by rewrite Hcnt.
  - unfold contents. simpl. by rewrite Hm.
Qed.

(** ** insert *)

(** The table in which [insert] looks the key up. *)
Definition before_insert (k : bytes) (v : ValueEntry) (t : HashTable P) : HashTable P :=
  evict_if_needed (log_record (mkWALRecord SET k (value v) (s64 (expiry_ns v))) t).

Lemma before_insert_spec k v t :
  ht_inv t →
  ht_inv (before_insert k v t) ∧ evict_done (before_insert k v t)
  ∧ contents (before_insert k v t) ⊆ contents t
  ∧ length (buckets_ (before_insert k v t)) = length (buckets_ t).
Proof.
  intros Hinv. unfold before_insert. set (r := mkWALRecord _ _ _ _).
  destruct (evict_spec (log_record r t) (log_record_inv r t Hinv)) as (? & ? & Hsub & Hb).
  rewrite log_record_contents in Hsub.
  destruct (log_record_frame r t) as (Hb' & _). by rewrite Hb, Hb'.
Qed.

Lemma insert_shape k v t :
  ht_inv t →
  let t1 := resize_if_needed (before_insert k v t) in
  let t' := (insert k v t).2 in
  (insert k v t).1 = true ∧ store_inv (buckets_ t')
  ∧ contents t' = <[k := v]> (contents t1)
  ∧ length (buckets_ t') = length (buckets_ t1)
  ∧ match contents t1 !! k with
    | Some old =>
        num_entries_ t' = num_entries_ t1 ∧ length (entries t') = length (entries t1)
        ∧ policy_ t' = pol_insert k (zlen (value v)) (last_access_ns v) (access_count v)
                         (pol_delete k (zlen (value old)) (policy_ t1))
    | None =>
        num_entries_ t' = num_entries_ t1 +64 1
        ∧ length (entries t') = S (length (entries t1))
        ∧ policy_ t' = pol_insert k (zlen (value v)) (last_access_ns v) (access_count v)
                         (policy_ t1)
    end.
Proof.
  intros Hinv t1 t'. destruct (before_insert_spec k v t Hinv) as (Hb & _).
  pose proof (resize_spec _ Hb) as (Hinv1 & _). fold t1 in Hinv1.
  pose proof (ht_store _ Hinv1) as Hs. unfold t', insert. fold (before_insert k v t). fold t1.
  unfold contents, entries. rewrite locate_lookup by done. fold (bucket_of k (buckets_ t1)).
  destruct (chain_locate k (bucket_of k (buckets_ t1))) as [[[b kv] a]|] eqn:E; simpl.
  - destruct (store_update _ _ _ _ _ v Hs E) as (? & ? & Hlen). rewrite length_insert. done.
  - destruct (store_add _ _ v Hs E) as (? & ? & ?). rewrite length_insert. done.
Qed.

(** Replacing or adding the tracked entry of [k]. *)
Lemma policy_reinsert (p : P) k (old : option Z) (v sz now c : Z) :
  pol_inv p → pol_tracked p !! k = old →
  let p' := pol_insert k v now c
              (match old with Some _ => pol_delete k sz p | None => p end) in
  pol_inv p' ∧ pol_tracked p' = <[k := v]> (pol_tracked p) ∧ pol_limit p' = pol_limit p
  ∧ pol_memory p' = (match old with Some _ => mem_sub (pol_memory p) sz
                     | None => pol_memory p end) +64 v.
Proof.
  intros Hi <- p'. unfold p'. destruct (pol_tracked p !! k) as [s0|] eqn:E.
  - destruct (pol_delete_spec k sz p Hi) as (Hi' & Htr & Hmem & Hlim).
    destruct (pol_insert_spec k v now c (pol_delete k sz p) Hi') as (? & -> & -> & ->);
      [by rewrite Htr, lookup_delete_eq|].
    rewrite Hmem, decide_True, Htr, insert_delete_eq by (rewrite E; eauto). done.
  - by destruct (pol_insert_spec k v now c p Hi E) as (? & -> & -> & ->).
Qed.

Lemma insert_inv k v t : ht_inv t → ht_inv (insert k v t).2.
Proof.
  intros Hinv. destruct (before_insert_spec k v t Hinv) as (Hb & _).
  pose proof (resize_spec _ Hb) as (Hinv1 & _).
  destruct (insert_shape k v t Hinv) as (_ & Hs & Hm & Hlb & Hcase).
  set (t1 := resize_if_needed (before_insert k v t)) in *.
  pose proof Hinv1 as [_ [n H2] Hc Hi Ht]. pose proof (tracked_lookup k t1 Hinv1) as Htr.
  destruct (contents t1 !! k) as [old|]; destruct Hcase as (Hn & Hlen & Hp); simpl in Htr.
  - destruct (policy_reinsert (policy_ t1) k _ (zlen (value v)) (zlen (value old))
                (last_access_ns v) (access_count v) Hi Htr) as (? & Htr' & _).
    split; [done|by exists n; rewrite Hlb| |by rewrite Hp|].
    + rewrite Hn, Hc. unfold zlen. by rewrite Hlen.
    + by rewrite Hp, Htr', Ht, Hm, sizes_insert.
  - destruct (policy_reinsert (policy_ t1) k _ (zlen (value v)) 0
                (last_access_ns v) (access_count v) Hi Htr) as (? & Htr' & _).
    split; [done|by exists n; rewrite Hlb| |by rewrite Hp|].
    + rewrite Hn. by eapply count_succ.
    + by rewrite Hp, Htr', Ht, Hm, sizes_insert.
Qed.

Lemma insert_contents k v t :
  ht_inv t → contents (insert k v t).2 = <[k := v]> (contents (before_insert k v t)).
Proof.
  intros Hinv. destruct (before_insert_spec k v t Hinv) as (Hb & _).
  pose proof (resize_spec _ Hb) as (_ & Hc & _).
  destruct (insert_shape k v t Hinv) as (_ & _ & -> & _). by rewrite Hc.
Qed.

Lemma before_insert_id k v t :
  pol_should_evict (policy_ t) = false → contents (before_insert k v t) = contents t.
Proof.
  intros H. unfold before_insert. set (r := mkWALRecord _ _ _ _).
  destruct (log_record_frame r t) as (_ & _ & Hp & _).
  rewrite evict_id by by rewrite Hp. apply log_record_contents.
Qed.

(** ** get *)

Definition touched (now : Z) (v : ValueEntry) : ValueEntry :=
  mkValueEntry (value v) (access_count v +64 1) (u64 now) (expiry_ns v).

Lemma get_shape k now1 now2 t :
  store_inv (buckets_ t) →
  match contents t !! k with
  | Some v =>
      if is_expired now1 v then get k now1 now2 t = (None, t)
      else ∃ t', get k now1 now2 t = (Some (touched now2 v), t')
           ∧ store_inv (buckets_ t') ∧ contents t' = <[k := touched now2 v]> (contents t)
           ∧ num_entries_ t' = num_entries_ t
           ∧ length (entries t') = length (entries t)
           ∧ length (buckets_ t') = length (buckets_ t)
           ∧ policy_ t' = pol_access k (u64 now2) (access_count v +64 1) (policy_ t)
           ∧ wal_writer_ t' = wal_writer_ t ∧ wal_path_ t' = wal_path_ t ∧ disk t' = disk t
  | None => get k now1 now2 t = (None, t)
  end.
Proof.
  intros Hs. unfold contents, get. rewrite locate_lookup by done.
  fold (bucket_of k (buckets_ t)).
  destruct (chain_locate k (bucket_of k (buckets_ t))) as [[[b kv] a]|] eqn:E; simpl; [|done].
  destruct (is_expired now1 (kv_value kv)); [done|].
  assert (kv_hash kv = hash k) as Hh.
  { apply chain_locate_Some in E as [E <-].
    apply (store_placed _ Hs (bucket_index (hash (kv_key kv)) (buckets_ t))
             (bucket_of (kv_key kv) (buckets_ t))).
    - apply bucket_lookup, bucket_index_lt, Hs.
    - rewrite E. set_solver. }
  destruct (store_update _ _ _ _ _ (touched now2 (kv_value kv)) Hs E) as (? & ? & Hlen).
  eexists. split; [done|]. unfold entries. simpl. rewrite Hh, length_insert. done.
Qed.

Lemma sizes_touched k v now m :
  m !! k = Some v → sizes (<[k := touched now v]> m) = sizes m.
Proof.
  intros H. rewrite sizes_insert. simpl. apply insert_id.
  by rewrite sizes_lookup, H.
Qed.

Lemma get_inv k now1 now2 t : ht_inv t → ht_inv (get k now1 now2 t).2.
Proof.
  intros Hinv. pose proof Hinv as [Hs [n H2] Hc Hi Ht].
  pose proof (get_shape k now1 now2 t Hs) as H.
  destruct (contents t !! k) as [v|] eqn:E; [|by rewrite H].
  destruct (is_expired now1 v); [by rewrite H|].
  destruct H as (t' & -> & Hs' & Hm & Hn & Hlen & Hb & Hp & _). simpl.
  destruct (pol_access_spec k (u64 now2) (access_count v +64 1) _ Hi) as (? & Htr & _).
  split; [done|by exists n; rewrite Hb| |by rewrite Hp|].
  - rewrite Hn, Hc. unfold zlen. by rewrite Hlen.
  - by rewrite Hp, Htr, Hm, sizes_touched.
Qed.

(** ** Memory accounting *)

Definition total (m : gmap bytes ValueEntry) : Z := map_total (sizes m).

Lemma sizes_nonneg m : map_Forall (λ _ z, 0 <= z) (sizes m).
Proof.
  intros k z. rewrite sizes_lookup. destruct (m !! k); simpl; [|done].
  intros [= <-]. apply zlen_nonneg.
Qed.

Lemma total_nonneg m : 0 <= total m.
Proof. apply map_total_nonneg, sizes_nonneg. Qed.

Lemma total_delete m k v : m !! k = Some v → total m = zlen (value v) + total (delete k m).
Proof.
  intros H. unfold total. rewrite sizes_delete. apply map_total_delete.
  by rewrite sizes_lookup, H.
Qed.

Lemma total_insert m k v :
  total (<[k := v]> m) = zlen (value v) + total (delete k m).
Proof.
  rewrite <- insert_delete_eq. unfold total at 1. rewrite sizes_insert. apply map_total_insert.
  by rewrite sizes_lookup, lookup_delete_eq.
Qed.

Lemma total_delete_le m k : total (delete k m) <= total m.
Proof.
  destruct (m !! k) as [v|] eqn:E; [|by rewrite delete_id].
  pose proof (total_delete m k v E). pose proof (zlen_nonneg (value v)). lia.
Qed.

Lemma total_mono m1 m2 : m1 ⊆ m2 → total m1 <= total m2.
Proof.
  revert m2. induction m1 as [|k v m1 Hk IH] using map_ind; intros m2 Hsub.
  - apply total_nonneg.
  - assert (m2 !! k = Some v) as Hk2.
    { eapply lookup_weaken; [|done]. apply lookup_insert_eq. }
    rewrite total_insert, (total_delete m2 k v Hk2), delete_id by done.
    assert (m1 ⊆ delete k m2) as Hsub'; [|apply IH in Hsub'; lia].
    rewrite <- (delete_insert_id m1 k v) by done. by apply delete_mono.
Qed.

(** The policy's counter is the number of value bytes stored, and fits. *)
Definition acct (t : HashTable P) : Prop :=
  pol_memory (policy_ t) = total (contents t) ∧ total (contents t) < 2 ^ 64.

Lemma mem_sub_total m k v :
  m !! k = Some v → mem_sub (total m) (zlen (value v)) = total (delete k m).
Proof.
  intros H. rewrite (total_delete m k v H). unfold mem_sub.
  pose proof (total_nonneg (delete k m)). destruct (Z.leb_spec (zlen (value v)) (zlen (value v) + total (delete k m))); lia.
Qed.

Lemma acct_delete t t' k v :
  acct t → contents t !! k = Some v → contents t' = delete k (contents t) →
  pol_memory (policy_ t') = mem_sub (pol_memory (policy_ t)) (zlen (value v)) → acct t'.
Proof.
  intros [Hm Hlt] Hk Hc Hp. split.
  - by rewrite Hp, Hm, (mem_sub_total _ k v Hk), Hc.
  - rewrite Hc. pose proof (total_delete_le (contents t) k). lia.
Qed.

Lemma remove_acct k t :
  ht_inv t → acct t →
  acct (remove k t).2 ∧ pol_limit (policy_ (remove k t).2) = pol_limit (policy_ t).
Proof.
  intros Hinv Ha. pose proof (remove_shape k t (ht_store t Hinv)) as H. cbv zeta in H.
  destruct (contents t !! k) as [v|] eqn:E.
  - destruct H as (_ & _ & Hm & _ & Hp & _).
    destruct (pol_delete_spec k (zlen (value v)) _ (ht_policy t Hinv)) as (_ & _ & Hmem & Hlim).
    rewrite decide_True in Hmem by (rewrite tracked_lookup, E by done; simpl; eauto).
    split; [|by rewrite Hp, Hlim]. apply (acct_delete t _ k v); [done..|]. by rewrite Hp, Hmem.
  - destruct H as (_ & Hb & _ & Hp). unfold acct, contents in *. by rewrite Hb, Hp.
Qed.

Lemma evict_loop_acct fuel t :
  ht_inv t → acct t →
  acct (evict_loop fuel t) ∧ pol_limit (policy_ (evict_loop fuel t)) = pol_limit (policy_ t).
Proof.
  revert t. induction fuel as [|fuel IH]; intros t Hinv Ha; [done|]. simpl.
  destruct (pol_should_evict (policy_ t)); [|done].
  destruct (pol_candidate (policy_ t)) as [victim p] eqn:Hc. case_decide as Hv.
  - destruct (pol_candidate_spec _ _ _ (ht_policy t Hinv) Hc) as (_ & Hmem & Hlim & _).
    unfold acct in *. simpl. by rewrite Hmem, Hlim.
  - destruct (evict_round t victim p Hinv Hc Hv) as (Hinv' & Hm & _ & _ & v & Hk & Hmem & Hlim).
    destruct (IH _ Hinv') as [? Hlim']; [by apply (acct_delete t _ victim v)|].
    by rewrite Hlim', Hlim.
Qed.

Lemma before_insert_acct k v t :
  ht_inv t → acct t →
  acct (before_insert k v t) ∧ pol_limit (policy_ (before_insert k v t)) = pol_limit (policy_ t).
Proof.
  intros Hinv Ha. unfold before_insert. set (r := mkWALRecord _ _ _ _).
  destruct (log_record_frame r t) as (Hb & _ & Hp & _).
  assert (acct (log_record r t)) as Ha' by (unfold acct, contents in *; by rewrite Hb, Hp).
  destruct (evict_loop_acct (S (length (entries (log_record r t)))) _ (log_record_inv r t Hinv) Ha')
    as [? Hlim].
  unfold evict_if_needed. by rewrite Hlim, Hp.
Qed.

Lemma insert_acct k v t :
  ht_inv t → acct t → total (contents t) + zlen (value v) < 2 ^ 64 →
  acct (insert k v t).2 ∧ pol_limit (policy_ (insert k v t).2) = pol_limit (policy_ t).
Proof.
  intros Hinv Ha Hlt. destruct (before_insert_spec k v t Hinv) as (Hb & _ & Hsub & _).
  destruct (before_insert_acct k v t Hinv Ha) as [[Hmem Hlt1] Hlim].
  pose proof (resize_spec _ Hb) as (Hinv1 & Hc1 & _ & Hp1 & _ ).
  destruct (insert_shape k v t Hinv) as (_ & _ & Hm & _ & Hcase).
  set (t1 := resize_if_needed (before_insert k v t)) in *.
  pose proof (tracked_lookup k t1 Hinv1) as Htr.
  assert (total (delete k (contents t1)) + zlen (value v) < 2 ^ 64) as Hfit.
  { pose proof (total_delete_le (contents t1) k). rewrite Hc1 in *.
    pose proof (total_mono _ _ Hsub). lia. }
  unfold acct. rewrite Hm, total_insert, Z.add_comm.
  pose proof (total_nonneg (delete k (contents t1))). pose proof (zlen_nonneg (value v)).
  assert (pol_memory (policy_ t1) = total (contents t1)) as Hmem1 by by rewrite Hp1, Hc1.
  destruct (contents t1 !! k) as [old|] eqn:Hold; destruct Hcase as (_ & _ & Hp); simpl in Htr.
  - destruct (policy_reinsert (policy_ t1) k _ (zlen (value v)) (zlen (value old))
                (last_access_ns v) (access_count v) (ht_policy _ Hinv1) Htr) as (_ & _ & Hl & Hmem').
    rewrite Hp, Hl, Hmem', Hmem1, (mem_sub_total _ k old Hold), u64_small by lia.
    by rewrite Hp1, Hlim.
  - destruct (policy_reinsert (policy_ t1) k _ (zlen (value v)) 0
                (last_access_ns v) (access_count v) (ht_policy _ Hinv1) Htr) as (_ & _ & Hl & Hmem').
    rewrite delete_id in * by done.
    rewrite Hp, Hl, Hmem', Hmem1, u64_small by lia. by rewrite Hp1, Hlim.
Qed.

Lemma get_acct k now1 now2 t :
  ht_inv t → acct t →
  acct (get k now1 now2 t).2 ∧ pol_limit (policy_ (get k now1 now2 t).2) = pol_limit (policy_ t).
Proof.
  intros Hinv Ha. pose proof (get_shape k now1 now2 t (ht_store t Hinv)) as H.
  destruct (contents t !! k) as [v|] eqn:E; [|by rewrite H].
  destruct (is_expired now1 v); [by rewrite H|].
  destruct H as (t' & -> & _ & Hm & _ & _ & _ & Hp & _). simpl.
  destruct (pol_access_spec k (u64 now2) (access_count v +64 1) _ (ht_policy t Hinv))
    as (_ & _ & Hmem & Hlim).
  unfold acct, total in *. by rewrite Hp, Hm, Hmem, Hlim, sizes_touched.
Qed.

(** With exact accounting the loop stops at or below the limit, unless the
    empty key is stored. *)
Lemma evict_done_limit t :
  acct t → 0 <= pol_limit (policy_ t) → evict_done t →
  total (contents t) <= pol_limit (policy_ t) ∨ is_Some (contents t !! ([] : bytes)).
Proof.
  intros [Hm _] Hl [H|[H|H]]; [left|left|by right].
  - rewrite pol_should_evict_spec in H. apply Z.ltb_ge in H. by rewrite <- Hm.
  - by rewrite H.
Qed.

(** ** What only the log changes

    A predicate on the writer and the disk that logging a record preserves is
    preserved by every operation. *)

Section frame.
Context (Q : HashTable P → Prop).
Hypothesis Q_log : ∀ r t, Q t → Q (log_record r t).
Hypothesis Q_data : ∀ bs n p t, Q t → Q (set_buckets bs n p t).

Lemma remove_frame k t : Q t → Q (remove k t).2.
Proof.
  intros H. apply (Q_log (mkWALRecord DELETE k [] 0)) in H. unfold remove.
  destruct (chain_locate _ _) as [[[? ?] ?]|]; simpl; auto.
Qed.

Lemma evict_loop_frame fuel t : Q t → Q (evict_loop fuel t).
Proof.
  revert t. induction fuel as [|fuel IH]; intros t H; [done|]. simpl.
  destruct (pol_should_evict (policy_ t)); [|done]. destruct (pol_candidate (policy_ t)) as [v p].
  case_decide; auto using remove_frame.
Qed.

Lemma resize_frame t : Q t → Q (resize_if_needed t).
Proof. intros H. unfold resize_if_needed, rehash. case_match; auto. Qed.

Lemma insert_frame k v t : Q t → Q (insert k v t).2.
Proof.
  intros H. unfold insert. set (t1 := resize_if_needed _).
  assert (Q t1) as H1 by (apply resize_frame, evict_loop_frame, Q_log, H).
  destruct (chain_locate _ _) as [[[? ?] ?]|]; simpl; auto.
Qed.

Lemma get_frame k n1 n2 t : Q t → Q (get k n1 n2 t).2.
Proof.
  intros H. unfold get. destruct (chain_locate _ _) as [[[? ?] ?]|]; [|done].
  destruct (is_expired _ _); simpl; auto.
Qed.
End frame.
End facts.
