(* ===== verification/Table.v ===== *)
(** * What the hash table promises

    The table against its specification: a finite map with expiry and bounded
    memory. Construction, refinement of whole request sequences, eviction,
    resizing, sampled expiry and statistics. *)

From S2P Require Import Prelude Files Wal Policy Lru Lfu Dispatch HashTable Store TableFacts.

(** ** The specification *)

Inductive request :=
| Get (k : bytes) (now_check now_access : Z)
| Set_ (k : bytes) (v : ValueEntry)
| Remove (k : bytes).

Inductive response :=
| RValue (v : option ValueEntry)
| RBool (b : bool).

(** What eviction may keep of [m] under a limit: everything when the values
    fit; otherwise a part of it that fits, unless the empty key stops it. *)
Definition kept (limit : Z) (m m' : gmap bytes ValueEntry) : Prop :=
  m' ⊆ m ∧ (total m <= limit → m' = m)
  ∧ (total m' <= limit ∨ is_Some (m' !! ([] : bytes))).

Inductive spec_step (limit : Z) (m : gmap bytes ValueEntry)
  : request → response → gmap bytes ValueEntry → Prop :=
| spec_get_hit k n1 n2 v :
    m !! k = Some v → is_expired n1 v = false →
    spec_step limit m (Get k n1 n2) (RValue (Some (touched n2 v))) (<[k := touched n2 v]> m)
| spec_get_expired k n1 n2 v :
    m !! k = Some v → is_expired n1 v = true →
    spec_step limit m (Get k n1 n2) (RValue None) m
| spec_get_absent k n1 n2 :
    m !! k = None → spec_step limit m (Get k n1 n2) (RValue None) m
| spec_set k v m' :
    kept limit m m' → spec_step limit m (Set_ k v) (RBool true) (<[k := v]> m')
| spec_remove k :
    spec_step limit m (Remove k) (RBool (bool_decide (is_Some (m !! k)))) (delete k m).

Inductive spec_run (limit : Z)
  : gmap bytes ValueEntry → list (request * response) → gmap bytes ValueEntry → Prop :=
| spec_run_nil m : spec_run limit m [] m
| spec_run_cons m q a m1 tr m' :
    spec_step limit m q a m1 → spec_run limit m1 tr m' →
    spec_run limit m ((q, a) :: tr) m'.

(** ** Construction *)

Lemma capacity_loop_spec fuel j init :
  (fuel + j = 64)%nat → (j ≤ 63)%nat → init <= 2 ^ 63 →
  (j = 0%nat ∨ 2 ^ (Z.of_nat j - 1) < init) →
  ∃ n, (n ≤ 63)%nat ∧ capacity_loop fuel (2 ^ Z.of_nat j) init = 2 ^ Z.of_nat n
       ∧ init <= 2 ^ Z.of_nat n ∧ (n = 0%nat ∨ 2 ^ (Z.of_nat n - 1) < init).
Proof.
  revert j. induction fuel as [|fuel IH]; intros j Hf Hj Hi Hlow; [lia|]. simpl.
  destruct (Z.ltb_spec (2 ^ Z.of_nat j) init) as [Hlt|Hge]; [|by exists j].
  assert (j < 63)%nat as Hj'.
  { apply Nat.nle_gt. intros ?. assert (j = 63%nat) as -> by lia. simpl in *. lia. }
  assert (u64 (2 ^ Z.of_nat j ≪ 1) = 2 ^ Z.of_nat (S j)) as ->.
  { rewrite Z.shiftl_mul_pow2, Nat2Z.inj_succ, Z.pow_succ_r by lia.
    rewrite u64_small; [lia|]. split; [lia|].
    apply (Z.le_lt_trans _ (2 ^ 63)); [|lia].
    rewrite Z.mul_comm, <- Z.pow_add_r by lia. apply Z.pow_le_mono_r; lia. }
  apply IH; [lia..|]. right. by replace (Z.of_nat (S j) - 1) with (Z.of_nat j) by lia.
Qed.

Section table.
Context {P : Type} `{!EvictionPolicy P}.
Implicit Types t : HashTable P.

Lemma enable_wal_frame path b t t' :
  enable_wal path b t = Some t' →
  buckets_ t' = buckets_ t ∧ num_entries_ t' = num_entries_ t ∧ policy_ t' = policy_ t.
Proof. unfold enable_wal. destruct (open_writer _ _ _) as [[? ?]|]; [|done]. by intros [= <-]. Qed.

(** A new table is empty, well-formed, and has the least power of two of
    buckets that is not below the requested capacity. *)
Lemma make_table_spec cap p path d t :
  0 <= cap <= 2 ^ 63 → pol_inv p → pol_tracked p = ∅ →
  make_table cap p path d = Some t →
  ht_inv t ∧ contents t = ∅ ∧ policy_ t = p
  ∧ ∃ n, zlen (buckets_ t) = 2 ^ Z.of_nat n ∧ cap <= 2 ^ Z.of_nat n
         ∧ (n = 0%nat ∨ 2 ^ (Z.of_nat n - 1) < cap).
Proof.
  intros Hcap Hi Htr Hmk. unfold make_table in Hmk.
  destruct (capacity_loop_spec 64 0 cap) as (n & Hn & Hloop & Hge & Hlow); [lia..|by left|].
  change (2 ^ Z.of_nat 0) with 1 in Hloop. rewrite Hloop in Hmk.
  set (t0 := mkTable _ _ _ _ _ _) in Hmk.
  assert (Z.to_nat (2 ^ Z.of_nat n) = (2 ^ n)%nat) as Hpow.
  { rewrite <- (Nat2Z.id (2 ^ n)), Nat2Z.inj_pow. done. }
  assert (0 < 2 ^ n)%nat as Hpos by (pose proof (Nat.pow_nonzero 2 n); lia).
  destruct (store_empty (2 ^ n) Hpos) as [Hs Hm].
  assert (buckets_ t = buckets_ t0 ∧ num_entries_ t = 0 ∧ policy_ t = p) as (Hb & Hnum & Hp).
  { case_decide; [by injection Hmk as <-|]. by apply enable_wal_frame in Hmk as (-> & -> & ->). }
  simpl in Hb. rewrite Hpow in Hb. unfold contents. rewrite Hb.
  split_and!; [|done..|].
  - split; unfold contents, entries; rewrite ?Hb, ?Hp, ?Hm; try done.
    + exists n. by rewrite length_replicate.
    + by rewrite Hnum, concat_replicate_nil.
  - exists n. unfold zlen. rewrite length_replicate, Nat2Z.inj_pow. done.
Qed.

(** ** Refinement *)

Definition serve (q : request) (t : HashTable P) : response * HashTable P :=
  match q with
  | Get k n1 n2 => let '(v, t') := get k n1 n2 t in (RValue v, t')
  | Set_ k v => let '(b, t') := insert k v t in (RBool b, t')
  | Remove k => let '(b, t') := remove k t in (RBool b, t')
  end.

(** The value bytes of the table and of the request fit [size_t]. *)
Definition admissible (q : request) (t : HashTable P) : Prop :=
  match q with
  | Set_ k v => total (contents t) + zlen (value v) < 2 ^ 64
  | _ => True
  end.

Inductive table_run : HashTable P → list (request * response) → HashTable P → Prop :=
| table_run_nil t : table_run t [] t
| table_run_cons t q a t1 tr t' :
    admissible q t → serve q t = (a, t1) → table_run t1 tr t' →
    table_run t ((q, a) :: tr) t'.

Definition good (limit : Z) (t : HashTable P) : Prop :=
  ht_inv t ∧ acct t ∧ pol_limit (policy_ t) = limit.

Lemma before_insert_kept limit k v t :
  0 <= limit → good limit t → kept limit (contents t) (contents (before_insert k v t)).
Proof.
  intros Hl (Hinv & Ha & Hlim). destruct (before_insert_spec k v t Hinv) as (_ & Hdone & Hsub & _).
  destruct (before_insert_acct k v t Hinv Ha) as [Ha' Hlim']. split_and!; [done| |].
  - intros Hle. apply before_insert_id. rewrite pol_should_evict_spec. apply Z.ltb_ge.
    destruct Ha as [-> _]. lia.
  - rewrite <- Hlim, <- Hlim'. apply evict_done_limit; [done|lia|done].
Qed.

Lemma serve_refines limit q a t t' :
  0 <= limit → good limit t → admissible q t → serve q t = (a, t') →
  good limit t' ∧ spec_step limit (contents t) q a (contents t').
Proof.
  intros Hl Hgood Hadm. pose proof Hgood as (Hinv & Ha & Hlim). destruct q as [k n1 n2|k v|k]; simpl.
  - pose proof (get_shape k n1 n2 t (ht_store t Hinv)) as H.
    pose proof (get_inv k n1 n2 t Hinv) as Hinv'. pose proof (get_acct k n1 n2 t Hinv Ha) as [Ha' Hlim'].
    destruct (get k n1 n2 t) as [r t1] eqn:E. intros [= <- <-]. simpl in *.
    split; [split_and!; congruence|].
    destruct (contents t !! k) as [v|] eqn:Hk.
    + destruct (is_expired n1 v) eqn:Hexp.
      * injection H as -> ->. by eapply spec_get_expired.
      * destruct H as (t2 & [= -> ->] & _ & -> & _). by eapply spec_get_hit.
    + injection H as -> ->. by apply spec_get_absent.
  - pose proof (insert_inv k v t Hinv) as Hinv'. pose proof (insert_acct k v t Hinv Ha Hadm) as [Ha' Hlim'].
    pose proof (insert_contents k v t Hinv) as Hc. pose proof (insert_shape k v t Hinv) as (Hr & _).
    destruct (insert k v t) as [b t1]. simpl in *. intros [= <- <-]. subst b. rewrite Hc.
    split; [split_and!; congruence|]. by apply spec_set, before_insert_kept.
  - pose proof (remove_inv k t Hinv) as Hinv'. pose proof (remove_acct k t Hinv Ha) as [Ha' Hlim'].
    pose proof (remove_contents k t Hinv) as Hc. pose proof (remove_result k t Hinv) as Hr.
    destruct (remove k t) as [b t1]. simpl in *. intros [= <- <-]. subst b. rewrite Hc.
    split; [split_and!; congruence|]. apply spec_remove.
Qed.

Lemma run_refines limit t tr t' :
  0 <= limit → good limit t → table_run t tr t' →
  good limit t' ∧ spec_run limit (contents t) tr (contents t').
Proof.
  intros Hl Hgood Hrun. induction Hrun as [t|t q a t1 tr t' Hadm Hs Hrun IH]; [split; [done|constructor]|].
  destruct (serve_refines limit q a t t1 Hl Hgood Hadm Hs) as [Hg Hstep].
  destruct (IH Hg) as [? ?]. split; [done|]. by econstructor.
Qed.


(** ** Eviction terminates *)

Lemma evict_loop_stable t f1 f2 :
  ht_inv t → (length (entries t) < f1)%nat → (length (entries t) < f2)%nat →
  evict_loop f1 t = evict_loop f2 t.
Proof.
  revert t f2. induction f1 as [|f1 IH]; intros t f2 Hinv H1 H2; [lia|].
  destruct f2 as [|f2]; [lia|]. simpl.
  destruct (pol_should_evict (policy_ t)); [|done].
  destruct (pol_candidate (policy_ t)) as [victim p] eqn:Hc. case_decide as Hv; [done|].
  destruct (evict_round t victim p Hinv Hc Hv) as (? & _ & Hlen & _). apply IH; [done|lia..].
Qed.

(** C26: the eviction loop terminates. In every well-formed state the loop
    leaves through its own exits within as many rounds as there are stored
    pairs: further iterations would change nothing, and then either the policy
    asks for no eviction, or the table is empty, or the empty key is stored. *)
Theorem evict_loop_terminates t fuel :
  ht_inv t → (length (entries t) < fuel)%nat →
  evict_loop fuel t = evict_if_needed t ∧ evict_done (evict_if_needed t)
  ∧ ht_inv (evict_if_needed t) ∧ contents (evict_if_needed t) ⊆ contents t.
Proof.
  intros Hinv Hf. destruct (evict_spec t Hinv) as (? & ? & ? & _).
  split_and!; [|done..]. apply evict_loop_stable; [done|done|lia].
Qed.

(** C27: memory is bounded. After an insert the values stored exceed the memory
    limit by at most the inserted value, as long as the empty key is not in the
    table. *)
Theorem insert_memory_bound limit k v t :
  0 <= limit → good limit t → total (contents t) + zlen (value v) < 2 ^ 64 →
  contents t !! ([] : bytes) = None →
  total (contents (insert k v t).2) <= limit + zlen (value v).
Proof.
  intros Hl Hgood Hadm Hempty. pose proof Hgood as (Hinv & _).
  destruct (before_insert_kept limit k v t Hl Hgood) as (Hsub & _ & Hlim).
  rewrite insert_contents, total_insert by done.
  destruct Hlim as [Hlim|[e He]].
  - pose proof (total_delete_le (contents (before_insert k v t)) k). lia.
  - eapply lookup_weaken in He; [|exact Hsub]. congruence.
Qed.

(** ** Load factor *)

Lemma entries_size t : ht_inv t → length (entries t) = base.size (contents t).
Proof.
  intros Hinv. unfold contents, store_map, pmap, entries.
  rewrite map_size_list_to_map; [by rewrite length_fmap|].
  rewrite pmap_fst. apply Hinv.
Qed.

(** Every insertion found at most 3/4 of a pair per bucket. *)
Definition load_ok (t : HashTable P) : Prop :=
  4 * (zlen (entries t) - 1) <= 3 * zlen (buckets_ t).

Lemma map_subseteq_size (m1 m2 : gmap bytes ValueEntry) : m1 ⊆ m2 → (base.size m1 ≤ base.size m2)%nat.
Proof. intros H. rewrite <- !size_dom. by apply subseteq_size, subseteq_dom. Qed.

(** Chains stay short on average. An insert never leaves the table with
    more than 3/4 of a pair per bucket, the pair just added apart: it doubles
    the buckets as soon as the threshold is passed. *)
Theorem insert_load_factor k v t :
  ht_inv t → zlen (entries t) < 2 ^ 64 → load_ok t → load_ok (insert k v t).2.
Proof.
  intros Hinv Hlt Hload. destruct (before_insert_spec k v t Hinv) as (Hb & _ & Hsub & Hlb).
  pose proof (resize_spec _ Hb) as (Hinv1 & Hc1 & Hlen1 & _ & Hn1 & Hbk1).
  destruct (insert_shape k v t Hinv) as (_ & _ & _ & Hlb' & Hcase).
  set (t0 := before_insert k v t) in *. set (t1 := resize_if_needed t0) in *.
  assert (length (entries t0) ≤ length (entries t))%nat as Hle.
  { rewrite !entries_size by done. by apply map_subseteq_size. }
  assert (num_entries_ t0 = zlen (entries t0)) as Hn.
  { rewrite (ht_count t0 Hb). apply u64_small. unfold zlen in *. lia. }
  assert (length (entries (insert k v t).2) ≤ S (length (entries t0)))%nat as Hgrow.
  { destruct (contents t1 !! k); destruct Hcase as (_ & -> & _); lia. }
  pose proof (store_nonempty _ (ht_store t Hinv)).
  unfold load_ok, zlen in *. rewrite Hlb', Hbk1, Hlb, Hn.
  destruct (Z.ltb_spec (3 * Z.of_nat (length (buckets_ t))) (4 * Z.of_nat (length (entries t0)))); lia.
Qed.

(** ** Statistics *)

Lemma stats_fold (bs : list Chain) c m :
  c + zlen (concat bs) < 2 ^ 64 → 0 <= c →
  let r := fold_left (λ '(collisions, longest) (chain : Chain),
             (if 1 <? zlen chain then collisions +64 (zlen chain - 1) else collisions,
              Z.max longest (zlen chain))) bs (c, m) in
  r.1 + zlen (filter (λ ch : Chain, ch ≠ []) bs) = c + zlen (concat bs)
  ∧ (m <= r.2) ∧ Forall (λ ch : Chain, zlen ch <= r.2) bs
  ∧ (r.2 = m ∨ Exists (λ ch : Chain, zlen ch = r.2) bs).
Proof.
  revert c m. induction bs as [|ch bs IH]; intros c m Hlt Hc; simpl.
  - split_and!; [by unfold zlen|lia|constructor|by left].
  - rewrite concat_cons, zlen_app in *. pose proof (zlen_nonneg (concat bs)).
    pose proof (zlen_nonneg ch).
    assert ((if 1 <? zlen ch then c +64 (zlen ch - 1) else c) + zlen (filter (λ ch : Chain, ch ≠ []) [ch])
            = c + zlen ch) as Hone.
    { rewrite filter_cons, filter_nil. destruct ch as [|x ch].
      { rewrite decide_False by (intros Hx; by apply Hx). unfold zlen. simpl. lia. }
      rewrite decide_True by done.
      rewrite zlen_cons in *. destruct (Z.ltb_spec 1 (zlen ch + 1)).
      - rewrite u64_small by lia. rewrite zlen_cons, zlen_nil. lia.
      - rewrite zlen_cons, zlen_nil. pose proof (zlen_nonneg ch). lia. }
    pose proof (zlen_nonneg (filter (λ ch : Chain, ch ≠ []) [ch])).
    set (c1 := if 1 <? zlen ch then _ else _) in *.
    assert (0 <= c1) by (unfold c1; case_match; [apply u64_bound|done]).
    destruct (IH c1 (Z.max m (zlen ch))) as (Hsum & Hm & Hall & Hex); [lia|done|].
    set (r := fold_left _ bs _) in *. rewrite (filter_app _ [ch] bs : filter _ (ch :: bs) = _), zlen_app.
    split_and!; [lia|lia|constructor; [lia|done]|].
    destruct Hex as [Hex|Hex]; [|by right; apply Exists_cons_tl].
    destruct (Z.max_spec m (zlen ch)) as [[? He]|[? He]]; rewrite He in Hex; [right|by left].
    by apply Exists_cons_hd.
Qed.

(** [get_stats] reports the table. The collisions are the pairs beyond the
    first of each non-empty bucket, and the longest chain is an upper bound of
    all chains that some chain attains (0 for a table without buckets). *)
Theorem get_stats_correct t :
  ht_inv t → zlen (entries t) < 2 ^ 64 →
  num_entries (get_stats t) = zlen (entries t)
  ∧ num_buckets (get_stats t) = zlen (buckets_ t)
  ∧ num_collisions (get_stats t) + zlen (filter (λ ch : Chain, ch ≠ []) (buckets_ t))
    = zlen (entries t)
  ∧ Forall (λ ch : Chain, zlen ch <= max_chain_length (get_stats t)) (buckets_ t)
  ∧ Exists (λ ch : Chain, zlen ch = max_chain_length (get_stats t)) (buckets_ t).
Proof.
  intros Hinv Hlt. unfold get_stats.
  destruct (stats_fold (buckets_ t) 0 0) as (Hsum & Hm & Hall & Hex); [done|done|].
  destruct (fold_left _ _ _) as [c m] eqn:E. simpl in *. split_and!; try done.
  - rewrite (ht_count t Hinv). apply u64_small. split; [apply zlen_nonneg|done].
  - destruct Hex as [->|Hex]; [|done].
    pose proof (store_nonempty _ (ht_store t Hinv)). destruct (buckets_ t) as [|ch bs]; simpl in *; [lia|].
    apply Exists_cons_hd. apply Forall_cons in Hall as [Hch _]. pose proof (zlen_nonneg ch). lia.
Qed.

(** ** Sampled expiry *)

Lemma remove_all_spec ks t :
  ht_inv t →
  ht_inv (fold_left (λ t k, (remove k t).2) ks t)
  ∧ ∀ k, contents (fold_left (λ t k, (remove k t).2) ks t) !! k
         = if decide (k ∈ ks) then None else contents t !! k.
Proof.
  revert t. induction ks as [|k0 ks IH]; intros t Hinv; simpl.
  - done.
  - destruct (IH _ (remove_inv k0 t Hinv)) as [? Hk]. split; [done|]. intros k.
    rewrite Hk, remove_contents, lookup_delete by done.
    destruct (decide (k ∈ ks)); destruct (decide (k ∈ k0 :: ks)); destruct (decide (k0 = k));
      set_solver.
Qed.

Lemma elem_of_expired_in clock (chain : Chain) k :
  k ∈ expired_in clock chain ↔
  ∃ j kv, chain !! j = Some kv ∧ is_expired (clock j) (kv_value kv) = true ∧ kv_key kv = k.
Proof.
  unfold expired_in. rewrite list_elem_of_fmap. setoid_rewrite list_elem_of_fmap.
  setoid_rewrite list_elem_of_filter. setoid_rewrite elem_of_lookup_imap. split.
  - intros (kv & -> & [j kv'] & -> & Hexp & j' & y & [= <- <-] & Hy). eauto.
  - intros (j & kv & Hj & Hexp & <-). exists kv. split; [done|]. exists (j, kv). eauto 6.
Qed.

Lemma elem_of_expired_keys samples clock t k :
  k ∈ expired_keys samples clock t ↔
  ∃ i b, samples !! i = Some b ∧ k ∈ expired_in (clock i) (bucket (buckets_ t) b).
Proof.
  unfold expired_keys. rewrite list_elem_of_In, in_concat. setoid_rewrite <- list_elem_of_In.
  setoid_rewrite elem_of_lookup_imap. naive_solver.
Qed.

Lemma stored_in_bucket t b kv :
  ht_inv t → kv ∈ bucket (buckets_ t) b →
  contents t !! kv_key kv = Some (kv_value kv)
  ∧ bucket_index (hash (kv_key kv)) (buckets_ t) = b.
Proof.
  intros Hinv Hkv. pose proof (ht_store t Hinv) as [_ Hp Hnd]. unfold bucket in Hkv.
  destruct (buckets_ t !! b) as [c|] eqn:Hb; simpl in Hkv; [|by apply not_elem_of_nil in Hkv].
  destruct (Hp b c kv Hb Hkv) as [<- ?]. split; [|done].
  apply pmap_lookup; [done|]. exists kv. split; [|done].
  apply list_elem_of_In, in_concat. exists c. rewrite <- !list_elem_of_In. split; [|done].
  by eapply list_elem_of_lookup_2.
Qed.

Lemma stored_found t k v :
  ht_inv t → contents t !! k = Some v →
  ∃ kv, kv ∈ bucket (buckets_ t) (bucket_index (hash k) (buckets_ t))
        ∧ kv_key kv = k ∧ kv_value kv = v.
Proof.
  intros Hinv. unfold contents. rewrite locate_lookup by apply Hinv.
  destruct (chain_locate k _) as [[[b kv] a]|] eqn:E; [|done]. intros [= <-].
  apply chain_locate_Some in E as [E ?]. exists kv. split; [|done].
  fold (bucket_of k (buckets_ t)). rewrite E. set_solver.
Qed.

(** The active expiry scan is exact. A scan at time [now] over the sampled
    buckets removes a key if and only if its entry has expired by [now] and its
    bucket was sampled; every other entry is untouched. *)
Theorem scan_removes_sampled_expired samples now t k :
  ht_inv t →
  contents (scan_expired_keys samples (λ _ _, now) t) !! k
  = match contents t !! k with
    | Some v => if is_expired now v && bool_decide (bucket_index (hash k) (buckets_ t) ∈ samples)
                then None else Some v
    | None => None
    end.
Proof.
  intros Hinv. unfold scan_expired_keys.
  destruct (remove_all_spec (expired_keys samples (λ _ _, now) t) t Hinv) as [_ ->].
  case_decide as Hk.
  - apply elem_of_expired_keys in Hk as (i & b & Hi & Hk).
    apply elem_of_expired_in in Hk as (j & kv & Hj & Hexp & <-).
    destruct (stored_in_bucket t b kv Hinv ltac:(by eapply list_elem_of_lookup_2)) as [-> ->].
    rewrite Hexp, bool_decide_true by by eapply list_elem_of_lookup_2. done.
  - destruct (contents t !! k) as [v|] eqn:E; [|done].
    destruct (is_expired now v) eqn:Hexp; [|done].
    destruct (bool_decide_reflect (bucket_index (hash k) (buckets_ t) ∈ samples)) as [Hs|]; [|done].
    destruct Hk. destruct (stored_found t k v Hinv E) as (kv & Hkv & <- & <-).
    apply list_elem_of_lookup in Hs as [i Hi]. apply list_elem_of_lookup in Hkv as [j Hj].
    apply elem_of_expired_keys. exists i, (bucket_index (hash (kv_key kv)) (buckets_ t)).
    split; [done|]. apply elem_of_expired_in. eauto.
Qed.
End table.

(** ** The empty key *)

(** The empty key blocks LRU eviction. When the least recently used key is
    the empty string, [evict_if_needed] takes it for "no candidate" and stops:
    the table grows past its memory limit by every further insert. *)
Theorem lru_empty_key_blocks_eviction k v (t : HashTable LRU.LRUPolicy) :
  ht_inv t → LRU.get_eviction_candidate (policy_ t) = [] →
  contents (insert k v t).2 = <[k := v]> (contents t).
Proof.
  intros Hinv Hc. rewrite insert_contents by done. f_equal. unfold before_insert.
  set (r := mkWALRecord _ _ _ _). rewrite <- (log_record_contents r t).
  destruct (log_record_frame r t) as (_ & _ & Hp & _).
  unfold evict_if_needed. simpl. rewrite Hp, Hc. by destruct (LRU.should_evict _).
Qed.

(** ** Witnesses

    A table of two buckets with a limit of four value bytes. *)

Definition demo (kind : EvictionPolicyKind) : HashTable (TablePolicy LFU.SortedQueue) :=
  mkTable [[]; []] 0 (make_policy kind 4) None [] empty_disk.

Definition demo_value (s : string) : ValueEntry := new_entry (str s) 0.

Fixpoint answers {P} `{!EvictionPolicy P} (qs : list request) (t : HashTable P)
  : list (request * response) * HashTable P :=
  match qs with
  | [] => ([], t)
  | q :: qs =>
      let '(a, t1) := serve q t in
      let '(tr, t') := answers qs t1 in
      ((q, a) :: tr, t')
  end.

Fixpoint all_admissible {P} `{!EvictionPolicy P} (qs : list request) (t : HashTable P) : bool :=
  match qs with
  | [] => true
  | q :: qs =>
      match q with
      | Set_ _ v => total (contents t) + zlen (value v) <? 2 ^ 64
      | _ => true
      end && all_admissible qs (serve q t).2
  end.

Lemma answers_run {P} `{!EvictionPolicy P} qs (t : HashTable P) :
  all_admissible qs t = true → table_run t (answers qs t).1 (answers qs t).2.
Proof.
  revert t. induction qs as [|q qs IH]; intros t; simpl; [constructor|].
  intros [Ha Hrest]%andb_prop. destruct (serve q t) as [a t1] eqn:Hs.
  specialize (IH t1 Hrest). destruct (answers qs t1) as [tr t']. simpl in *.
  apply (table_run_cons t q a t1); [|done..].
  destruct q; simpl; [done| |done]. by apply Z.ltb_lt.
Qed.



Definition demo_full (kind : EvictionPolicyKind) : HashTable (TablePolicy LFU.SortedQueue) :=
  (answers [Set_ (str "a") (demo_value "xx"); Set_ (str "b") (demo_value "yyy");
            Get (str "a") 10 20] (demo kind)).2.

Lemma demo_fresh kind : good 4 (demo kind).
Proof.
  destruct (make_policy_spec (H := LFU.SortedQueue) kind 4) as (Hi & Htr & Hm & Hl).
  destruct (make_table_spec 2 (make_policy (H := LFU.SortedQueue) kind 4) [] empty_disk (demo kind))
    as (Hinv & Hc & Hp & _); [lia|done..|].
  unfold good, acct. by rewrite Hp, Hc, Hm, Hl.
Qed.

Lemma answers_good {P} `{!EvictionPolicy P} limit qs (t : HashTable P) :
  0 <= limit → good limit t → all_admissible qs t = true → good limit (answers qs t).2.
Proof. intros Hl Hg Ha. by apply (run_refines limit t (answers qs t).1), answers_run. Qed.

Lemma demo_good kind : good 4 (demo_full kind).
Proof. apply answers_good; [lia|apply demo_fresh|by destruct kind; vm_compute]. Qed.

Lemma evict_loop_terminates_witness :
  evict_loop 7 (demo_full KindLFU) = evict_if_needed (demo_full KindLFU)
  ∧ contents (evict_if_needed (demo_full KindLFU)) !! str "b" = None.
Proof.
  split; [|vm_compute; done].
  refine (proj1 (evict_loop_terminates (demo_full KindLFU) 7 _ _)).
  - apply demo_good.
  - vm_compute. lia.
Defined.

Lemma insert_memory_bound_witness :
  total (contents (insert (str "c") (demo_value "zzzz") (demo_full KindLRU)).2) <= 4 + 4.
Proof.
  refine (insert_memory_bound 4 (str "c") (demo_value "zzzz") (demo_full KindLRU) _ _ _ _).
  - lia.
  - apply demo_good.
  - vm_compute. done.
  - vm_compute. done.
Defined.

Lemma insert_load_factor_witness :
  load_ok (insert (str "c") (demo_value "z") (demo_full KindLRU)).2.
Proof.
  refine (insert_load_factor (str "c") (demo_value "z") (demo_full KindLRU) _ _ _).
  - apply demo_good.
  - vm_compute. done.
  - vm_compute. done.
Defined.

Lemma get_stats_correct_witness :
  num_entries (get_stats (demo_full KindLFU)) = 2
  ∧ num_collisions (get_stats (demo_full KindLFU))
    + zlen (filter (λ ch : Chain, ch ≠ []) (buckets_ (demo_full KindLFU))) = 2.
Proof.
  pose proof (get_stats_correct (demo_full KindLFU) (proj1 (demo_good KindLFU)) eq_refl)
    as (H1 & _ & H3 & _).
  split; [exact H1|exact H3].
Defined.

Definition demo_expiring : HashTable (TablePolicy LFU.SortedQueue) :=
  (answers [Set_ (str "a") (mkValueEntry (str "x") 0 0 50); Set_ (str "b") (demo_value "y")]
     (demo KindLRU)).2.

Lemma scan_removes_sampled_expired_witness :
  contents (scan_expired_keys [0; 1; 1]%nat (λ _ _, 60) demo_expiring) !! str "a" = None.
Proof.
  refine (scan_removes_sampled_expired [0; 1; 1]%nat 60 demo_expiring (str "a") _).
  apply (answers_good 4); [lia|apply demo_fresh|vm_compute; done].
Defined.

(** A table whose only key is the empty one, over its limit. *)
Definition demo_empty_key : HashTable LRU.LRUPolicy :=
  (insert [] (demo_value "12345") (mkTable [[]; []] 0 (LRU.make 4) None [] empty_disk)).2.

Lemma lru_empty_key_blocks_eviction_witness :
  pol_should_evict (policy_ demo_empty_key) = true
  ∧ contents (insert (str "k") (demo_value "67890") demo_empty_key).2
    = <[str "k" := demo_value "67890"]> (contents demo_empty_key).
Proof.
  split; [vm_compute; done|].
  refine (lru_empty_key_blocks_eviction (str "k") (demo_value "67890") demo_empty_key _ _).
  - apply insert_inv.
    destruct (make_table_spec 2 (LRU.make 4) [] empty_disk
      (mkTable [[]; []] 0 (LRU.make 4) None [] empty_disk)) as (? & _);
      [lia|apply LRU.make_inv|done|done|done].
  - vm_compute. done.
Defined.
