(* ===== verification/Recovery.v ===== *)
(** * Crash recovery

    [HashTable::replay_wal] of src/engine/src/hash_table.cpp, and what the
    write-ahead log guarantees: the log mirrors the table, replaying it into a
    fresh table restores the contents, and the one situation in which it does
    not. *)

From S2P Require Import Prelude Files Wal Policy Lru Lfu Dispatch HashTable Store TableFacts Table.

(** ** replay_wal *)

Section replay.
Context {P : Type} `{!EvictionPolicy P}.
Implicit Types t : HashTable P.

(** One iteration of the loop; [now] are the two clock readings of the [get]
    in the [EXPIRE] case. An operation without a name falls through the
    [switch]. *)
Definition replay_record (now : Z * Z) (r : WALRecord) (t : HashTable P) : HashTable P :=
  match op_type r with
  | SET => (insert (wkey r) (new_entry (wvalue r) (u64 (ttl_ns r))) t).2
  | DELETE => (remove (wkey r) t).2
  | EXPIRE =>
      match get (wkey r) now.1 now.2 t with
      | (Some existing, t1) =>
          let updated := mkValueEntry (value existing) (access_count existing)
                           (last_access_ns existing) (u64 (ttl_ns r)) in
          (insert (wkey r) updated t1).2
      | (None, t1) => t1
      end
  | UnnamedOp _ => t
  end.

Inductive replay_result :=
| ReplayThrows
| ReplayDone (replayed : Z) (t : HashTable P)
| ReplayRunning (t : HashTable P).

(** The loop of [replay_wal]; the reader looks at the disk of the table, which
    the replayed operations may themselves write to. [ReplayRunning]: the loop
    has not ended after [fuel] iterations. *)
Fixpoint replay_loop (fuel : nat) (clock : nat → Z * Z) (i : nat) (rd : WALReader)
    (replayed : Z) (t : HashTable P) : replay_result :=
  match fuel with
  | O => ReplayRunning t
  | S fuel =>
      match read_next (disk t) rd with
      | (None, _) => ReplayDone replayed t
      | (Some r, rd') =>
          replay_loop fuel clock (S i) rd' (replayed +64 1) (replay_record (clock i) r t)
      end
  end.

Definition replay_wal (fuel : nat) (clock : nat → Z * Z) (path : bytes) (t : HashTable P)
  : replay_result :=
  match open_reader path (disk t) with
  | None => ReplayThrows
  | Some rd => replay_loop fuel clock 0 rd 0 t
  end.

(** ** Replaying into a table without a log *)

(** A table that does not log leaves the disk alone. *)
Definition no_log (d : Disk) (t : HashTable P) : Prop := wal_writer_ t = None ∧ disk t = d.

Lemma log_record_no_log d r t : no_log d t → no_log d (log_record r t).
Proof. intros [H ?]. unfold log_record. by rewrite H. Qed.

Lemma remove_no_log d k t : no_log d t → no_log d (remove k t).2.
Proof. apply (remove_frame (no_log d)); auto using log_record_no_log. Qed.

Lemma insert_no_log d k v t : no_log d t → no_log d (insert k v t).2.
Proof. apply (insert_frame (no_log d)); auto using log_record_no_log. Qed.

Lemma get_no_log d k n1 n2 t : no_log d t → no_log d (get k n1 n2 t).2.
Proof. apply (get_frame (no_log d)); auto using log_record_no_log. Qed.

Lemma replay_record_no_log d now r t : no_log d t → no_log d (replay_record now r t).
Proof.
  intros H. unfold replay_record. destruct (op_type r); auto using insert_no_log, remove_no_log.
  pose proof (get_no_log d (wkey r) now.1 now.2 t H) as Hg.
  destruct (get (wkey r) now.1 now.2 t) as [[v|] t1]; simpl in *; auto using insert_no_log.
Qed.

(** The records in order, without the reader. *)
Fixpoint replay_list (clock : nat → Z * Z) (i : nat) (rs : list WALRecord) (t : HashTable P)
  : HashTable P :=
  match rs with
  | [] => t
  | r :: rs => replay_list clock (S i) rs (replay_record (clock i) r t)
  end.

(** The loop of [replay_wal] over a log that the table does not write to: it
    ends, and applies what [read_loop] delivers. *)
Lemma replay_loop_reads fuel clock i rd n d t :
  no_log d t → is_good (file_ rd) = true → (length (unread d (file_ rd)) < fuel)%nat →
  replay_loop fuel clock i rd n t
  = ReplayDone (fold_left (λ n _, n +64 1) (read_loop fuel d rd) n)
      (replay_list clock i (read_loop fuel d rd) t).
Proof.
  revert i rd n t. induction fuel as [|fuel IH]; intros i rd n t Hnl Hg Hf; [lia|]. simpl.
  pose proof Hnl as [_ ->]. pose proof (read_next_decode d rd Hg) as Ha. unfold agrees in Ha.
  destruct (decode_record (unread d (file_ rd))) as [[r rest]|] eqn:E.
  - destruct Ha as (m & -> & Hrest). simpl. apply IH; [by apply replay_record_no_log|done|].
    simpl. rewrite Hrest. apply decode_shorter in E. lia.
  - by destruct (read_next d rd) as [[?|] ?].
Qed.

Lemma count_records {A} (l : list A) n : fold_left (λ n _, n +64 1) l (u64 n) = u64 (n + zlen l).
Proof.
  revert n. induction l as [|x l IH]; intros n; simpl.
  - by rewrite zlen_nil, Z.add_0_r.
  - rewrite u64_succ, IH, zlen_cons. f_equal. lia.
Qed.

Lemma replay_wal_torn fuel clock path rs n d t :
  Forall fits rs → path ∉ denied d → files d !! path = Some (take n (encode_all rs)) →
  no_log d t → (length (take n (encode_all rs)) < fuel)%nat →
  replay_wal fuel clock path t
  = ReplayDone (u64 (zlen (whole rs n))) (replay_list clock 0 (whole rs n) t).
Proof.
  intros Hfits Hden Hf Hnl Hfuel. unfold replay_wal. pose proof Hnl as [_ ->].
  unfold open_reader, open_in. rewrite decide_False, Hf by done.
  set (rd := mkWALReader _ 0).
  assert (unread d (file_ rd) = take n (encode_all rs)) as Hu.
  { unfold unread, contents_of. simpl. by rewrite Hf, drop_0. }
  rewrite (replay_loop_reads fuel clock 0 rd 0 d t Hnl eq_refl) by by rewrite Hu.
  rewrite (read_loop_torn rs fuel d rd n) by (done || by rewrite Hu).
  f_equal. apply (count_records (whole rs n) 0).
Qed.
End replay.

(** ** The log mirrors the table *)

(** What the log keeps of an entry: value and expiry, not the access
    metadata. *)
Definition persisted (v : ValueEntry) : bytes * Z := (value v, expiry_ns v).

Definition apply_log (m : gmap bytes (bytes * Z)) (r : WALRecord) : gmap bytes (bytes * Z) :=
  match op_type r with
  | SET => <[wkey r := (wvalue r, u64 (ttl_ns r))]> m
  | DELETE => delete (wkey r) m
  | _ => m
  end.

(** What a log of sets and deletes makes of a map. *)
Definition log_from (m : gmap bytes (bytes * Z)) (rs : list WALRecord) : gmap bytes (bytes * Z) :=
  fold_left apply_log rs m.

(** The map the log denotes by itself. *)
Definition log_state (rs : list WALRecord) : gmap bytes (bytes * Z) := log_from ∅ rs.

Definition set_record (k : bytes) (v : ValueEntry) : WALRecord :=
  mkWALRecord SET k (value v) (s64 (expiry_ns v)).

Definition del_record (k : bytes) : WALRecord := mkWALRecord DELETE k [] 0.

Lemma log_from_snoc m rs r : log_from m (rs ++ [r]) = apply_log (log_from m rs) r.
Proof. unfold log_from. by rewrite fold_left_app. Qed.

Lemma log_from_deletes m rs vs k :
  log_from m (rs ++ (del_record <$> vs)) !! k
  = if decide (k ∈ vs) then None else log_from m rs !! k.
Proof.
  revert rs. induction vs as [|v vs IH]; intros rs; simpl.
  - by rewrite app_nil_r.
  - rewrite (app_assoc rs [del_record v] _ : rs ++ del_record v :: _ = _), IH, log_from_snoc.
    unfold apply_log; simpl. rewrite lookup_delete.
    destruct (decide (k ∈ vs)); destruct (decide (k ∈ v :: vs)); destruct (decide (v = k));
      set_solver.
Qed.

Section mirror.
Context {P : Type} `{!EvictionPolicy P}.
Implicit Types t : HashTable P.

(** The table logs to a file whose log, flushed and buffered, is [rs]. *)
Definition logged (path : bytes) (rs : list WALRecord) (t : HashTable P) : Prop :=
  (path ∉ denied (disk t)) ∧ is_Some (files (disk t) !! path)
  ∧ ∃ w, wal_writer_ t = Some w ∧ filepath_ w = path ∧ log_of (w, disk t) = encode_all rs.

Lemma log_record_logged path rs r t : logged path rs t → logged path (rs ++ [r]) (log_record r t).
Proof.
  intros (Hd & Hpr & w & Hw & Hp & Hl). unfold logged, log_record. rewrite Hw.
  pose proof (append_log r (w, disk t)) as Ha.
  destruct (append_frame r (w, disk t)) as (Hf & _ & Hdn & _).
  pose proof (append_present path r (w, disk t) Hpr) as Hpr'.
  destruct (append r (w, disk t)) as [w' d']. simpl in *. split_and!; [by rewrite Hdn|done|].
  exists w'. split_and!; [done|congruence|].
  rewrite Ha, Hl, encode_all_app. simpl. by rewrite app_nil_r.
Qed.

Lemma remove_logged path rs k t :
  logged path rs t → logged path (rs ++ [del_record k]) (remove k t).2.
Proof.
  intros H. apply (log_record_logged path rs (del_record k)) in H. unfold remove.
  by destruct (chain_locate _ _) as [[[? ?] ?]|].
Qed.

Lemma get_logged path rs k n1 n2 t : logged path rs t → logged path rs (get k n1 n2 t).2.
Proof.
  intros H. unfold get. destruct (chain_locate _ _) as [[[? ?] ?]|]; [|done].
  by destruct (is_expired _ _).
Qed.

(** Eviction appends one delete per victim, in the order of eviction. *)
Lemma evict_loop_logged path fuel rs t :
  ht_inv t → logged path rs t →
  ∃ vs, logged path (rs ++ (del_record <$> vs)) (evict_loop fuel t)
  ∧ (∀ k, k ∈ vs → is_Some (contents t !! k))
  ∧ ∀ k, contents (evict_loop fuel t) !! k = if decide (k ∈ vs) then None else contents t !! k.
Proof.
  revert rs t. induction fuel as [|fuel IH]; intros rs t Hinv Hlog; simpl.
  { exists []. simpl. rewrite app_nil_r. split_and!; [done| |done]. intros k Hk. by apply not_elem_of_nil in Hk. }
  assert (∃ vs, logged path (rs ++ (del_record <$> vs)) t ∧ (∀ k, k ∈ vs → is_Some (contents t !! k))
    ∧ ∀ k, contents t !! k = if decide (k ∈ vs) then None else contents t !! k) as Hid.
  { exists []. simpl. rewrite app_nil_r. split_and!; [done| |done]. intros k Hk. by apply not_elem_of_nil in Hk. }
  destruct (pol_should_evict (policy_ t)); [|done].
  destruct (pol_candidate (policy_ t)) as [victim p] eqn:Hc. case_decide as Hv; [done|].
  destruct (evict_round t victim p Hinv Hc Hv) as (Hinv' & Hm & _ & _ & v & Hvic & _).
  set (t1 := set_buckets _ _ _ _) in *.
  destruct (IH (rs ++ [del_record victim]) (remove victim t1).2 Hinv') as (vs & Hl & Hin & Hk).
  { by apply remove_logged. }
  exists (victim :: vs). rewrite <- app_assoc in Hl. split_and!; [done| |].
  - intros k [->|Hkv]%elem_of_cons; [eauto|]. apply Hin in Hkv. rewrite Hm, lookup_delete in Hkv.
    by destruct (decide (victim = k)); [destruct Hkv|].
  - intros k. rewrite Hk, Hm, lookup_delete.
    destruct (decide (k ∈ vs)); destruct (decide (k ∈ victim :: vs)); destruct (decide (victim = k));
      set_solver.
Qed.

Lemma resize_logged path rs t : logged path rs t → logged path rs (resize_if_needed t).
Proof. intros H. unfold resize_if_needed. by case_match. Qed.

(** [insert] logs the set before the deletes of its victims. *)
Lemma insert_logged path rs k v t :
  ht_inv t → logged path rs t →
  ∃ vs, logged path ((rs ++ [set_record k v]) ++ (del_record <$> vs)) (insert k v t).2
  ∧ (∀ k', k' ∈ vs → is_Some (contents t !! k'))
  ∧ ∀ k', contents (before_insert k v t) !! k'
          = if decide (k' ∈ vs) then None else contents t !! k'.
Proof.
  intros Hinv Hlog. apply (log_record_logged path rs (set_record k v)) in Hlog.
  set (t1 := log_record (set_record k v) t) in *.
  destruct (evict_loop_logged path (S (length (entries t1))) _ t1 (log_record_inv _ t Hinv) Hlog)
    as (vs & Hl & Hin & Hk).
  exists vs. unfold t1 in Hin, Hk. rewrite log_record_contents in Hin, Hk.
  split_and!; [|done|done]. apply resize_logged in Hl. unfold insert.
  fold (set_record k v). fold t1. unfold evict_if_needed.
  by destruct (chain_locate _ _) as [[[? ?] ?]|].
Qed.

(** The log leads from the map [m] to the table. *)
Definition mirrors (m : gmap bytes (bytes * Z)) (rs : list WALRecord) (t : HashTable P) : Prop :=
  log_from m rs = persisted <$> contents t.

Lemma set_record_state k v m :
  0 <= expiry_ns v < 2 ^ 64 → apply_log m (set_record k v) = <[k := persisted v]> m.
Proof. intros H. unfold apply_log; simpl. by rewrite u64_s64, u64_small. Qed.

(** The set was not followed by a delete of its own key. *)
Lemma insert_mirrors m path rs k v t :
  ht_inv t → logged path rs t → mirrors m rs t → 0 <= expiry_ns v < 2 ^ 64 →
  (is_Some (contents t !! k) → is_Some (contents (before_insert k v t) !! k)) →
  ∃ vs, (∀ k', k' ∈ vs → is_Some (contents t !! k'))
  ∧ logged path ((rs ++ [set_record k v]) ++ (del_record <$> vs)) (insert k v t).2
  ∧ mirrors m ((rs ++ [set_record k v]) ++ (del_record <$> vs)) (insert k v t).2.
Proof.
  intros Hinv Hlog Hmir Hexp Hkeep.
  destruct (insert_logged path rs k v t Hinv Hlog) as (vs & Hl & Hin & Hk).
  exists vs. split_and!; [done|done|]. unfold mirrors in *. apply map_eq. intros k'.
  rewrite log_from_deletes, log_from_snoc, set_record_state, insert_contents by done.
  rewrite lookup_fmap, !lookup_insert, Hk, Hmir, lookup_fmap.
  destruct (decide (k = k')) as [<-|]; [|by destruct (decide (k' ∈ vs))].
  rewrite decide_False; [done|]. intros Hkv. specialize (Hkeep (Hin k Hkv)).
  rewrite Hk, decide_True in Hkeep by done. by destruct Hkeep.
Qed.

Lemma remove_mirrors m rs k t :
  ht_inv t → mirrors m rs t → mirrors m (rs ++ [del_record k]) (remove k t).2.
Proof.
  unfold mirrors. intros Hinv H.
  by rewrite log_from_snoc, remove_contents, fmap_delete, <- H.
Qed.

Lemma get_mirrors m rs k n1 n2 t : ht_inv t → mirrors m rs t → mirrors m rs (get k n1 n2 t).2.
Proof.
  unfold mirrors. intros Hinv H. rewrite H. pose proof (get_shape k n1 n2 t (ht_store t Hinv)) as Hg.
  destruct (contents t !! k) as [v|] eqn:E; [|by rewrite Hg].
  destruct (is_expired n1 v); [by rewrite Hg|].
  destruct Hg as (t' & -> & _ & Hm & _). simpl. rewrite Hm, fmap_insert. symmetry.
  apply insert_id. by rewrite lookup_fmap, E.
Qed.

(** An update can be lost by recovery. [insert] appends the set to the log
    before it evicts; when the eviction picks the key that is being written,
    its delete follows the set. The table then holds the new value, but the
    log says that the key is gone. *)
Theorem wal_loses_evicted_update path rs k v t :
  ht_inv t → logged path rs t → is_Some (contents t !! k) →
  contents (before_insert k v t) !! k = None →
  ∃ rs', logged path rs' (insert k v t).2
  ∧ contents (insert k v t).2 !! k = Some v ∧ log_state rs' !! k = None.
Proof.
  intros Hinv Hlog [old Hold] Hgone.
  destruct (insert_logged path rs k v t Hinv Hlog) as (vs & Hl & _ & Hk).
  eexists. split; [exact Hl|]. split.
  - rewrite insert_contents by done. apply lookup_insert_eq.
  - unfold log_state. rewrite log_from_deletes. rewrite Hk in Hgone. by destruct (decide (k ∈ vs)); [|congruence].
Qed.
End mirror.

(** ** Recovery *)

Section recovery.
Context {P : Type} `{!EvictionPolicy P}.
Implicit Types t : HashTable P.

(** Keys short enough for the log. *)
Definition keys_fit (t : HashTable P) : Prop :=
  ∀ k, is_Some (contents t !! k) → zlen k < 2 ^ 32.

(** A request whose effect the log can carry: lengths and expiry fit the
    record, and a set does not evict its own key. *)
Definition loggable (q : request) (t : HashTable P) : Prop :=
  match q with
  | Get _ _ _ => True
  | Set_ k v =>
      zlen k < 2 ^ 32 ∧ zlen (value v) < 2 ^ 32 ∧ 0 <= expiry_ns v < 2 ^ 64
      ∧ (is_Some (contents t !! k) → is_Some (contents (before_insert k v t) !! k))
  | Remove k => zlen k < 2 ^ 32
  end.

Inductive logged_run : HashTable P → HashTable P → Prop :=
| logged_run_nil t : logged_run t t
| logged_run_cons t q t' :
    loggable q t → logged_run (serve q t).2 t' → logged_run t t'.

(** Sets and deletes that fit the record format. *)
Definition plain (r : WALRecord) : Prop := fits r ∧ (op_type r = SET ∨ op_type r = DELETE).

Definition mirror_inv (m : gmap bytes (bytes * Z)) (path : bytes) (t : HashTable P) : Prop :=
  ∃ rs, ht_inv t ∧ logged path rs t ∧ mirrors m rs t ∧ keys_fit t ∧ Forall plain rs.

Lemma del_record_plain k : zlen k < 2 ^ 32 → plain (del_record k).
Proof. intros. split; [|by right]. unfold fits. simpl. rewrite zlen_nil. split_and!; (done || lia). Qed.

Lemma set_record_plain k v :
  zlen k < 2 ^ 32 → zlen (value v) < 2 ^ 32 → plain (set_record k v).
Proof.
  intros. split; [|by left]. unfold fits. simpl. pose proof (s64_bound (expiry_ns v)).
  split_and!; (done || lia).
Qed.

Lemma serve_mirror m path q t : loggable q t → mirror_inv m path t → mirror_inv m path (serve q t).2.
Proof.
  intros Hq (rs & Hinv & Hlog & Hmir & Hkeys & Hplain). destruct q as [k n1 n2|k v|k]; simpl in *.
  - pose proof (get_inv k n1 n2 t Hinv) as Hi. pose proof (get_logged path rs k n1 n2 t Hlog) as Hl.
    pose proof (get_mirrors m rs k n1 n2 t Hinv Hmir) as Hm.
    assert (keys_fit (get k n1 n2 t).2) as Hk.
    { intros k' Hk'. apply Hkeys. unfold mirrors in *. apply (f_equal (lookup k')) in Hm, Hmir.
      rewrite Hmir, !lookup_fmap in Hm. rewrite <- (fmap_is_Some persisted), Hm. by apply fmap_is_Some. }
    destruct (get k n1 n2 t) as [r t1]. exists rs. done.
  - destruct Hq as (Hkl & Hvl & Hexp & Hkeep).
    destruct (insert_mirrors m path rs k v t Hinv Hlog Hmir Hexp Hkeep) as (vs & Hin & Hl & Hm).
    pose proof (insert_inv k v t Hinv) as Hi. pose proof (insert_contents k v t Hinv) as Hc.
    destruct (before_insert_spec k v t Hinv) as (_ & _ & Hsub & _).
    destruct (insert k v t) as [b t1]. simpl in *. eexists. split_and!; [done|exact Hl|done| |].
    + intros k'. rewrite Hc, lookup_insert. case_decide; [by subst|]. intros [x Hx].
      apply Hkeys. eapply lookup_weaken in Hx; [|done]. eauto.
    + rewrite !Forall_app. split_and!; [done|by constructor; [apply set_record_plain|]|].
      rewrite Forall_fmap, Forall_forall. intros k' Hk'. apply del_record_plain, Hkeys, Hin, Hk'.
  - pose proof (remove_inv k t Hinv) as Hi. pose proof (remove_logged path rs k t Hlog) as Hl.
    pose proof (remove_mirrors m rs k t Hinv Hmir) as Hm. pose proof (remove_contents k t Hinv) as Hc.
    destruct (remove k t) as [b t1]. simpl in *. eexists. split_and!; [done|exact Hl|done| |].
    + intros k'. rewrite Hc, lookup_delete. case_decide; [by intros [? ?]|apply Hkeys].
    + apply Forall_app. split; [done|]. constructor; [by apply del_record_plain|constructor].
Qed.

Lemma logged_run_mirror m path t t' : logged_run t t' → mirror_inv m path t → mirror_inv m path t'.
Proof. induction 1; auto using serve_mirror. Qed.

(** *** Replaying sets and deletes without eviction *)

Definition log_bytes (rs : list WALRecord) : Z := foldr (λ r n, zlen (wvalue r) + n) 0 rs.

Lemma log_bytes_nonneg rs : 0 <= log_bytes rs.
Proof. induction rs as [|r rs IH]; simpl; [lia|]. pose proof (zlen_nonneg (wvalue r)). lia. Qed.

Lemma replay_list_state clock i rs t :
  ht_inv t → acct t → Forall plain rs →
  total (contents t) + log_bytes rs <= pol_limit (policy_ t) →
  pol_limit (policy_ t) < 2 ^ 64 →
  persisted <$> contents (replay_list clock i rs t)
  = log_from (persisted <$> contents t) rs.
Proof.
  revert i t. induction rs as [|r rs IH]; intros i t Hinv Ha Hplain Hlim Hlim64; simpl in *; [done|].
  apply Forall_cons in Hplain as [[Hfit Hop] Hplain].
  pose proof (log_bytes_nonneg rs). pose proof (zlen_nonneg (wvalue r)).
  pose proof (total_nonneg (contents t)).
  assert (pol_should_evict (policy_ t) = false) as Hev.
  { rewrite pol_should_evict_spec. apply Z.ltb_ge. destruct Ha as [-> _]. lia. }
  unfold replay_record, apply_log. destruct Hop as [-> | ->].
  - set (v := new_entry (wvalue r) (u64 (ttl_ns r))).
    pose proof (insert_contents (wkey r) v t Hinv) as Hc. rewrite before_insert_id in Hc by done.
    destruct (insert_acct (wkey r) v t Hinv Ha) as [Ha' Hl']; [simpl; lia|].
    rewrite IH; [|by apply insert_inv|done|done| |lia].
    + by rewrite Hc, fmap_insert.
    + rewrite Hl', Hc, total_insert. pose proof (total_delete_le (contents t) (wkey r)). simpl. lia.
  - pose proof (remove_contents (wkey r) t Hinv) as Hc.
    destruct (remove_acct (wkey r) t Hinv Ha) as [Ha' Hl'].
    rewrite IH; [|by apply remove_inv|done|done| |lia].
    + by rewrite Hc, fmap_delete.
    + rewrite Hl', Hc. pose proof (total_delete_le (contents t) (wkey r)). lia.
Qed.

Lemma log_bytes_file rs : Forall plain rs → log_bytes rs <= zlen (encode_all rs).
Proof.
  induction 1 as [|r rs [Hr _] Hrs IH]; [done|]. rewrite encode_all_cons, zlen_app.
  change (log_bytes (r :: rs)) with (zlen (wvalue r) + log_bytes rs).
  rewrite length_encode_record by done. pose proof (zlen_nonneg (wkey r)). lia.
Qed.

Lemma enable_wal_fresh path b t t' :
  wal_writer_ t = None → enable_wal path b t = Some t' →
  (path ∉ denied (disk t))
  ∧ t' = mkTable (buckets_ t) (num_entries_ t) (policy_ t)
           (Some (mkWALWriter path b [] (zlen (contents_of (disk t) path)))) path
           (set_file (disk t) path (contents_of (disk t) path)).
Proof.
  intros Hw. unfold enable_wal. destruct (open_writer path b (disk t)) as [[w d]|] eqn:Ho; [|done].
  apply open_writer_Some in Ho as (-> & -> & Hden). rewrite Hw. by intros [= <-].
Qed.

(** A fresh table with a fresh log. *)
Lemma fresh_logged cap p path d0 t0 :
  path ≠ [] → contents_of d0 path = [] → make_table cap p path d0 = Some t0 →
  logged path [] t0 ∧ wal_path_ t0 = path ∧ denied (disk t0) = denied d0
  ∧ ∀ other, other ≠ path → files (disk t0) !! other = files d0 !! other.
Proof.
  intros Hpath Hnew Hmk. unfold make_table in Hmk. rewrite decide_False in Hmk by done.
  apply enable_wal_fresh in Hmk as [Hden ->]; [|done]. cbn [disk] in *. rewrite Hnew in *.
  split_and!; [|done|done|intros other Ho; simpl; by rewrite lookup_insert_ne].
  split_and!; [done|simpl; rewrite lookup_insert_eq; eauto|]. eexists. split_and!; [done..|].
  unfold log_of. simpl. by rewrite contents_of_set_file.
Qed.

Lemma fresh_mirror cap p path d0 t0 :
  0 <= cap <= 2 ^ 63 → pol_inv p → pol_tracked p = ∅ → path ≠ [] → contents_of d0 path = [] →
  make_table cap p path d0 = Some t0 → mirror_inv ∅ path t0.
Proof.
  intros Hcap Hi Htr Hpath Hnew Hmk.
  destruct (make_table_spec cap p path d0 t0 Hcap Hi Htr Hmk) as (Hinv & Hc & _).
  destruct (fresh_logged cap p path d0 t0 Hpath Hnew Hmk) as [Hlog _]. exists [].
  split_and!; [done|done|by unfold mirrors; rewrite Hc| |constructor]. intros k Hk. rewrite Hc in Hk. by destruct Hk.
Qed.

Lemma flush_wal_file path rs t :
  logged path rs t →
  files (disk (flush_wal t)) !! path = Some (encode_all rs) ∧ path ∉ denied (disk (flush_wal t)).
Proof.
  intros (Hd & Hpr & w & Hw & Hp & Hl). unfold flush_wal. rewrite Hw.
  destruct (flush_frame (w, disk t)) as (_ & _ & _ & Hdn & _ & Hc).
  pose proof (flush_present path (w, disk t) Hpr) as Hpr'.
  destruct (flush (w, disk t)) as [w' d']. simpl in *. split; [|by rewrite Hdn].
  apply contents_of_Some; [done|]. by rewrite <- Hp, Hc.
Qed.

(** Replaying a file of sets and deletes into a table with room for them. *)
Lemma replay_file fuel clock path rs d r :
  no_log d r → files d !! path = Some (encode_all rs) → path ∉ denied d → Forall plain rs →
  ht_inv r → acct r → total (contents r) + zlen (encode_all rs) <= pol_limit (policy_ r) < 2 ^ 64 →
  (length (encode_all rs) < fuel)%nat →
  ∃ n r', replay_wal fuel clock path r = ReplayDone n r'
  ∧ persisted <$> contents r' = log_from (persisted <$> contents r) rs.
Proof.
  intros Hnl Hf Hden Hplain Hinv Ha Hlim Hfuel. pose proof (log_bytes_file rs Hplain).
  assert (Forall fits rs) as Hfits by (eapply Forall_impl; [exact Hplain|]; by intros ? [? _]).
  do 2 eexists. split.
  - apply (replay_wal_torn fuel clock path rs (length (encode_all rs)) d r Hfits Hden); [|exact Hnl|];
      by rewrite firstn_all.
  - rewrite whole_all by done. apply replay_list_state; (done || lia).
Qed.

(** C2: recovery restores the table. Run any requests on a fresh table with a
    fresh log (sets not evicting their own key), flush the log, and replay the
    file into a fresh table whose memory limit is not below the size of the
    log: the replay ends, and the recovered table has exactly the keys, values
    and expiry times of the original, including the effects of evictions. *)
Theorem wal_recovery_restores_contents cap p path d0 t0 t r fuel clock :
  0 <= cap <= 2 ^ 63 → pol_inv p → pol_tracked p = ∅ → path ≠ [] → contents_of d0 path = [] →
  make_table cap p path d0 = Some t0 → logged_run t0 t →
  no_log (disk (flush_wal t)) r → ht_inv r → acct r → contents r = ∅ →
  zlen (contents_of (disk r) path) <= pol_limit (policy_ r) < 2 ^ 64 →
  (length (contents_of (disk r) path) < fuel)%nat →
  ∃ n r', replay_wal fuel clock path r = ReplayDone n r'
  ∧ persisted <$> contents r' = persisted <$> contents t.
Proof.
  intros Hcap Hi Htr Hpath Hnew Hmk Hrun Hnl Hinv Ha Hempty Hlim Hfuel.
  pose proof (fresh_mirror cap p path d0 t0 Hcap Hi Htr Hpath Hnew Hmk) as Hm.
  apply (logged_run_mirror ∅ path t0 t Hrun) in Hm as (rs & _ & Hlog & Hmir & _ & Hplain).
  destruct (flush_wal_file path rs t Hlog) as [Hf Hden].
  assert (contents_of (disk r) path = encode_all rs) as Hc.
  { destruct Hnl as [_ ->]. unfold contents_of. by rewrite Hf. }
  rewrite Hc in *. destruct (replay_file fuel clock path rs _ r Hnl Hf Hden Hplain Hinv Ha) as (n & r' & Hr & Hp);
    [rewrite Hempty; change (total ∅) with 0; lia|done|].
  exists n, r'. split; [done|]. by rewrite Hp, Hempty, fmap_empty.
Qed.
End recovery.

(** ** Witnesses *)

(** A logging LRU table with a limit of four value bytes. *)
Definition demo_logging : HashTable LRU.LRUPolicy :=
  default (mkTable [] 0 (LRU.make 4) None [] empty_disk)
    (make_table 2 (LRU.make 4) (str "wal") empty_disk).

(** The same oversized key written twice. *)
Definition demo_once : HashTable LRU.LRUPolicy :=
  (insert (str "a") (demo_value "12345") demo_logging).2.

Lemma demo_logging_mirror : mirror_inv ∅ (str "wal") demo_logging.
Proof.
  apply (fresh_mirror 2 (LRU.make 4) (str "wal") empty_disk); try done. apply LRU.make_inv.
Qed.

Lemma wal_loses_evicted_update_witness :
  ∃ rs', logged (str "wal") rs' (insert (str "a") (demo_value "67890") demo_once).2
  ∧ contents (insert (str "a") (demo_value "67890") demo_once).2 !! str "a" = Some (demo_value "67890")
  ∧ log_state rs' !! str "a" = None.
Proof.
  destruct demo_logging_mirror as (rs & Hinv & Hlog & _).
  destruct (insert_logged (str "wal") rs (str "a") (demo_value "12345") demo_logging Hinv Hlog)
    as (vs & Hl & _).
  refine (wal_loses_evicted_update (str "wal") _ (str "a") (demo_value "67890") demo_once
            (insert_inv _ _ _ Hinv) Hl _ _).
  - vm_compute. eauto.
  - vm_compute. done.
Defined.

(** Three sets, the third of which evicts another key, and a remove. *)
Definition demo_history : HashTable LRU.LRUPolicy :=
  (serve (Remove (str "c"))
     (serve (Set_ (str "c") (demo_value "z"))
        (serve (Set_ (str "b") (mkValueEntry (str "xy") 0 0 77))
           (serve (Set_ (str "a") (demo_value "12345")) demo_logging).2).2).2).2.

Definition demo_recovering : HashTable LRU.LRUPolicy :=
  mkTable [[]; []] 0 (LRU.make 1000) None [] (disk (flush_wal demo_history)).

Lemma wal_recovery_restores_contents_witness :
  ∃ n r', replay_wal 200 (λ _, (0, 0)) (str "wal") demo_recovering = ReplayDone n r'
  ∧ persisted <$> contents r' = persisted <$> contents demo_history.
Proof.
  refine (wal_recovery_restores_contents 2 (LRU.make 4) (str "wal") empty_disk
            demo_logging demo_history demo_recovering 200 (λ _, (0, 0)) _ _ _ _ _ _ _ _ _ _ _ _ _).
  - lia.
  - apply LRU.make_inv.
  - done.
  - done.
  - done.
  - vm_compute. done.
  - apply (logged_run_cons _ (Set_ (str "a") (demo_value "12345"))).
    { vm_compute. split_and!; (done || by intros [? ?]). }
    apply (logged_run_cons _ (Set_ (str "b") (mkValueEntry (str "xy") 0 0 77))).
    { vm_compute. split_and!; (done || by intros [? ?]). }
    apply (logged_run_cons _ (Set_ (str "c") (demo_value "z"))).
    { vm_compute. split_and!; (done || by intros [? ?]). }
    apply (logged_run_cons _ (Remove (str "c"))); [vm_compute; done|].
    unfold demo_history. apply logged_run_nil.
  - split; reflexivity.
  - destruct (make_table_spec 2 (LRU.make 1000) [] (disk (flush_wal demo_history)) demo_recovering)
      as (? & _); [lia|apply LRU.make_inv|done|done|done].
  - vm_compute. done.
  - vm_compute. done.
  - vm_compute. split; done.
  - vm_compute. lia.
Defined.
