(* ===== verification/Crc.v ===== *)
(** * The checksum of snapshots

    [CRC64] of src/engine/src/snapshot.cpp: the table of 256 remainders, the
    table-driven [update], and the properties the snapshot format relies on:
    the table computes the same as eight single-bit divisions per byte, and
    every error confined to seven consecutive bytes changes the checksum. *)

From S2P Require Import Prelude.

(** ** The code *)

Definition CRC_POLY : Z := 0x42F0E1EBA9EA3693.

(** The body of the inner loop of [init_table]. *)
Definition crc_step (crc : Z) : Z :=
  if negb (Z.land crc 1 =? 0) then Z.lxor (Z.shiftr crc 1) CRC_POLY
  else Z.shiftr crc 1.

(** [table_] as [init_table] fills it. *)
Definition table_ : list Z := (λ i, Nat.iter 8 crc_step (Z.of_nat i)) <$> seq 0 256.

(** The only field of a [CRC64] object is [crc_]; this is its value after the
    constructor and after [reset()]. *)
Definition crc_reset : Z := 0xFFFFFFFFFFFFFFFF.

Definition crc_byte (crc : Z) (b : Init.Byte.byte) : Z :=
  let idx := Z.land (Z.lxor crc (byte.unsigned b)) 0xFF in
  Z.lxor (Z.shiftr crc 8) (default 0 (table_ !! Z.to_nat idx)).

Definition update (data : bytes) (crc : Z) : Z := fold_left crc_byte data crc.

Definition finalize (crc : Z) : Z := crc.

(** The reference: shift the register bit by bit, no table. *)
Definition crc_bitwise (data : bytes) (crc : Z) : Z :=
  fold_left (λ crc b, Nat.iter 8 crc_step (Z.lxor crc (byte.unsigned b))) data crc.

(** ** The single-bit step is linear *)

Lemma crc_step_odd x :
  crc_step x = Z.lxor (Z.shiftr x 1) (if Z.odd x then CRC_POLY else 0).
Proof.
  unfold crc_step. change 1 with (Z.ones 1) at 1.
  rewrite Z.land_ones by lia. change (2 ^ 1) with 2. rewrite Zmod_odd.
  destruct (Z.odd x); simpl; [done|by rewrite Z.lxor_0_r].
Qed.

Lemma odd_lxor x y : Z.odd (Z.lxor x y) = xorb (Z.odd x) (Z.odd y).
Proof. by rewrite <- !Z.bit0_odd, Z.lxor_spec. Qed.

Lemma crc_step_lxor x y : crc_step (Z.lxor x y) = Z.lxor (crc_step x) (crc_step y).
Proof.
  rewrite !crc_step_odd, odd_lxor, Z.shiftr_lxor.
  apply Z.bits_inj. intros n. rewrite !Z.lxor_spec.
  destruct (Z.odd x), (Z.odd y); simpl; rewrite ?Z.testbit_0_l;
    repeat destruct (Z.testbit _ n); done.
Qed.

Lemma crc_iter_lxor n x y :
  Nat.iter n crc_step (Z.lxor x y) = Z.lxor (Nat.iter n crc_step x) (Nat.iter n crc_step y).
Proof. induction n as [|n IH]; simpl; [done|]. by rewrite IH, crc_step_lxor. Qed.

Lemma crc_iter_shiftl n x : Nat.iter n crc_step (Z.shiftl x (Z.of_nat n)) = x.
Proof.
  induction n as [|n IH]; [apply Z.shiftl_0_r|].
  rewrite Nat.iter_succ_r.
  replace (crc_step _) with (Z.shiftl x (Z.of_nat n)); [done|].
  replace (Z.of_nat (S n)) with (Z.of_nat n + 1) by lia.
  rewrite crc_step_odd, <- Z.shiftl_shiftl by lia.
  rewrite <- Z.bit0_odd, Z.shiftl_spec_low, Z.lxor_0_r by lia.
  by rewrite Z.shiftr_shiftl_l, Z.shiftl_0_r by lia.
Qed.

(** ** The table *)

Lemma table_lookup i :
  0 <= i < 256 → table_ !! Z.to_nat i = Some (Nat.iter 8 crc_step i).
Proof.
  intros. unfold table_. rewrite list_lookup_fmap, lookup_seq_lt by lia.
  cbn [fmap option_fmap option_map]. by rewrite Nat.add_0_l, Z2Nat.id by lia.
Qed.

Lemma byte_range b : 0 <= byte.unsigned b < 2 ^ 8.
Proof. apply byte.unsigned_range. Qed.

Lemma crc_byte_bitwise crc b :
  crc_byte crc b = Nat.iter 8 crc_step (Z.lxor crc (byte.unsigned b)).
Proof.
  unfold crc_byte. set (c := Z.lxor crc (byte.unsigned b)).
  assert (0 <= Z.land c 255 < 256) as Hidx.
  { change 255 with (Z.ones 8). rewrite Z.land_ones by lia. by apply Z.mod_pos_bound. }
  rewrite table_lookup by done. simpl default.
  replace c with (Z.lxor (Z.shiftl (Z.shiftr c 8) 8) (Z.land c 255)) at 2.
  - rewrite crc_iter_lxor, (crc_iter_shiftl 8). f_equal.
    subst c. rewrite Z.shiftr_lxor.
    rewrite (Z.shiftr_div_pow2 (byte.unsigned b)), Z.div_small, Z.lxor_0_r; [done| |lia].
    apply byte_range.
  - apply Z.bits_inj'. intros n Hn. change 255 with (Z.ones 8).
    rewrite Z.lxor_spec, Z.land_spec, Z.shiftl_spec by done.
    destruct (Z.ltb_spec n 8).
    + rewrite Z.testbit_neg_r, Z.ones_spec_low by lia. by destruct (Z.testbit c n).
    + rewrite Z.shiftr_spec, Z.ones_spec_high by lia.
      replace (n - 8 + 8) with n by lia. by destruct (Z.testbit c n).
Qed.

Lemma update_app x y crc : update (x ++ y) crc = update y (update x crc).
Proof. apply fold_left_app. Qed.

(** The register after a string is the remainder of one long division: the
    string, as a little-endian number, is added to the register, which is then
    shifted by its length in bits. *)
Lemma update_division data crc :
  update data crc = Nat.iter (8 * length data) crc_step (Z.lxor crc (le_combine data)).
Proof.
  revert crc. induction data as [|b data IH]; intros crc.
  - simpl. change (le_combine []) with 0. by rewrite Z.lxor_0_r.
  - change (update (b :: data) crc) with (update data (crc_byte crc b)).
    rewrite IH, crc_byte_bitwise.
    replace (8 * length (b :: data))%nat with (8 * length data + 8)%nat by (simpl; lia).
    rewrite Nat.iter_add. f_equal.
    assert (le_combine (b :: data) = Z.lxor (byte.unsigned b) (Z.shiftl (le_combine data) 8))
      as ->.
    { transitivity (Z.lor (byte.unsigned b) (Z.shiftl (le_combine data) 8)); [done|].
      apply Z.bits_inj'. intros n Hn. rewrite Z.lor_spec, Z.lxor_spec, Z.shiftl_spec by done.
      destruct (Z.ltb_spec n 8).
      - rewrite (Z.testbit_neg_r (le_combine data)) by lia.
        by rewrite orb_false_r, xorb_false_r.
      - rewrite (Z.bits_above_log2 (byte.unsigned b) n); [by rewrite xorb_false_l|apply byte_range|].
        pose proof (byte_range b). destruct (decide (byte.unsigned b = 0)) as [->|?]; [simpl; lia|].
        apply Z.log2_lt_pow2; [lia|].
        eapply Z.lt_le_trans; [apply byte_range|]. apply Z.pow_le_mono_r; lia. }
    by rewrite <- Z.lxor_assoc, (crc_iter_lxor 8 (Z.lxor crc _)), (crc_iter_shiftl 8).
Qed.

(** ** The step on 63-bit registers is injective

    The polynomial has degree 62 in the register, so the step maps 64-bit
    registers to 63-bit ones and is a bijection there. *)

Lemma lxor_range n a b :
  0 <= n → 0 <= a < 2 ^ n → 0 <= b < 2 ^ n → 0 <= Z.lxor a b < 2 ^ n.
Proof.
  intros Hn Ha Hb. split; [apply Z.lxor_nonneg; lia|].
  destruct (decide (Z.lxor a b = 0)) as [->|Hne]; [lia|].
  assert (0 < Z.lxor a b) by (pose proof (proj2 (Z.lxor_nonneg a b)); lia).
  apply Z.log2_lt_pow2; [done|].
  eapply Z.le_lt_trans; [apply Z.log2_lxor; lia|].
  assert (0 < n).
  { destruct (decide (n = 0)) as [->|]; [|lia].
    change (2 ^ 0) with 1 in *. replace a with 0 in * by lia. replace b with 0 in * by lia. done. }
  apply Z.max_lub_lt; (destruct (decide (0 < a)), (decide (0 < b));
    [apply Z.log2_lt_pow2; lia|..]); try (rewrite Z.log2_nonpos by lia; lia);
    apply Z.log2_lt_pow2; lia.
Qed.

Lemma crc_step_range n x : 63 <= n → 0 <= x < 2 ^ (n + 1) → 0 <= crc_step x < 2 ^ n.
Proof.
  intros Hn Hx. rewrite crc_step_odd. apply lxor_range; [lia| |].
  - rewrite Z.shiftr_div_pow2 by lia. change (2 ^ 1) with 2.
    rewrite Z.pow_add_r in Hx by lia. change (2 ^ 1) with 2 in Hx.
    split; [apply Z.div_pos; lia|]. apply Z.div_lt_upper_bound; lia.
  - pose proof (Z.pow_le_mono_r 2 63 n ltac:(lia) Hn).
    destruct (Z.odd x); unfold CRC_POLY; lia.
Qed.

Lemma crc_step_range63 x : 0 <= x < 2 ^ 63 → 0 <= crc_step x < 2 ^ 63.
Proof. intros. apply crc_step_range; [done|]. change (2 ^ (63 + 1)) with (2 * 2 ^ 63). lia. Qed.

Lemma crc_step_kernel x : 0 <= x < 2 ^ 63 → crc_step x = 0 → x = 0.
Proof.
  intros Hx. rewrite crc_step_odd. intros H%Z.lxor_eq.
  rewrite Z.shiftr_div_pow2 in H by lia. change (2 ^ 1) with 2 in H.
  pose proof (Z.div_mod x 2 ltac:(lia)) as Hd. rewrite Zmod_odd in Hd.
  destruct (Z.odd x); unfold CRC_POLY in H; lia.
Qed.

Lemma crc_step_inj x y :
  0 <= x < 2 ^ 63 → 0 <= y < 2 ^ 63 → crc_step x = crc_step y → x = y.
Proof.
  intros Hx Hy H. apply Z.lxor_eq. apply crc_step_kernel; [by apply lxor_range|].
  by rewrite crc_step_lxor, H, Z.lxor_nilpotent.
Qed.

Lemma crc_iter_inj n x y :
  0 <= x < 2 ^ 63 → 0 <= y < 2 ^ 63 →
  Nat.iter n crc_step x = Nat.iter n crc_step y → x = y.
Proof.
  revert x y. induction n as [|n IH]; intros x y Hx Hy; [done|].
  rewrite !Nat.iter_succ_r. intros H%IH; auto using crc_step_range63.
  by apply crc_step_inj.
Qed.

Lemma crc_iter_range n x :
  0 <= x < 2 ^ 64 → 0 <= Nat.iter (S n) crc_step x < 2 ^ 63.
Proof.
  intros Hx. induction n as [|n IH]; [by apply (crc_step_range 63)|].
  change (Nat.iter (S (S n)) crc_step x) with (crc_step (Nat.iter (S n) crc_step x)).
  by apply crc_step_range63.
Qed.

Lemma update_range data crc :
  data ≠ [] → 0 <= crc < 2 ^ 64 → 0 <= update data crc < 2 ^ 63.
Proof.
  revert crc. induction data as [|b data IH] using rev_ind; intros crc Hne Hc; [done|].
  rewrite update_app. simpl. rewrite crc_byte_bitwise. apply (crc_iter_range 7).
  apply lxor_range; [lia| |pose proof (byte_range b); lia].
  destruct data as [|b' data]; [done|]. specialize (IH crc ltac:(done) Hc). lia.
Qed.

Lemma le_combine_range data : 0 <= le_combine data < 2 ^ (8 * zlen data).
Proof. apply le_combine_bound. Qed.

(** Two strings of at most seven bytes leave a register in different states. *)
Lemma update_short_inj x y crc :
  length x = length y → (length x <= 7)%nat → 0 <= crc < 2 ^ 63 →
  update x crc = update y crc → x = y.
Proof.
  intros Hl H7 Hc. rewrite !update_division, Hl.
  assert (∀ z : bytes, (length z <= 7)%nat → 0 <= le_combine z < 2 ^ 63) as Hz.
  { intros z Hz. pose proof (le_combine_range z) as Hr. split; [lia|].
    eapply Z.lt_trans; [apply Hr|]. apply Z.pow_lt_mono_r; unfold zlen; lia. }
  intros H%crc_iter_inj; [|apply lxor_range; auto with lia..].
  assert (le_combine x = le_combine y) as He.
  { rewrite <- (Z.lxor_0_l (le_combine x)), <- (Z.lxor_nilpotent crc).
    by rewrite Z.lxor_assoc, H, <- Z.lxor_assoc, Z.lxor_nilpotent, Z.lxor_0_l. }
  rewrite <- (split_le_combine x), <- (split_le_combine y), Hl. by rewrite He.
Qed.

Lemma update_inj data c c' :
  0 <= c < 2 ^ 63 → 0 <= c' < 2 ^ 63 → update data c = update data c' → c = c'.
Proof.
  revert c c'. induction data as [|b data IH]; intros c c' Hc Hc' H; [done|].
  assert (∀ c, 0 <= c < 2 ^ 63 → 0 <= Z.lxor c (byte.unsigned b) < 2 ^ 63) as Hb.
  { intros. apply lxor_range; [lia|lia|pose proof (byte_range b); lia]. }
  change (update data (crc_byte c b) = update data (crc_byte c' b)) in H.
  rewrite !crc_byte_bitwise in H.
  apply IH in H; [|apply (crc_iter_range 7); pose proof (Hb c Hc); pose proof (Hb c' Hc'); lia..].
  apply crc_iter_inj in H; auto.
  rewrite <- (Z.lxor_0_r c), <- (Z.lxor_0_r c'), <- (Z.lxor_nilpotent (byte.unsigned b)).
  by rewrite <- !Z.lxor_assoc, H.
Qed.

Lemma update_burst pre x y post crc :
  pre ≠ [] → length x = length y → (length x <= 7)%nat → 0 <= crc < 2 ^ 64 →
  update (pre ++ x ++ post) crc = update (pre ++ y ++ post) crc → x = y.
Proof.
  intros Hpre Hl H7 Hc. rewrite !update_app.
  pose proof (update_range pre crc Hpre Hc) as Hr.
  destruct x as [|b x]; [destruct y; [done|discriminate]|].
  assert (y ≠ []) as Hy by (intros ->; discriminate).
  intros H%update_inj; [|apply update_range; [done|lia]..].
  eapply update_short_inj; eauto.
Qed.

(** ** Claims *)

(** C36: the table-driven [update] computes what eight single-bit divisions per
    byte compute, for every register and every string. *)
Theorem crc64_table_equals_bitwise data crc : update data crc = crc_bitwise data crc.
Proof.
  unfold update, crc_bitwise. revert crc.
  induction data as [|b data IH]; intros crc; simpl; [done|].
  by rewrite crc_byte_bitwise, IH.
Qed.

(** Two strings that differ only inside a window of at most seven
    consecutive bytes, after at least one common byte, have different
    checksums. *)
Theorem crc64_detects_bursts pre x y post :
  pre ≠ [] → length x = length y → (length x <= 7)%nat → x ≠ y →
  finalize (update (pre ++ x ++ post) crc_reset)
  ≠ finalize (update (pre ++ y ++ post) crc_reset).
Proof.
  intros Hpre Hl H7 Hne H. apply Hne.
  by apply (update_burst pre x y post crc_reset).
Qed.

Lemma crc64_detects_bursts_witness :
  finalize (update (str "snap" ++ str "0" ++ str "1") crc_reset)
  ≠ finalize (update (str "snap" ++ str "O" ++ str "1") crc_reset).
Proof. apply crc64_detects_bursts; [done|done|simpl; lia|done]. Defined.
