(* ===== verification/Snapshot.v ===== *)
(** * Snapshots

    [SnapshotWriter] and [SnapshotReader] of src/engine/src/snapshot.cpp, and
    [HashTable::create_snapshot] and [HashTable::load_snapshot] of
    src/engine/src/hash_table.cpp: a snapshot restores the table it was taken
    of, truncation and short corruption are detected, and what a rejected
    snapshot leaves behind. *)

From S2P Require Import Prelude Files Wal Policy Lru Lfu Dispatch HashTable Store TableFacts Table Crc.

(** The magic number: the bytes of the comment read as a big-endian number. *)
Definition SNAPSHOT_MAGIC : Z := 0x4B56534E41503031.

(** ** SnapshotWriter *)

(** The path, the put position of the stream and the checksum. The stream is
    flushed before [write] returns, so its bytes are written to the disk
    directly. *)
Record SnapshotWriter := mkSnapshotWriter {
  sw_filepath : bytes;
  sw_pos : nat;
  sw_crc : Z;
}.

(** [SnapshotWriter::SnapshotWriter]; [None] is the [runtime_error]. *)
Definition open_snapshot_writer (filepath : bytes) (d : Disk) : option (SnapshotWriter * Disk) :=
  match open_trunc d filepath with
  | None => None
  | Some d' => Some (mkSnapshotWriter filepath 0 crc_reset, d')
  end.

Definition overwrite (c bs : bytes) (pos : nat) : bytes :=
  take pos c ++ bs ++ drop (pos + length bs) c.

(** [file_.write]. *)
Definition put (bs : bytes) (wd : SnapshotWriter * Disk) : SnapshotWriter * Disk :=
  let '(w, d) := wd in
  (mkSnapshotWriter (sw_filepath w) (sw_pos w + length bs) (sw_crc w),
   set_file d (sw_filepath w) (overwrite (contents_of d (sw_filepath w)) bs (sw_pos w))).

(** [file_.write] followed by [crc_.update] of the same bytes. *)
Definition put_summed (bs : bytes) (wd : SnapshotWriter * Disk) : SnapshotWriter * Disk :=
  let '(w, d) := put bs wd in
  (mkSnapshotWriter (sw_filepath w) (sw_pos w) (update bs (sw_crc w)), d).

Definition write_entry (k : bytes) (v : ValueEntry) (wd : SnapshotWriter * Disk)
  : SnapshotWriter * Disk :=
  let key_len := u32 (zlen k) in
  let wd := put_summed (le_split 4 key_len) wd in
  let wd := put_summed (take (Z.to_nat key_len) k) wd in
  let value_len := u32 (zlen (value v)) in
  let wd := put_summed (le_split 4 value_len) wd in
  let wd := put_summed (take (Z.to_nat value_len) (value v)) wd in
  let wd := put_summed (le_split 8 (expiry_ns v)) wd in
  let wd := put_summed (le_split 8 (access_count v)) wd in
  put_summed (le_split 8 (last_access_ns v)) wd.

(** [SnapshotWriter::size]: [stat] of the path. *)
Definition snapshot_size (w : SnapshotWriter) (d : Disk) : Z :=
  zlen (contents_of d (sw_filepath w)).

(** ** SnapshotReader *)

Record SnapshotReader := mkSnapshotReader {
  sr_file : ifstream;
  stored_crc_ : Z;
  computed_crc_ : Z;
}.

(** [SnapshotReader::SnapshotReader]; [None] is the [runtime_error]. *)
Definition open_snapshot_reader (filepath : bytes) (d : Disk) : option SnapshotReader :=
  match open_in d filepath with
  | None => None
  | Some s => Some (mkSnapshotReader s 0 crc_reset)
  end.

(** The value of an 8-byte integer variable after [file_.read(&x, sizeof x)]
    when it was [old] before: a short read overwrites only the first bytes. *)
Definition fill (old : Z) (got : bytes) : Z :=
  le_combine (got ++ drop (length got) (le_split 8 old)).

(** The step all fields of an entry share: read [n] bytes, return false when
    [gcount()] is not [n], and add them to the checksum otherwise. *)
Definition read_summed (d : Disk) (n : Z) (rd : SnapshotReader) : option bytes * SnapshotReader :=
  let '(bs, s) := read d (sr_file rd) n in
  if negb (zlen bs =? n) then (None, mkSnapshotReader s (stored_crc_ rd) (computed_crc_ rd))
  else (Some bs, mkSnapshotReader s (stored_crc_ rd) (update bs (computed_crc_ rd))).

(** Early return of [false] in the reader. *)
Definition reader (A : Type) : Type := SnapshotReader → option A * SnapshotReader.

Definition reader_bind {A B} (m : reader A) (f : A → reader B) : reader B :=
  λ rd, match m rd with (Some a, rd) => f a rd | (None, rd) => (None, rd) end.

Definition reader_ret {A} (a : A) : reader A := λ rd, (Some a, rd).

Notation "'let!' x := m 'in' f" := (reader_bind m (λ x, f))
  (at level 10, x name, f at level 200) : kv_scope.

Definition read_entry (d : Disk) : reader (bytes * ValueEntry) :=
  let! key_len := read_summed d 4 in
  let! key := read_summed d (le_combine key_len) in
  let! value_len := read_summed d 4 in
  let! val := read_summed d (le_combine value_len) in
  let! expiry := read_summed d 8 in
  let! count := read_summed d 8 in
  let! last := read_summed d 8 in
  reader_ret (key, mkValueEntry val (le_combine count) (le_combine last) (le_combine expiry)).

Definition verify_checksum (rd : SnapshotReader) : bool :=
  finalize (computed_crc_ rd) =? stored_crc_ rd.

Section snapshot.
Context {P : Type} `{!EvictionPolicy P}.
Implicit Types t : HashTable P.

(** [SnapshotWriter::write]; [good()] holds, for the model's disk has room. *)
Definition write (t : HashTable P) (wd : SnapshotWriter * Disk) : bool * (SnapshotWriter * Disk) :=
  let '(w, d) := wd in
  let wd := (mkSnapshotWriter (sw_filepath w) (sw_pos w) crc_reset, d) in
  let wd := put_summed (le_split 8 SNAPSHOT_MAGIC) wd in
  let crc_pos := sw_pos wd.1 in
  let wd := put (le_split 8 0) wd in
  let wd := put_summed (le_split 8 (ht_size t)) wd in
  let wd := fold_left (λ wd '(k, v), write_entry k v wd) (for_each t) wd in
  let final_crc := finalize (sw_crc wd.1) in
  let wd := (mkSnapshotWriter (sw_filepath wd.1) crc_pos (sw_crc wd.1), wd.2) in
  (true, put (le_split 8 final_crc) wd).

Definition set_disk (d : Disk) (t : HashTable P) : HashTable P :=
  mkTable (buckets_ t) (num_entries_ t) (policy_ t) (wal_writer_ t) (wal_path_ t) d.

(** [create_snapshot]; [None]: the writer's constructor threw. *)
Definition create_snapshot (path : bytes) (t : HashTable P) : option (bool * HashTable P) :=
  match open_snapshot_writer path (disk t) with
  | None => None
  | Some wd => let '(ok, (_, d)) := write t wd in Some (ok, set_disk d t)
  end.

(** One iteration of the loop of [SnapshotReader::read]. *)
Definition read_body (st : SnapshotReader * HashTable P)
  : (SnapshotReader * HashTable P) + (bool * SnapshotReader * HashTable P) :=
  let '(rd, t) := st in
  match read_entry (disk t) rd with
  | (None, rd) => inr (false, rd, t)
  | (Some (key, value), rd) => inl (rd, (insert key value t).2)
  end.

(** [SnapshotReader::read]. [junk] are the indeterminate values of the locals
    [magic] and [num_entries], of which a short read leaves bytes in place. *)
Definition read_snapshot (junk : Z * Z) (rd : SnapshotReader) (t : HashTable P)
  : bool * SnapshotReader * HashTable P :=
  let '(b, s) := read (disk t) (sr_file rd) 8 in
  let magic := fill junk.1 b in
  if negb (magic =? SNAPSHOT_MAGIC)
  then (false, mkSnapshotReader s (stored_crc_ rd) crc_reset, t)
  else
    let crc := update (le_split 8 magic) crc_reset in
    let '(b, s) := read (disk t) s 8 in
    let stored := fill (stored_crc_ rd) b in
    let '(b, s) := read (disk t) s 8 in
    let num_entries := fill junk.2 b in
    let crc := update (le_split 8 num_entries) crc in
    match for_loop read_body num_entries (mkSnapshotReader s stored crc, t) with
    | inl (rd, t) => (true, rd, t)
    | inr result => result
    end.

(** [load_snapshot]; [None]: the reader's constructor threw. *)
Definition load_snapshot (junk : Z * Z) (path : bytes) (t : HashTable P)
  : option (bool * HashTable P) :=
  match open_snapshot_reader path (disk t) with
  | None => None
  | Some rd =>
      let '(success, rd, t) := read_snapshot junk rd t in
      if success && negb (verify_checksum rd) then Some (false, t) else Some (success, t)
  end.
End snapshot.

(** ** The format *)

Definition encode_entry (k : bytes) (v : ValueEntry) : bytes :=
  le_split 4 (u32 (zlen k)) ++ take (Z.to_nat (u32 (zlen k))) k
    ++ le_split 4 (u32 (zlen (value v))) ++ take (Z.to_nat (u32 (zlen (value v)))) (value v)
    ++ le_split 8 (expiry_ns v) ++ le_split 8 (access_count v) ++ le_split 8 (last_access_ns v).

Definition encode_entries (es : list (bytes * ValueEntry)) : bytes :=
  mbind (λ e, encode_entry e.1 e.2) es.

(** What follows the stored checksum. *)
Definition payload (n : Z) (es : list (bytes * ValueEntry)) : bytes :=
  le_split 8 n ++ encode_entries es.

Definition checksum (body : bytes) : Z := update (le_split 8 SNAPSHOT_MAGIC ++ body) crc_reset.

Definition snapshot_file (crc : Z) (body : bytes) : bytes :=
  le_split 8 SNAPSHOT_MAGIC ++ le_split 8 crc ++ body.

(** An entry whose fields fit those of the format. *)
Definition entry_fits (e : bytes * ValueEntry) : Prop :=
  zlen e.1 < 2 ^ 32 ∧ zlen (value e.2) < 2 ^ 32 ∧ 0 <= expiry_ns e.2 < 2 ^ 64
  ∧ 0 <= access_count e.2 < 2 ^ 64 ∧ 0 <= last_access_ns e.2 < 2 ^ 64.

Lemma encode_entries_cons e es : encode_entries (e :: es) = encode_entry e.1 e.2 ++ encode_entries es.
Proof. done. Qed.

Lemma length_payload n es : length (payload n es) = (8 + length (encode_entries es))%nat.
Proof. unfold payload. by rewrite length_app, length_le_split. Qed.

Lemma encode_entry_long k v : (32 <= length (encode_entry k v))%nat.
Proof. unfold encode_entry. rewrite !length_app, !length_le_split. lia. Qed.

(** ** What the writer writes *)

(** The stream is at the end of its file, and the rest of the disk is that of
    [d0]. *)
Definition at_end (d0 : Disk) (path c : bytes) (crc : Z) (wd : SnapshotWriter * Disk) : Prop :=
  sw_filepath wd.1 = path ∧ sw_pos wd.1 = length c ∧ sw_crc wd.1 = crc
  ∧ wd.2 = set_file d0 path c.

Lemma overwrite_end c bs : overwrite c bs (length c) = c ++ bs.
Proof. unfold overwrite. by rewrite firstn_all, drop_ge, app_nil_r by lia. Qed.

Lemma set_file_twice d path c c' : set_file (set_file d path c) path c' = set_file d path c'.
Proof. unfold set_file. simpl. by rewrite insert_insert_eq. Qed.

Lemma put_end d0 path c crc bs wd :
  at_end d0 path c crc wd → at_end d0 path (c ++ bs) crc (put bs wd).
Proof.
  destruct wd as [w d]. intros (Hf & Hpos & Hcrc & Hd). unfold at_end. simpl in *. subst path d.
  by rewrite Hpos, contents_of_set_file, overwrite_end, set_file_twice, length_app.
Qed.

Lemma put_summed_end d0 path c crc bs wd :
  at_end d0 path c crc wd → at_end d0 path (c ++ bs) (update bs crc) (put_summed bs wd).
Proof.
  intros H. apply (put_end d0 path c crc bs) in H as (Hf & Hpos & Hcrc & Hc).
  unfold put_summed. destruct (put bs wd) as [w d]. unfold at_end. simpl in *. by rewrite Hcrc.
Qed.

Lemma write_entry_end d0 path c crc k v wd :
  at_end d0 path c crc wd →
  at_end d0 path (c ++ encode_entry k v) (update (encode_entry k v) crc) (write_entry k v wd).
Proof.
  intros H. unfold write_entry, encode_entry. rewrite !update_app, !app_assoc.
  by do 7 apply put_summed_end.
Qed.

Lemma write_entries_end d0 path c crc es wd :
  at_end d0 path c crc wd →
  at_end d0 path (c ++ encode_entries es) (update (encode_entries es) crc)
    (fold_left (λ wd '(k, v), write_entry k v wd) es wd).
Proof.
  revert c crc wd. induction es as [|[k v] es IH]; intros c crc wd H; cbn [fold_left].
  - change (encode_entries []) with ([] : bytes). by rewrite app_nil_r.
  - rewrite encode_entries_cons, update_app, app_assoc. by apply IH, write_entry_end.
Qed.

Lemma overwrite_middle a b c b' :
  length b' = length b → overwrite (a ++ b ++ c) b' (length a) = a ++ b' ++ c.
Proof.
  intros Hl. unfold overwrite. rewrite take_app_length, Hl, <- drop_drop, drop_app_length.
  by rewrite drop_app_length.
Qed.

Section written.
Context {P : Type} `{!EvictionPolicy P}.
Implicit Types t : HashTable P.

(** The whole file of a snapshot, and nothing else on the disk. *)
Lemma create_snapshot_file path t r :
  create_snapshot path t = Some r →
  (path ∉ denied (disk t)) ∧
  let body := payload (ht_size t) (for_each t) in
  r = (true, set_disk (set_file (disk t) path (snapshot_file (checksum body) body)) t).
Proof.
  unfold create_snapshot, open_snapshot_writer, open_trunc.
  case_decide as Hden; [done|]. intros [= <-]. split; [done|].
  set (wd0 := (mkSnapshotWriter path 0 crc_reset, set_file (disk t) path [])).
  assert (at_end (disk t) path [] crc_reset wd0) as H by done.
  apply (put_summed_end _ _ _ _ (le_split 8 SNAPSHOT_MAGIC)) in H.
  apply (put_end _ _ _ _ (le_split 8 0)) in H.
  apply (put_summed_end _ _ _ _ (le_split 8 (ht_size t))) in H.
  apply (write_entries_end _ _ _ _ (for_each t)) in H as (Hf & _ & Hcrc & Hd).
  unfold write. cbn [sw_filepath sw_pos fst snd]. fold wd0.
  destruct (fold_left _ (for_each t) _) as [w d]. cbn [sw_filepath sw_pos sw_crc fst snd] in *.
  do 2 f_equal. rewrite Hf, Hd, contents_of_set_file, set_file_twice. f_equal.
  rewrite app_nil_l, <- !app_assoc, overwrite_middle by by rewrite !length_le_split.
  unfold snapshot_file, checksum, finalize, payload. by rewrite Hcrc, <- !update_app.
Qed.
End written.

(** ** The entry grammar

    [decode_entry] is the reference that [read_entry] implements on a
    stream. *)

Definition decode_entry (p : bytes) : option (bytes * ValueEntry * bytes) :=
  '(b_kl, p1) ← split_at 4 p;
  '(key, p2) ← split_at (le_combine b_kl) p1;
  '(b_vl, p3) ← split_at 4 p2;
  '(val, p4) ← split_at (le_combine b_vl) p3;
  '(b_exp, p5) ← split_at 8 p4;
  '(b_cnt, p6) ← split_at 8 p5;
  '(b_last, p7) ← split_at 8 p6;
  Some ((key, mkValueEntry val (le_combine b_cnt) (le_combine b_last) (le_combine b_exp)), p7).

(** Take a successful [decode_entry] apart, field by field. *)
Ltac decode_entry_fields H :=
  repeat (let a := fresh "f" in let b := fresh "p" in let E := fresh "Ef" in
          apply bind_Some_pair in H as (a & b & E & H));
  simplify_eq.

Lemma decode_entry_app p q e rest :
  decode_entry p = Some (e, rest) → decode_entry (p ++ q) = Some (e, rest ++ q).
Proof.
  unfold decode_entry. intros H. decode_entry_fields H.
  repeat (erewrite split_at_app; [|solve [eauto with kv|lia]|eassumption]; simpl). done.
Qed.

Lemma le8_small z : 0 <= z < 2 ^ 64 → le_combine (le_split 8 z) = z.
Proof. apply (le_roundtrip 8). Qed.

Lemma decode_encode_entry e rest :
  entry_fits e → decode_entry (encode_entry e.1 e.2 ++ rest) = Some (e, rest).
Proof.
  intros (Hk & Hv & He & Hc & Hl). destruct e as [k v]. simpl in *.
  pose proof (zlen_nonneg k). pose proof (zlen_nonneg (value v)).
  unfold encode_entry. rewrite !u32_small by lia.
  rewrite !take_ge by (unfold zlen; lia). unfold decode_entry. rewrite <- !app_assoc.
  repeat (rewrite split_at_front
            by (rewrite ?le4_small by lia; done || apply zlen_le_split);
          cbn [mbind option_bind]).
  rewrite !le8_small by done. by destruct v.
Qed.

Lemma decode_entry_torn e n :
  entry_fits e → (n < length (encode_entry e.1 e.2))%nat →
  decode_entry (take n (encode_entry e.1 e.2)) = None.
Proof.
  intros Hf Hn. destruct (decode_entry _) as [[e' rest]|] eqn:E; [|done].
  apply (decode_entry_app _ (drop n (encode_entry e.1 e.2))) in E. rewrite take_drop in E.
  pose proof (decode_encode_entry e [] Hf) as E'. rewrite app_nil_r, E in E'.
  injection E' as _ E'. apply app_eq_nil in E' as [_ E'].
  apply (f_equal length) in E'. rewrite length_drop in E'. simpl in E'. lia.
Qed.

(** ** What the reader reads *)

(** The part of the file [c] that a reader has not read. *)
Definition left_of (c : bytes) (rd : SnapshotReader) : bytes := drop (is_pos (sr_file rd)) c.

(** [rd'] has read the bytes [bs] after [rd] and added them to the checksum. *)
Record follows (c : bytes) (rd : SnapshotReader) (bs : bytes) (rd' : SnapshotReader) : Prop := {
  fol_path : is_path (sr_file rd') = is_path (sr_file rd);
  fol_good : is_good (sr_file rd') = true;
  fol_left : left_of c rd = bs ++ left_of c rd';
  fol_stored : stored_crc_ rd' = stored_crc_ rd;
  fol_crc : computed_crc_ rd' = update bs (computed_crc_ rd);
}.

Lemma follows_nil c rd : is_good (sr_file rd) = true → follows c rd [] rd.
Proof. by split. Qed.

Lemma follows_app c rd1 rd2 rd3 a b :
  follows c rd1 a rd2 → follows c rd2 b rd3 → follows c rd1 (a ++ b) rd3.
Proof.
  intros [P1 G1 L1 S1 C1] [P2 G2 L2 S2 C2]. split; [congruence|done| |congruence|].
  - by rewrite L1, L2, app_assoc.
  - by rewrite C2, C1, update_app.
Qed.

(** The disk shows the file [c] to a reader in a good state. *)
Definition shows (d : Disk) (c : bytes) (rd : SnapshotReader) : Prop :=
  contents_of d (is_path (sr_file rd)) = c ∧ is_good (sr_file rd) = true.

Lemma shows_follows d c rd bs rd' : shows d c rd → follows c rd bs rd' → shows d c rd'.
Proof. intros [Hc _] []. split; congruence. Qed.

Lemma read_summed_split d c n rd :
  shows d c rd → 0 <= n →
  match split_at n (left_of c rd) with
  | Some (a, b) =>
      ∃ rd', read_summed d n rd = (Some a, rd') ∧ follows c rd a rd' ∧ left_of c rd' = b
  | None => (read_summed d n rd).1 = None
  end.
Proof.
  intros [<- Hg] Hn. unfold read_summed.
  change (left_of _ rd) with (unread d (sr_file rd)).
  destruct (split_at n _) as [[a b]|] eqn:E.
  - destruct (read_split_Some _ _ _ _ _ Hg Hn E) as (-> & Hz & Hrest).
    rewrite (proj2 (Z.eqb_eq _ _) Hz). simpl. eexists. split; [done|]. split; [|done].
    apply split_at_Some in E as [E _]; [|done]. split; try done.
    change (left_of _ rd) with (unread d (sr_file rd)). rewrite E. f_equal. by rewrite <- Hrest.
  - apply read_split_None in E. destruct (read d (sr_file rd) n) as [bs s]. simpl in E.
    by rewrite (proj2 (Z.eqb_neq _ _) E).
Qed.

Lemma reader_bind_Some {A B} (m : reader A) (f : A → reader B) rd a rd' :
  m rd = (Some a, rd') → reader_bind m f rd = f a rd'.
Proof. unfold reader_bind. by intros ->. Qed.

Lemma reader_bind_None {A B} (m : reader A) (f : A → reader B) rd :
  (m rd).1 = None → (reader_bind m f rd).1 = None.
Proof. unfold reader_bind. by destruct (m rd) as [[?|] ?]. Qed.

(** One field of [read_entry] against one step of [decode_entry]. *)
Ltac read_summed_field Hs :=
  match goal with
  | |- context [split_at ?n (left_of ?c ?rd)] =>
      let H := fresh "H" in
      let Hf := fresh "Hf" in
      let rd' := fresh "rd" in
      let Hs' := fresh "Hs" in
      pose proof (read_summed_split _ _ n _ Hs ltac:(eauto with kv lia)) as H;
      destruct (split_at n (left_of c rd)) as [[? ?]|];
      [ destruct H as (rd' & H & Hf & <-); rewrite (reader_bind_Some _ _ _ _ _ H);
        pose proof (shows_follows _ _ _ _ _ Hs Hf) as Hs'; clear Hs; rename Hs' into Hs;
        cbn [mbind option_bind]
      | by apply reader_bind_None ]
  end.

Lemma read_entry_decode d c rd :
  shows d c rd →
  match decode_entry (left_of c rd) with
  | Some (e, rest) =>
      ∃ rd' bs, read_entry d rd = (Some e, rd') ∧ follows c rd bs rd' ∧ left_of c rd' = rest
  | None => (read_entry d rd).1 = None
  end.
Proof.
  intros Hs. unfold decode_entry, read_entry.
  do 7 read_summed_field Hs.
  eexists _, _. split; [done|]. split; [|done].
  repeat (eapply follows_app; [eassumption|]). apply follows_nil. apply Hs.
Qed.

Lemma fill_full old z : 0 <= z < 2 ^ 64 → fill old (le_split 8 z) = z.
Proof.
  intros Hz. unfold fill. rewrite length_le_split, drop_ge, app_nil_r by by rewrite length_le_split.
  by apply le8_small.
Qed.

Section reading.
Context {P : Type} `{!EvictionPolicy P}.
Implicit Types t : HashTable P.

(** The table sees the file [c] at [path], and its own log is another file. *)
Definition serves (path c : bytes) (t : HashTable P) : Prop :=
  (path ∉ denied (disk t)) ∧ files (disk t) !! path = Some c
  ∧ ∀ w, wal_writer_ t = Some w → filepath_ w ≠ path.

Lemma log_record_serves path c r t : serves path c t → serves path c (log_record r t).
Proof.
  intros (Hd & Hf & Hw). unfold log_record, serves. destruct (wal_writer_ t) as [w|] eqn:E.
  2: { rewrite E. done. }
  specialize (Hw w eq_refl). destruct (append_frame r (w, disk t)) as (Hp & _ & Hdn & Hne).
  pose proof (append_present path r (w, disk t) ltac:(eauto)) as Hpr.
  destruct (append r (w, disk t)) as [w' d']. simpl in *. split_and!.
  - by rewrite Hdn.
  - apply contents_of_Some; [done|]. rewrite Hne by congruence. unfold contents_of. by rewrite Hf.
  - intros w'' [= <-]. congruence.
Qed.

Lemma insert_serves path c k v t : serves path c t → serves path c (insert k v t).2.
Proof. apply (insert_frame (serves path c)); auto using log_record_serves. Qed.

Lemma serves_contents path c t : serves path c t → contents_of (disk t) path = c.
Proof. intros (_ & Hf & _). unfold contents_of. by rewrite Hf. Qed.

Definition insert_all (es : list (bytes * ValueEntry)) (t : HashTable P) : HashTable P :=
  fold_left (λ t e, (insert e.1 e.2 t).2) es t.

(** A reader of the file [c] at [path], in a good state. *)
Definition reading (path : bytes) (rd : SnapshotReader) : Prop :=
  is_path (sr_file rd) = path ∧ is_good (sr_file rd) = true.

Lemma reading_follows path c rd bs rd' : reading path rd → follows c rd bs rd' → reading path rd'.
Proof. intros [? ?] []. split; congruence. Qed.

Lemma read_body_decode path c rd t :
  serves path c t → reading path rd →
  match decode_entry (left_of c rd) with
  | Some (e, rest) =>
      ∃ rd' bs, read_body (rd, t) = inl (rd', (insert e.1 e.2 t).2)
      ∧ follows c rd bs rd' ∧ left_of c rd' = rest
  | None => ∃ rd', read_body (rd, t) = inr (false, rd', t)
  end.
Proof.
  intros Hs%serves_contents [Hp Hg]. unfold read_body.
  pose proof (read_entry_decode (disk t) c rd) as H.
  destruct (decode_entry (left_of c rd)) as [[e rest]|].
  - destruct H as (rd' & bs & -> & Hf & Hrest); [by split; [rewrite Hp|]|].
    destruct e as [k v]. eauto.
  - specialize (H ltac:(by split; [rewrite Hp|])).
    destruct (read_entry (disk t) rd) as [[?|] ?]; [done|]. eauto.
Qed.

(** Entries that are there are all inserted. *)
Lemma read_loop_whole path c es rest rd t :
  serves path c t → reading path rd → Forall entry_fits es →
  left_of c rd = encode_entries es ++ rest →
  ∃ rd', for_nat read_body (length es) (rd, t) = inl (rd', insert_all es t)
  ∧ follows c rd (encode_entries es) rd' ∧ left_of c rd' = rest.
Proof.
  revert rd t. induction es as [|e es IH]; intros rd t Hs Hr Hfit Hl.
  - exists rd. split_and!; [done| |done]. apply follows_nil, Hr.
  - apply Forall_cons in Hfit as [He Hfit].
    rewrite encode_entries_cons, <- app_assoc in Hl.
    pose proof (read_body_decode path c rd t Hs Hr) as H. rewrite Hl, decode_encode_entry in H by done.
    destruct H as (rd1 & bs & Hb & Hf1 & Hrest). cbn [for_nat length]. rewrite Hb.
    destruct (IH rd1 (insert e.1 e.2 t).2) as (rd' & Hloop & Hf & Hl');
      [by apply insert_serves|by eapply reading_follows|done|done|].
    exists rd'. split_and!; [done| |done]. rewrite encode_entries_cons.
    assert (bs = encode_entry e.1 e.2) as <-; [|by eapply follows_app].
    pose proof (fol_left _ _ _ _ Hf1) as Hbs. rewrite Hl, Hrest in Hbs.
    by apply app_inv_tail in Hbs.
Qed.

(** Entries cut short: the loop leaves with false, after the whole ones. *)
Lemma read_loop_torn_entries path c es m rd t :
  serves path c t → reading path rd → Forall entry_fits es →
  (m < length (encode_entries es))%nat → left_of c rd = take m (encode_entries es) →
  ∃ j rd', for_nat read_body (length es) (rd, t) = inr (false, rd', insert_all (take j es) t).
Proof.
  revert m rd t. induction es as [|e es IH]; intros m rd t Hs Hr Hfit Hm Hl; [simpl in Hm; lia|].
  apply Forall_cons in Hfit as [He Hfit]. rewrite encode_entries_cons in Hl, Hm.
  pose proof (read_body_decode path c rd t Hs Hr) as H. cbn [for_nat length].
  destruct (decide (m < length (encode_entry e.1 e.2))%nat) as [Hlt|Hge].
  - rewrite take_app_le in Hl by lia. rewrite Hl, decode_entry_torn in H by done.
    destruct H as [rd' ->]. by exists 0%nat, rd'.
  - rewrite take_app_ge in Hl by lia. rewrite Hl, decode_encode_entry in H by done.
    destruct H as (rd1 & bs & -> & Hf & Hrest). rewrite length_app in Hm.
    destruct (IH (m - length (encode_entry e.1 e.2))%nat rd1 (insert e.1 e.2 t).2)
      as (j & rd' & ->); [by apply insert_serves|by eapply reading_follows|done|lia|done|].
    by exists (S j), rd'.
Qed.

(** Whatever the loop reads, it adds to the checksum. *)
Lemma read_loop_follows path c n rd t rd' t' :
  serves path c t → reading path rd →
  for_nat read_body n (rd, t) = inl (rd', t') → ∃ bs, follows c rd bs rd'.
Proof.
  revert rd t. induction n as [|n IH]; intros rd t Hs Hr H.
  - injection H as <- <-. exists []. apply follows_nil, Hr.
  - cbn [for_nat] in H. pose proof (read_body_decode path c rd t Hs Hr) as Hd.
    destruct (decode_entry (left_of c rd)) as [[e rest]|].
    + destruct Hd as (rd1 & bs & Hb & Hf & _). rewrite Hb in H.
      destruct (IH rd1 (insert e.1 e.2 t).2) as [bs' Hf'];
        [by apply insert_serves|by eapply reading_follows|done|].
      exists (bs ++ bs'). by eapply follows_app.
    + destruct Hd as [? Hb]. by rewrite Hb in H.
Qed.

(** The reader behind the header. *)
Definition after_header (path : bytes) (crc n : Z) : SnapshotReader :=
  mkSnapshotReader (mkIfstream path 24 true) crc
    (update (le_split 8 SNAPSHOT_MAGIC ++ le_split 8 n) crc_reset).

Lemma after_header_left path crc n rest :
  left_of (snapshot_file crc (le_split 8 n ++ rest)) (after_header path crc n) = rest.
Proof.
  unfold left_of, after_header, snapshot_file. simpl. rewrite !app_assoc.
  apply drop_app_length'. by rewrite !length_app, !length_le_split.
Qed.

(** The next 8-byte field of a file. *)
Lemma read_le8 d s z rest :
  is_good s = true → unread d s = le_split 8 z ++ rest →
  read d s 8 = (le_split 8 z, advance s 8) ∧ unread d (advance s 8) = rest.
Proof.
  intros Hg Hu. split.
  - erewrite read_full by (done || apply zlen_le_split). by rewrite length_le_split.
  - apply (unread_advance d s 8 (le_split 8 z) rest Hu). by rewrite length_le_split.
Qed.

Lemma magic_range : 0 <= SNAPSHOT_MAGIC < 2 ^ 64.
Proof. done. Qed.

(** [read] of a file with a whole header. *)
Lemma read_snapshot_body junk path crc n rest rd0 t :
  serves path (snapshot_file crc (le_split 8 n ++ rest)) t →
  open_snapshot_reader path (disk t) = Some rd0 →
  0 <= crc < 2 ^ 64 → 0 <= n < 2 ^ 64 →
  read_snapshot junk rd0 t
  = match for_nat read_body (Z.to_nat n) (after_header path crc n, t) with
    | inl (rd, t') => (true, rd, t')
    | inr result => result
    end.
Proof.
  intros Hs Hopen Hcrc Hn. pose proof Hs as (Hden & Hf & _).
  unfold open_snapshot_reader, open_in in Hopen. rewrite decide_False, Hf in Hopen by done.
  injection Hopen as <-. unfold read_snapshot. cbn [sr_file stored_crc_].
  set (s0 := mkIfstream path 0 true).
  assert (unread (disk t) s0 = snapshot_file crc (le_split 8 n ++ rest)) as Hu.
  { unfold unread. simpl. by rewrite (serves_contents _ _ _ Hs), drop_0. }
  unfold snapshot_file in Hu. apply read_le8 in Hu as [-> Hu]; [|done].
  rewrite fill_full by apply magic_range. rewrite Z.eqb_refl. cbn [negb].
  apply read_le8 in Hu as [-> Hu]; [|done]. rewrite fill_full by done.
  apply read_le8 in Hu as [-> Hu]; [|done]. rewrite fill_full by done.
  rewrite for_loop_nat, <- update_app. unfold after_header, advance, s0.
  by cbn [is_path is_pos Nat.add].
Qed.

Lemma open_reader_serves path c t :
  serves path c t →
  open_snapshot_reader path (disk t) = Some (mkSnapshotReader (mkIfstream path 0 true) 0 crc_reset).
Proof.
  intros (Hden & Hf & _). unfold open_snapshot_reader, open_in.
  by rewrite decide_False, Hf by done.
Qed.

(** The loop leaves early only with false. *)
Lemma read_loop_inr n st ok rd t : for_nat read_body n st = inr (ok, rd, t) → ok = false.
Proof.
  revert st. induction n as [|n IH]; intros [rd0 t0]; cbn [for_nat]; [done|]. unfold read_body at 1.
  destruct (read_entry (disk t0) rd0) as [[[k v]|] rd1]; [apply IH|]. by intros [= <- _ _].
Qed.

Lemma load_snapshot_body junk path crc n rest t :
  serves path (snapshot_file crc (le_split 8 n ++ rest)) t →
  0 <= crc < 2 ^ 64 → 0 <= n < 2 ^ 64 →
  load_snapshot junk path t
  = match for_nat read_body (Z.to_nat n) (after_header path crc n, t) with
    | inl (rd, t') => Some (verify_checksum rd, t')
    | inr (_, _, t') => Some (false, t')
    end.
Proof.
  intros Hs Hcrc Hn. unfold load_snapshot. pose proof (open_reader_serves _ _ _ Hs) as Ho.
  rewrite Ho, (read_snapshot_body junk path crc n rest _ t Hs Ho Hcrc Hn).
  destruct (for_nat _ _ _) as [[rd t']|[[ok rd] t']] eqn:E.
  - by destruct (verify_checksum rd).
  - by apply read_loop_inr in E as ->.
Qed.

(** ** Inserting the entries of a snapshot *)

Definition entry_bytes (es : list (bytes * ValueEntry)) : Z :=
  foldr (λ e n, zlen (value e.2) + n) 0 es.

Lemma entry_bytes_nonneg es : 0 <= entry_bytes es.
Proof. induction es as [|e es IH]; simpl; [lia|]. pose proof (zlen_nonneg (value e.2)). lia. Qed.

Lemma entry_bytes_total es :
  NoDup es.*1 → total (list_to_map es : gmap bytes ValueEntry) = entry_bytes es.
Proof.
  induction es as [|[k v] es IH]; [done|]. cbn [fmap list_fmap fst]. intros [Hk Hnd]%NoDup_cons.
  cbn [list_to_map entry_bytes foldr fst snd uncurry]. rewrite total_insert, delete_id.
  - by rewrite IH.
  - by apply not_elem_of_list_to_map_1.
Qed.

Lemma insert_all_contents es t :
  ht_inv t → acct t → NoDup es.*1 →
  total (contents t) + entry_bytes es <= pol_limit (policy_ t) < 2 ^ 64 →
  ht_inv (insert_all es t) ∧ contents (insert_all es t) = list_to_map es ∪ contents t
  ∧ acct (insert_all es t) ∧ pol_limit (policy_ (insert_all es t)) = pol_limit (policy_ t).
Proof.
  revert t. induction es as [|[k v] es IH]; intros t Hinv Ha Hnd Hlim.
  { split_and!; try done. symmetry. apply (left_id_L ∅ (∪)). }
  cbn [fmap list_fmap fst] in Hnd. apply NoDup_cons in Hnd as [Hk Hnd].
  cbn [entry_bytes foldr snd] in Hlim. fold (entry_bytes es) in Hlim.
  pose proof (entry_bytes_nonneg es). pose proof (zlen_nonneg (value v)).
  assert (pol_should_evict (policy_ t) = false) as Hev.
  { rewrite pol_should_evict_spec. apply Z.ltb_ge. destruct Ha as [-> _]. lia. }
  destruct (insert_acct k v t Hinv Ha) as [Ha' Hl']; [lia|].
  pose proof (insert_contents k v t Hinv) as Hc. rewrite before_insert_id in Hc by done.
  destruct (IH (insert k v t).2) as (Hinv' & Hc' & Ha'' & Hl''); [by apply insert_inv|done|done| |].
  - rewrite Hl', Hc, total_insert. pose proof (total_delete_le (contents t) k). lia.
  - change (insert_all ((k, v) :: es) t) with (insert_all es (insert k v t).2).
    split_and!; [done| |done|congruence].
    rewrite Hc', Hc. cbn [list_to_map foldr uncurry fst snd].
    rewrite <- insert_union_l, insert_union_r; [done|]. by apply not_elem_of_list_to_map_1.
Qed.

Lemma for_each_contents t : contents t = list_to_map (for_each t).
Proof. done. Qed.

Lemma for_each_nodup t : ht_inv t → NoDup (for_each t).*1.
Proof. intros H. unfold for_each. rewrite pmap_fst. apply (store_nodup _ (ht_store t H)). Qed.

Lemma ht_size_for_each t : ht_inv t → zlen (for_each t) < 2 ^ 64 → ht_size t = zlen (for_each t).
Proof.
  intros H Hlt. unfold ht_size. rewrite (ht_count t H). unfold for_each, zlen in *.
  rewrite length_fmap in *. apply u64_small. lia.
Qed.
End reading.

(** ** Claims *)

Section claims.
Context {P Q : Type} `{!EvictionPolicy P, !EvictionPolicy Q}.
Implicit Types (t : HashTable P) (r : HashTable Q).

(** Loading the entries of [t] with a checksum field [crc]. *)
Lemma load_entries junk path crc t r :
  ht_inv t → zlen (for_each t) < 2 ^ 64 → Forall entry_fits (for_each t) →
  ht_inv r → acct r → total (contents t) + total (contents r) <= pol_limit (policy_ r) < 2 ^ 64 →
  0 <= crc < 2 ^ 64 →
  let body := payload (ht_size t) (for_each t) in
  serves path (snapshot_file crc body) r →
  ∃ r', load_snapshot junk path r = Some (checksum body =? crc, r')
  ∧ contents r' = contents t ∪ contents r ∧ ht_inv r' ∧ acct r' ∧ pol_limit (policy_ r') = pol_limit (policy_ r)
  ∧ r' = insert_all (for_each t) r.
Proof.
  intros Hinv Hlen Hfits Hr Ha Hlim Hcrc body Hs.
  pose proof (ht_size_for_each t Hinv Hlen) as Hsz. pose proof (zlen_nonneg (for_each t)).
  pose proof (for_each_nodup t Hinv) as Hnd.
  exists (insert_all (for_each t) r).
  rewrite (load_snapshot_body junk path crc (ht_size t) (encode_entries (for_each t)) r Hs) by lia.
  destruct (read_loop_whole path _ (for_each t) [] (after_header path crc (ht_size t)) r Hs)
    as (rd' & Hloop & Hf & _); [done|done|unfold body, payload; by rewrite after_header_left, app_nil_r|].
  rewrite Hsz in *. unfold zlen at 1. rewrite Nat2Z.id, Hloop. split.
  - unfold verify_checksum, finalize. rewrite (fol_crc _ _ _ _ Hf), (fol_stored _ _ _ _ Hf).
    unfold body, payload, checksum. simpl. by rewrite <- !update_app, Hsz, <- !app_assoc.
  - destruct (insert_all_contents (for_each t) r) as (? & ? & ? & ?); [done..| |done].
    rewrite <- entry_bytes_total by done. rewrite <- for_each_contents. lia.
Qed.
Lemma checksum_range body : 0 <= checksum body < 2 ^ 64.
Proof.
  pose proof (update_range (le_split 8 SNAPSHOT_MAGIC ++ body) crc_reset) as H.
  unfold checksum. destruct H as [? ?]; [|done|lia].
  intros H%(f_equal length). rewrite length_app, length_le_split in H. simpl in H. lia.
Qed.

(** C13: a snapshot restores the table it was taken of. Loading it into any
    table with room for both, whatever its policy and number of buckets,
    succeeds and adds exactly the stored entries, with their access metadata;
    entries of the same key are replaced, others stay. *)
Theorem snapshot_roundtrip junk path t t1 r :
  ht_inv t → zlen (for_each t) < 2 ^ 64 → Forall entry_fits (for_each t) →
  create_snapshot path t = Some (true, t1) →
  ht_inv r → acct r → total (contents t) + total (contents r) <= pol_limit (policy_ r) < 2 ^ 64 →
  serves path (contents_of (disk t1) path) r →
  ∃ r', load_snapshot junk path r = Some (true, r')
  ∧ contents r' = contents t ∪ contents r ∧ ht_inv r'.
Proof.
  intros Hinv Hlen Hfits (_ & [= ->])%create_snapshot_file Hr Ha Hlim Hs.
  cbn [disk set_disk] in Hs. rewrite contents_of_set_file in Hs.
  destruct (load_entries junk path _ t r Hinv Hlen Hfits Hr Ha Hlim (checksum_range _) Hs) as (r' & Hl & Hc & Hi & _).
  rewrite Z.eqb_refl in Hl. eauto.
Qed.

(** The checksum is tested after the entries are in the table. A snapshot
    whose stored checksum is wrong is reported as corrupt, but every entry of
    it has been inserted and stays. *)
Theorem snapshot_bad_crc_keeps_entries junk path crc t r :
  ht_inv t → zlen (for_each t) < 2 ^ 64 → Forall entry_fits (for_each t) →
  ht_inv r → acct r → total (contents t) + total (contents r) <= pol_limit (policy_ r) < 2 ^ 64 →
  0 <= crc < 2 ^ 64 → crc ≠ checksum (payload (ht_size t) (for_each t)) →
  serves path (snapshot_file crc (payload (ht_size t) (for_each t))) r →
  ∃ r', load_snapshot junk path r = Some (false, r') ∧ contents r' = contents t ∪ contents r.
Proof.
  intros Hinv Hlen Hfits Hr Ha Hlim Hcrc Hne Hs.
  destruct (load_entries junk path crc t r Hinv Hlen Hfits Hr Ha Hlim Hcrc Hs)
    as (r' & Hl & Hc & _).
  rewrite (proj2 (Z.eqb_neq _ _) (not_eq_sym Hne)) in Hl. eauto.
Qed.

(** A snapshot cut anywhere behind its header is rejected. *)
Theorem snapshot_truncation_detected junk path m t t1 r :
  ht_inv t → zlen (for_each t) < 2 ^ 64 → Forall entry_fits (for_each t) →
  create_snapshot path t = Some (true, t1) →
  (24 <= m < length (contents_of (disk t1) path))%nat →
  serves path (take m (contents_of (disk t1) path)) r →
  ∃ r', load_snapshot junk path r = Some (false, r').
Proof.
  intros Hinv Hlen Hfits (_ & [= ->])%create_snapshot_file Hm Hs.
  cbn [disk set_disk] in *. rewrite contents_of_set_file in *.
  set (es := for_each t) in *. pose proof (ht_size_for_each t Hinv Hlen) as Hsz. fold es in Hsz.
  set (crc := checksum _) in *. pose proof (zlen_nonneg es).
  assert (take m (snapshot_file crc (payload (ht_size t) es))
    = snapshot_file crc (le_split 8 (ht_size t) ++ take (m - 24) (encode_entries es))) as Hcut.
  { unfold snapshot_file, payload. rewrite !take_app, !length_le_split.
    rewrite !take_ge by (rewrite length_le_split; lia). do 3 f_equal. f_equal. lia. }
  assert ((m - 24 < length (encode_entries es))%nat) as Hlt.
  { revert Hm. unfold snapshot_file, payload. rewrite !length_app, !length_le_split. lia. }
  rewrite Hcut in Hs. pose proof (checksum_range (payload (ht_size t) es)) as Hcrc. fold crc in Hcrc.
  rewrite (load_snapshot_body junk path crc (ht_size t) _ r Hs) by lia.
  destruct (read_loop_torn_entries path _ es (m - 24) (after_header path crc (ht_size t)) r Hs)
    as (j & rd' & Hloop); [done|done|done|apply after_header_left|].
  rewrite Hsz in *. unfold zlen at 1. rewrite Nat2Z.id, Hloop. eauto.
Qed.

(** The checksum a reader has verified when it stands at the end of the file
    covers the whole payload. *)
Lemma verified_checksum junk path crc body rd0 rd r r' :
  serves path (snapshot_file crc body) r → 0 <= crc < 2 ^ 64 → (8 <= length body)%nat →
  open_snapshot_reader path (disk r) = Some rd0 →
  read_snapshot junk rd0 r = (true, rd, r') → verify_checksum rd = true →
  left_of (snapshot_file crc body) rd = [] → crc = checksum body.
Proof.
  intros Hs Hcrc Hlen Ho Hread Hv Hleft.
  set (n := le_combine (take 8 body)).
  assert (le_split 8 n = take 8 body) as Hn.
  { unfold n. rewrite <- (split_le_combine (take 8 body)) at 2. by rewrite length_take_le. }
  assert (0 <= n < 2 ^ 64) as Hrange.
  { pose proof (le_combine_range (take 8 body)) as H. unfold zlen in H.
    by rewrite length_take_le in H. }
  assert (body = le_split 8 n ++ drop 8 body) as Hbody by by rewrite Hn, take_drop.
  rewrite Hbody in Hs, Hleft.
  rewrite (read_snapshot_body junk path crc n (drop 8 body) rd0 r Hs Ho Hcrc Hrange) in Hread.
  destruct (for_nat _ _ _) as [[rd1 t1]|[[ok rd1] t1]] eqn:E.
  - injection Hread as -> ->.
    apply (read_loop_follows path _ _ _ _ _ _ Hs) in E as [bs Hf]; [|done].
    pose proof (fol_left _ _ _ _ Hf) as Hl. rewrite after_header_left, Hleft, app_nil_r in Hl.
    unfold verify_checksum, finalize in Hv. apply Z.eqb_eq in Hv.
    rewrite (fol_crc _ _ _ _ Hf), (fol_stored _ _ _ _ Hf) in Hv. simpl in Hv.
    rewrite <- Hv, <- Hl, <- update_app. unfold checksum. by rewrite <- app_assoc, <- Hbody.
  - injection Hread as -> -> ->. by apply read_loop_inr in E.
Qed.

(** A window behind the header lies in the payload. *)
Lemma burst_in_payload n es pre x post :
  let body := payload n es in
  snapshot_file (checksum body) body = pre ++ x ++ post → (16 <= length pre)%nat →
  ∀ y, length x = length y →
  ∃ pre', body = pre' ++ x ++ post
  ∧ pre ++ y ++ post = snapshot_file (checksum body) (pre' ++ y ++ post)
  ∧ (8 <= length (pre' ++ y ++ post))%nat.
Proof.
  intros body Hf Hpre y Hxy. set (hd := le_split 8 SNAPSHOT_MAGIC ++ le_split 8 (checksum body)).
  assert (length hd = 16%nat) as Hhd by by unfold hd; rewrite length_app, !length_le_split.
  unfold snapshot_file in *. rewrite app_assoc in Hf. fold hd in Hf.
  assert (pre = hd ++ drop 16 pre) as Hp.
  { apply (f_equal (take 16)) in Hf. rewrite take_app_length' in Hf by done.
    rewrite take_app_le in Hf by done. by rewrite Hf, take_drop. }
  rewrite Hp, <- app_assoc in Hf. apply app_inv_head in Hf.
  exists (drop 16 pre). split_and!; [done| |].
  - rewrite Hp at 1. unfold hd. by rewrite <- !app_assoc.
  - apply (f_equal length) in Hf. unfold body in Hf. rewrite length_payload, !length_app in Hf.
    rewrite !length_app. lia.
Qed.

(** Corruption confined to seven consecutive bytes behind the stored
    checksum is detected: the load reports failure, unless the reader was led
    to stop before the end of the file. *)
Theorem snapshot_burst_detected junk path pre x y post t t1 r rd0 :
  create_snapshot path t = Some (true, t1) →
  contents_of (disk t1) path = pre ++ x ++ post → (16 <= length pre)%nat →
  length x = length y → (length x <= 7)%nat → x ≠ y →
  serves path (pre ++ y ++ post) r → open_snapshot_reader path (disk r) = Some rd0 →
  ∃ ok rd r', read_snapshot junk rd0 r = (ok, rd, r')
  ∧ (load_snapshot junk path r = Some (false, r') ∨ left_of (pre ++ y ++ post) rd ≠ []).
Proof.
  intros (_ & [= ->])%create_snapshot_file Hfile Hpre Hxy H7 Hne Hs Ho.
  cbn [disk set_disk] in Hfile. rewrite contents_of_set_file in Hfile.
  destruct (read_snapshot junk rd0 r) as [[ok rd] r'] eqn:Hread. exists ok, rd, r'. split; [done|].
  unfold load_snapshot. rewrite Ho, Hread.
  destruct ok, (verify_checksum rd) eqn:Hv; simpl; auto. right. intros Hleft.
  destruct (burst_in_payload _ _ _ _ _ Hfile Hpre y Hxy) as (pre' & Hbody & Hy & H8).
  rewrite Hy in Hs, Hleft.
  pose proof (verified_checksum junk path _ _ rd0 rd r r' Hs (checksum_range _) H8 Ho Hread Hv Hleft)
    as Hsum.
  apply Hne. rewrite Hbody in Hsum. unfold checksum in Hsum. rewrite !(app_assoc _ pre') in Hsum.
  apply update_burst in Hsum; [done| |done|done|done].
  intros Hnil%(f_equal length). rewrite length_app, length_le_split in Hnil. simpl in Hnil. lia.
Qed.

(** A file of at least eight bytes that does not start with the magic
    number is rejected, and the table is left as it was. *)
Theorem snapshot_wrong_magic_rejected junk path c r :
  serves path c r → (8 <= length c)%nat → take 8 c ≠ le_split 8 SNAPSHOT_MAGIC →
  load_snapshot junk path r = Some (false, r).
Proof.
  intros Hs Hlen Hmagic. unfold load_snapshot. rewrite (open_reader_serves _ _ _ Hs).
  unfold read_snapshot. cbn [sr_file stored_crc_].
  rewrite (read_full (disk r) _ 8 (take 8 c) (drop 8 c)); [|done| |].
  - assert (length (take 8 c) = 8%nat) as H8 by (rewrite length_take; lia).
    unfold fill. rewrite drop_ge, app_nil_r by (rewrite length_le_split; lia).
    destruct (Z.eqb_spec (le_combine (take 8 c)) SNAPSHOT_MAGIC) as [E|]; [|done].
    pose proof (split_le_combine (take 8 c)) as E'. by rewrite H8, E in E'.
  - unfold unread. simpl. by rewrite (serves_contents _ _ _ Hs), drop_0, take_drop.
  - unfold zlen. rewrite length_take. lia.
Qed.
End claims.

(** ** Witnesses *)

Definition blank (d : Disk) : HashTable LRU.LRUPolicy :=
  mkTable [[]; []] 0 (LRU.make 1000) None [] d.

Lemma blank_inv d : ht_inv (blank d).
Proof.
  destruct (make_table_spec 2 (LRU.make 1000) [] d (blank d)) as (? & _);
    [lia|apply LRU.make_inv|done..].
Qed.

(** Two entries, one of them with an expiry and access metadata. *)
Definition demo_saved : HashTable LRU.LRUPolicy :=
  (insert (str "b") (mkValueEntry (str "xy") 3 50 77)
     (insert (str "a") (demo_value "12345") (blank empty_disk)).2).2.

Lemma demo_saved_inv : ht_inv demo_saved.
Proof. apply insert_inv, insert_inv, blank_inv. Qed.

(** The snapshot of it. *)
Definition demo_snapshot : bytes :=
  let body := payload (ht_size demo_saved) (for_each demo_saved) in
  snapshot_file (checksum body) body.

Definition demo_disk (c : bytes) : Disk := set_file empty_disk (str "snap") c.

Lemma demo_created :
  create_snapshot (str "snap") demo_saved = Some (true, set_disk (demo_disk demo_snapshot) demo_saved).
Proof. vm_compute. done. Qed.

Lemma demo_serves c : serves (str "snap") c (blank (demo_disk c)).
Proof. done. Qed.

Lemma demo_entries_fit : Forall entry_fits (for_each demo_saved).
Proof.
  assert (for_each demo_saved
    = [(str "b", mkValueEntry (str "xy") 3 50 77); (str "a", demo_value "12345")]) as ->
    by (vm_compute; done).
  repeat constructor; done.
Qed.

Lemma snapshot_roundtrip_witness :
  ∃ r', load_snapshot (0, 0) (str "snap") (blank (demo_disk demo_snapshot)) = Some (true, r')
  ∧ contents r' = contents demo_saved ∪ contents (blank (demo_disk demo_snapshot))
  ∧ ht_inv r'.
Proof.
  apply (snapshot_roundtrip (0, 0) (str "snap") demo_saved _ _ demo_saved_inv
           ltac:(vm_compute; done) demo_entries_fit demo_created (blank_inv _)).
  - done.
  - vm_compute. split; done.
  - apply demo_serves.
Defined.

Lemma snapshot_bad_crc_keeps_entries_witness :
  let c := snapshot_file 0 (payload (ht_size demo_saved) (for_each demo_saved)) in
  ∃ r', load_snapshot (0, 0) (str "snap") (blank (demo_disk c)) = Some (false, r')
  ∧ contents r' = contents demo_saved ∪ contents (blank (demo_disk c)).
Proof.
  intros c.
  apply (snapshot_bad_crc_keeps_entries (0, 0) (str "snap") 0 demo_saved _ demo_saved_inv
           ltac:(vm_compute; done) demo_entries_fit (blank_inv _)).
  - done.
  - vm_compute. split; done.
  - done.
  - vm_compute. done.
  - apply demo_serves.
Defined.

Lemma snapshot_truncation_detected_witness :
  ∃ r', load_snapshot (0, 0) (str "snap") (blank (demo_disk (take 70 demo_snapshot)))
        = Some (false, r').
Proof.
  apply (snapshot_truncation_detected (0, 0) (str "snap") 70 demo_saved _ _ demo_saved_inv
           ltac:(vm_compute; done) demo_entries_fit demo_created).
  - vm_compute. lia.
  - apply demo_serves.
Defined.

(** A flipped byte in the value of the last entry. *)
Lemma snapshot_burst_detected_witness :
  let pre := take 95 demo_snapshot in
  let post := drop 96 demo_snapshot in
  ∃ ok rd r',
  read_snapshot (0, 0) (mkSnapshotReader (mkIfstream (str "snap") 0 true) 0 crc_reset)
    (blank (demo_disk (pre ++ str "!" ++ post))) = (ok, rd, r')
  ∧ (load_snapshot (0, 0) (str "snap") (blank (demo_disk (pre ++ str "!" ++ post))) = Some (false, r')
     ∨ left_of (pre ++ str "!" ++ post) rd ≠ []).
Proof.
  intros pre post.
  apply (snapshot_burst_detected (0, 0) (str "snap") pre (take 1 (drop 95 demo_snapshot)) (str "!")
           post demo_saved _ _ _ demo_created).
  - vm_compute. done.
  - vm_compute. lia.
  - vm_compute. done.
  - vm_compute. lia.
  - vm_compute. done.
  - apply demo_serves.
  - apply (open_reader_serves _ _ _ (demo_serves _)).
Defined.
