(* ===== verification/Lifecycle.v ===== *)
(** * Every operation keeps the table well-formed

    All public operations of [HashTable] together: requests, the expiry scan,
    the management of the log, replay of a log and snapshots, in any order. *)

From S2P Require Import Prelude Files Wal Policy Lru Lfu Dispatch HashTable Store TableFacts Table Recovery Snapshot.

Inductive table_op :=
| OGet (k : bytes) (now_check now_access : Z)
| OInsert (k : bytes) (v : ValueEntry)
| ORemove (k : bytes)
| OScan (samples : list nat) (clock : nat → nat → Z)
| OEnableWal (path : bytes) (batch_size : Z)
| OFlushWal
| OTruncateWal
| OReplay (fuel : nat) (clock : nat → Z * Z) (path : bytes)
| OCreateSnapshot (path : bytes)
| OLoadSnapshot (junk : Z * Z) (path : bytes).

Section lifecycle.
Context {P : Type} `{!EvictionPolicy P}.
Implicit Types t : HashTable P.

(** The table after an operation; an exception leaves it as it was. *)
Definition after (op : table_op) (t : HashTable P) : HashTable P :=
  match op with
  | OGet k n1 n2 => (get k n1 n2 t).2
  | OInsert k v => (insert k v t).2
  | ORemove k => (remove k t).2
  | OScan samples clock => scan_expired_keys samples clock t
  | OEnableWal path b => default t (enable_wal path b t)
  | OFlushWal => flush_wal t
  | OTruncateWal => default t (truncate_wal t)
  | OReplay fuel clock path =>
      match replay_wal fuel clock path t with
      | ReplayThrows => t
      | ReplayDone _ t' | ReplayRunning t' => t'
      end
  | OCreateSnapshot path => match create_snapshot path t with Some (_, t') => t' | None => t end
  | OLoadSnapshot junk path => match load_snapshot junk path t with Some (_, t') => t' | None => t end
  end.

(** The invariant does not mention the log and the disk. *)
Lemma ht_inv_frame t t' :
  buckets_ t' = buckets_ t → num_entries_ t' = num_entries_ t → policy_ t' = policy_ t →
  ht_inv t → ht_inv t'.
Proof.
  intros Hb Hn Hp [Hs Hpow Hc Hi Ht]. split; unfold entries, contents in *; rewrite ?Hb, ?Hn, ?Hp; done.
Qed.

Lemma enable_wal_inv path b t : ht_inv t → ht_inv (default t (enable_wal path b t)).
Proof.
  intros Hinv. destruct (enable_wal path b t) as [t'|] eqn:E; [|done].
  apply enable_wal_frame in E as (? & ? & ?). by apply (ht_inv_frame t).
Qed.

Lemma truncate_wal_inv t : ht_inv t → ht_inv (default t (truncate_wal t)).
Proof.
  intros Hinv. unfold truncate_wal. case_decide; [done|].
  destruct (enable_wal _ _ _) as [t'|] eqn:E; [|done].
  apply enable_wal_frame in E as (? & ? & ?). by apply (ht_inv_frame t).
Qed.

Lemma replay_record_inv now r t : ht_inv t → ht_inv (replay_record now r t).
Proof.
  intros Hinv. unfold replay_record. destruct (op_type r); auto using insert_inv, remove_inv.
  pose proof (get_inv (wkey r) now.1 now.2 t Hinv) as Hg.
  destruct (get (wkey r) now.1 now.2 t) as [[e|] t1]; simpl in Hg; auto using insert_inv.
Qed.

Lemma replay_loop_inv fuel clock i rd n t :
  ht_inv t →
  match replay_loop fuel clock i rd n t with
  | ReplayThrows => True
  | ReplayDone _ t' | ReplayRunning t' => ht_inv t'
  end.
Proof.
  revert i rd n t. induction fuel as [|fuel IH]; intros i rd n t Hinv; simpl; [done|].
  destruct (read_next (disk t) rd) as [[r|] rd']; [|done]. by apply IH, replay_record_inv.
Qed.

Lemma read_loop_inv n rd t :
  ht_inv t →
  match for_nat read_body n (rd, t) with inl (_, t') => ht_inv t' | inr (_, _, t') => ht_inv t' end.
Proof.
  revert rd t. induction n as [|n IH]; intros rd t Hinv; simpl; [done|].
  destruct (read_entry (disk t) rd) as [[[k v]|] rd']; [|done]. by apply IH, insert_inv.
Qed.

Lemma load_snapshot_inv junk path t ok t' :
  ht_inv t → load_snapshot junk path t = Some (ok, t') → ht_inv t'.
Proof.
  intros Hinv. unfold load_snapshot. destruct (open_snapshot_reader path (disk t)) as [rd|]; [|done].
  destruct (read_snapshot junk rd t) as [[success rd'] t1] eqn:E.
  assert (ht_inv t1) as H1; [|destruct (success && _); by intros [= <- <-]].
  revert E. unfold read_snapshot. destruct (read _ _ _) as [b s]. destruct (negb _); [by intros [= <- <- <-]|].
  destruct (read _ _ _) as [b1 s1]. destruct (read _ _ _) as [b2 s2]. rewrite for_loop_nat.
  match goal with |- context [for_nat read_body ?n (?r, t)] => pose proof (read_loop_inv n r t Hinv) as Hl end.
  destruct (for_nat _ _ _) as [[rd1 t2]|[[ok1 rd1] t2]]; by intros [= <- <- <-].
Qed.

Lemma after_inv op t : ht_inv t → ht_inv (after op t).
Proof.
  intros Hinv. destruct op as [| | | | | | |fuel clock path|path|junk path]; simpl;
    auto using get_inv, insert_inv, remove_inv, enable_wal_inv, truncate_wal_inv.
  - by apply remove_all_spec.
  - unfold flush_wal. destruct (wal_writer_ t); [|done]. destruct (flush _). by apply (ht_inv_frame t).
  - unfold replay_wal. destruct (open_reader path (disk t)) as [rd|]; [|done].
    pose proof (replay_loop_inv fuel clock 0 rd 0 t Hinv). by destruct (replay_loop _ _ _ _ _ _).
  - unfold create_snapshot. destruct (open_snapshot_writer _ _); [|done].
    destruct (write _ _) as [? [? ?]]. by apply (ht_inv_frame t).
  - destruct (load_snapshot junk path t) as [[ok t']|] eqn:E; [|done]. by eapply load_snapshot_inv.
Qed.

(** C7: a table is well-formed at all times. After any sequence of operations on
    a new table, whatever files the log and the snapshots are read from: there
    is a power of two of buckets, every pair carries the hash of its key and
    lies in the bucket it selects, no key is stored twice, [num_entries_] counts
    the pairs, and the policy tracks exactly the stored keys with the sizes of
    their values. *)
Theorem table_well_formed cap p path d t ops :
  0 <= cap <= 2 ^ 63 → pol_inv p → pol_tracked p = ∅ →
  make_table cap p path d = Some t → ht_inv (foldl (λ t op, after op t) t ops).
Proof.
  intros Hcap Hi Htr Hmk.
  destruct (make_table_spec cap p path d t Hcap Hi Htr Hmk) as (Hinv & _). clear Hmk. revert t Hinv.
  induction ops as [|op ops IH]; intros t Hinv; simpl; [done|]. by apply IH, after_inv.
Qed.
End lifecycle.

Lemma table_well_formed_witness :
  ht_inv (foldl (λ t op, after op t) (demo KindLFU)
    [OEnableWal (str "log") 1; OInsert (str "a") (new_entry (str "12") 0);
     OInsert (str "b") (new_entry (str "345") 9); OGet (str "a") 5 6; OScan [0%nat; 1%nat] (λ _ _, 10);
     OCreateSnapshot (str "snap"); OReplay 9 (λ _, (1, 2)) (str "log"); OLoadSnapshot (0, 0) (str "snap");
     OTruncateWal; ORemove (str "a")]).
Proof.
  apply (table_well_formed 2 (make_policy KindLFU 4) [] empty_disk); [lia|apply make_policy_spec|done|].
  by vm_compute.
Defined.
