(* ===== verification/Checkpoint.v ===== *)
(** * Checkpoints

    Snapshots and the log together, as src/engine/bench/bench_persistence.cpp
    uses them: a checkpoint is a snapshot followed by the truncation of the log,
    and recovery loads the snapshot, if there is one, and replays the log. *)

From S2P Require Import Prelude Files Wal Policy Lru Lfu Dispatch HashTable Store TableFacts Table Recovery Crc Snapshot Lifecycle.

(** ** Logs replayed twice *)

(** What a record does to a key: [Some None] removes it. *)
Definition effect (k : bytes) (r : WALRecord) : option (option (bytes * Z)) :=
  match op_type r with
  | SET => if decide (wkey r = k) then Some (Some (wvalue r, u64 (ttl_ns r))) else None
  | DELETE => if decide (wkey r = k) then Some None else None
  | _ => None
  end.

Definition last_effect (k : bytes) (rs : list WALRecord) : option (option (bytes * Z)) :=
  last (omap (effect k) rs).

Lemma log_from_lookup m rs k : log_from m rs !! k = default (m !! k) (last_effect k rs).
Proof.
  unfold last_effect. induction rs as [|r rs IH] using rev_ind; [done|].
  rewrite log_from_snoc, omap_app, last_app. cbn [omap list_omap]. unfold apply_log, effect.
  destruct (op_type r); simpl; try done.
  - rewrite lookup_insert. by destruct (decide (wkey r = k)).
  - rewrite lookup_delete. by destruct (decide (wkey r = k)).
Qed.

(** Replaying a log over its own result changes nothing. *)
Lemma log_from_idemp m rs : log_from (log_from m rs) rs = log_from m rs.
Proof. apply map_eq. intros k. rewrite !log_from_lookup. by destruct (last_effect k rs). Qed.

(** ** Files the log does not touch *)

Lemma write_all_other p rs wd :
  p ≠ filepath_ wd.1 → files (write_all rs wd).2 !! p = files wd.2 !! p.
Proof.
  revert wd. induction rs as [|r rs IH]; intros [w d] Hp; simpl in *; [done|].
  rewrite IH by done. simpl. by rewrite lookup_insert_ne by congruence.
Qed.

Lemma flush_other p wd : p ≠ filepath_ wd.1 → files (flush wd).2 !! p = files wd.2 !! p.
Proof.
  intros Hp. pose proof (write_all_other p (buffer_ wd.1) wd Hp) as Hw.
  unfold flush, write_all in *. destruct (buffer_ wd.1); [done|]. by destruct (fold_left _ _ _).
Qed.

Lemma append_other p r wd : p ≠ filepath_ wd.1 → files (append r wd).2 !! p = files wd.2 !! p.
Proof. destruct wd as [w d]. unfold append. intros Hp. case_match; [|done]. by rewrite flush_other. Qed.

Section checkpoint.
Context {P : Type} `{!EvictionPolicy P}.
Implicit Types t : HashTable P.

(** ** Recovery *)

(** [std::filesystem::exists] for the snapshot, then [load_snapshot], whose
    result is ignored, and [replay_wal]. *)
Definition recover (fuel : nat) (junk : Z * Z) (clock : nat → Z * Z) (snap path : bytes) (t : HashTable P)
  : replay_result :=
  if decide (is_Some (files (disk t) !! snap)) then
    match load_snapshot junk snap t with
    | Some (_, t') => replay_wal fuel clock path t'
    | None => ReplayThrows
    end
  else replay_wal fuel clock path t.

(** ** Running with checkpoints *)

Definition snapshotable (t : HashTable P) : Prop :=
  zlen (for_each t) < 2 ^ 64 ∧ Forall entry_fits (for_each t).

(** Requests, flushes, snapshots without truncation (a process may also die
    between the two) and checkpoints, in any order. *)
Inductive checkpointed_run (snap : bytes) : HashTable P → HashTable P → Prop :=
| ckpt_nil t : checkpointed_run snap t t
| ckpt_request t q t' : loggable q t → checkpointed_run snap (serve q t).2 t' → checkpointed_run snap t t'
| ckpt_flush t t' : checkpointed_run snap (flush_wal t) t' → checkpointed_run snap t t'
| ckpt_snapshot t t1 t' :
    snapshotable t → create_snapshot snap t = Some (true, t1) → checkpointed_run snap t1 t' → checkpointed_run snap t t'
| ckpt_checkpoint t t1 t2 t' :
    snapshotable t → create_snapshot snap t = Some (true, t1) → truncate_wal t1 = Some t2 →
    checkpointed_run snap t2 t' → checkpointed_run snap t t'.

(** ** The invariant *)

Definition image (s : HashTable P) : bytes :=
  snapshot_file (checksum (payload (ht_size s) (for_each s))) (payload (ht_size s) (for_each s)).

(** The disk holds no snapshot and [m] is empty, or the snapshot of a table
    with the contents [m]. *)
Definition holds (d : Disk) (snap : bytes) (m : gmap bytes (bytes * Z)) : Prop :=
  (files d !! snap = None ∧ m = ∅)
  ∨ ∃ s, ht_inv s ∧ snapshotable s ∧ (snap ∉ denied d) ∧ files d !! snap = Some (image s)
      ∧ m = persisted <$> contents s.

Definition ckpt_inv (snap path : bytes) (t : HashTable P) : Prop :=
  ∃ m, holds (disk t) snap m ∧ mirror_inv m path t ∧ wal_path_ t = path.

(** The disk at [snap] is that of [d], and the log is elsewhere. *)
Definition apart (snap : bytes) (d : Disk) (t : HashTable P) : Prop :=
  files (disk t) !! snap = files d !! snap ∧ denied (disk t) = denied d
  ∧ ∀ w, wal_writer_ t = Some w → filepath_ w ≠ snap.

Lemma holds_apart snap m d t : apart snap d t → holds d snap m → holds (disk t) snap m.
Proof. intros (Hf & Hd & _). unfold holds. by rewrite Hf, Hd. Qed.

Lemma log_record_apart snap d r t : apart snap d t → apart snap d (log_record r t).
Proof.
  intros (Hf & Hd & Hw). unfold log_record, apart. destruct (wal_writer_ t) as [w|] eqn:E; [|by rewrite E].
  specialize (Hw w eq_refl). destruct (append_frame r (w, disk t)) as (Hp & _ & Hdn & _).
  pose proof (append_other snap r (w, disk t)) as Ho. destruct (append r (w, disk t)) as [w' d']. simpl in *.
  split_and!; [rewrite Ho by congruence; done|congruence|]. intros w'' [= <-]. congruence.
Qed.

Lemma serve_apart snap d q t : apart snap d t → apart snap d (serve q t).2.
Proof.
  intros Ha. assert (∀ bs n p t, apart snap d t → apart snap d (set_buckets bs n p t)) as Hdata by done.
  destruct q as [k n1 n2|k v|k]; simpl.
  - pose proof (get_frame (apart snap d) Hdata k n1 n2 t Ha) as Hg. by destruct (get k n1 n2 t).
  - pose proof (insert_frame (apart snap d) (log_record_apart snap d) Hdata k v t Ha) as Hg. by destruct (insert k v t).
  - pose proof (remove_frame (apart snap d) (log_record_apart snap d) Hdata k t Ha) as Hg. by destruct (remove k t).
Qed.

Lemma flush_apart snap d t : apart snap d t → apart snap d (flush_wal t).
Proof.
  intros (Hf & Hd & Hw). unfold flush_wal, apart. destruct (wal_writer_ t) as [w|] eqn:E; [|by rewrite E].
  specialize (Hw w eq_refl). destruct (flush_frame (w, disk t)) as (Hp & _ & _ & Hdn & _).
  pose proof (flush_other snap (w, disk t)) as Ho. destruct (flush (w, disk t)) as [w' d']. simpl in *.
  split_and!; [rewrite Ho by congruence; done|congruence|]. intros w'' [= <-]. congruence.
Qed.

Lemma serve_wal_path path q t : wal_path_ t = path → wal_path_ (serve q t).2 = path.
Proof.
  intros Hp. set (Q := λ t : HashTable P, wal_path_ t = path).
  assert (∀ r t, Q t → Q (log_record r t)) as Hlog.
  { intros r t'. unfold Q, log_record. destruct (wal_writer_ t'); [|done]. by destruct (append _ _). }
  assert (∀ bs n p t, Q t → Q (set_buckets bs n p t)) as Hdata by done.
  destruct q as [k n1 n2|k v|k]; simpl.
  - pose proof (get_frame Q Hdata k n1 n2 t Hp) as Hg. by destruct (get k n1 n2 t).
  - pose proof (insert_frame Q Hlog Hdata k v t Hp) as Hg. by destruct (insert k v t).
  - pose proof (remove_frame Q Hlog Hdata k t Hp) as Hg. by destruct (remove k t).
Qed.

(** ** Every step keeps it *)

Lemma set_file_logged snap path rs c t :
  path ≠ snap → logged path rs t → logged path rs (set_disk (set_file (disk t) snap c) t).
Proof.
  intros Hne (Hd & Hpr & w & Hw & Hfp & Hl). split_and!; [done|simpl; by rewrite lookup_insert_ne|].
  exists w. split_and!; [done|done|]. unfold log_of in *. simpl in *. by rewrite contents_of_set_file_ne by congruence.
Qed.

Section steps.
Context (snap path : bytes) (Hpath : path ≠ []) (Hne : path ≠ snap).

Lemma apart_self rs t : logged path rs t → apart snap (disk t) t.
Proof. intros (_ & _ & w & Hw & Hp & _). split_and!; [done|done|]. intros w' Hw'. congruence. Qed.

Lemma request_ckpt q t : loggable q t → ckpt_inv snap path t → ckpt_inv snap path (serve q t).2.
Proof.
  intros Hq (m & Hh & Hm & Hp). exists m. split_and!.
  - destruct Hm as (rs & _ & Hlog & _). by eapply holds_apart, Hh; apply serve_apart, apart_self with rs.
  - by apply serve_mirror.
  - by apply serve_wal_path.
Qed.

Lemma flush_logged rs t : logged path rs t → logged path rs (flush_wal t).
Proof.
  intros (Hd & Hpr & w & Hw & Hp & Hl). unfold logged, flush_wal. rewrite Hw.
  destruct (flush_frame (w, disk t)) as (Hf & _ & Hb & Hdn & _ & Hcf).
  pose proof (flush_present path (w, disk t) Hpr) as Hpr'. destruct (flush (w, disk t)) as [w' d']. simpl in *.
  split_and!; [by rewrite Hdn|done|]. exists w'. split_and!; [done|congruence|].
  unfold log_of in *. simpl in *. rewrite Hb, Hf, Hcf, Hl. apply app_nil_r.
Qed.

Lemma flush_mirror m t : mirror_inv m path t → mirror_inv m path (flush_wal t).
Proof.
  intros (rs & Hinv & Hlog & Hmir & Hkeys & Hplain).
  assert (contents (flush_wal t) = contents t) as Hc by (unfold flush_wal; case_match; [by destruct (flush _)|done]).
  exists rs. split_and!; [|by apply flush_logged|by unfold mirrors; rewrite Hc|by unfold keys_fit; rewrite Hc|done].
  unfold flush_wal. destruct (wal_writer_ t); [|done]. destruct (flush _). by apply (ht_inv_frame t).
Qed.

Lemma flush_ckpt t : ckpt_inv snap path t → ckpt_inv snap path (flush_wal t).
Proof.
  intros (m & Hh & Hm & Hp). exists m. split_and!.
  - destruct Hm as (rs & _ & Hlog & _). by eapply holds_apart, Hh; apply flush_apart, apart_self with rs.
  - by apply flush_mirror.
  - unfold flush_wal. destruct (wal_writer_ t); [|done]. by destruct (flush _).
Qed.

(** The log leads from the new snapshot to the table as well. *)
Lemma snapshot_ckpt t t1 :
  ckpt_inv snap path t → snapshotable t → create_snapshot snap t = Some (true, t1) →
  ckpt_inv snap path t1 ∧ contents t1 = contents t ∧ ∃ rs, ht_inv t1 ∧ logged path rs t1 ∧ keys_fit t1
  ∧ holds (disk t1) snap (persisted <$> contents t).
Proof.
  intros (m & _ & (rs & Hinv & Hlog & Hmir & Hkeys & Hplain) & Hp) Hs (Hden & [= ->])%create_snapshot_file.
  fold (image t) in *. set (t1 := set_disk _ t).
  assert (ht_inv t1) as Hinv1 by (by apply (ht_inv_frame t)).
  pose proof (set_file_logged snap path rs (image t) t Hne Hlog) as Hlog1. fold t1 in Hlog1.
  assert (holds (disk t1) snap (persisted <$> contents t)) as Hh.
  { right. exists t. split_and!; try done. simpl. by rewrite lookup_insert_eq. }
  split_and!; [|done|by exists rs]. exists (persisted <$> contents t). split_and!; [done| |done].
  exists rs. split_and!; try done. unfold mirrors in *. change (contents t1) with (contents t). rewrite <- Hmir.
  apply log_from_idemp.
Qed.

Lemma truncate_wal_spec t t2 rs :
  logged path rs t → wal_path_ t = path → truncate_wal t = Some t2 →
  contents t2 = contents t ∧ (ht_inv t → ht_inv t2) ∧ logged path [] t2 ∧ wal_path_ t2 = path ∧ apart snap (disk t) t2.
Proof.
  intros (Hd & Hpr & w & Hw & Hfp & _) Hp. unfold truncate_wal. rewrite Hp, decide_False, Hw by done.
  destruct (flush_frame (w, disk t)) as (_ & _ & _ & Hdn & _ & _).
  pose proof (flush_other snap (w, disk t)) as Ho. unfold close_writer. destruct (flush (w, disk t)) as [w' d]. simpl in *.
  unfold open_trunc. rewrite decide_False by (by rewrite Hdn). cbn [from_option id].
  intros (Hden & ->)%enable_wal_fresh; [|done]. cbn [disk buckets_ num_entries_ policy_].
  rewrite contents_of_set_file. split_and!; [done|intros Hinv; by apply (ht_inv_frame t)| |done|].
  - split_and!; [done|simpl; rewrite lookup_insert_eq; eauto|]. eexists. split_and!; [done|done|].
    unfold log_of. simpl. by rewrite contents_of_set_file.
  - split_and!; [|done|intros ? [= <-]; done]. simpl. rewrite !lookup_insert_ne by done. apply Ho. congruence.
Qed.

Lemma run_ckpt t t' : checkpointed_run snap t t' → ckpt_inv snap path t → ckpt_inv snap path t'.
Proof.
  induction 1 as [t|t q t' Hq _ IH|t t' _ IH|t t1 t' Hs Hc _ IH|t t1 t2 t' Hs Hc Ht _ IH]; intros Hinv.
  - done.
  - by apply IH, request_ckpt.
  - by apply IH, flush_ckpt.
  - by apply IH; destruct (snapshot_ckpt _ _ Hinv Hs Hc).
  - destruct (snapshot_ckpt _ _ Hinv Hs Hc) as ((? & _ & _ & Hp) & Hc1 & rs & Hinv1 & Hlog1 & Hk1 & Hh1).
    destruct (truncate_wal_spec _ _ rs Hlog1 Hp Ht) as (Hc2 & Hinv2 & Hlog2 & Hp2 & Ha).
    apply IH. exists (persisted <$> contents t). split_and!; [by eapply holds_apart| |done].
    exists []. split_and!; [auto|done|unfold mirrors; simpl; congruence|by unfold keys_fit; rewrite Hc2|constructor].
Qed.
End steps.

(** ** Recovering *)

Lemma entry_bytes_file es : Forall entry_fits es → entry_bytes es <= zlen (encode_entries es).
Proof.
  induction 1 as [|[k v] es (_ & Hv & _) _ IH]; [done|]. rewrite encode_entries_cons, zlen_app.
  change (entry_bytes ((k, v) :: es)) with (zlen (value v) + entry_bytes es). cbn [fst snd] in *.
  assert (zlen (value v) <= zlen (encode_entry k v)); [|lia].
  unfold encode_entry. rewrite !zlen_app. pose proof (zlen_nonneg (value v)). rewrite (u32_small (zlen (value v))) by lia.
  unfold zlen at 5. rewrite (take_ge (value v)) by (unfold zlen; lia). unfold zlen in *. lia.
Qed.

Lemma image_bytes (s : HashTable P) : ht_inv s → snapshotable s → total (contents s) <= zlen (image s).
Proof.
  intros Hinv [_ Hfits]. rewrite for_each_contents, entry_bytes_total by (by apply for_each_nodup).
  pose proof (entry_bytes_file _ Hfits). unfold image, snapshot_file, payload. rewrite !zlen_app. unfold zlen in *. lia.
Qed.

Lemma insert_all_no_log d es t : no_log d t → no_log d (insert_all es t).
Proof. revert t. induction es as [|e es IH]; intros t Ht; [done|]. by apply IH, insert_no_log. Qed.

(** Recovery from a disk that holds a snapshot of [m] and the log [rs]. *)
Lemma recover_spec fuel junk clock snap path m rs d r :
  no_log d r → holds d snap m → files d !! path = Some (encode_all rs) → path ∉ denied d → Forall plain rs →
  ht_inv r → acct r → contents r = ∅ →
  zlen (contents_of d snap) + zlen (contents_of d path) <= pol_limit (policy_ r) < 2 ^ 64 →
  (length (contents_of d path) < fuel)%nat →
  ∃ n r', recover fuel junk clock snap path r = ReplayDone n r' ∧ persisted <$> contents r' = log_from m rs.
Proof.
  intros Hnl Hh Hf Hden Hplain Hinv Ha He. unfold recover, contents_of. rewrite (proj2 Hnl), Hf. cbn [from_option id].
  intros Hlim Hfuel. destruct Hh as [[Hs ->]|(s & Hsi & Hss & Hsd & Hs & ->)]; rewrite Hs in *; cbn [from_option id] in *.
  - rewrite decide_False by (by intros [? ?]).
    destruct (replay_file fuel clock path rs d r) as (n & r' & Hr & Hp); try done.
    { rewrite He. change (total ∅) with 0. unfold zlen in *. simpl in *. lia. }
    exists n, r'. split; [done|]. by rewrite Hp, He, fmap_empty.
  - rewrite decide_True by eauto. pose proof (image_bytes s Hsi Hss) as Hb. pose proof (zlen_nonneg (encode_all rs)).
    destruct (load_entries junk snap (checksum (payload (ht_size s) (for_each s))) s r Hsi (proj1 Hss) (proj2 Hss) Hinv Ha)
      as (r1 & -> & Hc & Hi1 & Ha1 & Hl1 & Hr1).
    + rewrite He. change (total ∅) with 0. lia.
    + apply checksum_range.
    + unfold serves. rewrite (proj2 Hnl). split_and!; [done|done|]. intros w Hw. rewrite (proj1 Hnl) in Hw. done.
    + rewrite He in Hc. rewrite (right_id_L ∅ (∪)) in Hc.
      destruct (replay_file fuel clock path rs d r1) as (n & r' & Hr & Hp); try done.
      * rewrite Hr1. by apply insert_all_no_log.
      * rewrite Hc, Hl1. lia.
      * exists n, r'. split; [done|]. by rewrite Hp, Hc.
Qed.

(** C6: Recovery from snapshot and log restores the table. A fresh table with an
    empty log and no snapshot serves requests, is flushed, saved and checkpointed
    in any order; after a last flush, loading the snapshot, if any, and replaying
    the log into a fresh table ends with exactly the keys, values and expiry
    times of the original. A snapshot that is not followed by the truncation of
    the log does no harm. The conditions are those under which the files can
    carry the contents: keys, values and expiry times fit the formats, no set
    evicts the entry of its own key (the log then records a set and a deletion in
    the wrong order), every snapshot is written without an error, the two paths
    differ, and the memory limit of the fresh table is at least the size of both
    files, so that nothing is evicted on the way. *)
Theorem checkpoint_recovery cap p snap path d0 t0 t r fuel junk clock :
  0 <= cap <= 2 ^ 63 → pol_inv p → pol_tracked p = ∅ → path ≠ [] → path ≠ snap →
  contents_of d0 path = [] → files d0 !! snap = None →
  make_table cap p path d0 = Some t0 → checkpointed_run snap t0 t →
  no_log (disk (flush_wal t)) r → ht_inv r → acct r → contents r = ∅ →
  zlen (contents_of (disk r) snap) + zlen (contents_of (disk r) path) <= pol_limit (policy_ r) < 2 ^ 64 →
  (length (contents_of (disk r) path) < fuel)%nat →
  ∃ n r', recover fuel junk clock snap path r = ReplayDone n r'
  ∧ persisted <$> contents r' = persisted <$> contents t.
Proof.
  intros Hcap Hi Htr Hpath Hne Hnew Hsnap Hmk Hrun Hnl Hinv Ha He Hlim Hfuel.
  destruct (fresh_logged cap p path d0 t0 Hpath Hnew Hmk) as (_ & Hwp & _ & Hother).
  assert (ckpt_inv snap path t0) as H0.
  { exists ∅. split_and!; [left; split; [by rewrite Hother|done]|by eapply fresh_mirror|done]. }
  apply (run_ckpt snap path Hpath Hne t0 t Hrun) in H0.
  destruct H0 as (m & Hh & (rs & _ & Hlog & Hmir & _ & Hplain) & _).
  destruct (flush_wal_file path rs t Hlog) as [Hf Hden]. unfold mirrors in Hmir. rewrite <- Hmir.
  rewrite (proj2 Hnl) in *.
  apply (recover_spec fuel junk clock snap path m rs (disk (flush_wal t)) r); try done.
  eapply holds_apart, Hh. by eapply flush_apart, apart_self.
Qed.

(** An empty snapshot file is rejected, unless the indeterminate first word of
    the reader happens to be the magic number. *)
Lemma load_empty junk snap d r :
  no_log d r → snap ∉ denied d → files d !! snap = Some [] → fill junk.1 [] ≠ SNAPSHOT_MAGIC →
  load_snapshot junk snap r = Some (false, r).
Proof.
  intros [Hw Hd] Hden Hf Hj. assert (serves snap [] r) as Hs.
  { unfold serves. rewrite Hd. split_and!; [done|done|]. intros w Hw'. congruence. }
  unfold load_snapshot. rewrite (open_reader_serves _ _ _ Hs). unfold read_snapshot. cbn [sr_file stored_crc_].
  assert (read (disk r) (mkIfstream snap 0 true) 8 = ([], mkIfstream snap 0 false)) as ->.
  { unfold read. cbn [is_good is_pos is_path]. by rewrite (serves_contents _ _ _ Hs). }
  by rewrite (proj2 (Z.eqb_neq _ _) Hj).
Qed.

(** A snapshot is written over the one before. When the process dies right
    after opening the file for the next snapshot, everything from before the
    last checkpoint is lost: the old snapshot is gone, and the log was
    truncated. *)
Theorem snapshot_crash_loses_checkpoint snap path rs t t1 t2 r fuel junk clock :
  path ≠ [] → path ≠ snap → logged path rs t → wal_path_ t = path →
  create_snapshot snap t = Some (true, t1) → truncate_wal t1 = Some t2 →
  no_log (set_file (disk (flush_wal t2)) snap []) r → ht_inv r → acct r → contents r = ∅ →
  0 <= pol_limit (policy_ r) < 2 ^ 64 → fill junk.1 [] ≠ SNAPSHOT_MAGIC → (0 < fuel)%nat →
  contents t2 = contents t
  ∧ ∃ n r', recover fuel junk clock snap path r = ReplayDone n r' ∧ persisted <$> contents r' = ∅.
Proof.
  intros Hpath Hne Hlog Hp (Hden & [= ->])%create_snapshot_file Ht Hnl Hinv Ha He Hlim Hj Hfuel.
  fold (image t) in *. set (t1 := set_disk _ t) in *. pose proof (set_file_logged snap path rs (image t) t Hne Hlog) as Hlog1. fold t1 in Hlog1.
  destruct (truncate_wal_spec snap path Hpath Hne t1 t2 rs Hlog1 Hp Ht) as (Hc & _ & Hlog2 & _ & Ha2).
  split; [done|]. destruct (flush_wal_file path [] t2 Hlog2) as [Hf Hd2].
  destruct (flush_apart _ _ _ Ha2) as (_ & Hdn & _).
  unfold recover. rewrite (proj2 Hnl). simpl. rewrite decide_True by (rewrite lookup_insert_eq; eauto).
  rewrite (load_empty junk snap _ r Hnl); [|simpl; rewrite Hdn; done|simpl; by rewrite lookup_insert_eq|done].
  destruct (replay_file fuel clock path [] _ r Hnl) as (n & r' & Hr & Hp'); try done.
  - simpl. by rewrite lookup_insert_ne.
  - rewrite He. change (total ∅) with 0. change (zlen (encode_all [])) with 0. lia.
  - exists n, r'. split; [done|]. by rewrite Hp', He, fmap_empty.
Qed.
End checkpoint.

(** ** Witnesses *)

(** A table of 1000 bytes with a log: two sets, a checkpoint, a set, an update
    and a remove. *)
Definition saved_table : HashTable LRU.LRUPolicy :=
  default (mkTable [] 0 (LRU.make 1000) None [] empty_disk) (make_table 2 (LRU.make 1000) (str "wal") empty_disk).

Abbreviation saved_sets :=
  (serve (Set_ (str "b") (mkValueEntry (str "xy") 0 0 77)) (serve (Set_ (str "a") (demo_value "12345")) saved_table).2).2.

Definition saved_snapshot : HashTable LRU.LRUPolicy :=
  match create_snapshot (str "snap") saved_sets with Some (_, t) => t | None => saved_sets end.

Definition saved_truncated : HashTable LRU.LRUPolicy := default saved_snapshot (truncate_wal saved_snapshot).

Abbreviation saved_later :=
  (serve (Remove (str "b")) (serve (Set_ (str "a") (demo_value "6")) saved_truncated).2).2.

Definition fresh_on (d : Disk) : HashTable LRU.LRUPolicy := mkTable [[]; []] 0 (LRU.make 1000) None [] d.

Lemma fresh_on_no_log d : no_log d (fresh_on d).
Proof. by split. Qed.

Lemma fresh_on_ok d : ht_inv (fresh_on d) ∧ acct (fresh_on d) ∧ contents (fresh_on d) = ∅.
Proof.
  destruct (make_table_spec 2 (LRU.make 1000) [] d (fresh_on d)) as (? & ? & _); [lia|apply LRU.make_inv|done|done|].
  split_and!; [done|by vm_compute|done].
Qed.

Lemma saved_snapshotable : snapshotable saved_sets.
Proof.
  unfold snapshotable.
  assert (for_each saved_sets = [(str "b", mkValueEntry (str "xy") 0 0 77); (str "a", demo_value "12345")]) as ->
    by (vm_compute; done).
  split; [done|]. repeat constructor; done.
Qed.

Lemma saved_created : create_snapshot (str "snap") saved_sets = Some (true, saved_snapshot).
Proof. vm_compute. reflexivity. Qed.

Lemma saved_truncates : truncate_wal saved_snapshot = Some saved_truncated.
Proof. vm_compute. reflexivity. Qed.

Lemma saved_run_later : checkpointed_run (str "snap") saved_truncated saved_later.
Proof.
  apply (ckpt_request _ _ (Set_ (str "a") (demo_value "6"))).
  { vm_compute. split_and!; (done || eauto). }
  apply (ckpt_request _ _ (Remove (str "b"))); [by vm_compute|]. apply ckpt_nil.
Qed.

Lemma saved_run : checkpointed_run (str "snap") saved_table saved_later.
Proof.
  pose proof (ckpt_checkpoint _ _ _ _ _ saved_snapshotable saved_created saved_truncates saved_run_later) as Hrun.
  apply (ckpt_request _ _ (Set_ (str "a") (demo_value "12345"))).
  { vm_compute. split_and!; (done || by intros [? ?]). }
  apply (ckpt_request _ _ (Set_ (str "b") (mkValueEntry (str "xy") 0 0 77))); [|exact Hrun].
  vm_compute. split_and!; (done || by intros [? ?]).
Qed.

Lemma checkpoint_recovery_witness :
  ∃ n r', recover 200 (0, 0) (λ _, (0, 0)) (str "snap") (str "wal") (fresh_on (disk (flush_wal saved_later))) = ReplayDone n r'
  ∧ persisted <$> contents r' = persisted <$> contents saved_later.
Proof.
  destruct (fresh_on_ok (disk (flush_wal saved_later))) as (Hinv & Ha & He).
  refine (checkpoint_recovery 2 (LRU.make 1000) (str "snap") (str "wal") empty_disk saved_table saved_later
            (fresh_on (disk (flush_wal saved_later))) 200 (0, 0) (λ _, (0, 0)) _ _ _ _ _ _ _ _ _ _ Hinv Ha He _ _).
  - lia.
  - apply LRU.make_inv.
  - reflexivity.
  - done.
  - done.
  - reflexivity.
  - reflexivity.
  - vm_compute. reflexivity.
  - exact saved_run.
  - apply fresh_on_no_log.
  - vm_compute. by split.
  - vm_compute. lia.
Defined.

Lemma snapshot_crash_loses_checkpoint_witness :
  contents saved_truncated = contents saved_sets
  ∧ ∃ n r', recover 1 (0, 0) (λ _, (0, 0)) (str "snap") (str "wal")
              (fresh_on (set_file (disk (flush_wal saved_truncated)) (str "snap") [])) = ReplayDone n r'
    ∧ persisted <$> contents r' = ∅.
Proof.
  destruct (fresh_on_ok (set_file (disk (flush_wal saved_truncated)) (str "snap") [])) as (Hinv & Ha & He).
  assert (∃ rs, logged (str "wal") rs saved_sets) as [rs Hlog].
  { destruct (serve_mirror ∅ (str "wal") (Set_ (str "b") (mkValueEntry (str "xy") 0 0 77))
                (serve (Set_ (str "a") (demo_value "12345")) saved_table).2) as (rs & _ & ? & _); [| |by exists rs].
    { vm_compute. split_and!; (done || by intros [? ?]). }
    apply serve_mirror; [vm_compute; split_and!; (done || by intros [? ?])|].
    by apply (fresh_mirror 2 (LRU.make 1000) (str "wal") empty_disk); try done; apply LRU.make_inv. }
  refine (snapshot_crash_loses_checkpoint (str "snap") (str "wal") rs saved_sets saved_snapshot saved_truncated
            (fresh_on (set_file (disk (flush_wal saved_truncated)) (str "snap") [])) 1 (0, 0) (λ _, (0, 0))
            _ _ Hlog _ saved_created saved_truncates _ Hinv Ha He _ _ _).
  - done.
  - done.
  - vm_compute. reflexivity.
  - apply fresh_on_no_log.
  - vm_compute. by split.
  - vm_compute. discriminate.
  - lia.
Defined.
