(* ===== verification/Scanner.v ===== *)
(** * The expiry scanner

    start_ttl_scanner and stop_ttl_scanner of src/engine/src/hash_table.cpp, and
    the thread they control. A pass of the thread is a sequence of steps: the
    buckets it samples are read one at a time, and the keys it collected are
    removed one at a time, with requests of the owner at any point in between.
    Each read of a bucket and each operation of the table runs as a whole. The
    code takes no lock to make it so: a bucket read in the middle of an
    operation of the owner is a data race, which has no meaning in C++. *)

From S2P Require Import Prelude Files Wal Policy Lru Lfu Dispatch HashTable Store TableFacts Table.

(** Where the thread is: before the test of the loop, before the scan,
    sampling buckets (how many there were when the scan began, how many samples
    are left, the keys collected), removing the keys collected, asleep, at its
    end, or joined. *)
Inductive scanner_thread :=
| NoThread
| Testing
| Scanning
| Sampling (num_buckets samples_left : nat) (expired_keys : list bytes)
| Removing (expired_keys : list bytes)
| Sleeping
| Ended
| Joined.

#[global] Instance scanner_thread_eq_dec : EqDecision scanner_thread.
Proof. solve_decision. Defined.

Definition joinable (th : scanner_thread) : bool :=
  match th with NoThread | Joined => false | _ => true end.

Section scanner.
Context {P : Type} `{!EvictionPolicy P}.

(** [joining]: the owner waits in [join]. *)
Record Scanned := mkScanned {
  sc_table : HashTable P;
  scan_interval_ms_ : Z;
  stop_scanner_ : bool;
  ttl_scanner_thread_ : scanner_thread;
  joining : bool;
}.

(** The members as the constructor of [HashTable] sets them. *)
Definition with_scanner (t : HashTable P) : Scanned := mkScanned t 100 false NoThread false.

(** The owner's calls, and the steps of the thread. [EvSample] reads one bucket
    and the clock once for each of its pairs. *)
Inductive scan_event :=
| EvRequest (q : request)
| EvStart (interval : Z)
| EvStop
| EvJoin
| EvTest
| EvBegin
| EvSample (bucket_idx : nat) (clock : nat → Z)
| EvRemove
| EvSleep
| EvWake.

(** [ScanTerminates]: [std::terminate]. *)
Inductive scan_outcome :=
| ScanDisabled
| ScanTerminates
| ScanNext (s : Scanned).

(** Assigning to the pointer destroys the thread it held: a joinable one ends
    the process. *)
Definition start_ttl_scanner (interval : Z) (s : Scanned) : scan_outcome :=
  if joinable (ttl_scanner_thread_ s) then ScanTerminates
  else ScanNext (mkScanned (sc_table s) interval false Testing false).

(** [stop_ttl_scanner], up to [join]; the destructor calls it too. *)
Definition stop_ttl_scanner (s : Scanned) : Scanned :=
  if joinable (ttl_scanner_thread_ s)
  then mkScanned (sc_table s) (scan_interval_ms_ s) true (ttl_scanner_thread_ s) true
  else s.

Definition set_thread (th : scanner_thread) (s : Scanned) : Scanned :=
  mkScanned (sc_table s) (scan_interval_ms_ s) (stop_scanner_ s) th (joining s).

Definition set_scanned (t : HashTable P) (s : Scanned) : Scanned :=
  mkScanned t (scan_interval_ms_ s) (stop_scanner_ s) (ttl_scanner_thread_ s) (joining s).

(** One step of the thread. The distribution of [bucket_idx] is fixed when the
    scan begins. *)
Definition thread_exec (ev : scan_event) (s : Scanned) : scan_outcome :=
  match ev, ttl_scanner_thread_ s with
  | EvTest, Testing => ScanNext (set_thread (if stop_scanner_ s then Ended else Scanning) s)
  | EvBegin, Scanning => ScanNext (set_thread (Sampling (length (buckets_ (sc_table s))) SAMPLE_SIZE []) s)
  | EvSample bucket_idx clock, Sampling n (S more) keys =>
      if decide (bucket_idx < n)%nat then
        let keys := keys ++ expired_in clock (bucket (buckets_ (sc_table s)) bucket_idx) in
        ScanNext (set_thread (match more with O => Removing keys | _ => Sampling n more keys end) s)
      else ScanDisabled
  | EvRemove, Removing (k :: keys) =>
      ScanNext (set_thread (Removing keys) (set_scanned (remove k (sc_table s)).2 s))
  | EvSleep, Removing [] => ScanNext (set_thread Sleeping s)
  | EvWake, Sleeping => ScanNext (set_thread Testing s)
  | _, _ => ScanDisabled
  end.

(** Any step; the owner can do nothing while it waits in [join]. *)
Definition scanner_exec (ev : scan_event) (s : Scanned) : scan_outcome :=
  match ev with
  | EvRequest q =>
      if joining s then ScanDisabled else ScanNext (set_scanned (serve q (sc_table s)).2 s)
  | EvStart interval => if joining s then ScanDisabled else start_ttl_scanner interval s
  | EvStop => if joining s then ScanDisabled else ScanNext (stop_ttl_scanner s)
  | EvJoin =>
      if joining s && bool_decide (ttl_scanner_thread_ s = Ended)
      then ScanNext (mkScanned (sc_table s) (scan_interval_ms_ s) (stop_scanner_ s) Joined false)
      else ScanDisabled
  | _ => thread_exec ev s
  end.

(** ** Scans as steps of the map *)

(** A run with the answers to its requests. *)
Inductive scanner_run : Scanned → list (scan_event * option response) → Scanned → Prop :=
| scanner_run_nil s : scanner_run s [] s
| scanner_run_cons s ev s1 tr s' :
    (∀ q, ev = EvRequest q → admissible q (sc_table s)) →
    scanner_exec ev s = ScanNext s1 → scanner_run s1 tr s' →
    scanner_run s ((ev, match ev with EvRequest q => Some (serve q (sc_table s)).1 | _ => None end) :: tr) s'.

(** Steps that concern neither the map nor what a pass has read. *)
Definition control (ev : scan_event) : bool :=
  match ev with EvRequest _ | EvBegin | EvSample _ _ | EvRemove => false | _ => true end.

Definition written (q : request) : gset bytes := match q with Set_ k _ => {[k]} | _ => ∅ end.

(** The map of the table, from which a pass takes entries. [R]: what the pass
    has read off the clock; [W]: what the owner has set since the pass began. A
    pass may take an entry that had expired at one of its readings of the clock,
    or one of a key that was set while the pass went on. *)
Inductive expiring_run (limit : Z)
  : gmap bytes ValueEntry → (Z → Prop) → gset bytes → list (scan_event * option response) →
    gmap bytes ValueEntry → Prop :=
| expiring_nil m R W : expiring_run limit m R W [] m
| expiring_request m R W q a m1 tr m' :
    spec_step limit m q a m1 → expiring_run limit m1 R (written q ∪ W) tr m' →
    expiring_run limit m R W ((EvRequest q, Some a) :: tr) m'
| expiring_begin m R W tr m' :
    expiring_run limit m (λ _, False) ∅ tr m' → expiring_run limit m R W ((EvBegin, None) :: tr) m'
| expiring_read m R W b clock tr m' :
    expiring_run limit m (λ now, R now ∨ ∃ j, now = clock j) W tr m' →
    expiring_run limit m R W ((EvSample b clock, None) :: tr) m'
| expiring_take m R W k tr m' :
    (∀ v, m !! k = Some v → k ∈ W ∨ ∃ now, R now ∧ is_expired now v = true) →
    expiring_run limit (delete k m) R W tr m' →
    expiring_run limit m R W ((EvRemove, None) :: tr) m'
| expiring_other m R W ev tr m' :
    control ev = true → expiring_run limit m R W tr m' → expiring_run limit m R W ((ev, None) :: tr) m'.

(** The keys a pass is about to remove. *)
Definition collected (th : scanner_thread) : list bytes :=
  match th with Sampling _ _ keys | Removing keys => keys | _ => [] end.

(** What a pass may take, as long as it has read [R] and the owner set [W]. *)
Definition takes (R : Z → Prop) (W : gset bytes) (m : gmap bytes ValueEntry) (k : bytes) : Prop :=
  ∀ v, m !! k = Some v → k ∈ W ∨ ∃ now, R now ∧ is_expired now v = true.

Lemma takes_request limit R W m q a m1 k :
  spec_step limit m q a m1 → takes R W m k → takes R (written q ∪ W) m1 k.
Proof.
  intros Hstep Ht v. inversion Hstep as [k' n1 n2 v' Hk'|k' n1 n2 v' Hk'|k' n1 n2 Hk'|k' v' m' [Hsub _]|k']; subst; simpl.
  - rewrite lookup_insert. case_decide; [|by intros Hv%Ht; set_solver].
    subst. intros [= <-]. destruct (Ht v' Hk'); [set_solver|by right].
  - intros Hv%Ht. set_solver.
  - intros Hv%Ht. set_solver.
  - rewrite lookup_insert. case_decide; [subst; set_solver|].
    intros Hv. destruct (Ht v); [by eapply lookup_weaken|set_solver|by right].
  - rewrite lookup_delete. case_decide; [done|]. intros Hv%Ht. set_solver.
Qed.

Lemma takes_expired R W clock b (t : HashTable P) k :
  ht_inv t → k ∈ expired_in clock (bucket (buckets_ t) b) →
  takes (λ now, R now ∨ ∃ j, now = clock j) W (contents t) k.
Proof.
  intros Hinv (j & kv & Hj & Hexp & <-)%elem_of_expired_in v Hv.
  destruct (stored_in_bucket t b kv Hinv ltac:(by eapply list_elem_of_lookup_2)) as [Hk _].
  rewrite Hv in Hk. injection Hk as ->. right. exists (clock j). eauto.
Qed.

Lemma remove_good limit k (t : HashTable P) : 0 <= limit → good limit t → good limit (remove k t).2.
Proof.
  intros Hl Hg. destruct (serve (Remove k) t) as [a t'] eqn:E.
  destruct (serve_refines limit (Remove k) a t t' Hl Hg I E) as [Hg' _].
  simpl in E. destruct (remove k t). by injection E as _ <-.
Qed.

(** What holds of the state beside the thread's control. *)
Definition scan_ok (limit : Z) (R : Z → Prop) (W : gset bytes) (s : Scanned) : Prop :=
  good limit (sc_table s) ∧ Forall (takes R W (contents (sc_table s))) (collected (ttl_scanner_thread_ s)).

Lemma control_keeps limit R W ev s s1 :
  control ev = true → scanner_exec ev s = ScanNext s1 → scan_ok limit R W s →
  sc_table s1 = sc_table s ∧ scan_ok limit R W s1.
Proof.
  unfold scan_ok. intros Hc Hex [Hg Hf]. destruct ev; try done; simpl in Hex.
  - destruct (joining s); [done|]. unfold start_ttl_scanner in Hex. destruct (joinable _); [done|].
    injection Hex as <-. simpl. auto.
  - destruct (joining s); [done|]. injection Hex as <-. unfold stop_ttl_scanner. by destruct (joinable _).
  - destruct (_ && _); [|done]. injection Hex as <-. simpl. auto.
  - destruct (ttl_scanner_thread_ s); try done. injection Hex as <-. simpl. destruct (stop_scanner_ s); auto.
  - destruct (ttl_scanner_thread_ s) as [| | | |[|]| | |]; try done. injection Hex as <-. simpl. auto.
  - destruct (ttl_scanner_thread_ s); try done. injection Hex as <-. simpl. auto.
Qed.

Lemma sample_keeps limit R W b clock s s1 :
  scanner_exec (EvSample b clock) s = ScanNext s1 → scan_ok limit R W s →
  sc_table s1 = sc_table s ∧ scan_ok limit (λ now, R now ∨ ∃ j, now = clock j) W s1.
Proof.
  unfold scan_ok. simpl. intros Hex [Hg Hf]. destruct (ttl_scanner_thread_ s) as [| | |n [|more] keys| | | |]; try done.
  destruct (decide (b < n)%nat); [|done]. injection Hex as <-. split; [done|]. split; [done|].
  assert (Forall (takes (λ now, R now ∨ ∃ j, now = clock j) W (contents (sc_table s)))
            (keys ++ expired_in clock (bucket (buckets_ (sc_table s)) b))) as Hall.
  { apply Forall_app. split.
    - eapply Forall_impl; [exact Hf|]. intros k Ht v Hv. destruct (Ht v Hv) as [|(now & ? & ?)]; eauto.
    - apply Forall_forall. intros k. apply takes_expired, Hg. }
  by destruct more.
Qed.

Lemma remove_step_keeps limit R W s s1 :
  0 <= limit → scanner_exec EvRemove s = ScanNext s1 → scan_ok limit R W s →
  scan_ok limit R W s1
  ∧ ∃ k, takes R W (contents (sc_table s)) k ∧ contents (sc_table s1) = delete k (contents (sc_table s)).
Proof.
  unfold scan_ok. simpl. intros Hl Hex [Hg Hf]. destruct (ttl_scanner_thread_ s) as [| | | |[|k keys]| | |]; try done.
  injection Hex as <-. simpl in *. apply Forall_cons in Hf as [Hk Hf].
  rewrite remove_contents by apply Hg. split; [|eauto]. split; [by apply remove_good|].
  eapply Forall_impl; [exact Hf|]. intros k' Ht v. rewrite lookup_delete. case_decide; [done|]. apply Ht.
Qed.

(** A table with its scanner, from any state of the scan. *)
Lemma scanner_refines limit s tr s' :
  0 <= limit → scanner_run s tr s' → ∀ R W, scan_ok limit R W s →
  good limit (sc_table s') ∧ expiring_run limit (contents (sc_table s)) R W tr (contents (sc_table s')).
Proof.
  intros Hl Hrun. induction Hrun as [s|s ev s1 tr s' Hadm Hex _ IH]; intros R W Hok.
  { split; [apply Hok|constructor]. }
  destruct (control ev) eqn:Hc.
  { destruct (control_keeps limit R W ev s s1 Hc Hex Hok) as [Ht Hok1]. destruct (IH R W Hok1) as [? Hr].
    split; [done|]. rewrite Ht in Hr. destruct ev; try done; by apply expiring_other. }
  destruct ev as [q| | | | | |b clock| | |]; try done.
  - simpl in Hex. destruct (joining s); [done|]. injection Hex as <-. destruct Hok as [Hg Hf].
    destruct (serve q (sc_table s)) as [a t1] eqn:Es.
    destruct (serve_refines limit q a (sc_table s) t1 Hl Hg (Hadm q eq_refl) Es) as [Hg1 Hstep].
    destruct (IH R (written q ∪ W)) as [? ?]; [|split; [done|by eapply expiring_request]].
    split; [done|]. simpl. eapply Forall_impl; [exact Hf|]. intros k. by eapply takes_request.
  - simpl in Hex. destruct (ttl_scanner_thread_ s); try done. injection Hex as <-.
    destruct (IH (λ _, False) ∅) as [? ?]; [split; [apply Hok|by constructor]|].
    split; [done|by apply expiring_begin].
  - destruct (sample_keeps limit R W b clock s s1 Hex Hok) as [Ht Hok1]. destruct (IH _ _ Hok1) as [? Hr].
    split; [done|]. rewrite Ht in Hr. by apply expiring_read.
  - destruct (remove_step_keeps limit R W s s1 Hl Hex Hok) as (Hok1 & k & Hk & Hc1). destruct (IH _ _ Hok1) as [? Hr].
    split; [done|]. rewrite Hc1 in Hr. by eapply expiring_take.
Qed.

(** C20: A table with its scanner, started and stopped at will, is the bounded
    map of the table from which the passes of the scanner take entries. Requests
    may come between any two bucket reads and removals of a pass. Whatever a
    pass takes away had expired when the pass read the clock, or belongs to a key
    that was set while the pass went on. *)
Theorem scanner_refines_expiring_map limit t tr s' :
  0 <= limit → good limit t → scanner_run (with_scanner t) tr s' →
  good limit (sc_table s')
  ∧ expiring_run limit (contents t) (λ _, False) ∅ tr (contents (sc_table s')).
Proof.
  intros Hl Hg Hrun. apply (scanner_refines limit (with_scanner t) tr s' Hl Hrun). by split.
Qed.

(** ** The thread *)

(** The number of buckets a pass read when it began is positive and not more
    than there are now, so that no sample is out of range; a sample is left
    until the pass starts to remove. *)
Definition sampling_ok (s : Scanned) : Prop :=
  match ttl_scanner_thread_ s with
  | Sampling n more _ => (0 < n <= length (buckets_ (sc_table s)))%nat ∧ (0 < more)%nat
  | _ => True
  end.

Lemma remove_buckets k (t : HashTable P) : ht_inv t → length (buckets_ (remove k t).2) = length (buckets_ t).
Proof.
  intros Hinv. pose proof (remove_shape k t (ht_store t Hinv)) as Hr. cbv zeta in Hr.
  destruct (contents t !! k); [tauto|]. by destruct Hr as (_ & -> & _).
Qed.

(** The table never gives up buckets. *)
Lemma serve_buckets q (t : HashTable P) :
  ht_inv t → ht_inv (serve q t).2 ∧ (length (buckets_ t) <= length (buckets_ (serve q t).2))%nat.
Proof.
  intros Hinv. destruct q as [k n1 n2|k v|k].
  - pose proof (get_inv k n1 n2 t Hinv) as Hi. pose proof (get_shape k n1 n2 t (ht_store t Hinv)) as Hg.
    simpl. destruct (contents t !! k) as [v|]; [|by rewrite Hg]. destruct (is_expired n1 v); [by rewrite Hg|].
    destruct Hg as (t' & Hg & _ & _ & _ & _ & Hb & _). rewrite Hg in *. simpl in *. by rewrite Hb.
  - pose proof (insert_inv k v t Hinv) as Hi. destruct (before_insert_spec k v t Hinv) as (Hb & _ & _ & Hl).
    pose proof (resize_spec _ Hb) as (_ & _ & _ & _ & _ & Hr).
    destruct (insert_shape k v t Hinv) as (_ & _ & _ & Hlb & _). simpl. destruct (insert k v t). simpl in *.
    split; [done|]. rewrite Hlb, Hr, Hl. case_match; lia.
  - pose proof (remove_inv k t Hinv) as Hi. pose proof (remove_buckets k t Hinv) as Hb. simpl.
    destruct (remove k t). simpl in *. by rewrite Hb.
Qed.

Definition stop_ok (s : Scanned) : Prop :=
  joining s = true → stop_scanner_ s = true ∧ joinable (ttl_scanner_thread_ s) = true.

Definition thread_ok (s : Scanned) : Prop := ht_inv (sc_table s) ∧ sampling_ok s ∧ stop_ok s.

Lemma thread_exec_ok ev s s1 : thread_exec ev s = ScanNext s1 → thread_ok s → thread_ok s1.
Proof.
  unfold thread_ok, sampling_ok, stop_ok, thread_exec. intros Hex (Hinv & Hsam & Hok).
  destruct ev; try done; destruct (ttl_scanner_thread_ s) as [| | |n [|more] keys|[|k keys]| | |] eqn:Hth; try done.
  - injection Hex as <-. simpl. destruct (stop_scanner_ s); (split_and!; [done..|]); naive_solver.
  - injection Hex as <-. simpl. destruct (ht_pow2 _ Hinv) as [p Hp]. pose proof (Nat.pow_nonzero 2 p).
    split; [done|]. split; [unfold SAMPLE_SIZE; lia|naive_solver].
  - destruct (decide _); [|done]. injection Hex as <-. simpl. destruct Hsam as [Hn _].
    destruct more; (split; [done|]; split; [|naive_solver]); [done|lia].
  - injection Hex as <-. simpl. split_and!; [by apply remove_inv|done|naive_solver].
  - injection Hex as <-. simpl. split_and!; [done..|naive_solver].
  - injection Hex as <-. simpl. split_and!; [done..|naive_solver].
Qed.

Lemma scanner_exec_ok ev s s1 : scanner_exec ev s = ScanNext s1 → thread_ok s → thread_ok s1.
Proof.
  destruct ev; cbn [scanner_exec]; try apply thread_exec_ok; unfold thread_ok, sampling_ok, stop_ok; intros Hex (Hinv & Hsam & Hok).
  - destruct (joining s) eqn:Hj; [done|]. injection Hex as <-. simpl.
    destruct (serve_buckets q (sc_table s) Hinv) as [Hinv1 Hle]. split_and!; [done| |congruence].
    destruct (ttl_scanner_thread_ s); try done. split; [lia|apply Hsam].
  - destruct (joining s); [done|]. unfold start_ttl_scanner in Hex. destruct (joinable _); [done|].
    by injection Hex as <-.
  - destruct (joining s) eqn:Hj; [done|]. injection Hex as <-. unfold stop_ttl_scanner.
    destruct (joinable (ttl_scanner_thread_ s)) eqn:Hjn; simpl; [done|]. split_and!; [done..|congruence].
  - destruct (_ && _); [|done]. by injection Hex as <-.
Qed.

Lemma run_thread_ok s tr s' : scanner_run s tr s' → thread_ok s → thread_ok s'.
Proof. induction 1 as [|s ev s1 tr s' _ Hex _ IH]; [done|]. intros Hok. by eapply IH, scanner_exec_ok. Qed.

(** The bucket a pass reads is there, whatever the owner has done to the table
    since the pass began. *)
Theorem scanner_samples_in_range t tr s b clock s1 :
  ht_inv t → scanner_run (with_scanner t) tr s → scanner_exec (EvSample b clock) s = ScanNext s1 →
  is_Some (buckets_ (sc_table s) !! b).
Proof.
  intros Hinv Hrun. destruct (run_thread_ok _ _ _ Hrun ltac:(done)) as (_ & Hsam & _).
  unfold sampling_ok in Hsam. simpl. destruct (ttl_scanner_thread_ s) as [| | |n [|more] keys| | | |]; try done.
  destruct (decide (b < n)%nat); [|done]. intros _. apply lookup_lt_is_Some. lia.
Qed.

(** ** Stopping *)

(** How many steps the thread still has to take once the flag is set: a sample
    collects no more keys than the table has, and each is removed in a step. *)
Definition steps_left (s : Scanned) : nat :=
  match ttl_scanner_thread_ s with
  | Scanning => 5 + SAMPLE_SIZE * S (length (entries (sc_table s)))
  | Sampling _ more keys => 4 + length keys + more * S (length (entries (sc_table s)))
  | Removing keys => 4 + length keys
  | Sleeping => 3
  | Testing => 2
  | Ended => 1
  | NoThread | Joined => 0
  end.

Lemma sample_length clock b (t : HashTable P) :
  (length (expired_in clock (bucket (buckets_ t) b)) <= length (entries t))%nat.
Proof.
  unfold expired_in. rewrite !length_fmap. etransitivity; [apply length_filter|]. rewrite length_imap.
  unfold bucket, entries. destruct (buckets_ t !! b) as [c|] eqn:Hb; simpl; [|lia].
  apply list_elem_of_split_length in Hb as (l1 & l2 & -> & _). rewrite concat_app. simpl. rewrite !length_app. lia.
Qed.

Lemma stopping_decreases ev s s1 :
  joining s = true → stop_scanner_ s = true → sampling_ok s → scanner_exec ev s = ScanNext s1 →
  (steps_left s1 < steps_left s)%nat.
Proof.
  unfold sampling_ok, steps_left. intros Hj Hstop Hsam Hex.
  destruct ev; simpl in Hex; rewrite ?Hj in Hex; try done.
  { simpl in Hex. case_bool_decide as Ht; [|done]. injection Hex as <-. simpl. rewrite Ht. lia. }
  all: unfold thread_exec in Hex;
    destruct (ttl_scanner_thread_ s) as [| | |n [|more] keys|[|k keys]| | |]; try done.
  3: { destruct (decide _); [|done]. injection Hex as <-. pose proof (sample_length clock bucket_idx (sc_table s)).
       destruct more; simpl; rewrite length_app; lia. }
  all: injection Hex as <-; rewrite ?Hstop; simpl; lia.
Qed.

(** [stop_ttl_scanner] returns: while it waits, something can happen, and
    whatever happens brings the end of the thread nearer. *)
Theorem scanner_stop_returns t tr s :
  ht_inv t → scanner_run (with_scanner t) tr s → joining s = true →
  (0 < steps_left s)%nat ∧ (∃ ev s1, scanner_exec ev s = ScanNext s1)
  ∧ ∀ ev s1, scanner_exec ev s = ScanNext s1 → (steps_left s1 < steps_left s)%nat.
Proof.
  intros Hinv Hrun Hj. destruct (run_thread_ok _ _ _ Hrun ltac:(done)) as (_ & Hsam & Hok).
  destruct (Hok Hj) as [Hstop Hjn]. split; [|split].
  - unfold steps_left. destruct (ttl_scanner_thread_ s); simpl in Hjn; try done; lia.
  - unfold sampling_ok in Hsam. unfold scanner_exec, thread_exec.
    destruct (ttl_scanner_thread_ s) as [| | |n [|more] keys|[|k keys]| | |] eqn:Hth; simpl in Hjn; try done.
    + exists EvTest. eauto.
    + exists EvBegin. eauto.
    + lia.
    + exists (EvSample 0 (λ _, 0)). rewrite decide_True by lia. eauto.
    + exists EvSleep. eauto.
    + exists EvRemove. eauto.
    + exists EvWake. eauto.
    + exists EvJoin. rewrite Hj. eauto.
  - intros ev s1. by apply stopping_decreases.
Qed.

(** ** A pass that nothing interrupts *)

Fixpoint exec_all (evs : list scan_event) (s : Scanned) : scan_outcome :=
  match evs with
  | [] => ScanNext s
  | ev :: evs => match scanner_exec ev s with ScanNext s1 => exec_all evs s1 | o => o end
  end.

Lemma exec_all_app evs1 evs2 s s1 :
  exec_all evs1 s = ScanNext s1 → exec_all (evs1 ++ evs2) s = exec_all evs2 s1.
Proof.
  revert s. induction evs1 as [|ev evs1 IH]; intros s; simpl; [by intros [= ->]|].
  destruct (scanner_exec ev s); try done. apply IH.
Qed.

Definition sample_events (samples : list nat) (clock : nat → nat → Z) : list scan_event :=
  imap (λ i b, EvSample b (clock i)) samples.

Lemma samples_exec samples clock n keys s :
  Forall (λ b, (b < n)%nat) samples → samples ≠ [] →
  ttl_scanner_thread_ s = Sampling n (length samples) keys →
  exec_all (sample_events samples clock) s
  = ScanNext (set_thread (Removing (keys ++ expired_keys samples clock (sc_table s))) s).
Proof.
  revert clock keys s. induction samples as [|b samples IH]; intros clock keys s Hb Hne Hth; [done|].
  apply Forall_cons in Hb as [Hb Hbs]. unfold sample_events, expired_keys. cbn [imap exec_all].
  unfold scanner_exec at 1, thread_exec at 1. rewrite Hth. cbn [length]. rewrite decide_True by done.
  destruct samples as [|b' samples]; [by cbn; rewrite app_nil_r|].
  set (s1 := set_thread _ s). specialize (IH (clock ∘ S) (keys ++ expired_in (clock 0%nat) (bucket (buckets_ (sc_table s)) b)) s1).
  unfold sample_events, expired_keys in IH. rewrite <- app_assoc in IH. by apply IH.
Qed.

Lemma removes_exec keys s :
  ttl_scanner_thread_ s = Removing keys →
  exec_all (replicate (length keys) EvRemove) s
  = ScanNext (set_thread (Removing []) (set_scanned (fold_left (λ t k, (remove k t).2) keys (sc_table s)) s)).
Proof.
  revert s. induction keys as [|k keys IH]; intros s Hth; simpl.
  - destruct s. simpl in *. by rewrite Hth.
  - rewrite Hth. by rewrite IH.
Qed.

(** Without requests in between, a pass is [scan_expired_keys]. *)
Theorem uninterrupted_pass samples clock s :
  ttl_scanner_thread_ s = Scanning → length samples = SAMPLE_SIZE →
  Forall (λ b, (b < length (buckets_ (sc_table s)))%nat) samples →
  exec_all (EvBegin :: sample_events samples clock
            ++ replicate (length (expired_keys samples clock (sc_table s))) EvRemove ++ [EvSleep]) s
  = ScanNext (set_thread Sleeping (set_scanned (scan_expired_keys samples clock (sc_table s)) s)).
Proof.
  intros Hth Hlen Hb. cbn [exec_all scanner_exec thread_exec]. rewrite Hth. rewrite <- Hlen.
  set (s0 := set_thread _ s). assert (samples ≠ []) as Hne by (intros ->; done).
  erewrite exec_all_app; [|by apply (samples_exec samples clock (length (buckets_ (sc_table s))) [] s0)].
  erewrite exec_all_app; [|by apply removes_exec]. done.
Qed.

(** A second start without a stop ends the process. *)
Theorem scanner_second_start_terminates interval interval' s s1 :
  scanner_exec (EvStart interval) s = ScanNext s1 → scanner_exec (EvStart interval') s1 = ScanTerminates.
Proof.
  simpl. destruct (joining s); [done|]. unfold start_ttl_scanner. destruct (joinable _); [done|]. by intros [= <-].
Qed.
End scanner.

(** ** Instances *)

Definition scan_of (clock : nat → Z) : list scan_event :=
  EvBegin :: concat (replicate 10 [EvSample 0 clock; EvSample 1 clock]).

(** A key expires, is seen to have, and is set again before it is removed. *)
Definition scanner_events : list scan_event :=
  [EvStart 100; EvRequest (Set_ (str "a") (new_entry (str "x") 50)); EvTest]
  ++ scan_of (λ _, 60) ++ [EvRequest (Set_ (str "a") (new_entry (str "y") 0)); EvStop; EvRemove].

Fixpoint run_events {P} `{!EvictionPolicy P} (evs : list scan_event) (s : Scanned (P := P))
  : option (list (scan_event * option response) * Scanned) :=
  match evs with
  | [] => Some ([], s)
  | ev :: evs =>
      if match ev with EvRequest q => all_admissible [q] (sc_table s) | _ => true end then
        match scanner_exec ev s with
        | ScanNext s1 =>
            '(tr, s') ← run_events evs s1;
            Some ((ev, match ev with EvRequest q => Some (serve q (sc_table s)).1 | _ => None end) :: tr, s')
        | _ => None
        end
      else None
  end.

Lemma run_events_run {P} `{!EvictionPolicy P} evs (s s' : Scanned (P := P)) tr :
  run_events evs s = Some (tr, s') → scanner_run s tr s'.
Proof.
  revert s tr. induction evs as [|ev evs IH]; intros s tr; simpl; [intros [= <- <-]; constructor|].
  destruct (match ev with EvRequest q => _ | _ => true end) eqn:Hadm; [|done].
  destruct (scanner_exec ev s) as [| |s1] eqn:Hex; try done.
  intros ([tr1 s2] & Hrun & [= <- <-])%bind_Some. eapply scanner_run_cons; [|done|by apply IH].
  intros q ->. apply andb_prop in Hadm as [Hadm _]. by destruct q; [|apply Z.ltb_lt|].
Qed.

Definition scanner_result : list (scan_event * option response) * Scanned :=
  default ([], with_scanner (demo KindLRU)) (run_events scanner_events (with_scanner (demo KindLRU))).
Definition scanner_trace := scanner_result.1.
Definition scanner_final := scanner_result.2.

Lemma scanner_example : scanner_run (with_scanner (demo KindLRU)) scanner_trace scanner_final.
Proof. apply (run_events_run scanner_events). by vm_compute. Qed.

Lemma scanner_refines_expiring_map_witness :
  good 4 (sc_table scanner_final)
  ∧ expiring_run 4 ∅ (λ _, False) ∅ scanner_trace (contents (sc_table scanner_final)).
Proof.
  apply (scanner_refines_expiring_map 4 (demo KindLRU) scanner_trace scanner_final); [lia|apply demo_fresh|apply scanner_example].
Defined.

(** The second value of the key, which has no deadline, is gone. *)
Theorem scanner_loses_fresh_value :
  last scanner_trace = Some (EvRemove, None)
  ∧ (EvRequest (Set_ (str "a") (new_entry (str "y") 0)), Some (RBool true)) ∈ scanner_trace
  ∧ contents (sc_table scanner_final) = ∅.
Proof.
  split_and!; [by vm_compute| |by vm_compute].
  apply (list_elem_of_lookup_2 _ 24). by vm_compute.
Qed.

Lemma scanner_stop_returns_witness :
  (0 < steps_left scanner_final)%nat ∧ ∃ ev s1, scanner_exec ev scanner_final = ScanNext s1.
Proof.
  destruct (scanner_stop_returns (demo KindLRU) scanner_trace scanner_final) as (Hle & Hex & _).
  - apply demo_fresh.
  - apply scanner_example.
  - by vm_compute.
  - split; [exact Hle|exact Hex].
Defined.
