(* ===== verification/Resp.v ===== *)
(** * The RESP protocol

    src/engine/src/resp.cpp: [RESPValue] and its serialisation, the stateful
    [RESPParser], the conversion of values to commands, and [RESPFormatter]. *)

From S2P Require Import Prelude.

#[local] Set Warnings "-register-all".

(** ** Values *)

(** [RESPValue]: the constructor is private, so a value is what one of the
    static functions builds: the type tag with the field it uses. *)
Inductive RESPValue :=
| SimpleString (s : bytes)
| Error (msg : bytes)
| Integer (i : Z)
| BulkString (s : bytes)
| NullBulkString
| Array (arr : list RESPValue).

Definition CR : Init.Byte.byte := Init.Byte.x0d.
Definition LF : Init.Byte.byte := Init.Byte.x0a.
Definition CRLF : bytes := [CR; LF].

(** The characters of the protocol: plus, minus, colon, dollar, star. *)
Definition PLUS : Init.Byte.byte := Init.Byte.x2b.
Definition MINUS : Init.Byte.byte := Init.Byte.x2d.
Definition COLON : Init.Byte.byte := Init.Byte.x3a.
Definition DOLLAR : Init.Byte.byte := Init.Byte.x24.
Definition STAR : Init.Byte.byte := Init.Byte.x2a.

(** [os << n]: the decimal digits, most significant first. A number has fewer
    decimal digits than binary ones. *)
Definition digit (d : Z) : Init.Byte.byte := byte.of_Z (48 + d).

Fixpoint digits (fuel : nat) (n : Z) : bytes :=
  match fuel with
  | O => []
  | S fuel => if n <? 10 then [digit n] else digits fuel (n / 10) ++ [digit (n mod 10)]
  end.

Definition decimal (n : Z) : bytes := digits (S (Z.to_nat (Z.log2 n))) n.

Definition show (z : Z) : bytes := if z <? 0 then [MINUS] ++ decimal (- z) else decimal z.

Fixpoint serialize (v : RESPValue) : bytes :=
  match v with
  | SimpleString s => [PLUS] ++ s ++ CRLF
  | Error s => [MINUS] ++ s ++ CRLF
  | Integer i => [COLON] ++ show i ++ CRLF
  | BulkString s => [DOLLAR] ++ show (zlen s) ++ CRLF ++ s ++ CRLF
  | NullBulkString => [DOLLAR] ++ str "-1" ++ CRLF
  | Array arr => [STAR] ++ show (zlen arr) ++ CRLF ++ concat (serialize <$> arr)
  end.

(** The static functions of [RESPValue]. *)
Definition simple_string (s : bytes) : RESPValue := SimpleString s.
Definition error (msg : bytes) : RESPValue := Error msg.
Definition integer (i : Z) : RESPValue := Integer i.
Definition bulk_string (s : bytes) : RESPValue := BulkString s.
Definition null_bulk_string : RESPValue := NullBulkString.
Definition array (arr : list RESPValue) : RESPValue := Array arr.

(** [RESPFormatter]. *)
Definition fmt_ok : bytes := serialize (simple_string (str "OK")).
Definition fmt_error (msg : bytes) : bytes := serialize (error msg).
Definition fmt_null : bytes := serialize null_bulk_string.
Definition fmt_string (s : bytes) : bytes := serialize (bulk_string s).
Definition fmt_integer (i : Z) : bytes := serialize (integer i).
Definition fmt_array (strings : list bytes) : bytes := serialize (array (bulk_string <$> strings)).

(** ** Commands *)

Record RESPCommand := mkCommand {
  command : bytes;
  args : list bytes;
}.

(** [::toupper] in the C locale. *)
Definition toupper (c : Init.Byte.byte) : Init.Byte.byte :=
  let z := byte.unsigned c in
  if (97 <=? z) && (z <=? 122) then byte.of_Z (z - 32) else c.

(** The loop over the arguments, with its early return. *)
Fixpoint bulk_args (vs : list RESPValue) : option (list bytes) :=
  match vs with
  | [] => Some []
  | BulkString s :: vs => args ← bulk_args vs; Some (s :: args)
  | _ :: _ => None
  end.

Definition to_command (v : RESPValue) : option RESPCommand :=
  match v with
  | Array (BulkString cmd :: rest) => args ← bulk_args rest; Some (mkCommand (toupper <$> cmd) args)
  | _ => None
  end.

(** ** The parser *)

Inductive State :=
| Start | InSimpleString | InError | InInteger | BulkStringLen | BulkStringData
| ArrayLen | ArrayElement.

Record RESPParser := mkParser {
  state_ : State;
  buffer : bytes;
  bulk_len_ : Z;
  bulk_read_ : Z;
  array_len_ : Z;
  array_elements_ : list RESPValue;
}.

(** The constructor, and the state [reset()] goes back to. *)
Definition new_parser : RESPParser := mkParser Start [] 0 0 0 [].

Definition reset (p : RESPParser) : RESPParser := mkParser Start [] 0 0 0 [].

Definition is_clean (p : RESPParser) : bool :=
  match state_ p with Start => true | _ => false end.

Definition set_state (s : State) (p : RESPParser) : RESPParser :=
  mkParser s (buffer p) (bulk_len_ p) (bulk_read_ p) (array_len_ p) (array_elements_ p).

Definition set_buffer (b : bytes) (p : RESPParser) : RESPParser :=
  mkParser (state_ p) b (bulk_len_ p) (bulk_read_ p) (array_len_ p) (array_elements_ p).

(** The text before the first ["\r\n"] and what follows it. *)
Fixpoint split_line (b : bytes) : option (bytes * bytes) :=
  match b with
  | [] => None
  | c :: rest =>
      if decide (take 2 b = CRLF) then Some ([], drop 2 b)
      else '(line, rest') ← split_line rest; Some (c :: line, rest')
  end.

Definition read_line (p : RESPParser) : option bytes * RESPParser :=
  match split_line (buffer p) with
  | None => (None, p)
  | Some (line, rest) => (Some line, set_buffer rest p)
  end.

(** [std::stoll]: skip white space, take a sign, then the longest run of
    digits; no digits or a value outside [int64_t] throws. *)
Definition is_space (c : Init.Byte.byte) : bool :=
  let z := byte.unsigned c in (z =? 32) || ((9 <=? z) && (z <=? 13)).

Definition is_digit (c : Init.Byte.byte) : bool :=
  let z := byte.unsigned c in (48 <=? z) && (z <=? 57).

Fixpoint drop_space (s : bytes) : bytes :=
  match s with
  | c :: s' => if is_space c then drop_space s' else s
  | [] => []
  end.

Fixpoint digit_run (s : bytes) : bytes :=
  match s with
  | c :: s' => if is_digit c then c :: digit_run s' else []
  | [] => []
  end.

Definition digits_value (ds : bytes) : Z :=
  fold_left (λ acc c, 10 * acc + (byte.unsigned c - 48)) ds 0.

Definition parse_integer (s : bytes) : option Z :=
  let s := drop_space s in
  let '(negative, s) :=
    match s with
    | c :: s' =>
        if decide (c = PLUS) then (false, s')
        else if decide (c = MINUS) then (true, s') else (false, s)
    | [] => (false, s)
    end in
  match digit_run s with
  | [] => None
  | ds =>
      let z := if negative then - digits_value ds else digits_value ds in
      if (- 2 ^ 63 <=? z) && (z <? 2 ^ 63) then Some z else None
  end.

(** What a call of [parse] gives: a value, [std::nullopt], or the exception of
    [array_elements_.reserve]. [Running]: the fuel of the model is used up,
    which [resp_parse_terminates] excludes. *)
Inductive parse_result :=
| Parsed (v : RESPValue)
| Nullopt
| Throws
| Running.

(** The [switch] on the type byte. *)
Definition type_state (type_byte : Init.Byte.byte) : option State :=
  if decide (type_byte = PLUS) then Some InSimpleString
  else if decide (type_byte = MINUS) then Some InError
  else if decide (type_byte = COLON) then Some InInteger
  else if decide (type_byte = DOLLAR) then Some BulkStringLen
  else if decide (type_byte = STAR) then Some ArrayLen
  else None.

Section parser.
(** The largest number of elements that [reserve] can make room for: the
    smaller of [max_size()] and what the allocator gives. *)
Context (reserve_limit : Z).

(** The line-terminated states: [finish] is what happens to the line. *)
Definition on_line (p : RESPParser) (finish : bytes → RESPParser → parse_result * RESPParser)
  : parse_result * RESPParser :=
  match read_line p with
  | (None, p) => (Nullopt, p)
  | (Some line, p) => finish line p
  end.

(** [parse] after the data was appended: the [while] loop, and the recursive
    call [parse("", 0)] for an array element, on the same object. Every
    iteration takes at least one byte off the buffer. *)
Fixpoint parse_loop (fuel : nat) (p : RESPParser) : parse_result * RESPParser :=
  match fuel with
  | O => (Running, p)
  | S fuel =>
      match buffer p with
      | [] => (Nullopt, p)
      | type_byte :: rest =>
          match state_ p with
          | Start =>
              let p := set_buffer rest p in
              match type_state type_byte with
              | Some s => parse_loop fuel (set_state s p)
              | None => (Nullopt, reset p)
              end
          | InSimpleString => on_line p (λ line p, (Parsed (SimpleString line), reset p))
          | InError => on_line p (λ line p, (Parsed (Error line), reset p))
          | InInteger =>
              on_line p (λ line p,
                match parse_integer line with
                | None => (Nullopt, reset p)
                | Some num => (Parsed (Integer num), reset p)
                end)
          | BulkStringLen =>
              on_line p (λ line p,
                match parse_integer line with
                | None => (Nullopt, reset p)
                | Some len =>
                    if len =? -1 then (Parsed NullBulkString, reset p)
                    else parse_loop fuel
                           (mkParser BulkStringData (buffer p) len 0 (array_len_ p) (array_elements_ p))
                end)
          | BulkStringData =>
              let needed := u64 (bulk_len_ p + 2 - bulk_read_ p) in
              if zlen (buffer p) <? needed then (Nullopt, p)
              else
                let data := take (Z.to_nat (Z.min (u64 (bulk_len_ p)) (zlen (buffer p)))) (buffer p) in
                (Parsed (BulkString data), reset p)
          | ArrayLen =>
              on_line p (λ line p,
                match parse_integer line with
                | None => (Nullopt, reset p)
                | Some len =>
                    if len <? 0 then (Nullopt, reset p)
                    else
                      let p := mkParser (state_ p) (buffer p) (bulk_len_ p) (bulk_read_ p) len [] in
                      if reserve_limit <? len then (Throws, p)
                      else if len =? 0 then (Parsed (Array []), reset p)
                      else parse_loop fuel (set_state ArrayElement p)
                end)
          | ArrayElement =>
              match parse_loop fuel (set_state Start p) with
              | (Parsed elem, p) =>
                  let elements := array_elements_ p ++ [elem] in
                  let p := mkParser (state_ p) (buffer p) (bulk_len_ p) (bulk_read_ p)
                             (array_len_ p) elements in
                  if zlen elements =? u64 (array_len_ p) then (Parsed (Array elements), reset p)
                  else parse_loop fuel (set_state ArrayElement p)
              | (Nullopt, p) => (Nullopt, set_state ArrayElement p)
              | (other, p) => (other, p)
              end
          end
      end
  end.

Definition parse_fuel (p : RESPParser) : nat := 2 * length (buffer p) + 2.

Definition parse (data : bytes) (p : RESPParser) : parse_result * RESPParser :=
  let p := set_buffer (buffer p ++ data) p in
  parse_loop (parse_fuel p) p.

(** ** Termination *)

Definition weight (p : RESPParser) : nat :=
  2 * length (buffer p) + match state_ p with ArrayElement => 1 | _ => 0 end.

Lemma split_line_shorter b line rest :
  split_line b = Some (line, rest) → (length line + length rest + 2 = length b)%nat.
Proof.
  revert line rest. induction b as [|c b IH]; intros line rest H; [done|].
  cbn [split_line] in H. case_decide as Hc.
  - injection H as <- <-. apply (f_equal length) in Hc. rewrite length_take in Hc.
    rewrite length_drop. cbn [CRLF length] in *. lia.
  - apply bind_Some in H as ([l r] & Hl & [= <- <-]). apply IH in Hl. simpl. lia.
Qed.

Lemma on_line_ind (R : parse_result * RESPParser → Prop) p finish :
  R (Nullopt, p) →
  (∀ line rest, split_line (buffer p) = Some (line, rest) → R (finish line (set_buffer rest p))) →
  R (on_line p finish).
Proof.
  intros Hnone Hsome. unfold on_line, read_line.
  destruct (split_line (buffer p)) as [[line rest]|]; auto.
Qed.

(** A call that ended with at most [n] bytes in the buffer. *)
Definition ended (n : nat) (r : parse_result * RESPParser) : Prop :=
  r.1 ≠ Running ∧ (length (buffer r.2) <= n)%nat.

Lemma ended_mono n m r : (n <= m)%nat → ended n r → ended m r.
Proof. unfold ended. intuition lia. Qed.

(** Every call consumes input: with enough fuel it ends, leaves no more in the
    buffer than there was, and less when it starts at the beginning of a value
    with something in the buffer. *)
Lemma parse_loop_ended fuel p :
  (weight p < fuel)%nat →
  ended (length (buffer p)) (parse_loop fuel p)
  ∧ (state_ p = Start → buffer p ≠ [] → ended (length (buffer p) - 1) (parse_loop fuel p)).
Proof.
  revert p. induction fuel as [|fuel IH]; intros p Hw; [lia|].
  assert (∀ n q, (weight q < fuel)%nat → (length (buffer q) <= n)%nat →
            ended n (parse_loop fuel q)) as IH'.
  { intros n q Hq Hn. eapply ended_mono; [exact Hn|]. by apply IH. }
  assert (∀ n r q, (r ≠ Running) → (length (buffer q) <= n)%nat → ended n (r, q)) as Hret by done.
  assert (∀ n r q, r ≠ Running → ended n (r, reset q)) as Hreset.
  { intros. split; [done|simpl; lia]. }
  cbn [parse_loop]. unfold weight in Hw.
  destruct (buffer p) as [|c rest] eqn:Hb; [split; [|done]; apply Hret; [done|rewrite Hb; simpl; lia]|].
  destruct (state_ p) eqn:Hs; (split; [|try done]); simpl in Hw.
  all: try (apply on_line_ind; [apply Hret; [done|rewrite Hb; simpl; lia]|];
            intros line rest' Hl%split_line_shorter; rewrite Hb in Hl; simpl in Hl).
  all: try (by apply Hreset).
  all: try (destruct (parse_integer line) as [z|]; [|by apply Hreset]).
  all: try (by apply Hreset).
  - destruct (type_state c) as [s|]; [|by apply Hreset].
    apply IH'; unfold weight; simpl; [destruct s; lia|lia].
  - intros _ _. destruct (type_state c) as [s|]; [|by apply Hreset].
    apply IH'; unfold weight; simpl; [destruct s; lia|lia].
  - case_match; [by apply Hreset|]. apply IH'; unfold weight; simpl; lia.
  - case_match; [|by apply Hreset]. apply Hret; [done|]. rewrite Hb. simpl. lia.
  - case_match; [by apply Hreset|]. case_match; [apply Hret; [done|]; simpl; lia|].
    case_match; [by apply Hreset|]. apply IH'; unfold weight; simpl; lia.
  - destruct (IH (set_state Start p)) as [_ [Hr Hlt]].
    { unfold weight. simpl. rewrite Hb. simpl. lia. }
    { done. }
    { simpl. by rewrite Hb. }
    destruct (parse_loop fuel (set_state Start p)) as [[v| | |] q]; simpl in Hr, Hlt;
      rewrite Hb in Hlt; simpl in Hlt; try done.
    + case_match; [by apply Hreset|]. apply IH'; unfold weight; simpl; lia.
    + apply Hret; [done|]. simpl. lia.
    + apply Hret; [done|]. simpl. lia.
Qed.

Lemma parse_fuel_enough p : (weight p < parse_fuel p)%nat.
Proof. unfold weight, parse_fuel. destruct (state_ p); lia. Qed.

(** More fuel than the weight makes no difference. *)
Lemma parse_loop_stable f1 f2 p :
  (weight p < f1)%nat → (weight p < f2)%nat → parse_loop f1 p = parse_loop f2 p.
Proof.
  revert f2 p. induction f1 as [|f1 IH]; intros f2 p H1 H2; [lia|].
  destruct f2 as [|f2]; [lia|]. cbn [parse_loop]. unfold weight in H1, H2.
  destruct (buffer p) as [|c rest] eqn:Hb; [done|].
  destruct (state_ p) eqn:Hs; simpl in H1, H2; try done.
  - destruct (type_state c) as [s|]; [|done]. apply IH; unfold weight; simpl; destruct s; lia.
  - unfold on_line, read_line. destruct (split_line _) as [[line r]|] eqn:E; [|done].
    apply split_line_shorter in E. rewrite Hb in E. simpl in E.
    destruct (parse_integer line); [|done]. case_match; [done|].
    apply IH; unfold weight; simpl; lia.
  - unfold on_line, read_line. destruct (split_line _) as [[line r]|] eqn:E; [|done].
    apply split_line_shorter in E. rewrite Hb in E. simpl in E.
    destruct (parse_integer line); [|done]. repeat (case_match; [done|]).
    apply IH; unfold weight; simpl; lia.
  - assert (weight (set_state Start p) < f1)%nat as Hw1 by (unfold weight; simpl; rewrite Hb; simpl; lia).
    rewrite <- (IH f2 (set_state Start p)) by (done || unfold weight; simpl; rewrite Hb; simpl; lia).
    destruct (parse_loop_ended f1 (set_state Start p) Hw1) as [_ [_ Hlt]];
      [done|by simpl; rewrite Hb|].
    destruct (parse_loop f1 (set_state Start p)) as [[v| | |] q]; try done.
    simpl in Hlt. rewrite Hb in Hlt. simpl in Hlt.
    case_match; [done|]. apply IH; unfold weight; simpl; lia.
Qed.

(** ** A value is always delivered with a reset *)

Lemma parse_loop_value fuel p v p' :
  parse_loop fuel p = (Parsed v, p') → p' = new_parser ∧ ∀ x xs, v ≠ Array (x :: xs).
Proof.
  revert p v p'. induction fuel as [|fuel IH]; intros p v p'; cbn [parse_loop]; [done|].
  destruct (buffer p) as [|c rest]; [done|].
  destruct (state_ p);
    try (apply (on_line_ind (λ r, r = (Parsed v, p') → _)); [done|]; intros line rest' _).
  - destruct (type_state c); [apply IH|done].
  - by intros [= <- <-].
  - by intros [= <- <-].
  - destruct (parse_integer line); [by intros [= <- <-]|done].
  - destruct (parse_integer line); [|done]. case_match; [by intros [= <- <-]|apply IH].
  - case_match; [done|]. by intros [= <- <-].
  - destruct (parse_integer line); [|done]. case_match; [done|]. case_match; [done|].
    case_match; [by intros [= <- <-]|apply IH].
  - destruct (parse_loop fuel (set_state Start p)) as [[w| | |] q] eqn:E; try done.
    apply IH in E as [-> _]. cbn. apply IH.
Qed.
End parser.

(** ** Lines *)

Lemma split_line_app b line rest d :
  split_line b = Some (line, rest) → split_line (b ++ d) = Some (line, rest ++ d).
Proof.
  revert line rest. induction b as [|c b IH]; intros line rest H; [done|].
  cbn [split_line app] in *. case_decide as Hc.
  - destruct b as [|c' b]; [done|]. injection H as <- <-. simpl in *.
    by rewrite decide_True.
  - apply bind_Some in H as ([l r] & Hl & [= <- <-]). rewrite decide_False, (IH _ _ Hl); [done|].
    destruct b as [|c' b]; [done|]. exact Hc.
Qed.

Lemma split_line_crlf s rest : split_line s = None → split_line (s ++ CRLF ++ rest) = Some (s, rest).
Proof.
  induction s as [|c s IH]; intros H; [done|]. cbn [split_line app] in *.
  case_decide as Hc; [done|]. apply bind_None in H as [H|([? ?] & _ & ?)]; [|done].
  rewrite decide_False, (IH H); [done|]. destruct s; [|exact Hc]. by intros [= ].
Qed.

Lemma split_line_prefix s a b :
  split_line s = None → s ++ CRLF = a ++ b → b ≠ [] → split_line a = None.
Proof.
  intros Hs He Hb. destruct (split_line a) as [[l r]|] eqn:E; [|done].
  apply (split_line_app _ _ _ b) in E. rewrite <- He in E.
  pose proof (split_line_crlf s [] Hs) as E'. rewrite app_nil_r, E in E'.
  injection E' as _ E'. by apply app_eq_nil in E' as [_ ?].
Qed.

Lemma split_line_no_cr s : CR ∉ s → split_line s = None.
Proof.
  induction s as [|c s IH]; intros H; [done|]. apply not_elem_of_cons in H as [Hc Hs].
  cbn [split_line]. rewrite decide_False, IH by (done || by intros [= -> _]). done.
Qed.

(** ** Decimal numbers *)

Lemma unsigned_digit d : 0 <= d < 10 → byte.unsigned (digit d) = 48 + d.
Proof.
  intros Hd. unfold digit. rewrite byte.unsigned_of_Z. unfold byte.wrap. apply Z.mod_small. lia.
Qed.

Lemma digit_is_digit d : 0 <= d < 10 → is_digit (digit d) = true.
Proof.
  intros Hd. unfold is_digit. rewrite unsigned_digit by done.
  apply andb_true_intro. split; apply Z.leb_le; lia.
Qed.

Lemma digits_are_digits fuel n : 0 <= n → Forall (λ c, is_digit c = true) (digits fuel n).
Proof.
  revert n. induction fuel as [|fuel IH]; intros n Hn; [constructor|]. simpl.
  destruct (Z.ltb_spec n 10).
  - repeat constructor. by apply digit_is_digit.
  - apply Forall_app. split; [apply IH; apply Z.div_pos; lia|].
    repeat constructor. apply digit_is_digit, Z.mod_pos_bound. lia.
Qed.

Lemma digits_value_snoc ds c : digits_value (ds ++ [c]) = 10 * digits_value ds + (byte.unsigned c - 48).
Proof. unfold digits_value. by rewrite fold_left_app. Qed.

Lemma digits_value_digits fuel n :
  0 <= n < 2 ^ Z.of_nat fuel → digits_value (digits fuel n) = n.
Proof.
  revert n. induction fuel as [|fuel IH]; intros n Hn.
  { change (2 ^ Z.of_nat 0) with 1 in Hn. by replace n with 0 by lia. }
  cbn [digits].
  destruct (Z.ltb_spec n 10).
  - unfold digits_value. simpl. rewrite unsigned_digit; lia.
  - rewrite digits_value_snoc, unsigned_digit, IH.
    + pose proof (Z.div_mod n 10). lia.
    + split; [apply Z.div_pos; lia|]. apply Z.div_lt_upper_bound; [lia|].
      replace (Z.of_nat (S fuel)) with (1 + Z.of_nat fuel) in Hn by lia.
      rewrite Z.pow_add_r in Hn by lia. lia.
    + apply Z.mod_pos_bound. lia.
Qed.

Lemma decimal_value n : 0 <= n → digits_value (decimal n) = n.
Proof.
  intros Hn. unfold decimal. apply digits_value_digits. split; [done|].
  rewrite Nat2Z.inj_succ, Z2Nat.id by apply Z.log2_nonneg.
  destruct (decide (n = 0)) as [->|]; [done|]. apply Z.log2_spec. lia.
Qed.

Lemma decimal_digits n : 0 <= n → Forall (λ c, is_digit c = true) (decimal n).
Proof. apply digits_are_digits. Qed.

Lemma decimal_cons n : 0 <= n → ∃ c ds, decimal n = c :: ds.
Proof.
  intros _. unfold decimal. cbn [digits]. case_match; [by eauto|].
  destruct (digits _ _); simpl; eauto.
Qed.

Lemma digit_run_all ds : Forall (λ c, is_digit c = true) ds → digit_run ds = ds.
Proof. induction 1 as [|c ds Hc Hds IH]; simpl; [done|]. by rewrite Hc, IH. Qed.

(** A digit is neither white space nor a sign nor a line end. *)
Lemma is_digit_plain c : is_digit c = true → is_space c = false ∧ c ≠ PLUS ∧ c ≠ MINUS ∧ c ≠ CR.
Proof.
  intros Hc. split_and!; [|by intros ->..]. unfold is_digit, is_space in *.
  apply andb_prop in Hc as [H1%Z.leb_le H2%Z.leb_le].
  destruct (Z.eqb_spec (byte.unsigned c) 32); [lia|].
  destruct (Z.leb_spec (byte.unsigned c) 13); [lia|]. by rewrite andb_false_r.
Qed.

Lemma parse_integer_show z : - 2 ^ 63 <= z < 2 ^ 63 → parse_integer (show z) = Some z.
Proof.
  intros Hz. unfold show.
  assert ((- 2 ^ 63 <=? z) && (z <? 2 ^ 63) = true) as Hrange.
  { apply andb_true_intro. split; [apply Z.leb_le|apply Z.ltb_lt]; lia. }
  destruct (Z.ltb_spec z 0).
  - pose proof (decimal_digits (- z) ltac:(lia)) as Hd. pose proof (decimal_value (- z) ltac:(lia)) as Hv.
    destruct (decimal_cons (- z) ltac:(lia)) as (c & ds & E). rewrite E in *.
    unfold parse_integer. change (drop_space _) with (MINUS :: c :: ds). cbv beta iota zeta.
    rewrite decide_False, decide_True, digit_run_all, Hv by done. replace (- - z) with z by lia. by rewrite Hrange.
  - pose proof (decimal_digits z ltac:(lia)) as Hd. pose proof (decimal_value z ltac:(lia)) as Hv.
    destruct (decimal_cons z ltac:(lia)) as (c & ds & E). rewrite E in *.
    apply Forall_cons in Hd as Hd'. destruct (is_digit_plain c ltac:(tauto)) as (Hsp & Hp & Hm & _).
    unfold parse_integer. cbn [drop_space]. rewrite Hsp, !decide_False by done.
    rewrite digit_run_all, Hv by done. by rewrite Hrange.
Qed.

Lemma show_no_cr z : split_line (show z) = None.
Proof.
  apply split_line_no_cr. unfold show. intros Hin.
  assert (∀ n, 0 <= n → CR ∉ decimal n) as Hd.
  { intros n Hn Hc. pose proof (decimal_digits n Hn) as H. rewrite Forall_forall in H.
    by destruct (is_digit_plain CR (H _ Hc)) as (_ & _ & _ & ?). }
  destruct (Z.ltb_spec z 0).
  - apply elem_of_cons in Hin as [?|Hin]; [done|]. by apply Hd in Hin; [|lia].
  - by apply Hd in Hin.
Qed.

(** ** Input in pieces *)

Section pieces.
Context (reserve_limit : Z).
Abbreviation parse_loop := (parse_loop reserve_limit).
Abbreviation parse := (parse reserve_limit).

(** The parser with more input in its buffer. *)
Definition more (d : bytes) (p : RESPParser) : RESPParser := set_buffer (buffer p ++ d) p.

Lemma parse_more d p f : (weight (more d p) < f)%nat → parse d p = parse_loop f (more d p).
Proof. intros Hf. apply parse_loop_stable; [apply parse_fuel_enough|done]. Qed.

(** An array that has been started stays open. *)
Lemma parse_loop_element fuel p p' :
  state_ p = ArrayElement → parse_loop fuel p = (Nullopt, p') → state_ p' = ArrayElement.
Proof.
  revert p. induction fuel as [|fuel IH]; intros p Hs; cbn [Resp.parse_loop]; [done|].
  destruct (buffer p) as [|c rest]; [by intros [= <-]|]. rewrite Hs.
  destruct (parse_loop fuel (set_state Start p)) as [[v| | |] q]; try done.
  - case_match; [done|]. by apply IH.
  - by intros [= <-].
Qed.

(** A call that waits for more input, outside an array, can be resumed: the
    next call continues as if all the input had come at once. *)
Lemma parse_loop_resume fuel p p' d f1 f2 :
  parse_loop fuel p = (Nullopt, p') → state_ p' ≠ Start → state_ p' ≠ ArrayElement →
  (weight (more d p') < f1)%nat → (weight (more d p) < f2)%nat →
  parse_loop f1 (more d p') = parse_loop f2 (more d p).
Proof.
  revert p f2. induction fuel as [|fuel IH]; intros p f2; cbn [Resp.parse_loop]; [done|].
  intros H Hns Hne H1 H2.
  assert (p' = p → parse_loop f1 (more d p') = parse_loop f2 (more d p)) as Hsame.
  { intros ->. by apply parse_loop_stable. }
  destruct (buffer p) as [|c rest] eqn:Hb; [by injection H as <-; auto|].
  destruct f2 as [|f2]; [lia|]. unfold weight in H2.
  assert (buffer (more d p) = c :: rest ++ d) as Hbd by (simpl; by rewrite Hb).
  rewrite Hbd in H2. simpl in H2.
  destruct (state_ p) eqn:Hs.
  - destruct (type_state c) as [s|] eqn:Hc; [|by injection H as <-].
    rewrite (IH _ f2 H) by (done || unfold weight; simpl; destruct s; lia).
    cbn [Resp.parse_loop]. rewrite Hbd. simpl state_. by rewrite Hs, Hc.
  - apply Hsame. revert H. apply (on_line_ind (λ r, r = _ → _)); [by intros [= <-]|done].
  - apply Hsame. revert H. apply (on_line_ind (λ r, r = _ → _)); [by intros [= <-]|done].
  - apply Hsame. revert H. apply (on_line_ind (λ r, r = _ → _)); [by intros [= <-]|].
    intros line r _. destruct (parse_integer line); [done|]. by intros [= <-].
  - unfold on_line, read_line in H. destruct (split_line (buffer p)) as [[line r]|] eqn:Hl;
      [|injection H as <-; by auto].
    pose proof (split_line_shorter _ _ _ Hl) as Hlen. rewrite Hb in Hlen. simpl in Hlen.
    destruct (parse_integer line) as [len|] eqn:Hi; [|by injection H as <-].
    destruct (len =? -1) eqn:Hm; [done|].
    rewrite (IH _ f2 H) by (done || unfold weight; simpl; rewrite length_app in *; lia).
    cbn [Resp.parse_loop]. rewrite Hbd. simpl state_. rewrite Hs. unfold on_line, read_line.
    cbn [more set_buffer buffer]. rewrite (split_line_app _ _ _ d Hl), Hi, Hm. done.
  - case_match; [|done]. injection H as <-. auto.
  - unfold on_line, read_line in H. destruct (split_line (buffer p)) as [[line r]|] eqn:Hl;
      [|injection H as <-; by auto].
    destruct (parse_integer line) as [len|]; [|by injection H as <-].
    case_match; [by injection H as <-|]. case_match; [done|]. case_match; [done|].
    by apply parse_loop_element in H.
  - destruct (parse_loop fuel (set_state Start p)) as [[v| | |] q]; try done.
    + case_match; [done|]. by apply parse_loop_element in H.
    + by injection H as <-.
Qed.

(** The values the parser delivers: no line end inside a line, integers that
    fit, bulk strings shorter than 2^63 - 2, and of the arrays the empty one. *)
Definition deliverable (v : RESPValue) : Prop :=
  match v with
  | SimpleString s | Error s => split_line s = None
  | Integer i => - 2 ^ 63 <= i < 2 ^ 63
  | BulkString s => zlen s < 2 ^ 63 - 2
  | NullBulkString => True
  | Array arr => arr = []
  end.

(** The first line of a value: state of the parser, text, and what follows. *)
Definition first_line (v : RESPValue) : State * Init.Byte.byte * bytes * bytes :=
  match v with
  | SimpleString s => (InSimpleString, PLUS, s, [])
  | Error s => (InError, MINUS, s, [])
  | Integer i => (InInteger, COLON, show i, [])
  | BulkString s => (BulkStringLen, DOLLAR, show (zlen s), s ++ CRLF)
  | NullBulkString => (BulkStringLen, DOLLAR, str "-1", [])
  | Array arr => (ArrayLen, STAR, show (zlen arr), concat (serialize <$> arr))
  end.

Lemma serialize_first_line v st tag line tail :
  first_line v = (st, tag, line, tail) → serialize v = tag :: line ++ CRLF ++ tail.
Proof. by destruct v; intros [= <- <- <- <-]. Qed.

Lemma first_line_ok v st tag line tail :
  deliverable v → first_line v = (st, tag, line, tail) →
  type_state tag = Some st ∧ split_line line = None ∧ st ≠ Start ∧ st ≠ ArrayElement
  ∧ st ≠ BulkStringData.
Proof.
  destruct v; intros Hd [= <- <- <- <-]; split_and!; try done; apply show_no_cr.
Qed.

(** The parser in the middle of a value. *)
Definition waiting (st : State) (b : bytes) : RESPParser := mkParser st b 0 0 0 [].

Lemma start_step tag st rest f :
  type_state tag = Some st →
  parse_loop (S f) (waiting Start (tag :: rest)) = parse_loop f (waiting st rest).
Proof. intros H. cbn [Resp.parse_loop buffer state_ waiting]. by rewrite H. Qed.

Lemma wait_line st b f :
  st ≠ Start → st ≠ ArrayElement → st ≠ BulkStringData → split_line b = None →
  parse_loop (S f) (waiting st b) = (Nullopt, waiting st b).
Proof.
  intros Hs Ha Hd Hb. unfold waiting. cbn [Resp.parse_loop buffer state_]. destruct b as [|c b]; [done|].
  destruct st; try done; unfold on_line, read_line; cbn [buffer]; by rewrite Hb.
Qed.

(** A complete first line. *)
Lemma line_step st line tail f :
  split_line line = None → st ≠ Start → st ≠ ArrayElement → st ≠ BulkStringData →
  parse_loop (S f) (waiting st (line ++ CRLF ++ tail))
  = match st with
    | InSimpleString => (Parsed (SimpleString line), new_parser)
    | InError => (Parsed (Error line), new_parser)
    | InInteger => match parse_integer line with
                   | None => (Nullopt, new_parser)
                   | Some n => (Parsed (Integer n), new_parser)
                   end
    | BulkStringLen =>
        match parse_integer line with
        | None => (Nullopt, new_parser)
        | Some len => if len =? -1 then (Parsed NullBulkString, new_parser)
                      else parse_loop f (mkParser BulkStringData tail len 0 0 [])
        end
    | _ =>
        match parse_integer line with
        | None => (Nullopt, new_parser)
        | Some len =>
            if len <? 0 then (Nullopt, new_parser)
            else if reserve_limit <? len then (Throws, mkParser ArrayLen tail 0 0 len [])
            else if len =? 0 then (Parsed (Array []), new_parser)
            else parse_loop f (mkParser ArrayElement tail 0 0 len [])
        end
    end.
Proof.
  intros Hl Hs Ha Hd. pose proof (split_line_crlf line tail Hl) as E.
  destruct (line ++ CRLF ++ tail) as [|c r] eqn:Hb; [done|].
  cbn [Resp.parse_loop buffer state_ waiting]. unfold waiting.
  destruct st; try done; unfold on_line, read_line; cbn [buffer]; by rewrite E.
Qed.

Lemma bulk_data_step s tail f :
  zlen s < 2 ^ 63 - 2 →
  parse_loop (S f) (mkParser BulkStringData (s ++ CRLF ++ tail) (zlen s) 0 0 [])
  = (Parsed (BulkString s), new_parser).
Proof.
  intros Hs. pose proof (zlen_nonneg s). pose proof (zlen_nonneg tail).
  cbn [Resp.parse_loop buffer state_]. destruct (s ++ CRLF ++ tail) as [|c r] eqn:E;
    [by destruct s|]. rewrite <- E. cbn [bulk_len_ bulk_read_ buffer].
  rewrite !u64_small by lia. rewrite !zlen_app. change (zlen CRLF) with 2.
  destruct (Z.ltb_spec (zlen s + (2 + zlen tail)) (zlen s + 2 - 0)); [lia|].
  rewrite Z.min_l by lia. unfold zlen at 1. by rewrite Nat2Z.id, take_app_length.
Qed.

(** A whole value, with anything behind it. *)
Lemma parse_whole v rest :
  0 <= reserve_limit → deliverable v →
  parse (serialize v ++ rest) new_parser = (Parsed v, new_parser).
Proof.
  intros Hlim Hd. destruct (first_line v) as [[[st tag] line] tail] eqn:Hfl.
  destruct (first_line_ok _ _ _ _ _ Hd Hfl) as (Ht & Hl & Hs & Ha & Hb).
  rewrite (serialize_first_line _ _ _ _ _ Hfl). set (d := _ ++ rest).
  rewrite (parse_more d new_parser (S (S (S (weight (more d new_parser)))))) by lia.
  change (more d new_parser) with (waiting Start (tag :: (line ++ CRLF ++ tail) ++ rest)) at 2.
  rewrite (start_step tag st), <- !app_assoc, line_step by done.
  destruct v; injection Hfl as <- <- <- <-; simpl in Hd; try done.
  - by rewrite parse_integer_show.
  - pose proof (zlen_nonneg s). rewrite parse_integer_show by lia.
    destruct (Z.eqb_spec (zlen s) (-1)); [lia|]. rewrite <- app_assoc. by apply bulk_data_step.
  - subst arr. rewrite parse_integer_show by done. change (zlen []) with 0. cbn [Z.ltb Z.compare].
    destruct (Z.ltb_spec reserve_limit 0); [lia|done].
Qed.

(** A complete first line of a value, with too little behind it. *)
Lemma bulk_data_wait v st tag line k b f :
  deliverable v → first_line v = (st, tag, line, k ++ b) → b ≠ [] →
  ∃ p, parse_loop (S (S f)) (waiting st (line ++ CRLF ++ k)) = (Nullopt, p)
  ∧ state_ p ≠ Start ∧ state_ p ≠ ArrayElement.
Proof.
  intros Hd Hfl Hb. destruct (first_line_ok _ _ _ _ _ Hd Hfl) as (Ht & Hl & Hs & Ha & Hdt).
  rewrite line_step by done. pose proof (f_equal snd Hfl) as Htl.
  destruct v; simpl in Hd, Htl; try (symmetry in Htl; by apply app_eq_nil in Htl as [_ ?]).
  - injection Hfl as <- _ <-. pose proof (zlen_nonneg s). rewrite parse_integer_show by lia.
    destruct (Z.eqb_spec (zlen s) (-1)); [lia|]. cbn [Resp.parse_loop buffer state_].
    destruct k as [|c k]; [eexists; split; [done|done]|].
    cbn [bulk_len_ bulk_read_ buffer]. rewrite u64_small by lia.
    assert (0 < zlen b) by (destruct b; [done|]; unfold zlen; simpl; lia).
    apply (f_equal zlen) in Htl. rewrite !zlen_app in Htl. change (zlen CRLF) with 2 in Htl.
    destruct (Z.ltb_spec (zlen (c :: k)) (zlen s + 2 - 0)); [|lia]. eauto.
  - subst arr. symmetry in Htl. by apply app_eq_nil in Htl as [_ ?].
Qed.

(** A proper, non-empty prefix of a value leaves the parser waiting. *)
Lemma parse_prefix v a b :
  deliverable v → serialize v = a ++ b → a ≠ [] → b ≠ [] →
  ∃ p, parse a new_parser = (Nullopt, p) ∧ state_ p ≠ Start ∧ state_ p ≠ ArrayElement.
Proof.
  intros Hd Hser Hna Hnb. destruct (first_line v) as [[[st tag] line] tail] eqn:Hfl.
  destruct (first_line_ok _ _ _ _ _ Hd Hfl) as (Ht & Hl & Hs & Ha & Hb).
  rewrite (serialize_first_line _ _ _ _ _ Hfl) in Hser. destruct a as [|t a]; [done|].
  assert (t = tag ∧ (line ++ CRLF) ++ tail = a ++ b) as [-> Hcat]
    by (rewrite <- app_assoc; by injection Hser).
  rewrite (parse_more _ new_parser (S (S (S (weight (more (tag :: a) new_parser)))))) by lia.
  change (more (tag :: a) new_parser) with (waiting Start (tag :: a)) at 2.
  rewrite (start_step tag st) by done.
  assert ((∃ k, k ≠ [] ∧ line ++ CRLF = a ++ k) ∨ (∃ k, a = line ++ CRLF ++ k ∧ tail = k ++ b))
    as [(k & Hk & Hcut)|(k & -> & Htail)].
  { apply app_eq_inv in Hcat as [([|c k] & Hk & Hbk)|(k & Hk & Htail)].
    - right. exists []. rewrite app_nil_r in Hk. by rewrite app_nil_r.
    - left. by exists (c :: k).
    - right. exists k. by rewrite app_assoc. }
  - rewrite wait_line; [|done..|by eapply split_line_prefix]. eauto.
  - eapply bulk_data_wait; [done|by rewrite Hfl, Htail|done].
Qed.

(** Successive calls of [parse] on the pieces of the input. *)
Fixpoint feed (chunks : list bytes) (p : RESPParser) : list parse_result * RESPParser :=
  match chunks with
  | [] => ([], p)
  | c :: chunks =>
      let '(r, p) := parse c p in
      let '(rs, p) := feed chunks p in
      (r :: rs, p)
  end.

(** The parser has been given [a] and waits for the rest of a value. *)
Definition given (a : bytes) (p : RESPParser) : Prop :=
  (a = [] ∧ p = new_parser)
  ∨ parse a new_parser = (Nullopt, p) ∧ state_ p ≠ Start ∧ state_ p ≠ ArrayElement.

Lemma given_parse a d p : given a p → parse d p = parse (a ++ d) new_parser.
Proof.
  intros [[-> ->]|(Ha & Hs & He)]; [done|].
  rewrite (parse_more d p (S (weight (more d p)))) by lia.
  rewrite (parse_more (a ++ d) new_parser (S (weight (more (a ++ d) new_parser)))) by lia.
  change (more (a ++ d) new_parser) with (more d (more a new_parser)).
  by apply (parse_loop_resume (parse_fuel (more a new_parser))); [..|lia|lia].
Qed.

Lemma given_more v a d b p :
  deliverable v → given a p → serialize v = a ++ d ++ b → b ≠ [] →
  ∃ p', parse d p = (Nullopt, p') ∧ given (a ++ d) p'.
Proof.
  intros Hd Hg Hser Hb. rewrite (given_parse a d p Hg).
  destruct (decide (a ++ d = [])) as [E|Hne].
  - rewrite E. exists new_parser. by split; [|left].
  - rewrite app_assoc in Hser. destruct (parse_prefix v (a ++ d) b Hd Hser Hne Hb) as (p' & Hp & Hst).
    exists p'. split; [done|]. right. auto.
Qed.

Lemma feed_pieces v a chunks c p :
  0 <= reserve_limit → deliverable v → given a p →
  serialize v = a ++ concat chunks ++ c → c ≠ [] →
  feed (chunks ++ [c]) p = (replicate (length chunks) Nullopt ++ [Parsed v], new_parser).
Proof.
  intros Hlim Hd. revert a p. induction chunks as [|d chunks IH]; intros a p Hg Hser Hc; simpl in *.
  - rewrite (given_parse a c p Hg), <- Hser, <- (app_nil_r (serialize v)), parse_whole by done. done.
  - rewrite <- app_assoc in Hser.
    destruct (given_more v a d (concat chunks ++ c) p) as (p' & Hp & Hg'); [done..| |].
    { by intros [_ ?]%app_eq_nil. }
    rewrite app_assoc in Hser. by rewrite Hp, (IH (a ++ d) p' Hg' Hser Hc).
Qed.
End pieces.
