(* ===== verification/Protocol.v ===== *)
(** * What the RESP code guarantees

    The claims about src/engine/src/resp.cpp: serialised values can be told
    apart, the parser ends on every input and delivers scalar values in
    whatever pieces they arrive, and the two situations in which it fails:
    arrays and pipelined input. *)

From S2P Require Import Prelude Resp.

(** ** Serialisation is unambiguous *)

Fixpoint value_depth_ind (Q : RESPValue → Prop)
    (Hsimple : ∀ s, Q (SimpleString s)) (Herror : ∀ s, Q (Error s)) (Hint : ∀ i, Q (Integer i))
    (Hbulk : ∀ s, Q (BulkString s)) (Hnull : Q NullBulkString)
    (Harray : ∀ arr, Forall Q arr → Q (Array arr)) (v : RESPValue) : Q v :=
  match v with
  | SimpleString s => Hsimple s
  | Error s => Herror s
  | Integer i => Hint i
  | BulkString s => Hbulk s
  | NullBulkString => Hnull
  | Array arr =>
      Harray arr
        ((fix all (l : list RESPValue) : Forall Q l :=
            match l with
            | [] => Forall_nil_2 Q
            | x :: l =>
                Forall_cons_2 Q x l
                  (value_depth_ind Q Hsimple Herror Hint Hbulk Hnull Harray x) (all l)
            end) arr)
  end.

(** Values whose text says what they are: no line end inside a line, numbers
    and sizes within [int64_t]. *)
Fixpoint printable (v : RESPValue) : Prop :=
  match v with
  | SimpleString s | Error s => split_line s = None
  | Integer i => - 2 ^ 63 <= i < 2 ^ 63
  | BulkString s => zlen s < 2 ^ 63
  | NullBulkString => True
  | Array arr => zlen arr < 2 ^ 63 ∧ foldr (λ v P, printable v ∧ P) True arr
  end.

Lemma printable_all arr : foldr (λ v P, printable v ∧ P) True arr ↔ Forall printable arr.
Proof.
  induction arr as [|v arr IH]; simpl; [by split|]. by rewrite Forall_cons, IH.
Qed.

Lemma line_unique l1 l2 r1 r2 :
  split_line l1 = None → split_line l2 = None →
  l1 ++ CRLF ++ r1 = l2 ++ CRLF ++ r2 → l1 = l2 ∧ r1 = r2.
Proof.
  intros H1 H2 E. pose proof (split_line_crlf l1 r1 H1) as E1.
  rewrite E, split_line_crlf in E1 by done. by injection E1.
Qed.

Lemma first_line_clean v st tag line tail :
  printable v → first_line v = (st, tag, line, tail) → split_line line = None.
Proof. destruct v; intros Hp [= <- <- <- <-]; (done || apply show_no_cr). Qed.

(** Two values with the same text in front have the same first line. *)
Lemma serialize_first v w a b st tag line tail st' tag' line' tail' :
  printable v → printable w →
  first_line v = (st, tag, line, tail) → first_line w = (st', tag', line', tail') →
  serialize v ++ a = serialize w ++ b → tag = tag' ∧ line = line' ∧ tail ++ a = tail' ++ b.
Proof.
  intros Hv Hw Fv Fw E.
  rewrite (serialize_first_line _ _ _ _ _ Fv), (serialize_first_line _ _ _ _ _ Fw) in E.
  assert (tag = tag' ∧ line ++ CRLF ++ tail ++ a = line' ++ CRLF ++ tail' ++ b) as [? E'].
  { rewrite !app_assoc. rewrite !app_assoc in E. by injection E. }
  apply line_unique in E';
    [tauto|by apply (first_line_clean v st tag _ tail)|by apply (first_line_clean w st' tag' _ tail')].
Qed.

Lemma show_inj x y :
  - 2 ^ 63 <= x < 2 ^ 63 → - 2 ^ 63 <= y < 2 ^ 63 → show x = show y → x = y.
Proof.
  intros Hx Hy E. pose proof (parse_integer_show x Hx) as Ex.
  rewrite E, parse_integer_show in Ex by done. by injection Ex.
Qed.

Lemma serialize_list_inj arr :
  Forall (λ v, ∀ w a b, printable v → printable w →
            serialize v ++ a = serialize w ++ b → v = w ∧ a = b) arr →
  ∀ arr' a b, length arr = length arr' → Forall printable arr → Forall printable arr' →
  concat (serialize <$> arr) ++ a = concat (serialize <$> arr') ++ b → arr = arr' ∧ a = b.
Proof.
  induction 1 as [|v arr Hv _ IH]; intros [|w arr'] a b Hl Hp Hp' E; try done.
  apply Forall_cons in Hp as [Hpv Hp]. apply Forall_cons in Hp' as [Hpw Hp'].
  cbn [fmap list_fmap concat] in E. rewrite <- !app_assoc in E.
  apply Hv in E as [-> E]; [|done..]. apply IH in E as [-> ->]; [done|by injection Hl|done..].
Qed.

(** No serialised value is a prefix of another: from a stream of
    concatenated replies the receiver can recover the first value and where it
    ends. *)
Theorem serialize_unambiguous v w a b :
  printable v → printable w → serialize v ++ a = serialize w ++ b → v = w ∧ a = b.
Proof.
  revert w a b. induction v as [s|s|i|s| |arr IH] using value_depth_ind; intros w a b Hv Hw E;
    pose proof Hv as Hv'; pose proof Hw as Hw'; destruct w; simpl in Hv, Hw;
    eapply serialize_first in E as (Et & El & E); try reflexivity; try done; simplify_eq; auto.
  all: try (pose proof (zlen_nonneg s)); try (pose proof (zlen_nonneg s0)).
  all: try (pose proof (zlen_nonneg arr)); try (pose proof (zlen_nonneg arr0)).
  - apply show_inj in El; [by subst|lia..].
  - apply show_inj in El; [|lia..]. rewrite <- !app_assoc in E.
    apply app_inj_1 in E as [-> E]; [|unfold zlen in El; lia]. split; [done|by injection E].
  - change (str "-1") with (show (-1)) in El. apply show_inj in El; lia.
  - change (str "-1") with (show (-1)) in El. apply show_inj in El; lia.
  - rewrite !printable_all in *. destruct Hv as [? Hv], Hw as [? Hw].
    apply show_inj in El; [|lia..].
    apply (serialize_list_inj arr IH) in E as [-> ->]; [done|unfold zlen in El; lia|done..].
Qed.

Lemma serialize_unambiguous_witness :
  let v := Array [BulkString (str "GET"); BulkString (str "key")] in
  v = v ∧ str "+OK" = str "+OK".
Proof. apply serialize_unambiguous; [simpl; repeat split; done..|done]. Defined.

(** ** Commands *)

Lemma bulk_args_Some vs args : bulk_args vs = Some args ↔ vs = BulkString <$> args.
Proof.
  revert args. induction vs as [|v vs IH]; intros args.
  - split; [by intros [= <-]|]. by destruct args.
  - split.
    + destruct v; simpl; try done. intros (args' & Ha & [= <-])%bind_Some.
      apply IH in Ha as ->. done.
    + destruct args as [|a args]; [done|]. intros [= -> ->]. simpl.
      by rewrite (proj2 (IH args) eq_refl).
Qed.

(** A value is a command exactly when it is a non-empty array of bulk
    strings: the first, in upper case, is the name, the others are the
    arguments. *)
Theorem to_command_correct v c :
  to_command v = Some c ↔
  ∃ name, v = Array (BulkString <$> name :: args c) ∧ command c = toupper <$> name.
Proof.
  split.
  - destruct v as [| | | | |[|[| | |name| |] rest]]; simpl; try done.
    intros (as_ & Ha & [= <-])%bind_Some. apply bulk_args_Some in Ha as ->. eauto.
  - intros (name & -> & Hc). destruct c as [cmd as_]. simpl in *.
    replace (bulk_args _) with (Some as_) by (symmetry; by apply bulk_args_Some). by rewrite Hc.
Qed.

(** ** The parser *)

Section claims.
Context (reserve_limit : Z).
Abbreviation parse := (parse reserve_limit).

(** [parse], with its loop and its recursion, ends on every input and in
    every state, and never leaves more than it was given. *)
Theorem resp_parse_terminates data p :
  (parse data p).1 ≠ Running
  ∧ (length (buffer (parse data p).2) <= length (buffer p) + length data)%nat.
Proof.
  destruct (parse_loop_ended reserve_limit _ _ (parse_fuel_enough (more data p))) as [[H1 H2] _].
  split; [done|]. simpl in H2. by rewrite length_app in H2.
Qed.

(** C35: a scalar value is delivered whatever pieces its text arrives in: every
    call but the last answers that it needs more, the last one delivers the
    value, and the parser is ready for the next. *)
Theorem resp_scalar_roundtrip v chunks c :
  0 <= reserve_limit → deliverable v → concat chunks ++ c = serialize v → c ≠ [] →
  feed reserve_limit (chunks ++ [c]) new_parser
  = (replicate (length chunks) Nullopt ++ [Parsed v], new_parser).
Proof.
  intros Hlim Hd Hser Hc. apply (feed_pieces reserve_limit v []); [done|done|by left|done|done].
Qed.

(** C39: no input is ever parsed into a command. Delivering an array element
    resets the parser, so it forgets the array it was in; a non-empty array is
    never completed, in whatever state the parser is. *)
Theorem resp_never_delivers_command data p v p' :
  parse data p = (Parsed v, p') → to_command v = None.
Proof.
  intros [_ Hna]%parse_loop_value. destruct v as [| | | | |[|x xs]]; try done. by destruct (Hna x xs).
Qed.

(** Input behind a value in the same buffer is lost: the value is
    delivered and the parser is as good as new, its buffer empty. *)
Theorem resp_pipelined_input_dropped v rest :
  0 <= reserve_limit → deliverable v →
  parse (serialize v ++ rest) new_parser = (Parsed v, new_parser).
Proof. apply parse_whole. Qed.

Lemma huge_array n rest :
  0 <= n < 2 ^ 63 → reserve_limit < n →
  (parse ([STAR] ++ show n ++ CRLF ++ rest) new_parser).1 = Throws.
Proof.
  intros Hn Hlim. set (d := [STAR] ++ _).
  rewrite (parse_more reserve_limit d new_parser (S (S (weight (more d new_parser))))) by lia.
  change (more d new_parser) with (waiting Start (STAR :: show n ++ CRLF ++ rest)) at 2.
  rewrite (start_step _ STAR ArrayLen), line_step, parse_integer_show by (done || apply show_no_cr || lia).
  destruct (Z.ltb_spec n 0); [lia|]. destruct (Z.ltb_spec reserve_limit n); [done|lia].
Qed.
End claims.

(** ** Witnesses *)

Lemma resp_scalar_roundtrip_witness :
  feed 1000 ([str "$6"; CRLF ++ str "fo"; []] ++ [str "obar" ++ CRLF]) new_parser
  = ([Nullopt; Nullopt; Nullopt; Parsed (BulkString (str "foobar"))], new_parser).
Proof.
  apply (resp_scalar_roundtrip 1000 (BulkString (str "foobar"))
           [str "$6"; CRLF ++ str "fo"; []] (str "obar" ++ CRLF)); done.
Defined.

(** The integer that is parsed from the first bytes of a command. *)
Lemma resp_never_delivers_command_witness : to_command (Integer 42) = None.
Proof.
  apply (resp_never_delivers_command 1000 (str ":42" ++ CRLF) new_parser (Integer 42) new_parser).
  vm_compute. done.
Defined.

Lemma resp_pipelined_input_dropped_witness :
  parse 1000 (serialize (Integer 1) ++ serialize (Integer 2)) new_parser
  = (Parsed (Integer 1), new_parser).
Proof. apply resp_pipelined_input_dropped; [lia|simpl; lia]. Defined.
