(* ===== verification/Epoll.v ===== *)
(** * The epoll server

    src/engine/src/epoll_server.cpp: the listening socket, the client
    connections and the event loop. The answers of the system calls are
    arguments of the operations that make them; the interest list of the epoll
    instance and the set of open descriptors are part of the state, so that
    what the server leaves behind in the kernel can be stated. *)

From S2P Require Import Prelude Resp.

(** The event bits of <sys/epoll.h>. *)
Definition EPOLLIN : Z := 0x1.
Definition EPOLLOUT : Z := 0x4.
Definition EPOLLERR : Z := 0x8.
Definition EPOLLHUP : Z := 0x10.
Definition EPOLLET : Z := 0x80000000.

(** [ev & mask], as a condition. *)
Definition has (ev mask : Z) : bool := negb (Z.land ev mask =? 0).

Record ClientConnection := mkClient {
  fd : Z;
  parser : RESPParser;
  write_buffer : bytes;
  should_close : bool;
}.

Definition new_client (socket_fd : Z) : ClientConnection :=
  mkClient socket_fd new_parser [] false.

(** What a call that runs user-visible code gives: a result, or an exception
    that nothing catches. [Diverges] is the out-of-fuel case, which the
    theorems exclude. *)
Inductive outcome (A : Type) :=
| Ok (a : A)
| Escapes
| Diverges.
Arguments Ok {A} a.
Arguments Escapes {A}.
Arguments Diverges {A}.

(** ** Answers of the system calls *)

(** [recv]: [Received []] is the return value 0; and, when replies are pending
    then, whether the [epoll_ctl] that follows succeeds. *)
Inductive recv_result := Received (data : bytes) (modified : bool) | RecvAgain | RecvError.

(** [send]: the number of bytes taken. *)
Inductive send_result := Sent (n : nat) | SendAgain | SendError.

(** [accept], and whether [fcntl] and [epoll_ctl] then succeed. *)
Inductive accept_result :=
| AcceptAgain
| AcceptError
| Accepted (client_fd : Z) (nonblocking added : bool).

(** The calls of [create_listen_socket] and [start], in order. *)
Record start_results := mkStartResults {
  r_socket : option Z;
  r_reuseaddr : bool;
  r_reuseport : bool;
  r_bind : bool;
  r_listen : bool;
  r_nonblocking : bool;
  r_epoll_create : option Z;
  r_add : bool;
}.

(** One ready descriptor of [epoll_wait] and the answers of the calls made
    while it is handled. A list that ends stands for [EAGAIN]. [ev_modified]:
    whether the [epoll_ctl] after the sends succeeds. *)
Record event := mkEvent {
  ev_fd : Z;
  ev_mask : Z;
  ev_accepts : list accept_result;
  ev_recvs : list recv_result;
  ev_sends : list send_result;
  ev_modified : bool;
}.

(** One return of [epoll_wait]. *)
Inductive wait_result :=
| Ready (events : list event)
| Interrupted
| WaitError.

(** The state of the server: the members of [EpollServer], the interest list
    and the descriptors it holds open, and the state behind the handler. *)
Record EpollServer (H : Type) := mkServer {
  listen_fd_ : Z;
  epoll_fd_ : Z;
  running_ : bool;
  clients_ : gmap Z ClientConnection;
  registered : gmap Z Z;
  open_fds : gset Z;
  handler_state : H;
}.
Arguments mkServer {H}.
Arguments listen_fd_ {H}.
Arguments epoll_fd_ {H}.
Arguments running_ {H}.
Arguments clients_ {H}.
Arguments registered {H}.
Arguments open_fds {H}.
Arguments handler_state {H}.

Section server.
(** The command handler and the state it works on. *)
Context {H : Type} (command_handler_ : option (RESPCommand → H → bytes * H)).
Context (reserve_limit : Z).

Definition make_server (h : H) : EpollServer H := mkServer (-1) (-1) false ∅ ∅ ∅ h.

Definition with_open (fds : gset Z) (s : EpollServer H) : EpollServer H :=
  mkServer (listen_fd_ s) (epoll_fd_ s) (running_ s) (clients_ s) (registered s) fds
    (handler_state s).

(** [close(fd)]; closing a descriptor also takes it off the interest list. *)
Definition close_fd (f : Z) (s : EpollServer H) : EpollServer H :=
  mkServer (listen_fd_ s) (epoll_fd_ s) (running_ s) (clients_ s) (delete f (registered s))
    (open_fds s ∖ {[f]}) (handler_state s).

(** ** Starting and stopping *)

Definition create_listen_socket (r : start_results) (s : EpollServer H) : bool * EpollServer H :=
  match r_socket r with
  | None =>
      (false, mkServer (-1) (epoll_fd_ s) (running_ s) (clients_ s) (registered s) (open_fds s)
                (handler_state s))
  | Some f =>
      let s := mkServer f (epoll_fd_ s) (running_ s) (clients_ s) (registered s)
                 ({[f]} ∪ open_fds s) (handler_state s) in
      if negb (r_reuseaddr r) then (false, close_fd (listen_fd_ s) s)
      else if negb (r_reuseport r) then (false, close_fd (listen_fd_ s) s)
      else if negb (r_bind r) then (false, close_fd (listen_fd_ s) s)
      else if negb (r_listen r) then (false, close_fd (listen_fd_ s) s)
      else if negb (r_nonblocking r) then (false, close_fd (listen_fd_ s) s)
      else (true, s)
  end.

(** The effect of an [epoll_ctl] that succeeds, with the edge trigger. *)
Definition set_interest (f events : Z) (s : EpollServer H) : EpollServer H :=
  mkServer (listen_fd_ s) (epoll_fd_ s) (running_ s) (clients_ s)
    (<[f := Z.lor events EPOLLET]> (registered s)) (open_fds s) (handler_state s).

(** [added], [modified]: the answer of [epoll_ctl]. *)
Definition add_to_epoll (added : bool) (f events : Z) (s : EpollServer H) : bool * EpollServer H :=
  (added, if added then set_interest f events s else s).

Definition modify_epoll (modified : bool) (f events : Z) (s : EpollServer H) : bool * EpollServer H :=
  (modified, if modified then set_interest f events s else s).

Definition start (r : start_results) (s : EpollServer H) : bool * EpollServer H :=
  if running_ s then (false, s)
  else
    match create_listen_socket r s with
    | (false, s) => (false, s)
    | (true, s) =>
        match r_epoll_create r with
        | None =>
            (false, close_fd (listen_fd_ s)
                      (mkServer (listen_fd_ s) (-1) (running_ s) (clients_ s) (registered s)
                         (open_fds s) (handler_state s)))
        | Some e =>
            let s := mkServer (listen_fd_ s) e (running_ s) (clients_ s) ∅ ({[e]} ∪ open_fds s)
                       (handler_state s) in
            let '(added, s) := add_to_epoll (r_add r) (listen_fd_ s) EPOLLIN s in
            if negb added then (false, close_fd (listen_fd_ s) (close_fd (epoll_fd_ s) s))
            else
              (true, mkServer (listen_fd_ s) (epoll_fd_ s) true (clients_ s) (registered s)
                       (open_fds s) (handler_state s))
        end
    end.

Definition stop (s : EpollServer H) : EpollServer H :=
  if negb (running_ s) then s
  else
    let fds := open_fds s ∖ dom (clients_ s) in
    let fds := if epoll_fd_ s =? -1 then fds else fds ∖ {[epoll_fd_ s]} in
    let fds := if listen_fd_ s =? -1 then fds else fds ∖ {[listen_fd_ s]} in
    mkServer (-1) (-1) false ∅ ∅ fds (handler_state s).

(** ** Connections *)

Fixpoint accept_connection (rs : list accept_result) (s : EpollServer H) : EpollServer H :=
  match rs with
  | [] => s
  | AcceptAgain :: _ => s
  | AcceptError :: rs => accept_connection rs s
  | Accepted client_fd nonblocking added :: rs =>
      let s := with_open ({[client_fd]} ∪ open_fds s) s in
      if negb nonblocking then accept_connection rs (close_fd client_fd s)
      else
        let '(added, s) := add_to_epoll added client_fd EPOLLIN s in
        if negb added then accept_connection rs (close_fd client_fd s)
        else accept_connection rs
          (mkServer (listen_fd_ s) (epoll_fd_ s) (running_ s)
             (<[client_fd := new_client client_fd]> (clients_ s)) (registered s) (open_fds s)
             (handler_state s))
  end.

Definition set_client (c : ClientConnection) (s : EpollServer H) : EpollServer H :=
  mkServer (listen_fd_ s) (epoll_fd_ s) (running_ s) (<[fd c := c]> (clients_ s)) (registered s)
    (open_fds s) (handler_state s).

Definition close_client (f : Z) (s : EpollServer H) : EpollServer H :=
  let s := close_fd f s in
  mkServer (listen_fd_ s) (epoll_fd_ s) (running_ s) (delete f (clients_ s)) (registered s)
    (open_fds s) (handler_state s).

(** The reply to one parsed value. *)
Definition reply (v : RESPValue) (h : H) : bytes * H :=
  match to_command v, command_handler_ with
  | Some cmd, Some handler => handler cmd h
  | _, _ => (fmt_error (str "ERR invalid command"), h)
  end.

(** The loop [while (value)] of [handle_client_read]. *)
Fixpoint answer_loop (fuel : nat) (value : parse_result) (p : RESPParser) (wb : bytes) (h : H)
  : outcome (RESPParser * bytes * H) :=
  match value with
  | Nullopt => Ok (p, wb, h)
  | Throws => Escapes
  | Running => Diverges
  | Parsed v =>
      match fuel with
      | O => Diverges
      | S fuel =>
          let '(response, h) := reply v h in
          let '(value, p) := parse reserve_limit [] p in
          answer_loop fuel value p (wb ++ response) h
      end
  end.

(** Every value that is parsed takes input off the buffer. *)
Definition answer_fuel (p : RESPParser) : nat := S (S (length (buffer p))).

Fixpoint handle_client_read (rs : list recv_result) (c : ClientConnection) (s : EpollServer H)
  : outcome (ClientConnection * EpollServer H) :=
  match rs with
  | [] => Ok (c, s)
  | RecvAgain :: _ => Ok (c, s)
  | RecvError :: _ => Ok (mkClient (fd c) (parser c) (write_buffer c) true, s)
  | Received [] _ :: _ => Ok (mkClient (fd c) (parser c) (write_buffer c) true, s)
  | Received data modified :: rs =>
      let '(value, p) := parse reserve_limit data (parser c) in
      match answer_loop (answer_fuel p) value p (write_buffer c) (handler_state s) with
      | Escapes => Escapes
      | Diverges => Diverges
      | Ok (p, wb, h) =>
          let c := mkClient (fd c) p wb (should_close c) in
          let s := mkServer (listen_fd_ s) (epoll_fd_ s) (running_ s) (clients_ s) (registered s)
                     (open_fds s) h in
          let s := match wb with
                   | [] => s
                   | _ => (modify_epoll modified (fd c) (Z.lor EPOLLIN EPOLLOUT) s).2
                   end in
          handle_client_read rs c s
      end
  end.

(** The result of [modify_epoll] is not looked at, here and above. The sends,
    and then the switch of the interest; also gives the bytes that
    went out. *)
Fixpoint send_loop (rs : list send_result) (wb : bytes) : bytes * bytes * bool :=
  match wb, rs with
  | [], _ => ([], [], false)
  | _, [] => ([], wb, false)
  | _, SendAgain :: _ => ([], wb, false)
  | _, SendError :: _ => ([], wb, true)
  | _, Sent n :: rs =>
      let '(out, wb', failed) := send_loop rs (drop n wb) in
      (take n wb ++ out, wb', failed)
  end.

Definition handle_client_write (rs : list send_result) (modified : bool) (c : ClientConnection) (s : EpollServer H)
  : bytes * ClientConnection * EpollServer H :=
  match send_loop rs (write_buffer c) with
  | (out, wb, true) => (out, mkClient (fd c) (parser c) wb true, s)
  | (out, wb, false) =>
      let c := mkClient (fd c) (parser c) wb (should_close c) in
      (out, c, match wb with [] => (modify_epoll modified (fd c) EPOLLIN s).2 | _ => s end)
  end.

(** ** The event loop *)

(** One event; the bytes are those sent to the client. *)
Definition handle_event (e : event) (s : EpollServer H) : outcome (bytes * EpollServer H) :=
  if ev_fd e =? listen_fd_ s then
    Ok ([], if has (ev_mask e) EPOLLIN then accept_connection (ev_accepts e) s else s)
  else
    match clients_ s !! ev_fd e with
    | None => Ok ([], s)
    | Some c =>
        if has (ev_mask e) (Z.lor EPOLLERR EPOLLHUP) then Ok ([], close_client (ev_fd e) s)
        else
          match (if has (ev_mask e) EPOLLIN then handle_client_read (ev_recvs e) c s
                 else Ok (c, s)) with
          | Escapes => Escapes
          | Diverges => Diverges
          | Ok (c, s) =>
              let '(out, c, s) :=
                if has (ev_mask e) EPOLLOUT then handle_client_write (ev_sends e) (ev_modified e) c s
                else ([], c, s) in
              let s := set_client c s in
              Ok (out, if should_close c then close_client (ev_fd e) s else s)
          end
    end.

Fixpoint handle_events (es : list event) (s : EpollServer H) : outcome (list bytes * EpollServer H) :=
  match es with
  | [] => Ok ([], s)
  | e :: es =>
      match handle_event e s with
      | Escapes => Escapes
      | Diverges => Diverges
      | Ok (out, s) =>
          match handle_events es s with
          | Ok (outs, s) => Ok (out :: outs, s)
          | Escapes => Escapes
          | Diverges => Diverges
          end
      end
  end.

(** [run], for as many returns of [epoll_wait] as are given. *)
Fixpoint run (ws : list wait_result) (s : EpollServer H) : outcome (EpollServer H) :=
  match ws with
  | [] => Ok s
  | w :: ws =>
      if negb (running_ s) then Ok s
      else
        match w with
        | Interrupted => run ws s
        | WaitError => Ok s
        | Ready es =>
            match handle_events es s with
            | Ok (_, s) => run ws s
            | Escapes => Escapes
            | Diverges => Diverges
            end
        end
  end.
End server.
