(* ===== verification/EpollFacts.v ===== *)
(** * What the epoll server guarantees

    The invariant of the server (clients, interest list and open descriptors
    agree, pending output is polled for), that starting and stopping leak no
    descriptor, and how the behaviour of the parser shows at the network. *)

From S2P Require Import Prelude Resp Protocol Epoll.

(** The reply to a value that is not a command. *)
Definition ERR_REPLY : bytes := fmt_error (str "ERR invalid command").

(** The interest a connection is registered with: output is polled for exactly
    while some is pending. *)
Definition interest (c : ClientConnection) : Z :=
  Z.lor (match write_buffer c with [] => EPOLLIN | _ => Z.lor EPOLLIN EPOLLOUT end) EPOLLET.

(** A mask a connection may be registered with; [sound] says that no change of
    the mask was refused. *)
Definition polled (sound : Prop) (c : ClientConnection) (mask : Z) : Prop :=
  (mask = Z.lor EPOLLIN EPOLLET ∨ mask = Z.lor (Z.lor EPOLLIN EPOLLOUT) EPOLLET)
  ∧ (sound → mask = interest c).

(** The answer to the call that follows a read. *)
Definition recv_modified (r : recv_result) : bool :=
  match r with Received _ modified => modified | _ => true end.

Section facts.
Context {H : Type} (command_handler_ : option (RESPCommand → H → bytes * H)).
Context (reserve_limit : Z).
Abbreviation handle_client_read := (handle_client_read command_handler_ reserve_limit).
Abbreviation handle_event := (handle_event command_handler_ reserve_limit).
Implicit Types s : EpollServer H.

(** ** Replies *)

Lemma reply_no_command v h : to_command v = None → reply command_handler_ v h = (ERR_REPLY, h).
Proof. intros E. unfold reply. by rewrite E. Qed.

(** One chunk of input: at most one value is answered, with the error reply. *)
Lemma answer_chunk data p wb h :
  let '(value, p') := parse reserve_limit data p in
  answer_loop command_handler_ reserve_limit (answer_fuel p') value p' wb h
  = match value with
    | Parsed _ => Ok (new_parser, wb ++ ERR_REPLY, h)
    | Nullopt => Ok (p', wb, h)
    | _ => Escapes
    end.
Proof.
  pose proof (parse_loop_ended reserve_limit _ _ (parse_fuel_enough (more data p))) as [[Hrun _] _].
  unfold parse. fold (more data p).
  destruct (parse_loop _ _ (more data p)) as [[v| | |] p'] eqn:E; try done.
  pose proof (parse_loop_value _ _ _ _ _ E) as [-> Hna]. unfold answer_fuel. cbn [answer_loop].
  rewrite reply_no_command; [done|].
  destruct v as [| | | | |[|x xs]]; try done. by destruct (Hna x xs).
Qed.

(** The server with another interest list. *)
Definition set_registered (m : gmap Z Z) (s : EpollServer H) : EpollServer H :=
  mkServer (listen_fd_ s) (epoll_fd_ s) (running_ s) (clients_ s) m (open_fds s) (handler_state s).

(** Reading: the connection keeps its descriptor, error replies are appended,
    and the interest follows the output buffer where no change was refused. *)
Definition read_ok (sound : Prop) (c : ClientConnection) (s : EpollServer H)
    (r : outcome (ClientConnection * EpollServer H)) : Prop :=
  match r with
  | Ok (c', s') =>
      fd c' = fd c
      ∧ (∃ mask, s' = set_registered (<[fd c := mask]> (registered s)) s ∧ polled sound c' mask)
      ∧ ∃ n, write_buffer c' = write_buffer c ++ concat (replicate n ERR_REPLY)
  | Escapes => True
  | Diverges => False
  end.

Lemma read_ok_stop sound mask c c' s :
  registered s !! fd c = Some mask → polled sound c mask → fd c' = fd c →
  write_buffer c' = write_buffer c → read_ok sound c s (Ok (c', s)).
Proof.
  intros Hreg Hp Hfd Hwb. split_and!; [done| |exists 0%nat; by rewrite app_nil_r].
  exists mask. rewrite insert_id by done. unfold polled, interest in *. rewrite Hwb. split; [by destruct s|done].
Qed.

Lemma read_ok_step sound c c1 s mask k r :
  fd c1 = fd c → write_buffer c1 = write_buffer c ++ concat (replicate k ERR_REPLY) →
  read_ok sound c1 (set_registered (<[fd c := mask]> (registered s)) s) r → read_ok sound c s r.
Proof.
  intros Hfd Hwb. destruct r as [[c' s']| |]; [|done|done].
  intros (Hfd' & (mask' & -> & Hp) & n & Hn). split_and!; [congruence| |].
  - exists mask'. unfold set_registered. simpl. by rewrite Hfd, insert_insert_eq.
  - exists (k + n)%nat. by rewrite Hn, Hwb, <- app_assoc, replicate_add, concat_app.
Qed.

(** The interest after one chunk. *)
Lemma interest_chunk sound mask (modified : bool) c c1 s k :
  registered s !! fd c = Some mask → polled sound c mask → (sound → modified = true) → fd c1 = fd c →
  write_buffer c1 = write_buffer c ++ concat (replicate k ERR_REPLY) →
  ∃ mask1, polled sound c1 mask1
  ∧ match write_buffer c1 with
    | [] => s
    | _ => (modify_epoll modified (fd c1) (Z.lor EPOLLIN EPOLLOUT) s).2
    end = set_registered (<[fd c := mask1]> (registered s)) s.
Proof.
  intros Hreg Hp Hm Hfd Hwb. unfold polled, interest, modify_epoll in *. simpl.
  destruct (write_buffer c1) as [|x wb].
  - symmetry in Hwb. apply app_eq_nil in Hwb as [Hwb _]. rewrite Hwb in Hp.
    exists mask. rewrite insert_id by done. split; [done|by destruct s].
  - destruct modified.
    + eexists. split; [by split; [right|]|]. unfold set_interest, set_registered. by rewrite Hfd.
    + exists mask. rewrite insert_id by done. split; [|by destruct s].
      split; [apply Hp|]. by intros ?%Hm.
Qed.

Lemma read_spec sound mask rs c s :
  registered s !! fd c = Some mask → polled sound c mask → (sound → Forall (λ r, recv_modified r = true) rs) →
  read_ok sound c s (handle_client_read rs c s).
Proof.
  revert mask c s. induction rs as [|r rs IH]; intros mask c s Hreg Hp Hall; [by eapply read_ok_stop|].
  assert (sound → recv_modified r = true) as Hr by (intros Hx; by apply Hall, Forall_cons in Hx as [? _]).
  assert (sound → Forall (λ r, recv_modified r = true) rs) as Hrs
    by (intros Hx; by apply Hall, Forall_cons in Hx as [_ ?]).
  cbn [Epoll.handle_client_read].
  destruct r as [[|x data] modified| |]; [by eapply read_ok_stop| |by eapply read_ok_stop..].
  pose proof (answer_chunk (x :: data) (parser c) (write_buffer c) (handler_state s)) as Ha.
  destruct (parse reserve_limit (x :: data) (parser c)) as [value p].
  assert (∀ p' k, let wb := write_buffer c ++ concat (replicate k ERR_REPLY) in
    let c1 := mkClient (fd c) p' wb (should_close c) in
    let s0 := mkServer (listen_fd_ s) (epoll_fd_ s) (running_ s) (clients_ s) (registered s)
                (open_fds s) (handler_state s) in
    read_ok sound c s (handle_client_read rs c1
      match wb with [] => s0 | _ => (modify_epoll modified (fd c1) (Z.lor EPOLLIN EPOLLOUT) s0).2 end)) as Hnext.
  { intros p' k wb c1 s0. assert (s0 = s) as -> by by destruct s.
    destruct (interest_chunk sound mask modified c c1 s k Hreg Hp Hr eq_refl eq_refl) as (mask1 & Hp1 & Hs1).
    cbn [write_buffer c1] in Hs1. rewrite Hs1. apply (read_ok_step sound c c1 s mask1 k _ eq_refl eq_refl).
    apply (IH mask1); [|done..]. apply lookup_insert_eq. }
  destruct value as [v| | |]; rewrite Ha; [| |done|done].
  - specialize (Hnext new_parser 1%nat). cbv zeta in Hnext.
    change (concat (replicate 1 ERR_REPLY)) with (ERR_REPLY ++ []) in Hnext.
    by rewrite (app_nil_r ERR_REPLY) in Hnext.
  - specialize (Hnext p 0%nat). cbv zeta in Hnext.
    change (concat (replicate 0 ERR_REPLY)) with ([] : bytes) in Hnext.
    by rewrite app_nil_r in Hnext.
Qed.

(** ** Writing *)

Lemma send_loop_order rs wb :
  let '(out, wb', _) := send_loop rs wb in out ++ wb' = wb.
Proof.
  revert wb. induction rs as [|r rs IH]; intros [|x wb]; try done.
  destruct r as [n| |]; try done. cbn [send_loop]. specialize (IH (drop n (x :: wb))).
  destruct (send_loop rs (drop n (x :: wb))) as [[out wb'] failed].
  by rewrite <- app_assoc, IH, take_drop.
Qed.

Lemma write_spec sound mask rs (modified : bool) c s :
  registered s !! fd c = Some mask → polled sound c mask → (sound → modified = true) →
  let '(out, c', s') := handle_client_write rs modified c s in
  out ++ write_buffer c' = write_buffer c ∧ fd c' = fd c
  ∧ ∃ mask', s' = set_registered (<[fd c := mask']> (registered s)) s
  ∧ (should_close c' = false → polled sound c' mask').
Proof.
  intros Hreg Hp Hm. unfold handle_client_write. pose proof (send_loop_order rs (write_buffer c)) as Ho.
  assert (s = set_registered (<[fd c := mask]> (registered s)) s) as Hs by (rewrite insert_id by done; by destruct s).
  destruct (send_loop rs (write_buffer c)) as [[out wb] [|]]; simpl.
  - split_and!; [done..|]. by exists mask.
  - destruct wb as [|x wb]; simpl; (split_and!; [done..|]).
    + destruct modified; [|exists mask; split; [done|]; intros _; split; [apply Hp|by intros ?%Hm]].
      eexists. split; [done|]. intros _. split; [by left|done].
    + exists mask. split; [done|]. intros _. split; [apply Hp|]. intros Hsound. rewrite (proj2 Hp Hsound).
      unfold interest. rewrite <- Ho. by destruct out.
Qed.

(** ** The invariant *)

(** Clients, interest list and open descriptors agree; the listening socket
    and the epoll instance are none of the clients. [refused]: the clients for
    which a change of the mask was refused. *)
Record srv_inv (refused : gset Z) (s : EpollServer H) : Prop := {
  inv_running : running_ s = true;
  inv_fds : 0 <= listen_fd_ s ∧ 0 <= epoll_fd_ s;
  inv_apart : clients_ s !! listen_fd_ s = None ∧ clients_ s !! epoll_fd_ s = None;
  inv_open : open_fds s = {[listen_fd_ s; epoll_fd_ s]} ∪ dom (clients_ s);
  inv_registered : dom (registered s) = {[listen_fd_ s]} ∪ dom (clients_ s);
  inv_listen : registered s !! listen_fd_ s = Some (Z.lor EPOLLIN EPOLLET);
  inv_polled f c :
    clients_ s !! f = Some c → ∃ mask, registered s !! f = Some mask ∧ polled (f ∉ refused) c mask;
  inv_clients : map_Forall (λ f c, fd c = f ∧ should_close c = false) (clients_ s);
}.

(** The set of refused clients may grow, and forget those that are gone. *)
Lemma srv_inv_refused refused refused' s :
  refused ∩ dom (clients_ s) ⊆ refused' → srv_inv refused s → srv_inv refused' s.
Proof.
  intros Hsub [Hr Hfds Ha Ho Hd Hl Hp Hcl]. split; try done. intros f c Hc.
  destruct (Hp f c Hc) as (mask & ? & Hm & Hs). exists mask. split; [done|]. split; [done|].
  intros Hnf. apply Hs. apply elem_of_dom_2 in Hc. set_solver.
Qed.

(** A client after its event. *)
Lemma update_inv refused s f c c' mask :
  srv_inv refused s → clients_ s !! f = Some c → fd c' = f → should_close c' = false →
  polled (f ∉ refused) c' mask →
  srv_inv refused (set_client c' (set_registered (<[f := mask]> (registered s)) s)).
Proof.
  intros Hi Hc Hf Hsc Hm. pose proof Hi as [Hr Hfds [Hl He] Ho Hd Hlis Hp Hcl].
  assert (f ≠ listen_fd_ s) as Hnl by congruence. pose proof (elem_of_dom_2 _ _ _ Hc) as Hin.
  split; simpl; rewrite ?Hf; try done.
  - rewrite !lookup_insert_ne by congruence. done.
  - rewrite Ho, dom_insert_L. set_solver.
  - rewrite !dom_insert_L, Hd. set_solver.
  - by rewrite lookup_insert_ne.
  - intros f' c0. rewrite !lookup_insert. case_decide; [|apply Hp]. intros [= <-]. subst. eauto.
  - by apply map_Forall_insert_2.
Qed.

Lemma close_inv refused s f c c' mask :
  srv_inv refused s → clients_ s !! f = Some c → fd c' = f →
  srv_inv refused (close_client f (set_client c' (set_registered (<[f := mask]> (registered s)) s))).
Proof.
  intros Hi Hc Hf. pose proof Hi as [Hr Hfds [Hl He] Ho Hd Hlis Hp Hcl].
  assert (f ≠ listen_fd_ s ∧ f ≠ epoll_fd_ s) as [Hnl Hne] by (split; congruence).
  split; simpl; rewrite ?Hf, ?delete_insert_eq; try done.
  - by rewrite !lookup_delete_ne.
  - rewrite Ho, dom_delete_L. apply set_eq. intros x. destruct (decide (x = f)); set_solver.
  - rewrite !dom_delete_L, Hd. apply set_eq. intros x. destruct (decide (x = f)); set_solver.
  - by rewrite lookup_delete_ne.
  - intros f' c0. rewrite !lookup_delete. case_decide; [done|apply Hp].
  - by apply map_Forall_delete.
Qed.

Lemma close_client_inv refused s f c :
  srv_inv refused s → clients_ s !! f = Some c → srv_inv refused (close_client f s).
Proof.
  intros Hi Hc. destruct (inv_clients _ s Hi f c Hc) as [Hf _].
  pose proof (close_inv refused s f c c 0 Hi Hc Hf) as Hcl.
  unfold close_client, close_fd, set_client, set_registered in *. simpl in *.
  by rewrite Hf, !delete_insert_eq in Hcl.
Qed.

(** A new connection: the kernel hands out a descriptor that is not open. *)
Lemma open_inv refused s f :
  srv_inv refused s → f ∉ open_fds s →
  srv_inv refused (close_fd f (with_open ({[f]} ∪ open_fds s) s))
  ∧ srv_inv refused (let s := set_interest f EPOLLIN (with_open ({[f]} ∪ open_fds s) s) in
             mkServer (listen_fd_ s) (epoll_fd_ s) (running_ s)
               (<[f := new_client f]> (clients_ s)) (registered s) (open_fds s) (handler_state s)).
Proof.
  intros Hi Hf. pose proof Hi as [Hr Hfds [Hl He] Ho Hd Hlis Hp Hcl]. rewrite Ho in Hf.
  assert (f ≠ listen_fd_ s ∧ f ≠ epoll_fd_ s ∧ clients_ s !! f = None) as (Hnl & Hne & Hnc).
  { split_and!; [set_solver..|]. apply not_elem_of_dom. set_solver. }
  split; split; simpl; try done.
  - rewrite Ho. set_solver.
  - rewrite dom_delete_L, Hd. set_solver.
  - by rewrite lookup_delete_ne.
  - intros f' c Hc. rewrite lookup_delete_ne by congruence. by apply Hp.
  - by rewrite !lookup_insert_ne.
  - rewrite Ho, dom_insert_L. set_solver.
  - rewrite !dom_insert_L, Hd. set_solver.
  - by rewrite lookup_insert_ne.
  - intros f' c. rewrite !lookup_insert. case_decide; [|apply Hp]. intros [= <-].
    eexists. split; [done|]. split; [by left|done].
  - by apply map_Forall_insert_2.
Qed.

(** The kernel's promise about [accept]: a descriptor it returns is not one
    the process has open. *)
Fixpoint accepts_fresh (rs : list accept_result) (s : EpollServer H) : Prop :=
  match rs with
  | [] | AcceptAgain :: _ => True
  | AcceptError :: rs => accepts_fresh rs s
  | Accepted f nonblocking added :: rs =>
      (f ∉ open_fds s) ∧ accepts_fresh rs (accept_connection [Accepted f nonblocking added] s)
  end.

Lemma accept_inv refused rs s :
  srv_inv refused s → accepts_fresh rs s → srv_inv refused (accept_connection rs s).
Proof.
  revert s. induction rs as [|[| |f nb add] rs IH]; intros s Hi Hf; [done|done|by apply IH|].
  destruct Hf as [Hf Hrest]. destruct (open_inv refused s f Hi Hf) as [Hclosed Hopen].
  cbn [accept_connection] in *. destruct nb; [|by apply IH]. destruct add; by apply IH.
Qed.

(** The event has a refused [modify_epoll]. *)
Definition refuses (e : event) : Prop :=
  ¬ (Forall (λ r, recv_modified r = true) (ev_recvs e) ∧ ev_modified e = true).

#[local] Instance refuses_dec e : Decision (refuses e).
Proof. unfold refuses. apply _. Defined.

(** The clients for which a change was refused since they connected. *)
Definition refused_by (e : event) (refused : gset Z) (s' : EpollServer H) : gset Z :=
  ((if decide (refuses e) then {[ev_fd e]} else ∅) ∪ refused) ∩ dom (clients_ s').

Lemma handle_event_spec refused e s :
  srv_inv refused s → accepts_fresh (ev_accepts e) s →
  match handle_event e s with
  | Ok (_, s') => srv_inv (refused_by e refused s') s'
  | Escapes => True
  | Diverges => False
  end.
Proof.
  intros Hi0 Hf. set (all := (if decide (refuses e) then {[ev_fd e]} else ∅) ∪ refused).
  assert (srv_inv all s) as Hi by (by apply (srv_inv_refused refused); [set_solver|]). clear Hi0.
  assert (∀ s', srv_inv all s' → srv_inv (refused_by e refused s') s') as Hweak.
  { intros s'. apply srv_inv_refused. unfold refused_by. set_solver. }
  unfold Epoll.handle_event. destruct (ev_fd e =? listen_fd_ s).
  { apply Hweak. destruct (has (ev_mask e) EPOLLIN); [by apply accept_inv|done]. }
  destruct (clients_ s !! ev_fd e) as [c|] eqn:Hc; [|by apply Hweak].
  destruct (has (ev_mask e) (Z.lor EPOLLERR EPOLLHUP)); [by eapply Hweak, close_client_inv|].
  destruct (inv_polled _ s Hi _ _ Hc) as (mask & Hreg & Hp). destruct (inv_clients _ s Hi _ _ Hc) as [Hfd Hsc].
  assert (ev_fd e ∉ all → Forall (λ r, recv_modified r = true) (ev_recvs e) ∧ ev_modified e = true) as Hsound.
  { unfold all. destruct (decide (refuses e)) as [|Hn]; [set_solver|]. intros _.
    apply dec_stable in Hn. done. }
  rewrite <- Hfd in Hreg.
  assert (read_ok (ev_fd e ∉ all) c s (if has (ev_mask e) EPOLLIN then handle_client_read (ev_recvs e) c s
                       else Ok (c, s))) as Hread.
  { destruct (has (ev_mask e) EPOLLIN); [|by eapply read_ok_stop].
    apply (read_spec _ mask); [done..|]. by intros [? _]%Hsound. }
  destruct (if has (ev_mask e) EPOLLIN then _ else _) as [[c1 s1]| |]; [|done|done].
  destruct Hread as (Hfd1 & (mask1 & -> & Hp1) & _). rewrite Hfd in *.
  set (s1 := set_registered _ s).
  assert (registered s1 !! fd c1 = Some mask1) as Hreg1 by (rewrite Hfd1; apply lookup_insert_eq).
  pose proof (write_spec _ mask1 (ev_sends e) (ev_modified e) c1 s1 Hreg1 Hp1 (λ h, proj2 (Hsound h))) as Hw.
  destruct (has (ev_mask e) EPOLLOUT).
  - destruct (handle_client_write (ev_sends e) (ev_modified e) c1 s1) as [[out c2] s2].
    destruct Hw as (_ & Hfd2 & mask2 & -> & Hp2). rewrite Hfd1 in *.
    cbn [registered set_registered s1]. rewrite insert_insert_eq. apply Hweak.
    change (set_registered ?m s1) with (set_registered m s).
    destruct (should_close c2) eqn:Hc2; [by eapply close_inv|]. eapply update_inv; [done..|]. by apply Hp2.
  - apply Hweak. destruct (should_close c1) eqn:Hc1; [by eapply close_inv|by eapply update_inv].
Qed.

(** Events, with the kernel keeping its promise, and the clients for which a
    change was refused. *)
Inductive server_run : gset Z → EpollServer H → gset Z → EpollServer H → Prop :=
| server_run_nil refused s : server_run refused s refused s
| server_run_cons refused s e out s1 refused' s' :
    accepts_fresh (ev_accepts e) s → handle_event e s = Ok (out, s1) →
    server_run (refused_by e refused s1) s1 refused' s' → server_run refused s refused' s'.

Lemma run_inv refused s refused' s' : server_run refused s refused' s' → srv_inv refused s → srv_inv refused' s'.
Proof.
  induction 1 as [|refused s e out s1 refused' s' Hf He _ IH]; [done|]. intros Hi. apply IH.
  pose proof (handle_event_spec refused e s Hi Hf) as Hs. by rewrite He in Hs.
Qed.

(** ** Starting and stopping *)

(** The descriptors that [socket] and [epoll_create1] return are valid and
    distinct. *)
Definition starts_fresh (r : start_results) : Prop :=
  (∀ f, r_socket r = Some f → 0 <= f) ∧ (∀ e, r_epoll_create r = Some e → 0 <= e)
  ∧ (∀ f e, r_socket r = Some f → r_epoll_create r = Some e → f ≠ e).

Lemma start_inv r h ok s :
  starts_fresh r → start r (make_server h) = (ok, s) →
  if ok then srv_inv ∅ s ∧ handler_state s = h else open_fds s = ∅ ∧ running_ s = false.
Proof.
  intros (Hf & He & Hne). unfold start, create_listen_socket. simpl.
  destruct (r_socket r) as [f|]; [|by intros [= <- <-]].
  destruct (r_reuseaddr r); [|intros [= <- <-]; split; [set_solver|done]].
  destruct (r_reuseport r); [|intros [= <- <-]; split; [set_solver|done]].
  destruct (r_bind r); [|intros [= <- <-]; split; [set_solver|done]].
  destruct (r_listen r); [|intros [= <- <-]; split; [set_solver|done]].
  destruct (r_nonblocking r); [|intros [= <- <-]; split; [set_solver|done]].
  destruct (r_epoll_create r) as [e|]; [|intros [= <- <-]; split; [set_solver|done]].
  destruct (r_add r); simpl; intros [= <- <-]; [|split; [set_solver|done]].
  split; [|done]. split; simpl; try done.
  - split; auto.
  - rewrite dom_empty_L. set_solver.
  - rewrite dom_insert_L, !dom_empty_L. set_solver.
  - apply lookup_insert_eq.
Qed.

Lemma stop_closes refused s : srv_inv refused s → open_fds (stop s) = ∅.
Proof.
  intros Hi. pose proof Hi as [Hr [Hl He] _ Ho _ _ _ _]. unfold stop. rewrite Hr. simpl.
  destruct (Z.eqb_spec (epoll_fd_ s) (-1)), (Z.eqb_spec (listen_fd_ s) (-1)); try lia.
  rewrite Ho. set_solver.
Qed.

(** ** Claims *)

(** C34: from a successful start on, whatever the clients do and the system
    calls answer, the server's tables agree with the kernel's: the open
    descriptors are the listening socket, the epoll instance and one per client,
    the listening socket and each client is registered, for input at least, and
    output readiness is polled for exactly while replies are pending, except
    for clients for which the kernel has refused a [modify_epoll] since they
    connected, whose result the server does not look at. *)
Theorem epoll_tables_consistent r h s0 refused s :
  starts_fresh r → start r (make_server h) = (true, s0) → server_run ∅ s0 refused s →
  srv_inv refused s.
Proof.
  intros Hr [Hi _]%start_inv Hs; [|done]. by apply (run_inv ∅ s0).
Qed.

(** No descriptor is leaked: a start that fails leaves none open, and
    stopping a server closes all that it had. *)
Theorem epoll_no_descriptor_leak r h ok s0 refused s :
  starts_fresh r → start r (make_server h) = (ok, s0) → server_run ∅ s0 refused s →
  if ok then open_fds (stop s) = ∅ else open_fds s0 = ∅.
Proof.
  intros Hr Hst%start_inv Hs; [|done]. destruct ok; [|tauto].
  apply (stop_closes refused), (run_inv ∅ s0); tauto.
Qed.

Lemma read_handler rs c s :
  match handle_client_read rs c s with
  | Ok (_, s') => handler_state s' = handler_state s
  | Escapes => True
  | Diverges => False
  end.
Proof.
  revert c s. induction rs as [|r rs IH]; intros c s; [done|]. cbn [Epoll.handle_client_read].
  destruct r as [[|x data] modified| |]; try done.
  pose proof (answer_chunk (x :: data) (parser c) (write_buffer c) (handler_state s)) as Ha.
  destruct (parse reserve_limit (x :: data) (parser c)) as [value p].
  destruct value; rewrite Ha; try done.
  all: match goal with |- match Epoll.handle_client_read _ _ _ ?c1 ?s1 with _ => _ end =>
         specialize (IH c1 s1) end.
  all: destruct (handle_client_read rs _ _) as [[c' s']| |]; try done; rewrite IH; by destruct modified; case_match.
Qed.

Lemma accept_handler rs s : handler_state (accept_connection rs s) = handler_state s.
Proof.
  revert s. induction rs as [|[| |f nb add] rs IH]; intros s; try done; cbn [accept_connection].
  - apply IH.
  - destruct nb, add; simpl; by rewrite IH.
Qed.

Lemma event_handler e s :
  match handle_event e s with
  | Ok (_, s') => handler_state s' = handler_state s
  | Escapes => True
  | Diverges => False
  end.
Proof.
  unfold Epoll.handle_event. destruct (ev_fd e =? listen_fd_ s).
  { destruct (has (ev_mask e) EPOLLIN); [apply accept_handler|done]. }
  destruct (clients_ s !! ev_fd e) as [c|]; [|done].
  destruct (has (ev_mask e) (Z.lor EPOLLERR EPOLLHUP)); [done|].
  pose proof (read_handler (ev_recvs e) c s) as Hread.
  destruct (has (ev_mask e) EPOLLIN).
  1: destruct (handle_client_read (ev_recvs e) c s) as [[c1 s1]| |]; [rewrite <- Hread|done|done].
  all: unfold handle_client_write; destruct (has (ev_mask e) EPOLLOUT).
  all: try destruct (send_loop _ _) as [[out wb] [|]]; simpl; repeat case_match; done.
Qed.

(** The command handler is never called, whatever the clients send: the
    event loop always answers or ends by an exception, and the state behind
    the handler is at the end what it was at the beginning. *)
Theorem epoll_handler_never_called ws s :
  match run command_handler_ reserve_limit ws s with
  | Ok s' => handler_state s' = handler_state s
  | Escapes => True
  | Diverges => False
  end.
Proof.
  assert (∀ es s, match handle_events command_handler_ reserve_limit es s with
    | Ok (_, s') => handler_state s' = handler_state s
    | Escapes => True | Diverges => False end) as Hes.
  { clear s. induction es as [|e es IH]; intros s; [done|]. cbn [handle_events].
    pose proof (event_handler e s) as He. destruct (handle_event e s) as [[out s1]| |]; [|done|done].
    specialize (IH s1). destruct (handle_events _ _ es s1) as [[outs s2]| |]; [|done|done].
    congruence. }
  revert s. induction ws as [|w ws IH]; intros s; [done|]. cbn [run].
  destruct (running_ s); [|done]. simpl. destruct w as [es| |]; [|apply IH|done].
  specialize (Hes es s). destruct (handle_events _ _ es s) as [[outs s1]| |]; [|done|done].
  specialize (IH s1). destruct (run _ _ ws s1) as [s2| |]; [congruence|done|done].
Qed.

(** Output is neither lost nor reordered: what the sends of one event put
    on the wire, followed by what stays buffered, is what was buffered. *)
Theorem epoll_write_in_order rs modified c s :
  let '(out, c', _) := handle_client_write rs modified c s in out ++ write_buffer c' = write_buffer c.
Proof.
  unfold handle_client_write. pose proof (send_loop_order rs (write_buffer c)) as Ho.
  by destruct (send_loop rs (write_buffer c)) as [[out wb] [|]].
Qed.

(** Any client can bring the server down: an array header that announces
    more elements than can be reserved raises an exception that leaves the
    event loop. *)
Theorem epoll_array_header_kills_server e s c n rest modified :
  clients_ s !! ev_fd e = Some c → ev_fd e ≠ listen_fd_ s → ev_mask e = EPOLLIN →
  parser c = new_parser → 0 <= n < 2 ^ 63 → reserve_limit < n →
  ev_recvs e = [Received ([STAR] ++ show n ++ CRLF ++ rest) modified] →
  handle_event e s = Escapes.
Proof.
  intros Hc Hl Hm Hp Hn Hlim Hr. unfold Epoll.handle_event.
  rewrite (proj2 (Z.eqb_neq _ _) Hl), Hc, Hm, Hr. change (has EPOLLIN (Z.lor EPOLLERR EPOLLHUP)) with false.
  change (has EPOLLIN EPOLLIN) with true. cbv iota.
  cbn [Epoll.handle_client_read app]. rewrite Hp.
  pose proof (huge_array reserve_limit n rest Hn Hlim) as Ht. cbn [app] in Ht.
  pose proof (answer_chunk (STAR :: show n ++ CRLF ++ rest) new_parser (write_buffer c) (handler_state s)) as Ha.
  cbn [app] in Ha.
  destruct (parse reserve_limit _ new_parser) as [value p]. simpl in Ht. subst value. by rewrite Ha.
Qed.

(** A client that closes its sending side right after a request never gets
    the reply: the connection is closed with the reply still buffered. *)
Theorem epoll_half_close_drops_reply e s c data v p modified :
  clients_ s !! ev_fd e = Some c → fd c = ev_fd e → ev_fd e ≠ listen_fd_ s → ev_mask e = EPOLLIN →
  data ≠ [] → parse reserve_limit data (parser c) = (Parsed v, p) →
  ev_recvs e = [Received data modified; Received [] true] →
  ∃ s', handle_event e s = Ok ([], s') ∧ clients_ s' !! ev_fd e = None.
Proof.
  intros Hc Hfd Hl Hm Hd Hp Hr. unfold Epoll.handle_event.
  rewrite (proj2 (Z.eqb_neq _ _) Hl), Hc, Hm, Hr. change (has EPOLLIN (Z.lor EPOLLERR EPOLLHUP)) with false.
  change (has EPOLLIN EPOLLIN) with true. change (has EPOLLIN EPOLLOUT) with false. cbv iota.
  destruct data as [|x data]; [done|]. cbn [Epoll.handle_client_read].
  pose proof (answer_chunk (x :: data) (parser c) (write_buffer c) (handler_state s)) as Ha.
  rewrite Hp in *. rewrite Ha. cbn [should_close]. eexists. split; [done|].
  simpl. apply lookup_delete_eq.
Qed.
End facts.

(** ** Witnesses *)

(** A handler that counts its calls. *)
Definition counting_handler : option (RESPCommand → nat → bytes * nat) :=
  Some (λ _ n, (fmt_ok, S n)).

Definition demo_start : start_results :=
  mkStartResults (Some 3) true true true true true (Some 4) true.

Definition demo_server : EpollServer nat := (start demo_start (make_server 0%nat)).2.

Lemma demo_start_fresh : starts_fresh demo_start.
Proof. split_and!; simpl; intros; simplify_eq; lia. Qed.

(** One client connects, another cannot be made non-blocking. *)
Definition demo_accept : event :=
  mkEvent 3 EPOLLIN [AcceptError; Accepted 5 false true; Accepted 5 true true; AcceptAgain] [] [] true.

Definition demo_connected : EpollServer nat := accept_connection (ev_accepts demo_accept) demo_server.

(** The client sends an integer and reads the first bytes of the reply; the
    first change of its mask is refused. *)
Definition demo_talk : event :=
  mkEvent 5 (Z.lor EPOLLIN EPOLLOUT) [] [Received (str ":4") true; Received (str "2" ++ CRLF) false; RecvAgain]
    [Sent 4; SendAgain] true.

Definition demo_talked : EpollServer nat :=
  match handle_event counting_handler 1000 demo_talk demo_connected with
  | Ok (_, s) => s
  | _ => demo_connected
  end.

Lemma demo_run : server_run counting_handler 1000 ∅ demo_server {[5]} demo_talked.
Proof.
  apply (server_run_cons _ _ _ _ demo_accept [] demo_connected); [|reflexivity|].
  { simpl. split; [set_solver|]. split; [set_solver|done]. }
  apply (server_run_cons _ _ _ _ demo_talk (take 4 ERR_REPLY) demo_talked); [done|reflexivity|].
  replace (refused_by _ _ _) with ({[5]} : gset Z) by (by vm_compute). apply server_run_nil.
Qed.

Lemma epoll_tables_consistent_witness : srv_inv {[5]} demo_talked.
Proof.
  apply (epoll_tables_consistent counting_handler 1000 demo_start 0%nat demo_server).
  - apply demo_start_fresh.
  - reflexivity.
  - apply demo_run.
Defined.

(** Replies are pending, and nobody asks whether they can be sent. *)
Theorem epoll_refused_change_stalls_reply :
  (write_buffer <$> clients_ demo_talked !! 5) = Some (drop 4 ERR_REPLY)
  ∧ registered demo_talked !! 5 = Some (Z.lor EPOLLIN EPOLLET).
Proof. by vm_compute. Qed.

Lemma epoll_no_descriptor_leak_witness : open_fds (stop demo_talked) = ∅.
Proof.
  apply (epoll_no_descriptor_leak counting_handler 1000 demo_start 0%nat true demo_server {[5]} demo_talked).
  - apply demo_start_fresh.
  - reflexivity.
  - apply demo_run.
Defined.

Lemma epoll_array_header_kills_server_witness :
  handle_event counting_handler 1000
    (mkEvent 5 EPOLLIN [] [Received ([STAR] ++ show (2 ^ 63 - 1) ++ CRLF ++ []) true] [] true)
    demo_connected = Escapes.
Proof.
  apply (epoll_array_header_kills_server counting_handler 1000 _ _ (new_client 5) (2 ^ 63 - 1) [] true);
    (done || lia || reflexivity).
Defined.
