(* ===== verification/Engine.v ===== *)
(** * The C interface and its Go binding

    src/engine/src/engine.cpp (the functions of engine.h) over the hash table,
    and [Set], [Get] and [Delete] of src/node/engine/engine.go, which call
    them through cgo. *)

From S2P Require Import Prelude Files Wal Policy Lru Lfu Dispatch HashTable Store TableFacts Table.

Section engine.
Context {H : Type} `{!LFU.PriorityQueue H}.

Abbreviation Table := (HashTable (TablePolicy H)).

Record EngineHandle := mkEngine {
  num_threads : Z;
  mem_limit_bytes : Z;
  table : Table;
}.

(** The default arguments of the constructor of [HashTable]. *)
Definition DEFAULT_CAPACITY : Z := 16.
Definition DEFAULT_LIMIT : Z := 1024 * 1024 * 100.

(** [None] is the null pointer. *)
Definition engine_create (num_threads mem_limit_bytes : Z) (d : Disk) : option EngineHandle :=
  if (num_threads <=? 0) || (mem_limit_bytes =? 0) then None
  else
    match make_table DEFAULT_CAPACITY (make_policy KindLRU DEFAULT_LIMIT) [] d with
    | Some t => Some (mkEngine num_threads mem_limit_bytes t)
    | None => None
    end.

Definition set_table (t : Table) (e : EngineHandle) : EngineHandle :=
  mkEngine (num_threads e) (mem_limit_bytes e) t.

Definition MAX_VALUE : Z := 512 * 1024.

(** [engine_set]: a pointer argument is [None] when it is null, otherwise the
    bytes it points to; [now] is the reading of the clock. *)
Definition engine_set (handle : option EngineHandle) (key val : option bytes) (ttl_ns now : Z)
  : Z * option EngineHandle :=
  match handle, key, val with
  | Some e, Some k, Some v =>
      if MAX_VALUE <? zlen v then (-2, handle)
      else
        let expiry_ns := if 0 <? ttl_ns then u64 now +64 u64 ttl_ns else 0 in
        (0, Some (set_table (insert k (new_entry v expiry_ns) (table e)).2 e))
  | _, _, _ => (-1, handle)
  end.

(** [engine_get]: [has_buf] says whether [out_buf] is not null, [out_len] is
    what the length pointer points to. The result is the code, the bytes copied
    to the buffer, if any, the length afterwards, and the handle. The clock is
    read twice by [get], and a third time here. *)
Definition engine_get (handle : option EngineHandle) (key : option bytes) (has_buf : bool)
    (out_len : option Z) (now : Z * Z * Z)
  : Z * option bytes * option Z * option EngineHandle :=
  match handle, key, has_buf, out_len with
  | Some e, Some k, true, Some len =>
      match get k now.1.1 now.1.2 (table e) with
      | (None, t) => (-1, None, out_len, Some (set_table t e))
      | (Some entry, t) =>
          if (0 <? expiry_ns entry) && (expiry_ns entry <=? u64 now.2)
          then (-1, None, out_len, Some (set_table (remove k t).2 e))
          else if len <? zlen (value entry)
          then (-2, None, Some (zlen (value entry)), Some (set_table t e))
          else (0, Some (value entry), Some (zlen (value entry)), Some (set_table t e))
      end
  | _, _, _, _ => (-1, None, out_len, handle)
  end.

Definition engine_delete (handle : option EngineHandle) (key : option bytes)
  : Z * option EngineHandle :=
  match handle, key with
  | Some e, Some k =>
      let '(removed, t) := remove k (table e) in
      (if removed then 0 else -1, Some (set_table t e))
  | _, _ => (-1, handle)
  end.

(** [engine_replay_wal] and [engine_snapshot] are placeholders. *)
Definition engine_replay_wal (handle : option EngineHandle) (wal_dir : option bytes) : Z := -1.

Definition engine_snapshot (handle : option EngineHandle) (snapshot_path : option bytes) : Z := -1.

(** ** What engine.h promises

    of [engine_set], [engine_get] and [engine_delete], with the limit on memory
    as a parameter: [engine_create] takes one, but the table is made with the
    default of its constructor. [engine_replay_wal] and [engine_snapshot] have
    no part in it. *)

Inductive api_call :=
| ASet (key val : bytes) (ttl_ns now : Z)
| AGet (key : bytes) (buffer_size : Z) (now : Z * Z * Z)
| ADelete (key : bytes)
| AReplayWal (wal_dir : bytes)
| ASnapshot (snapshot_path : bytes).

(** Code, bytes copied, length written back. *)
Definition api_result : Type := Z * option bytes * option Z.

Definition api_serve (c : api_call) (e : EngineHandle) : api_result * option EngineHandle :=
  match c with
  | ASet k v ttl now =>
      let '(rc, h) := engine_set (Some e) (Some k) (Some v) ttl now in ((rc, None, None), h)
  | AGet k size now =>
      let '(rc, out, len, h) := engine_get (Some e) (Some k) true (Some size) now in
      ((rc, out, len), h)
  | ADelete k =>
      let '(rc, h) := engine_delete (Some e) (Some k) in ((rc, None, None), h)
  | AReplayWal dir => ((engine_replay_wal (Some e) (Some dir), None, None), Some e)
  | ASnapshot path => ((engine_snapshot (Some e) (Some path), None, None), Some e)
  end.

Definition implemented (c : api_call) : bool :=
  match c with AReplayWal _ | ASnapshot _ => false | _ => true end.

(** The expiry time a relative time-to-live stands for. *)
Definition deadline (ttl now : Z) : Z := if 0 <? ttl then u64 now +64 u64 ttl else 0.

Inductive api_step (limit : Z) (m : gmap bytes ValueEntry)
  : api_call → api_result → gmap bytes ValueEntry → Prop :=
| api_set_large k v ttl now :
    MAX_VALUE < zlen v → api_step limit m (ASet k v ttl now) (-2, None, None) m
| api_set k v ttl now m' :
    zlen v <= MAX_VALUE → kept limit m m' →
    api_step limit m (ASet k v ttl now) (0, None, None)
      (<[k := new_entry v (deadline ttl now)]> m')
| api_get_absent k size now :
    m !! k = None → api_step limit m (AGet k size now) (-1, None, Some size) m
| api_get_expired k size now v :
    m !! k = Some v → is_expired now.1.1 v = true →
    api_step limit m (AGet k size now) (-1, None, Some size) m
| api_get_expires k size now v :
    m !! k = Some v → is_expired now.1.1 v = false → is_expired now.2 v = true →
    api_step limit m (AGet k size now) (-1, None, Some size) (delete k m)
| api_get_small k size now v :
    m !! k = Some v → is_expired now.1.1 v = false → is_expired now.2 v = false →
    size < zlen (value v) →
    api_step limit m (AGet k size now) (-2, None, Some (zlen (value v)))
      (<[k := touched now.1.2 v]> m)
| api_get k size now v :
    m !! k = Some v → is_expired now.1.1 v = false → is_expired now.2 v = false →
    zlen (value v) <= size →
    api_step limit m (AGet k size now) (0, Some (value v), Some (zlen (value v)))
      (<[k := touched now.1.2 v]> m)
| api_delete k v :
    m !! k = Some v → api_step limit m (ADelete k) (0, None, None) (delete k m)
| api_delete_absent k :
    m !! k = None → api_step limit m (ADelete k) (-1, None, None) m.

Inductive api_run (limit : Z)
  : gmap bytes ValueEntry → list (api_call * api_result) → gmap bytes ValueEntry → Prop :=
| api_run_nil m : api_run limit m [] m
| api_run_cons m c r m1 tr m' :
    api_step limit m c r m1 → api_run limit m1 tr m' → api_run limit m ((c, r) :: tr) m'.

(** Calls in sequence on one engine; a set has room in [size_t]. *)
Inductive engine_run : EngineHandle → list (api_call * api_result) → EngineHandle → Prop :=
| engine_run_nil e : engine_run e [] e
| engine_run_cons e c r e1 tr e' :
    (∀ k v ttl now, c = ASet k v ttl now → total (contents (table e)) + zlen v < 2 ^ 64) →
    api_serve c e = (r, Some e1) → engine_run e1 tr e' → engine_run e ((c, r) :: tr) e'.

(** ** The engine implements the contract *)

(** Values the interface lets in. *)
Definition entry_ok (v : ValueEntry) : Prop := 0 <= expiry_ns v ∧ zlen (value v) <= MAX_VALUE.

Definition engine_ok (e : EngineHandle) : Prop :=
  good DEFAULT_LIMIT (table e) ∧ map_Forall (λ _ v, entry_ok v) (contents (table e)).

Lemma touched_ok now v : entry_ok v → entry_ok (touched now v).
Proof. done. Qed.

(** The test of [engine_get] on a touched entry is [is_expired]. *)
Lemma expiry_test now n v :
  entry_ok v →
  (0 <? expiry_ns (touched n v)) && (expiry_ns (touched n v) <=? u64 now) = is_expired now v.
Proof.
  intros [He _]. unfold is_expired. simpl. destruct (Z.eqb_spec (expiry_ns v) 0) as [->|]; [done|].
  by replace (0 <? expiry_ns v) with true by (symmetry; apply Z.ltb_lt; lia).
Qed.

(** Every table operation the interface performs keeps the engine sound. *)
Lemma serve_ok q a (t t' : Table) :
  good DEFAULT_LIMIT t → map_Forall (λ _ v, entry_ok v) (contents t) →
  admissible q t → (∀ k v, q = Set_ k v → entry_ok v) → serve q t = (a, t') →
  good DEFAULT_LIMIT t' ∧ map_Forall (λ _ v, entry_ok v) (contents t')
  ∧ spec_step DEFAULT_LIMIT (contents t) q a (contents t').
Proof.
  intros Hg Hok Hadm Hq Hs.
  destruct (serve_refines DEFAULT_LIMIT q a t t' ltac:(done) Hg Hadm Hs) as [Hg' Hstep].
  split_and!; [done| |done].
  inversion Hstep as [k n1 n2 v Hk|k n1 n2 v Hk|k n1 n2 Hk|k v m' [Hsub _]|k]; subst; try done.
  - apply map_Forall_insert_2; [|done]. by apply touched_ok, (Hok k).
  - apply map_Forall_insert_2; [by eapply Hq|].
    intros k' v' Hv. by eapply Hok, lookup_weaken.
  - by apply map_Forall_delete.
Qed.

Lemma insert_serve k v (t : Table) : serve (Set_ k v) t = (RBool (insert k v t).1, (insert k v t).2).
Proof. simpl. by destruct (insert k v t). Qed.

Lemma remove_serve k (t : Table) : serve (Remove k) t = (RBool (remove k t).1, (remove k t).2).
Proof. simpl. by destruct (remove k t). Qed.

Lemma get_serve k n1 n2 (t : Table) :
  serve (Get k n1 n2) t = (RValue (get k n1 n2 t).1, (get k n1 n2 t).2).
Proof. simpl. by destruct (get k n1 n2 t). Qed.

Lemma api_set_refines k v ttl now r e e1 :
  engine_ok e → total (contents (table e)) + zlen v < 2 ^ 64 →
  api_serve (ASet k v ttl now) e = (r, Some e1) →
  engine_ok e1
  ∧ api_step DEFAULT_LIMIT (contents (table e)) (ASet k v ttl now) r (contents (table e1)).
Proof.
  intros [Hg Hok] Hadm. simpl. destruct (Z.ltb_spec MAX_VALUE (zlen v)).
  - intros [= <- <-]. split; [done|]. by apply api_set_large.
  - intros [= <- <-]. fold (deadline ttl now). set (v' := new_entry v _).
    assert (entry_ok v') as Hv.
    { split; [|done]. unfold v', deadline. simpl. case_match; [apply u64_bound|done]. }
    destruct (serve_ok _ _ _ _ Hg Hok (Hadm : admissible (Set_ k v') (table e)) ltac:(by intros ? ? [= <- <-])
                (insert_serve k v' (table e))) as (Hg' & Hok' & Hstep).
    split; [done|]. simpl. inversion Hstep as [| | |? ? m' Hkept|]; subst. by apply api_set.
Qed.

Lemma api_get_refines k size now r e e1 :
  engine_ok e → api_serve (AGet k size now) e = (r, Some e1) →
  engine_ok e1
  ∧ api_step DEFAULT_LIMIT (contents (table e)) (AGet k size now) r (contents (table e1)).
Proof.
  intros [Hg Hok]. unfold api_serve, engine_get.
  destruct (serve_ok (Get k now.1.1 now.1.2) _ _ _ Hg Hok I ltac:(done)
              (get_serve k now.1.1 now.1.2 (table e))) as (Hg' & Hok' & _).
  pose proof (get_shape k now.1.1 now.1.2 (table e) (ht_store _ (proj1 Hg))) as Hget.
  destruct (contents (table e) !! k) as [v|] eqn:Hk.
  2: { rewrite Hget. intros [= <- <-]. split; [done|]. by apply api_get_absent. }
  destruct (is_expired now.1.1 v) eqn:Hex.
  { rewrite Hget. intros [= <- <-]. split; [done|]. by eapply api_get_expired. }
  destruct Hget as (t & Ht & _ & Hc & _). rewrite Ht in *. cbn [fst snd] in Hg', Hok'.
  rewrite expiry_test by by apply (Hok k). destruct (is_expired now.2 v) eqn:Hex2.
  - intros [= <- <-].
    destruct (serve_ok (Remove k) _ _ _ Hg' Hok' I ltac:(done) (remove_serve k t)) as (Hg2 & Hok2 & _).
    split; [done|]. cbn [table set_table]. rewrite remove_contents, Hc, delete_insert_eq by apply Hg'.
    by eapply api_get_expires.
  - destruct (Z.ltb_spec size (zlen (value (touched now.1.2 v)))); intros [= <- <-];
      (split; [done|]); cbn [table set_table]; rewrite Hc.
    + by apply api_get_small.
    + by apply api_get.
Qed.

Lemma api_delete_refines k r e e1 :
  engine_ok e → api_serve (ADelete k) e = (r, Some e1) →
  engine_ok e1 ∧ api_step DEFAULT_LIMIT (contents (table e)) (ADelete k) r (contents (table e1)).
Proof.
  intros [Hg Hok]. unfold api_serve, engine_delete.
  destruct (serve_ok (Remove k) _ _ _ Hg Hok I ltac:(done) (remove_serve k (table e))) as (Hg' & Hok' & _).
  pose proof (remove_result k (table e) (proj1 Hg)) as Hr.
  pose proof (remove_contents k (table e) (proj1 Hg)) as Hc.
  destruct (remove k (table e)) as [b t]. cbn [fst snd] in *. intros [= <- <-]. split; [done|].
  cbn [table set_table]. rewrite Hc, Hr. destruct (contents (table e) !! k) as [v|] eqn:Hk.
  - rewrite bool_decide_true by eauto. by eapply api_delete.
  - rewrite bool_decide_false by (by intros [? ?]). rewrite delete_id by done.
    by apply api_delete_absent.
Qed.

Lemma create_ok n lim d e :
  engine_create n lim d = Some e → engine_ok e ∧ contents (table e) = ∅.
Proof.
  unfold engine_create. case_match; [done|].
  destruct (make_policy_spec (H := H) KindLRU DEFAULT_LIMIT) as (Hi & Htr & Hm & Hl).
  destruct (make_table _ _ _ _) as [t|] eqn:Hmk; [|done]. intros [= <-]. cbn [table].
  destruct (make_table_spec DEFAULT_CAPACITY (make_policy (H := H) KindLRU DEFAULT_LIMIT) [] d t
              ltac:(done) Hi Htr Hmk) as (Hinv & Hc & Hp & _).
  split; [|done]. split; [|cbn [table]; by rewrite Hc].
  split_and!; [done| |cbn [table]; by rewrite Hp]. unfold acct. cbn [table]. by rewrite Hc, Hp, Hm.
Qed.

(** The calls of a run that the specification speaks of. *)
Definition calls (tr : list (api_call * api_result)) : list (api_call * api_result) :=
  filter (λ cr, implemented cr.1 = true) tr.

Lemma engine_run_ok e tr e' :
  engine_ok e → engine_run e tr e' →
  engine_ok e' ∧ api_run DEFAULT_LIMIT (contents (table e)) (calls tr) (contents (table e')).
Proof.
  intros Hok Hrun. unfold calls. induction Hrun as [e|e c r e1 tr e' Hadm Hs _ IH]; [split; [done|constructor]|].
  rewrite filter_cons. cbn [fst]. destruct (implemented c) eqn:Hc.
  - rewrite decide_True by done.
    assert (engine_ok e1 ∧ api_step DEFAULT_LIMIT (contents (table e)) c r (contents (table e1)))
      as [Hok1 Hstep].
    { destruct c; try done; eauto using api_set_refines, api_get_refines, api_delete_refines. }
    destruct (IH Hok1) as [? ?]. split; [done|]. by econstructor.
  - rewrite decide_False by done. assert (e1 = e) as -> by (destruct c; try done; by injection Hs). by apply IH.
Qed.

(** The memory limit of [engine_create] has no effect: the table is the
    same for every positive limit, and evicts at the built-in default. *)
Theorem engine_ignores_memory_limit n lim lim' d e :
  engine_create n lim d = Some e → lim' ≠ 0 →
  pol_limit (policy_ (table e)) = DEFAULT_LIMIT
  ∧ ∃ e', engine_create n lim' d = Some e' ∧ table e' = table e.
Proof.
  intros He Hl. split; [by apply create_ok in He as [[(_ & _ & ?) _] _]|].
  unfold engine_create in *. destruct (n <=? 0); [done|]. simpl in *.
  destruct (lim =? 0); [done|]. rewrite (proj2 (Z.eqb_neq _ _) Hl).
  injection He as <-. eexists. by split.
Qed.

(** C14: set, get and delete of the C interface are those of a map with
    deadlines. For every sequence of calls on a new engine, the codes, copied
    bytes and written-back lengths of these three are those of the map, from
    which a set evicts only if the values exceed 100 MB. This limit is built in:
    the limit given to [engine_create] changes nothing, as long as it is not
    zero. The calls to replay a log and to save a snapshot, which are not
    implemented, all answer -1 and leave the map as it is. *)
Theorem engine_refines_contract n lim d e tr e' :
  engine_create n lim d = Some e → engine_run e tr e' →
  api_run DEFAULT_LIMIT ∅ (calls tr) (contents (table e'))
  ∧ (∀ c r, (c, r) ∈ tr → implemented c = false → r = (-1, None, None))
  ∧ ∀ lim', lim' ≠ 0 → ∃ e2, engine_create n lim' d = Some e2 ∧ table e2 = table e.
Proof.
  intros He Hrun. split_and!.
  - apply create_ok in He as [Hok Hc]. rewrite <- Hc. by apply engine_run_ok.
  - clear He. induction Hrun as [|e c0 r0 e1 tr e' _ Hs _ IH]; intros c r; [by intros ?%not_elem_of_nil|].
    intros [[= -> ->]|Hin]%elem_of_cons Hc; [|by eapply IH].
    destruct c0; try done; by injection Hs as <- _.
  - intros lim' Hl. by destruct (engine_ignores_memory_limit n lim lim' d e He Hl) as [_ ?].
Qed.

(** ** The Go binding *)

Inductive go_error := ErrNotFound | ErrBufferTooSmall | ErrValueTooLarge | ErrOther.

(** [Set]: the strings are passed with their lengths; a non-positive duration
    means no expiry. *)
Definition go_set (key val : bytes) (ttl now : Z) (e : EngineHandle)
  : option go_error * option EngineHandle :=
  let ttl_ns := if 0 <? ttl then ttl else 0 in
  let '(rc, h) := engine_set (Some e) (Some key) (Some val) ttl_ns now in
  (if rc =? 0 then None else if rc =? -2 then Some ErrValueTooLarge else Some ErrOther, h).

(** [Get], with its buffer of 512 KB. *)
Definition go_get (key : bytes) (now : Z * Z * Z) (e : EngineHandle)
  : (bytes + go_error) * option EngineHandle :=
  let buf_size := 512 * 1024 in
  let '(rc, out, out_len, h) := engine_get (Some e) (Some key) true (Some buf_size) now in
  (if rc =? 0 then inl (take (Z.to_nat (default 0 out_len)) (default [] out))
   else if rc =? -1 then inr ErrNotFound
   else if rc =? -2 then inr ErrBufferTooSmall else inr ErrOther, h).

Definition go_delete (key : bytes) (e : EngineHandle) : option go_error * option EngineHandle :=
  let '(rc, h) := engine_delete (Some e) (Some key) in
  (if rc =? 0 then None else if rc =? -1 then Some ErrNotFound else Some ErrOther, h).

(** The buffer of the Go binding is always large enough: whatever calls
    were made before, [Get] answers the whole value or that there is none. *)
Theorem go_get_buffer_suffices n lim d e tr e' k now :
  engine_create n lim d = Some e → engine_run e tr e' →
  (go_get k now e').1 = inr ErrNotFound
  ∨ ∃ v, contents (table e') !! k = Some v ∧ (go_get k now e').1 = inl (value v).
Proof.
  intros [Hok _]%create_ok Hrun. destruct (engine_run_ok _ _ _ Hok Hrun) as [[Hg Hok'] _].
  unfold go_get, engine_get.
  pose proof (get_shape k now.1.1 now.1.2 (table e') (ht_store _ (proj1 Hg))) as Hget.
  destruct (contents (table e') !! k) as [v|] eqn:Hk; [|rewrite Hget; by left].
  destruct (is_expired now.1.1 v); [rewrite Hget; by left|].
  destruct Hget as (t & -> & _). destruct ((0 <? _) && _); [by left|].
  destruct (Hok' k v Hk) as [_ Hsize]. cbn [value touched] in *.
  destruct (Z.ltb_spec (512 * 1024) (zlen (value v))); [unfold MAX_VALUE in Hsize; lia|].
  right. exists v. split; [done|]. cbn -[take zlen]. f_equal.
  unfold zlen. by rewrite Nat2Z.id, firstn_all.
Qed.
End engine.

(** ** Witnesses *)

Definition demo_engine : EngineHandle :=
  default (mkEngine 0 0 (mkTable [] 0 (make_policy KindLRU 0) None [] empty_disk))
    (engine_create (H := LFU.SortedQueue) 4 1 empty_disk).

(** A set with a deadline, a get with a buffer that is too small and a get
    after the deadline. *)
Definition demo_calls : list api_call :=
  [ASet (str "k") (str "value") 50 100; AGet (str "k") 3 (120, 121, 122);
   AGet (str "k") 9 (130, 131, 160); ASnapshot (str "s"); ADelete (str "k")].

Definition demo_step (c : api_call) (e : EngineHandle (H := LFU.SortedQueue)) : EngineHandle :=
  default e (api_serve c e).2.

Definition demo_final : EngineHandle := fold_left (λ e c, demo_step c e) demo_calls demo_engine.

Definition demo_trace : list (api_call * api_result) :=
  zip demo_calls [(0, None, None); (-2, None, Some 5); (-1, None, Some 9); (-1, None, None); (-1, None, None)].

Lemma demo_engine_run : engine_run demo_engine demo_trace demo_final.
Proof.
  unfold demo_final, demo_trace, demo_calls. cbn [zip_with zip fold_left].
  repeat (eapply engine_run_cons; [intros; simplify_eq; by vm_compute|by vm_compute|]).
  apply engine_run_nil.
Qed.

Lemma engine_refines_contract_witness :
  api_run DEFAULT_LIMIT ∅ (calls demo_trace) (contents (table demo_final)).
Proof.
  refine (proj1 (engine_refines_contract 4 1 empty_disk demo_engine demo_trace demo_final _ _)); [vm_compute; done|].
  apply demo_engine_run.
Defined.

Lemma engine_ignores_memory_limit_witness :
  pol_limit (policy_ (table demo_engine)) = DEFAULT_LIMIT
  ∧ ∃ e', engine_create 4 1000000 empty_disk = Some e' ∧ table e' = table demo_engine.
Proof. apply (engine_ignores_memory_limit 4 1 1000000); [vm_compute; done|lia]. Defined.

Lemma go_get_buffer_suffices_witness :
  (go_get (str "k") (120, 121, 122) demo_final).1 = inr ErrNotFound
  ∨ ∃ v, contents (table demo_final) !! str "k" = Some v
         ∧ (go_get (str "k") (120, 121, 122) demo_final).1 = inl (value v).
Proof.
  apply (go_get_buffer_suffices 4 1 empty_disk demo_engine demo_trace); [vm_compute; done|].
  apply demo_engine_run.
Defined.
