(* ===== verification/Binding.v ===== *)
(** * The Go binding over its life

    src/node/engine/engine.go: an [Engine] from [New] to [Close], and every
    method on it. The calls on an open engine are those of Engine.v. *)

From S2P Require Import Prelude Files Wal Policy Lru Lfu Dispatch HashTable Store TableFacts Table Engine.

Section binding.
Context {H : Type} `{!LFU.PriorityQueue H}.

(** [engine_destroy]: the destructor of the table closes its log; what is left
    is the disk. *)
Definition engine_destroy (e : EngineHandle (H := H)) : Disk :=
  match wal_writer_ (table e) with
  | Some w => close_writer (w, disk (table e))
  | None => disk (table e)
  end.

(** [Engine]: its handle, or, when that is nil, the disk it left. *)
Inductive GoEngine := Open (e : EngineHandle (H := H)) | Closed (d : Disk).

(** Conversion to a C [int]. *)
Definition c_int (z : Z) : Z := (z + 2 ^ 31) mod 2 ^ 32 - 2 ^ 31.

Definition New (numThreads memLimitBytes : Z) (d : Disk) : GoEngine + go_error :=
  match engine_create (c_int numThreads) memLimitBytes d with
  | Some e => inl (Open e)
  | None => inr ErrOther
  end.

Definition Close (g : GoEngine) : GoEngine :=
  match g with Open e => Closed (engine_destroy e) | Closed d => Closed d end.

Inductive go_call :=
| CSet (k v : bytes) (ttl now : Z)
| CGet (k : bytes) (now : Z * Z * Z)
| CDelete (k : bytes)
| CReplayWAL (dir : bytes)
| CSnapshot (path : bytes)
| CClose.

(** [AClosed]: the error that the engine is closed. *)
Inductive go_answer := ADone | AValue (v : bytes) | AFailed (err : go_error) | AClosed.

Definition answer_of (err : option go_error) : go_answer := match err with Some e => AFailed e | None => ADone end.

(** The C functions never replace a handle by a null pointer. *)
Definition opened (g : GoEngine) (h : option EngineHandle) : GoEngine :=
  match h with Some e => Open e | None => g end.

Definition go_serve (c : go_call) (g : GoEngine) : go_answer * GoEngine :=
  match c, g with
  | CClose, _ => (ADone, Close g)
  | _, Closed _ => (AClosed, g)
  | CSet k v ttl now, Open e => let '(err, h) := go_set k v ttl now e in (answer_of err, opened g h)
  | CGet k now, Open e =>
      let '(r, h) := go_get k now e in
      (match r with inl v => AValue v | inr err => AFailed err end, opened g h)
  | CDelete k, Open e => let '(err, h) := go_delete k e in (answer_of err, opened g h)
  | CReplayWAL dir, Open e => (if engine_replay_wal (Some e) (Some dir) <? 0 then AFailed ErrOther else ADone, g)
  | CSnapshot path, Open e => (if engine_snapshot (Some e) (Some path) =? 0 then ADone else AFailed ErrOther, g)
  end.

(** ** What the calls on an open engine do *)

Lemma go_set_refines k v ttl now e :
  engine_ok e → total (contents (table e)) + zlen v < 2 ^ 64 →
  ∃ e', go_set k v ttl now e = (if MAX_VALUE <? zlen v then Some ErrValueTooLarge else None, Some e') ∧ engine_ok e'
  ∧ if MAX_VALUE <? zlen v then contents (table e') = contents (table e)
    else ∃ m', kept DEFAULT_LIMIT (contents (table e)) m'
         ∧ contents (table e') = <[k := new_entry v (deadline ttl now)]> m'.
Proof.
  intros Hok Hroom. set (ttl' := if 0 <? ttl then ttl else 0).
  assert (deadline ttl' now = deadline ttl now) as Hd.
  { unfold deadline, ttl'. destruct (Z.ltb_spec 0 ttl); [|done]. by destruct (Z.ltb_spec 0 ttl); [|lia]. }
  destruct (api_serve (ASet k v ttl' now) e) as [r [e1|]] eqn:Hs.
  2: { simpl in Hs. by destruct (MAX_VALUE <? zlen v). }
  destruct (api_set_refines k v ttl' now r e e1 Hok Hroom Hs) as [Hok1 Hstep].
  exists e1. unfold go_set. fold ttl'. simpl in Hs. unfold engine_set.
  destruct (Z.ltb_spec MAX_VALUE (zlen v)); simplify_eq; split_and!; try done;
    inversion Hstep as [|? ? ? ? m' _ Hk| | | | | | |]; subst; try lia; try done.
  exists m'. rewrite <- Hd. done.
Qed.

Lemma go_get_refines k now e :
  engine_ok e →
  ∃ e', (go_get k now e).2 = Some e' ∧ engine_ok e'
  ∧ ((∃ v, contents (table e) !! k = Some v ∧ is_expired now.1.1 v = false ∧ is_expired now.2 v = false
        ∧ (go_get k now e).1 = inl (value v) ∧ contents (table e') = <[k := touched now.1.2 v]> (contents (table e)))
     ∨ ((go_get k now e).1 = inr ErrNotFound
        ∧ (∀ v, contents (table e) !! k = Some v → is_expired now.1.1 v = true ∨ is_expired now.2 v = true)
        ∧ (contents (table e') = contents (table e) ∨ contents (table e') = delete k (contents (table e))))).
Proof.
  intros Hok. destruct (api_serve (AGet k (512 * 1024) now) e) as [r h] eqn:Hs. unfold go_get. unfold api_serve in Hs.
  destruct (engine_get (Some e) (Some k) true (Some (512 * 1024)) now) as [[[rc out] len] h'] eqn:Hg.
  injection Hs as <- <-. assert (is_Some h') as [e1 ->].
  { unfold engine_get in Hg. destruct (get k now.1.1 now.1.2 (table e)) as [[entry|] t]; [|by simplify_eq].
    destruct (_ && _); [by simplify_eq|]. destruct (512 * 1024 <? _); by simplify_eq. }
  destruct (api_get_refines k (512 * 1024) now (rc, out, len) e e1 Hok) as [Hok1 Hstep].
  { unfold api_serve. by rewrite Hg. }
  exists e1. split_and!; [done|done|].
  inversion Hstep as [| |? ? ? Hk|? ? ? v Hk Hx|? ? ? v Hk Hx Hx2|? ? ? v Hk Hx Hx2 Hsz|? ? ? v Hk Hx Hx2 Hsz| |];
    subst; simpl.
  - right. split_and!; [done|by rewrite Hk|by left].
  - right. split_and!; [done| |by left]. rewrite Hk. intros v' [= <-]. by left.
  - right. split_and!; [done| |by right]. rewrite Hk. intros v' [= <-]. by right.
  - destruct Hok as [_ Hall]. apply Hall in Hk as [_ Hmax]. unfold MAX_VALUE in Hmax. lia.
  - left. exists v. split_and!; try done. f_equal. unfold zlen. by rewrite Nat2Z.id, firstn_all.
Qed.

Lemma go_delete_refines k e :
  engine_ok e →
  ∃ e' err, go_delete k e = (err, Some e') ∧ engine_ok e' ∧ (err = None ∧ is_Some (contents (table e) !! k) ∨ err = Some ErrNotFound ∧ contents (table e) !! k = None)
  ∧ contents (table e') = delete k (contents (table e)).
Proof.
  intros Hok. unfold go_delete. destruct (engine_delete (Some e) (Some k)) as [rc h] eqn:Hd.
  assert (is_Some h) as [e1 ->].
  { unfold engine_delete in Hd. destruct (remove k (table e)). by simplify_eq. }
  destruct (api_delete_refines k (rc, None, None) e e1 Hok) as [Hok1 Hstep].
  { unfold api_serve. by rewrite Hd. }
  inversion Hstep; subst; eexists e1, _; split_and!; auto. by rewrite delete_id.
Qed.

(** ** The contract *)

(** An engine is a map with deadlines until it is closed; then there is none.
    The specification speaks of the calls that are implemented, and the limit on
    memory is a parameter of it. *)
Inductive life_step (limit : Z) : option (gmap bytes ValueEntry) → go_call → go_answer → option (gmap bytes ValueEntry) → Prop :=
| life_set m k v ttl now m' :
    zlen v <= MAX_VALUE → kept limit m m' →
    life_step limit (Some m) (CSet k v ttl now) ADone (Some (<[k := new_entry v (deadline ttl now)]> m'))
| life_set_large m k v ttl now :
    MAX_VALUE < zlen v → life_step limit (Some m) (CSet k v ttl now) (AFailed ErrValueTooLarge) (Some m)
| life_get m k now v :
    m !! k = Some v → is_expired now.1.1 v = false → is_expired now.2 v = false →
    life_step limit (Some m) (CGet k now) (AValue (value v)) (Some (<[k := touched now.1.2 v]> m))
| life_get_none m k now m' :
    (∀ v, m !! k = Some v → is_expired now.1.1 v = true ∨ is_expired now.2 v = true) → (m' = m ∨ m' = delete k m) →
    life_step limit (Some m) (CGet k now) (AFailed ErrNotFound) (Some m')
| life_delete m k : is_Some (m !! k) → life_step limit (Some m) (CDelete k) ADone (Some (delete k m))
| life_delete_none m k : m !! k = None → life_step limit (Some m) (CDelete k) (AFailed ErrNotFound) (Some m)
| life_close m : life_step limit m CClose ADone None
| life_closed c : c ≠ CClose → life_step limit None c AClosed None.

Inductive life_run (limit : Z) : option (gmap bytes ValueEntry) → list (go_call * go_answer) → option (gmap bytes ValueEntry) → Prop :=
| life_run_nil m : life_run limit m [] m
| life_run_cons m c a m1 tr m2 : life_step limit m c a m1 → life_run limit m1 tr m2 → life_run limit m ((c, a) :: tr) m2.

Definition go_implemented (c : go_call) : bool :=
  match c with CReplayWAL _ | CSnapshot _ => false | _ => true end.

Definition go_calls (tr : list (go_call * go_answer)) : list (go_call * go_answer) :=
  filter (λ ca, go_implemented ca.1 = true) tr.

Definition has_room (c : go_call) (g : GoEngine) : Prop :=
  match c, g with CSet _ v _ _, Open e => total (contents (table e)) + zlen v < 2 ^ 64 | _, _ => True end.

Inductive go_run : GoEngine → list (go_call * go_answer) → GoEngine → Prop :=
| go_run_nil g : go_run g [] g
| go_run_cons g c a g1 tr g2 :
    has_room c g → go_serve c g = (a, g1) → go_run g1 tr g2 → go_run g ((c, a) :: tr) g2.

Definition go_contents (g : GoEngine) : option (gmap bytes ValueEntry) :=
  match g with Open e => Some (contents (table e)) | Closed _ => None end.

Definition go_ok (g : GoEngine) : Prop := match g with Open e => engine_ok e | Closed _ => True end.

Lemma go_serve_refines c g a g' :
  go_ok g → has_room c g → go_serve c g = (a, g') →
  go_ok g' ∧ if go_implemented c then life_step DEFAULT_LIMIT (go_contents g) c a (go_contents g')
             else (a = AFailed ErrOther ∨ a = AClosed) ∧ go_contents g' = go_contents g.
Proof.
  intros Hok Hroom. destruct g as [e|d].
  2: { destruct c; cbn; intros [= <- <-]; (split; [done|]);
         try (by apply life_close); try (by apply life_closed); by split; [right|]. }
  destruct c as [k v ttl now|k now|k|dir|path|]; cbn [go_serve].
  - destruct (go_set_refines k v ttl now e Hok Hroom) as (e' & -> & Hok' & Hc). cbn. intros [= <- <-].
    split; [done|]. cbn. destruct (Z.ltb_spec MAX_VALUE (zlen v)); cbn.
    + rewrite Hc. by apply life_set_large.
    + destruct Hc as (m' & Hk & ->). by apply life_set.
  - destruct (go_get_refines k now e Hok) as (e' & Hh & Hok' & Hc). destruct (go_get k now e) as [r h].
    cbn in Hh, Hc. subst h. intros [= <- <-]. split; [done|]. cbn.
    destruct Hc as [(v & Hk & Hx & Hx2 & -> & ->)|(-> & Hk & Hc)]; [by apply life_get|by apply life_get_none].
  - destruct (go_delete_refines k e Hok) as (e' & err & -> & Hok' & Herr & Hc). intros [= <- <-].
    split; [done|]. cbn. rewrite Hc. destruct Herr as [[-> Hk]|[-> Hk]]; [by apply life_delete|].
    rewrite delete_id by done. by apply life_delete_none.
  - intros [= <- <-]. split; [done|]. by split; [left|].
  - intros [= <- <-]. split; [done|]. by split; [left|].
  - intros [= <- <-]. split; [done|]. apply life_close.
Qed.

Lemma go_run_refines g tr g' :
  go_run g tr g' → go_ok g →
  life_run DEFAULT_LIMIT (go_contents g) (go_calls tr) (go_contents g')
  ∧ ∀ c a, (c, a) ∈ tr → go_implemented c = false → a = AFailed ErrOther ∨ a = AClosed.
Proof.
  unfold go_calls. induction 1 as [|g c a g1 tr g2 Hroom Hs _ IH]; intros Hg.
  { split; [apply life_run_nil|]. by intros ? ? ?%not_elem_of_nil. }
  destruct (go_serve_refines _ _ _ _ Hg Hroom Hs) as [Hg1 Hstep]. destruct (IH Hg1) as [Hrun Hall].
  rewrite filter_cons. cbn [fst]. destruct (go_implemented c) eqn:Hc.
  - rewrite decide_True by done. split; [by eapply life_run_cons|].
    intros c' a' [[= -> ->]|Hin]%elem_of_cons Hc'; [congruence|by eapply Hall].
  - rewrite decide_False by done. destruct Hstep as [Ha <-]. split; [done|].
    intros c' a' [[= -> ->]|Hin]%elem_of_cons Hc'; [done|by eapply Hall].
Qed.

(** C15: in every sequence of calls on a new engine of the Go binding, on either
    side of [Close] and with [Close] called again, [Set], [Get], [Delete] and
    [Close] are the calls of a map with deadlines that ends with the first
    [Close], from which a set evicts only if the values exceed the 100 MB that
    are built into the engine, whatever limit [New] was given. [ReplayWAL] and
    [Snapshot], which the engine does not implement, always report failure and
    leave the map as it is. *)
Theorem binding_refines_map n lim d g tr g' :
  New n lim d = inl g → go_run g tr g' →
  life_run DEFAULT_LIMIT (Some ∅) (go_calls tr) (go_contents g')
  ∧ ∀ c a, (c, a) ∈ tr → go_implemented c = false → a = AFailed ErrOther ∨ a = AClosed.
Proof.
  unfold New. destruct (engine_create (c_int n) lim d) as [e|] eqn:He; [|done]. intros [= <-] Hrun.
  apply create_ok in He as [Hok Hc]. rewrite <- Hc. by apply (go_run_refines (Open e)).
Qed.
End binding.

(** ** A life *)

Definition demo_life : list go_call :=
  [CSet (str "k") (str "v") 0 10; CGet (str "k") (20, 21, 22); CDelete (str "x"); CSnapshot (str "s"); CClose;
   CGet (str "k") (30, 31, 32); CClose].

Definition demo_life_trace : list (go_call * go_answer) :=
  zip demo_life [ADone; AValue (str "v"); AFailed ErrNotFound; AFailed ErrOther; ADone; AClosed; ADone].

Lemma binding_refines_map_witness : life_run DEFAULT_LIMIT (Some ∅) (go_calls demo_life_trace) None.
Proof.
  refine (proj1 (binding_refines_map (H := LFU.SortedQueue) 4 1 empty_disk (Open demo_engine) demo_life_trace
                   (Closed empty_disk) _ _)).
  - vm_compute. reflexivity.
  - unfold demo_life_trace. cbn [demo_life zip zip_with].
    repeat (eapply go_run_cons; [by vm_compute|vm_compute; reflexivity|]). apply go_run_nil.
Defined.
