(* ===== verification/Shards.v ===== *)
(** * Routing keys to shards, and the engines with locks

    The two routing functions ([get_shard_id] of
    src/engine/src/sharded_engine.cpp and of
    src/engine/include/sharded_engine_sync.h), the engine with one mutex per
    shard, and the engine with one mutex ([MutexEngine] of
    src/engine/include/mutex_engine.h). An operation runs under its lock from
    beginning to end, so it is one step. *)

From S2P Require Import Prelude Files Wal Policy Lru Lfu Dispatch HashTable Store TableFacts Table.

(** ** Routing *)

(** What an engine over [n] shards asks of its routing function. *)
Class Router (n : nat) := {
  route : bytes → nat;
  route_lt k : (0 < n)%nat → (route k < n)%nat;
}.

(** [ShardedEngine::get_shard_id]: the hash of the table, written out again. *)
Definition get_shard_id (n : nat) (key : bytes) : nat :=
  let h := fold_left hash_byte key 0x9e3779b97f4a7c15 in
  Z.to_nat (hash_mix h mod Z.of_nat n).

Lemma mod_index_lt n h : (0 < n)%nat → (Z.to_nat (h mod Z.of_nat n) < n)%nat.
Proof. intros. pose proof (Z.mod_pos_bound h (Z.of_nat n)). lia. Qed.

Definition fnv_router n : Router n :=
  {| route := get_shard_id n; route_lt k := mod_index_lt n _ |}.

(** [ShardedEngineSync::murmur3_hash], with 32-bit arithmetic. *)
Definition rotl32 (x r : Z) : Z := Z.lor (u32 (Z.shiftl x r)) (Z.shiftr x (32 - r)).

Definition murmur_byte (hash : Z) (b : Init.Byte.byte) : Z :=
  let k := u32 (byte.unsigned b * 0xcc9e2d51) in
  let k := rotl32 k 15 in
  let k := u32 (k * 0x1b873593) in
  let hash := Z.lxor hash k in
  u32 (rotl32 hash 13 * 5 + 0xe6546b64).

Definition murmur3_hash (key : bytes) : Z :=
  let hash := fold_left murmur_byte key 0 in
  let hash := u32 (Z.lxor hash (zlen key)) in
  let hash := Z.lxor hash (Z.shiftr hash 16) in
  let hash := u32 (hash * 0x85ebca6b) in
  let hash := Z.lxor hash (Z.shiftr hash 13) in
  let hash := u32 (hash * 0xc2b2ae35) in
  Z.lxor hash (Z.shiftr hash 16).

Definition sync_shard_id (n : nat) (key : bytes) : nat :=
  Z.to_nat (murmur3_hash key mod Z.of_nat n).

Definition murmur_router n : Router n :=
  {| route := sync_shard_id n; route_lt k := mod_index_lt n _ |}.

(** ** One map cut into parts

    The specification of a sharded store: one finite map, of which a request
    sees and changes the part its key is routed to. In particular a set evicts
    only entries of its own part. *)

Section parts.
Context {n : nat} `{!Router n}.
Implicit Types M : gmap bytes ValueEntry.

Definition request_key (q : request) : bytes :=
  match q with Get k _ _ | Set_ k _ | Remove k => k end.

Definition part (i : nat) M : gmap bytes ValueEntry := filter (λ kv, route kv.1 = i) M.
Definition others (i : nat) M : gmap bytes ValueEntry := filter (λ kv, route kv.1 ≠ i) M.

Inductive sharded_step (limit : Z) M (q : request) (a : response)
  : gmap bytes ValueEntry → Prop :=
| sharded_in_part m' :
    spec_step limit (part (route (request_key q)) M) q a m' →
    sharded_step limit M q a (m' ∪ others (route (request_key q)) M).

Inductive sharded_run (limit : Z)
  : gmap bytes ValueEntry → list (request * response) → gmap bytes ValueEntry → Prop :=
| sharded_run_nil M : sharded_run limit M [] M
| sharded_run_cons M q a M1 tr M' :
    sharded_step limit M q a M1 → sharded_run limit M1 tr M' →
    sharded_run limit M ((q, a) :: tr) M'.

Lemma sharded_run_snoc limit M tr M1 q a M' :
  sharded_run limit M tr M1 → sharded_step limit M1 q a M' →
  sharded_run limit M (tr ++ [(q, a)]) M'.
Proof.
  intros Hr Hs. induction Hr; simpl; [eapply sharded_run_cons; [done|constructor]|].
  eapply sharded_run_cons; eauto.
Qed.

(** A request stores at most its own key. *)
Lemma spec_step_keys limit m q a m' k :
  spec_step limit m q a m' → is_Some (m' !! k) → k = request_key q ∨ is_Some (m !! k).
Proof.
  intros Hs. destruct (decide (k = request_key q)) as [?|Hne]; [by left|].
  destruct Hs as [| | |? ? ? (Hsub & _)|]; simpl in *;
    rewrite ?lookup_insert_ne, ?lookup_delete_ne by done; [by right..| |by right].
  intros [e He]. right. exists e. by eapply lookup_weaken.
Qed.
End parts.

(** The union of maps of which only the [j]-th may hold the key. *)
Lemma union_list_lookup (ms : list (gmap bytes ValueEntry)) j k :
  (∀ i m, ms !! i = Some m → is_Some (m !! k) → i = j) →
  (⋃ ms) !! k = (ms !! j) ≫= (λ m, m !! k).
Proof.
  revert j. induction ms as [|m ms IH]; intros j Hj; simpl; [by rewrite lookup_empty|].
  rewrite lookup_union. destruct j as [|j]; simpl.
  - assert ((⋃ ms) !! k = None) as ->; [|by destruct (m !! k)].
    rewrite (IH (length ms)); [by rewrite lookup_ge_None_2|].
    intros i m' Hi Hs. by apply (Hj (S i)) in Hi.
  - rewrite (IH j); [|intros i m' Hi Hs; by apply (Hj (S i)) in Hi as [= ->]].
    destruct (m !! k) eqn:E; [|by destruct (_ ≫= _)].
    by specialize (Hj 0%nat m eq_refl ltac:(by eexists)).
Qed.

(** ** An array of tables *)

Section shards.
Context {P : Type} `{!EvictionPolicy P}.

(** Run an operation on one table of the array. *)
Definition at_shard {A} (i : nat) (f : HashTable P → A * HashTable P)
    (ts : list (HashTable P)) : option (A * list (HashTable P)) :=
  match ts !! i with
  | Some t => let '(a, t') := f t in Some (a, <[i := t']> ts)
  | None => None
  end.

(** The map an array of tables denotes. *)
Definition shards_map (ts : list (HashTable P)) : gmap bytes ValueEntry := ⋃ (contents <$> ts).

Section routed.
Context {n : nat} `{!Router n}.
Implicit Types ts : list (HashTable P).

(** The keys of every table are routed to it. *)
Definition routed ts : Prop :=
  ∀ i t k, ts !! i = Some t → is_Some (contents t !! k) → route k = i.

Lemma shards_map_lookup ts k :
  routed ts → shards_map ts !! k = (ts !! route k) ≫= (λ t, contents t !! k).
Proof.
  intros Hr. unfold shards_map. rewrite (union_list_lookup _ (route k)).
  - rewrite list_lookup_fmap. by destruct (ts !! route k).
  - intros i m. rewrite list_lookup_fmap. intros (t & Ht & ->)%fmap_Some Hs. symmetry. eauto.
Qed.

Lemma shards_part ts i t : routed ts → ts !! i = Some t → part i (shards_map ts) = contents t.
Proof.
  intros Hr Ht. apply map_eq. intros k. unfold part. apply option_eq. intros v.
  rewrite map_lookup_filter_Some, shards_map_lookup by done. simpl. split.
  - intros [Hk Hi]. by rewrite Hi, Ht in Hk.
  - intros Hk. assert (route k = i) as Hi by eauto. by rewrite Hi, Ht.
Qed.

Lemma shards_map_insert ts i t t' :
  routed ts → ts !! i = Some t → routed (<[i := t']> ts) →
  shards_map (<[i := t']> ts) = contents t' ∪ others i (shards_map ts).
Proof.
  intros Hr Ht Hr'. apply map_eq. intros k.
  rewrite shards_map_lookup, lookup_union by done.
  destruct (decide (route k = i)) as [<-|Hne].
  - rewrite list_lookup_insert_eq by (by eapply lookup_lt_Some). simpl.
    unfold others. rewrite (map_lookup_filter_None_2 _ (shards_map ts)) by naive_solver.
    by destruct (contents t' !! k).
  - rewrite list_lookup_insert_ne by done. unfold others.
    assert (contents t' !! k = None) as ->.
    { apply eq_None_not_Some. intros Hs. apply Hne, (Hr' i t'); [|done].
      apply list_lookup_insert_eq. by eapply lookup_lt_Some. }
    rewrite map_lookup_filter, shards_map_lookup by done.
    destruct (_ ≫= _); simpl; [|done]. by rewrite option_guard_True.
Qed.

(** What holds of the array between two requests. *)
Definition shards_ok (limit : Z) ts : Prop :=
  length ts = n ∧ Forall (good limit) ts ∧ routed ts.

Lemma serve_shard_refines limit q a ts t t' :
  0 <= limit → shards_ok limit ts → ts !! route (request_key q) = Some t →
  admissible q t → serve q t = (a, t') →
  shards_ok limit (<[route (request_key q) := t']> ts)
  ∧ sharded_step limit (shards_map ts) q a (shards_map (<[route (request_key q) := t']> ts)).
Proof.
  intros Hl (Hlen & Hg & Hr) Ht Hadm Hs.
  destruct (serve_refines limit q a t t' Hl) as [Hg' Hstep]; [by eapply Forall_lookup_1|done|done|].
  assert (routed (<[route (request_key q) := t']> ts)) as Hr'.
  { intros j u k. rewrite list_lookup_insert_Some. intros [(<- & <- & _)|[_ Hj]] Hk; [|by eauto].
    destruct (spec_step_keys _ _ _ _ _ _ Hstep Hk) as [->|Hk']; eauto. }
  split; [split_and!; [by rewrite length_insert|by apply Forall_insert|done]|].
  rewrite (shards_map_insert _ _ t) by done. constructor. by rewrite (shards_part _ _ t).
Qed.
End routed.
End shards.

(** ** Entries of all shards *)

(** The loops of [total_entries]. *)
Definition sum_sizes {P} (ts : list (HashTable P)) : Z :=
  fold_left (λ total t, total +64 ht_size t) ts 0.

(** Maps whose keys are told apart by [r] count apart. *)
Lemma union_list_size (r : bytes → nat) (o : nat) (ms : list (gmap bytes ValueEntry)) :
  (∀ i m k, ms !! i = Some m → is_Some (m !! k) → r k = (o + i)%nat) →
  base.size (⋃ ms) = sum_list (base.size <$> ms).
Proof.
  revert o. induction ms as [|m ms IH]; intros o Hr; simpl; [by rewrite map_size_empty|].
  rewrite map_size_disj_union, (IH (S o)); [done| |].
  - intros i m' k Hi Hs. rewrite (Hr (S i) m' k Hi Hs). lia.
  - apply map_disjoint_spec. intros k v w Hv Hw.
    pose proof (Hr 0%nat m k eq_refl ltac:(by eexists)) as H0.
    rewrite (union_list_lookup ms (r k - S o)%nat) in Hw.
    + destruct (ms !! _) as [m'|] eqn:Hm'; [|done]. simpl in Hw.
      pose proof (Hr (S (r k - S o)) m' k Hm' ltac:(by eexists)). lia.
    + intros i m' Hi Hs. pose proof (Hr (S i) m' k Hi Hs). lia.
Qed.

Section count.
Context {P : Type} `{!EvictionPolicy P}.
Implicit Types ts : list (HashTable P).

Lemma sum_sizes_from ts c :
  Forall ht_inv ts →
  fold_left (λ total t, total +64 ht_size t) ts (u64 c)
  = u64 (c + Z.of_nat (sum_list (base.size <$> (contents <$> ts)))).
Proof.
  intros Hts. revert c. induction Hts as [|t ts Ht Hts IH]; intros c; simpl; [by rewrite Z.add_0_r|].
  unfold ht_size. rewrite (ht_count t Ht).
  assert (u64 c +64 u64 (zlen (entries t)) = u64 (c + zlen (entries t))) as ->
    by (unfold u64; by rewrite <- Zplus_mod).
  rewrite IH. unfold zlen. rewrite entries_size by done. f_equal. rewrite <- Z.add_assoc, <- Nat2Z.inj_add. done.
Qed.

(** The sum of the sizes is the size of the map, modulo the word size. *)
Lemma sum_sizes_map {n} `{!Router n} limit ts :
  shards_ok limit ts → sum_sizes ts = u64 (Z.of_nat (base.size (shards_map ts))).
Proof.
  intros (_ & Hg & Hr). unfold shards_map.
  rewrite (union_list_size route 0).
  - apply (sum_sizes_from ts 0). eapply Forall_impl; [exact Hg|]. by intros t [? _].
  - intros i m k. rewrite list_lookup_fmap. intros (t & Ht & ->)%fmap_Some. simpl. eauto.
Qed.
End count.

(** ** Routing by the hash of the table

    With [2 ^ a] shards the engine routes by the low bits of the hash that also
    selects the bucket, so a table uses only every [2 ^ a]-th of its buckets. *)

Lemma mod_mod_pow2 h a b : 0 <= a <= b → h mod 2 ^ b mod 2 ^ a = h mod 2 ^ a.
Proof.
  intros Hab. apply Z.mod_mod_divide.
  exists (2 ^ (b - a)). rewrite <- Z.pow_add_r by lia. f_equal. lia.
Qed.

Theorem sharded_buckets_unused {P} `{!EvictionPolicy P} (t : HashTable P) (a b i j : nat) c :
  ht_inv t → length (buckets_ t) = (2 ^ b)%nat → (a <= b)%nat →
  (∀ k, is_Some (contents t !! k) → get_shard_id (2 ^ a) k = i) →
  buckets_ t !! j = Some c → c ≠ [] → (j mod 2 ^ a)%nat = i.
Proof.
  intros Hinv Hlen Hab Hrouted Hj Hc. destruct c as [|kv c]; [done|].
  pose proof (ht_store t Hinv) as Hs.
  destruct (store_placed _ Hs j (kv :: c) kv Hj ltac:(left)) as [Hh Hb].
  rewrite <- (Hrouted (kv_key kv)), <- Hb, Hh.
  - unfold bucket_index, get_shard_id, zlen. fold (hash (kv_key kv)).
    rewrite Hlen, !Nat2Z.inj_pow. apply Nat2Z.inj.
    rewrite Nat2Z.inj_mod, Nat2Z.inj_pow, !Z2Nat.id by (apply Z.mod_pos_bound; lia).
    apply mod_mod_pow2. lia.
  - unfold contents, store_map. apply pmap_is_Some; [apply Hs|]. apply list_elem_of_fmap_2.
    apply list_elem_of_In, in_concat. exists (kv :: c). split; [|by left].
    apply list_elem_of_In. by eapply list_elem_of_lookup_2.
Qed.

(** ** One mutex per shard: [ShardedEngineSync] *)

Module Sync.
Section sync.
Context {H : Type} `{!LFU.PriorityQueue H}.

Record ShardedEngineSync := mkSync {
  num_shards_ : nat;
  shards_ : list (HashTable (TablePolicy H));
}.

(** The constructor's loop: a table of 16 buckets per shard. *)
Definition make_shards (num_shards : nat) (limit : Z) (kind : EvictionPolicyKind) (d : Disk)
  : option (list (HashTable (TablePolicy H))) :=
  mapM (λ _, make_table 16 (make_policy kind limit) [] d) (seq 0 num_shards).

Definition make_sync (num_shards : nat) (memory_limit_per_shard : Z)
    (kind : EvictionPolicyKind) (d : Disk) : option ShardedEngineSync :=
  shards ← make_shards num_shards memory_limit_per_shard kind d;
  Some (mkSync num_shards shards).

(** Run an operation on the table of a key, under its lock. The result is
    [None] when there is no such table, which is an access out of bounds. *)
Definition locked {A} (key : bytes) (f : HashTable (TablePolicy H) → A * HashTable (TablePolicy H))
    (e : ShardedEngineSync) : option (A * ShardedEngineSync) :=
  let shard_id := sync_shard_id (num_shards_ e) key in
  match at_shard shard_id f (shards_ e) with
  | Some (a, ts) => Some (a, mkSync (num_shards_ e) ts)
  | None => None
  end.

Definition sync_get (key : bytes) (now_check now_access : Z) (e : ShardedEngineSync)
  : option (option ValueEntry * ShardedEngineSync) :=
  locked key (get key now_check now_access) e.

Definition sync_set (key : bytes) (value : ValueEntry) (e : ShardedEngineSync)
  : option (bool * ShardedEngineSync) :=
  locked key (insert key value) e.

Definition sync_remove (key : bytes) (e : ShardedEngineSync)
  : option (bool * ShardedEngineSync) :=
  locked key (remove key) e.

Definition total_entries (e : ShardedEngineSync) : Z := sum_sizes (shards_ e).

(** *** Against the specification *)

Definition sync_serve (q : request) (e : ShardedEngineSync)
  : option (response * ShardedEngineSync) :=
  match q with
  | Get k n1 n2 => '(v, e') ← sync_get k n1 n2 e; Some (RValue v, e')
  | Set_ k v => '(b, e') ← sync_set k v e; Some (RBool b, e')
  | Remove k => '(b, e') ← sync_remove k e; Some (RBool b, e')
  end.

(** The value bytes of the shard of the key and of the request fit [size_t]. *)
Definition sync_admissible (q : request) (e : ShardedEngineSync) : Prop :=
  ∀ t, shards_ e !! sync_shard_id (num_shards_ e) (request_key q) = Some t → admissible q t.

Inductive sync_run
  : ShardedEngineSync → list (request * response) → ShardedEngineSync → Prop :=
| sync_run_nil e : sync_run e [] e
| sync_run_cons e q a e1 tr e' :
    sync_admissible q e → sync_serve q e = Some (a, e1) → sync_run e1 tr e' →
    sync_run e ((q, a) :: tr) e'.

Lemma sync_serve_at q e :
  sync_serve q e =
  t ← shards_ e !! sync_shard_id (num_shards_ e) (request_key q);
  let '(a, t') := serve q t in
  Some (a, mkSync (num_shards_ e) (<[sync_shard_id (num_shards_ e) (request_key q) := t']> (shards_ e))).
Proof.
  destruct q; unfold sync_serve, sync_get, sync_set, sync_remove, locked, at_shard, serve; simpl;
    destruct (shards_ e !! _) as [t|]; simpl; try done.
  - by destruct (get _ _ _ t).
  - by destruct (insert _ _ t).
  - by destruct (remove _ t).
Qed.

(** A new array of tables. *)
Lemma make_shards_ok (n : nat) (R : Router n) limit kind d ts :
  make_shards n limit kind d = Some ts → shards_ok limit ts ∧ shards_map ts = ∅.
Proof.
  intros Hm%mapM_Some_1. pose proof (Forall2_length _ _ _ Hm) as Hlen. rewrite length_seq in Hlen.
  assert (Forall (λ t, good limit t ∧ contents t = ∅) ts) as Hall.
  { apply Forall2_Forall_r with (Q := λ t, good limit t ∧ contents t = ∅) in Hm; [done|].
    apply Forall_true. intros _ t Hmk.
    destruct (make_policy_spec (H := H) kind limit) as (Hi & Htr & Hmem & Hl).
    destruct (make_table_spec 16 (make_policy (H := H) kind limit) [] d t
                ltac:(done) Hi Htr Hmk) as (Hinv & Hc & Hp & _).
    split; [|done]. split_and!; [done| |by rewrite Hp]. unfold acct. by rewrite Hc, Hp, Hmem. }
  assert (routed ts) as Hr.
  { intros i t k Ht [v Hv]. eapply Forall_lookup_1 in Hall as [_ Hc]; [|done].
    by rewrite Hc, lookup_empty in Hv. }
  split; [split_and!; [done|by eapply Forall_impl; [done|intros ? [? _]]|done]|].
  apply map_eq. intros k. rewrite shards_map_lookup, lookup_empty by done.
  destruct (ts !! route k) as [t|] eqn:Ht; [|done]. simpl.
  eapply Forall_lookup_1 in Hall as [_ ->]; [|done]. apply lookup_empty.
Qed.

Lemma sync_run_ok (n : nat) (Hn : (0 < n)%nat) limit e tr e' :
  0 <= limit → num_shards_ e = n → shards_ok (Router0 := murmur_router n) limit (shards_ e) →
  sync_run e tr e' →
  num_shards_ e' = n ∧ shards_ok (Router0 := murmur_router n) limit (shards_ e')
  ∧ sharded_run (Router0 := murmur_router n) limit (shards_map (shards_ e)) tr (shards_map (shards_ e')).
Proof.
  intros Hl Hnum Hok Hrun. induction Hrun as [e|e q a e1 tr e' Hadm Hs _ IH].
  { split_and!; [done|done|constructor]. }
  rewrite sync_serve_at in Hs. unfold sync_admissible in Hadm. rewrite Hnum in Hs, Hadm.
  destruct (shards_ e !! _) as [t|] eqn:Ht; [|done]. simpl in Hs.
  destruct (serve q t) as [a' t'] eqn:Hq. injection Hs as -> <-.
  destruct (serve_shard_refines (Router0 := murmur_router n) limit q a (shards_ e) t t')
    as [Hok1 Hstep]; [done|done|exact Ht|by apply Hadm|done|].
  destruct IH as (? & ? & ?); [done|exact Hok1|].
  split_and!; [done|done|]. by eapply sharded_run_cons.
Qed.

Lemma sync_serve_total n limit e q :
  (0 < n)%nat → num_shards_ e = n → shards_ok (Router0 := murmur_router n) limit (shards_ e) →
  is_Some (sync_serve q e).
Proof.
  intros Hn Hnum (Hlen & _ & _). rewrite sync_serve_at, Hnum.
  destruct (lookup_lt_is_Some_2 (shards_ e) (sync_shard_id n (request_key q))) as [t ->].
  { rewrite Hlen. by apply (route_lt (Router := murmur_router n)). }
  simpl. destruct (serve q t). by eexists.
Qed.

(** Runs by evaluation. *)
Definition sync_admissible_b (q : request) (e : ShardedEngineSync) : bool :=
  match shards_ e !! sync_shard_id (num_shards_ e) (request_key q), q with
  | Some t, Set_ k v => total (contents t) + zlen (value v) <? 2 ^ 64
  | _, _ => true
  end.

Fixpoint sync_exec (qs : list request) (e : ShardedEngineSync)
  : option (list (request * response) * ShardedEngineSync) :=
  match qs with
  | [] => Some ([], e)
  | q :: qs =>
      if sync_admissible_b q e then
        '(a, e1) ← sync_serve q e; '(tr, e') ← sync_exec qs e1; Some ((q, a) :: tr, e')
      else None
  end.

Lemma sync_exec_run qs e tr e' : sync_exec qs e = Some (tr, e') → sync_run e tr e'.
Proof.
  revert e tr. induction qs as [|q qs IH]; intros e tr; simpl; [intros [= <- <-]; constructor|].
  destruct (sync_admissible_b q e) eqn:Ha; [|done].
  destruct (sync_serve q e) as [[a e1]|] eqn:Hs; [|done]. simpl.
  destruct (sync_exec qs e1) as [[tr1 e2]|] eqn:Hx; [|done]. intros [= <- <-].
  apply (sync_run_cons _ _ _ e1); [|done|by apply IH].
  intros t Ht. unfold sync_admissible_b in Ha. rewrite Ht in Ha.
  destruct q; [done| |done]. by apply Z.ltb_lt in Ha.
Qed.

(** C30: the engine with a lock per shard is one map. Every sequence of calls on
    a new engine with at least one shard, in the order in which they took their locks, is a run of the
    sharded specification: a request sees and changes only the part of the map
    its key is routed to, and is otherwise answered as by a single table. No
    call accesses a shard out of bounds, and [total_entries] counts the map. *)
Theorem sync_refines_sharded_map (n : nat) limit kind d e tr e' :
  (0 < n)%nat → 0 <= limit → make_sync n limit kind d = Some e → sync_run e tr e' →
  sharded_run (Router0 := murmur_router n) limit ∅ tr (shards_map (shards_ e'))
  ∧ total_entries e' = u64 (Z.of_nat (base.size (shards_map (shards_ e'))))
  ∧ ∀ q, is_Some (sync_serve q e').
Proof.
  intros Hn Hl Hmk Hrun. unfold make_sync in Hmk.
  destruct (make_shards n limit kind d) as [ts|] eqn:Hts; [|done]. injection Hmk as <-.
  destruct (make_shards_ok n (murmur_router n) limit kind d ts Hts) as [Hok Hempty].
  destruct (sync_run_ok n Hn limit (mkSync n ts) tr e' Hl eq_refl Hok Hrun) as (Hnum & Hok' & Hsteps).
  simpl in Hsteps. rewrite Hempty in Hsteps. split_and!; [done| |].
  - by apply (sum_sizes_map (Router0 := murmur_router n) limit).
  - intros q. by apply (sync_serve_total n limit).
Qed.
End sync.
End Sync.

(** *** Witness *)

Section sync_demo.
Import Sync.

Definition sync_demo : ShardedEngineSync :=
  default (mkSync 0 []) (make_sync (H := LFU.SortedQueue) 2 6 KindLRU empty_disk).

(** Four sets, of which some share a shard that overflows, and the three kinds
    of request on the result. *)
Definition sync_demo_requests : list request :=
  [Set_ (str "a") (new_entry (str "four") 0); Set_ (str "b") (new_entry (str "four") 0);
   Set_ (str "c") (new_entry (str "four") 0); Set_ (str "d") (new_entry (str "four") 0);
   Set_ (str "e") (new_entry (str "four") 0); Get (str "a") 1 2; Get (str "e") 1 2; Remove (str "d")].

Definition sync_demo_result : list (request * response) * ShardedEngineSync :=
  default ([], sync_demo) (sync_exec sync_demo_requests sync_demo).

Lemma sync_refines_sharded_map_witness :
  sharded_run (Router0 := murmur_router 2) 6 ∅ sync_demo_result.1 (shards_map (shards_ sync_demo_result.2))
  ∧ total_entries sync_demo_result.2 = u64 (Z.of_nat (base.size (shards_map (shards_ sync_demo_result.2))))
  ∧ ∀ q, is_Some (sync_serve q sync_demo_result.2).
Proof.
  apply (sync_refines_sharded_map 2 6 KindLRU empty_disk sync_demo); [lia|lia|by vm_compute|].
  apply (sync_exec_run sync_demo_requests). by vm_compute.
Defined.
End sync_demo.

(** ** One mutex: [MutexEngine]

    The pointer that [get] returns is used after the lock is released; the
    model returns the entry as it is at that moment. *)

Module Mutex.
Section mutex.
Context {H : Type} `{!LFU.PriorityQueue H}.

Record MutexEngine := mkMutex { mutex_table : HashTable (TablePolicy H) }.

Definition make_mutex (d : Disk) : option MutexEngine :=
  mkMutex <$> make_table 16 (make_policy KindLRU (1024 * 1024 * 100)) [] d.

Definition mutex_set (key : bytes) (value : ValueEntry) (e : MutexEngine) : bool * MutexEngine :=
  let '(b, t) := insert key value (mutex_table e) in (b, mkMutex t).

Definition mutex_get (key : bytes) (now_check now_access : Z) (e : MutexEngine)
  : option ValueEntry * MutexEngine :=
  let '(v, t) := get key now_check now_access (mutex_table e) in (v, mkMutex t).

Definition mutex_remove (key : bytes) (e : MutexEngine) : bool * MutexEngine :=
  let '(b, t) := remove key (mutex_table e) in (b, mkMutex t).

Definition mutex_size (e : MutexEngine) : Z := ht_size (mutex_table e).
End mutex.
End Mutex.
