(* ===== verification/Sharded.v ===== *)
(** * Worker threads and request queues

    [ShardedEngine] of src/engine/src/sharded_engine.cpp: a worker thread, a
    queue with its mutex and condition variable, and a table per shard. The
    clients, the workers and the thread that calls [start] and [stop] interleave;
    a step of the model is what one of them does without another being able to
    see the middle of it. *)

From S2P Require Import Prelude Files Wal Policy Lru Lfu Dispatch HashTable Store TableFacts Table Shards.

(** ** State *)

Inductive RequestType := GET | SET | REMOVE.

(** The promise is known by its number. *)
Record Request := mkRequest {
  req_type : RequestType;
  req_key : bytes;
  req_value : option ValueEntry;
  promise : nat;
}.

(** Where a worker is in [worker_loop]: at the condition of the loop; holding
    the mutex, at the predicate of [wait]; still holding it after the predicate
    was false, about to sleep; asleep; processing a request; or gone. *)
Inductive Worker :=
| Top
| Locked
| Presleep
| Asleep
| Busy (r : Request)
| Exited.

#[global] Instance worker_eq_dec_asleep w : Decision (w = Asleep).
Proof. destruct w; first [by left|by right]. Defined.

(** The list without the first occurrence of a number, if there is one. *)
Fixpoint take_out (i : nat) (l : list nat) : option (list nat) :=
  match l with
  | [] => None
  | j :: l => if decide (i = j) then Some l else cons j <$> take_out i l
  end.

Section sharded.
Context {H : Type} `{!LFU.PriorityQueue H}.
Abbreviation Table := (HashTable (TablePolicy H)).

(** [notifying] are the calls of [notify_one] and [notify_all] that have been
    reached but not made, by shard; a condition variable has one waiter, its
    worker. [submitted] are all requests ever pushed, [log] those processed
    with the clock readings and the values their promises were given; both only
    record. *)
Record ShardedEngine := mkSharded {
  num_shards_ : nat;
  shards_ : list Table;
  request_queues_ : list (list Request);
  workers : list Worker;
  running_ : bool;
  notifying : list nat;
  promises : gmap nat (option ValueEntry);
  submitted : list Request;
  log : list (Request * (Z * Z) * option ValueEntry);
}.

Definition queue (s : ShardedEngine) (i : nat) : list Request := default [] (request_queues_ s !! i).
Definition worker (s : ShardedEngine) (i : nat) : Worker := default Exited (workers s !! i).

Definition set_worker (i : nat) (w : Worker) (s : ShardedEngine) : ShardedEngine :=
  mkSharded (num_shards_ s) (shards_ s) (request_queues_ s) (<[i := w]> (workers s)) (running_ s)
    (notifying s) (promises s) (submitted s) (log s).

Definition set_queue (i : nat) (q : list Request) (s : ShardedEngine) : ShardedEngine :=
  mkSharded (num_shards_ s) (shards_ s) (<[i := q]> (request_queues_ s)) (workers s) (running_ s)
    (notifying s) (promises s) (submitted s) (log s).

(** ** Construction, start and stop *)

Definition make_sharded (num_shards : nat) (memory_limit_per_shard : Z)
    (kind : EvictionPolicyKind) (d : Disk) : option ShardedEngine :=
  shards ← Sync.make_shards num_shards memory_limit_per_shard kind d;
  Some (mkSharded num_shards shards (replicate num_shards []) (replicate num_shards Exited)
          false [] ∅ [] []).

(** The joins of [stop] return when every worker has left its loop. *)
Definition joined (s : ShardedEngine) : bool :=
  forallb (λ w, match w with Exited => true | _ => false end) (workers s).

(** [start], by a thread that does not call it before [stop] has returned. *)
Definition start (s : ShardedEngine) : option ShardedEngine :=
  if running_ s then Some s
  else if joined s
  then Some (mkSharded (num_shards_ s) (shards_ s) (request_queues_ s)
               (replicate (num_shards_ s) Top) true
               (notifying s) (promises s) (submitted s) (log s))
  else None.

(** [stop] up to the joins: the flag is cleared, without the mutexes, and each
    condition variable is to be notified. *)
Definition stop (s : ShardedEngine) : ShardedEngine :=
  if running_ s
  then mkSharded (num_shards_ s) (shards_ s) (request_queues_ s) (workers s) false
         (notifying s ++ seq 0 (num_shards_ s)) (promises s) (submitted s) (log s)
  else s.

(** ** Clients *)

(** The worker holds the mutex of its queue. *)
Definition holds_lock (w : Worker) : bool :=
  match w with Locked | Presleep => true | _ => false end.

(** The part of [get], [set] and [remove] up to the notification: the request
    is pushed under the mutex, for which the client waits ([None]) while the
    worker has it. *)
Definition enqueue (r : Request) (s : ShardedEngine) : option ShardedEngine :=
  let shard_id := get_shard_id (num_shards_ s) (req_key r) in
  if holds_lock (worker s shard_id) then None
  else Some (mkSharded (num_shards_ s) (shards_ s)
               (<[shard_id := queue s shard_id ++ [r]]> (request_queues_ s)) (workers s) (running_ s)
               (notifying s ++ [shard_id]) (promises s) (submitted s ++ [r]) (log s)).

(** Each call has a promise of its own. *)
Definition call_get (key : bytes) (s : ShardedEngine) : option ShardedEngine :=
  enqueue (mkRequest GET key None (length (submitted s))) s.

Definition call_set (key : bytes) (value : ValueEntry) (s : ShardedEngine) : option ShardedEngine :=
  enqueue (mkRequest SET key (Some value) (length (submitted s))) s.

Definition call_remove (key : bytes) (s : ShardedEngine) : option ShardedEngine :=
  enqueue (mkRequest REMOVE key None (length (submitted s))) s.

(** What the calls return once their future is ready. *)
Definition return_get (id : nat) (s : ShardedEngine) : option (option ValueEntry) := promises s !! id.
Definition return_set (id : nat) (s : ShardedEngine) : option bool := (λ _, true) <$> promises s !! id.
Definition return_remove (id : nat) (s : ShardedEngine) : option bool := (λ _, true) <$> promises s !! id.

(** A notification wakes the worker if it is asleep, which then takes the mutex
    again and looks at the predicate. *)
Definition notify (i : nat) (s : ShardedEngine) : option ShardedEngine :=
  match take_out i (notifying s) with
  | None => None
  | Some rest =>
      Some (mkSharded (num_shards_ s) (shards_ s) (request_queues_ s)
              (if decide (worker s i = Asleep) then <[i := Locked]> (workers s) else workers s)
              (running_ s) rest (promises s) (submitted s) (log s))
  end.

(** ** Workers *)

(** [process_request] on the table of the shard: the value the promise is given
    and the table. [None] is the exception of reading an absent value. *)
Definition process_request (r : Request) (now : Z * Z) (t : Table) : option (option ValueEntry * Table) :=
  match req_type r with
  | GET => let '(result, t') := get (req_key r) now.1 now.2 t in Some (result, t')
  | SET =>
      match req_value r with
      | Some v => Some (None, (insert (req_key r) v t).2)
      | None => None
      end
  | REMOVE => Some (None, (remove (req_key r) t).2)
  end.

Definition finish (i : nat) (r : Request) (now : Z * Z) (s : ShardedEngine) : option ShardedEngine :=
  t ← shards_ s !! i;
  '(v, t') ← process_request r now t;
  Some (mkSharded (num_shards_ s) (<[i := t']> (shards_ s)) (request_queues_ s)
          (<[i := Top]> (workers s)) (running_ s) (notifying s)
          (<[promise r := v]> (promises s)) (submitted s) (log s ++ [(r, now, v)])).

(** One step of [worker_loop]. *)
Definition worker_step (i : nat) (now : Z * Z) (s : ShardedEngine) : option ShardedEngine :=
  match worker s i with
  | Top => Some (set_worker i (if running_ s then Locked else Exited) s)
  | Locked =>
      match queue s i with
      | r :: q => Some (set_worker i (Busy r) (set_queue i q s))
      | [] => Some (set_worker i (if running_ s then Presleep else Exited) s)
      end
  | Presleep => Some (set_worker i Asleep s)
  | Asleep => None
  | Busy r => finish i r now s
  | Exited => None
  end.

Definition total_entries (s : ShardedEngine) : Z := sum_sizes (shards_ s).

(** ** Interleavings *)

Inductive event :=
| EStart | EStop
| EGet (key : bytes) | ESet (key : bytes) (value : ValueEntry) | ERemove (key : bytes)
| ENotify (i : nat)
| EWorker (i : nat) (now : Z * Z).

Definition exec (ev : event) (s : ShardedEngine) : option ShardedEngine :=
  match ev with
  | EStart => start s
  | EStop => Some (stop s)
  | EGet k => call_get k s
  | ESet k v => call_set k v s
  | ERemove k => call_remove k s
  | ENotify i => notify i s
  | EWorker i now => worker_step i now s
  end.

Fixpoint exec_all (evs : list event) (s : ShardedEngine) : option ShardedEngine :=
  match evs with
  | [] => Some s
  | ev :: evs => s1 ← exec ev s; exec_all evs s1
  end.

Definition step (s s' : ShardedEngine) : Prop := ∃ ev, exec ev s = Some s'.
End sharded.
