(* ===== verification/ShardedFacts.v ===== *)
(** * What the engine with worker threads promises

    Every interleaving of clients, workers and the thread that starts and stops
    the engine: requests are answered once, in order, as by one map; no request
    to a running engine is forgotten; and what stopping does not guarantee. *)

From S2P Require Import Prelude Files Wal Policy Lru Lfu Dispatch HashTable Store TableFacts Table Shards Sharded.

Section facts.
Context {H : Type} `{!LFU.PriorityQueue H}.
Abbreviation ShardedEngine := (ShardedEngine (H := H)).
Implicit Types s : ShardedEngine.

(** ** Processing is serving *)

(** The request of the table that a queued request stands for. *)
Definition as_request (r : Request) (now : Z * Z) : option request :=
  match req_type r, req_value r with
  | GET, _ => Some (Get (req_key r) now.1 now.2)
  | SET, Some v => Some (Set_ (req_key r) v)
  | SET, None => None
  | REMOVE, _ => Some (Remove (req_key r))
  end.

(** What is left of an answer in the promise. *)
Definition promised (a : response) : option ValueEntry :=
  match a with RValue v => v | RBool _ => None end.

Lemma process_request_serve r now (t : HashTable (TablePolicy H)) :
  process_request r now t =
  q ← as_request r now; let '(a, t') := serve q t in Some (promised a, t').
Proof.
  unfold process_request, as_request. destruct (req_type r); simpl.
  - by destruct (get _ _ _ t).
  - destruct (req_value r); simpl; [|done]. by destruct (insert _ _ t).
  - by destruct (remove _ t).
Qed.

Lemma as_request_key r now q : as_request r now = Some q → request_key q = req_key r.
Proof. unfold as_request. by destruct (req_type r), (req_value r); intros [= <-]. Qed.

(** A request as the clients make it. *)
Definition well_formed (r : Request) : Prop := req_type r = SET → is_Some (req_value r).

Lemma well_formed_request r now : well_formed r → is_Some (as_request r now).
Proof.
  unfold well_formed, as_request. intros Hw. destruct (req_type r); [by eexists| |by eexists].
  destruct (Hw eq_refl) as [v ->]. by eexists.
Qed.

(** ** Order of requests *)

(** The requests for one shard. *)
Definition for_shard (n i : nat) (rs : list Request) : list Request :=
  filter (λ r, get_shard_id n (req_key r) = i) rs.

Definition in_hand (w : Worker) : list Request := match w with Busy r => [r] | _ => [] end.

Definition logged (s : ShardedEngine) : list Request := (λ x, x.1.1) <$> log s.

Record inv (s : ShardedEngine) : Prop := {
  inv_shards : length (shards_ s) = num_shards_ s;
  inv_queues : length (request_queues_ s) = num_shards_ s;
  inv_workers : length (workers s) = num_shards_ s;
  (* requests for a shard: processed, in hand, waiting, in the order they came *)
  inv_order i :
    for_shard (num_shards_ s) i (logged s) ++ in_hand (worker s i) ++ queue s i
    = for_shard (num_shards_ s) i (submitted s);
  inv_logged : logged s ⊆ submitted s;
  inv_wf : Forall well_formed (submitted s);
  inv_promise : promise <$> submitted s = seq 0 (length (submitted s));
  inv_kept : ∀ r now v, (r, now, v) ∈ log s → promises s !! promise r = Some v;
  inv_only id : is_Some (promises s !! id) → id ∈ promise <$> logged s;
  (* a worker about to sleep has nothing to do *)
  inv_presleep i : worker s i = Presleep → queue s i = [];
  (* and one asleep has nothing to do or is about to be told *)
  inv_asleep i : worker s i = Asleep → queue s i = [] ∨ i ∈ notifying s;
  inv_alive i : running_ s = true → (i < num_shards_ s)%nat → worker s i ≠ Exited;
}.

(** ** Lookup after an update *)

Lemma worker_set i w j s :
  length (workers s) = num_shards_ s → (i < num_shards_ s)%nat →
  worker (set_worker i w s) j = if decide (i = j) then w else worker s j.
Proof.
  intros Hl Hi. unfold worker, set_worker. simpl. case_decide as Hj.
  - subst. by rewrite list_lookup_insert_eq by lia.
  - by rewrite list_lookup_insert_ne.
Qed.

Lemma queue_set i q j s :
  length (request_queues_ s) = num_shards_ s → (i < num_shards_ s)%nat →
  queue (set_queue i q s) j = if decide (i = j) then q else queue s j.
Proof.
  intros Hl Hi. unfold queue, set_queue. simpl. case_decide as Hj.
  - subst. by rewrite list_lookup_insert_eq by lia.
  - by rewrite list_lookup_insert_ne.
Qed.

Lemma worker_lt i s : length (workers s) = num_shards_ s → worker s i ≠ Exited → (i < num_shards_ s)%nat.
Proof.
  intros Hl Hw. unfold worker in Hw. destruct (workers s !! i) eqn:E; [|done].
  apply lookup_lt_Some in E. lia.
Qed.

Lemma take_out_elem i l rest : take_out i l = Some rest → ∀ j, j ∈ l → j ≠ i → j ∈ rest.
Proof.
  revert rest. induction l as [|x l IH]; intros rest; simpl; [done|].
  case_decide as Hx; [intros [= <-]; set_solver|].
  destruct (take_out i l) as [l'|]; [|done]. intros [= <-] j. specialize (IH l' eq_refl j). set_solver.
Qed.

Lemma take_out_Some i l : i ∈ l → is_Some (take_out i l).
Proof.
  induction l as [|x l IH]; [by intros ?%not_elem_of_nil|]. simpl. case_decide; [by eexists|].
  intros [->|Hi]%elem_of_cons; [done|]. destruct (IH Hi) as [l' ->]. by eexists.
Qed.

Lemma sharded_make_inv n limit kind d s : make_sharded n limit kind d = Some s → inv s.
Proof.
  unfold make_sharded. destruct (Sync.make_shards _ _ _ _) as [ts|] eqn:Hts; [|done]. intros [= <-].
  assert (length ts = n) as Hlen.
  { apply length_mapM in Hts. by rewrite length_seq in Hts. }
  assert (∀ i, worker (mkSharded n ts (replicate n []) (replicate n Exited) false [] ∅ [] []) i = Exited) as Hw.
  { intros i. unfold worker. simpl. destruct (replicate n Exited !! i) eqn:E; [|done].
    by apply lookup_replicate in E as [-> _]. }
  assert (∀ i, queue (mkSharded n ts (replicate n []) (replicate n Exited) false [] ∅ [] []) i = []) as Hq.
  { intros i. unfold queue. simpl. destruct (replicate n [] !! i) eqn:E; [|done].
    by apply lookup_replicate in E as [-> _]. }
  split; simpl; rewrite ?length_replicate; try done; try (intros i; by rewrite Hw).
  - intros i. by rewrite Hw, Hq.
  - intros ? ? ? ?%not_elem_of_nil. done.
  - intros id. rewrite lookup_empty. by intros [? ?].
Qed.

(** ** The steps keep the invariant *)

Lemma set_worker_inv i w s :
  inv s → (i < num_shards_ s)%nat → in_hand w = in_hand (worker s i) →
  (w = Presleep → queue s i = []) → (w = Asleep → queue s i = [] ∨ i ∈ notifying s) →
  (running_ s = true → w ≠ Exited) →
  inv (set_worker i w s).
Proof.
  intros Hinv Hi Hh Hp Ha Hx. pose proof (inv_workers s Hinv) as Hl.
  assert (∀ j, worker (set_worker i w s) j = if decide (i = j) then w else worker s j) as Hw
    by (intros; by apply worker_set).
  split; try apply Hinv.
  - simpl. rewrite length_insert. apply Hinv.
  - intros j. rewrite Hw. change (queue (set_worker i w s) j) with (queue s j).
    etrans; [|apply (inv_order s Hinv j)]. case_decide; [subst j; by rewrite Hh|done].
  - intros j. rewrite Hw. case_decide; [subst; apply Hp|apply Hinv].
  - intros j. rewrite Hw. case_decide; [subst; apply Ha|apply Hinv].
  - intros j Hr Hj. rewrite Hw. case_decide; [subst; by apply Hx|by apply Hinv].
Qed.

Lemma pop_inv i r q s :
  inv s → worker s i = Locked → queue s i = r :: q →
  inv (set_worker i (Busy r) (set_queue i q s)).
Proof.
  intros Hinv Hlk Hq. pose proof (inv_workers s Hinv) as Hl.
  assert (i < num_shards_ s)%nat as Hi by (apply worker_lt; [done|by rewrite Hlk]).
  set (s' := set_worker i (Busy r) (set_queue i q s)).
  assert (∀ j, worker s' j = if decide (i = j) then Busy r else worker s j) as Hw.
  { intros j. unfold s'. by rewrite worker_set. }
  assert (∀ j, queue s' j = if decide (i = j) then q else queue s j) as Hq'.
  { intros j. by apply queue_set; [apply Hinv|]. }
  split; try apply Hinv.
  - simpl. rewrite length_insert. apply Hinv.
  - simpl. rewrite length_insert. apply Hinv.
  - intros j. rewrite Hw, Hq'. etrans; [|apply (inv_order s Hinv j)].
    case_decide; [|done]. subst j. by rewrite Hlk, Hq.
  - intros j. rewrite Hw, Hq'. case_decide; [done|apply Hinv].
  - intros j. rewrite Hw, Hq'. case_decide; [done|apply Hinv].
  - intros j Hr Hj. rewrite Hw. case_decide; [done|by apply Hinv].
Qed.

(** A request in hand or waiting is a submitted one, of this shard, and not yet
    logged. *)
Lemma pending_fresh i r s :
  inv s → r ∈ in_hand (worker s i) ++ queue s i →
  r ∈ submitted s ∧ get_shard_id (num_shards_ s) (req_key r) = i
  ∧ ∀ r', r' ∈ logged s → promise r' ≠ promise r.
Proof.
  intros Hinv Hp. pose proof (inv_order s Hinv i) as Ho.
  assert (r ∈ for_shard (num_shards_ s) i (submitted s)) as Hr by (rewrite <- Ho; set_solver).
  apply list_elem_of_filter in Hr as [Hri Hr]. split_and!; [done|done|]. intros r' Hr' Heq.
  assert (NoDup (promise <$> submitted s)) as Hnd by (rewrite (inv_promise s Hinv); apply NoDup_seq).
  assert (r' = r) as ->.
  { apply (inv_logged s Hinv) in Hr'. apply list_elem_of_lookup in Hr as [a Ha], Hr' as [b Hb].
    assert (b = a) as ->; [|congruence].
    eapply (NoDup_lookup _ b a (promise r) Hnd); rewrite list_lookup_fmap;
      [by rewrite Hb; simpl; rewrite Heq|by rewrite Ha]. }
  assert (NoDup (for_shard (num_shards_ s) i (submitted s))) as Hnd'
    by (by apply NoDup_filter, (NoDup_fmap_1 promise)).
  rewrite <- Ho in Hnd'. apply NoDup_app in Hnd' as (_ & Hd & _).
  by apply (Hd r); [apply list_elem_of_filter|].
Qed.

Lemma in_hand_fresh i r s :
  inv s → worker s i = Busy r →
  r ∈ submitted s ∧ get_shard_id (num_shards_ s) (req_key r) = i
  ∧ ∀ r', r' ∈ logged s → promise r' ≠ promise r.
Proof. intros Hinv Hw. apply pending_fresh; [done|]. rewrite Hw. simpl. set_solver. Qed.

Lemma for_shard_snoc n i rs r :
  for_shard n i (rs ++ [r])
  = for_shard n i rs ++ if decide (get_shard_id n (req_key r) = i) then [r] else [].
Proof.
  unfold for_shard. rewrite filter_app, filter_cons, filter_nil. done.
Qed.

Lemma finish_inv i r now s s' :
  inv s → worker s i = Busy r → finish i r now s = Some s' → inv s'.
Proof.
  intros Hinv Hb Hf. pose proof (inv_workers s Hinv) as Hl.
  assert (i < num_shards_ s)%nat as Hi by (apply worker_lt; [done|by rewrite Hb]).
  destruct (in_hand_fresh i r s Hinv Hb) as (Hr & Hri & Hfresh).
  unfold finish in Hf. destruct (shards_ s !! i) as [t|]; [|done]. simpl in Hf.
  destruct (process_request r now t) as [[v t']|]; [|done]. injection Hf as <-.
  set (s' := mkSharded _ _ _ _ _ _ _ _ _).
  assert (∀ j, worker s' j = if decide (i = j) then Top else worker s j) as Hw
    by (intros; by apply (worker_set i Top j s)).
  split; try apply Hinv.
  - simpl. rewrite length_insert. apply Hinv.
  - simpl. rewrite length_insert. apply Hinv.
  - intros j. rewrite Hw. etrans; [|apply (inv_order s Hinv j)].
    unfold logged. simpl. rewrite fmap_app. simpl. rewrite for_shard_snoc, Hri, <- app_assoc.
    case_decide; [|done]. subst j. by rewrite Hb.
  - unfold logged. simpl. rewrite fmap_app. simpl. pose proof (inv_logged s Hinv). set_solver.
  - simpl. intros r' now' v' [Hin|Hin]%elem_of_app.
    + rewrite lookup_insert_ne; [by eapply inv_kept|]. apply not_eq_sym, Hfresh.
      unfold logged. apply list_elem_of_fmap. by exists (r', now', v').
    + apply list_elem_of_singleton in Hin as [= -> -> ->]. by rewrite lookup_insert_eq.
  - simpl. intros id. unfold logged. simpl. rewrite fmap_app, lookup_insert, fmap_app, elem_of_app. simpl.
    case_decide as Hid; [intros _; right; set_solver|]. intros Hs. left. by apply (inv_only s Hinv).
  - intros j. rewrite Hw. case_decide; [done|apply Hinv].
  - intros j. rewrite Hw. case_decide; [done|apply Hinv].
  - intros j Hrun Hj. rewrite Hw. case_decide; [done|by apply Hinv].
Qed.

Lemma enqueue_inv r s s' :
  inv s → (0 < num_shards_ s)%nat → well_formed r → promise r = length (submitted s) →
  enqueue r s = Some s' → inv s'.
Proof.
  intros Hinv Hn Hwf Hid He. unfold enqueue in He.
  set (i := get_shard_id (num_shards_ s) (req_key r)) in *.
  assert (i < num_shards_ s)%nat as Hi by (by apply (route_lt (Router := fnv_router (num_shards_ s)))).
  destruct (holds_lock (worker s i)) eqn:Hlk; [done|]. injection He as <-.
  set (s' := mkSharded _ _ _ _ _ _ _ _ _).
  assert (∀ j, queue s' j = if decide (i = j) then queue s i ++ [r] else queue s j) as Hq
    by (intros; by apply (queue_set i (queue s i ++ [r]) j s); [apply Hinv|]).
  assert (∀ j, worker s' j = worker s j) as Hw by done.
  split; try apply Hinv.
  - simpl. rewrite length_insert. apply Hinv.
  - intros j. rewrite Hw, Hq. simpl. rewrite for_shard_snoc, <- (inv_order s Hinv j), <- !app_assoc.
    fold i. by destruct (decide (i = j)) as [<-|]; rewrite ?app_nil_r.
  - simpl. pose proof (inv_logged s Hinv). unfold logged in *. simpl. set_solver.
  - simpl. apply Forall_app. split; [apply Hinv|by constructor].
  - simpl. rewrite fmap_app, length_app, seq_app, (inv_promise s Hinv). simpl. by rewrite Hid.
  - intros j. rewrite Hw, Hq. case_decide; [|apply Hinv]. subst j. intros Hp. by rewrite Hp in Hlk.
  - intros j. rewrite Hw, Hq. simpl. case_decide.
    + intros _. right. set_solver.
    + intros [?|?]%(inv_asleep s Hinv); [by left|right; set_solver].
Qed.

(** A delivered notification is no longer under way. *)
Lemma drop_notify_inv i rest s :
  inv s → worker s i ≠ Asleep → take_out i (notifying s) = Some rest →
  inv (mkSharded (num_shards_ s) (shards_ s) (request_queues_ s) (workers s) (running_ s)
         rest (promises s) (submitted s) (log s)).
Proof.
  intros Hinv Hw Ht. split; try apply Hinv. intros j Hj. simpl.
  destruct (inv_asleep s Hinv j Hj) as [?|Hin]; [by left|]. right.
  eapply take_out_elem; [done|done|]. intros ->. by apply Hw.
Qed.

Lemma notify_inv i s s' : inv s → notify i s = Some s' → inv s'.
Proof.
  intros Hinv Hn. unfold notify in Hn. destruct (take_out i (notifying s)) as [rest|] eqn:Ht; [|done].
  injection Hn as <-. case_decide as Ha; [|by apply (drop_notify_inv i)].
  assert (i < num_shards_ s)%nat as Hi by (apply worker_lt; [apply Hinv|by rewrite Ha]).
  apply (drop_notify_inv i rest (set_worker i Locked s)); [|by rewrite worker_set by (done || apply Hinv); rewrite decide_True|done].
  apply set_worker_inv; try done. by rewrite Ha.
Qed.

Lemma sharded_start_inv s s' : inv s → start s = Some s' → inv s'.
Proof.
  intros Hinv. unfold start. destruct (running_ s); [by intros [= <-]|].
  destruct (joined s) eqn:Hj; [|done]. intros [= <-].
  set (s' := mkSharded _ _ _ _ _ _ _ _ _).
  assert (∀ j, worker s' j = Top ∨ (num_shards_ s <= j)%nat ∧ worker s' j = Exited) as Hw.
  { intros j. unfold worker, s'. simpl. destruct (replicate _ Top !! j) eqn:E.
    - apply lookup_replicate in E as [-> _]. by left.
    - apply lookup_replicate_None in E. by right. }
  assert (∀ j, in_hand (worker s j) = []) as Hidle.
  { intros j. unfold worker. destruct (workers s !! j) as [w|] eqn:E; [|done]. simpl.
    unfold joined in Hj. rewrite forallb_forall in Hj.
    specialize (Hj w). destruct w; try done. by discriminate Hj; eapply list_elem_of_In, list_elem_of_lookup_2. }
  split; try apply Hinv.
  - simpl. by rewrite length_replicate.
  - intros j. etrans; [|apply (inv_order s Hinv j)]. rewrite Hidle. by destruct (Hw j) as [->|[_ ->]].
  - intros j. by destruct (Hw j) as [->|[_ ->]].
  - intros j. by destruct (Hw j) as [->|[_ ->]].
  - intros j _ Hlt. destruct (Hw j) as [->|[? _]]; [done|simpl in *; lia].
Qed.

Lemma stop_inv s : inv s → inv (stop s).
Proof.
  intros Hinv. unfold stop. destruct (running_ s); [|done]. split; try apply Hinv; [|done].
  intros j [?|?]%(inv_asleep s Hinv); [by left|]. right. simpl. set_solver.
Qed.

Lemma worker_inv i now s s' : inv s → worker_step i now s = Some s' → inv s'.
Proof.
  intros Hinv Hs. unfold worker_step in Hs. pose proof (inv_workers s Hinv) as Hl.
  assert (worker s i ≠ Exited → i < num_shards_ s)%nat as Hi by (by apply worker_lt).
  destruct (worker s i) eqn:Hw; try done.
  - injection Hs as <-. apply set_worker_inv; rewrite ?Hw; destruct (running_ s); auto; done.
  - destruct (queue s i) as [|r q] eqn:Hq; injection Hs as <-; [|by apply pop_inv].
    apply set_worker_inv; rewrite ?Hw; destruct (running_ s); auto; done.
  - injection Hs as <-. apply set_worker_inv; rewrite ?Hw; auto; try done.
    intros _. left. by apply Hinv.
  - by eapply finish_inv.
Qed.

Lemma exec_num_shards ev s s' : exec ev s = Some s' → num_shards_ s' = num_shards_ s.
Proof.
  destruct ev; simpl; unfold start, stop, call_get, call_set, call_remove, enqueue, notify, worker_step, finish;
    repeat case_match; intros; simplify_option_eq; try done; repeat case_match; by simplify_eq.
Qed.

Lemma exec_inv ev s s' : inv s → (0 < num_shards_ s)%nat → exec ev s = Some s' → inv s'.
Proof.
  intros Hinv Hn. destruct ev; simpl.
  - by apply sharded_start_inv.
  - intros [= <-]. by apply stop_inv.
  - by apply enqueue_inv.
  - apply enqueue_inv; [done|done|by eexists|done].
  - by apply enqueue_inv.
  - by apply notify_inv.
  - by apply worker_inv.
Qed.

Lemma sharded_reachable_inv s s' : inv s → (0 < num_shards_ s)%nat → rtc step s s' → inv s' ∧ num_shards_ s' = num_shards_ s.
Proof.
  intros Hinv Hn Hs. induction Hs as [s|s s1 s' [ev He] _ IH]; [done|].
  pose proof (exec_num_shards ev s s1 He) as E. rewrite <- E. apply IH; [by eapply exec_inv|lia].
Qed.

(** ** The answers are those of one map *)

Definition set_bytes (r : Request) : Z :=
  match req_value r with Some v => zlen (value v) | None => 0 end.

(** The bytes of all values stored by processed requests. *)
Definition logged_bytes (l : list (Request * (Z * Z) * option ValueEntry)) : Z :=
  foldr (λ x n, set_bytes x.1.1 + n) 0 l.

Lemma set_bytes_nonneg r : 0 <= set_bytes r.
Proof. unfold set_bytes. destruct (req_value r); [apply zlen_nonneg|done]. Qed.

Lemma logged_bytes_app l1 l2 : logged_bytes (l1 ++ l2) = logged_bytes l1 + logged_bytes l2.
Proof. unfold logged_bytes. induction l1 as [|x l1 IH]; simpl; [done|]. rewrite IH. lia. Qed.

Lemma logged_bytes_nonneg l : 0 <= logged_bytes l.
Proof.
  unfold logged_bytes. induction l as [|x l IH]; simpl; [done|]. pose proof (set_bytes_nonneg x.1.1). lia.
Qed.

(** A processed request and its promise against a request of the specification
    and its answer. *)
Definition answers (x : Request * (Z * Z) * option ValueEntry) (qa : request * response) : Prop :=
  as_request x.1.1 x.1.2 = Some qa.1 ∧ promised qa.2 = x.2.

Record served (limit : Z) (s : ShardedEngine) : Prop := {
  served_ok : shards_ok (Router0 := fnv_router (num_shards_ s)) limit (shards_ s);
  served_run : ∃ tr, Forall2 answers (log s) tr
    ∧ sharded_run (Router0 := fnv_router (num_shards_ s)) limit ∅ tr (shards_map (shards_ s));
  served_bytes i t : shards_ s !! i = Some t → total (contents t) <= logged_bytes (log s);
}.

Lemma spec_step_bytes limit m r now q a m' :
  as_request r now = Some q → spec_step limit m q a m' → total m' <= total m + set_bytes r.
Proof.
  intros Hq Hs. pose proof (set_bytes_nonneg r). destruct Hs as [k n1 n2 v Hk| | |k v m' (Hsub & _)|k].
  - rewrite total_insert, (total_delete m k v Hk). simpl. lia.
  - lia.
  - lia.
  - assert (set_bytes r = zlen (value v)) as ->.
    { unfold as_request, set_bytes in *. destruct (req_type r), (req_value r); by simplify_eq. }
    rewrite total_insert. pose proof (total_delete_le m' k). pose proof (total_mono _ _ Hsub). lia.
  - pose proof (total_delete_le m k). lia.
Qed.

Lemma as_request_admissible r now q (t : HashTable (TablePolicy H)) :
  as_request r now = Some q → total (contents t) + set_bytes r < 2 ^ 64 → admissible q t.
Proof.
  unfold as_request, set_bytes. intros Hq Hb. destruct (req_type r), (req_value r); by simplify_eq.
Qed.

(** Only processing touches the tables and the log. *)
Lemma exec_quiet ev s s' :
  exec ev s = Some s' →
  (log s' = log s ∧ shards_ s' = shards_ s)
  ∨ ∃ i r now, worker s i = Busy r ∧ finish i r now s = Some s'.
Proof.
  destruct ev as [| | | | | |i now]; simpl.
  1-6: unfold start, stop, call_get, call_set, call_remove, enqueue, notify;
    intros E; left; repeat case_match; by simplify_eq.
  unfold worker_step. intros E. destruct (worker s i) eqn:Hw; try (left; by simplify_eq).
  - left. destruct (queue s i); by simplify_eq.
  - right. eauto.
Qed.

Lemma finish_served limit i r now s s' :
  0 <= limit → inv s → worker s i = Busy r → finish i r now s = Some s' →
  logged_bytes (log s') < 2 ^ 64 → served limit s → served limit s'.
Proof.
  intros Hl Hinv Hb Hf Hbytes [Hok (tr & Htr & Hrun) Htot].
  destruct (in_hand_fresh i r s Hinv Hb) as (_ & Hri & _).
  unfold finish in Hf. destruct (shards_ s !! i) as [t|] eqn:Ht; [|done]. simpl in Hf.
  rewrite process_request_serve in Hf.
  destruct (as_request r now) as [q|] eqn:Hq; [|done]. simpl in Hf.
  destruct (serve q t) as [a t'] eqn:Hsv. injection Hf as <-. simpl in *.
  rewrite logged_bytes_app in Hbytes. unfold logged_bytes at 2 in Hbytes. simpl in Hbytes.
  pose proof (Htot i t Ht) as Hti. pose proof (as_request_key r now q Hq) as Hk.
  assert (admissible q t) as Hadm by (eapply as_request_admissible; [done|lia]).
  assert (i = route (Router := fnv_router (num_shards_ s)) (request_key q)) as Hroute by (by rewrite Hk).
  destruct (serve_shard_refines (Router0 := fnv_router (num_shards_ s)) limit q a (shards_ s) t t')
    as [Hok' Hstep]; [done|done|by rewrite <- Hroute|done|done|].
  rewrite <- Hroute in Hok', Hstep.
  destruct Hok as (_ & Hg & _). eapply Forall_lookup_1 in Hg; [|done].
  destruct (serve_refines limit q a t t' Hl Hg Hadm Hsv) as [_ Hspec].
  split; simpl; [done| |].
  - exists (tr ++ [(q, a)]). split; [apply Forall2_app; [done|by repeat constructor]|].
    by eapply sharded_run_snoc.
  - intros j u. rewrite logged_bytes_app. unfold logged_bytes at 2. simpl.
    pose proof (set_bytes_nonneg r). rewrite list_lookup_insert_Some. intros [(<- & <- & _)|[_ Hj]].
    + pose proof (spec_step_bytes limit _ r now q a _ Hq Hspec). lia.
    + specialize (Htot j u Hj). lia.
Qed.

Lemma exec_served limit ev s s' :
  0 <= limit → inv s → exec ev s = Some s' →
  logged_bytes (log s') < 2 ^ 64 → served limit s → served limit s'.
Proof.
  intros Hl Hinv He Hb Hs. pose proof (exec_num_shards _ _ _ He) as En.
  destruct (exec_quiet _ _ _ He) as [[El Es]|(i & r & now & Hw & Hf)]; [|by eapply finish_served].
  destruct Hs as [Hok Hrun Htot]. split; rewrite ?En, ?El, ?Es; done.
Qed.

Lemma exec_log_bytes ev s s' : exec ev s = Some s' → logged_bytes (log s) <= logged_bytes (log s').
Proof.
  intros [[-> _]|(i & r & now & _ & Hf)]%exec_quiet; [done|]. unfold finish in Hf.
  destruct (shards_ s !! i); [|done]. simpl in Hf. destruct (process_request _ _ _) as [[v t']|]; [|done].
  injection Hf as <-. simpl. rewrite logged_bytes_app. pose proof (logged_bytes_nonneg [(r, now, v)]). lia.
Qed.

Lemma reachable_served limit s s' :
  0 <= limit → inv s → (0 < num_shards_ s)%nat → rtc step s s' →
  logged_bytes (log s') < 2 ^ 64 → served limit s → served limit s'.
Proof.
  intros Hl Hinv Hn Hs. induction Hs as [s|s s1 s' [ev He] Hs IH]; [done|]. intros Hb Hsv.
  assert (logged_bytes (log s1) <= logged_bytes (log s')) as Hle.
  { clear -Hs. induction Hs as [|s1 s2 s3 [ev ?%exec_log_bytes] _ IH]; [done|lia]. }
  pose proof (exec_num_shards _ _ _ He) as En.
  apply IH; [by eapply exec_inv|lia|done|]. eapply exec_served; eauto. lia.
Qed.

Lemma make_served n limit kind d s : make_sharded n limit kind d = Some s → served limit s.
Proof.
  unfold make_sharded. destruct (Sync.make_shards _ _ _ _) as [ts|] eqn:Hts; [|done]. intros [= <-].
  destruct (Sync.make_shards_ok n (fnv_router n) limit kind d ts Hts) as [Hok Hempty].
  split; simpl; [done| |].
  - exists []. split; [constructor|]. rewrite Hempty. constructor.
  - intros i t Ht. rewrite <- (shards_part (Router0 := fnv_router n) ts i t); [|by apply Hok|done].
    rewrite Hempty. unfold part. by rewrite map_filter_empty.
Qed.

Lemma make_num_shards n limit kind d s : make_sharded n limit kind d = Some s → num_shards_ s = n.
Proof. unfold make_sharded. destruct (Sync.make_shards _ _ _ _); [|done]. by intros [= <-]. Qed.

(** C5: the engine with worker threads is one map. In every state an
    interleaving of clients, workers, [start] and [stop] leads to, the requests
    processed so far, in the order of their processing, are a run of the sharded
    specification that ends in the map the tables hold, and every promise has
    the value of its answer in that run. The requests for a shard are processed
    in the order in which they were submitted, each once. *)
Theorem sharded_engine_is_one_map n limit kind d s0 s :
  (0 < n)%nat → 0 <= limit → make_sharded n limit kind d = Some s0 → rtc step s0 s →
  logged_bytes (log s) < 2 ^ 64 →
  (∃ tr, Forall2 answers (log s) tr
    ∧ sharded_run (Router0 := fnv_router n) limit ∅ tr (shards_map (shards_ s)))
  ∧ (∀ r now v, (r, now, v) ∈ log s → promises s !! promise r = Some v)
  ∧ ∀ i, for_shard n i (logged s) ++ in_hand (worker s i) ++ queue s i = for_shard n i (submitted s).
Proof.
  intros Hn Hl Hmk Hs Hb. pose proof (make_num_shards _ _ _ _ _ Hmk) as En.
  pose proof (sharded_make_inv _ _ _ _ _ Hmk) as Hinv0.
  destruct (sharded_reachable_inv s0 s Hinv0) as [Hinv En']; [by rewrite En|done|].
  destruct (reachable_served limit s0 s Hl Hinv0) as [_ Hrun _];
    [by rewrite En|done|done|by eapply make_served|].
  rewrite En', En in Hrun. split_and!; [done|apply Hinv|].
  intros i. pose proof (inv_order s Hinv i) as Ho. by rewrite En', En in Ho.
Qed.

(** ** Every request to a running engine is answered *)

(** The steps of a worker until it holds the mutex with a request waiting. *)
Definition to_lock (w : Worker) : nat :=
  match w with Locked | Exited => 0 | Top | Asleep => 1 | Busy _ | Presleep => 2 end.

(** A request is answered after at most this many steps of its worker. *)
Inductive waits (i : nat) (r : Request) (s : ShardedEngine) (k : nat) : Prop :=
| waits_in_hand : worker s i = Busy r → k = 1%nat → waits i r s k
| waits_queued q1 q2 :
    queue s i = q1 ++ r :: q2 → k = (to_lock (worker s i) + 3 * length q1 + 2)%nat → waits i r s k.

Definition answered (r : Request) (s : ShardedEngine) : Prop := is_Some (promises s !! promise r).

Definition own_step (i : nat) (ev : event) : nat :=
  match ev with EWorker j _ => if decide (i = j) then 1 else 0 | _ => 0 end.

Definition own_steps (i : nat) (evs : list event) : nat := sum_list (own_step i <$> evs).

Lemma waits_same i r s s' k :
  worker s' i = worker s i → queue s' i = queue s i → waits i r s k → waits i r s' k.
Proof.
  intros Hw Hq [Hb ?|q1 q2 Hk ?]; [by apply waits_in_hand; rewrite ?Hw|].
  apply (waits_queued _ _ _ _ q1 q2); by rewrite ?Hw, ?Hq.
Qed.

Lemma finish_frame i r now s s' :
  finish i r now s = Some s' →
  workers s' = <[i := Top]> (workers s) ∧ request_queues_ s' = request_queues_ s ∧ answered r s'
  ∧ running_ s' = running_ s ∧ ∀ r', answered r' s → answered r' s'.
Proof.
  unfold finish, answered. destruct (shards_ s !! i); [|done]. simpl.
  destruct (process_request _ _ _) as [[v t']|]; [|done]. intros [= <-]. simpl.
  split_and!; [done|done|by rewrite lookup_insert_eq|done|].
  intros r'. rewrite lookup_insert. by case_decide.
Qed.

Lemma enqueue_waits r' i r s s' k :
  inv s → (0 < num_shards_ s)%nat → waits i r s k → enqueue r' s = Some s' → waits i r s' k.
Proof.
  intros Hinv Hn Hw He. unfold enqueue in He.
  set (j := get_shard_id (num_shards_ s) (req_key r')) in *.
  assert (j < num_shards_ s)%nat as Hj by (by apply (route_lt (Router := fnv_router (num_shards_ s)))).
  destruct (holds_lock (worker s j)); [done|]. injection He as <-.
  pose proof (queue_set j (queue s j ++ [r']) i s (inv_queues s Hinv) Hj) as Hq.
  destruct Hw as [Hb ?|q1 q2 Hq12 ?]; [by apply waits_in_hand|].
  apply (waits_queued _ _ _ _ q1 (if decide (j = i) then q2 ++ [r'] else q2)); [|done].
  etrans; [exact Hq|]. destruct (decide (j = i)) as [->|]; [|done].
  by rewrite Hq12, <- app_assoc.
Qed.

Lemma notify_waits j i r s s' k :
  inv s → waits i r s k → notify j s = Some s' → ∃ k', waits i r s' k' ∧ (k' <= k)%nat.
Proof.
  intros Hinv Hw Hn. unfold notify in Hn. destruct (take_out _ _); [|done]. injection Hn as <-.
  case_decide as Ha; [|exists k; split; [by apply (waits_same i r s)|lia]].
  assert (j < num_shards_ s)%nat as Hj by (apply worker_lt; [apply Hinv|by rewrite Ha]).
  pose proof (worker_set j Locked i s (inv_workers s Hinv) Hj) as Hset.
  destruct (decide (j = i)) as [->|Hne]; [|exists k; split; [by apply (waits_same i r s)|lia]].
  destruct Hw as [Hb _|q1 q2 Hq ->]; [congruence|]. rewrite Ha.
  eexists. split; [by apply (waits_queued _ _ _ _ q1 q2)|].
  change (worker _ i) with (worker (set_worker i Locked s) i). rewrite Hset. simpl. lia.
Qed.

(** A step of the worker of the request brings the answer nearer. *)
Lemma worker_waits i now r s s' k :
  inv s → running_ s = true → waits i r s k → worker_step i now s = Some s' →
  answered r s' ∨ ∃ k', waits i r s' k' ∧ (k' < k)%nat.
Proof.
  intros Hinv Hrun Hwt Hs. pose proof (inv_workers s Hinv) as Hl. unfold worker_step in Hs.
  destruct Hwt as [Hb ->|q1 q2 Hq ->].
  { rewrite Hb in Hs. left. by apply finish_frame in Hs as (_ & _ & ? & _). }
  assert (worker s i ≠ Exited → i < num_shards_ s)%nat as Hi by (by apply worker_lt).
  right. destruct (worker s i) as [| | | |r'|] eqn:Hw; try done.
  - injection Hs as <-. rewrite Hrun. eexists. split; [by apply (waits_queued _ _ _ _ q1 q2)|].
    rewrite worker_set, decide_True by auto. simpl. lia.
  - rewrite Hq in Hs. destruct q1 as [|x q1]; simpl in Hs; injection Hs as <-.
    + exists 1%nat. split; [|simpl; lia]. apply waits_in_hand; [|done].
      by rewrite worker_set, decide_True by auto.
    + eexists. split; [apply (waits_queued _ _ _ _ q1 q2); [|done]|].
      * etrans; [apply (queue_set i (q1 ++ r :: q2) i s); [apply Hinv|auto]|]. by rewrite decide_True.
      * rewrite worker_set, decide_True by auto. simpl. lia.
  - rewrite (inv_presleep s Hinv i Hw) in Hq. by destruct q1.
  - destruct (finish_frame _ _ _ _ _ Hs) as (Hws & Hqs & _).
    eexists. split; [apply (waits_queued _ _ _ _ q1 q2); [by unfold queue; rewrite Hqs|done]|].
    unfold worker. rewrite Hws, list_lookup_insert_eq by (rewrite Hl; auto). simpl. lia.
Qed.

(** The step of another worker leaves it alone. *)
Lemma worker_other i j now s s' :
  j ≠ i → worker_step j now s = Some s' → worker s' i = worker s i ∧ queue s' i = queue s i.
Proof.
  intros Hne Hs. unfold worker_step in Hs. unfold worker at 1, queue at 1.
  destruct (worker s j) eqn:Hw; try done.
  - injection Hs as <-. simpl. by rewrite list_lookup_insert_ne.
  - destruct (queue s j); injection Hs as <-; simpl; by rewrite !list_lookup_insert_ne.
  - injection Hs as <-. simpl. by rewrite list_lookup_insert_ne.
  - destruct (finish_frame _ _ _ _ _ Hs) as (-> & -> & _). by rewrite list_lookup_insert_ne.
Qed.

Lemma exec_waits ev i r s s' k :
  inv s → (0 < num_shards_ s)%nat → running_ s = true → ev ≠ EStop →
  waits i r s k → exec ev s = Some s' →
  answered r s' ∨ ∃ k', waits i r s' k' ∧ (k' + own_step i ev <= k)%nat.
Proof.
  intros Hinv Hn Hrun Hev Hw He. destruct ev as [| |key|key v|key|j|j now]; simpl in *; try done.
  - unfold start in He. rewrite Hrun in He. injection He as <-. right. exists k. split; [done|lia].
  - right. exists k. split; [by eapply enqueue_waits|lia].
  - right. exists k. split; [by eapply enqueue_waits|lia].
  - right. exists k. split; [by eapply enqueue_waits|lia].
  - destruct (notify_waits j i r s s' k) as (k' & ? & ?); [done..|]. right. exists k'. split; [done|lia].
  - case_decide as Hij.
    + subst j. destruct (worker_waits i now r s s' k) as [?|(k' & ? & ?)]; [done..|by left|].
      right. exists k'. split; [done|lia].
    + destruct (worker_other i j now s s') as [Hw' Hq']; [done|done|].
      right. exists k. split; [by apply (waits_same i r s)|lia].
Qed.

Lemma exec_keeps ev r s s' : exec ev s = Some s' → answered r s → answered r s'.
Proof.
  intros He Ha. destruct ev as [| |key|key v|key|j|j now]; simpl in He;
    unfold start, stop, call_get, call_set, call_remove, enqueue, notify, worker_step in He.
  1-6: repeat case_match; by simplify_eq.
  destruct (worker s j); try done; [by simplify_eq|by case_match; simplify_eq|by simplify_eq|].
  apply finish_frame in He as (_ & _ & _ & _ & Hkeep). by apply Hkeep.
Qed.

Lemma worker_running j now s s' : worker_step j now s = Some s' → running_ s' = running_ s.
Proof.
  unfold worker_step. intros He.
  destruct (worker s j); try done; [by simplify_eq|by destruct (queue s j); simplify_eq|by simplify_eq|].
  by apply finish_frame in He as (_ & _ & _ & -> & _).
Qed.

Lemma exec_running ev s s' : running_ s = true → ev ≠ EStop → exec ev s = Some s' → running_ s' = true.
Proof.
  intros Hr Hev He. destruct ev as [| |key|key v|key|j|j now]; simpl in He;
    unfold start, call_get, call_set, call_remove, enqueue, notify in He; try done.
  1-5: repeat case_match; by simplify_eq.
  by rewrite (worker_running j now s s').
Qed.

Lemma exec_all_answers evs i r s s' k :
  inv s → (0 < num_shards_ s)%nat → running_ s = true → EStop ∉ evs →
  answered r s ∨ waits i r s k → exec_all evs s = Some s' → (k <= own_steps i evs)%nat → answered r s'.
Proof.
  revert s k. induction evs as [|ev evs IH]; intros s k Hinv Hn Hrun Hev Hw He Hk; simpl in *.
  { injection He as <-. destruct Hw as [?|[Hb ->|q1 q2 Hq ->]]; [done| |]; unfold own_steps in Hk; simpl in Hk; lia. }
  apply not_elem_of_cons in Hev as [Hev Hevs]. destruct (exec ev s) as [s1|] eqn:He1; [|done]. simpl in He.
  pose proof (exec_num_shards _ _ _ He1) as En.
  assert (inv s1) by (by eapply exec_inv). assert (running_ s1 = true) by (by eapply exec_running).
  assert (own_steps i (ev :: evs) = own_step i ev + own_steps i evs)%nat as Hsum by done.
  destruct Hw as [Ha|Hw].
  { eapply (IH s1 0%nat); [done|lia|done|done|left; by eapply exec_keeps|done|lia]. }
  destruct (exec_waits ev i r s s1 k) as [Ha|(k' & Hw' & Hk')]; [by auto..| |].
  - eapply (IH s1 0%nat); [done|lia|done|done|by left|done|lia].
  - eapply (IH s1 k'); [done|lia|done|done|by right|done|lia].
Qed.

(** Where a submitted request is. *)
Lemma submitted_cases r s :
  inv s → r ∈ submitted s →
  answered r s
  ∨ ∃ k, waits (get_shard_id (num_shards_ s) (req_key r)) r s k
         ∧ (k <= 3 * length (queue s (get_shard_id (num_shards_ s) (req_key r))) + 1)%nat.
Proof.
  intros Hinv Hr. set (i := get_shard_id (num_shards_ s) (req_key r)).
  assert (r ∈ for_shard (num_shards_ s) i (submitted s)) as Hin by (by apply list_elem_of_filter).
  rewrite <- (inv_order s Hinv i) in Hin. apply elem_of_app in Hin as [Hlog|[Hhand|Hq]%elem_of_app].
  - left. apply list_elem_of_filter in Hlog as [_ Hlog].
    apply list_elem_of_fmap in Hlog as ([[r' now] v] & -> & Hlog). exists v. by eapply inv_kept.
  - right. exists 1%nat. split; [|lia]. apply waits_in_hand; [|done].
    destruct (worker s i); simpl in Hhand; try by apply not_elem_of_nil in Hhand.
    by apply list_elem_of_singleton in Hhand as ->.
  - right. apply list_elem_of_split in Hq as (q1 & q2 & Hq).
    eexists. split; [by apply (waits_queued _ _ _ _ q1 q2)|].
    rewrite Hq, length_app. simpl. assert (to_lock (worker s i) <= 2)%nat by (by destruct (worker s i); simpl; lia).
    lia.
Qed.

Lemma busy_enabled i r now s : inv s → worker s i = Busy r → is_Some (finish i r now s).
Proof.
  intros Hinv Hb. destruct (in_hand_fresh i r s Hinv Hb) as (Hr & _ & _).
  assert (i < num_shards_ s)%nat as Hi by (apply worker_lt; [apply Hinv|by rewrite Hb]).
  unfold finish. destruct (lookup_lt_is_Some_2 (shards_ s) i) as [t ->]; [by rewrite (inv_shards s Hinv)|].
  simpl. rewrite process_request_serve. pose proof (inv_wf s Hinv) as Hwf.
  rewrite Forall_forall in Hwf. destruct (well_formed_request r now (Hwf r Hr)) as [q ->]. simpl.
  destruct (serve q t). by eexists.
Qed.

Lemma waits_enabled i r s k :
  inv s → running_ s = true → (i < num_shards_ s)%nat → waits i r s k →
  (∀ now, is_Some (worker_step i now s)) ∨ ∃ s', notify i s = Some s' ∧ worker s' i = Locked.
Proof.
  intros Hinv Hrun Hi Hw. destruct (decide (worker s i = Asleep)) as [Ha|Ha].
  - right. destruct Hw as [Hb _|q1 q2 Hq _]; [congruence|].
    destruct (inv_asleep s Hinv i Ha) as [Hq'|Hn]; [rewrite Hq' in Hq; by destruct q1|].
    apply take_out_Some in Hn as [rest Ht]. unfold notify. rewrite Ht, decide_True by done.
    eexists. split; [done|]. etrans; [apply (worker_set i Locked i s (inv_workers s Hinv) Hi)|].
    by rewrite decide_True.
  - left. intros now. unfold worker_step. pose proof (inv_alive s Hinv i Hrun Hi).
    destruct (worker s i) eqn:Hwk; try done; [by destruct (queue s i); eexists|].
    by apply busy_enabled.
Qed.

(** C11: no request to a running engine is forgotten. In every state reached
    before [stop], for every submitted request: if it is not answered yet, then
    its worker can go on, or sleeps and a notification that wakes it is under
    way; and however clients and other workers interleave, it is answered by the
    time its worker has made three steps for each request queued, and one. *)
Theorem sharded_request_answered n limit kind d s0 s r :
  (0 < n)%nat → make_sharded n limit kind d = Some s0 → rtc step s0 s →
  running_ s = true → r ∈ submitted s →
  let i := get_shard_id n (req_key r) in
  (answered r s ∨ (∀ now, is_Some (worker_step i now s))
   ∨ ∃ s', notify i s = Some s' ∧ worker s' i = Locked)
  ∧ ∀ evs s', EStop ∉ evs → exec_all evs s = Some s' →
      (3 * length (queue s i) + 1 <= own_steps i evs)%nat → answered r s'.
Proof.
  intros Hn Hmk Hs Hrun Hr i. pose proof (make_num_shards _ _ _ _ _ Hmk) as En.
  destruct (sharded_reachable_inv s0 s) as [Hinv En']; [by eapply sharded_make_inv|lia|done|]. rewrite En in En'.
  assert (i < n)%nat as Hi by (by apply (route_lt (Router := fnv_router n))).
  pose proof (submitted_cases r s Hinv Hr) as Hcases. rewrite En' in Hcases. fold i in Hcases. split.
  - destruct Hcases as [?|(k & Hw & _)]; [by left|right].
    by apply (waits_enabled i r s k); [| |rewrite En'|].
  - intros evs s' Hev He Hk. destruct Hcases as [Ha|(k & Hw & Hle)].
    + apply (exec_all_answers evs i r s s' 0); [done|lia|done|done|by left|done|lia].
    + apply (exec_all_answers evs i r s s' k); [done|lia|done|done|by right|done|lia].
Qed.

(** ** Stopping *)

Lemma unanswered i r s : inv s → r ∈ queue s i → ¬ answered r s.
Proof.
  intros Hinv Hq Ha. destruct (pending_fresh i r s Hinv) as (_ & _ & Hf); [set_solver|].
  apply (inv_only s Hinv) in Ha. apply list_elem_of_fmap in Ha as (r' & Heq & Hr'). by apply (Hf r').
Qed.

(** A worker that leaves its loop before it looks at its queue again. *)
Definition leaving (i : nat) (r : Request) (s : ShardedEngine) : Prop :=
  running_ s = false ∧ r ∈ queue s i
  ∧ match worker s i with Busy _ | Top | Exited => True | _ => False end.

Lemma enqueue_leaving i r r' s s' : inv s → enqueue r' s = Some s' → leaving i r s → leaving i r s'.
Proof.
  intros Hinv He (Hrun & Hq & Hw). unfold enqueue in He.
  set (j := get_shard_id (num_shards_ s) (req_key r')) in *.
  destruct (holds_lock (worker s j)); [done|]. injection He as <-. split_and!; [done| |done].
  unfold queue at 1. simpl. destruct (decide (j = i)) as [->|Hne].
  - destruct (decide (i < length (request_queues_ s))%nat).
    + rewrite list_lookup_insert_eq by done. simpl. set_solver.
    + rewrite list_insert_ge by lia. done.
  - by rewrite list_lookup_insert_ne.
Qed.

Lemma exec_leaving ev i r s s' :
  inv s → ev ≠ EStart → exec ev s = Some s' → leaving i r s → leaving i r s'.
Proof.
  intros Hinv Hev He Hl. destruct ev as [| |key|key v|key|j|j now]; simpl in He; try done.
  - injection He as <-. unfold stop. by rewrite (proj1 Hl).
  - by eapply enqueue_leaving.
  - by eapply enqueue_leaving.
  - by eapply enqueue_leaving.
  - destruct Hl as (Hrun & Hq & Hw). unfold notify in He. destruct (take_out _ _); [|done].
    injection He as <-. split_and!; [done|done|]. case_decide as Ha; [|done].
    destruct (decide (j = i)) as [->|Hne]; [by rewrite Ha in Hw|].
    unfold worker. simpl. by rewrite list_lookup_insert_ne.
  - destruct (decide (j = i)) as [->|Hne].
    + destruct Hl as (Hrun & Hq & Hw). pose proof (inv_workers s Hinv) as Hlen. unfold worker_step in He.
      assert (worker s i ≠ Exited → i < num_shards_ s)%nat as Hi by (by apply worker_lt).
      destruct (worker s i) eqn:Hwk; try done.
      * injection He as <-. split_and!; [done|done|]. rewrite worker_set, decide_True, Hrun by auto. done.
      * destruct (finish_frame _ _ _ _ _ He) as (Hws & Hqs & _ & Hr' & _).
        split_and!; [congruence|unfold queue; by rewrite Hqs|].
        unfold worker. rewrite Hws, list_lookup_insert_eq by (rewrite Hlen; auto). done.
    + destruct (worker_other i j now s s') as [Hw' Hq']; [done|done|].
      destruct Hl as (Hrun & Hq & Hw). unfold leaving. rewrite Hw', Hq'. split_and!; [|done|done].
      by rewrite (worker_running j now s s').
Qed.

Lemma exec_all_leaving evs i r s s' :
  inv s → (0 < num_shards_ s)%nat → EStart ∉ evs → exec_all evs s = Some s' → leaving i r s →
  inv s' ∧ leaving i r s'.
Proof.
  revert s. induction evs as [|ev evs IH]; intros s Hinv Hn Hev He Hl; simpl in He; [by injection He as <-|].
  apply not_elem_of_cons in Hev as [Hev Hevs]. destruct (exec ev s) as [s1|] eqn:He1; [|done]. simpl in He.
  pose proof (exec_num_shards _ _ _ He1). apply (IH s1); [by eapply exec_inv|lia|done|done|].
  by eapply exec_leaving.
Qed.

(** Stopping abandons requests. Whatever is queued behind a request that is
    being processed when [stop] is called is never answered, whatever happens
    afterwards, unless the engine is started again: the worker finds the flag
    cleared and leaves its loop without looking at the queue. *)
Theorem sharded_stop_abandons_queue n limit kind d s0 s i r r' :
  (0 < n)%nat → make_sharded n limit kind d = Some s0 → rtc step s0 s →
  worker s i = Busy r' → r ∈ queue s i →
  ∀ evs s', EStart ∉ evs → exec_all evs (stop s) = Some s' → r ∈ queue s' i ∧ ¬ answered r s'.
Proof.
  intros Hn Hmk Hs Hb Hq evs s' Hev He. pose proof (make_num_shards _ _ _ _ _ Hmk) as En.
  destruct (sharded_reachable_inv s0 s) as [Hinv En']; [by eapply sharded_make_inv|lia|done|].
  destruct (exec_all_leaving evs i r (stop s) s') as [Hinv' (_ & Hq' & _)]; [by apply stop_inv| |done|done| |].
  - assert (num_shards_ (stop s) = num_shards_ s) as -> by (unfold stop; by destruct (running_ s)). lia.
  - assert (running_ (stop s) = false ∧ queue (stop s) i = queue s i ∧ worker (stop s) i = worker s i)
      as (Hrun & Hq' & Hw') by (unfold stop; by destruct (running_ s) eqn:?).
    unfold leaving. by rewrite Hq', Hw', Hb.
  - split; [done|]. by eapply unanswered.
Qed.

(** All notifications under way can be made while a worker is about to sleep. *)
Lemma deliver_all i s :
  inv s → worker s i = Presleep →
  ∃ s', rtc step s s' ∧ inv s' ∧ notifying s' = [] ∧ worker s' i = Presleep ∧ running_ s' = running_ s.
Proof.
  remember (notifying s) as l eqn:Hl. revert s Hl. induction l as [|j l IH]; intros s Hl Hinv Hw; [by exists s|].
  set (s1 := mkSharded (num_shards_ s) (shards_ s) (request_queues_ s)
    (if decide (worker s j = Asleep) then <[j := Locked]> (workers s) else workers s)
    (running_ s) l (promises s) (submitted s) (log s)).
  assert (notify j s = Some s1) as Hn.
  { unfold notify. rewrite <- Hl. simpl. by rewrite decide_True. }
  assert (worker s1 i = Presleep) as Hw1.
  { unfold worker, s1. simpl. case_decide as Ha; [|done].
    destruct (decide (j = i)) as [->|]; [congruence|]. by rewrite list_lookup_insert_ne. }
  destruct (IH s1) as (s' & Hs & Hrest); [done|by eapply notify_inv|done|].
  exists s'. split; [|done]. eapply rtc_l; [|exact Hs]. by exists (ENotify j).
Qed.

(** What happens without clients and without a new start. *)
Definition internal (ev : event) : Prop :=
  match ev with EStop | ENotify _ | EWorker _ _ => True | _ => False end.

Lemma exec_asleep ev i s s' :
  internal ev → exec ev s = Some s' →
  running_ s = false ∧ notifying s = [] ∧ worker s i = Asleep →
  running_ s' = false ∧ notifying s' = [] ∧ worker s' i = Asleep.
Proof.
  intros Hint He (Hrun & Hn & Hw). destruct ev as [| |key|key v|key|j|j now]; simpl in He; try done.
  - injection He as <-. unfold stop. by rewrite Hrun.
  - unfold notify in He. by rewrite Hn in He.
  - destruct (decide (j = i)) as [->|Hne]; [unfold worker_step in He; by rewrite Hw in He|].
    destruct (worker_other i j now s s') as [-> _]; [done|done|].
    rewrite (worker_running j now s s') by done. split_and!; [done| |done].
    unfold worker_step in He. destruct (worker s j); try by simplify_eq.
    + destruct (queue s j); by simplify_eq.
    + unfold finish in He. destruct (shards_ s !! j); [|done]. simpl in He.
      destruct (process_request _ _ _) as [[v t']|]; [|done]. by injection He as <-.
Qed.

Lemma asleep_not_joined i s : worker s i = Asleep → joined s = false.
Proof.
  intros Hw. unfold worker in Hw. destruct (workers s !! i) as [w|] eqn:E; [|done]. simpl in Hw. subst w.
  apply not_true_iff_false. unfold joined. rewrite forallb_forall. intros Hall.
  discriminate (Hall Asleep). by eapply list_elem_of_In, list_elem_of_lookup_2.
Qed.

(** C40: [stop] can hang. When it is called while a worker has seen its
    predicate false but is not asleep yet, the notification can come before the
    worker sleeps; then, without further client calls, it never wakes up and
    the joins of [stop] never return. *)
Theorem sharded_stop_may_hang n limit kind d s0 s i :
  (0 < n)%nat → make_sharded n limit kind d = Some s0 → rtc step s0 s →
  running_ s = true → worker s i = Presleep →
  ∃ s', rtc step (stop s) s'
    ∧ ∀ evs s'', Forall internal evs → exec_all evs s' = Some s'' → joined s'' = false.
Proof.
  intros Hn Hmk Hs Hrun Hw. pose proof (make_num_shards _ _ _ _ _ Hmk) as En.
  destruct (sharded_reachable_inv s0 s) as [Hinv _]; [by eapply sharded_make_inv|lia|done|].
  assert (worker (stop s) i = Presleep ∧ running_ (stop s) = false) as [Hw1 Hrun1]
    by (unfold stop; by rewrite Hrun).
  destruct (deliver_all i (stop s)) as (s1 & Hs1 & Hinv1 & Hn1 & Hw' & Hrun'); [by apply stop_inv|done|].
  exists (set_worker i Asleep s1). split.
  { eapply rtc_r; [exact Hs1|]. exists (EWorker i (0, 0)). simpl. unfold worker_step. by rewrite Hw'. }
  assert (worker (set_worker i Asleep s1) i = Asleep) as Ha.
  { rewrite worker_set, decide_True; [done|done|apply Hinv1|apply worker_lt; [apply Hinv1|by rewrite Hw']]. }
  assert (∀ evs u u', Forall internal evs → exec_all evs u = Some u' →
    running_ u = false ∧ notifying u = [] ∧ worker u i = Asleep → worker u' i = Asleep) as Hforever.
  { induction evs as [|ev evs IH]; intros u u' Hint He Hu; simpl in He; [injection He as <-; tauto|].
    apply Forall_cons in Hint as [Hint Hints]. destruct (exec ev u) as [u1|] eqn:He1; [|done].
    apply (IH u1 u' Hints He). by eapply exec_asleep. }
  intros evs s'' Hint He. apply (asleep_not_joined i). apply (Hforever evs _ _ Hint He).
  split_and!; [by rewrite <- Hrun1|done|done].
Qed.
End facts.

(** ** Witnesses *)

Definition demo_sharded : ShardedEngine :=
  default (mkSharded 0 [] [] [] false [] ∅ [] [])
    (make_sharded (H := LFU.SortedQueue) 2 100 KindLRU empty_disk).

Definition demo_exec (evs : list event) : ShardedEngine := default demo_sharded (exec_all evs demo_sharded).

Lemma demo_made : make_sharded (H := LFU.SortedQueue) 2 100 KindLRU empty_disk = Some demo_sharded.
Proof. by vm_compute. Qed.

Lemma exec_all_rtc {H} `{!LFU.PriorityQueue H} evs (s s' : ShardedEngine (H := H)) :
  exec_all evs s = Some s' → rtc step s s'.
Proof.
  revert s. induction evs as [|ev evs IH]; intros s; simpl; [by intros [= <-]|].
  destruct (exec ev s) as [s1|] eqn:E; [|done]. intros Hs. eapply rtc_l; [by exists ev|by apply IH].
Qed.

(** Two requests for the key, the first of which is in the hands of its worker. *)
Definition demo_shard : nat := get_shard_id 2 (str "k").

Definition demo_busy : list event :=
  [EStart; ESet (str "k") (new_entry (str "v") 0); EGet (str "k"); ENotify demo_shard;
   EWorker demo_shard (0, 0); EWorker demo_shard (0, 0)].

Definition demo_done : list event :=
  demo_busy ++ replicate 4 (EWorker demo_shard (7, 8)).

Definition demo_get : Request := mkRequest GET (str "k") None 1.

Lemma sharded_engine_is_one_map_witness :
  (∃ tr, Forall2 answers (log (demo_exec demo_done)) tr
    ∧ sharded_run (Router0 := fnv_router 2) 100 ∅ tr (shards_map (shards_ (demo_exec demo_done))))
  ∧ (∀ r now v, (r, now, v) ∈ log (demo_exec demo_done) →
       promises (demo_exec demo_done) !! promise r = Some v)
  ∧ ∀ i, for_shard 2 i (logged (demo_exec demo_done))
         ++ in_hand (worker (demo_exec demo_done) i) ++ queue (demo_exec demo_done) i
         = for_shard 2 i (submitted (demo_exec demo_done)).
Proof.
  apply (sharded_engine_is_one_map 2 100 KindLRU empty_disk demo_sharded); [lia|lia|apply demo_made| |by vm_compute].
  apply (exec_all_rtc demo_done). by vm_compute.
Defined.

Lemma sharded_request_answered_witness :
  (answered demo_get (demo_exec demo_busy)
   ∨ (∀ now, is_Some (worker_step demo_shard now (demo_exec demo_busy)))
   ∨ ∃ s', notify demo_shard (demo_exec demo_busy) = Some s' ∧ worker s' demo_shard = Locked)
  ∧ ∀ evs s', EStop ∉ evs → exec_all evs (demo_exec demo_busy) = Some s' →
      (3 * length (queue (demo_exec demo_busy) demo_shard) + 1 <= own_steps demo_shard evs)%nat →
      answered demo_get s'.
Proof.
  apply (sharded_request_answered 2 100 KindLRU empty_disk demo_sharded (demo_exec demo_busy) demo_get);
    [lia|apply demo_made|apply (exec_all_rtc demo_busy); by vm_compute|by vm_compute|].
  apply (list_elem_of_lookup_2 _ 1). by vm_compute.
Defined.

(** The worker finishes its request, finds the flag cleared and exits. *)
Definition demo_exit : list event := replicate 2 (EWorker demo_shard (7, 8)).

Definition demo_stopped : ShardedEngine :=
  default demo_sharded (exec_all demo_exit (stop (demo_exec demo_busy))).

Lemma sharded_stop_abandons_queue_witness :
  demo_get ∈ queue demo_stopped demo_shard ∧ ¬ answered demo_get demo_stopped.
Proof.
  apply (sharded_stop_abandons_queue 2 100 KindLRU empty_disk demo_sharded (demo_exec demo_busy) demo_shard
           demo_get (mkRequest SET (str "k") (Some (new_entry (str "v") 0)) 0)) with (evs := demo_exit);
    [lia|apply demo_made|apply (exec_all_rtc demo_busy); by vm_compute|by vm_compute| | |by vm_compute].
  - apply (list_elem_of_lookup_2 _ 0). by vm_compute.
  - unfold demo_exit. simpl. set_solver.
Defined.

Definition demo_idle : list event := [EStart; EWorker 0 (0, 0); EWorker 0 (0, 0)].

Lemma sharded_stop_may_hang_witness :
  ∃ s', rtc step (stop (demo_exec demo_idle)) s'
    ∧ ∀ evs s'', Forall internal evs → exec_all evs s' = Some s'' → joined s'' = false.
Proof.
  apply (sharded_stop_may_hang 2 100 KindLRU empty_disk demo_sharded (demo_exec demo_idle) 0);
    [lia|apply demo_made|apply (exec_all_rtc demo_idle); by vm_compute|by vm_compute|by vm_compute].
Defined.
