(* ===== verification/Raft.v ===== *)
(** * Raft

    src/node/raft: the node ([Node] of node.go, types.go), its remote procedure
    calls (rpc.go) and the cluster that NewCluster of cluster.go builds. A
    handler runs under the mutex of its node from beginning to end. The
    goroutines that send requests do not: they are tasks, which run, reach a
    peer, come back or fail in any order. A request that reached a peer may have
    its answer lost, and may arrive again. *)

From S2P Require Import Prelude.

(** ** Data *)

Abbreviation NodeID := bytes.

Inductive NodeState := Follower | Candidate | Leader.

#[global] Instance node_state_eq_dec : EqDecision NodeState.
Proof. solve_decision. Defined.

Record LogEntry := mkEntry {
  le_Term : Z;
  le_Index : Z;
  le_Command : bytes;
}.

#[global] Instance log_entry_eq_dec : EqDecision LogEntry.
Proof. solve_decision. Defined.

Record AppendEntriesRequest := mkAppendEntries {
  ae_Term : Z;
  ae_LeaderID : NodeID;
  ae_PrevLogIndex : Z;
  ae_PrevLogTerm : Z;
  ae_Entries : list LogEntry;
  ae_LeaderCommit : Z;
}.

Record AppendEntriesResponse := mkAppendReply {
  ar_Term : Z;
  ar_Success : bool;
  ar_ConflictIndex : Z;
  ar_ConflictTerm : Z;
}.

Record RequestVoteRequest := mkRequestVote {
  rv_Term : Z;
  rv_CandidateID : NodeID;
  rv_LastLogIndex : Z;
  rv_LastLogTerm : Z;
}.

Record RequestVoteResponse := mkVoteReply {
  vr_Term : Z;
  vr_VoteGranted : bool;
}.

Record ApplyMsg := mkApplyMsg {
  am_Index : Z;
  am_Command : bytes;
}.

(** ** The log as a Go slice

    A slice is a window of a backing array. [append] writes into the array
    while there is room and moves to a new one otherwise; cutting a slice short
    keeps the array, so that a later [append] overwrites what other slices of
    the array still show. The length of an array is its capacity. *)

Record GoLog := mkGoLog {
  arrays : list (list LogEntry);
  log_arr : nat;
  log_len : nat;
}.

Record Window := mkWindow { w_arr : nat; w_lo : nat; w_hi : nat }.

Definition backing (l : GoLog) (a : nat) : list LogEntry := default [] (arrays l !! a).

Definition entries (l : GoLog) : list LogEntry := take (log_len l) (backing l (log_arr l)).

Definition read_window (l : GoLog) (w : Window) : list LogEntry :=
  take (w_hi w - w_lo w) (drop (w_lo w) (backing l (w_arr w))).

Definition empty_log : GoLog := mkGoLog [[]] 0 0.

Definition zero_entry : LogEntry := mkEntry 0 0 [].

(** [grow n] is the capacity the runtime chooses for [n] elements. *)
Definition go_append (grow : nat → nat) (e : LogEntry) (l : GoLog) : GoLog :=
  let a := backing l (log_arr l) in
  if decide (log_len l < length a)%nat
  then mkGoLog (<[log_arr l := <[log_len l := e]> a]> (arrays l)) (log_arr l) (S (log_len l))
  else mkGoLog (arrays l ++ [entries l ++ e :: replicate (grow (S (log_len l)) - S (log_len l)) zero_entry])
         (length (arrays l)) (S (log_len l)).

Definition go_truncate (n : nat) (l : GoLog) : GoLog := mkGoLog (arrays l) (log_arr l) n.

(** ** Node *)

(** [applied] records all messages that were sent on the channel. *)
Record Node := mkNode {
  id : NodeID;
  peers : list NodeID;
  state : NodeState;
  currentTerm : Z;
  votedFor : NodeID;
  log : GoLog;
  commitIndex : Z;
  lastApplied : Z;
  nextIndex : gmap NodeID Z;
  matchIndex : gmap NodeID Z;
  applyCh : list ApplyMsg;
  applied : list ApplyMsg;
  electionTimer : bool;
  heartbeatTimer : bool;
  running : bool;
}.

(** The channels are made with room for 100 messages. *)
Definition APPLY_CAPACITY : nat := 100.

Definition NewNode (i : NodeID) (ps : list NodeID) : Node :=
  mkNode i ps Follower 0 [] empty_log 0 0 ∅ ∅ [] [] true false true.

Definition set_vote (v : NodeID) (n : Node) : Node :=
  mkNode (id n) (peers n) (state n) (currentTerm n) v (log n) (commitIndex n) (lastApplied n)
    (nextIndex n) (matchIndex n) (applyCh n) (applied n) (electionTimer n) (heartbeatTimer n) (running n).

Definition set_log (l : GoLog) (n : Node) : Node :=
  mkNode (id n) (peers n) (state n) (currentTerm n) (votedFor n) l (commitIndex n) (lastApplied n)
    (nextIndex n) (matchIndex n) (applyCh n) (applied n) (electionTimer n) (heartbeatTimer n) (running n).

Definition set_indices (next match_ : gmap NodeID Z) (n : Node) : Node :=
  mkNode (id n) (peers n) (state n) (currentTerm n) (votedFor n) (log n) (commitIndex n) (lastApplied n)
    next match_ (applyCh n) (applied n) (electionTimer n) (heartbeatTimer n) (running n).

Definition set_commit (c : Z) (n : Node) : Node :=
  mkNode (id n) (peers n) (state n) (currentTerm n) (votedFor n) (log n) c (lastApplied n)
    (nextIndex n) (matchIndex n) (applyCh n) (applied n) (electionTimer n) (heartbeatTimer n) (running n).

Definition set_timers (election heartbeat : bool) (n : Node) : Node :=
  mkNode (id n) (peers n) (state n) (currentTerm n) (votedFor n) (log n) (commitIndex n) (lastApplied n)
    (nextIndex n) (matchIndex n) (applyCh n) (applied n) election heartbeat (running n).

Definition set_role (st : NodeState) (term : Z) (v : NodeID) (n : Node) : Node :=
  mkNode (id n) (peers n) st term v (log n) (commitIndex n) (lastApplied n)
    (nextIndex n) (matchIndex n) (applyCh n) (applied n) (electionTimer n) (heartbeatTimer n) (running n).

Definition getLastLogIndex (n : Node) : Z := zlen (entries (log n)).

Definition getLastLogTerm (n : Node) : Z :=
  match last (entries (log n)) with Some e => le_Term e | None => 0 end.

Definition resetElectionTimer (n : Node) : Node := set_timers true (heartbeatTimer n) n.

Definition becomeFollower (term : Z) (n : Node) : Node :=
  set_timers true false (set_role Follower term [] n).

Definition isLogUpToDate (lastIndex lastTerm : Z) (n : Node) : bool :=
  let ourLastTerm := getLastLogTerm n in
  let ourLastIndex := getLastLogIndex n in
  if negb (lastTerm =? ourLastTerm) then ourLastTerm <? lastTerm else ourLastIndex <=? lastIndex.

(** The node's part of [startElection]; one goroutine per peer follows. *)
Definition startElection (n : Node) : Node :=
  resetElectionTimer (set_role Candidate (currentTerm n +64 1) (id n) n).

(** The request a vote goroutine makes when it runs, without the mutex. *)
Definition vote_request (n : Node) : RequestVoteRequest :=
  mkRequestVote (currentTerm n) (id n) (getLastLogIndex n) (getLastLogTerm n).

(** The node's part of [becomeLeader]; a heartbeat to each peer follows. *)
Definition becomeLeader (n : Node) : Node :=
  let n := set_timers (electionTimer n) false (set_role Leader (currentTerm n) (votedFor n) n) in
  let lastLogIndex := getLastLogIndex n in
  let n := set_indices
    (fold_left (λ m p, <[p := lastLogIndex +64 1]> m) (peers n) (nextIndex n))
    (fold_left (λ m p, <[p := 0]> m) (peers n) (matchIndex n)) n in
  set_timers (electionTimer n) true n.

(** [applyCommitted]: a message that finds the channel full is dropped. The
    state machine receives without the mutex: it takes [reads i] messages
    between the sends of messages [i-1] and [i]. [None] is an index out of
    range. *)
Fixpoint apply_loop (reads : Z → nat) (fuel : nat) (n : Node) : option Node :=
  match fuel with
  | O => Some n
  | S fuel =>
      if lastApplied n <? commitIndex n then
        let next := lastApplied n +64 1 in
        entry ← entries (log n) !! Z.to_nat (next - 1);
        let msg := mkApplyMsg next (le_Command entry) in
        let ch := drop (reads next) (applyCh n) in
        let room := bool_decide (length ch < APPLY_CAPACITY)%nat in
        apply_loop reads fuel
          (mkNode (id n) (peers n) (state n) (currentTerm n) (votedFor n) (log n) (commitIndex n) next
             (nextIndex n) (matchIndex n)
             (if room then ch ++ [msg] else ch)
             (if room then applied n ++ [msg] else applied n)
             (electionTimer n) (heartbeatTimer n) (running n))
      else Some n
  end.

Definition applyCommitted (reads : Z → nat) (n : Node) : option Node :=
  apply_loop reads (S (Z.to_nat (commitIndex n - lastApplied n))) n.

(** How many nodes hold the entry, as far as the leader knows. *)
Definition replicas (n : Node) (i : Z) : Z :=
  1 + zlen (filter (λ p, i <= default 0 (matchIndex n !! p)) (peers n)).

Definition quorum (n : Node) : Z := zlen (peers n) `div` 2 + 1.

(** One round of the loop of [updateCommitIndex]. *)
Definition commit_round (reads : Z → nat) (i : Z) (n : Node) : option Node :=
  entry ← entries (log n) !! Z.to_nat (i - 1);
  if negb (le_Term entry =? currentTerm n) then Some n
  else if quorum n <? replicas n i then applyCommitted reads (set_commit i n)
  else Some n.

Definition updateCommitIndex (reads : Z → nat) (n : Node) : option Node :=
  fold_left (λ acc i, acc ≫= commit_round reads i)
    (seqZ (commitIndex n +64 1) (getLastLogIndex n - commitIndex n)) (Some n).

(** ** Handlers *)

Definition HandleRequestVote (req : RequestVoteRequest) (n : Node) : RequestVoteResponse * Node :=
  if rv_Term req <? currentTerm n then (mkVoteReply (currentTerm n) false, n)
  else
    let n := if currentTerm n <? rv_Term req then becomeFollower (rv_Term req) n else n in
    if (bool_decide (votedFor n = []) || bool_decide (votedFor n = rv_CandidateID req))
       && isLogUpToDate (rv_LastLogIndex req) (rv_LastLogTerm req) n
    then (mkVoteReply (currentTerm n) true, resetElectionTimer (set_vote (rv_CandidateID req) n))
    else (mkVoteReply (currentTerm n) false, n).

(** The search for the first index of the conflicting term, downwards from
    [i]; 0 when the term reaches the beginning of the log. *)
Fixpoint conflict_index (i : nat) (ct : Z) (l : list LogEntry) : option Z :=
  match i with
  | O => Some 0
  | S j =>
      entry ← l !! j;
      if negb (le_Term entry =? ct) then Some (Z.of_nat i + 1) else conflict_index j ct l
  end.

Section grow.
Context (grow : nat → nat).

(** One entry of the loop that appends: [idx] is its index in the log. *)
Definition store_entry (idx : Z) (e : LogEntry) (l : GoLog) : option GoLog :=
  if idx <=? zlen (entries l) then
    old ← entries l !! Z.to_nat (idx -64 1);
    if negb (le_Term old =? le_Term e)
    then Some (go_append grow e (go_truncate (Z.to_nat (idx -64 1)) l))
    else Some l
  else Some (go_append grow e l).

Fixpoint store_entries (idx : Z) (es : list LogEntry) (l : GoLog) : option GoLog :=
  match es with
  | [] => Some l
  | e :: es => l' ← store_entry idx e l; store_entries (idx +64 1) es l'
  end.

(** The part of [HandleAppendEntries] after the previous entry is checked. *)
Definition accept_entries (reads : Z → nat) (req : AppendEntriesRequest) (n : Node)
  : option (AppendEntriesResponse * Node) :=
  l ← store_entries (ae_PrevLogIndex req +64 1) (ae_Entries req) (log n);
  let n := set_log l n in
  n ← (if commitIndex n <? ae_LeaderCommit req
       then applyCommitted reads (set_commit (Z.min (ae_LeaderCommit req) (zlen (entries (log n)))) n)
       else Some n);
  Some (mkAppendReply (currentTerm n) true 0 0, n).

Definition HandleAppendEntries (reads : Z → nat) (req : AppendEntriesRequest) (n : Node)
  : option (AppendEntriesResponse * Node) :=
  let term := currentTerm n in
  if ae_Term req <? currentTerm n then Some (mkAppendReply term false 0 0, n)
  else
    let n := resetElectionTimer (becomeFollower (ae_Term req) n) in
    let l := entries (log n) in
    if 0 <? ae_PrevLogIndex req then
      if zlen l <? ae_PrevLogIndex req
      then Some (mkAppendReply term false (zlen l + 1) 0, n)
      else
        prev ← l !! Z.to_nat (ae_PrevLogIndex req - 1);
        if negb (le_Term prev =? ae_PrevLogTerm req)
        then
          ci ← conflict_index (Z.to_nat (ae_PrevLogIndex req - 1)) (le_Term prev) l;
          Some (mkAppendReply term false ci (le_Term prev), n)
        else accept_entries reads req n
    else accept_entries reads req n.

(** The part of [sendAppendEntries] under the mutex: the request with its
    entries still a window of the log. *)
Inductive built :=
| NotLeader
| Built (w : Window) (req : AppendEntriesRequest)
| OutOfRange.

Definition build_append (peer : NodeID) (n : Node) : built :=
  if bool_decide (state n = Leader) then
    let nextIdx := default 0 (nextIndex n !! peer) in
    let prevLogIndex := nextIdx -64 1 in
    let len := zlen (entries (log n)) in
    let prevLogTerm :=
      if (0 <? prevLogIndex) && (prevLogIndex <=? len)
      then match entries (log n) !! Z.to_nat (prevLogIndex - 1) with Some e => le_Term e | None => 0 end
      else 0 in
    let req := mkAppendEntries (currentTerm n) (id n) prevLogIndex prevLogTerm [] (commitIndex n) in
    if nextIdx <=? len then
      if len <? prevLogIndex then OutOfRange
      else Built (mkWindow (log_arr (log n)) (Z.to_nat prevLogIndex) (log_len (log n))) req
    else Built (mkWindow (log_arr (log n)) 0 0) req
  else NotLeader.

(** Encoding the request reads the window. *)
Definition marshal (w : Window) (req : AppendEntriesRequest) (n : Node) : AppendEntriesRequest :=
  mkAppendEntries (ae_Term req) (ae_LeaderID req) (ae_PrevLogIndex req) (ae_PrevLogTerm req)
    (read_window (log n) w) (ae_LeaderCommit req).

(** The part of [sendAppendEntries] after the answer: [count] entries were in
    the slice. *)
Definition append_reply (reads : Z → nat) (peer : NodeID) (term prevLogIndex count : Z) (resp : AppendEntriesResponse)
    (n : Node) : option Node :=
  if negb (bool_decide (state n = Leader)) || negb (currentTerm n =? term) then Some n
  else if currentTerm n <? ar_Term resp then Some (becomeFollower (ar_Term resp) n)
  else if ar_Success resp then
    let m := prevLogIndex +64 count in
    updateCommitIndex reads (set_indices (<[peer := m +64 1]> (nextIndex n)) (<[peer := m]> (matchIndex n)) n)
  else
    let next := default 0 (nextIndex n !! peer) in
    Some (if 1 <? next then set_indices (<[peer := next - 1]> (nextIndex n)) (matchIndex n) n else n).

(** [Propose]; heartbeats to all peers follow when the node is the leader. *)
Definition Propose (command : bytes) (n : Node) : Z * Z * bool * Node :=
  if bool_decide (state n = Leader) then
    let entry := mkEntry (currentTerm n) (zlen (entries (log n)) +64 1) command in
    (le_Index entry, currentTerm n, true, set_log (go_append grow entry (log n)) n)
  else (0, 0, false, n).
End grow.

Definition GetState (n : Node) : Z * bool := (currentTerm n, bool_decide (state n = Leader)).

(** [Shutdown] also ends the event loop. *)
Definition Shutdown (n : Node) : Node :=
  mkNode (id n) (peers n) (state n) (currentTerm n) (votedFor n) (log n) (commitIndex n) (lastApplied n)
    (nextIndex n) (matchIndex n) (applyCh n) (applied n) false false false.

(** ** The cluster *)

(** A goroutine of a node. The vote goroutines of one election share its
    counter. The request is made when the goroutine first runs; an
    [AppendEntries] request is made under the mutex and encoded later. *)
Inductive Task :=
| VoteStart (cand peer : NodeID) (election : nat)
| VoteSent (cand peer : NodeID) (election : nat) (req : RequestVoteRequest)
| VoteReplied (cand peer : NodeID) (election : nat) (req : RequestVoteRequest) (resp : RequestVoteResponse)
| AppendStart (leader peer : NodeID)
| AppendBuilt (leader peer : NodeID) (w : Window) (req : AppendEntriesRequest)
| AppendSent (leader peer : NodeID) (count : Z) (req : AppendEntriesRequest)
| AppendReplied (leader peer : NodeID) (count : Z) (req : AppendEntriesRequest) (resp : AppendEntriesResponse).

(** [votesReceived] of one call of [startElection]; the candidate, the term of
    the call and the peers whose votes were counted are recorded. *)
Record Election := mkElection {
  el_cand : NodeID;
  el_term : Z;
  votesReceived : Z;
  counted : list NodeID;
}.

(** [addrs] says which node answers at the address of a peer. [ballots] records
    every vote given: voter, term, candidate. *)
Record Cluster := mkCluster {
  nodes : gmap NodeID Node;
  addrs : gmap NodeID NodeID;
  tasks : gmap nat Task;
  next_task : nat;
  elections : list Election;
  ballots : list (NodeID * Z * NodeID);
}.

Definition NewCluster (nodeIDs : list NodeID) : Cluster :=
  mkCluster (list_to_map ((λ i, (i, NewNode i (filter (λ p, p ≠ i) nodeIDs))) <$> nodeIDs))
    (list_to_map ((λ i, (i, i)) <$> nodeIDs)) ∅ 0 [] [].

Definition GetNode (i : NodeID) (c : Cluster) : option Node := nodes c !! i.

Definition set_node (i : NodeID) (n : Node) (c : Cluster) : Cluster :=
  mkCluster (<[i := n]> (nodes c)) (addrs c) (tasks c) (next_task c) (elections c) (ballots c).

Definition set_task (tid : nat) (t : Task) (c : Cluster) : Cluster :=
  mkCluster (nodes c) (addrs c) (<[tid := t]> (tasks c)) (next_task c) (elections c) (ballots c).

Definition end_task (tid : nat) (c : Cluster) : Cluster :=
  mkCluster (nodes c) (addrs c) (delete tid (tasks c)) (next_task c) (elections c) (ballots c).

(** [go]: a new goroutine. *)
Definition spawn (t : Task) (c : Cluster) : Cluster :=
  mkCluster (nodes c) (addrs c) (<[next_task c := t]> (tasks c)) (S (next_task c)) (elections c) (ballots c).

Definition spawn_all (ts : list Task) (c : Cluster) : Cluster := fold_left (λ c t, spawn t c) ts c.

Definition record_ballot (voter : NodeID) (term : Z) (cand : NodeID) (c : Cluster) : Cluster :=
  mkCluster (nodes c) (addrs c) (tasks c) (next_task c) (elections c) ((voter, term, cand) :: ballots c).

Definition set_elections (es : list Election) (c : Cluster) : Cluster :=
  mkCluster (nodes c) (addrs c) (tasks c) (next_task c) es (ballots c).

Definition sendHeartbeats (n : Node) (c : Cluster) : Cluster :=
  spawn_all (AppendStart (id n) <$> peers n) c.

(** ** Steps *)

Inductive event :=
| ETimeout (i : NodeID)
| EHeartbeat (i : NodeID)
| EPropose (i : NodeID) (command : bytes)
| ERun (tid : nat) (reads : Z → nat)
| EDeliver (tid : nat) (answered : bool) (reads : Z → nat)
| EFail (tid : nat)
| EApply (i : NodeID)
| EShutdown (i : NodeID).

Inductive outcome :=
| Disabled
| Panics
| Next (c : Cluster).

(** The event loop receives a tick of the election timer. *)
Definition on_timeout (i : NodeID) (c : Cluster) : outcome :=
  match nodes c !! i with
  | Some n =>
      if running n then
        let n := startElection n in
        let e := length (elections c) in
        Next (spawn_all ((λ p, VoteStart i p e) <$> peers n)
          (set_elections (elections c ++ [mkElection i (currentTerm n) 1 []])
            (record_ballot i (currentTerm n) i (set_node i n c))))
      else Disabled
  | None => Disabled
  end.

(** A tick of the heartbeat timer. *)
Definition on_heartbeat (i : NodeID) (c : Cluster) : outcome :=
  match nodes c !! i with
  | Some n =>
      if running n && heartbeatTimer n then
        if bool_decide (state n = Leader)
        then Next (sendHeartbeats n c)
        else Next (set_node i (set_timers (electionTimer n) false n) c)
      else Disabled
  | None => Disabled
  end.

Definition on_propose (grow : nat → nat) (i : NodeID) (command : bytes) (c : Cluster) : outcome :=
  match nodes c !! i with
  | Some n =>
      let '(_, _, ok, n') := Propose grow command n in
      if ok : bool then Next (sendHeartbeats n' (set_node i n' c)) else Next c
  | None => Disabled
  end.

(** The callback of a vote goroutine. *)
Definition on_vote_reply (cand peer : NodeID) (election : nat) (req : RequestVoteRequest)
    (resp : RequestVoteResponse) (c : Cluster) : outcome :=
  match nodes c !! cand, elections c !! election with
  | Some n, Some el =>
      if negb (bool_decide (state n = Candidate)) || negb (currentTerm n =? rv_Term req) then Next c
      else if currentTerm n <? vr_Term resp
      then Next (set_node cand (becomeFollower (vr_Term resp) n) c)
      else if vr_VoteGranted resp then
        let votes := votesReceived el + 1 in
        let c := set_elections (<[election := mkElection (el_cand el) (el_term el) votes (peer :: counted el)]>
                                  (elections c)) c in
        if quorum n <? votes
        then let n := becomeLeader n in Next (sendHeartbeats n (set_node cand n c))
        else Next c
      else Next c
  | _, _ => Disabled
  end.

(** What a goroutine does next on its own node. *)
Definition on_run (tid : nat) (reads : Z → nat) (c : Cluster) : outcome :=
  match tasks c !! tid with
  | Some (VoteStart cand peer e) =>
      match nodes c !! cand with
      | Some n => Next (set_task tid (VoteSent cand peer e (vote_request n)) c)
      | None => Disabled
      end
  | Some (VoteReplied cand peer e req resp) => on_vote_reply cand peer e req resp (end_task tid c)
  | Some (AppendStart leader peer) =>
      match nodes c !! leader with
      | Some n =>
          match build_append peer n with
          | NotLeader => Next (end_task tid c)
          | Built w req => Next (set_task tid (AppendBuilt leader peer w req) c)
          | OutOfRange => Panics
          end
      | None => Disabled
      end
  | Some (AppendBuilt leader peer w req) =>
      match nodes c !! leader with
      | Some n =>
          Next (set_task tid (AppendSent leader peer (Z.of_nat (w_hi w - w_lo w)) (marshal w req n)) c)
      | None => Disabled
      end
  | Some (AppendReplied leader peer count req resp) =>
      match nodes c !! leader with
      | Some n =>
          match append_reply reads peer (ae_Term req) (ae_PrevLogIndex req) count resp n with
          | Some n' => Next (set_node leader n' (end_task tid c))
          | None => Panics
          end
      | None => Disabled
      end
  | _ => Disabled
  end.

(** A request reaches the node at the address of the peer; [answered] says
    whether the answer comes back. *)
Definition on_deliver (grow : nat → nat) (tid : nat) (answered : bool) (reads : Z → nat) (c : Cluster) : outcome :=
  match tasks c !! tid with
  | Some (VoteSent cand peer e req) =>
      match addrs c !! peer with
      | Some j =>
          match nodes c !! j with
          | Some n =>
              let '(resp, n') := HandleRequestVote req n in
              let c := set_node j n' c in
              let c := if vr_VoteGranted resp then record_ballot j (rv_Term req) (rv_CandidateID req) c else c in
              Next (if answered then set_task tid (VoteReplied cand peer e req resp) c else c)
          | None => Disabled
          end
      | None => Disabled
      end
  | Some (AppendSent leader peer count req) =>
      match addrs c !! peer with
      | Some j =>
          match nodes c !! j with
          | Some n =>
              match HandleAppendEntries grow reads req n with
              | Some (resp, n') =>
                  let c := set_node j n' c in
                  Next (if answered then set_task tid (AppendReplied leader peer count req resp) c else c)
              | None => Panics
              end
          | None => Disabled
          end
      | None => Disabled
      end
  | _ => Disabled
  end.

(** The state machine takes a message from the channel, while no handler runs. *)
Definition on_apply (i : NodeID) (c : Cluster) : outcome :=
  match nodes c !! i with
  | Some n =>
      match applyCh n with
      | _ :: rest =>
          Next (set_node i
            (mkNode (id n) (peers n) (state n) (currentTerm n) (votedFor n) (log n) (commitIndex n)
               (lastApplied n) (nextIndex n) (matchIndex n) rest (applied n)
               (electionTimer n) (heartbeatTimer n) (running n)) c)
      | [] => Disabled
      end
  | None => Disabled
  end.

Definition exec (grow : nat → nat) (ev : event) (c : Cluster) : outcome :=
  match ev with
  | ETimeout i => on_timeout i c
  | EHeartbeat i => on_heartbeat i c
  | EPropose i cmd => on_propose grow i cmd c
  | ERun tid reads => on_run tid reads c
  | EDeliver tid answered reads => on_deliver grow tid answered reads c
  | EFail tid => match tasks c !! tid with Some _ => Next (end_task tid c) | None => Disabled end
  | EApply i => on_apply i c
  | EShutdown i => match nodes c !! i with Some n => Next (set_node i (Shutdown n) c) | None => Disabled end
  end.

Definition step (grow : nat → nat) (c c' : Cluster) : Prop := ∃ ev, exec grow ev c = Next c'.

Fixpoint exec_all (grow : nat → nat) (evs : list event) (c : Cluster) : option Cluster :=
  match evs with
  | [] => Some c
  | ev :: evs => match exec grow ev c with Next c' => exec_all grow evs c' | _ => None end
  end.

(** Schedules in which a vote goroutine makes its request while its node is
    still in the term of the election, no term number overflows and the length
    of a log stays an [int]. *)
Definition timely (ev : event) (c : Cluster) : bool :=
  match ev with
  | ETimeout i => match nodes c !! i with Some n => currentTerm n <? 2 ^ 64 - 1 | None => true end
  | EPropose i _ => match nodes c !! i with Some n => zlen (entries (log n)) <? 2 ^ 63 - 1 | None => true end
  | ERun tid _ =>
      match tasks c !! tid with
      | Some (VoteStart cand peer e) =>
          match nodes c !! cand, elections c !! e with
          | Some n, Some el => currentTerm n =? el_term el
          | _, _ => true
          end
      | _ => true
      end
  | _ => true
  end.

Definition timely_step (grow : nat → nat) (c c' : Cluster) : Prop :=
  ∃ ev, timely ev c = true ∧ exec grow ev c = Next c'.

Fixpoint timely_all (grow : nat → nat) (evs : list event) (c : Cluster) : option Cluster :=
  match evs with
  | [] => Some c
  | ev :: evs =>
      if timely ev c then match exec grow ev c with Next c' => timely_all grow evs c' | _ => None end else None
  end.

(** The leader a cluster knows of. *)
Definition GetLeader (c : Cluster) : list NodeID :=
  (filter (λ kn, (GetState kn.2).2 = true) (map_to_list (nodes c))).*1.
