(* ===== verification/RaftNode.v ===== *)
(** * One Raft node

    What the handlers of a node do: the log as a list, the merge of received
    entries, and the frames of the operations. *)

From S2P Require Import Prelude Raft.

(** ** The log as a list *)

Record log_ok (l : GoLog) : Prop := {
  log_arr_lt : (log_arr l < length (arrays l))%nat;
  log_len_le : (log_len l <= length (backing l (log_arr l)))%nat;
}.

(** The window shows a part of the log, or of an array the log has left. *)
Definition covers (l : GoLog) (w : Window) : Prop :=
  (w_arr w < length (arrays l))%nat ∧ (w_arr w = log_arr l → w_hi w <= log_len l)%nat.

Lemma empty_log_ok : log_ok empty_log.
Proof. split; simpl; lia. Qed.

Lemma length_entries l : log_ok l → length (entries l) = log_len l.
Proof. intros [_ H]. unfold entries. rewrite length_take. lia. Qed.

Lemma backing_insert l a x b :
  (a < length (arrays l))%nat →
  backing (mkGoLog (<[a := x]> (arrays l)) (log_arr l) (log_len l)) b
  = if decide (a = b) then x else backing l b.
Proof.
  intros Ha. unfold backing. simpl. case_decide as H.
  - subst b. by rewrite list_lookup_insert_eq.
  - by rewrite list_lookup_insert_ne.
Qed.

Section append.
Context (grow : nat → nat).

Lemma append_spec e l :
  log_ok l → log_ok (go_append grow e l) ∧ entries (go_append grow e l) = entries l ++ [e].
Proof.
  intros [Ha Hl]. unfold go_append. case_decide as Hroom.
  - assert (backing (mkGoLog (<[log_arr l := <[log_len l := e]> (backing l (log_arr l))]> (arrays l))
              (log_arr l) (S (log_len l))) (log_arr l) = <[log_len l := e]> (backing l (log_arr l))) as Hb.
    { unfold backing at 1. simpl. by rewrite list_lookup_insert_eq. }
    split.
    + split; simpl; [by rewrite length_insert|]. rewrite Hb, length_insert. lia.
    + unfold entries. cbn [log_len log_arr]. rewrite Hb.
      rewrite (take_S_r _ _ e) by (by apply list_lookup_insert_eq). by rewrite take_insert_ge by lia.
  - assert (log_len l = length (backing l (log_arr l))) as Hfull by lia.
    set (x := entries l ++ _).
    assert (backing (mkGoLog (arrays l ++ [x]) (length (arrays l)) (S (log_len l))) (length (arrays l)) = x) as Hb.
    { unfold backing. simpl. by rewrite list_lookup_middle. }
    assert (length (entries l) = log_len l) as Hlen by (apply length_entries; by split).
    split.
    + split; simpl; [rewrite length_app; simpl; lia|]. rewrite Hb. unfold x.
      rewrite length_app, Hlen. simpl. lia.
    + unfold entries at 1. cbn [log_len log_arr]. rewrite Hb. unfold x.
      rewrite take_app_ge, Hlen by lia. by replace (S (log_len l) - log_len l)%nat with 1%nat by lia.
Qed.

Lemma window_insert (a : list LogEntry) k e lo hi :
  (hi <= k)%nat → take (hi - lo) (drop lo (<[k := e]> a)) = take (hi - lo) (drop lo a).
Proof.
  intros Hk. destruct (decide (lo <= hi)%nat) as [Hle|Hgt].
  - rewrite !take_drop_commute. by rewrite take_insert_ge by lia.
  - by replace (hi - lo)%nat with 0%nat by lia.
Qed.

(** An append does not change what a window of the log shows. *)
Lemma append_window e l w :
  log_ok l → covers l w →
  covers (go_append grow e l) w ∧ read_window (go_append grow e l) w = read_window l w.
Proof.
  intros [Ha Hl] [Hw Hhi]. unfold go_append. case_decide as Hroom.
  - split.
    + split; simpl; [by rewrite length_insert|]. intros E. specialize (Hhi E). lia.
    + unfold read_window, backing at 1. simpl. destruct (decide (log_arr l = w_arr w)) as [E|E].
      * rewrite E, list_lookup_insert_eq by lia. simpl. apply window_insert. by apply Hhi.
      * by rewrite list_lookup_insert_ne.
  - split.
    + split; simpl; [rewrite length_app; simpl; lia|]. intros E. lia.
    + unfold read_window, backing. simpl. by rewrite lookup_app_l.
Qed.

Lemma truncate_spec n l :
  log_ok l → (n <= log_len l)%nat →
  log_ok (go_truncate n l) ∧ entries (go_truncate n l) = take n (entries l).
Proof.
  intros [Ha Hl] Hn. split.
  - split; simpl; [done|]. change (backing (go_truncate n l) (log_arr l)) with (backing l (log_arr l)). lia.
  - unfold entries. simpl. rewrite take_take. by rewrite Nat.min_l.
Qed.

(** ** Merging received entries *)

(** [store_entries] on lists: [es] are to follow the first [k] of [old]. *)
Fixpoint merge_log (k : nat) (es old : list LogEntry) : list LogEntry :=
  match es with
  | [] => old
  | e :: es =>
      merge_log (S k) es
        (match old !! k with
         | Some o => if le_Term o =? le_Term e then old else take k old ++ [e]
         | None => old ++ [e]
         end)
  end.

Lemma store_entry_spec k e l :
  log_ok l → (k <= log_len l)%nat → Z.of_nat k < 2 ^ 63 →
  ∃ l', store_entry grow (Z.of_nat k + 1) e l = Some l' ∧ log_ok l' ∧ (S k <= log_len l')%nat
  ∧ entries l' = match entries l !! k with
                 | Some o => if le_Term o =? le_Term e then entries l else take k (entries l) ++ [e]
                 | None => entries l ++ [e]
                 end.
Proof.
  intros Hl Hk Hb. pose proof (length_entries l Hl) as Hlen. unfold store_entry, zlen. rewrite Hlen.
  replace (Z.of_nat k + 1 -64 1) with (Z.of_nat k) by (rewrite u64_small; lia). rewrite Nat2Z.id.
  destruct (Z.leb_spec (Z.of_nat k + 1) (Z.of_nat (log_len l))).
  - destruct (lookup_lt_is_Some_2 (entries l) k) as [o Ho]; [lia|]. rewrite Ho. simpl.
    destruct (le_Term o =? le_Term e); simpl; [exists l; split_and!; [done|done|lia|done]|].
    destruct (truncate_spec k l Hl Hk) as [Ht Het]. destruct (append_spec e _ Ht) as [Ha Hea].
    eexists. split_and!; [done|done| |by rewrite Hea, Het].
    rewrite <- (length_entries _ Ha), Hea, Het, length_app, length_take. simpl. lia.
  - rewrite lookup_ge_None_2 by lia. destruct (append_spec e l Hl) as [Ha Hea].
    eexists. split_and!; [done|done| |done].
    rewrite <- (length_entries _ Ha), Hea, length_app. simpl. lia.
Qed.

Lemma store_entries_spec k es l :
  log_ok l → (k <= log_len l)%nat → Z.of_nat k + zlen es < 2 ^ 63 →
  ∃ l', store_entries grow (Z.of_nat k + 1) es l = Some l' ∧ log_ok l'
  ∧ entries l' = merge_log k es (entries l).
Proof.
  revert k l. induction es as [|e es IH]; intros k l Hl Hk Hb; simpl; [by exists l|].
  rewrite zlen_cons in Hb. pose proof (zlen_nonneg es).
  destruct (store_entry_spec k e l) as (l1 & -> & Hl1 & Hk1 & He1); [done|done|lia|]. simpl.
  replace (Z.of_nat k + 1 +64 1) with (Z.of_nat (S k) + 1) by (rewrite u64_small; lia).
  destruct (IH (S k) l1) as (l' & -> & ? & He); [done|done|lia|].
  exists l'. split_and!; [done|done|]. by rewrite He, He1.
Qed.

(** ** The merge against the sender's log *)

(** Equal terms at an index mean equal logs up to it. *)
Definition matching (l1 l2 : list LogEntry) : Prop :=
  ∀ i e1 e2, l1 !! i = Some e1 → l2 !! i = Some e2 → le_Term e1 = le_Term e2 →
    take (S i) l1 = take (S i) l2.

Lemma merge_extend k new old :
  (length old <= k)%nat → (k <= length old)%nat →
  merge_log k new old = old ++ new.
Proof.
  revert k old. induction new as [|e new IH]; intros k old H1 H2; simpl; [by rewrite app_nil_r|].
  rewrite lookup_ge_None_2 by lia. rewrite IH; [|rewrite length_app; simpl; lia..].
  by rewrite <- app_assoc.
Qed.

(** Between matching logs that agree on the first [k] entries, merging the rest
    of the sender's log leaves the own log if it extends the sender's, and makes
    it the sender's log otherwise. *)
Lemma merge_spec k new old :
  matching old new → (k <= length old)%nat → (k <= length new)%nat → take k old = take k new →
  (merge_log k (drop k new) old = old ∧ new `prefix_of` old)
  ∨ (merge_log k (drop k new) old = new ∧ ¬ new `prefix_of` old).
Proof.
  intros Hm. remember (drop k new) as es eqn:Hes. revert k Hes.
  induction es as [|e es IH]; intros k Hes Hko Hkn Hpre; simpl.
  { left. split; [done|]. assert (length new = k) as Hk.
    { pose proof (length_drop new k) as H. rewrite <- Hes in H. simpl in H. lia. }
    rewrite firstn_all2 with (l := new) in Hpre by lia. exists (drop k old).
    by rewrite <- Hpre, take_drop. }
  assert (new !! k = Some e) as Hk.
  { pose proof (lookup_drop new k 0) as H. rewrite <- Hes, Nat.add_0_r in H. done. }
  assert (es = drop (S k) new) as Hes'.
  { pose proof (drop_S new e k Hk) as H. rewrite <- Hes in H. by injection H. }
  assert (S k <= length new)%nat as HSn by (apply lookup_lt_Some in Hk; lia).
  assert (take k new ++ [e] = take (S k) new) as Htk by (by rewrite (take_S_r new k e)).
  assert (∀ l, l = take (S k) new → merge_log (S k) es l = new) as Hrest.
  { intros l ->. rewrite merge_extend by (rewrite length_take; lia). by rewrite Hes', take_drop. }
  destruct (old !! k) as [o|] eqn:Ho.
  - destruct (Z.eqb_spec (le_Term o) (le_Term e)) as [Ht|Ht].
    + apply IH; [done|apply lookup_lt_Some in Ho; lia|done|]. by apply (Hm k o e).
    + right. split; [apply Hrest; by rewrite Hpre|]. intros [z Hz]. rewrite Hz, lookup_app_l in Ho by lia.
      congruence.
  - apply lookup_ge_None in Ho. right. rewrite firstn_all2 in Hpre by lia.
    split; [apply Hrest; by rewrite Hpre|]. intros Hp%prefix_length. lia.
Qed.
End append.

(** ** Applying and committing *)

(** What applying committed entries leaves alone. *)
Record frame (n n' : Node) : Prop := {
  f_id : id n' = id n;
  f_peers : peers n' = peers n;
  f_state : state n' = state n;
  f_term : currentTerm n' = currentTerm n;
  f_vote : votedFor n' = votedFor n;
  f_log : log n' = log n;
  f_next : nextIndex n' = nextIndex n;
  f_match : matchIndex n' = matchIndex n;
  f_election : electionTimer n' = electionTimer n;
  f_running : running n' = running n;
}.

#[global] Instance frame_preorder : PreOrder frame.
Proof.
  split; [by intros n|]. intros n1 n2 n3 [] []. split; congruence.
Qed.

(** The message says what the log holds at its index. *)
Definition msg_of (l : list LogEntry) (c : Z) (m : ApplyMsg) : Prop :=
  1 <= am_Index m <= c ∧ ∃ e, l !! Z.to_nat (am_Index m - 1) = Some e ∧ am_Command m = le_Command e.

Lemma msg_of_mono l c c' m : c <= c' → msg_of l c m → msg_of l c' m.
Proof. intros Hc ([? ?] & ?). split; [lia|done]. Qed.

Lemma apply_loop_spec reads fuel n :
  0 <= lastApplied n → commitIndex n <= zlen (entries (log n)) < 2 ^ 63 →
  commitIndex n - lastApplied n < Z.of_nat fuel →
  ∃ n', apply_loop reads fuel n = Some n' ∧ frame n n' ∧ commitIndex n' = commitIndex n
  ∧ lastApplied n' = Z.max (lastApplied n) (commitIndex n)
  ∧ ∃ msgs, applied n' = applied n ++ msgs ∧ Forall (msg_of (entries (log n)) (commitIndex n)) msgs.
Proof.
  revert n. induction fuel as [|fuel IH]; intros n Hl Hc Hf; simpl.
  { exists n. split_and!; [done|done|done|lia|]. exists []. by rewrite app_nil_r. }
  destruct (Z.ltb_spec (lastApplied n) (commitIndex n)).
  - rewrite (u64_small (lastApplied n + 1)) by lia.
    replace (lastApplied n + 1 - 1) with (lastApplied n) by lia.
    destruct (lookup_lt_is_Some_2 (entries (log n)) (Z.to_nat (lastApplied n))) as [e He];
      [unfold zlen in Hc; lia|]. rewrite He. simpl.
    set (n1 := mkNode _ _ _ _ _ _ _ _ _ _ _ _ _ _ _).
    destruct (IH n1) as (n' & -> & Hfr & Hc' & Hl' & msgs & Ha & Hall); [simpl; lia|done|simpl; lia|].
    exists n'. split_and!; [done| |done|rewrite Hl'; simpl; lia|].
    { etrans; [|exact Hfr]. by split. }
    assert (msg_of (entries (log n)) (commitIndex n) (mkApplyMsg (lastApplied n + 1) (le_Command e))) as Hmsg.
    { split; simpl; [lia|]. exists e. by replace (lastApplied n + 1 - 1) with (lastApplied n) by lia. }
    rewrite Ha. unfold n1. cbn [applied]. case_bool_decide.
    + exists (mkApplyMsg (lastApplied n + 1) (le_Command e) :: msgs). rewrite <- app_assoc. by split; [|constructor].
    + by exists msgs.
  - exists n. split_and!; [done|done|done|lia|]. exists []. by rewrite app_nil_r.
Qed.

Lemma applyCommitted_spec reads n :
  0 <= lastApplied n → commitIndex n <= zlen (entries (log n)) < 2 ^ 63 →
  ∃ n', applyCommitted reads n = Some n' ∧ frame n n' ∧ commitIndex n' = commitIndex n
  ∧ lastApplied n' = Z.max (lastApplied n) (commitIndex n)
  ∧ ∃ msgs, applied n' = applied n ++ msgs ∧ Forall (msg_of (entries (log n)) (commitIndex n)) msgs.
Proof. intros Hl Hc. apply apply_loop_spec; [done|done|lia]. Qed.

(** The leader's reason to commit an index. *)
Definition committable (n : Node) (i : Z) : Prop :=
  1 <= i ∧ (∃ e, entries (log n) !! Z.to_nat (i - 1) = Some e ∧ le_Term e = currentTerm n)
  ∧ quorum n < replicas n i.

Lemma committable_frame n n' i : frame n n' → committable n' i → committable n i.
Proof.
  intros Hf (Hi & (e & He & Ht) & Hq). unfold committable, quorum, replicas in *.
  rewrite (f_peers _ _ Hf), (f_match _ _ Hf) in Hq. rewrite (f_log _ _ Hf) in He. rewrite (f_term _ _ Hf) in Ht.
  split_and!; [done|by exists e|done].
Qed.

(** What a run of the commit loop has done so far. *)
Definition advanced (n n' : Node) : Prop :=
  frame n n' ∧ lastApplied n' = Z.max (lastApplied n) (commitIndex n') ∧ commitIndex n <= commitIndex n'
  ∧ (commitIndex n' = commitIndex n ∨ committable n (commitIndex n'))
  ∧ ∃ msgs, applied n' = applied n ++ msgs ∧ Forall (msg_of (entries (log n)) (commitIndex n')) msgs.

Lemma advanced_refl n : commitIndex n <= lastApplied n → advanced n n.
Proof. intros. split_and!; [done|lia|lia|by left|]. exists []. by rewrite app_nil_r. Qed.

Lemma commit_round_spec reads n n1 i :
  0 <= commitIndex n → 0 <= lastApplied n → advanced n n1 → commitIndex n1 < i <= zlen (entries (log n)) →
  zlen (entries (log n)) < 2 ^ 63 →
  ∃ n2, commit_round reads i n1 = Some n2 ∧ advanced n n2 ∧ commitIndex n2 <= i.
Proof.
  intros Hc0 Hl0 Hadv Hi Hlen. pose proof Hadv as (Hf & Hla & Hc & _ & msgs & Ha & Hm).
  pose proof (f_log _ _ Hf) as Elog. unfold commit_round. rewrite Elog.
  destruct (lookup_lt_is_Some_2 (entries (log n)) (Z.to_nat (i - 1))) as [e He]; [unfold zlen in Hi; lia|].
  rewrite He. simpl. destruct (Z.eqb_spec (le_Term e) (currentTerm n1)) as [Ht|]; simpl; [|exists n1; split_and!; [done|done|lia]].
  destruct (Z.ltb_spec (quorum n1) (replicas n1 i)) as [Hq|]; [|exists n1; split_and!; [done|done|lia]].
  destruct (applyCommitted_spec reads (set_commit i n1)) as (n2 & -> & Hf2 & Hc2 & Hl2 & msgs2 & Ha2 & Hm2);
    [simpl; lia|simpl; rewrite Elog; lia|]. simpl in *.
  assert (frame n n2) as Hf' by (etrans; [exact Hf|]; destruct Hf2; by split).
  exists n2. split_and!; [done| |lia]. split_and!; [done|rewrite Hl2, Hc2; lia|lia| |].
  - right. rewrite Hc2. apply (committable_frame _ _ _ Hf). split_and!; [lia| |done].
    exists e. by rewrite Elog.
  - exists (msgs ++ msgs2). rewrite Ha2, Ha, <- app_assoc. split; [done|]. apply Forall_app. split.
    + eapply Forall_impl; [exact Hm|]. intros m. apply msg_of_mono. lia.
    + by rewrite Hc2, <- Elog.
Qed.

Lemma commit_loop_spec reads n n1 a (k : nat) :
  0 <= commitIndex n → 0 <= lastApplied n → advanced n n1 → commitIndex n1 < a → a + Z.of_nat k <= zlen (entries (log n)) + 1 →
  zlen (entries (log n)) < 2 ^ 63 →
  ∃ n2, fold_left (λ acc i, acc ≫= commit_round reads i) (seqZ a (Z.of_nat k)) (Some n1) = Some n2 ∧ advanced n n2.
Proof.
  intros Hc0 Hl0 Hadv Ha Hk Hlen. revert n1 a Hadv Ha Hk. induction k as [|k IH]; intros n1 a Hadv Ha Hk.
  { by exists n1. }
  rewrite seqZ_cons by lia. simpl.
  destruct (commit_round_spec reads n n1 a) as (n2 & -> & Hadv2 & Hle); [done|done|done|lia|done|].
  replace (Z.pred (Z.of_nat (S k))) with (Z.of_nat k) by lia.
  apply IH; [done|lia|lia].
Qed.

Lemma updateCommitIndex_spec reads n :
  0 <= commitIndex n < 2 ^ 63 → commitIndex n <= lastApplied n → zlen (entries (log n)) < 2 ^ 63 →
  ∃ n', updateCommitIndex reads n = Some n' ∧ advanced n n'.
Proof.
  intros Hc Hl Hlen. unfold updateCommitIndex, getLastLogIndex. rewrite u64_small by lia.
  destruct (decide (commitIndex n <= zlen (entries (log n)))) as [Hle|Hgt].
  - rewrite <- (Z2Nat.id (zlen (entries (log n)) - commitIndex n)) by lia.
    apply commit_loop_spec; [lia|lia|by apply advanced_refl|lia|lia|done].
  - rewrite seqZ_nil by lia. exists n. split; [done|]. by apply advanced_refl.
Qed.

(** ** Handlers *)

(** What changes of role and vote leave alone. *)
Record same_data (n n' : Node) : Prop := {
  sd_id : id n' = id n;
  sd_peers : peers n' = peers n;
  sd_log : log n' = log n;
  sd_commit : commitIndex n' = commitIndex n;
  sd_last : lastApplied n' = lastApplied n;
  sd_applied : applied n' = applied n;
}.

#[global] Instance same_data_preorder : PreOrder same_data.
Proof. split; [by intros n|]. intros n1 n2 n3 [] []. split; congruence. Qed.

Record node_ok (n : Node) : Prop := {
  ok_log : log_ok (log n);
  ok_len : zlen (entries (log n)) < 2 ^ 63;
  ok_commit : 0 <= commitIndex n < 2 ^ 63;
  ok_applied : commitIndex n <= lastApplied n < 2 ^ 63;
}.

Lemma new_node_ok i ps : node_ok (NewNode i ps).
Proof. split; simpl; [apply empty_log_ok|done|lia|lia]. Qed.

Lemma same_data_ok n n' : same_data n n' → node_ok n → node_ok n'.
Proof. intros [] []. split; congruence. Qed.

Definition timer_kept (n n' : Node) : Prop := electionTimer n = true → electionTimer n' = true.

Lemma request_vote_spec req n resp n' :
  HandleRequestVote req n = (resp, n') →
  same_data n n' ∧ timer_kept n n'
  ∧ ((rv_Term req < currentTerm n ∧ n' = n ∧ vr_VoteGranted resp = false)
     ∨ (currentTerm n <= rv_Term req ∧ currentTerm n' = rv_Term req
        ∧ state n' = (if currentTerm n <? rv_Term req then Follower else state n)
        ∧ nextIndex n' = nextIndex n ∧ matchIndex n' = matchIndex n
        ∧ if vr_VoteGranted resp
          then votedFor n' = rv_CandidateID req
               ∧ (currentTerm n = rv_Term req → votedFor n = [] ∨ votedFor n = rv_CandidateID req)
          else votedFor n' = if currentTerm n <? rv_Term req then [] else votedFor n)).
Proof.
  unfold HandleRequestVote. destruct (Z.ltb_spec (rv_Term req) (currentTerm n)).
  { intros [= <- <-]. split_and!; [done|by intros ?|by left]. }
  destruct (Z.ltb_spec (currentTerm n) (rv_Term req)) as [Hlt|Hge].
  - set (n1 := becomeFollower _ _).
    destruct ((bool_decide (votedFor n1 = []) || _) && _); intros [= <- <-]; simpl;
      (split_and!; [by split|by intros ?|right; split_and!; try done; lia]).
  - assert (currentTerm n = rv_Term req) as Ht by lia.
    destruct ((bool_decide (votedFor n = []) || bool_decide (votedFor n = rv_CandidateID req)) && _) eqn:Hg;
      intros [= <- <-]; simpl; (split_and!; [by split|by intros ?|right; split_and!; try done; try lia]).
    intros _. apply andb_prop in Hg as [Hg _]. apply orb_prop in Hg as [?%bool_decide_eq_true|?%bool_decide_eq_true];
      auto.
Qed.

(** The answers to an [AppendEntries] request that is not out of date. *)
Inductive append_answer (n : Node) (req : AppendEntriesRequest) (resp : AppendEntriesResponse) (n' : Node) : Prop :=
| answer_conflict :
    ar_Success resp = false → same_data n n' → append_answer n req resp n'
| answer_stored :
    ar_Success resp = true → id n' = id n → peers n' = peers n → log_ok (log n') →
    (Z.to_nat (ae_PrevLogIndex req) <= length (entries (log n)))%nat →
    (0 < ae_PrevLogIndex req → ∃ e, entries (log n) !! Z.to_nat (ae_PrevLogIndex req - 1) = Some e
                                    ∧ le_Term e = ae_PrevLogTerm req) →
    entries (log n') = merge_log (Z.to_nat (ae_PrevLogIndex req)) (ae_Entries req) (entries (log n)) →
    commitIndex n' = (if commitIndex n <? ae_LeaderCommit req
                      then Z.min (ae_LeaderCommit req) (zlen (entries (log n'))) else commitIndex n) →
    lastApplied n' = Z.max (lastApplied n) (commitIndex n') →
    (∃ msgs, applied n' = applied n ++ msgs ∧ Forall (msg_of (entries (log n')) (commitIndex n')) msgs) →
    append_answer n req resp n'.

Section handlers.
Context (grow : nat → nat).

Lemma accept_entries_spec reads req n :
  node_ok n → 0 <= ae_PrevLogIndex req → ae_PrevLogIndex req <= zlen (entries (log n)) →
  ae_PrevLogIndex req + zlen (ae_Entries req) < 2 ^ 63 → 0 <= ae_LeaderCommit req →
  zlen (merge_log (Z.to_nat (ae_PrevLogIndex req)) (ae_Entries req) (entries (log n))) < 2 ^ 63 →
  (0 < ae_PrevLogIndex req → ∃ e, entries (log n) !! Z.to_nat (ae_PrevLogIndex req - 1) = Some e
                                  ∧ le_Term e = ae_PrevLogTerm req) →
  ∃ resp n', accept_entries grow reads req n = Some (resp, n') ∧ append_answer n req resp n'
  ∧ state n' = state n ∧ currentTerm n' = currentTerm n ∧ votedFor n' = votedFor n
  ∧ electionTimer n' = electionTimer n.
Proof.
  intros [Hl Hlen Hc Ha] Hp0 Hp Hb HLC Hm Hprev. unfold accept_entries.
  rewrite u64_small by (pose proof (zlen_nonneg (ae_Entries req)); lia).
  destruct (store_entries_spec grow (Z.to_nat (ae_PrevLogIndex req)) (ae_Entries req) (log n))
    as (l & Hst & Hl' & He); [done|rewrite <- (length_entries _ Hl); unfold zlen in Hp; lia|lia|].
  rewrite Z2Nat.id in Hst by done. rewrite Hst. simpl. rewrite <- He in Hm.
  assert (Z.to_nat (ae_PrevLogIndex req) <= length (entries (log n)))%nat as Hp' by (unfold zlen in Hp; lia).
  destruct (Z.ltb_spec (commitIndex n) (ae_LeaderCommit req)) as [Hlt|Hge].
  - destruct (applyCommitted_spec reads (set_commit (Z.min (ae_LeaderCommit req) (zlen (entries l))) (set_log l n)))
      as (n' & -> & Hf & Hc' & Hl2 & msgs & Ha' & Hm'); [simpl; lia|simpl; lia|]. simpl in *.
    destruct Hf as [Hid Hps Hst' Ht Hv Hlg _ _ Het _]. simpl in *.
    eexists _, n'. split_and!; [done| |done..].
    apply answer_stored; try done; rewrite ?Hlg; try done.
    + rewrite Hc'. by destruct (Z.ltb_spec (commitIndex n) (ae_LeaderCommit req)); [|lia].
    + by rewrite Hl2, Hc'.
    + exists msgs. split; [done|]. by rewrite Hc'.
  - eexists _, (set_log l n). split_and!; [done| |done..].
    apply answer_stored; simpl; try done.
    + by destruct (Z.ltb_spec (commitIndex n) (ae_LeaderCommit req)); [lia|].
    + lia.
    + exists []. by rewrite app_nil_r.
Qed.

Lemma conflict_index_Some i ct l : (i <= length l)%nat → is_Some (conflict_index i ct l).
Proof.
  induction i as [|i IH]; intros Hi; simpl; [by eexists|].
  destruct (lookup_lt_is_Some_2 l i) as [e ->]; [lia|]. simpl. destruct (negb _); [by eexists|]. apply IH. lia.
Qed.

Lemma append_entries_spec reads req n :
  node_ok n → 0 <= ae_PrevLogIndex req → ae_PrevLogIndex req + zlen (ae_Entries req) < 2 ^ 63 →
  0 <= ae_LeaderCommit req →
  (ae_PrevLogIndex req <= zlen (entries (log n)) →
   (0 < ae_PrevLogIndex req → ∃ e, entries (log n) !! Z.to_nat (ae_PrevLogIndex req - 1) = Some e
                                   ∧ le_Term e = ae_PrevLogTerm req) →
   zlen (merge_log (Z.to_nat (ae_PrevLogIndex req)) (ae_Entries req) (entries (log n))) < 2 ^ 63) →
  ∃ resp n', HandleAppendEntries grow reads req n = Some (resp, n') ∧ timer_kept n n'
  ∧ ((ae_Term req < currentTerm n ∧ n' = n ∧ ar_Success resp = false)
     ∨ (currentTerm n <= ae_Term req ∧ currentTerm n' = ae_Term req ∧ state n' = Follower ∧ votedFor n' = []
        ∧ append_answer n req resp n')).
Proof.
  intros Hok Hp0 Hb HLC Hm. unfold HandleAppendEntries.
  destruct (Z.ltb_spec (ae_Term req) (currentTerm n)) as [Hlt|Hge].
  { eexists _, n. split_and!; [done|by intros ?|left; by split_and!]. }
  set (n1 := resetElectionTimer (becomeFollower (ae_Term req) n)).
  assert (same_data n n1) as Hsd by (by split).
  assert (∀ resp n', append_answer n1 req resp n' → append_answer n req resp n') as Hlift.
  { intros resp n' [? Hs|]; [apply answer_conflict; [done|by etrans]|by apply answer_stored]. }
  assert (∀ resp, ar_Success resp = false →
    ∃ resp' n', Some (resp, n1) = Some (resp', n') ∧ timer_kept n n'
    ∧ ((ae_Term req < currentTerm n ∧ n' = n ∧ ar_Success resp' = false)
       ∨ (currentTerm n <= ae_Term req ∧ currentTerm n' = ae_Term req ∧ state n' = Follower ∧ votedFor n' = []
          ∧ append_answer n req resp' n'))) as Hfail.
  { intros resp Hs. exists resp, n1. split_and!; [done|by intros ?|right]. split_and!; [lia|done..|].
    by apply answer_conflict. }
  assert (ae_PrevLogIndex req <= zlen (entries (log n)) →
    (0 < ae_PrevLogIndex req → ∃ e, entries (log n) !! Z.to_nat (ae_PrevLogIndex req - 1) = Some e
                                    ∧ le_Term e = ae_PrevLogTerm req) →
    ∃ resp' n', accept_entries grow reads req n1 = Some (resp', n') ∧ timer_kept n n'
    ∧ ((ae_Term req < currentTerm n ∧ n' = n ∧ ar_Success resp' = false)
       ∨ (currentTerm n <= ae_Term req ∧ currentTerm n' = ae_Term req ∧ state n' = Follower ∧ votedFor n' = []
          ∧ append_answer n req resp' n'))) as Hacc.
  { intros Hp Hprev.
    destruct (accept_entries_spec reads req n1) as (resp & n' & -> & Hans & Hst & Ht & Hv & Het);
      [by eapply same_data_ok|done..|by apply Hm|done|].
    exists resp, n'. split_and!; [done|by intros ?; rewrite Het|right].
    split_and!; [lia|by rewrite Ht|by rewrite Hst|by rewrite Hv|by apply Hlift]. }
  change (entries (log n1)) with (entries (log n)).
  destruct (Z.ltb_spec 0 (ae_PrevLogIndex req)); [|apply Hacc; [pose proof (zlen_nonneg (entries (log n))); lia|lia]].
  destruct (Z.ltb_spec (zlen (entries (log n))) (ae_PrevLogIndex req)) as [|Hle]; [by apply Hfail|].
  destruct (lookup_lt_is_Some_2 (entries (log n)) (Z.to_nat (ae_PrevLogIndex req - 1))) as [prev Hprev];
    [unfold zlen in Hle; lia|]. rewrite Hprev. simpl.
  destruct (Z.eqb_spec (le_Term prev) (ae_PrevLogTerm req)) as [Ht|Ht]; simpl; [apply Hacc; [done|by exists prev]|].
  destruct (conflict_index_Some (Z.to_nat (ae_PrevLogIndex req - 1)) (le_Term prev) (entries (log n)))
    as [ci ->]; [unfold zlen in Hle; lia|]. simpl. by apply Hfail.
Qed.
End handlers.

(** ** Roles

    What every successful call does to the role of its node, without any
    assumption on the request. *)

Definition role (n : Node) : NodeID * list NodeID * NodeState * Z * NodeID :=
  (id n, peers n, state n, currentTerm n, votedFor n).

Lemma frame_role n n' : frame n n' → role n' = role n.
Proof. intros []. unfold role. congruence. Qed.

Lemma apply_loop_frame reads fuel n n' : apply_loop reads fuel n = Some n' → frame n n'.
Proof.
  revert n. induction fuel as [|fuel IH]; intros n; simpl; [by intros [= ->]|].
  destruct (_ <? _); [|by intros [= ->]].
  intros (e & _ & H)%bind_Some. etrans; [|by eapply IH]. by split.
Qed.

Lemma commit_round_frame reads i n n' : commit_round reads i n = Some n' → frame n n'.
Proof.
  unfold commit_round. intros (e & _ & H)%bind_Some.
  destruct (negb _); [by injection H as ->|]. destruct (_ <? _); [|by injection H as ->].
  apply apply_loop_frame in H. etrans; [|exact H]. by split.
Qed.

Lemma updateCommitIndex_frame reads n n' : updateCommitIndex reads n = Some n' → frame n n'.
Proof.
  unfold updateCommitIndex. generalize (seqZ (commitIndex n +64 1) (getLastLogIndex n - commitIndex n)).
  intros ks. revert n. induction ks as [|i ks IH]; intros n; simpl; [by intros [= ->]|].
  destruct (commit_round reads i n) as [n1|] eqn:H1.
  - intros H. etrans; [by eapply commit_round_frame|by apply IH].
  - intros H. exfalso. clear -H. induction ks; simpl in H; [done|auto].
Qed.

Section roles.
Context (grow : nat → nat).

Lemma accept_entries_role reads req n resp n' : accept_entries grow reads req n = Some (resp, n') → role n' = role n.
Proof.
  unfold accept_entries. intros (l & _ & H)%bind_Some.
  apply bind_Some in H as (n1 & H1 & [= <- <-]). simpl in H1.
  destruct (_ <? _); [|by injection H1 as <-]. by apply apply_loop_frame, frame_role in H1.
Qed.

Lemma append_entries_role reads req n resp n' :
  HandleAppendEntries grow reads req n = Some (resp, n') →
  id n' = id n ∧ peers n' = peers n
  ∧ ((ae_Term req < currentTerm n ∧ n' = n ∧ ar_Success resp = false)
     ∨ (currentTerm n <= ae_Term req ∧ state n' = Follower ∧ currentTerm n' = ae_Term req ∧ votedFor n' = [])).
Proof.
  unfold HandleAppendEntries. destruct (Z.ltb_spec (ae_Term req) (currentTerm n)).
  { intros [= <- <-]. split_and!; [done|done|by left]. }
  set (n1 := resetElectionTimer _).
  assert (role n' = role n1 → id n' = id n ∧ peers n' = peers n
    ∧ ((ae_Term req < currentTerm n ∧ n' = n ∧ ar_Success resp = false)
       ∨ (currentTerm n <= ae_Term req ∧ state n' = Follower ∧ currentTerm n' = ae_Term req ∧ votedFor n' = [])))
    as Hrole.
  { intros [= E1 E2 E3 E4 E5]. split_and!; [done|done|right]. split_and!; [lia|done..]. }
  intros Hres. apply Hrole. destruct (0 <? _); [|by apply accept_entries_role in Hres].
  destruct (_ <? _); [by injection Hres as <- <-|].
  apply bind_Some in Hres as (prev & _ & Hres).
  destruct (negb _); [|by apply accept_entries_role in Hres].
  by apply bind_Some in Hres as (ci & _ & [= <- <-]).
Qed.

Lemma append_reply_role reads peer term prev count resp n n' :
  append_reply reads peer term prev count resp n = Some n' →
  role n' = role n ∨ (currentTerm n < ar_Term resp ∧ n' = becomeFollower (ar_Term resp) n).
Proof.
  unfold append_reply. destruct (_ || _); [intros [= <-]; by left|].
  destruct (Z.ltb_spec (currentTerm n) (ar_Term resp)); [intros [= <-]; by right|].
  destruct (ar_Success resp).
  - intros Hf%updateCommitIndex_frame%frame_role. by left.
  - intros [= <-]. left. by destruct (_ <? _).
Qed.
End roles.

(** A vote request changes the role only by a new term or a vote. *)
Lemma request_vote_role req n resp n' :
  HandleRequestVote req n = (resp, n') →
  id n' = id n ∧ peers n' = peers n ∧ currentTerm n <= currentTerm n'
  ∧ (vr_VoteGranted resp = true → currentTerm n' = rv_Term req).
Proof.
  intros H. apply request_vote_spec in H as ([] & _ & [(?&->&->)|(?&->&_)]); split_and!; try done; lia.
Qed.
