(* ===== verification/RaftVotes.v ===== *)
(** * Elections

    In a cluster of at most three nodes the test of startElection,
    [votes > len(peers)/2+1], asks for every vote. The invariant of the votes
    given shows what that buys: one leader per term, as long as vote requests
    are made in the term of their election. *)

From S2P Require Import Prelude Raft RaftNode.

(** ** Clusters *)

(** What the cluster operations do to the table of tasks. *)
Definition fresh (c : Cluster) : Prop := ∀ tid t, tasks c !! tid = Some t → (tid < next_task c)%nat.

Lemma spawn_all_spec ts c :
  nodes (spawn_all ts c) = nodes c ∧ addrs (spawn_all ts c) = addrs c
  ∧ elections (spawn_all ts c) = elections c ∧ ballots (spawn_all ts c) = ballots c
  ∧ next_task (spawn_all ts c) = (next_task c + length ts)%nat
  ∧ (fresh c → ∀ tid t, tasks (spawn_all ts c) !! tid = Some t →
       tasks c !! tid = Some t
       ∨ (next_task c <= tid)%nat ∧ ts !! (tid - next_task c)%nat = Some t).
Proof.
  revert c. induction ts as [|t0 ts IH]; intros c; simpl.
  { split_and!; try done; try lia. auto. }
  destruct (IH (spawn t0 c)) as (-> & -> & -> & -> & -> & Ht). simpl in *.
  split_and!; try done; try lia. intros Hf tid t Htid. destruct (Ht) with (tid := tid) (t := t) as [Hold|[Hge Hnew]].
  - intros tid' t' H. simpl in *. destruct (decide (tid' = next_task c)) as [->|Hne]; [lia|].
    rewrite lookup_insert_ne in H by done. apply Hf in H. lia.
  - done.
  - destruct (decide (tid = next_task c)) as [->|Hne].
    + rewrite lookup_insert_eq in Hold. injection Hold as <-. right. rewrite Nat.sub_diag. by split.
    + rewrite lookup_insert_ne in Hold by done. by left.
  - right. split; [lia|]. by replace (tid - next_task c)%nat with (S (tid - S (next_task c))) by lia.
Qed.

Lemma spawn_all_fresh ts c : fresh c → fresh (spawn_all ts c).
Proof.
  intros Hf tid t Ht. destruct (spawn_all_spec ts c) as (_ & _ & _ & _ & -> & Hl).
  apply Hl in Ht as [H%Hf|[Hge H%lookup_lt_Some]]; [lia|lia|done].
Qed.

(** The election and the peer of a vote goroutine. *)
Definition voter_of (t : Task) : option (nat * NodeID) :=
  match t with
  | VoteStart _ p e | VoteSent _ p e _ | VoteReplied _ p e _ _ => Some (e, p)
  | _ => None
  end.

(** ** The invariant *)

Abbreviation Ballot := (NodeID * Z * NodeID)%type.

(** A candidate gives its vote of the term to nobody else. *)
Definition self_only (bs : list Ballot) : Prop :=
  ∀ i T x, (i, T, i) ∈ bs → (i, T, x) ∈ bs → x = i.

Section votes.
Context (ids : list NodeID).

(** Every node has voted for [l] in term [T]. *)
Definition elected (bs : list Ballot) (T : Z) (l : NodeID) : Prop := ∀ j, j ∈ ids → (j, T, l) ∈ bs.

Record node_inv (bs : list Ballot) (i : NodeID) (n : Node) : Prop := {
  ni_id : id n = i;
  ni_peers : peers n = filter (λ p, p ≠ i) ids;
  ni_term : 0 <= currentTerm n;
  ni_past : ∀ T x, (i, T, x) ∈ bs → T <= currentTerm n;
  ni_vote : votedFor n ≠ [] → (i, currentTerm n, votedFor n) ∈ bs;
  ni_self : (i, currentTerm n, i) ∈ bs → votedFor n = i;
  ni_cand : state n ≠ Follower → (i, currentTerm n, i) ∈ bs;
  ni_leader : state n = Leader → elected bs (currentTerm n) i;
}.

Record election_inv (bs : list Ballot) (el : Election) : Prop := {
  ei_votes : votesReceived el = 1 + zlen (counted el);
  ei_nodup : NoDup (counted el);
  ei_counted : ∀ p, p ∈ counted el → p ∈ ids ∧ p ≠ el_cand el ∧ (p, el_term el, el_cand el) ∈ bs;
}.

Definition vote_task (els : list Election) (cand peer : NodeID) (e : nat) (term : Z) : Prop :=
  ∃ el, els !! e = Some el ∧ el_cand el = cand ∧ el_term el = term
    ∧ cand ∈ ids ∧ peer ∈ ids ∧ peer ≠ cand ∧ peer ∉ counted el.

Definition append_task (bs : list Ballot) (leader peer : NodeID) (term : Z) : Prop :=
  leader ∈ ids ∧ peer ∈ ids ∧ peer ≠ leader ∧ elected bs term leader.

Definition task_inv (els : list Election) (bs : list Ballot) (t : Task) : Prop :=
  match t with
  | VoteStart cand peer e => ∃ T, vote_task els cand peer e T
  | VoteSent cand peer e req => vote_task els cand peer e (rv_Term req) ∧ rv_CandidateID req = cand
  | VoteReplied cand peer e req resp =>
      vote_task els cand peer e (rv_Term req)
      ∧ (vr_VoteGranted resp = true → (peer, rv_Term req, cand) ∈ bs)
  | AppendStart leader peer => leader ∈ ids ∧ peer ∈ ids ∧ peer ≠ leader
  | AppendBuilt leader peer _ req | AppendSent leader peer _ req | AppendReplied leader peer _ req _ =>
      append_task bs leader peer (ae_Term req)
  end.

Record votes_inv (c : Cluster) : Prop := {
  vi_dom : ∀ i, is_Some (nodes c !! i) ↔ i ∈ ids;
  vi_addr : ∀ p, p ∈ ids → addrs c !! p = Some p;
  vi_fresh : fresh c;
  vi_nodes : ∀ i n, nodes c !! i = Some n → node_inv (ballots c) i n;
  vi_self : self_only (ballots c);
  vi_elections : ∀ e el, elections c !! e = Some el → election_inv (ballots c) el;
  vi_tasks : ∀ tid t, tasks c !! tid = Some t → task_inv (elections c) (ballots c) t;
  vi_unique : ∀ tid1 tid2 t1 t2 v, tasks c !! tid1 = Some t1 → tasks c !! tid2 = Some t2 →
    voter_of t1 = Some v → voter_of t2 = Some v → tid1 = tid2;
}.

(** ** Nodes *)

Lemma node_inv_role bs i n n' : role n' = role n → node_inv bs i n → node_inv bs i n'.
Proof. intros [= E1 E2 E3 E4 E5] []. split; rewrite ?E1, ?E2, ?E3, ?E4, ?E5; auto. Qed.

(** A node that moves to a later term without a vote. *)
Lemma node_inv_raise bs i n n' :
  node_inv bs i n → id n' = id n → peers n' = peers n → state n' = Follower → votedFor n' = [] →
  currentTerm n < currentTerm n' → node_inv bs i n'.
Proof.
  intros [] Hid Hps Hs Hv Ht. split; try congruence; try lia.
  - intros T x H%ni_past0. lia.
  - intros H%ni_past0. lia.
Qed.

Lemma node_inv_other bs i j T x n : j ≠ i → node_inv bs i n → node_inv ((j, T, x) :: bs) i n.
Proof.
  intros Hne []. split; try done.
  - intros T' x'. rewrite elem_of_cons. intros [[= -> -> ->]|?]; [done|eauto].
  - intros Hv. apply list_elem_of_further; auto.
  - rewrite elem_of_cons. intros [[= -> _ _]|?]; [done|auto].
  - intros Hc. apply list_elem_of_further; auto.
  - intros Hl k Hk. apply list_elem_of_further. by apply ni_leader0.
Qed.

Lemma elected_mono bs b T l : elected bs T l → elected (b :: bs) T l.
Proof. intros H j Hj. apply list_elem_of_further. auto. Qed.

Lemma election_inv_mono bs b el : election_inv bs el → election_inv (b :: bs) el.
Proof.
  intros []. split; try done. intros p (?&?&?)%ei_counted0. split_and!; try done.
  by apply list_elem_of_further.
Qed.

Lemma task_inv_mono els bs b t : task_inv els bs t → task_inv els (b :: bs) t.
Proof.
  destruct t; simpl; try done.
  - intros [H1 H2]. split; [done|]. intros ?. apply list_elem_of_further. auto.
  - intros (?&?&?&?). split_and!; try done. by apply elected_mono.
  - intros (?&?&?&?). split_and!; try done. by apply elected_mono.
  - intros (?&?&?&?). split_and!; try done. by apply elected_mono.
Qed.

(** A leader elected by all excludes other candidates of the term. *)
Lemma elected_unique c T l i :
  votes_inv c → elected (ballots c) T l → i ∈ ids → (i, T, i) ∈ ballots c → i = l.
Proof. intros Hc He Hi Hb. symmetry. eapply (vi_self _ Hc); [exact Hb|]. by apply He. Qed.

Lemma elected_term c T l i n :
  votes_inv c → elected (ballots c) T l → nodes c !! i = Some n → T <= currentTerm n.
Proof.
  intros Hc He Hn. eapply ni_past; [by eapply (vi_nodes _ Hc)|]. apply He. apply (vi_dom _ Hc). by eexists.
Qed.

Lemma leaders_agree c T l l' :
  votes_inv c → l ∈ ids → l' ∈ ids → elected (ballots c) T l → elected (ballots c) T l' → l = l'.
Proof. intros Hc Hl Hl' H1 H2. eapply elected_unique; eauto. Qed.

(** ** Operations on the cluster *)

Lemma votes_set_node c i n n' :
  votes_inv c → nodes c !! i = Some n → node_inv (ballots c) i n' → votes_inv (set_node i n' c).
Proof.
  intros [] Hn Hn'. split; simpl; try done.
  - intros j. rewrite <- vi_dom0. destruct (decide (i = j)) as [<-|Hne].
    + rewrite lookup_insert_eq, Hn. split; eauto.
    + by rewrite lookup_insert_ne.
  - intros j m. destruct (decide (i = j)) as [<-|Hne].
    + rewrite lookup_insert_eq. by intros [= <-].
    + rewrite lookup_insert_ne by done. auto.
Qed.

(** A vote is given together with the change of the node. *)
Lemma votes_ballot c i n n' T x :
  votes_inv c → nodes c !! i = Some n → node_inv ((i, T, x) :: ballots c) i n' →
  self_only ((i, T, x) :: ballots c) →
  votes_inv (record_ballot i T x (set_node i n' c)).
Proof.
  intros [] Hn Hn' Hself. split; simpl; try done.
  - intros j. rewrite <- vi_dom0. destruct (decide (i = j)) as [<-|Hne].
    + rewrite lookup_insert_eq, Hn. split; eauto.
    + by rewrite lookup_insert_ne.
  - intros j m. destruct (decide (i = j)) as [<-|Hne].
    + rewrite lookup_insert_eq. by intros [= <-].
    + rewrite lookup_insert_ne by done. intros. apply node_inv_other; auto.
  - intros e el He. apply election_inv_mono. eauto.
  - intros tid t Ht. apply task_inv_mono. eauto.
Qed.

Lemma votes_set_task c tid t t' :
  votes_inv c → tasks c !! tid = Some t → voter_of t' = voter_of t ∨ voter_of t' = None →
  task_inv (elections c) (ballots c) t' → votes_inv (set_task tid t' c).
Proof.
  intros [] Ht Hv Hi. split; simpl; try done.
  - intros k s. simpl. destruct (decide (tid = k)) as [<-|Hne]; [intros _; by eapply vi_fresh0|].
    rewrite lookup_insert_ne by done. apply vi_fresh0.
  - intros k s. destruct (decide (tid = k)) as [<-|Hne].
    + rewrite lookup_insert_eq. by intros [= <-].
    + rewrite lookup_insert_ne by done. apply vi_tasks0.
  - assert (∀ k s v, <[tid:=t']> (tasks c) !! k = Some s → voter_of s = Some v →
      ∃ s', tasks c !! k = Some s' ∧ voter_of s' = Some v) as Hold.
    { intros k s v. destruct (decide (tid = k)) as [<-|Hne].
      - rewrite lookup_insert_eq. intros [= <-] Hs. exists t. split; [done|]. destruct Hv; congruence.
      - rewrite lookup_insert_ne by done. intros. by exists s. }
    intros k1 k2 t1 t2 v H1 H2 V1 V2. destruct (Hold _ _ _ H1 V1) as (s1&?&?).
    destruct (Hold _ _ _ H2 V2) as (s2&?&?). eauto.
Qed.

Lemma votes_end_task c tid : votes_inv c → votes_inv (end_task tid c).
Proof.
  intros []. split; simpl; try done.
  - intros k s. simpl. intros [_ H]%lookup_delete_Some. eauto.
  - intros k s [_ H]%lookup_delete_Some. eauto.
  - intros k1 k2 t1 t2 v [_ H1]%lookup_delete_Some [_ H2]%lookup_delete_Some. eauto.
Qed.

(** New goroutines: each has its own pair of election and peer. *)
Lemma votes_spawn_all c ts :
  votes_inv c → (∀ t, t ∈ ts → task_inv (elections c) (ballots c) t) →
  (∀ k1 k2 t1 t2 v, ts !! k1 = Some t1 → ts !! k2 = Some t2 → voter_of t1 = Some v → voter_of t2 = Some v →
    k1 = k2) →
  (∀ t v tid t', t ∈ ts → voter_of t = Some v → tasks c !! tid = Some t' → voter_of t' = Some v → False) →
  votes_inv (spawn_all ts c).
Proof.
  intros [] Hi Hu Hn. pose proof (spawn_all_fresh ts c vi_fresh0) as Hf.
  destruct (spawn_all_spec ts c) as (En & Ea & Ee & Eb & _ & Hl).
  split; rewrite ?En, ?Ea, ?Ee, ?Eb; try done.
  - intros tid t [H|[_ H%list_elem_of_lookup_2]]%Hl; eauto.
  - intros k1 k2 t1 t2 v H1 H2 V1 V2. apply Hl in H1; [|done]. apply Hl in H2; [|done].
    destruct H1 as [H1|[G1 H1]], H2 as [H2|[G2 H2]].
    + eauto.
    + exfalso. apply list_elem_of_lookup_2 in H2. eauto.
    + exfalso. apply list_elem_of_lookup_2 in H1. eauto.
    + pose proof (Hu _ _ _ _ _ H1 H2 V1 V2). lia.
Qed.

Lemma votes_heartbeats c n :
  votes_inv c → id n ∈ ids → peers n = filter (λ p, p ≠ id n) ids → votes_inv (sendHeartbeats n c).
Proof.
  intros Hc Hid Hp. apply votes_spawn_all; [done|..].
  - intros t (p & -> & Hin)%list_elem_of_fmap. rewrite Hp in Hin. apply list_elem_of_filter in Hin as [? ?].
    simpl. auto.
  - intros k1 k2 t1 t2 v (p & Hp1 & _)%list_lookup_fmap_Some _ Hv. by rewrite Hp1 in Hv.
  - intros t v tid t' (p & -> & _)%list_elem_of_fmap. done.
Qed.

(** ** Events *)

Lemma self_only_new bs i T x :
  self_only bs → (i = x → ∀ y, (i, T, y) ∈ bs → y = i) → ((i, T, i) ∈ bs → x = i) → self_only ((i, T, x) :: bs).
Proof.
  intros Hs H1 H2 j T' y. rewrite !elem_of_cons.
  intros [?|Hj] [?|Hy]; simplify_eq; eauto.
Qed.

Lemma votes_add_election c el :
  votes_inv c → election_inv (ballots c) el → votes_inv (set_elections (elections c ++ [el]) c).
Proof.
  intros [] Hel. split; simpl; try done.
  - intros e el' [H|[_ [H <-]%list_lookup_singleton_Some]]%lookup_app_Some; eauto.
  - intros tid t H%vi_tasks0. revert H.
    assert (∀ cand peer e T', vote_task (elections c) cand peer e T' →
      vote_task (elections c ++ [el]) cand peer e T') as Hmono.
    { intros cand peer e T' (el' & Hl & H). exists el'. split; [|done]. by apply lookup_app_l_Some. }
    destruct t; simpl; try done; naive_solver.
Qed.

(** The goroutines of a new election. *)
Lemma votes_launch c i T ps :
  votes_inv c → NoDup ids → i ∈ ids → ps = filter (λ p, p ≠ i) ids →
  votes_inv (spawn_all ((λ p, VoteStart i p (length (elections c))) <$> ps)
    (set_elections (elections c ++ [mkElection i T 1 []]) c)).
Proof.
  intros Hc Hnd Hi ->. apply votes_spawn_all.
  - apply votes_add_election; [done|]. split; simpl; [done|constructor|]. intros p. by rewrite elem_of_nil.
  - intros t (p & -> & Hin)%list_elem_of_fmap. apply list_elem_of_filter in Hin as [? ?].
    eexists T, _. simpl. rewrite lookup_app_r, Nat.sub_diag by lia. split_and!; try done. apply not_elem_of_nil.
  - intros k1 k2 t1 t2 v (p1 & -> & H1)%list_lookup_fmap_Some (p2 & -> & H2)%list_lookup_fmap_Some [= <-] [= <-].
    eapply NoDup_lookup; [|done..]. by apply NoDup_filter.
  - intros t v tid t' (p & -> & _)%list_elem_of_fmap [= <-] Ht' Hv. apply (vi_tasks _ Hc) in Ht'.
    assert (∀ cand peer T', vote_task (elections c) cand peer (length (elections c)) T' → False) as Hno.
    { intros cand peer T' (el' & Hl%lookup_lt_Some & _). lia. }
    destruct t'; simpl in *; try done; naive_solver.
Qed.

Lemma votes_timeout c i c' :
  NoDup ids → votes_inv c → timely (ETimeout i) c = true → on_timeout i c = Next c' → votes_inv c'.
Proof.
  intros Hnd Hc Ht. unfold on_timeout. destruct (nodes c !! i) as [n|] eqn:Hn; [|done].
  destruct (running n); [|done]. intros [= <-].
  pose proof (vi_nodes _ Hc _ _ Hn) as []. simpl in Ht. rewrite Hn in Ht. apply Z.ltb_lt in Ht.
  assert (i ∈ ids) as Hi by (apply (vi_dom _ Hc); by eexists).
  set (n' := startElection n). assert (currentTerm n' = currentTerm n + 1) as HT.
  { unfold n', startElection. simpl. by rewrite u64_small by lia. }
  rewrite u64_small by lia. set (T := currentTerm n + 1).
  assert (∀ y, (i, T, y) ∉ ballots c) as Hnew by (intros y H%ni_past0; unfold T in H; lia).
  apply (votes_launch (record_ballot i T i (set_node i n' c))); [|done..].
  eapply votes_ballot; [done|done| |].
  - split; rewrite ?HT; try done; try lia.
    + intros T' x. rewrite elem_of_cons. intros [[= -> ->]|H%ni_past0]; unfold T; lia.
    + intros _. simpl. rewrite ni_id0. by left.
    + intros _. by left.
  - apply self_only_new; [apply (vi_self _ Hc)|intros _ y H|intros H]; by apply Hnew in H.
Qed.

(** ** Votes *)

(** With at most two peers the quorum test asks for all of them. *)
Lemma unanimity (ps qs : list NodeID) :
  (length ps <= 2)%nat → NoDup qs → (∀ q, q ∈ qs → q ∈ ps) → zlen ps `div` 2 + 1 < 1 + zlen qs →
  ∀ p, p ∈ ps → p ∈ qs.
Proof.
  intros Hlen Hnd Hsub Hq p Hp. destruct (decide (p ∈ qs)) as [|Hno]; [done|exfalso].
  assert (length (p :: qs) <= length ps)%nat as Hle.
  { apply submseteq_length, NoDup_submseteq; [by constructor|].
    intros x. rewrite elem_of_cons. intros [->|Hx]; auto. }
  simpl in Hle. unfold zlen in Hq.
  pose proof (Z.div_mod (Z.of_nat (length ps)) 2) as Hdm.
  pose proof (Z.mod_pos_bound (Z.of_nat (length ps)) 2). lia.
Qed.

Lemma filter_length_lt (i : NodeID) : i ∈ ids → NoDup ids → (S (length (filter (λ p, p ≠ i) ids)) <= length ids)%nat.
Proof.
  intros Hi Hnd. change (S (length (filter (λ p, p ≠ i) ids))) with (length (i :: filter (λ p, p ≠ i) ids)).
  apply submseteq_length, NoDup_submseteq.
  - constructor; [|by apply NoDup_filter]. rewrite list_elem_of_filter. naive_solver.
  - intros x. rewrite elem_of_cons, list_elem_of_filter. naive_solver.
Qed.

Lemma votes_count c e el p :
  votes_inv c → elections c !! e = Some el → p ∈ ids → p ≠ el_cand el → p ∉ counted el →
  (p, el_term el, el_cand el) ∈ ballots c →
  (∀ tid t, tasks c !! tid = Some t → voter_of t ≠ Some (e, p)) →
  votes_inv (set_elections (<[e := mkElection (el_cand el) (el_term el) (votesReceived el + 1) (p :: counted el)]>
    (elections c)) c).
Proof.
  intros [] He Hp Hpc Hno Hb Hfree. split; simpl; try done.
  - intros e' el'. destruct (decide (e = e')) as [<-|Hne].
    + rewrite list_lookup_insert_eq by (by eapply lookup_lt_Some). intros [= <-].
      destruct (vi_elections0 _ _ He). split; simpl.
      * rewrite zlen_cons. lia.
      * by constructor.
      * intros q. rewrite elem_of_cons. intros [->|Hq]; auto.
    + rewrite list_lookup_insert_ne by done. eauto.
  - intros tid t Ht. specialize (Hfree _ _ Ht). apply vi_tasks0 in Ht. revert Ht Hfree.
    assert (∀ cand peer e' T', Some (e', peer) ≠ Some (e, p) → vote_task (elections c) cand peer e' T' →
      vote_task (<[e := mkElection (el_cand el) (el_term el) (votesReceived el + 1) (p :: counted el)]>
        (elections c)) cand peer e' T') as Hmono.
    { intros cand peer e' T' Hne (el' & Hl & H1 & H2 & H3 & H4 & H5 & H6).
      destruct (decide (e = e')) as [<-|Hee].
      - rewrite He in Hl. injection Hl as <-. eexists. rewrite list_lookup_insert_eq by (by eapply lookup_lt_Some).
        split_and!; [done..|]. simpl. rewrite elem_of_cons. intros [->|]; done.
      - exists el'. rewrite list_lookup_insert_ne by done. by split_and!. }
    destruct t; simpl; try done; naive_solver.
Qed.

(** The last vote makes the candidate the leader of all nodes. *)
Lemma votes_become_leader c i n el :
  NoDup ids → (length ids <= 3)%nat → votes_inv c → nodes c !! i = Some n → state n = Candidate →
  election_inv (ballots c) el → el_cand el = i → el_term el = currentTerm n → quorum n < votesReceived el →
  node_inv (ballots c) i (becomeLeader n).
Proof.
  intros Hnd Hlen Hc Hn Hst [] Hi Ht Hq. pose proof (vi_nodes _ Hc _ _ Hn) as Hni.
  assert (i ∈ ids) as Hid by (apply (vi_dom _ Hc); by eexists).
  assert (elected (ballots c) (currentTerm n) i) as Hel.
  { intros j Hj. destruct (decide (j = i)) as [->|Hne].
    - apply (ni_cand _ _ _ Hni). by rewrite Hst.
    - rewrite <- Ht, <- Hi. apply ei_counted0. unfold quorum in Hq. rewrite (ni_peers _ _ _ Hni) in Hq.
      rewrite ei_votes0 in Hq. eapply unanimity; [|done| |exact Hq|].
      + pose proof (filter_length_lt i Hid Hnd). lia.
      + intros q (? & ? & _)%ei_counted0. apply list_elem_of_filter. by rewrite <- Hi.
      + by apply list_elem_of_filter. }
  destruct Hni. split; simpl; try done. intros _. apply ni_cand0. by rewrite Hst.
Qed.

Lemma votes_vote_reply c tid cand peer e req resp c' :
  NoDup ids → (length ids <= 3)%nat → votes_inv c → tasks c !! tid = Some (VoteReplied cand peer e req resp) →
  on_vote_reply cand peer e req resp (end_task tid c) = Next c' → votes_inv c'.
Proof.
  intros Hnd Hlen Hc Ht. pose proof (votes_end_task _ tid Hc) as Hc1.
  destruct (vi_tasks _ Hc _ _ Ht) as [(el & He & Hcand & Hterm & Hci & Hpi & Hpc & Hno) Hb].
  assert (∀ tid' t, tasks (end_task tid c) !! tid' = Some t → voter_of t ≠ Some (e, peer)) as Hfree.
  { intros tid' t. simpl. intros [Hne Ht']%lookup_delete_Some Hv. apply Hne.
    by eapply (vi_unique _ Hc); [exact Ht|exact Ht'| |]. }
  revert Hc1 Hfree. set (c1 := end_task tid c). intros Hc1 Hfree. unfold on_vote_reply.
  change (elections c1) with (elections c). change (nodes c1) with (nodes c). rewrite He.
  destruct (nodes c !! cand) as [n|] eqn:Hn; [|done].
  destruct (bool_decide_reflect (state n = Candidate)) as [Hst|]; simpl; [|by intros [= <-]].
  destruct (Z.eqb_spec (currentTerm n) (rv_Term req)) as [Hcur|]; simpl; [|by intros [= <-]].
  pose proof (vi_nodes _ Hc _ _ Hn) as Hni.
  destruct (Z.ltb_spec (currentTerm n) (vr_Term resp)).
  { intros [= <-]. eapply votes_set_node; [done|exact Hn|]. by eapply node_inv_raise. }
  destruct (vr_VoteGranted resp) eqn:Hg; [|by intros [= <-]].
  set (el' := mkElection _ _ _ _). assert (votes_inv (set_elections (<[e := el']> (elections c)) c1)) as Hc2.
  { apply (votes_count c1 e el peer); try done; [by rewrite Hcand|]. rewrite Hcand, Hterm. by apply Hb. }
  destruct (Z.ltb_spec (quorum n) (votesReceived el + 1)) as [Hq|]; [|by intros [= <-]].
  intros [= <-]. pose proof (ni_id _ _ _ Hni) as Hid.
  apply votes_heartbeats; simpl; [|by rewrite Hid|rewrite Hid; by apply (ni_peers _ _ _ Hni)].
  eapply votes_set_node; [done|exact Hn|].
  eapply (votes_become_leader _ cand n el'); [done|done|exact Hc2|done|done| |exact Hcand|by rewrite Hcur|exact Hq].
  apply (vi_elections _ Hc2 e el'). simpl. apply list_lookup_insert_eq. by eapply lookup_lt_Some.
Qed.

(** ** Goroutines and requests *)

Lemma votes_run c tid reads c' :
  NoDup ids → (length ids <= 3)%nat → votes_inv c → timely (ERun tid reads) c = true → on_run tid reads c = Next c' → votes_inv c'.
Proof.
  intros Hnd Hlen Hc Htm. unfold on_run. destruct (tasks c !! tid) as [t|] eqn:Ht; [|done].
  pose proof (vi_tasks _ Hc _ _ Ht) as Hti. destruct t; simpl in Hti; try done.
  - destruct Hti as (T & Hv). destruct (nodes c !! cand) as [n|] eqn:Hn; [|done]. intros [= <-].
    pose proof Hv as (el & He & Hcand & HT & _). rewrite <- HT in Hv.
    simpl in Htm. rewrite Ht, Hn, He in Htm. apply Z.eqb_eq in Htm. rewrite <- Htm in Hv.
    eapply votes_set_task; [done|done|by left|]. split; [done|]. simpl.
    by apply (ni_id _ _ _ (vi_nodes _ Hc _ _ Hn)).
  - by apply votes_vote_reply.
  - destruct (nodes c !! leader) as [n|] eqn:Hn; [|done]. unfold build_append.
    destruct (bool_decide_reflect (state n = Leader)) as [Hst|]; [|intros [= <-]; by apply votes_end_task].
    assert (∀ w req, ae_Term req = currentTerm n → votes_inv (set_task tid (AppendBuilt leader peer w req) c))
      as Hset.
    { intros w req Hreq. eapply votes_set_task; [done|done|by right|]. simpl. rewrite Hreq.
      destruct Hti as (?&?&?). split_and!; try done. by apply (ni_leader _ _ _ (vi_nodes _ Hc _ _ Hn)). }
    destruct (_ <=? _); [destruct (_ <? _)|]; try done; intros [= <-]; by apply Hset.
  - destruct (nodes c !! leader) as [n|] eqn:Hn; [|done]. intros [= <-].
    by eapply votes_set_task; [|done|right|].
  - destruct (nodes c !! leader) as [n|] eqn:Hn; [|done].
    destruct (append_reply _ _ _ _ _ _ n) as [n'|] eqn:Hr; [|done]. intros [= <-].
    pose proof (vi_nodes _ Hc _ _ Hn) as Hni.
    eapply votes_set_node; [by apply votes_end_task|exact Hn|].
    apply append_reply_role in Hr as [Hr|[Hlt ->]]; [by eapply node_inv_role|by eapply node_inv_raise].
Qed.

Lemma votes_deliver_vote c j n req resp n' :
  votes_inv c → nodes c !! j = Some n → [] ∉ ids → rv_CandidateID req ∈ ids → rv_CandidateID req ≠ j →
  HandleRequestVote req n = (resp, n') →
  votes_inv (if vr_VoteGranted resp
             then record_ballot j (rv_Term req) (rv_CandidateID req) (set_node j n' c) else set_node j n' c).
Proof.
  intros Hc Hn Hnil Hcand Hne Hres. pose proof (vi_nodes _ Hc _ _ Hn) as Hni. pose proof Hni as [].
  apply request_vote_spec in Hres as ([Hid Hps _ _ _ _] & _ & [(Hlt & -> & ->)|(Hle & Ht & Hst & _ & _ & Hv)]).
  { by eapply votes_set_node. }
  destruct (vr_VoteGranted resp).
  - destruct Hv as [Hv Hfree].
    assert ((j, rv_Term req, j) ∉ ballots c) as Hself.
    { intros Hb. pose proof (ni_past0 _ _ Hb). assert (currentTerm n = rv_Term req) as E by lia.
      rewrite <- E in Hb. apply ni_self0 in Hb. destruct (Hfree E) as [E'|E']; [|congruence].
      rewrite E' in Hb. apply Hnil. rewrite Hb. apply (vi_dom _ Hc). by eexists. }
    eapply votes_ballot; [done|done| |].
    + split; rewrite ?Ht, ?Hv; try congruence; try lia.
      * intros T' x. rewrite elem_of_cons. intros [[= -> _]|H%ni_past0]; lia.
      * intros _. by left.
      * rewrite elem_of_cons. intros [[= E]|]; done.
      * rewrite Hst. destruct (Z.ltb_spec (currentTerm n) (rv_Term req)); [done|].
        intros Hc1. apply ni_cand0 in Hc1. by replace (currentTerm n) with (rv_Term req) in Hc1 by lia.
      * rewrite Hst. destruct (Z.ltb_spec (currentTerm n) (rv_Term req)); [done|].
        intros Hl. apply elected_mono. replace (rv_Term req) with (currentTerm n) by lia. auto.
    + by apply self_only_new; [apply (vi_self _ Hc)|intros E; by destruct Hne|].
  - eapply votes_set_node; [done|done|]. destruct (Z.ltb_spec (currentTerm n) (rv_Term req)).
    + eapply node_inv_raise; eauto. lia.
    + apply (node_inv_role _ _ n); [|done]. unfold role. rewrite Hid, Hps, Hst, Ht, Hv.
      by replace (rv_Term req) with (currentTerm n) by lia.
Qed.

(** A request of a leader finds its term at the peer, and no other candidate. *)
Lemma votes_deliver_append c j n l req resp n' grow reads :
  votes_inv c → nodes c !! j = Some n → append_task (ballots c) l j (ae_Term req) →
  HandleAppendEntries grow reads req n = Some (resp, n') → node_inv (ballots c) j n'.
Proof.
  intros Hc Hn (Hl & Hj & Hne & Hel) Hres. pose proof (vi_nodes _ Hc _ _ Hn) as Hni.
  apply append_entries_role in Hres as (Hid & Hps & [(_ & -> & _)|(Hle & Hst & Ht & Hv)]); [done|].
  pose proof (elected_term _ _ _ _ _ Hc Hel Hn) as Hge.
  assert ((j, ae_Term req, j) ∉ ballots c) as Hself.
  { intros Hb. apply Hne. by eapply elected_unique. }
  destruct Hni. split; rewrite ?Ht, ?Hst, ?Hv; try congruence; try done; try lia.
  intros T x H%ni_past0. lia.
Qed.

Lemma votes_deliver c tid answered reads c' grow :
  [] ∉ ids → votes_inv c → on_deliver grow tid answered reads c = Next c' → votes_inv c'.
Proof.
  intros Hnil Hc. unfold on_deliver. destruct (tasks c !! tid) as [t|] eqn:Ht; [|done].
  pose proof (vi_tasks _ Hc _ _ Ht) as Hti. destruct t as [|cand peer e req| | | |l peer count req|]; try done.
  - destruct Hti as [(el & He & Hcand & HT & Hci & Hpi & Hpc & Hno) Hreq].
    rewrite (vi_addr _ Hc) by done. destruct (nodes c !! peer) as [n|] eqn:Hn; [|done].
    destruct (HandleRequestVote req n) as [resp n'] eqn:Hres. intros [= <-].
    assert (votes_inv (if vr_VoteGranted resp
      then record_ballot peer (rv_Term req) (rv_CandidateID req) (set_node peer n' c) else set_node peer n' c)) as Hc1.
    { eapply votes_deliver_vote; [done|exact Hn|done|by rewrite Hreq|by rewrite Hreq|done]. }
    destruct answered; [|done]. eapply (votes_set_task _ tid (VoteSent cand peer e req)); [done| |by left|].
    + destruct (vr_VoteGranted resp); exact Ht.
    + split.
      * destruct (vr_VoteGranted resp); by exists el.
      * intros ->. rewrite Hreq. by left.
  - pose proof Hti as (Hl & Hpi & Hpc & Hel). rewrite (vi_addr _ Hc) by done.
    destruct (nodes c !! peer) as [n|] eqn:Hn; [|done].
    destruct (HandleAppendEntries grow reads req n) as [[resp n']|] eqn:Hres; [|done]. intros [= <-].
    assert (votes_inv (set_node peer n' c)) as Hc1.
    { eapply votes_set_node; [done|done|]. by eapply votes_deliver_append. }
    destruct answered; [|done]. by eapply votes_set_task; [|exact Ht|by left|].
Qed.

Lemma votes_propose c i cmd c' grow : votes_inv c → on_propose grow i cmd c = Next c' → votes_inv c'.
Proof.
  intros Hc. unfold on_propose. destruct (nodes c !! i) as [n|] eqn:Hn; [|done].
  pose proof (vi_nodes _ Hc _ _ Hn) as Hni. pose proof (ni_id _ _ _ Hni) as Hid. unfold Propose.
  destruct (bool_decide _); intros [= <-]; [|done].
  apply votes_heartbeats; simpl; rewrite ?Hid; [|apply (vi_dom _ Hc); by eexists|by apply (ni_peers _ _ _ Hni)].
  eapply votes_set_node; [exact Hc|exact Hn|]. by apply (node_inv_role _ _ n).
Qed.

Lemma votes_exec grow ev c c' :
  NoDup ids → [] ∉ ids → (length ids <= 3)%nat → votes_inv c → timely ev c = true → exec grow ev c = Next c' →
  votes_inv c'.
Proof.
  intros Hnd Hnil Hlen Hc Htm. destruct ev; simpl.
  - by apply votes_timeout.
  - unfold on_heartbeat. destruct (nodes c !! i) as [n|] eqn:Hn; [|done].
    pose proof (vi_nodes _ Hc _ _ Hn) as Hni. pose proof (ni_id _ _ _ Hni) as Hid.
    destruct (_ && _); [|done]. destruct (bool_decide _); intros [= <-].
    + apply votes_heartbeats; rewrite ?Hid; [done|apply (vi_dom _ Hc); by eexists|by apply (ni_peers _ _ _ Hni)].
    + eapply votes_set_node; [exact Hc|exact Hn|]. by apply (node_inv_role _ _ n).
  - apply votes_propose. done.
  - by apply votes_run.
  - by apply votes_deliver.
  - destruct (tasks c !! tid); [|done]. intros [= <-]. by apply votes_end_task.
  - unfold on_apply. destruct (nodes c !! i) as [n|] eqn:Hn; [|done]. destruct (applyCh n); [done|].
    intros [= <-]. eapply votes_set_node; [done|done|]. eapply node_inv_role; [|by apply (vi_nodes _ Hc)]. done.
  - destruct (nodes c !! i) as [n|] eqn:Hn; [|done]. intros [= <-].
    eapply votes_set_node; [done|done|]. eapply node_inv_role; [|by apply (vi_nodes _ Hc)]. done.
Qed.

Lemma new_cluster_lookup i n :
  NoDup ids → nodes (NewCluster ids) !! i = Some n ↔ i ∈ ids ∧ n = NewNode i (filter (λ p, p ≠ i) ids).
Proof.
  intros Hnd. unfold NewCluster. simpl. rewrite <- elem_of_list_to_map.
  - rewrite list_elem_of_fmap. naive_solver.
  - rewrite <- list_fmap_compose. by rewrite (list_fmap_ext _ (λ x, x)), list_fmap_id by done.
Qed.

Lemma votes_init : NoDup ids → votes_inv (NewCluster ids).
Proof.
  intros Hnd. split; simpl; try done.
  - intros i. split.
    + intros [n Hn]. by apply (new_cluster_lookup i n Hnd) in Hn as [? _].
    + intros Hi. eexists. by apply (new_cluster_lookup i _ Hnd).
  - intros p Hp. apply elem_of_list_to_map.
    + rewrite <- list_fmap_compose. by rewrite (list_fmap_ext _ (λ x, x)), list_fmap_id by done.
    + apply list_elem_of_fmap. by exists p.
  - intros i n [Hi ->]%(new_cluster_lookup i n Hnd). split; simpl; try done.
    + intros T x. by rewrite elem_of_nil.
    + by rewrite elem_of_nil.
  - intros i T x. by rewrite elem_of_nil.
Qed.

Lemma votes_reachable grow c :
  NoDup ids → [] ∉ ids → (length ids <= 3)%nat → rtc (timely_step grow) (NewCluster ids) c → votes_inv c.
Proof.
  intros Hnd Hnil Hlen Hr. eapply (rtc_ind_r votes_inv); [by apply votes_init| |exact Hr].
  intros c1 c2 _ (ev & Htm & Hex) Hc1. by eapply votes_exec.
Qed.
End votes.
