(* ===== verification/RaftLogs.v ===== *)
(** * Logs

    The invariant of the logs of a cluster of at most three nodes. The proof
    keeps two things the nodes do not: the log of each leader, by term, and the
    list of committed entries. Requests and answers of earlier terms need no
    invariant once every node has left the term. *)

From S2P Require Import Prelude Raft RaftNode RaftVotes.

(** The leader of a term and its log, as far as it got. *)
Abbreviation Leaders := (gmap Z (NodeID * list LogEntry)).

(** Each entry of the log came with what precedes it from the leader of its
    term. *)
Definition consistent (L : Leaders) (l : list LogEntry) : Prop :=
  ∀ i e, l !! i = Some e → ∃ x lg, L !! le_Term e = Some (x, lg) ∧ take (S i) l `prefix_of` lg.

Definition extends (L L' : Leaders) : Prop :=
  ∀ T x lg, L !! T = Some (x, lg) → ∃ lg', L' !! T = Some (x, lg') ∧ lg `prefix_of` lg'.

#[global] Instance extends_refl : Reflexive extends.
Proof. intros L T x lg H. by exists lg. Qed.

Lemma take_of_prefix {A} (a : nat) (l1 l2 : list A) :
  l1 `prefix_of` l2 → (a <= length l1)%nat → take a l2 = take a l1.
Proof. intros [k ->] Ha. by rewrite take_app_le. Qed.

Lemma prefix_take_eq {A} (l1 l2 : list A) : l1 `prefix_of` l2 → l1 = take (length l1) l2.
Proof. intros [k ->]. by rewrite take_app_length. Qed.

Lemma prefix_take {A} (a : nat) (l : list A) : take a l `prefix_of` l.
Proof. exists (drop a l). by rewrite take_drop. Qed.

Lemma lookup_in_prefix {A} (l l' : list A) i x :
  l `prefix_of` l' → l' !! i = Some x → (i < length l)%nat → l !! i = Some x.
Proof. intros [k ->] Hx Hi. by rewrite lookup_app_l in Hx. Qed.

(** Two prefixes of the same list are comparable. *)
Lemma prefix_compare {A} (l1 l2 l : list A) :
  l1 `prefix_of` l → l2 `prefix_of` l → (length l1 <= length l2)%nat → l1 `prefix_of` l2.
Proof.
  intros H1 H2 Hle. rewrite (prefix_take_eq _ _ H1), (prefix_take_eq _ _ H2).
  exists (drop (length l1) (take (length l2) l)).
  rewrite <- (take_drop (length l1) (take (length l2) l)) at 1. f_equal. rewrite take_take. f_equal. lia.
Qed.

Lemma consistent_matching L l1 l2 : consistent L l1 → consistent L l2 → matching l1 l2.
Proof.
  intros H1 H2 i e1 e2 He1 He2 Ht. destruct (H1 _ _ He1) as (x & lg & HL & Hp1).
  destruct (H2 _ _ He2) as (x' & lg' & HL' & Hp2). rewrite Ht, HL' in HL. injection HL as -> ->.
  apply prefix_take_eq in Hp1, Hp2. rewrite Hp1, Hp2, !length_take.
  apply lookup_lt_Some in He1, He2. by rewrite !Nat.min_l by lia.
Qed.

Lemma consistent_mono L L' l : extends L L' → consistent L l → consistent L' l.
Proof.
  intros He Hc i e Hi. destruct (Hc _ _ Hi) as (x & lg & HL & Hp).
  destruct (He _ _ _ HL) as (lg' & HL' & Hp'). exists x, lg'. split; [done|]. by etrans.
Qed.

Lemma consistent_prefix L l l' : l' `prefix_of` l → consistent L l → consistent L l'.
Proof.
  intros [k ->] Hc i e Hi. assert (i < length l')%nat as Hlt by (by eapply lookup_lt_Some).
  destruct (Hc i e) as (x & lg & HL & Hp); [by apply lookup_app_l_Some|].
  exists x, lg. split; [done|]. by rewrite take_app_le in Hp by lia.
Qed.

(** A leader's new entry. *)
Lemma consistent_snoc L T x l e :
  consistent L l → le_Term e = T → L !! T = Some (x, l ++ [e]) → consistent L (l ++ [e]).
Proof.
  intros Hc Ht HL i e' [Hi|[Hge Hi]]%lookup_app_Some.
  - destruct (Hc _ _ Hi) as (y & lg & HL' & Hp). exists y, lg. split; [done|].
    apply lookup_lt_Some in Hi. by rewrite take_app_le by lia.
  - apply list_lookup_singleton_Some in Hi as [_ <-]. exists x, (l ++ [e]). rewrite Ht. split; [done|].
    apply prefix_take.
Qed.

(** Every node has left the term. *)
Definition past (ns : gmap NodeID Node) (T : Z) : Prop := ∀ i n, ns !! i = Some n → T < currentTerm n.

(** The request carries a part of the leader's log with the right predecessor. *)
Definition sound (lg : list LogEntry) (prev prevTerm : Z) (es : list LogEntry) : Prop :=
  0 <= prev ∧ ∃ M, M `prefix_of` lg ∧ (Z.to_nat prev <= length M)%nat ∧ es = drop (Z.to_nat prev) M
    ∧ (0 < prev → ∃ e, M !! Z.to_nat (prev - 1) = Some e ∧ le_Term e = prevTerm).

Lemma sound_mono lg lg' prev pt es : lg `prefix_of` lg' → sound lg prev pt es → sound lg' prev pt es.
Proof. intros Hp (H0 & M & HM & H). split; [done|]. exists M. split; [by etrans|done]. Qed.

(** Node [p] holds the first [a] entries of the leader's log. *)
Definition holds (a : nat) (lg : list LogEntry) (ns : gmap NodeID Node) (p : NodeID) : Prop :=
  (a <= length lg)%nat ∧ ∃ n, ns !! p = Some n ∧ take a lg `prefix_of` entries (log n).

Lemma holds_mono a lg lg' ns p : lg `prefix_of` lg' → holds a lg ns p → holds a lg' ns p.
Proof.
  intros Hp (Ha & n & Hn & Ht). split; [apply prefix_length in Hp; lia|]. exists n. split; [done|].
  by rewrite (take_of_prefix _ _ _ Hp).
Qed.

Definition task_good (L : Leaders) (C : list LogEntry) (ns : gmap NodeID Node) (t : Task) : Prop :=
  match t with
  | AppendBuilt l p w req =>
      past ns (ae_Term req) ∨ ∃ lg n, L !! ae_Term req = Some (l, lg) ∧ ns !! l = Some n ∧ covers (log n) w
        ∧ sound lg (ae_PrevLogIndex req) (ae_PrevLogTerm req) (read_window (log n) w)
        ∧ length (read_window (log n) w) = (w_hi w - w_lo w)%nat ∧ 0 <= ae_LeaderCommit req <= zlen C
  | AppendSent l p count req =>
      past ns (ae_Term req) ∨ ∃ lg, L !! ae_Term req = Some (l, lg)
        ∧ sound lg (ae_PrevLogIndex req) (ae_PrevLogTerm req) (ae_Entries req)
        ∧ count = zlen (ae_Entries req) ∧ 0 <= ae_LeaderCommit req <= zlen C
  | AppendReplied l p count req resp =>
      past ns (ae_Term req) ∨ (ar_Success resp = true → ∃ lg, L !! ae_Term req = Some (l, lg)
        ∧ 0 <= ae_PrevLogIndex req ∧ 0 <= count ∧ holds (Z.to_nat (ae_PrevLogIndex req + count)) lg ns p)
  | _ => True
  end.

Record node_good (L : Leaders) (C : list LogEntry) (ns : gmap NodeID Node) (i : NodeID) (n : Node) : Prop := {
  ng_log : log_ok (log n);
  ng_len : zlen (entries (log n)) < 2 ^ 63;
  ng_consistent : consistent L (entries (log n));
  ng_leader : state n = Leader → L !! currentTerm n = Some (i, entries (log n));
  ng_only : ∀ lg, L !! currentTerm n = Some (i, lg) → state n = Leader;
  ng_prefix : C `prefix_of` entries (log n);
  ng_commit : 0 <= commitIndex n <= zlen C;
  ng_applied : lastApplied n = commitIndex n;
  ng_msgs : Forall (msg_of C (zlen C)) (applied n);
  ng_next : state n = Leader → ∀ p, p ∈ peers n → ∃ k m, nextIndex n !! p = Some k
    ∧ 1 <= k <= zlen (entries (log n)) + 1 ∧ matchIndex n !! p = Some m ∧ 0 <= m
    ∧ holds (Z.to_nat m) (entries (log n)) ns p;
}.

Record leader_good (ids : list NodeID) (L : Leaders) (C : list LogEntry) (ns : gmap NodeID Node)
    (bs : list Ballot) (T : Z) (x : NodeID) (lg : list LogEntry) : Prop := {
  lg_id : x ∈ ids;
  lg_elected : elected ids bs T x;
  lg_consistent : consistent L lg;
  lg_len : zlen lg < 2 ^ 63;
  lg_prefix : past ns T ∨ C `prefix_of` lg;
}.

Record logs_inv (ids : list NodeID) (L : Leaders) (C : list LogEntry) (c : Cluster) : Prop := {
  li_nodes : ∀ i n, nodes c !! i = Some n → node_good L C (nodes c) i n;
  li_leaders : ∀ T x lg, L !! T = Some (x, lg) → leader_good ids L C (nodes c) (ballots c) T x lg;
  li_tasks : ∀ tid t, tasks c !! tid = Some t → task_good L C (nodes c) t;
}.

(** ** Changes that keep what others rely on *)

Record evolves (L L' : Leaders) (C C' : list LogEntry) (ns ns' : gmap NodeID Node) : Prop := {
  ev_terms : ∀ i n', ns' !! i = Some n' → ∃ n, ns !! i = Some n ∧ currentTerm n <= currentTerm n';
  ev_nodes : ∀ i n, ns !! i = Some n → is_Some (ns' !! i);
  ev_leaders : extends L L';
  ev_committed : zlen C <= zlen C';
  ev_windows : ∀ T x lg, L !! T = Some (x, lg) → past ns' T ∨ ∀ n n' w, ns !! x = Some n → ns' !! x = Some n' →
    covers (log n) w → covers (log n') w ∧ read_window (log n') w = read_window (log n) w;
  ev_holds : ∀ T x lg p a, L !! T = Some (x, lg) → holds a lg ns p → past ns' T ∨ holds a lg ns' p;
}.

Section evolves.
Context {L L' : Leaders} {C C' : list LogEntry} {ns ns' : gmap NodeID Node}.
Context (Hev : evolves L L' C C' ns ns').

Lemma past_evolves T : past ns T → past ns' T.
Proof. intros Hp i n' Hn'. destruct (ev_terms _ _ _ _ _ _ Hev _ _ Hn') as (n & Hn & Ht). apply Hp in Hn. lia. Qed.

Lemma task_good_evolves t : task_good L C ns t → task_good L' C' ns' t.
Proof.
  pose proof (ev_committed _ _ _ _ _ _ Hev) as HC.
  destruct t as [| | | |l p w req|l p count req|l p count req resp]; simpl; try done.
  - intros [Hp|(lg & n & HL & Hn & Hw & Hs & Hlen & Hlc)]; [left; by apply past_evolves|].
    destruct (ev_windows _ _ _ _ _ _ Hev _ _ _ HL) as [Hp|Hwin]; [by left|right].
    destruct (ev_leaders _ _ _ _ _ _ Hev _ _ _ HL) as (lg' & HL' & Hpre).
    destruct (ev_nodes _ _ _ _ _ _ Hev _ _ Hn) as [n' Hn'].
    destruct (Hwin _ _ _ Hn Hn' Hw) as [Hw' Hr]. exists lg', n'. rewrite Hr.
    split_and!; try done; try lia. by eapply sound_mono.
  - intros [Hp|(lg & HL & Hs & Hc & Hlc)]; [left; by apply past_evolves|right].
    destruct (ev_leaders _ _ _ _ _ _ Hev _ _ _ HL) as (lg' & HL' & Hpre).
    exists lg'. split_and!; try done; try lia. by eapply sound_mono.
  - intros [Hp|Hack]; [left; by apply past_evolves|].
    destruct (ar_Success resp); [|by right].
    destruct (Hack eq_refl) as (lg & HL & Hpv & Hc & Hh).
    destruct (ev_holds _ _ _ _ _ _ Hev _ _ _ _ _ HL Hh) as [Hp|Hh']; [by left|right].
    destruct (ev_leaders _ _ _ _ _ _ Hev _ _ _ HL) as (lg' & HL' & Hpre).
    intros _. exists lg'. split_and!; try done. by eapply holds_mono.
Qed.

Lemma msg_of_prefix l l' k m : l `prefix_of` l' → k <= zlen l → msg_of l k m → msg_of l' (zlen l') m.
Proof.
  intros Hp Hk ([H1 H2] & e & He & Hc). pose proof (prefix_length _ _ Hp). split; [unfold zlen in *; lia|].
  exists e. split; [by eapply prefix_lookup_Some|done].
Qed.

(** A node that did not change. *)
Lemma node_good_other j n :
  node_good L C ns j n → ns' !! j = Some n → C `prefix_of` C' → C' `prefix_of` entries (log n) →
  (∀ lg, L' !! currentTerm n = Some (j, lg) → L !! currentTerm n = Some (j, lg)) →
  (state n = Leader → L' !! currentTerm n = L !! currentTerm n) →
  node_good L' C' ns' j n.
Proof.
  intros [] Hn' HC HC' Honly Hlead. split; try done.
  - eapply consistent_mono; [by apply (ev_leaders _ _ _ _ _ _ Hev)|done].
  - intros Hst. rewrite Hlead by done. auto.
  - intros lg Hlg. by eapply ng_only0, Honly.
  - pose proof (ev_committed _ _ _ _ _ _ Hev). lia.
  - eapply Forall_impl; [exact ng_msgs0|]. intros m Hm. by eapply msg_of_prefix.
  - intros Hst p Hp. destruct (ng_next0 Hst p Hp) as (k & m & Hk & Hkb & Hm & Hmb & Hh).
    exists k, m. split_and!; try done; try lia.
    destruct (ev_holds _ _ _ _ _ _ Hev _ _ _ _ _ (ng_leader0 Hst) Hh) as [Hpast|]; [|done].
    apply Hpast in Hn'. lia.
Qed.
End evolves.

Lemma evolves_set L L' C C' ns i n n' :
  ns !! i = Some n → currentTerm n <= currentTerm n' → extends L L' → zlen C <= zlen C' →
  (∀ T lg, L !! T = Some (i, lg) → past (<[i := n']> ns) T ∨
    ∀ w, covers (log n) w → covers (log n') w ∧ read_window (log n') w = read_window (log n) w) →
  (∀ T x lg a, L !! T = Some (x, lg) → take a lg `prefix_of` entries (log n) →
    past (<[i := n']> ns) T ∨ take a lg `prefix_of` entries (log n')) →
  evolves L L' C C' ns (<[i := n']> ns).
Proof.
  intros Hn Ht HL HC Hw Hh. split; try done.
  - intros j m'. destruct (decide (i = j)) as [<-|Hne].
    + rewrite lookup_insert_eq. intros [= <-]. by exists n.
    + rewrite lookup_insert_ne by done. intros. by exists m'.
  - intros j m. destruct (decide (i = j)) as [<-|Hne].
    + by rewrite lookup_insert_eq.
    + by rewrite lookup_insert_ne.
  - intros T x lg HLx. destruct (decide (i = x)) as [<-|Hne].
    + destruct (Hw _ _ HLx) as [Hp|Hw']; [by left|right]. intros m m' w Hm. rewrite lookup_insert_eq.
      intros [= <-]. rewrite Hn in Hm. injection Hm as <-. auto.
    + right. intros m m' w Hm. rewrite lookup_insert_ne, Hm by done. by intros [= <-].
  - intros T x lg p a HLx (Ha & m & Hm & Hpre). destruct (decide (i = p)) as [<-|Hne].
    + rewrite Hn in Hm. injection Hm as <-. destruct (Hh _ _ _ _ HLx Hpre) as [|Hpre']; [by left|right].
      split; [done|]. exists n'. by rewrite lookup_insert_eq.
    + right. split; [done|]. exists m. by rewrite lookup_insert_ne.
Qed.

Lemma evolves_same_log L L' C C' ns i n n' :
  ns !! i = Some n → currentTerm n <= currentTerm n' → extends L L' → zlen C <= zlen C' → log n' = log n →
  evolves L L' C C' ns (<[i := n']> ns).
Proof.
  intros Hn Ht HL HC Hlog. apply (evolves_set _ _ _ _ _ i n); try done; rewrite Hlog; intros; by right.
Qed.

Section logs.
Context (ids : list NodeID).

Lemma logs_update L L' C C' c i n n' :
  logs_inv ids L C c → nodes c !! i = Some n → C `prefix_of` C' →
  evolves L L' C C' (nodes c) (<[i := n']> (nodes c)) →
  node_good L' C' (<[i := n']> (nodes c)) i n' →
  (∀ j m, j ≠ i → nodes c !! j = Some m → C' `prefix_of` entries (log m)
    ∧ (∀ lg, L' !! currentTerm m = Some (j, lg) → L !! currentTerm m = Some (j, lg))
    ∧ (state m = Leader → L' !! currentTerm m = L !! currentTerm m)) →
  (∀ T x lg, L' !! T = Some (x, lg) → leader_good ids L' C' (<[i := n']> (nodes c)) (ballots c) T x lg) →
  logs_inv ids L' C' (set_node i n' c).
Proof.
  intros [] Hn HC Hev Hgood Hothers Hleaders. split; simpl; try done.
  - intros j m. destruct (decide (i = j)) as [<-|Hne].
    + rewrite lookup_insert_eq. by intros [= <-].
    + rewrite lookup_insert_ne by done. intros Hm.
      destruct (Hothers j m) as (H1 & H2 & H3); [done..|].
      eapply (node_good_other Hev); eauto. by rewrite lookup_insert_ne.
  - intros tid t Ht. eapply (task_good_evolves Hev). eauto.
Qed.

(** Changes of tasks, elections and ballots. *)
Lemma logs_tasks L C c c' :
  logs_inv ids L C c → nodes c' = nodes c → (∀ b, b ∈ ballots c → b ∈ ballots c') →
  (∀ tid t, tasks c' !! tid = Some t → (∃ k, tasks c !! k = Some t) ∨ task_good L C (nodes c) t) →
  logs_inv ids L C c'.
Proof.
  intros [] Hns Hbs Hts. split; rewrite ?Hns; try done.
  - intros T x lg HL. destruct (li_leaders0 _ _ _ HL). split; try done. intros j Hj. auto.
  - intros tid t [[k Hk]|]%Hts; eauto.
Qed.

Lemma logs_set_task L C c tid t :
  logs_inv ids L C c → task_good L C (nodes c) t → logs_inv ids L C (set_task tid t c).
Proof.
  intros Hc Ht. eapply logs_tasks; [exact Hc|done..|]. simpl. intros k s.
  destruct (decide (tid = k)) as [<-|Hne].
  - rewrite lookup_insert_eq. intros [= <-]. by right.
  - rewrite lookup_insert_ne by done. left. by exists k.
Qed.

Lemma logs_end_task L C c tid : logs_inv ids L C c → logs_inv ids L C (end_task tid c).
Proof.
  intros Hc. eapply logs_tasks; [exact Hc|done..|]. simpl. intros k s [_ Hs]%lookup_delete_Some. left. by exists k.
Qed.

Lemma logs_spawn_all L C c ts :
  logs_inv ids L C c → fresh c → (∀ t, t ∈ ts → task_good L C (nodes c) t) → logs_inv ids L C (spawn_all ts c).
Proof.
  intros Hc Hf Hts. destruct (spawn_all_spec ts c) as (Hn & _ & _ & Hb & _ & Hl).
  eapply logs_tasks; [exact Hc|done|by rewrite Hb|]. intros tid t [H|[_ H]]%Hl; [| |done].
  - left. by exists tid.
  - right. apply Hts. by eapply list_elem_of_lookup_2.
Qed.

Lemma logs_heartbeats L C c n : logs_inv ids L C c → fresh c → logs_inv ids L C (sendHeartbeats n c).
Proof. intros Hc Hf. apply logs_spawn_all; [done..|]. by intros t (p & -> & _)%list_elem_of_fmap. Qed.

(** ** Changes of role *)

Definition quiet (n n' : Node) : Prop :=
  same_data n n' ∧ (state n' = Leader → nextIndex n' = nextIndex n ∧ matchIndex n' = matchIndex n)
  ∧ ((state n' = state n ∧ currentTerm n' = currentTerm n)
     ∨ (currentTerm n < currentTerm n' ∧ state n' ≠ Leader)).

Lemma quiet_role n n' :
  same_data n n' → nextIndex n' = nextIndex n → matchIndex n' = matchIndex n → role n' = role n → quiet n n'.
Proof. intros ? ? ? [= ? ? ? ? ?]. split_and!; auto. Qed.

Lemma quiet_raise n T : currentTerm n < T → quiet n (becomeFollower T n).
Proof. intros Ht. split_and!; try done. by right. Qed.

Lemma leader_good_update L C ns i n n' bs T x lg :
  ns !! i = Some n → currentTerm n <= currentTerm n' → leader_good ids L C ns bs T x lg →
  leader_good ids L C (<[i := n']> ns) bs T x lg.
Proof.
  intros Hn Ht []. split; try done. destruct lg_prefix0 as [Hp|]; [left|by right].
  intros j m. destruct (decide (i = j)) as [<-|Hne].
  - rewrite lookup_insert_eq. intros [= <-]. apply Hp in Hn. lia.
  - rewrite lookup_insert_ne by done. apply Hp.
Qed.

Lemma logs_quiet L C c i n n' :
  votes_inv ids c → logs_inv ids L C c → nodes c !! i = Some n → quiet n n' →
  logs_inv ids L C (set_node i n' c).
Proof.
  intros Hv Hc Hn ([Hid Hps Hlog Hcom Hla Hap] & Hidx & Hrole).
  assert (currentTerm n <= currentTerm n') as Hterm by (destruct Hrole as [[_ ->]|[? _]]; lia).
  assert (evolves L L C C (nodes c) (<[i := n']> (nodes c))) as Hev by (by eapply evolves_same_log).
  apply (logs_update L L C C c i n); try done.
  - destruct (li_nodes _ _ _ _ Hc _ _ Hn). split; rewrite ?Hlog, ?Hcom, ?Hla, ?Hap, ?Hps; try done.
    + intros Hst. destruct Hrole as [[Es Et]|[_ Hno]]; [|done]. rewrite Et. apply ng_leader0. by rewrite <- Es.
    + intros lg HL. destruct Hrole as [[-> Et]|[Hlt _]]; [rewrite Et in HL; eauto|].
      destruct (li_leaders _ _ _ _ Hc _ _ _ HL). pose proof (elected_term _ _ _ _ _ _ Hv lg_elected0 Hn). lia.
    + intros Hst p Hp. destruct (Hidx Hst) as [-> ->]. destruct Hrole as [[Es Et]|[_ Hno]]; [|done]. rewrite Es in Hst.
      destruct (ng_next0 Hst p Hp) as (k & m & ? & ? & ? & ? & Hh). exists k, m. split_and!; try done; try lia.
      destruct (ev_holds _ _ _ _ _ _ Hev _ _ _ _ _ (ng_leader0 Hst) Hh) as [Hpast|]; [|done].
      specialize (Hpast i n'). rewrite lookup_insert_eq in Hpast. specialize (Hpast eq_refl). lia.
  - intros j m _ Hm. split_and!; try done. by apply (li_nodes _ _ _ _ Hc _ _ Hm).
  - intros T x lg HL. eapply leader_good_update; [done|done|]. by apply (li_leaders _ _ _ _ Hc).
Qed.

(** ** The leader *)

Lemma fold_insert_lookup (ps : list NodeID) (v : Z) (m : gmap NodeID Z) p :
  fold_left (λ m q, <[q := v]> m) ps m !! p = if decide (p ∈ ps) then Some v else m !! p.
Proof.
  revert m. induction ps as [|q ps IH]; intros m; simpl; [done|]. rewrite IH.
  destruct (decide (p ∈ ps)) as [Hp|Hp]; [by rewrite decide_True by (by right)|].
  destruct (decide (p = q)) as [->|Hne]; [by rewrite lookup_insert_eq, decide_True by (by left)|].
  rewrite lookup_insert_ne, decide_False; [done| |done]. by intros [|]%elem_of_cons.
Qed.

(** A new leader finds its term free. *)
Lemma candidate_term_free L C c i n :
  votes_inv ids c → logs_inv ids L C c → nodes c !! i = Some n → state n = Candidate → L !! currentTerm n = None.
Proof.
  intros Hv Hc Hn Hst. destruct (L !! currentTerm n) as [[x lg]|] eqn:HL; [exfalso|done].
  destruct (li_leaders _ _ _ _ Hc _ _ _ HL). destruct (vi_nodes _ _ Hv _ _ Hn).
  assert (i = x) as <-.
  { eapply elected_unique; [done|done|apply (vi_dom _ _ Hv); by eexists|]. apply ni_cand. by rewrite Hst. }
  apply (ng_only _ _ _ _ _ (li_nodes _ _ _ _ Hc _ _ Hn)) in HL. congruence.
Qed.

Lemma insert_extends L T x lg : L !! T = None → extends L (<[T := (x, lg)]> L).
Proof.
  intros HN T' y lg' HL. exists lg'. split; [|done]. rewrite lookup_insert_ne; [done|]. intros ->. congruence.
Qed.

Lemma become_leader_good L C ns i n :
  node_good L C ns i n → ns !! i = Some n → L !! currentTerm n = None →
  (∀ p, p ∈ peers n → is_Some (ns !! p)) →
  node_good (<[currentTerm n := (i, entries (log n))]> L) C (<[i := becomeLeader n]> ns) i (becomeLeader n).
Proof.
  intros [] Hn HN Hps. pose proof (zlen_nonneg (entries (log n))). split; simpl; try done.
  - eapply consistent_mono; [|done]. by apply insert_extends.
  - intros _. by rewrite lookup_insert_eq.
  - intros _ p Hp. unfold getLastLogIndex. simpl. rewrite u64_small by lia.
    exists (zlen (entries (log n)) + 1), 0. rewrite !fold_insert_lookup, !decide_True by done.
    split_and!; try done; try lia. split; [lia|].
    destruct (decide (i = p)) as [<-|Hne]; [rewrite lookup_insert_eq|rewrite lookup_insert_ne by done].
    + eexists. split; [done|]. apply prefix_nil.
    + destruct (Hps p Hp) as [m Hm]. exists m. split; [done|]. apply prefix_nil.
Qed.

Lemma logs_become_leader L C c i n :
  votes_inv ids c → logs_inv ids L C c → nodes c !! i = Some n → state n = Candidate →
  elected ids (ballots c) (currentTerm n) i →
  logs_inv ids (<[currentTerm n := (i, entries (log n))]> L) C (set_node i (becomeLeader n) c).
Proof.
  intros Hv Hc Hn Hst Hel. pose proof (candidate_term_free _ _ _ _ _ Hv Hc Hn Hst) as HN.
  pose proof (li_nodes _ _ _ _ Hc _ _ Hn) as Hg. pose proof Hg as []. pose proof (insert_extends _ _ i (entries (log n)) HN) as Hext.
  apply (logs_update L _ C C c i n); try done.
  - by eapply evolves_same_log.
  - apply become_leader_good; try done. intros p Hp. rewrite (ni_peers _ _ _ _ (vi_nodes _ _ Hv _ _ Hn)) in Hp.
    apply list_elem_of_filter in Hp as [_ Hp]. by apply (vi_dom _ _ Hv).
  - intros j m Hne Hm. split_and!.
    + by apply (li_nodes _ _ _ _ Hc _ _ Hm).
    + intros lg. destruct (decide (currentTerm n = currentTerm m)) as [<-|Ht].
      * rewrite lookup_insert_eq. by intros [= E _].
      * by rewrite lookup_insert_ne.
    + intros Hl. pose proof (ng_leader _ _ _ _ _ (li_nodes _ _ _ _ Hc _ _ Hm) Hl) as HL.
      rewrite lookup_insert_ne; [done|]. intros E. rewrite E in HN. congruence.
  - intros T x lg. destruct (decide (currentTerm n = T)) as [<-|Ht].
    + rewrite lookup_insert_eq. intros [= <- <-]. split; try done.
      * apply (vi_dom _ _ Hv). by eexists.
      * by eapply consistent_mono.
      * by right.
    + rewrite lookup_insert_ne by done. intros HL. eapply leader_good_update; [done|done|].
      destruct (li_leaders _ _ _ _ Hc _ _ _ HL). split; try done. by eapply consistent_mono.
Qed.

(** [Propose] of a leader. *)
Lemma append_extends L T i (lg : list LogEntry) e :
  L !! T = Some (i, lg) → extends L (<[T := (i, lg ++ [e])]> L).
Proof.
  intros HL T' x lg' HL'. destruct (decide (T = T')) as [<-|Hne].
  - rewrite HL in HL'. injection HL' as <- <-. exists (lg ++ [e]). rewrite lookup_insert_eq. split; [done|]. by exists [e].
  - exists lg'. by rewrite lookup_insert_ne.
Qed.

Lemma logs_propose L C c i n e grow :
  votes_inv ids c → logs_inv ids L C c → nodes c !! i = Some n → state n = Leader →
  le_Term e = currentTerm n → zlen (entries (log n)) < 2 ^ 63 - 1 →
  logs_inv ids (<[currentTerm n := (i, entries (log n) ++ [e])]> L) C (set_node i (set_log (go_append grow e (log n)) n) c).
Proof.
  intros Hv Hc Hn Hst He Hlen. pose proof (li_nodes _ _ _ _ Hc _ _ Hn) as []. pose proof (ng_leader0 Hst) as HL.
  pose proof (append_extends _ _ _ _ e HL) as Hext. destruct (append_spec grow e (log n) ng_log0) as [Hok Hent].
  set (n' := set_log _ n). set (L' := <[currentTerm n := _]> L) in *.
  assert (consistent L' (entries (log n) ++ [e])) as Hcons.
  { eapply consistent_snoc; [by eapply consistent_mono|exact He|]. apply lookup_insert_eq. }
  assert (evolves L L' C C (nodes c) (<[i := n']> (nodes c))) as Hev.
  { apply (evolves_set _ _ _ _ _ i n); try done.
    - intros T lg _. right. intros w Hw. simpl. by apply append_window.
    - intros T x lg a _ Hp. right. simpl. rewrite Hent. etrans; [exact Hp|]. by exists [e]. }
  assert (C `prefix_of` entries (log n) ++ [e]) as HC by (etrans; [done|]; by exists [e]).
  assert (zlen (entries (log n) ++ [e]) = zlen (entries (log n)) + 1) as Hz
    by (unfold zlen; rewrite length_app; simpl; lia).
  apply (logs_update L L' C C c i n); try done.
  - split; simpl; rewrite ?Hent; try done; try lia.
    + intros _. unfold L'. by rewrite lookup_insert_eq.
    + intros _ p Hp. destruct (ng_next0 Hst p Hp) as (k & m & ? & ? & ? & ? & Hh). exists k, m.
      split_and!; try done; try lia. eapply holds_mono; [by exists [e]|].
      destruct (ev_holds _ _ _ _ _ _ Hev _ _ _ _ _ HL Hh) as [Hpast|]; [|done].
      specialize (Hpast i n'). rewrite lookup_insert_eq in Hpast. specialize (Hpast eq_refl). simpl in Hpast. lia.
  - intros j m Hne Hm. split_and!.
    + by apply (li_nodes _ _ _ _ Hc _ _ Hm).
    + intros lg. unfold L'. destruct (decide (currentTerm n = currentTerm m)) as [<-|Ht].
      * rewrite lookup_insert_eq. by intros [= E _].
      * by rewrite lookup_insert_ne.
    + intros Hl. pose proof (ng_leader _ _ _ _ _ (li_nodes _ _ _ _ Hc _ _ Hm) Hl) as HLm. unfold L'.
      rewrite lookup_insert_ne; [done|]. intros E. rewrite <- E, HL in HLm. congruence.
  - intros T x lg. unfold L' at 1. destruct (decide (currentTerm n = T)) as [<-|Ht].
    + rewrite lookup_insert_eq. intros [= <- <-]. destruct (li_leaders _ _ _ _ Hc _ _ _ HL).
      split; try done; [lia|by right].
    + rewrite lookup_insert_ne by done. intros HLx. eapply leader_good_update; [done|done|].
      destruct (li_leaders _ _ _ _ Hc _ _ _ HLx). split; try done. by eapply consistent_mono.
Qed.

(** ** Followers *)

(** What a request of the leader of [lg] makes of a log. *)
Lemma merge_sound L lg old prev pt es :
  consistent L old → consistent L lg → sound lg prev pt es → prev <= zlen old →
  (0 < prev → ∃ e, old !! Z.to_nat (prev - 1) = Some e ∧ le_Term e = pt) →
  ∃ M, M `prefix_of` lg ∧ zlen M = prev + zlen es ∧ M `prefix_of` merge_log (Z.to_nat prev) es old
  ∧ (merge_log (Z.to_nat prev) es old = old
     ∨ merge_log (Z.to_nat prev) es old = M ∧ ¬ M `prefix_of` old).
Proof.
  intros Hold Hlg (H0 & M & HM & Hk & -> & Hpt) Hlen Hprev.
  pose proof (consistent_prefix _ _ _ HM Hlg) as HcM.
  pose proof (consistent_matching _ _ _ Hold HcM) as Hmatch.
  assert (take (Z.to_nat prev) old = take (Z.to_nat prev) M) as Htake.
  { destruct (decide (0 < prev)) as [Hpos|]; [|by replace (Z.to_nat prev) with 0%nat by lia].
    destruct (Hprev Hpos) as (e1 & He1 & Ht1). destruct (Hpt Hpos) as (e2 & He2 & Ht2).
    replace (Z.to_nat prev) with (S (Z.to_nat (prev - 1))) by lia. eapply Hmatch; [done|done|congruence]. }
  exists M. split; [done|]. split; [unfold zlen; rewrite length_drop; unfold zlen in *; lia|].
  destruct (merge_spec (Z.to_nat prev) M old Hmatch) as [[-> ?]|[-> ?]]; [unfold zlen in Hlen; lia|done|done|..]; auto.
Qed.

Lemma merge_keeps lg old new M (X : list LogEntry) :
  M `prefix_of` lg → X `prefix_of` lg → X `prefix_of` old → new = old ∨ new = M ∧ ¬ M `prefix_of` old →
  X `prefix_of` new.
Proof.
  intros HM HX Hold [->|[-> Hno]]; [done|]. destruct (decide (length X <= length M)%nat).
  - by apply (prefix_compare _ _ lg).
  - destruct Hno. etrans; [|exact Hold]. apply (prefix_compare _ _ lg); [done|done|lia].
Qed.

Lemma past_set ns T i n n' :
  past ns T → ns !! i = Some n → currentTerm n <= currentTerm n' → past (<[i := n']> ns) T.
Proof.
  intros Hp Hn Ht j m. destruct (decide (i = j)) as [<-|Hne].
  - rewrite lookup_insert_eq. intros [= <-]. apply Hp in Hn. lia.
  - rewrite lookup_insert_ne by done. apply Hp.
Qed.

(** A term before one in which a leader was elected has passed. *)
Lemma elected_past c T T' x : votes_inv ids c → elected ids (ballots c) T x → T' < T → past (nodes c) T'.
Proof. intros Hv Hel Hlt i n Hn. pose proof (elected_term _ _ _ _ _ _ Hv Hel Hn). lia. Qed.

Section stored.
Context {L : Leaders} {C : list LogEntry} {c : Cluster} {p l : NodeID} {n n' : Node}.
Context {req : AppendEntriesRequest} {resp : AppendEntriesResponse} {lg : list LogEntry}.
Context (Hv : votes_inv ids c) (Hc : logs_inv ids L C c) (Hn : nodes c !! p = Some n) (Hlp : p ≠ l).
Context (HL : L !! ae_Term req = Some (l, lg)) (Hterm : currentTerm n = ae_Term req).
Context (Hsound : sound lg (ae_PrevLogIndex req) (ae_PrevLogTerm req) (ae_Entries req)).
Context (Hst' : state n' = Follower) (Hterm' : currentTerm n' = ae_Term req).

(** The own log only grows into the leader's. *)
Context (M : list LogEntry) (HM : M `prefix_of` lg).
Context (Hcase : entries (log n') = entries (log n) ∨ entries (log n') = M ∧ ¬ M `prefix_of` entries (log n)).

Lemma stored_evolves : evolves L L C C (nodes c) (<[p := n']> (nodes c)).
Proof.
  destruct (li_leaders _ _ _ _ Hc _ _ _ HL) as [_ Hel _ _ _].
  assert (∀ T x lg0, L !! T = Some (x, lg0) → past (<[p := n']> (nodes c)) T ∨ T = ae_Term req) as Hterms.
  { intros T x lg0 HL0. destruct (li_leaders _ _ _ _ Hc _ _ _ HL0) as [_ Hel0 _ _ _].
    pose proof (elected_term _ _ _ _ _ _ Hv Hel0 Hn). destruct (decide (T = ae_Term req)); [by right|left].
    eapply past_set; [|done|lia]. eapply elected_past; [done|exact Hel|lia]. }
  apply (evolves_set _ _ _ _ _ p n); try done; [lia|..].
  - intros T lg0 HL0. destruct (Hterms _ _ _ HL0) as [?| ->]; [by left|]. rewrite HL in HL0. congruence.
  - intros T x lg0 a HL0 Hpre. destruct (Hterms _ _ _ HL0) as [?| ->]; [by left|right].
    rewrite HL in HL0. injection HL0 as <- <-. eapply (merge_keeps lg); eauto. apply prefix_take.
Qed.

Lemma logs_stored :
  id n' = id n → log_ok (log n') → 0 <= ae_LeaderCommit req <= zlen C →
  commitIndex n' = (if commitIndex n <? ae_LeaderCommit req
                    then Z.min (ae_LeaderCommit req) (zlen (entries (log n'))) else commitIndex n) →
  lastApplied n' = Z.max (lastApplied n) (commitIndex n') →
  (∃ msgs, applied n' = applied n ++ msgs ∧ Forall (msg_of (entries (log n')) (commitIndex n')) msgs) →
  logs_inv ids L C (set_node p n' c).
Proof.
  intros Hid Hok HLC Hcom Hla (msgs & Hap & Hmsgs).
  pose proof (li_nodes _ _ _ _ Hc _ _ Hn) as []. pose proof (li_leaders _ _ _ _ Hc _ _ _ HL) as [].
  assert (C `prefix_of` entries (log n')) as HC.
  { eapply (merge_keeps lg); eauto. destruct lg_prefix0 as [Hp|]; [|done]. apply Hp in Hn. lia. }
  pose proof (prefix_length _ _ HC) as HClen.
  assert (commitIndex n <= commitIndex n' <= zlen C) as Hcom'.
  { rewrite Hcom. destruct (Z.ltb_spec (commitIndex n) (ae_LeaderCommit req)); unfold zlen in *; lia. }
  apply (logs_update L L C C c p n); try done; [apply stored_evolves|..].
  - split; try done.
    + destruct Hcase as [->|[-> _]]; [done|]. apply prefix_length in HM. unfold zlen in *. lia.
    + destruct Hcase as [->|[-> _]]; [done|]. by eapply consistent_prefix.
    + congruence.
    + intros lg0. rewrite Hterm', HL. congruence.
    + lia.
    + lia.
    + rewrite Hap. apply Forall_app. split; [done|]. eapply Forall_impl; [exact Hmsgs|].
      intros m ([? ?] & e & He & ?). split; [lia|]. exists e. split; [|done].
      eapply lookup_in_prefix; [exact HC|done|unfold zlen in *; lia].
    + congruence.
  - intros j m _ Hm. split_and!; try done. by apply (li_nodes _ _ _ _ Hc _ _ Hm).
  - intros T x lg0 HL0. eapply leader_good_update; [done|lia|]. by apply (li_leaders _ _ _ _ Hc).
Qed.
End stored.

Lemma node_good_ok L C ns i n : node_good L C ns i n → node_ok n.
Proof.
  intros []. pose proof (prefix_length _ _ ng_prefix0). split; try done; unfold zlen in *; lia.
Qed.

Lemma append_rejected grow reads req n :
  ae_Term req < currentTerm n → HandleAppendEntries grow reads req n = Some (mkAppendReply (currentTerm n) false 0 0, n).
Proof. intros Hlt. unfold HandleAppendEntries. by destruct (Z.ltb_spec (ae_Term req) (currentTerm n)); [|lia]. Qed.

Lemma logs_deliver_append L C c l p count req n grow reads :
  votes_inv ids c → logs_inv ids L C c → append_task ids (ballots c) l p (ae_Term req) →
  task_good L C (nodes c) (AppendSent l p count req) → nodes c !! p = Some n →
  ∃ resp n', HandleAppendEntries grow reads req n = Some (resp, n') ∧ logs_inv ids L C (set_node p n' c)
  ∧ task_good L C (<[p := n']> (nodes c)) (AppendReplied l p count req resp).
Proof.
  intros Hv Hc (Hlin & Hpin & Hlp & Hel) Ht Hn. pose proof (elected_term _ _ _ _ _ _ Hv Hel Hn) as Hge.
  destruct (decide (ae_Term req < currentTerm n)) as [Hlt|Hterm].
  { eexists _, n. split; [by apply append_rejected|]. split; [|simpl; by right].
    apply (logs_quiet L C c p n); try done. by apply quiet_role. }
  assert (currentTerm n = ae_Term req) as Hcur by lia.
  destruct Ht as [Hpast|(lg & HL & Hs & Hcount & HLC)]; [apply Hpast in Hn; lia|].
  pose proof (li_nodes _ _ _ _ Hc _ _ Hn) as Hg. pose proof (li_leaders _ _ _ _ Hc _ _ _ HL) as [_ _ Hclg Hlglen _].
  pose proof Hg as []. pose proof (merge_sound L lg (entries (log n)) _ _ _ ng_consistent0 Hclg Hs) as Hmerge.
  pose proof Hs as (H0 & M0 & HM0 & Hk0 & Hes & _).
  assert (zlen M0 = ae_PrevLogIndex req + zlen (ae_Entries req)) as HzM.
  { rewrite Hes. unfold zlen. rewrite length_drop. lia. }
  assert (zlen M0 < 2 ^ 63) as HM0len by (apply prefix_length in HM0; unfold zlen in *; lia).
  destruct (append_entries_spec grow reads req n) as (resp & n' & Hres & _ & Hans); [by eapply node_good_ok|lia|lia|lia| |].
  { intros Hp Hprev. destruct (Hmerge Hp Hprev) as (M & HM & HMlen & _ & [->|[-> _]]); [done|lia]. }
  exists resp, n'. split; [done|]. destruct Hans as [(? & _)|(_ & Ht' & Hst' & Hv' & Hans)]; [lia|].
  assert (state n = Follower) as Hst.
  { destruct (decide (state n = Follower)) as [|Hno]; [done|exfalso]. apply Hlp.
    apply (ni_cand _ _ _ _ (vi_nodes _ _ Hv _ _ Hn)) in Hno. rewrite Hcur in Hno. by eapply elected_unique. }
  destruct Hans as [Hfail Hsd|Hok Hid Hps Hlok Hk Hprev Hent Hcom Hla Hmsgs].
  - split; [|simpl; rewrite Hfail; by right]. apply (logs_quiet L C c p n); try done.
    split_and!; [done|congruence|left; split; congruence].
  - destruct Hmerge as (M & HM & HMlen & HMpre & Hcase); [unfold zlen; lia|done|]. rewrite <- Hent in HMpre, Hcase.
    split; [eapply (logs_stored (lg := lg) (l := l)); eauto|]. right. intros _. exists lg.
    pose proof (zlen_nonneg (ae_Entries req)). split_and!; [done|lia|lia|].
    assert (Z.to_nat (ae_PrevLogIndex req + count) = length M) as -> by (unfold zlen in *; lia).
    split; [by apply prefix_length|]. exists n'. rewrite lookup_insert_eq. split; [done|].
    by rewrite <- (prefix_take_eq _ _ HM).
Qed.

(** ** The leader's goroutines *)

Lemma logs_build L C c l p w req n :
  votes_inv ids c → logs_inv ids L C c → nodes c !! l = Some n → p ∈ ids → p ≠ l →
  build_append p n = Built w req → task_good L C (nodes c) (AppendBuilt l p w req).
Proof.
  intros Hv Hc Hn Hp Hpl. unfold build_append.
  destruct (bool_decide_reflect (state n = Leader)) as [Hst|]; [|done].
  pose proof (li_nodes _ _ _ _ Hc _ _ Hn) as Hg. pose proof Hg as []. pose proof (prefix_length _ _ ng_prefix0) as HCl.
  destruct (ng_next0 Hst p) as (k & m & -> & Hk & _).
  { rewrite (ni_peers _ _ _ _ (vi_nodes _ _ Hv _ _ Hn)). by apply list_elem_of_filter. }
  simpl. rewrite u64_small by lia. set (prev := k - 1).
  assert (∀ pt, pt = (if (0 <? prev) && (prev <=? zlen (entries (log n)))
    then match entries (log n) !! Z.to_nat (prev - 1) with Some e => le_Term e | None => 0 end else 0) →
    sound (entries (log n)) prev pt (drop (Z.to_nat prev) (entries (log n)))) as Hs.
  { intros pt Hpt. split; [lia|]. exists (entries (log n)). split_and!; [done|unfold zlen in *; lia|done|].
    intros Hpos. destruct (Z.ltb_spec 0 prev); [|lia]. destruct (Z.leb_spec prev (zlen (entries (log n)))); [|lia].
    simpl in Hpt. destruct (lookup_lt_is_Some_2 (entries (log n)) (Z.to_nat (prev - 1))) as [e He];
      [unfold zlen in *; lia|]. exists e. by rewrite He in Hpt. }
  pose proof (length_entries _ ng_log0) as Hlen. destruct ng_log0 as [Harr Hl].
  destruct (Z.leb_spec k (zlen (entries (log n)))) as [Hle|Hgt].
  - destruct (Z.ltb_spec (zlen (entries (log n))) prev); [lia|]. intros [= <- <-]. right. simpl.
    exists (entries (log n)), n.
    assert (read_window (log n) (mkWindow (log_arr (log n)) (Z.to_nat prev) (log_len (log n)))
      = drop (Z.to_nat prev) (entries (log n))) as Hr.
    { unfold read_window, entries. simpl. by rewrite take_drop_commute, Nat.add_comm,  Nat.sub_add by (unfold zlen in *; lia). }
    rewrite Hr. split_and!; try done; auto; try lia; rewrite ?length_drop; unfold zlen in *; lia.
  - intros [= <- <-]. right. simpl. exists (entries (log n)), n.
    assert (drop (Z.to_nat prev) (entries (log n)) = []) as Hnil by (apply drop_ge; unfold zlen in *; lia).
    specialize (Hs _ eq_refl). rewrite Hnil in Hs.
    split_and!; [by apply ng_leader0|done|split; simpl; [done|lia]|exact Hs|done|lia|unfold zlen in *; lia].
Qed.

Lemma logs_marshal L C c l p w req n :
  task_good L C (nodes c) (AppendBuilt l p w req) → nodes c !! l = Some n →
  task_good L C (nodes c) (AppendSent l p (Z.of_nat (w_hi w - w_lo w)) (marshal w req n)).
Proof.
  intros [Hp|(lg & n0 & HL & Hn0 & Hw & Hs & Hlen & HLC)] Hn; [by left|right].
  rewrite Hn in Hn0. injection Hn0 as <-. exists lg. simpl. split_and!; try done; try lia.
  unfold zlen. by rewrite Hlen.
Qed.

(** A leader that keeps its role and its log: its indices change, and entries
    that all nodes hold may become committed. *)
Lemma logs_leader_update L C C' c i n n' :
  votes_inv ids c → logs_inv ids L C c → nodes c !! i = Some n → role n' = role n → state n = Leader →
  log n' = log n → C `prefix_of` C' → (∀ j m, nodes c !! j = Some m → C' `prefix_of` entries (log m)) →
  0 <= commitIndex n' <= zlen C' → lastApplied n' = commitIndex n' → Forall (msg_of C' (zlen C')) (applied n') →
  (∀ p, p ∈ peers n → ∃ k m, nextIndex n' !! p = Some k ∧ 1 <= k <= zlen (entries (log n)) + 1
    ∧ matchIndex n' !! p = Some m ∧ 0 <= m ∧ holds (Z.to_nat m) (entries (log n)) (nodes c) p) →
  logs_inv ids L C' (set_node i n' c).
Proof.
  intros Hv Hc Hn [= Eid Eps Est Et Evt] Hst Hlog HC HC' Hcom Hla Hmsgs Hnext.
  pose proof (li_nodes _ _ _ _ Hc _ _ Hn) as []. pose proof (ng_leader0 Hst) as HL.
  assert (evolves L L C C' (nodes c) (<[i := n']> (nodes c))) as Hev.
  { eapply evolves_same_log; try done; [lia|]. apply prefix_length in HC. unfold zlen. lia. }
  apply (logs_update L L C C' c i n); try done.
  - split; rewrite ?Hlog, ?Est, ?Et, ?Eps; try done.
    + by eapply HC'.
    + intros _ p Hp. destruct (Hnext p Hp) as (k & m & ? & ? & ? & ? & Hh). exists k, m. split_and!; try done; try lia.
      destruct (ev_holds _ _ _ _ _ _ Hev _ _ _ _ _ HL Hh) as [Hpast|]; [|done].
      specialize (Hpast i n'). rewrite lookup_insert_eq in Hpast. specialize (Hpast eq_refl). lia.
  - intros j m _ Hm. split_and!; try done. by eapply HC'.
  - intros T x lg HLx. destruct (leader_good_update L C (nodes c) i n n' (ballots c) T x lg Hn) as []; [lia| |].
    { by apply (li_leaders _ _ _ _ Hc). }
    split; try done. pose proof (elected_term _ _ _ _ _ _ Hv lg_elected0 Hn).
    destruct (decide (T = currentTerm n)) as [->|Hne].
    + rewrite HL in HLx. injection HLx as <- <-. right. by eapply HC'.
    + left. eapply past_set; [|done|lia]. destruct (li_leaders _ _ _ _ Hc _ _ _ HL) as [_ Hel _ _ _].
      eapply elected_past; [done|exact Hel|lia].
Qed.

(** An index the leader may commit is held by every node. *)
Lemma committable_held c i n next match_ j m ci :
  NoDup ids → (length ids <= 3)%nat → votes_inv ids c → nodes c !! i = Some n →
  committable (set_indices next match_ n) ci →
  (∀ p, p ∈ peers n → ∃ m, match_ !! p = Some m ∧ holds (Z.to_nat m) (entries (log n)) (nodes c) p) →
  nodes c !! j = Some m → take (Z.to_nat ci) (entries (log n)) `prefix_of` entries (log m).
Proof.
  intros Hnd Hlen Hv Hn (H1 & _ & Hq) Hmatch Hm. destruct (decide (j = i)) as [->|Hne].
  { rewrite Hn in Hm. injection Hm as <-. apply prefix_take. }
  assert (i ∈ ids) as Hi by (apply (vi_dom _ _ Hv); by eexists).
  assert (j ∈ peers n) as Hj.
  { rewrite (ni_peers _ _ _ _ (vi_nodes _ _ Hv _ _ Hn)). apply list_elem_of_filter. split; [done|].
    apply (vi_dom _ _ Hv). by eexists. }
  assert (j ∈ filter (λ p, ci <= default 0 (match_ !! p)) (peers n)) as Hin.
  { eapply (unanimity (peers n)); [| | |exact Hq|done].
    - rewrite (ni_peers _ _ _ _ (vi_nodes _ _ Hv _ _ Hn)). pose proof (filter_length_lt ids i Hi Hnd). lia.
    - apply NoDup_filter. rewrite (ni_peers _ _ _ _ (vi_nodes _ _ Hv _ _ Hn)). by apply NoDup_filter.
    - intros q. by intros [_ ?]%list_elem_of_filter. }
  apply list_elem_of_filter in Hin as [Hle _]. destruct (Hmatch j Hj) as (mi & Hmi & Ha & m' & Hm' & Hpre).
  rewrite Hm in Hm'. injection Hm' as <-. rewrite Hmi in Hle. simpl in Hle. etrans; [|exact Hpre].
  replace (take (Z.to_nat ci) (entries (log n))) with (take (Z.to_nat ci) (take (Z.to_nat mi) (entries (log n)))).
  - apply prefix_take.
  - rewrite take_take. f_equal. lia.
Qed.

(** What the indices of a leader say of its peers. *)
Definition indices_good (n : Node) (ns : gmap NodeID Node) (next match_ : gmap NodeID Z) : Prop :=
  ∀ q, q ∈ peers n → ∃ k m, next !! q = Some k ∧ 1 <= k <= zlen (entries (log n)) + 1
    ∧ match_ !! q = Some m ∧ 0 <= m ∧ holds (Z.to_nat m) (entries (log n)) ns q.

Lemma logs_commit L C c l n next match_ reads :
  NoDup ids → (length ids <= 3)%nat → votes_inv ids c → logs_inv ids L C c → nodes c !! l = Some n →
  state n = Leader → indices_good n (nodes c) next match_ →
  ∃ n' C', updateCommitIndex reads (set_indices next match_ n) = Some n'
  ∧ C `prefix_of` C' ∧ logs_inv ids L C' (set_node l n' c).
Proof.
  intros Hnd Hlen Hv Hc Hn Hst Hnext. pose proof (li_nodes _ _ _ _ Hc _ _ Hn) as Hg. pose proof Hg as [].
  destruct (node_good_ok _ _ _ _ _ Hg).
  destruct (updateCommitIndex_spec reads (set_indices next match_ n))
    as (n' & Hu & Hf & Hla & Hci & Hcomm & msgs & Hap & Hmsgs); [done|simpl; lia|done|]. simpl in Hla, Hci, Hap, Hmsgs.
  pose proof (prefix_take_eq _ _ ng_prefix0) as HCeq. pose proof (prefix_length _ _ ng_prefix0) as HClen.
  set (C' := take (Nat.max (Z.to_nat (commitIndex n')) (length C)) (entries (log n))).
  assert (commitIndex n' <= zlen (entries (log n))) as Hcin.
  { destruct Hcomm as [->|(Hc1 & (e & He%lookup_lt_Some & _) & _)]; simpl in *; unfold zlen in *; lia. }
  assert (C `prefix_of` C') as HCC'.
  { apply (prefix_compare _ _ (entries (log n))); [done|apply prefix_take|]. unfold C'. rewrite length_take. lia. }
  assert (zlen C' = Z.max (commitIndex n') (zlen C)) as HC'len.
  { unfold C', zlen. rewrite length_take. unfold zlen in *. lia. }
  exists n', C'. split_and!; [done|done|]. apply (logs_leader_update L C C' c l n n'); try done; try lia.
  - by apply frame_role in Hf.
  - by apply (f_log _ _ Hf).
  - intros j mj Hmj. unfold C'. destruct (decide (Z.to_nat (commitIndex n') <= length C)%nat) as [Hle|Hgt].
    + rewrite Nat.max_r, <- HCeq by lia. by apply (li_nodes _ _ _ _ Hc _ _ Hmj).
    + rewrite Nat.max_l by lia. destruct Hcomm as [E|Hcomm]; [simpl in E; unfold zlen in *; lia|].
      eapply committable_held; try done. intros q Hq. destruct (Hnext q Hq) as (k & m & _ & _ & ? & _ & ?). by exists m.
  - rewrite Hap. apply Forall_app. split.
    + eapply Forall_impl; [exact ng_msgs0|]. intros x Hx. by eapply msg_of_prefix.
    + eapply Forall_impl; [exact Hmsgs|]. intros x ([? ?] & e & He & ?). split; [lia|]. exists e. split; [|done].
      eapply lookup_in_prefix; [apply prefix_take|exact He|]. unfold C', zlen in *. lia.
  - rewrite (f_next _ _ Hf), (f_match _ _ Hf). done.
Qed.

Lemma logs_append_reply L C c l p count req resp n reads :
  NoDup ids → (length ids <= 3)%nat → votes_inv ids c → logs_inv ids L C c → nodes c !! l = Some n →
  p ∈ ids → p ≠ l → task_good L C (nodes c) (AppendReplied l p count req resp) →
  ∃ n' C', append_reply reads p (ae_Term req) (ae_PrevLogIndex req) count resp n = Some n'
  ∧ C `prefix_of` C' ∧ logs_inv ids L C' (set_node l n' c).
Proof.
  intros Hnd Hlen Hv Hc Hn Hp Hpl Ht. unfold append_reply.
  assert (∀ n', quiet n n' → ∃ n1 C', Some n' = Some n1 ∧ C `prefix_of` C' ∧ logs_inv ids L C' (set_node l n1 c)) as Hquiet.
  { intros n' Hq. exists n', C. split_and!; [done|done|]. by eapply logs_quiet. }
  destruct (bool_decide_reflect (state n = Leader)) as [Hst|]; simpl; [|apply Hquiet; by apply quiet_role].
  destruct (Z.eqb_spec (currentTerm n) (ae_Term req)) as [Hterm|]; simpl; [|apply Hquiet; by apply quiet_role].
  destruct (Z.ltb_spec (currentTerm n) (ar_Term resp)); [apply Hquiet; by apply quiet_raise|].
  pose proof (li_nodes _ _ _ _ Hc _ _ Hn) as []. pose proof (ng_leader0 Hst) as HL.
  assert (p ∈ peers n) as Hpeer.
  { rewrite (ni_peers _ _ _ _ (vi_nodes _ _ Hv _ _ Hn)). by apply list_elem_of_filter. }
  destruct (ar_Success resp) eqn:Hs.
  - destruct Ht as [Hpast|Hack]; [apply Hpast in Hn; lia|]. destruct (Hack Hs) as (lg & HLg & Hpv & Hcnt & Hh).
    rewrite <- Hterm, HL in HLg. injection HLg as <-. pose proof Hh as [Hm _].
    rewrite (u64_small (ae_PrevLogIndex req + count)) by (unfold zlen in *; lia).
    rewrite u64_small by (unfold zlen in *; lia). apply logs_commit; try done.
    intros q Hq. destruct (decide (p = q)) as [<-|Hne].
    + eexists _, _. rewrite !lookup_insert_eq. split_and!; try done; unfold zlen in *; lia.
    + rewrite !lookup_insert_ne by done. auto.
  - destruct (ng_next0 Hst p Hpeer) as (k & m & Hk & Hkb & Hm & Hmb & Hh). rewrite Hk. simpl.
    destruct (Z.ltb_spec 1 k); [|apply Hquiet; by apply quiet_role].
    eexists _, C. split_and!; [done|done|]. apply (logs_leader_update L C C c l n); try done.
    + intros j mj Hmj. by apply (li_nodes _ _ _ _ Hc _ _ Hmj).
    + intros q Hq. simpl. destruct (decide (p = q)) as [<-|Hne].
      * exists (k - 1), m. rewrite lookup_insert_eq. split_and!; try done; lia.
      * rewrite lookup_insert_ne by done. auto.
Qed.

(** ** Events *)

(** No event makes a node panic, and the committed entries stay. *)
Definition logs_after (C : list LogEntry) (o : outcome) : Prop :=
  match o with
  | Disabled => True
  | Panics => False
  | Next c' => ∃ L' C', C `prefix_of` C' ∧ logs_inv ids L' C' c'
  end.

Lemma logs_next L C c : logs_inv ids L C c → logs_after C (Next c).
Proof. intros Hc. by exists L, C. Qed.

Lemma logs_timeout L C c i :
  votes_inv ids c → logs_inv ids L C c → timely (ETimeout i) c = true → logs_after C (on_timeout i c).
Proof.
  intros Hv Hc Ht. unfold on_timeout. simpl in Ht. destruct (nodes c !! i) as [n|] eqn:Hn; [|done].
  destruct (running n); [|done]. apply (logs_next L).
  apply Z.ltb_lt in Ht. pose proof (ni_term _ _ _ _ (vi_nodes _ _ Hv _ _ Hn)) as H0.
  assert (logs_inv ids L C (set_node i (startElection n) c)) as Hc1.
  { apply (logs_quiet _ _ _ _ n); try done. split_and!; [done|done|]. right.
    unfold startElection. simpl. rewrite u64_small by lia. split; [lia|done]. }
  apply logs_spawn_all.
  - eapply logs_tasks; [exact Hc1|done| |].
    + intros b Hb. by right.
    + intros tid t Htt. left. by exists tid.
  - apply (vi_fresh _ _ Hv).
  - by intros t (p & -> & _)%list_elem_of_fmap.
Qed.

Lemma logs_vote_reply L C c tid cand peer e req resp :
  NoDup ids → (length ids <= 3)%nat → votes_inv ids c → logs_inv ids L C c →
  tasks c !! tid = Some (VoteReplied cand peer e req resp) →
  logs_after C (on_vote_reply cand peer e req resp (end_task tid c)).
Proof.
  intros Hnd Hlen Hv Hc Ht. pose proof (logs_end_task L C c tid Hc) as Hc1.
  pose proof (votes_end_task _ _ tid Hv) as Hv1.
  pose proof (votes_vote_reply ids c tid cand peer e req resp) as Hvotes. revert Hvotes Hc1 Hv1.
  assert (nodes (end_task tid c) = nodes c) as En by done. revert En. generalize (end_task tid c).
  intros c1 En Hvotes Hc1 Hv1. unfold on_vote_reply in *.
  destruct (nodes c1 !! cand) as [n|] eqn:Hn; [|done]. destruct (elections c1 !! e) as [el|] eqn:He; [|done].
  destruct (bool_decide_reflect (state n = Candidate)) as [Hst|]; simpl in *; [|by apply (logs_next L)].
  destruct (negb _); [by apply (logs_next L)|].
  destruct (Z.ltb_spec (currentTerm n) (vr_Term resp)).
  { apply (logs_next L). apply (logs_quiet _ _ _ _ n); try done. by apply quiet_raise. }
  destruct (vr_VoteGranted resp); [|by apply (logs_next L)].
  set (c2 := set_elections _ c1) in *. assert (logs_inv ids L C c2) as Hc2.
  { eapply logs_tasks; [exact Hc1|done|done|]. intros k t Hk. left. by exists k. }
  destruct (_ <? _); [|by apply (logs_next L)].
  specialize (Hvotes _ Hnd Hlen Hv Ht eq_refl).
  assert (elected ids (ballots c1) (currentTerm n) cand) as Hel.
  { destruct (spawn_all_spec (AppendStart (id n) <$> peers n) (set_node cand (becomeLeader n) c2))
      as (Hns & _ & _ & Hbs & _).
    apply (ni_leader _ _ _ (becomeLeader n)); [|done].
    change (ballots c1) with (ballots (set_node cand (becomeLeader n) c2)). rewrite <- Hbs.
    apply (vi_nodes _ _ Hvotes). unfold sendHeartbeats. simpl. rewrite Hns. simpl. apply lookup_insert_eq. }
  apply (logs_next (<[currentTerm n := (cand, entries (log n))]> L)).
  apply logs_heartbeats; [|exact (vi_fresh _ _ Hv1)].
  assert (logs_inv ids (<[currentTerm n := (cand, entries (log n))]> L) C (set_node cand (becomeLeader n) c1)) as Hc3.
  { by apply logs_become_leader. }
  eapply logs_tasks; [exact Hc3|done|done|]. intros k t Hk. left. by exists k.
Qed.

Lemma build_in_range L C c l p n :
  votes_inv ids c → logs_inv ids L C c → nodes c !! l = Some n → p ∈ ids → p ≠ l → build_append p n ≠ OutOfRange.
Proof.
  intros Hv Hc Hn Hp Hpl. unfold build_append.
  destruct (bool_decide_reflect (state n = Leader)) as [Hst|]; [|done].
  pose proof (li_nodes _ _ _ _ Hc _ _ Hn) as []. destruct (ng_next0 Hst p) as (k & m & -> & Hk & _).
  { rewrite (ni_peers _ _ _ _ (vi_nodes _ _ Hv _ _ Hn)). by apply list_elem_of_filter. }
  simpl. rewrite u64_small by lia. destruct (Z.leb_spec k (zlen (entries (log n)))); [|done].
  by destruct (Z.ltb_spec (zlen (entries (log n))) (k - 1)); [lia|].
Qed.

Lemma logs_run L C c tid reads :
  NoDup ids → (length ids <= 3)%nat → votes_inv ids c → logs_inv ids L C c → logs_after C (on_run tid reads c).
Proof.
  intros Hnd Hlen Hv Hc. unfold on_run. destruct (tasks c !! tid) as [t|] eqn:Ht; [|done].
  pose proof (vi_tasks _ _ Hv _ _ Ht) as Hti. pose proof (li_tasks _ _ _ _ Hc _ _ Ht) as Htg.
  destruct t as [cand peer e| |cand peer e req resp|l p|l p w req| |l p count req resp]; try done.
  - destruct (nodes c !! cand) as [n|]; [|done]. apply (logs_next L). by apply logs_set_task.
  - by eapply logs_vote_reply.
  - destruct Hti as (Hl & Hp & Hpl). destruct (nodes c !! l) as [n|] eqn:Hn; [|done].
    destruct (build_append p n) as [|w req|] eqn:Hb.
    + apply (logs_next L). by apply logs_end_task.
    + apply (logs_next L). apply logs_set_task; [done|]. by eapply logs_build.
    + by eapply build_in_range in Hb.
  - destruct (nodes c !! l) as [n|] eqn:Hn; [|done]. apply (logs_next L). apply logs_set_task; [done|].
    by apply logs_marshal.
  - destruct Hti as (Hl & Hp & Hpl & _). destruct (nodes c !! l) as [n|] eqn:Hn; [|done].
    destruct (logs_append_reply L C (end_task tid c) l p count req resp n reads) as (n' & C' & -> & HC & Hc');
      try done; [by apply votes_end_task|by apply logs_end_task|]. by exists L, C'.
Qed.

Lemma logs_deliver L C c tid answered grow reads :
  votes_inv ids c → logs_inv ids L C c → logs_after C (on_deliver grow tid answered reads c).
Proof.
  intros Hv Hc. unfold on_deliver. destruct (tasks c !! tid) as [t|] eqn:Ht; [|done].
  pose proof (vi_tasks _ _ Hv _ _ Ht) as Hti. pose proof (li_tasks _ _ _ _ Hc _ _ Ht) as Htg.
  destruct t as [|cand peer e req| | | |l p count req|]; try done.
  - destruct (addrs c !! peer) as [j|]; [|done]. destruct (nodes c !! j) as [n|] eqn:Hn; [|done].
    destruct (HandleRequestVote req n) as [resp n'] eqn:Hres.
    assert (logs_inv ids L C (set_node j n' c)) as Hc1.
    { apply (logs_quiet _ _ _ _ n); try done.
      apply request_vote_spec in Hres as (Hsd & _ & [(_ & -> & _)|(Hle & Ht' & Hst & Hnx & Hmt & _)]);
        [by apply quiet_role|]. split_and!; [done|done|]. rewrite Hst, Ht'.
      destruct (Z.ltb_spec (currentTerm n) (rv_Term req)); [by right|left]. split; [done|lia]. }
    assert (logs_inv ids L C (if vr_VoteGranted resp
      then record_ballot j (rv_Term req) (rv_CandidateID req) (set_node j n' c) else set_node j n' c)) as Hc2.
    { destruct (vr_VoteGranted resp); [|done]. eapply logs_tasks; [exact Hc1|done| |].
      - intros b Hb. by right.
      - intros k t Hk. left. by exists k. }
    apply (logs_next L). destruct answered; [|done]. by apply logs_set_task.
  - pose proof Hti as (_ & Hp & _ & _). rewrite (vi_addr _ _ Hv) by done.
    destruct (nodes c !! p) as [n|] eqn:Hn; [|done].
    destruct (logs_deliver_append L C c l p count req n grow reads) as (resp & n' & -> & Hc1 & Htg1); try done.
    apply (logs_next L). destruct answered; [|done]. by apply logs_set_task.
Qed.

Lemma logs_exec grow ev L C c :
  NoDup ids → (length ids <= 3)%nat → votes_inv ids c → logs_inv ids L C c → timely ev c = true →
  logs_after C (exec grow ev c).
Proof.
  intros Hnd Hlen Hv Hc Htm. pose proof (vi_fresh _ _ Hv) as Hf.
  assert (∀ i n n', nodes c !! i = Some n → quiet n n' → logs_after C (Next (set_node i n' c))) as Hquiet.
  { intros i n n' Hn Hq. apply (logs_next L). by eapply logs_quiet. }
  destruct ev; simpl.
  - by eapply logs_timeout.
  - unfold on_heartbeat. destruct (nodes c !! i) as [n|] eqn:Hn; [|done].
    destruct (_ && _); [|done]. destruct (bool_decide _); [|eapply Hquiet; [done|by apply quiet_role]].
    apply (logs_next L). by apply logs_heartbeats.
  - unfold on_propose. simpl in Htm. destruct (nodes c !! i) as [n|] eqn:Hn; [|done]. unfold Propose.
    destruct (bool_decide_reflect (state n = Leader)) as [Hst|]; [|by apply (logs_next L)].
    eapply logs_next, logs_heartbeats; [|done]. eapply logs_propose; try done. by apply Z.ltb_lt in Htm.
  - by eapply logs_run.
  - by eapply logs_deliver.
  - destruct (tasks c !! tid); [|done]. apply (logs_next L). by apply logs_end_task.
  - unfold on_apply. destruct (nodes c !! i) as [n|] eqn:Hn; [|done]. destruct (applyCh n); [done|].
    eapply Hquiet; [done|]. by apply quiet_role.
  - destruct (nodes c !! i) as [n|] eqn:Hn; [|done]. eapply Hquiet; [done|]. by apply quiet_role.
Qed.

Lemma logs_init : NoDup ids → logs_inv ids ∅ [] (NewCluster ids).
Proof.
  intros Hnd. split; simpl; try done.
  intros i n [Hi ->]%(new_cluster_lookup ids i n Hnd). split; simpl; try done. apply empty_log_ok.
Qed.

(** Everything that is reachable satisfies the invariants; what was committed
    on the way stays. *)
Lemma logs_reachable grow c c' L C :
  NoDup ids → [] ∉ ids → (length ids <= 3)%nat → votes_inv ids c → logs_inv ids L C c →
  rtc (timely_step grow) c c' →
  votes_inv ids c' ∧ ∃ L' C', C `prefix_of` C' ∧ logs_inv ids L' C' c'.
Proof.
  intros Hnd Hnil Hlen Hv Hc Hr. revert L C Hv Hc. induction Hr as [c|c c1 c' (ev & Htm & Hex) _ IH]; intros L C Hv Hc.
  { split; [done|]. by exists L, C. }
  pose proof (logs_exec grow ev L C c Hnd Hlen Hv Hc Htm) as Hafter. rewrite Hex in Hafter.
  destruct Hafter as (L1 & C1 & HC1 & Hc1). destruct (IH L1 C1) as (Hv' & L' & C' & HC' & Hc'); [|done|].
  - by eapply votes_exec.
  - split; [done|]. exists L', C'. split; [by etrans|done].
Qed.

Lemma cluster_reachable grow c :
  NoDup ids → [] ∉ ids → (length ids <= 3)%nat → rtc (timely_step grow) (NewCluster ids) c →
  votes_inv ids c ∧ ∃ L C, logs_inv ids L C c.
Proof.
  intros Hnd Hnil Hlen Hr.
  destruct (logs_reachable grow _ _ ∅ [] Hnd Hnil Hlen (votes_init ids Hnd) (logs_init Hnd) Hr) as (? & L & C & _ & ?).
  split; [done|]. by exists L, C.
Qed.
End logs.

(** Commands that nodes were given for the same index are the same. *)
Lemma applied_agree ids grow c c' i j n n' m m' :
  NoDup ids → [] ∉ ids → (length ids <= 3)%nat →
  rtc (timely_step grow) (NewCluster ids) c → rtc (timely_step grow) c c' →
  nodes c !! i = Some n → nodes c' !! j = Some n' → m ∈ applied n → m' ∈ applied n' →
  am_Index m = am_Index m' → am_Command m = am_Command m'.
Proof.
  intros Hnd Hnil Hlen.
  intros Hr Hr' Hi Hj Hm Hm' Hidx. destruct (cluster_reachable ids grow c Hnd Hnil Hlen Hr) as (Hv & L & C & Hc).
  destruct (logs_reachable ids grow c c' L C Hnd Hnil Hlen Hv Hc Hr') as (_ & L' & C' & HC & Hc').
  pose proof (ng_msgs _ _ _ _ _ (li_nodes _ _ _ _ Hc _ _ Hi)) as Hms. rewrite Forall_forall in Hms.
  pose proof (ng_msgs _ _ _ _ _ (li_nodes _ _ _ _ Hc' _ _ Hj)) as Hms'. rewrite Forall_forall in Hms'.
  destruct (Hms _ Hm) as (_ & e & He & ->). destruct (Hms' _ Hm') as (_ & e' & He' & ->).
  rewrite <- Hidx, (prefix_lookup_Some _ _ _ _ He HC) in He'. congruence.
Qed.
