(* ===== verification/RaftSafety.v ===== *)
(** * Raft: safety and its limits

    Clusters of up to three nodes whose vote requests are timely: one leader per
    term, matching logs, committed entries that stay, state machines that agree,
    and no panics. Then the runs that show why the restrictions are needed, and
    what the quorum test costs. *)

From S2P Require Import Prelude Raft RaftNode RaftVotes RaftLogs.

(** ** Runs *)

Lemma timely_all_rtc grow evs c c' : timely_all grow evs c = Some c' → rtc (timely_step grow) c c'.
Proof.
  revert c. induction evs as [|ev evs IH]; intros c; simpl; [by intros [= ->]|].
  destruct (timely ev c) eqn:Ht; [|done]. destruct (exec grow ev c) as [| |c1] eqn:He; try done.
  intros H. eapply rtc_l; [by exists ev|auto].
Qed.

(** ** Safety *)

Section safety.
Context (ids : list NodeID) (grow : nat → nat).
Context (Hnd : NoDup ids) (Hnil : [] ∉ ids) (Hlen : (length ids <= 3)%nat).

(** C3: In a cluster of at most three nodes whose vote requests are timely, two
    leaders of the same term are the same node. *)
Theorem raft_election_safety c i j ni nj :
  rtc (timely_step grow) (NewCluster ids) c →
  nodes c !! i = Some ni → nodes c !! j = Some nj → state ni = Leader → state nj = Leader →
  currentTerm ni = currentTerm nj → i = j.
Proof.
  intros Hr Hi Hj Hsi Hsj Ht. destruct (cluster_reachable ids grow c Hnd Hnil Hlen Hr) as [Hv _].
  pose proof (ni_leader _ _ _ _ (vi_nodes _ _ Hv _ _ Hi) Hsi) as Hei.
  pose proof (ni_leader _ _ _ _ (vi_nodes _ _ Hv _ _ Hj) Hsj) as Hej. rewrite <- Ht in Hej.
  eapply leaders_agree; [done|apply (vi_dom _ _ Hv); by eexists|apply (vi_dom _ _ Hv); by eexists|done|done].
Qed.

(** C8: In such a cluster, logs that have an entry of the same term at the same
    index are equal up to that index. *)
Theorem raft_log_matching c i j ni nj k ei ej :
  rtc (timely_step grow) (NewCluster ids) c →
  nodes c !! i = Some ni → nodes c !! j = Some nj →
  entries (log ni) !! k = Some ei → entries (log nj) !! k = Some ej → le_Term ei = le_Term ej →
  take (S k) (entries (log ni)) = take (S k) (entries (log nj)).
Proof.
  intros Hr Hi Hj. destruct (cluster_reachable ids grow c Hnd Hnil Hlen Hr) as (_ & L & C & Hc).
  apply (consistent_matching L).
  - by apply (li_nodes _ _ _ _ Hc _ _ Hi).
  - by apply (li_nodes _ _ _ _ Hc _ _ Hj).
Qed.

(** C4: In such a cluster, what one node has committed is in the log of every
    node, at once and ever after. *)
Theorem raft_committed_stays c c' i j n n' :
  rtc (timely_step grow) (NewCluster ids) c → rtc (timely_step grow) c c' →
  nodes c !! i = Some n → nodes c' !! j = Some n' →
  commitIndex n <= zlen (entries (log n))
  ∧ take (Z.to_nat (commitIndex n)) (entries (log n)) `prefix_of` entries (log n').
Proof.
  intros Hr Hr' Hi Hj. destruct (cluster_reachable ids grow c Hnd Hnil Hlen Hr) as (Hv & L & C & Hc).
  destruct (logs_reachable ids grow c c' L C Hnd Hnil Hlen Hv Hc Hr') as (_ & L' & C' & HC & Hc').
  pose proof (li_nodes _ _ _ _ Hc _ _ Hi) as Hg. pose proof (ng_prefix _ _ _ _ _ Hg) as Hp.
  pose proof (ng_commit _ _ _ _ _ Hg). pose proof (prefix_length _ _ Hp).
  split; [unfold zlen in *; lia|].
  etrans; [|apply (ng_prefix _ _ _ _ _ (li_nodes _ _ _ _ Hc' _ _ Hj))]. etrans; [|exact HC].
  apply (prefix_compare _ _ (entries (log n))); [apply prefix_take|done|]. rewrite length_take. unfold zlen in *. lia.
Qed.

(** C9: In such a cluster, commands that nodes were given for the same index,
    at any times, are the same. *)
Theorem raft_state_machine_safety c c' i j n n' m m' :
  rtc (timely_step grow) (NewCluster ids) c → rtc (timely_step grow) c c' →
  nodes c !! i = Some n → nodes c' !! j = Some n' → m ∈ applied n → m' ∈ applied n' →
  am_Index m = am_Index m' → am_Command m = am_Command m'.
Proof.
  apply (applied_agree ids grow c c' i j n n' m m' Hnd Hnil Hlen).
Qed.

(** C23: In such a cluster, no index is out of range: no event makes a node
    panic. *)
Theorem raft_never_panics c ev :
  rtc (timely_step grow) (NewCluster ids) c → timely ev c = true → exec grow ev c ≠ Panics.
Proof.
  intros Hr Ht Hp. destruct (cluster_reachable ids grow c Hnd Hnil Hlen Hr) as (Hv & L & C & Hc).
  pose proof (logs_exec ids grow ev L C c Hnd Hlen Hv Hc Ht) as Hafter. by rewrite Hp in Hafter.
Qed.
End safety.

(** ** Availability *)

(** The event happens without the node: no tick of its timer, and no request
    reaches it. *)
Definition without (d : NodeID) (ev : event) (c : Cluster) : bool :=
  match ev with
  | ETimeout i => negb (bool_decide (i = d))
  | EDeliver tid _ _ =>
      match tasks c !! tid with
      | Some (VoteSent _ p _ _) | Some (AppendSent _ p _ _) => negb (bool_decide (addrs c !! p = Some d))
      | _ => true
      end
  | _ => true
  end.

Definition step_without (d : NodeID) (grow : nat → nat) (c c' : Cluster) : Prop :=
  ∃ ev, timely ev c = true ∧ without d ev c = true ∧ exec grow ev c = Next c'.

Lemma step_without_timely d grow c c' : rtc (step_without d grow) c c' → rtc (timely_step grow) c c'.
Proof. apply rtc_subrel. intros c1 c2 (ev & ? & _ & ?). by exists ev. Qed.

Lemma spawn_all_ballots ts c : ballots (spawn_all ts c) = ballots c.
Proof. by apply spawn_all_spec. Qed.

(** A node that takes no part gives no vote. *)
Lemma without_ballots d grow ev c c' :
  without d ev c = true → exec grow ev c = Next c' →
  (∀ T x, (d, T, x) ∉ ballots c) → ∀ T x, (d, T, x) ∉ ballots c'.
Proof.
  intros Hw Hex Hno. assert (∀ j T' x', j ≠ d → ∀ T x, (d, T, x) ∉ (j, T', x') :: ballots c) as Hcons.
  { intros j T' x' Hj T x. rewrite elem_of_cons. intros [[= -> _ _]|H]; [done|by apply Hno in H]. }
  destruct ev; simpl in *.
  - unfold on_timeout in Hex. destruct (nodes c !! i) as [n|]; [|done]. destruct (running n); [|done].
    injection Hex as <-. rewrite spawn_all_ballots. apply Hcons. intros ->. by rewrite bool_decide_true in Hw.
  - unfold on_heartbeat in Hex. destruct (nodes c !! i) as [n|]; [|done]. destruct (_ && _); [|done].
    destruct (bool_decide _); injection Hex as <-; [|done]. unfold sendHeartbeats. by rewrite spawn_all_ballots.
  - unfold on_propose, Propose in Hex. destruct (nodes c !! i) as [n|]; [|done].
    destruct (bool_decide _); injection Hex as <-; [|done]. unfold sendHeartbeats. by rewrite spawn_all_ballots.
  - enough (ballots c' = ballots c) as -> by done. unfold on_run, on_vote_reply in Hex.
    destruct (tasks c !! tid) as [[]|]; simpl in Hex; repeat case_match; simplify_eq; try done.
    unfold sendHeartbeats. by rewrite spawn_all_ballots.
  - unfold on_deliver in Hex. destruct (tasks c !! tid) as [[]|]; try done.
    + destruct (addrs c !! peer) as [j|]; [|done]. destruct (nodes c !! j) as [n|]; [|done].
      destruct (HandleRequestVote req n) as [resp n']. injection Hex as <-.
      assert (j ≠ d) as Hj by (intros ->; by rewrite bool_decide_true in Hw).
      destruct answered, (vr_VoteGranted resp); simpl; auto.
    + destruct (addrs c !! peer) as [j|]; [|done]. destruct (nodes c !! j) as [n|]; [|done].
      destruct (HandleAppendEntries grow reads req n) as [[resp n']|]; [|done]. injection Hex as <-.
      by destruct answered.
  - destruct (tasks c !! tid); [|done]. by injection Hex as <-.
  - unfold on_apply in Hex. destruct (nodes c !! i) as [n|]; [|done]. destruct (applyCh n); [done|]. by injection Hex as <-.
  - destruct (nodes c !! i) as [n|]; [|done]. by injection Hex as <-.
Qed.

(** C37: The test [votes > len(peers)/2+1] asks for every vote in a cluster of
    up to three nodes. If one node has been away ever since the cluster was made,
    so that its timer never fires and no request ever reaches it, then with timely
    vote requests no node ever becomes leader. (A node that goes away later may
    have given a vote that is still on its way, or leave a leader behind.) *)
Theorem raft_needs_every_node ids grow d c i n :
  NoDup ids → [] ∉ ids → (length ids <= 3)%nat → d ∈ ids →
  rtc (step_without d grow) (NewCluster ids) c → nodes c !! i = Some n → state n ≠ Leader.
Proof.
  intros Hnd Hnil Hlen Hd Hr Hn Hst.
  destruct (cluster_reachable ids grow c Hnd Hnil Hlen (step_without_timely _ _ _ _ Hr)) as [Hv _].
  assert (∀ T x, (d, T, x) ∉ ballots c) as Hno.
  { eapply (rtc_ind_r (λ c, ∀ T x, (d, T, x) ∉ ballots c)); [| |exact Hr].
    - intros T x. apply not_elem_of_nil.
    - intros c1 c2 _ (ev & _ & Hw & Hex). by apply (without_ballots d grow ev). }
  apply (ni_leader _ _ _ _ (vi_nodes _ _ Hv _ _ Hn)) in Hst. by apply (Hno _ _ (Hst d Hd)).
Qed.

(** ** The channel to the state machine *)

(** The state machine is busy elsewhere. *)
Definition idle : Z → nat := λ _, 0%nat.

Definition message (n : Node) (i : Z) : ApplyMsg :=
  mkApplyMsg i (match entries (log n) !! Z.to_nat (i - 1) with Some e => le_Command e | None => [] end).

(** The messages that are due. *)
Definition messages (n : Node) : list ApplyMsg :=
  message n <$> seqZ (lastApplied n + 1) (commitIndex n - lastApplied n).

Lemma apply_loop_idle fuel n :
  0 <= lastApplied n <= commitIndex n → commitIndex n <= zlen (entries (log n)) < 2 ^ 63 →
  commitIndex n - lastApplied n < Z.of_nat fuel →
  ∃ n', apply_loop idle fuel n = Some n' ∧ lastApplied n' = commitIndex n
  ∧ applied n' = applied n ++ take (APPLY_CAPACITY - length (applyCh n)) (messages n).
Proof.
  revert n. induction fuel as [|fuel IH]; intros n Hl Hc Hf; [lia|]. cbn [apply_loop]. unfold messages.
  destruct (Z.ltb_spec (lastApplied n) (commitIndex n)) as [Hlt|Hge].
  - rewrite (u64_small (lastApplied n + 1)) by lia. cbv zeta.
    change (drop (idle (lastApplied n + 1)) (applyCh n)) with (applyCh n).
    destruct (lookup_lt_is_Some_2 (entries (log n)) (Z.to_nat (lastApplied n))) as [e He]; [unfold zlen in Hc; lia|].
    replace (lastApplied n + 1 - 1) with (lastApplied n) by lia. rewrite He. simpl.
    rewrite seqZ_cons by lia. rewrite fmap_cons.
    assert (message n (lastApplied n + 1) = mkApplyMsg (lastApplied n + 1) (le_Command e)) as Hm.
    { unfold message. replace (lastApplied n + 1 - 1) with (lastApplied n) by lia. by rewrite He. }
    rewrite Hm. destruct (bool_decide_reflect (length (applyCh n) < APPLY_CAPACITY)%nat) as [Hroom|Hfull].
    + set (n1 := mkNode _ _ _ _ _ _ _ _ _ _ _ _ _ _ _).
      destruct (IH n1) as (n' & Hex & Hla & Hap); [simpl; lia|done|simpl; lia|].
      exists n'. split_and!; [exact Hex|done|]. rewrite Hap. unfold messages. simpl. rewrite length_app. simpl.
      replace (APPLY_CAPACITY - length (applyCh n))%nat with (S (APPLY_CAPACITY - (length (applyCh n) + 1))) by lia.
      rewrite <- app_assoc. cbn [take app].
      replace (commitIndex n - (lastApplied n + 1)) with (Z.pred (commitIndex n - lastApplied n)) by lia. done.
    + set (n1 := mkNode _ _ _ _ _ _ _ _ _ _ _ _ _ _ _).
      destruct (IH n1) as (n' & Hex & Hla & Hap); [simpl; lia|done|simpl; lia|].
      exists n'. split_and!; [exact Hex|done|]. rewrite Hap. simpl.
      by replace (APPLY_CAPACITY - length (applyCh n))%nat with 0%nat by lia.
  - exists n. split_and!; [done|lia|]. rewrite seqZ_nil by lia. by rewrite fmap_nil, take_nil, app_nil_r.
Qed.

(** [applyCommitted] moves [lastApplied] past every committed entry, but
    sends only as many messages as the channel has room for while nobody
    receives; the others are not sent later, as the comment of the code says. *)
Theorem raft_full_channel_drops n :
  0 <= lastApplied n <= commitIndex n → commitIndex n <= zlen (entries (log n)) < 2 ^ 63 →
  ∃ n', applyCommitted idle n = Some n' ∧ lastApplied n' = commitIndex n' ∧ messages n' = []
  ∧ applied n' = applied n ++ take (APPLY_CAPACITY - length (applyCh n)) (messages n).
Proof.
  intros Hl Hc. destruct (apply_loop_idle (S (Z.to_nat (commitIndex n - lastApplied n))) n) as (n' & Hex & Hla & Hap);
    [done|done|lia|]. exists n'.
  destruct (applyCommitted_spec idle n) as (n1 & Hex' & _ & Hci & _); [lia|lia|].
  assert (n1 = n') as -> by (unfold applyCommitted in Hex'; congruence).
  split_and!; [done|congruence| |done]. unfold messages. by rewrite Hla, Hci, seqZ_nil by lia.
Qed.

(** ** Timers *)

Definition armed (n : Node) : Prop := running n = true → electionTimer n = true.

Lemma frame_armed n n' : frame n n' → armed n → armed n'.
Proof. unfold armed. intros Hf. by rewrite (f_running _ _ Hf), (f_election _ _ Hf). Qed.

Lemma request_vote_armed req n : armed n → armed (HandleRequestVote req n).2.
Proof.
  unfold HandleRequestVote, armed. intros Ha. destruct (_ <? _); [done|].
  cbv zeta. destruct (_ && _); simpl; destruct (_ <? _); simpl; auto.
Qed.

Lemma append_entries_armed grow reads req n resp n' :
  HandleAppendEntries grow reads req n = Some (resp, n') → armed n → armed n'.
Proof.
  unfold HandleAppendEntries. destruct (_ <? _); [by intros [= _ <-]|].
  set (n1 := resetElectionTimer _). assert (armed n1) as H1 by done.
  assert (accept_entries grow reads req n1 = Some (resp, n') → armed n') as Hacc.
  { unfold accept_entries. intros (l & _ & (n2 & H2 & [= _ <-])%bind_Some)%bind_Some. simpl in H2.
    destruct (_ <? _); [|by injection H2 as <-]. apply apply_loop_frame in H2. by eapply frame_armed. }
  intros H _. destruct (0 <? _); [|auto]. destruct (_ <? _); [by injection H as _ <-|].
  apply bind_Some in H as (prev & _ & H). destruct (negb _); [|auto].
  by apply bind_Some in H as (ci & _ & [= _ <-]).
Qed.

Lemma append_reply_armed reads peer term prev count resp n n' :
  append_reply reads peer term prev count resp n = Some n' → armed n → armed n'.
Proof.
  unfold append_reply. destruct (_ || _); [by intros [= <-]|]. destruct (_ <? _); [by intros [= <-]|].
  destruct (ar_Success resp).
  - intros Hf%updateCommitIndex_frame Ha. by eapply frame_armed.
  - intros [= <-] Ha. by destruct (_ <? _).
Qed.

Lemma spawn_all_nodes ts c : nodes (spawn_all ts c) = nodes c.
Proof. by apply spawn_all_spec. Qed.

Lemma heartbeats_nodes n c : nodes (sendHeartbeats n c) = nodes c.
Proof. apply spawn_all_nodes. Qed.

Definition all_armed (c : Cluster) : Prop := ∀ i n, nodes c !! i = Some n → armed n.

Lemma all_armed_nodes c c' : nodes c' = nodes c → all_armed c → all_armed c'.
Proof. unfold all_armed. by intros ->. Qed.

Lemma all_armed_set i n c c' : nodes c' = <[i := n]> (nodes c) → armed n → all_armed c → all_armed c'.
Proof.
  intros Hn Ha Hc j m. rewrite Hn. destruct (decide (i = j)) as [<-|Hne].
  - rewrite lookup_insert_eq. by intros [= <-].
  - rewrite lookup_insert_ne by done. apply Hc.
Qed.

Lemma all_armed_exec grow ev c c' : exec grow ev c = Next c' → all_armed c → all_armed c'.
Proof.
  intros Hex Hc. destruct ev; simpl in Hex.
  - unfold on_timeout in Hex. destruct (nodes c !! i) as [n|]; [|done]. destruct (running n); [|done].
    injection Hex as <-. eapply (all_armed_set i (startElection n) c); [by rewrite spawn_all_nodes|done|done].
  - unfold on_heartbeat in Hex. destruct (nodes c !! i) as [n|] eqn:Hn; [|done]. destruct (_ && _); [|done].
    destruct (bool_decide _); injection Hex as <-.
    + apply (all_armed_nodes c); [apply spawn_all_nodes|done].
    + eapply (all_armed_set _ _ c); [done| |done]. by apply Hc in Hn.
  - unfold on_propose, Propose in Hex. destruct (nodes c !! i) as [n|] eqn:Hn; [|done].
    destruct (bool_decide _); injection Hex as <-; [|done].
    eapply (all_armed_set _ _ c); [by rewrite heartbeats_nodes| |done]. by apply Hc in Hn.
  - unfold on_run, on_vote_reply in Hex. destruct (tasks c !! tid) as [[]|]; simpl in Hex; try done.
    + destruct (nodes c !! cand); [|done]. by injection Hex as <-.
    + destruct (nodes c !! cand) as [n|] eqn:Hn; [|done]. destruct (elections c !! election); [|done].
      apply Hc in Hn. destruct (_ || _); [by injection Hex as <-|].
      destruct (_ <? _); [injection Hex as <-; by eapply (all_armed_set _ _ c)|].
      destruct (vr_VoteGranted _); [|by injection Hex as <-].
      destruct (_ <? _); [|by injection Hex as <-]. injection Hex as <-.
      eapply (all_armed_set cand (becomeLeader n) c); [by rewrite heartbeats_nodes|exact Hn|done].
    + destruct (nodes c !! leader) as [n|]; [|done]. destruct (build_append peer n); by simplify_eq.
    + destruct (nodes c !! leader) as [n|]; [|done]. by injection Hex as <-.
    + destruct (nodes c !! leader) as [n|] eqn:Hn; [|done]. destruct (append_reply _ _ _ _ _ _ n) eqn:Hr; [|done].
      injection Hex as <-. eapply (all_armed_set _ _ c); [done| |done]. eapply append_reply_armed; eauto.
  - unfold on_deliver in Hex. destruct (tasks c !! tid) as [[]|]; try done.
    + destruct (addrs c !! peer) as [j|]; [|done]. destruct (nodes c !! j) as [n|] eqn:Hn; [|done].
      destruct (HandleRequestVote req n) as [resp n'] eqn:Hres. injection Hex as <-.
      pose proof (request_vote_armed req n (Hc _ _ Hn)) as Ha. rewrite Hres in Ha.
      eapply (all_armed_set j n' c); [|done|done]. by destruct answered, (vr_VoteGranted resp).
    + destruct (addrs c !! peer) as [j|]; [|done]. destruct (nodes c !! j) as [n|] eqn:Hn; [|done].
      destruct (HandleAppendEntries grow reads req n) as [[resp n']|] eqn:Hres; [|done]. injection Hex as <-.
      eapply (all_armed_set j n' c); [by destruct answered| |done]. eapply append_entries_armed; eauto.
  - destruct (tasks c !! tid); [|done]. by injection Hex as <-.
  - unfold on_apply in Hex. destruct (nodes c !! i) as [n|] eqn:Hn; [|done]. destruct (applyCh n); [done|].
    injection Hex as <-. eapply (all_armed_set _ _ c); [done| |done]. by apply Hc in Hn.
  - destruct (nodes c !! i) as [n|]; [|done]. injection Hex as <-. by eapply (all_armed_set _ _ c).
Qed.

(** The election timer of a running node is armed at all times, also while
    the node leads: a leader whose timer runs out starts an election against
    itself, although nothing is wrong. *)
Theorem raft_leader_times_out ids grow c i n :
  NoDup ids → rtc (step grow) (NewCluster ids) c → nodes c !! i = Some n → running n = true →
  state n = Leader → 0 <= currentTerm n < 2 ^ 64 - 1 →
  electionTimer n = true
  ∧ ∃ c' n', exec grow (ETimeout i) c = Next c' ∧ nodes c' !! i = Some n'
      ∧ state n' = Candidate ∧ currentTerm n' = currentTerm n + 1.
Proof.
  intros Hnd Hr Hn Hrun Hst Ht. assert (all_armed c) as Hc.
  { eapply (rtc_ind_r all_armed); [| |exact Hr].
    - by intros j m [_ ->]%(new_cluster_lookup ids j m Hnd).
    - intros c1 c2 _ (ev & Hex). by apply (all_armed_exec grow ev). }
  split; [by apply (Hc _ _ Hn)|]. simpl. unfold on_timeout. rewrite Hn, Hrun.
  eexists _, (startElection n). split; [done|]. rewrite spawn_all_nodes. simpl. rewrite lookup_insert_eq.
  split_and!; [done|done|]. by rewrite u64_small by lia.
Qed.

(** ** Concrete runs *)

Definition A : NodeID := str "node-0".
Definition B : NodeID := str "node-1".
Definition D : NodeID := str "node-2".
Definition E : NodeID := str "node-3".

Definition leads (i : NodeID) (T : Z) (c : Cluster) : bool :=
  match nodes c !! i with
  | Some n => bool_decide (state n = Leader) && (currentTerm n =? T)
  | None => false
  end.

Lemma leads_spec i T c :
  leads i T c = true → ∃ n, nodes c !! i = Some n ∧ state n = Leader ∧ currentTerm n = T.
Proof.
  unfold leads. destruct (nodes c !! i) as [n|]; [|done].
  intros [Hs%bool_decide_eq_true Ht%Z.eqb_eq]%andb_prop. by exists n.
Qed.

Lemma timely_run grow evs c0 (P : Cluster → bool) :
  match timely_all grow evs c0 with Some c => P c | None => false end = true →
  ∃ c, rtc (timely_step grow) c0 c ∧ P c = true.
Proof.
  destruct (timely_all grow evs c0) as [c|] eqn:He; [|done]. intros HP. exists c. split; [|done].
  by eapply timely_all_rtc.
Qed.

Lemma exec_all_steps grow evs c c' : exec_all grow evs c = Some c' → rtc (step grow) c c'.
Proof.
  revert c. induction evs as [|ev evs IH]; intros c; simpl; [by intros [= ->]|].
  destruct (exec grow ev c) as [| |c1] eqn:He; try done. intros H. eapply rtc_l; [by exists ev|auto].
Qed.

Lemma any_run grow evs c0 (P : Cluster → bool) :
  match exec_all grow evs c0 with Some c => P c | None => false end = true →
  ∃ c, rtc (step grow) c0 c ∧ P c = true.
Proof.
  destruct (exec_all grow evs c0) as [c|] eqn:He; [|done]. intros HP. exists c. split; [|done].
  by eapply exec_all_steps.
Qed.

(** A goroutine runs, its request is handled, the answer comes back. *)
Definition vote_round (tid : nat) : list event := [ERun tid idle; EDeliver tid true idle; ERun tid idle].
Definition append_round (tid : nat) : list event :=
  [ERun tid idle; ERun tid idle; EDeliver tid true idle; ERun tid idle].

(** [A] is elected in term 1. *)
Definition elect : list event := [ETimeout A] ++ vote_round 0 ++ vote_round 1.

(** It commits a command, and tells [B] with the next heartbeat. *)
Definition commit : list event :=
  elect ++ [EPropose A (str "SET x 1")] ++ append_round 4 ++ append_round 5 ++ [EHeartbeat A] ++ append_round 6.

Definition three : list NodeID := [A; B; D].

Lemma three_ok : NoDup three ∧ ([] ∉ three) ∧ (length three <= 3)%nat.
Proof. split_and!; [by apply (bool_decide_unpack (NoDup three))|by apply (bool_decide_unpack ([] ∉ three))|simpl; lia]. Qed.

Lemma four_nodes_two_leaders grow :
  ∃ c na nd, rtc (timely_step grow) (NewCluster [A; B; D; E]) c
  ∧ nodes c !! A = Some na ∧ nodes c !! E = Some nd
  ∧ state na = Leader ∧ state nd = Leader ∧ currentTerm na = currentTerm nd.
Proof.
  destruct (timely_run grow
    ([ETimeout A; ETimeout E; ERun 4 idle; ERun 5 idle] ++ vote_round 0 ++ vote_round 1
     ++ append_round 6 ++ append_round 7
     ++ [EDeliver 4 true idle; EDeliver 5 true idle; ERun 4 idle; ERun 5 idle])
    (NewCluster [A; B; D; E]) (λ c, leads A 1 c && leads E 1 c)) as (c & Hr & Hl); [by vm_compute|].
  apply andb_prop in Hl as [(na & ? & ? & ?)%leads_spec (nd & ? & ? & ?)%leads_spec].
  exists c, na, nd. split_and!; congruence.
Qed.

Lemma late_votes_two_leaders grow :
  ∃ c na nd, rtc (step grow) (NewCluster three) c
  ∧ nodes c !! A = Some na ∧ nodes c !! D = Some nd
  ∧ state na = Leader ∧ state nd = Leader ∧ currentTerm na = currentTerm nd.
Proof.
  destruct (any_run grow
    ([ETimeout A] ++ vote_round 1 ++ [ETimeout D] ++ vote_round 2 ++ [ETimeout D] ++ vote_round 3
     ++ append_round 7 ++ [ETimeout A] ++ vote_round 0)
    (NewCluster three) (λ c, leads A 3 c && leads D 3 c)) as (c & Hr & Hl); [by vm_compute|].
  apply andb_prop in Hl as [(na & ? & ? & ?)%leads_spec (nd & ? & ? & ?)%leads_spec].
  exists c, na, nd. split_and!; congruence.
Qed.

(** C38: The restrictions are needed. With four nodes two nodes can lead in the
    same term although all vote requests are timely, because a request of the
    leader makes a node forget its vote. With three nodes they can when vote
    goroutines run late, because those take the term from the node and count for
    the election they were started in. *)
Theorem raft_election_safety_limits grow :
  (∃ c na nd, rtc (timely_step grow) (NewCluster [A; B; D; E]) c
   ∧ nodes c !! A = Some na ∧ nodes c !! E = Some nd
   ∧ state na = Leader ∧ state nd = Leader ∧ currentTerm na = currentTerm nd)
  ∧ (∃ c na nd, rtc (step grow) (NewCluster three) c
     ∧ nodes c !! A = Some na ∧ nodes c !! D = Some nd
     ∧ state na = Leader ∧ state nd = Leader ∧ currentTerm na = currentTerm nd).
Proof. split; [apply four_nodes_two_leaders|apply late_votes_two_leaders]. Qed.

(** ** Instances *)

Lemma raft_election_safety_witness :
  ∃ c, rtc (timely_step S) (NewCluster three) c ∧ leads A 1 c = true
  ∧ ∀ j nj, nodes c !! j = Some nj → state nj = Leader → currentTerm nj = 1 → A = j.
Proof.
  destruct three_ok as (Hnd & Hnil & Hlen).
  destruct (timely_run S elect (NewCluster three) (leads A 1)) as (c & Hr & Hl); [by vm_compute|].
  destruct (leads_spec _ _ _ Hl) as (n & Hn & Hs & Ht). exists c. split_and!; [done|done|].
  intros j nj Hj Hsj Htj. apply (raft_election_safety three S Hnd Hnil Hlen c A j n nj); congruence.
Defined.

(** The command at an index of a log. *)
Definition logged (i : NodeID) (k : nat) (cmd : bytes) (c : Cluster) : bool :=
  match nodes c !! i with
  | Some n => match entries (log n) !! k with Some e => bool_decide (e = mkEntry 1 (Z.of_nat k + 1) cmd) | None => false end
  | None => false
  end.

Lemma logged_spec i k cmd c :
  logged i k cmd c = true → ∃ n, nodes c !! i = Some n ∧ entries (log n) !! k = Some (mkEntry 1 (Z.of_nat k + 1) cmd).
Proof.
  unfold logged. destruct (nodes c !! i) as [n|]; [|done]. destruct (entries (log n) !! k) as [e|] eqn:He; [|done].
  intros ->%bool_decide_eq_true. by exists n.
Qed.

Lemma raft_log_matching_witness :
  ∃ c na nb, rtc (timely_step S) (NewCluster three) c ∧ nodes c !! A = Some na ∧ nodes c !! B = Some nb
  ∧ take 1 (entries (log na)) = take 1 (entries (log nb)).
Proof.
  destruct three_ok as (Hnd & Hnil & Hlen).
  destruct (timely_run S commit (NewCluster three) (λ c, logged A 0 (str "SET x 1") c && logged B 0 (str "SET x 1") c))
    as (c & Hr & Hl); [by vm_compute|].
  apply andb_prop in Hl as [(na & Ha & Hea)%logged_spec (nb & Hb & Heb)%logged_spec].
  exists c, na, nb. split_and!; [done|done|done|].
  by apply (raft_log_matching three S Hnd Hnil Hlen c A B na nb 0%nat _ _ Hr Ha Hb Hea Heb).
Defined.

(** [A] has committed the command; then [B] becomes leader of term 2. *)
Definition committed (i : NodeID) (k : Z) (c : Cluster) : bool :=
  match nodes c !! i with Some n => commitIndex n =? k | None => false end.

Lemma committed_spec i k c : committed i k c = true → ∃ n, nodes c !! i = Some n ∧ commitIndex n = k.
Proof. unfold committed. destruct (nodes c !! i) as [n|]; [|done]. intros H%Z.eqb_eq. by exists n. Qed.

Definition depose : list event := [ETimeout B] ++ vote_round 8 ++ vote_round 9.

Lemma raft_committed_stays_witness :
  ∃ c c' n n', rtc (timely_step S) (NewCluster three) c ∧ rtc (timely_step S) c c'
  ∧ nodes c !! A = Some n ∧ nodes c' !! B = Some n' ∧ commitIndex n = 1 ∧ leads B 2 c' = true
  ∧ take 1 (entries (log n)) `prefix_of` entries (log n').
Proof.
  destruct three_ok as (Hnd & Hnil & Hlen).
  destruct (timely_run S commit (NewCluster three)
    (λ c, committed A 1 c && match timely_all S depose c with Some c' => leads B 2 c' | None => false end))
    as (c & Hr & Hl); [by vm_compute|].
  apply andb_prop in Hl as [(n & Hn & Hk)%committed_spec Hl].
  destruct (timely_run S depose c _ Hl) as (c' & Hr' & Hl'). destruct (leads_spec _ _ _ Hl') as (n' & Hn' & _).
  exists c, c', n, n'. split_and!; try done.
  destruct (raft_committed_stays three S Hnd Hnil Hlen c c' A B n n' Hr Hr' Hn Hn') as [_ Hp]. by rewrite Hk in Hp.
Defined.

(** The messages a node was given. *)
Definition was_given (i : NodeID) (m : ApplyMsg) (c : Cluster) : bool :=
  match nodes c !! i with Some n => bool_decide (am_Index <$> head (applied n) = Some (am_Index m)) | None => false end.

Lemma was_given_spec i m c :
  was_given i m c = true → ∃ n m', nodes c !! i = Some n ∧ m' ∈ applied n ∧ am_Index m' = am_Index m.
Proof.
  unfold was_given. destruct (nodes c !! i) as [n|]; [|done]. intros H%bool_decide_eq_true.
  destruct (applied n) as [|m' ms] eqn:Ha; [done|]. injection H as H. exists n, m'. rewrite Ha. split_and!; [done|by left|done].
Qed.

Lemma raft_state_machine_safety_witness :
  ∃ c n n' m m', rtc (timely_step S) (NewCluster three) c ∧ nodes c !! A = Some n ∧ nodes c !! B = Some n'
  ∧ m ∈ applied n ∧ m' ∈ applied n' ∧ am_Index m = 1 ∧ am_Index m' = 1 ∧ am_Command m = am_Command m'.
Proof.
  destruct three_ok as (Hnd & Hnil & Hlen).
  destruct (timely_run S commit (NewCluster three)
    (λ c, was_given A (mkApplyMsg 1 []) c && was_given B (mkApplyMsg 1 []) c)) as (c & Hr & Hl); [by vm_compute|].
  apply andb_prop in Hl as [(n & m & Hn & Hm & Hi)%was_given_spec (n' & m' & Hn' & Hm' & Hi')%was_given_spec].
  exists c, n, n', m, m'. split_and!; try done.
  apply (raft_state_machine_safety three S Hnd Hnil Hlen c c A B n n' m m' Hr (rtc_refl _ c) Hn Hn' Hm Hm'). congruence.
Defined.

Lemma raft_never_panics_witness :
  ∃ c, rtc (timely_step S) (NewCluster three) c ∧ leads A 1 c = true ∧ exec S (EPropose A (str "SET x 1")) c ≠ Panics.
Proof.
  destruct three_ok as (Hnd & Hnil & Hlen).
  destruct (timely_run S elect (NewCluster three) (λ c, leads A 1 c && timely (EPropose A (str "SET x 1")) c))
    as (c & Hr & Hl); [by vm_compute|]. apply andb_prop in Hl as [Hl Ht].
  exists c. split_and!; [done|done|]. by apply (raft_never_panics three S Hnd Hnil Hlen).
Defined.

(** The other two nodes elect nobody while [D] is away. *)
Fixpoint all_without (d : NodeID) (grow : nat → nat) (evs : list event) (c : Cluster) : option Cluster :=
  match evs with
  | [] => Some c
  | ev :: evs =>
      if timely ev c && without d ev c
      then match exec grow ev c with Next c' => all_without d grow evs c' | _ => None end
      else None
  end.

Lemma all_without_rtc d grow evs c c' : all_without d grow evs c = Some c' → rtc (step_without d grow) c c'.
Proof.
  revert c. induction evs as [|ev evs IH]; intros c; simpl; [by intros [= ->]|].
  destruct (timely ev c && without d ev c) eqn:Ht; [|done]. apply andb_prop in Ht as [? ?].
  destruct (exec grow ev c) as [| |c1] eqn:He; try done. intros Hrest. eapply rtc_l; [by exists ev|auto].
Qed.

Definition has_votes (i : NodeID) (k : nat) (c : Cluster) : bool :=
  bool_decide (is_Some (nodes c !! i)) && bool_decide ((length (ballots c) = k)%nat).

Lemma raft_needs_every_node_witness :
  ∃ c n, rtc (step_without D S) (NewCluster three) c ∧ nodes c !! A = Some n ∧ length (ballots c) = 2%nat
  ∧ state n ≠ Leader.
Proof.
  destruct three_ok as (Hnd & Hnil & Hlen).
  assert (match all_without D S ([ETimeout A] ++ vote_round 0) (NewCluster three) with
          | Some c => has_votes A 2 c | None => false end = true) as Hrun by (by vm_compute).
  destruct (all_without D S ([ETimeout A] ++ vote_round 0) (NewCluster three)) as [c|] eqn:Hc; [|done].
  apply all_without_rtc in Hc. apply andb_prop in Hrun as [[n Hn]%bool_decide_eq_true Hb%bool_decide_eq_true].
  exists c, n. split_and!; [done|done|done|].
  apply (raft_needs_every_node three S D c A n Hnd Hnil Hlen); [|done|done].
  by apply (bool_decide_unpack (D ∈ three)).
Defined.

(** A channel with 99 messages has room for one of two. *)
Definition busy : Node :=
  mkNode A [B; D] Leader 1 A (mkGoLog [[mkEntry 1 1 (str "a"); mkEntry 1 2 (str "b")]] 0 2) 2 0 ∅ ∅
    (replicate 99 (mkApplyMsg 0 [])) [] true true true.

Lemma raft_full_channel_drops_witness :
  ∃ n', applyCommitted idle busy = Some n' ∧ lastApplied n' = commitIndex n' ∧ messages n' = []
  ∧ applied n' = applied busy ++ take (APPLY_CAPACITY - length (applyCh busy)) (messages busy).
Proof. apply (raft_full_channel_drops busy); [simpl; lia|vm_compute; split; [discriminate|reflexivity]]. Defined.

Lemma raft_leader_times_out_witness :
  ∃ c n, rtc (step S) (NewCluster three) c ∧ nodes c !! A = Some n ∧ state n = Leader ∧ electionTimer n = true
  ∧ ∃ c' n', exec S (ETimeout A) c = Next c' ∧ nodes c' !! A = Some n' ∧ state n' = Candidate
      ∧ currentTerm n' = currentTerm n + 1.
Proof.
  destruct three_ok as (Hnd & _).
  destruct (any_run S elect (NewCluster three) (λ c, leads A 1 c && match nodes c !! A with Some n => running n | None => false end))
    as (c & Hr & Hl); [by vm_compute|]. apply andb_prop in Hl as [(n & Hn & Hs & Ht)%leads_spec Hrun].
  rewrite Hn in Hrun. destruct (raft_leader_times_out three S c A n Hnd Hr Hn Hrun Hs) as [He Hc]; [lia|].
  by exists c, n.
Defined.
