(* ===== verification/HashRing.v ===== *)
(** * The hash ring

    src/node/sharding/hash_ring.go: consistent hashing with virtual nodes. The
    ring is a slice of virtual nodes sorted by hash; a key belongs to the first
    virtual node at or after its own hash, around the end of the slice.
    [sort.Slice] is any function that sorts: it does not say how it orders
    virtual nodes with equal hashes. *)

From stdpp Require Import sorting.
From S2P Require Import Prelude Resp.

(** ** Hashing *)

Definition FNV_OFFSET : Z := 14695981039346656037.
Definition FNV_PRIME : Z := 1099511628211.

(** [hash/fnv.New64a]. *)
Definition fnv64a (key : bytes) : Z :=
  fold_left (λ h b, Z.lxor h (byte.unsigned b) *64 FNV_PRIME) key FNV_OFFSET.

Definition hash (key : bytes) : Z :=
  let hash := fnv64a key in
  let hash := Z.lxor hash (Z.shiftr hash 33) in
  let hash := hash *64 0xff51afd7ed558ccd in
  let hash := Z.lxor hash (Z.shiftr hash 33) in
  let hash := hash *64 0xc4ceb9fe1a85ec53 in
  Z.lxor hash (Z.shiftr hash 33).

(** ** The ring *)

Abbreviation ShardID := Z.

Record VirtualNode := mkVNode { Hash : Z; vn_Shard : ShardID }.

#[global] Instance virtual_node_eq_dec : EqDecision VirtualNode.
Proof. solve_decision. Defined.

Record HashRing := mkRing {
  shards : list ShardID;
  virtualNodes : Z;
  ring : list VirtualNode;
}.

Definition hash_le (v w : VirtualNode) : Prop := Hash v <= Hash w.

#[global] Instance hash_le_dec : RelDecision hash_le.
Proof. intros v w. unfold hash_le. apply _. Defined.

#[global] Instance hash_le_total : Total hash_le.
Proof. intros v w. unfold hash_le. lia. Qed.

#[global] Instance hash_le_trans : Transitive hash_le.
Proof. intros u v w. unfold hash_le. lia. Qed.

(** [sort.Slice] with the comparison of the hashes. *)
Class SortSlice := {
  sort_slice : list VirtualNode → list VirtualNode;
  sort_slice_perm l : sort_slice l ≡ₚ l;
  sort_slice_sorted l : StronglySorted hash_le (sort_slice l);
}.

(** [sort.Search]: the least index at which the test holds, if it is monotone. *)
Fixpoint search_loop (fuel : nat) (f : nat → bool) (i j : nat) : nat :=
  match fuel with
  | O => i
  | S fuel =>
      if decide (i < j)%nat then
        let h := ((i + j) / 2)%nat in
        if f h then search_loop fuel f i h else search_loop fuel f (S h) j
      else i
  end.

Definition Search (n : nat) (f : nat → bool) : nat := search_loop (S n) f 0 n.

(** The virtual nodes of a shard, in the order in which they are appended. *)
Definition vnode_key (shardID : ShardID) (i : Z) : bytes :=
  str "shard" ++ show shardID ++ str "_vnode" ++ show i.

Definition vnodes (n : Z) (shardID : ShardID) : list VirtualNode :=
  (λ i, mkVNode (hash (vnode_key shardID i)) shardID) <$> seqZ 0 n.

Definition addShardToRing (shardID : ShardID) (hr : HashRing) : HashRing :=
  mkRing (shards hr) (virtualNodes hr) (ring hr ++ vnodes (virtualNodes hr) shardID).

(** The bytes of a [VirtualNode]. *)
Definition VNODE_SIZE : Z := 16.

Section sort.
Context {sorter : SortSlice}.

Definition sort_ring (hr : HashRing) : HashRing :=
  mkRing (shards hr) (virtualNodes hr) (sort_slice (ring hr)).

(** [None]: [make] panics. The capacity is an [int], and wraps around. *)
Definition NewHashRing (ss : list ShardID) (n : Z) : option HashRing :=
  if make_panics VNODE_SIZE (s64 (zlen ss * n)) then None
  else Some (sort_ring (fold_left (λ hr s, addShardToRing s hr) ss (mkRing ss n []))).

Definition AddShard (shardID : ShardID) (hr : HashRing) : HashRing :=
  if decide (shardID ∈ shards hr) then hr
  else sort_ring (addShardToRing shardID (mkRing (shards hr ++ [shardID]) (virtualNodes hr) (ring hr))).
End sort.

Fixpoint remove_first (s : ShardID) (l : list ShardID) : list ShardID :=
  match l with
  | [] => []
  | x :: l => if decide (x = s) then l else x :: remove_first s l
  end.

Definition RemoveShard (shardID : ShardID) (hr : HashRing) : HashRing :=
  mkRing (remove_first shardID (shards hr)) (virtualNodes hr) (filter (λ vn, vn_Shard vn ≠ shardID) (ring hr)).

Definition GetShard (key : bytes) (hr : HashRing) : ShardID :=
  if decide (ring hr = []) then 0
  else
    let keyHash := hash key in
    let idx := Search (length (ring hr))
      (λ i, match ring hr !! i with Some vn => keyHash <=? Hash vn | None => true end) in
    let idx := if decide (length (ring hr) <= idx)%nat then 0%nat else idx in
    match ring hr !! idx with Some vn => vn_Shard vn | None => 0 end.

Definition GetShardCount (hr : HashRing) : Z := zlen (shards hr).

Definition GetShards (hr : HashRing) : list ShardID := shards hr.

Definition GetKeyDistribution (keys : list bytes) (hr : HashRing) : gmap ShardID Z :=
  fold_left (λ m key, let s := GetShard key hr in <[s := default 0 (m !! s) + 1]> m) keys ∅.

(** ** Binary search *)

Section search.
Context (f : nat → bool) (n : nat).
Context (Hmono : ∀ i j, (i <= j < n)%nat → f i = true → f j = true).

Lemma search_loop_spec fuel i j :
  (i <= j <= n)%nat → (j - i < fuel)%nat → (∀ k, (k < i)%nat → f k = false) → (∀ k, (j <= k < n)%nat → f k = true) →
  let r := search_loop fuel f i j in
  (r <= n)%nat ∧ (∀ k, (k < r)%nat → f k = false) ∧ (∀ k, (r <= k < n)%nat → f k = true).
Proof.
  revert i j. induction fuel as [|fuel IH]; intros i j Hij Hf Hlo Hhi; [lia|]. cbn [search_loop]. cbv zeta.
  case_decide as Hlt.
  - assert (i <= (i + j) / 2 < j)%nat as Hh.
    { pose proof (Nat.div_mod_eq (i + j) 2). pose proof (Nat.mod_upper_bound (i + j) 2). lia. }
    destruct (f ((i + j) / 2)%nat) eqn:Hfh.
    + apply IH; [lia|lia|done|]. intros k Hk. eapply Hmono; [|exact Hfh]. lia.
    + apply IH; [lia|lia| |done]. intros k Hk. destruct (f k) eqn:Hfk; [|done].
      rewrite (Hmono k ((i + j) / 2)%nat) in Hfh; [done|lia|done].
  - replace j with i in Hhi by lia. split_and!; [lia|done|done].
Qed.

Lemma Search_spec :
  (Search n f <= n)%nat ∧ (∀ k, (k < Search n f)%nat → f k = false) ∧ (∀ k, (Search n f <= k < n)%nat → f k = true).
Proof. apply search_loop_spec; [lia|lia|intros k ?; lia|intros k ?; lia]. Qed.
End search.

(** ** The owner of a hash *)

(** The first virtual node at or after [h], around the end. *)
Definition owner (h : Z) (l : list VirtualNode) : option VirtualNode :=
  match filter (λ vn, h <= Hash vn) l with
  | vn :: _ => Some vn
  | [] => head l
  end.

(** What it means to own a hash, whatever the order of the list. *)
Definition owns (h : Z) (v : VirtualNode) (l : list VirtualNode) : Prop :=
  v ∈ l ∧ ((h <= Hash v ∧ ∀ w, w ∈ l → h <= Hash w → Hash v <= Hash w)
           ∨ ((∀ w, w ∈ l → Hash w < h) ∧ ∀ w, w ∈ l → Hash v <= Hash w)).

Lemma sorted_head_le (v : VirtualNode) l w : StronglySorted hash_le (v :: l) → w ∈ v :: l → Hash v <= Hash w.
Proof.
  intros Hs [->|Hw]%elem_of_cons; [lia|]. inversion Hs as [|? ? _ Hall]; subst.
  rewrite Forall_forall in Hall. by apply Hall.
Qed.

Lemma sorted_filter (P : VirtualNode → Prop) `{!∀ v, Decision (P v)} l :
  StronglySorted hash_le l → StronglySorted hash_le (filter P l).
Proof.
  induction 1 as [|v l Hs IH Hall]; [constructor|]. rewrite filter_cons. case_decide; [|done].
  constructor; [done|]. rewrite Forall_forall in *. intros w [_ Hw]%list_elem_of_filter. auto.
Qed.

Lemma owner_owns h l v : StronglySorted hash_le l → owner h l = Some v → owns h v l.
Proof.
  intros Hs. unfold owner. destruct (filter _ l) as [|u us] eqn:Hf.
  - intros Hh. destruct l as [|x l]; [done|]. injection Hh as ->. split; [by left|right]. split.
    + intros w Hw. destruct (decide (h <= Hash w)) as [Hle|]; [|lia].
      assert (w ∈ filter (λ vn, h <= Hash vn) (v :: l)) as Hin by (by apply list_elem_of_filter).
      rewrite Hf in Hin. by apply not_elem_of_nil in Hin.
    + intros w Hw. by eapply sorted_head_le.
  - intros [= ->]. assert (v ∈ filter (λ vn, h <= Hash vn) l) as Hin by (rewrite Hf; by left).
    apply list_elem_of_filter in Hin as [Hle Hin]. split; [done|left]. split; [done|]. intros w Hw Hhw.
    apply (sorted_head_le v us); [rewrite <- Hf; by apply sorted_filter|].
    rewrite <- Hf. by apply list_elem_of_filter.
Qed.

Lemma owner_is_Some h l : l ≠ [] → is_Some (owner h l).
Proof. intros Hl. unfold owner. destruct (filter _ l); [|by eexists]. destruct l; [done|by eexists]. Qed.

Lemma sorted_lookup l i j v w :
  StronglySorted hash_le l → l !! i = Some v → l !! j = Some w → (i <= j)%nat → Hash v <= Hash w.
Proof.
  intros Hs Hv Hw Hij. destruct (decide (i = j)) as [<-|Hne]; [rewrite Hv in Hw; injection Hw as ->; lia|].
  apply (StronglySorted_app_1_elem_of hash_le (take j l) (drop j l) v w).
  - by rewrite take_drop.
  - apply list_elem_of_lookup. exists i. by rewrite lookup_take_lt by lia.
  - apply list_elem_of_lookup. exists 0%nat. by rewrite lookup_drop, Nat.add_0_r.
Qed.

Lemma filter_none {A} (P : A → Prop) `{!∀ x, Decision (P x)} (l : list A) :
  (∀ i x, l !! i = Some x → ¬ P x) → filter P l = [].
Proof.
  intros Hno. destruct (filter P l) as [|x xs] eqn:Hf; [done|exfalso].
  assert (x ∈ filter P l) as [HP Hx]%list_elem_of_filter by (rewrite Hf; by left).
  apply list_elem_of_lookup in Hx as [i Hi]. by apply (Hno i x).
Qed.

(** The binary search finds the owner. *)
Lemma search_owner h l :
  StronglySorted hash_le l → l ≠ [] →
  let idx := Search (length l) (λ i, match l !! i with Some vn => h <=? Hash vn | None => true end) in
  l !! (if decide (length l <= idx)%nat then 0%nat else idx) = owner h l.
Proof.
  intros Hs Hl. set (f := λ i, _). destruct (Search_spec f (length l)) as (Hr & Hlo & Hhi).
  { intros i j Hij. unfold f. destruct (lookup_lt_is_Some_2 l i) as [v Hv]; [lia|].
    destruct (lookup_lt_is_Some_2 l j) as [w Hw]; [lia|]. rewrite Hv, Hw. rewrite !Z.leb_le.
    pose proof (sorted_lookup l i j v w Hs Hv Hw). lia. }
  assert (∀ i v, (i < Search (length l) f)%nat → l !! i = Some v → ¬ h <= Hash v) as Hlo'.
  { intros i v Hi Hv. specialize (Hlo i Hi). unfold f in Hlo. rewrite Hv in Hlo. apply Z.leb_gt in Hlo. lia. }
  unfold owner. case_decide as Hge.
  - rewrite filter_none; [by destruct l|]. intros i v Hi. apply (Hlo' i); [|done]. apply lookup_lt_Some in Hi. lia.
  - destruct (lookup_lt_is_Some_2 l (Search (length l) f)) as [v Hv]; [lia|].
    assert (filter (λ vn, h <= Hash vn) l = v :: filter (λ vn, h <= Hash vn) (drop (S (Search (length l) f)) l)) as ->;
      [|by rewrite Hv].
    rewrite <- (take_drop_middle l _ v Hv) at 1. rewrite filter_app, filter_none.
    + simpl. rewrite filter_cons. rewrite decide_True; [done|].
      assert (f (Search (length l) f) = true) as Hft by (apply Hhi; lia).
      unfold f in Hft at 1. rewrite Hv in Hft. by apply Z.leb_le.
    + intros i x [Hx Hi]%lookup_take_Some. by apply (Hlo' i).
Qed.

(** ** Invariant *)

(** The ring holds the virtual nodes of the shards, in order. *)
Record ring_ok (hr : HashRing) : Prop := {
  ro_sorted : StronglySorted hash_le (ring hr);
  ro_nodes : ring hr ≡ₚ shards hr ≫= vnodes (virtualNodes hr);
  ro_nodup : NoDup (shards hr);
}.

Lemma vnodes_shard n s v : v ∈ vnodes n s → vn_Shard v = s.
Proof. by intros (i & -> & _)%list_elem_of_fmap. Qed.

Lemma ring_shard hr v : ring_ok hr → v ∈ ring hr → vn_Shard v ∈ shards hr.
Proof.
  intros [_ Hn _] Hv. rewrite Hn in Hv. apply list_elem_of_bind in Hv as (s & Hv & Hs).
  by rewrite (vnodes_shard _ _ _ Hv).
Qed.

Section sorted.
Context {sorter : SortSlice}.

Lemma add_all_ring ss hr :
  let hr' := fold_left (λ hr s, addShardToRing s hr) ss hr in
  shards hr' = shards hr ∧ virtualNodes hr' = virtualNodes hr
  ∧ ring hr' = ring hr ++ (ss ≫= vnodes (virtualNodes hr)).
Proof.
  revert hr. induction ss as [|s ss IH]; intros hr; simpl; [by rewrite app_nil_r|].
  destruct (IH (addShardToRing s hr)) as (-> & -> & ->). simpl. by rewrite <- app_assoc.
Qed.

Lemma new_ring_ok ss n hr : NoDup ss → NewHashRing ss n = Some hr → ring_ok hr ∧ shards hr = ss.
Proof.
  intros Hnd. unfold NewHashRing. destruct (make_panics _ _); [done|]. intros [= <-].
  destruct (add_all_ring ss (mkRing ss n [])) as (Hs & Hv & Hr). simpl in *. split; [|done].
  split; simpl; rewrite ?Hs, ?Hv, ?Hr.
  - apply sort_slice_sorted.
  - apply sort_slice_perm.
  - done.
Qed.

Lemma add_shard_ok s hr : ring_ok hr → ring_ok (AddShard s hr).
Proof.
  intros [Hs Hn Hd]. unfold AddShard. case_decide as Hin; [done|]. split; simpl.
  - apply sort_slice_sorted.
  - rewrite sort_slice_perm, Hn, bind_app. simpl. by rewrite app_nil_r.
  - apply NoDup_app. split_and!; [done| |apply NoDup_singleton]. intros x Hx ->%list_elem_of_singleton. done.
Qed.

Lemma remove_first_filter s l : NoDup l → remove_first s l = filter (λ x, x ≠ s) l.
Proof.
  induction 1 as [|x l Hx Hl IH]; simpl; [done|]. rewrite filter_cons. case_decide as Hxs.
  - subst x. rewrite decide_False by (by intros []). by rewrite filter_ne_id.
  - rewrite decide_True by done. by rewrite IH.
Qed.

Lemma filter_all {A} (P : A → Prop) `{!∀ x, Decision (P x)} (l : list A) :
  (∀ x, x ∈ l → P x) → filter P l = l.
Proof.
  induction l as [|x l IH]; intros Hall; [done|]. rewrite filter_cons, decide_True by (apply Hall; by left).
  f_equal. apply IH. intros y Hy. apply Hall. by right.
Qed.

Lemma filter_vnodes n s ss :
  filter (λ vn, vn_Shard vn ≠ s) (ss ≫= vnodes n) = filter (λ t, t ≠ s) ss ≫= vnodes n.
Proof.
  induction ss as [|t ss IH]; [done|]. rewrite bind_cons, filter_app, IH, (filter_cons _ t). case_decide as Hts.
  - rewrite bind_cons. f_equal. apply filter_all. by intros v ->%vnodes_shard.
  - rewrite filter_none; [done|]. intros i v Hv%list_elem_of_lookup_2%vnodes_shard. congruence.
Qed.

Lemma remove_shard_ok s hr : ring_ok hr → ring_ok (RemoveShard s hr).
Proof.
  intros [Hs Hn Hd]. split; simpl; rewrite ?remove_first_filter by done.
  - by apply sorted_filter.
  - by rewrite Hn, filter_vnodes.
  - by apply NoDup_filter.
Qed.
End sorted.

(** ** Operations *)

Inductive ring_op := OpAdd (s : ShardID) | OpRemove (s : ShardID).

Definition apply_op {sorter : SortSlice} (hr : HashRing) (op : ring_op) : HashRing :=
  match op with OpAdd s => AddShard s hr | OpRemove s => RemoveShard s hr end.

Lemma get_shard_owner key hr v :
  ring_ok hr → owner (hash key) (ring hr) = Some v → GetShard key hr = vn_Shard v.
Proof.
  intros Hok Ho. unfold GetShard. rewrite decide_False.
  - rewrite search_owner, Ho; [done|apply Hok|]. by intros E; rewrite E in Ho.
  - by intros E; rewrite E in Ho.
Qed.

(** The shards there are after the operations. *)
Definition members (ops : list ring_op) (ss : gset ShardID) : gset ShardID :=
  fold_left (λ ss op, match op with OpAdd s => {[s]} ∪ ss | OpRemove s => ss ∖ {[s]} end) ops ss.

Lemma apply_op_members {sorter : SortSlice} op hr :
  ring_ok hr → list_to_set (shards (apply_op hr op)) = members [op] (list_to_set (shards hr)).
Proof.
  intros Hok. destruct op as [s|s]; simpl.
  - unfold AddShard. case_decide as Hs; simpl; [set_solver|]. rewrite list_to_set_app_L. set_solver.
  - rewrite remove_first_filter by apply Hok. apply set_eq. intros x.
    rewrite elem_of_difference, !elem_of_list_to_set, list_elem_of_filter. set_solver.
Qed.

(** C19: A ring made of distinct shards and changed by any sequence of AddShard
    and RemoveShard has the shards that were added and not removed since, stays
    sorted and holds exactly the virtual nodes of its shards. While it has a virtual node, GetShard returns the shard of the one
    that follows the hash of the key on the circle. *)
Theorem ring_get_shard_is_successor {sorter : SortSlice} ss n hr ops key :
  NoDup ss → NewHashRing ss n = Some hr →
  let hr' := fold_left apply_op ops hr in
  ring_ok hr' ∧ list_to_set (shards hr') = members ops (list_to_set ss)
  ∧ (ring hr' ≠ [] →
    ∃ v, owns (hash key) v (ring hr') ∧ GetShard key hr' = vn_Shard v ∧ vn_Shard v ∈ shards hr').
Proof.
  intros Hnd Hnew. assert (ring_ok (fold_left apply_op ops hr)
    ∧ list_to_set (shards (fold_left apply_op ops hr)) = members ops (list_to_set ss)) as [Hok Hm].
  { destruct (new_ring_ok _ _ _ Hnd Hnew) as [Hok <-]. clear Hnew Hnd. revert hr Hok.
    induction ops as [|op ops IH]; intros hr Hok; [done|]. cbn [fold_left].
    destruct (IH (apply_op hr op)) as [? Hm]; [destruct op; [by apply add_shard_ok|by apply remove_shard_ok]|].
    split; [done|]. by rewrite Hm, apply_op_members. }
  split; [done|]. split; [done|]. intros Hne. destruct (owner_is_Some (hash key) _ Hne) as [v Hv].
  pose proof (owner_owns _ _ _ (ro_sorted _ Hok) Hv) as Howns. exists v. split_and!; [done|by apply get_shard_owner|].
  apply ring_shard; [done|]. apply Howns.
Qed.

(** ** Adding and removing shards *)

Lemma owns_unique h v w l :
  NoDup (Hash <$> l) → owns h v l → owns h w l → v = w.
Proof.
  intros Hnd [Hv Hv'] [Hw Hw']. apply (NoDup_key_inj Hash l); [done|done|done|].
  destruct Hv' as [[Hhv Hminv]|[Hallv Hminv]], Hw' as [[Hhw Hminw]|[Hallw Hminw]].
  - pose proof (Hminv w Hw Hhw). pose proof (Hminw v Hv Hhv). lia.
  - specialize (Hallw v Hv). lia.
  - specialize (Hallv w Hw). lia.
  - pose proof (Hminv w Hw). pose proof (Hminw v Hv). lia.
Qed.

(** Owning in a larger ring and being in the smaller one. *)
Lemma owns_subset h v l l' : owns h v l' → v ∈ l → (∀ w, w ∈ l → w ∈ l') → owns h v l.
Proof.
  intros [_ [[Hle Hmin]|[Hall Hmin]]] Hv Hsub; split; try done; [left|right]; split; auto.
Qed.

Lemma fmap_perm_nodup (l l' : list VirtualNode) : l ≡ₚ l' → NoDup (Hash <$> l) → NoDup (Hash <$> l').
Proof. intros Hp. by rewrite Hp. Qed.

Lemma add_shard_ring {sorter : SortSlice} s hr :
  s ∉ shards hr → ring (AddShard s hr) ≡ₚ ring hr ++ vnodes (virtualNodes hr) s.
Proof. intros Hs. unfold AddShard. rewrite decide_False by done. simpl. apply sort_slice_perm. Qed.

(** While no two virtual nodes collide, a new shard takes keys over and no
    key moves between the old ones. *)
Theorem ring_add_moves_only_to_new {sorter : SortSlice} s hr key :
  ring_ok hr → s ∉ shards hr → ring hr ≠ [] → NoDup (Hash <$> ring (AddShard s hr)) →
  GetShard key (AddShard s hr) = s ∨ GetShard key (AddShard s hr) = GetShard key hr.
Proof.
  intros Hok Hs Hne Hnd. pose proof (add_shard_ok s hr Hok) as Hok'. pose proof (add_shard_ring s hr Hs) as Hp.
  destruct (owner_is_Some (hash key) (ring hr) Hne) as [v Hv].
  destruct (owner_is_Some (hash key) (ring (AddShard s hr))) as [v' Hv'].
  { intros E. rewrite E in Hp. apply Permutation_nil_l in Hp. by destruct (ring hr). }
  rewrite (get_shard_owner _ _ _ Hok Hv), (get_shard_owner _ _ _ Hok' Hv').
  pose proof (owner_owns _ _ _ (ro_sorted _ Hok) Hv) as Ho. pose proof (owner_owns _ _ _ (ro_sorted _ Hok') Hv') as Ho'.
  pose proof (proj1 Ho') as Hin. rewrite Hp in Hin. apply elem_of_app in Hin as [Hin|Hin].
  - right. f_equal. apply (owns_unique (hash key) v' v (ring hr)); [|eapply owns_subset; [exact Ho'|done|]|done].
    + apply (fmap_perm_nodup _ _ Hp) in Hnd. rewrite fmap_app in Hnd. by apply NoDup_app in Hnd as [? _].
    + intros w Hw. rewrite Hp. apply elem_of_app. by left.
  - left. by apply vnodes_shard in Hin.
Qed.

Lemma filter_commute {A} (P Q : A → Prop) `{!∀ x, Decision (P x), !∀ x, Decision (Q x)} (l : list A) :
  filter P (filter Q l) = filter Q (filter P l).
Proof. rewrite !list_filter_filter. apply list_filter_iff. intros x. by rewrite (and_comm (P x)). Qed.

Lemma owner_filter h s l v :
  owner h l = Some v → vn_Shard v ≠ s → owner h (filter (λ vn, vn_Shard vn ≠ s) l) = Some v.
Proof.
  unfold owner. rewrite filter_commute. intros Ho Hs. destruct (filter (λ vn, h <= Hash vn) l) as [|u us] eqn:Hf.
  - destruct l as [|x l]; [done|]. injection Ho as ->. by rewrite !filter_cons, decide_True.
  - injection Ho as ->. by rewrite filter_cons, decide_True.
Qed.

(** Removing a shard moves no key of another shard, collisions or not. *)
Theorem ring_remove_keeps_others {sorter : SortSlice} s hr key :
  ring_ok hr → ring hr ≠ [] → GetShard key hr ≠ s → GetShard key (RemoveShard s hr) = GetShard key hr.
Proof.
  intros Hok Hne Hks. destruct (owner_is_Some (hash key) (ring hr) Hne) as [v Hv].
  rewrite (get_shard_owner _ _ _ Hok Hv) in *. apply get_shard_owner; [by apply remove_shard_ok|].
  by apply owner_filter.
Qed.

(** Without collisions there is one way to sort. *)
Lemma sorted_unique l l' :
  NoDup (Hash <$> l) → StronglySorted hash_le l → StronglySorted hash_le l' → l ≡ₚ l' → l = l'.
Proof.
  revert l'. induction l as [|x l IH]; intros l' Hnd Hs Hs' Hp.
  { by apply Permutation_nil_l in Hp. }
  destruct l' as [|y l']; [by apply Permutation_nil_r in Hp|].
  assert (x = y) as <-.
  { apply (NoDup_key_inj Hash (x :: l)); [done|by left|rewrite Hp; by left|].
    pose proof (sorted_head_le x l y Hs) as H1. pose proof (sorted_head_le y l' x Hs') as H2.
    assert (y ∈ x :: l) as Hy by (rewrite Hp; by left). assert (x ∈ y :: l') as Hx by (rewrite <- Hp; by left).
    specialize (H1 Hy). specialize (H2 Hx). lia. }
  f_equal. rewrite fmap_cons in Hnd. apply NoDup_cons in Hnd as [_ Hnd].
  apply StronglySorted_cons in Hs as [_ Hs], Hs' as [_ Hs']. apply IH; try done. by apply Permutation_cons_inv in Hp.
Qed.

Lemma remove_first_app s l : s ∉ l → remove_first s (l ++ [s]) = l.
Proof.
  induction l as [|x l IH]; intros Hs; simpl; [by rewrite decide_True|].
  apply not_elem_of_cons in Hs as [Hx Hl]. rewrite decide_False by done. by rewrite IH.
Qed.

(** Adding a shard and removing it again gives the same ring, while no two
    virtual nodes collide. *)
Theorem ring_add_remove_roundtrip {sorter : SortSlice} s hr :
  ring_ok hr → s ∉ shards hr → NoDup (Hash <$> ring hr) → RemoveShard s (AddShard s hr) = hr.
Proof.
  intros Hok Hs Hnd. pose proof (add_shard_ring s hr Hs) as Hp.
  assert (ring (RemoveShard s (AddShard s hr)) = ring hr) as Hr.
  { symmetry. apply sorted_unique; [done|by apply Hok|by apply remove_shard_ok, add_shard_ok|]. simpl.
    rewrite Hp, filter_app, filter_all, filter_none; [by rewrite app_nil_r| |].
    - intros i v Hv%list_elem_of_lookup_2%vnodes_shard. by intros [].
    - intros v Hv E. apply Hs. rewrite <- E. by apply ring_shard. }
  unfold RemoveShard in *. simpl in Hr. rewrite Hr. unfold AddShard. rewrite decide_False by done. simpl.
  rewrite remove_first_app by done. by destruct hr.
Qed.

(** ** Instances *)

Definition MergeSort : SortSlice.
Proof.
  refine {| sort_slice := merge_sort hash_le |}.
  - apply merge_sort_Permutation.
  - apply StronglySorted_merge_sort; apply _.
Defined.

Definition small_ring : HashRing := default (mkRing [] 0 []) (NewHashRing (sorter := MergeSort) [0; 1; 2] 2).

Lemma small_ring_new : NewHashRing (sorter := MergeSort) [0; 1; 2] 2 = Some small_ring.
Proof. by vm_compute. Qed.

Lemma small_ring_nodup : NoDup [0; 1; 2].
Proof. by apply (bool_decide_unpack (NoDup [0; 1; 2])). Qed.

Lemma small_ring_ok : ring_ok small_ring ∧ shards small_ring = [0; 1; 2].
Proof. exact (@new_ring_ok MergeSort _ _ _ small_ring_nodup small_ring_new). Qed.

Lemma ring_get_shard_is_successor_witness :
  let hr := fold_left (apply_op (sorter := MergeSort)) [OpAdd 7; OpRemove 1] small_ring in
  ring_ok hr ∧ ∃ v, owns (hash (str "user:123")) v (ring hr) ∧ GetShard (str "user:123") hr = vn_Shard v
    ∧ vn_Shard v ∈ shards hr.
Proof.
  pose proof (@ring_get_shard_is_successor MergeSort [0; 1; 2] 2 small_ring [OpAdd 7; OpRemove 1] (str "user:123")
    small_ring_nodup small_ring_new) as (Hok & _ & Hs). split; [exact Hok|]. apply Hs. by vm_compute.
Defined.

Lemma ring_add_moves_only_to_new_witness :
  GetShard (str "user:123") (AddShard (sorter := MergeSort) 7 small_ring) = 7
  ∨ GetShard (str "user:123") (AddShard (sorter := MergeSort) 7 small_ring) = GetShard (str "user:123") small_ring.
Proof.
  apply (@ring_add_moves_only_to_new MergeSort); [apply small_ring_ok| | |].
  - rewrite (proj2 small_ring_ok). by apply (bool_decide_unpack (7 ∉ [0; 1; 2])).
  - by vm_compute.
  - apply (bool_decide_unpack _). by vm_compute.
Defined.

Lemma ring_remove_keeps_others_witness :
  GetShard (str "user:123") (RemoveShard (GetShard (str "user:123") small_ring + 1) small_ring)
  = GetShard (str "user:123") small_ring.
Proof. apply (@ring_remove_keeps_others MergeSort); [apply small_ring_ok|by vm_compute|lia]. Defined.

Lemma ring_add_remove_roundtrip_witness : RemoveShard 7 (AddShard (sorter := MergeSort) 7 small_ring) = small_ring.
Proof.
  apply (@ring_add_remove_roundtrip MergeSort); [apply small_ring_ok| |].
  - rewrite (proj2 small_ring_ok). by apply (bool_decide_unpack (7 ∉ [0; 1; 2])).
  - apply (bool_decide_unpack _). by vm_compute.
Defined.
