(* ===== verification/GoServer.v ===== *)
(** * The RESP server of the Go node

    src/node/server/resp_server.go over the Go binding: reading a command from
    a connection, running it on the engine, answering. The input of a
    connection is the sequence of bytes that arrive on it. A panic of a
    connection's goroutine ends the process. [strings.ToUpper] is modelled where
    its argument is ASCII; on other strings it is any function. *)

From S2P Require Import Prelude Files Policy Lru Lfu Dispatch HashTable Store TableFacts Table Resp Engine Binding.

(** ** What the server uses of the standard library *)

(** [bufio.Reader.ReadString]: up to and including the line feed. [None]: the
    connection ends before. *)
Fixpoint ReadString (s : bytes) : option (bytes * bytes) :=
  match s with
  | [] => None
  | c :: s =>
      if decide (c = LF) then Some ([c], s)
      else match ReadString s with Some (line, rest) => Some (c :: line, rest) | None => None end
  end.

(** The UTF-8 encodings of the white space of [unicode.IsSpace]. *)
Definition SPACES : list bytes :=
  map (map (λ z, byte.of_Z z))
    [[0x09]; [0x0a]; [0x0b]; [0x0c]; [0x0d]; [0x20]; [0xc2; 0x85]; [0xc2; 0xa0]; [0xe1; 0x9a; 0x80];
     [0xe2; 0x80; 0x80]; [0xe2; 0x80; 0x81]; [0xe2; 0x80; 0x82]; [0xe2; 0x80; 0x83]; [0xe2; 0x80; 0x84];
     [0xe2; 0x80; 0x85]; [0xe2; 0x80; 0x86]; [0xe2; 0x80; 0x87]; [0xe2; 0x80; 0x88]; [0xe2; 0x80; 0x89];
     [0xe2; 0x80; 0x8a]; [0xe2; 0x80; 0xa8]; [0xe2; 0x80; 0xa9]; [0xe2; 0x80; 0xaf]; [0xe2; 0x81; 0x9f];
     [0xe3; 0x80; 0x80]].

Fixpoint strip_prefix (p s : bytes) : option bytes :=
  match p, s with
  | [], _ => Some s
  | a :: p, b :: s => if decide (a = b) then strip_prefix p s else None
  | _, [] => None
  end.

Fixpoint strip_any (ps : list bytes) (s : bytes) : option bytes :=
  match ps with
  | [] => None
  | p :: ps => match strip_prefix p s with Some s' => Some s' | None => strip_any ps s end
  end.

Fixpoint trim (fuel : nat) (ps : list bytes) (s : bytes) : bytes :=
  match fuel with
  | O => s
  | S fuel => match strip_any ps s with Some s' => trim fuel ps s' | None => s end
  end.

(** [strings.TrimSpace]. *)
Definition TrimSpace (s : bytes) : bytes :=
  let s := trim (length s) SPACES s in
  rev (trim (length s) (map (@rev _) SPACES) (rev s)).

(** [strconv.Atoi]. *)
Definition Atoi (s : bytes) : option Z :=
  let '(negative, ds) :=
    match s with
    | c :: t => if decide (c = PLUS) then (false, t) else if decide (c = MINUS) then (true, t) else (false, s)
    | [] => (false, s)
    end in
  match ds with
  | [] => None
  | _ =>
      if forallb is_digit ds then
        let z := if negative then - digits_value ds else digits_value ds in
        if (- 2 ^ 63 <=? z) && (z <? 2 ^ 63) then Some z else None
      else None
  end.

Definition STRING_SIZE : Z := 16.

(** ** Reading a command *)

(** [ReadFuel]: the model runs out of fuel, which does not happen. *)
Inductive read_result (A : Type) :=
| ReadOk (a : A) (rest : bytes)
| ReadError
| ReadPanics
| ReadFuel.
Arguments ReadOk {A}.
Arguments ReadError {A}.
Arguments ReadPanics {A}.
Arguments ReadFuel {A}.

(** The number on a line that starts with [tag]. *)
Definition read_number (tag : Init.Byte.byte) (s : bytes) : read_result Z :=
  match ReadString s with
  | None => ReadError
  | Some (line, rest) =>
      match TrimSpace line with
      | c :: num => if decide (c = tag) then match Atoi num with Some n => ReadOk n rest | None => ReadError end
                    else ReadError
      | [] => ReadError
      end
  end.

(** One round of the loop: a bulk string. *)
Definition read_bulk (s : bytes) : read_result bytes :=
  match read_number DOLLAR s with
  | ReadOk length rest =>
      let size := s64 (length + 2) in
      if make_panics 1 size then ReadPanics
      else if zlen rest <? size then ReadError
      else if length <? 0 then ReadPanics
      else ReadOk (take (Z.to_nat length) rest) (drop (Z.to_nat size) rest)
  | ReadError => ReadError
  | ReadPanics => ReadPanics
  | ReadFuel => ReadFuel
  end.

Fixpoint read_bulks (fuel : nat) (count : Z) (s : bytes) : read_result (list bytes) :=
  if count <=? 0 then ReadOk [] s
  else match fuel with
  | O => ReadFuel
  | S fuel =>
      match read_bulk s with
      | ReadOk b rest =>
          match read_bulks fuel (count - 1) rest with
          | ReadOk bs rest => ReadOk (b :: bs) rest
          | r => r
          end
      | ReadError => ReadError
      | ReadPanics => ReadPanics
      | ReadFuel => ReadFuel
      end
  end.

Definition readRESPArray (s : bytes) : read_result (list bytes) :=
  match read_number STAR s with
  | ReadOk count rest =>
      if make_panics STRING_SIZE count then ReadPanics else read_bulks (S (length rest)) count rest
  | ReadError => ReadError
  | ReadPanics => ReadPanics
  | ReadFuel => ReadFuel
  end.

(** ** Running a command *)

Definition SECOND : Z := 1000000000.
Definition MILLISECOND : Z := 1000000.

Definition err_text (e : go_error) (other : bytes) : bytes :=
  match e with
  | ErrNotFound => str "key not found"
  | ErrBufferTooSmall => str "buffer too small"
  | ErrValueTooLarge => str "value too large (max 512KB)"
  | ErrOther => other
  end.

Definition err_reply (msg : bytes) : bytes := str "-ERR " ++ msg ++ CRLF.

Definition arity_error (name : string) : bytes := err_reply (str "wrong number of arguments for '" ++ str name ++ str "'").

Definition bulk_reply (v : bytes) : bytes := [DOLLAR] ++ show (zlen v) ++ CRLF ++ v ++ CRLF.

Definition NULL_REPLY : bytes := str "$-1" ++ CRLF.
Definition OK_REPLY : bytes := str "+OK" ++ CRLF.
Definition PONG_REPLY : bytes := str "+PONG" ++ CRLF.
Definition ONE_REPLY : bytes := str ":1" ++ CRLF.

Definition upper_byte (c : Init.Byte.byte) : Init.Byte.byte :=
  if (97 <=? byte.unsigned c) && (byte.unsigned c <=? 122) then byte.of_Z (byte.unsigned c - 32) else c.

Definition is_ascii (s : bytes) : bool := forallb (λ c, byte.unsigned c <? 128) s.

Section server.
Context {H : Type} `{!LFU.PriorityQueue H}.
Context (upper_unicode : bytes → bytes).

Definition ToUpper (s : bytes) : bytes := if is_ascii s then map upper_byte s else upper_unicode s.

(** The options of SET after key and value. *)
Fixpoint set_ttl (opts : list bytes) (ttl : Z) : Z :=
  match opts with
  | o :: ((a :: rest) as more) =>
      if decide (ToUpper o = str "EX")
      then set_ttl rest (match Atoi a with Some n => s64 (n * SECOND) | None => ttl end)
      else if decide (ToUpper o = str "PX")
      then set_ttl rest (match Atoi a with Some n => s64 (n * MILLISECOND) | None => ttl end)
      else set_ttl more ttl
  | _ => ttl
  end.

(** [clock] are the readings during the command. *)
Definition handleCommand (cmd : list bytes) (clock : Z * Z * Z) (e : EngineHandle (H := H)) : bytes * EngineHandle :=
  match cmd with
  | [] => (err_reply (str "empty command"), e)
  | name :: args =>
      let command := ToUpper name in
      if decide (command = str "PING") then (PONG_REPLY, e)
      else if decide (command = str "SET") then
        match args with
        | key :: value :: opts =>
            let '(err, h) := go_set key value (set_ttl opts 0) clock.1.1 e in
            (match err with
             | Some err => err_reply (err_text err (str "engine_set failed"))
             | None => OK_REPLY
             end, default e h)
        | _ => (arity_error "set", e)
        end
      else if decide (command = str "GET") then
        match args with
        | [key] =>
            let '(res, h) := go_get key clock e in
            (match res with
             | inr ErrNotFound => NULL_REPLY
             | inr err => err_reply (err_text err (str "engine_get failed"))
             | inl value => bulk_reply value
             end, default e h)
        | _ => (arity_error "get", e)
        end
      else if decide (command = str "DEL") then
        match args with
        | [key] =>
            let '(err, h) := go_delete key e in
            (match err with
             | None | Some ErrNotFound => ONE_REPLY
             | Some err => err_reply (err_text err (str "engine_delete failed"))
             end, default e h)
        | _ => (arity_error "del", e)
        end
      else (err_reply (str "unknown command '" ++ command ++ str "'"), e)
  end.

(** ** A connection *)

Inductive conn_end := Closed | Crashed | OutOfFuel.

(** The loop of [handleConnection]: the [k]-th command has the readings
    [clock k]; [writes k] says whether the [k]-th answer can be written. *)
Fixpoint connection_loop (fuel : nat) (clock : nat → Z * Z * Z) (writes : nat → bool) (k : nat)
    (s : bytes) (e : EngineHandle) : list bytes * EngineHandle * conn_end :=
  match fuel with
  | O => ([], e, OutOfFuel)
  | S fuel =>
      match readRESPArray s with
      | ReadOk cmd rest =>
          let '(reply, e) := handleCommand cmd (clock k) e in
          if writes k then
            let '(replies, e, st) := connection_loop fuel clock writes (S k) rest e in
            (reply :: replies, e, st)
          else ([], e, Closed)
      | ReadError => ([], e, Closed)
      | ReadPanics => ([], e, Crashed)
      | ReadFuel => ([], e, OutOfFuel)
      end
  end.

Definition handleConnection (clock : nat → Z * Z * Z) (writes : nat → bool) (s : bytes) (e : EngineHandle)
  : list bytes * EngineHandle * conn_end :=
  connection_loop (S (length s)) clock writes 0 s e.
End server.

(** ** Numbers and lines *)

Lemma Atoi_show z : - 2 ^ 63 <= z < 2 ^ 63 → Atoi (show z) = Some z.
Proof.
  intros Hz. unfold show.
  assert ((- 2 ^ 63 <=? z) && (z <? 2 ^ 63) = true) as Hrange.
  { apply andb_true_intro. split; [apply Z.leb_le|apply Z.ltb_lt]; lia. }
  assert (∀ n, 0 <= n → forallb is_digit (decimal n) = true) as Hall.
  { intros n Hn. apply forallb_forall. intros c Hc. pose proof (decimal_digits n Hn) as Hd.
    rewrite Forall_forall in Hd. apply Hd. by apply list_elem_of_In. }
  destruct (Z.ltb_spec z 0).
  - destruct (decimal_cons (- z) ltac:(lia)) as (c & ds & E).
    unfold Atoi. cbn [app]. rewrite decide_False, decide_True, E by done. cbv beta iota.
    rewrite <- E, Hall, decimal_value by lia. replace (- - z) with z by lia. by rewrite Hrange.
  - destruct (decimal_cons z ltac:(lia)) as (c & ds & E). pose proof (decimal_digits z ltac:(lia)) as Hd.
    rewrite E in Hd. apply Forall_cons in Hd as [Hd _]. destruct (is_digit_plain c Hd) as (_ & Hp & Hm & _).
    unfold Atoi. rewrite E, !decide_False by done. cbv beta iota.
    rewrite <- E, Hall, decimal_value by lia. by rewrite Hrange.
Qed.

(** The last character of a number is a digit. *)
Lemma show_last z : ∃ ds c, show z = ds ++ [c] ∧ is_digit c = true.
Proof.
  assert (∀ n, 0 <= n → ∃ ds c, decimal n = ds ++ [c] ∧ is_digit c = true) as Hdec.
  { intros n Hn. destruct (decimal_cons n Hn) as (c & ds & E).
    destruct (exists_last (l := decimal n)) as (ds' & c' & E'); [by rewrite E|].
    exists ds', c'. split; [done|]. pose proof (decimal_digits n Hn) as Hd. rewrite E' in Hd.
    apply Forall_app in Hd as [_ Hd]. by apply Forall_cons in Hd as [? _]. }
  unfold show. destruct (Z.ltb_spec z 0).
  - destruct (Hdec (- z)) as (ds & c & -> & Hc); [lia|]. by exists (MINUS :: ds), c.
  - apply Hdec. lia.
Qed.

Lemma show_no_LF z : LF ∉ show z.
Proof.
  assert (∀ n, 0 <= n → LF ∉ decimal n) as Hdec.
  { intros n Hn Hin. pose proof (decimal_digits n Hn) as Hd. rewrite Forall_forall in Hd. by apply Hd in Hin. }
  unfold show. destruct (Z.ltb_spec z 0).
  - rewrite not_elem_of_app. split; [|apply Hdec; lia]. by intros ?%list_elem_of_singleton.
  - by apply Hdec.
Qed.

Lemma ReadString_line l rest : LF ∉ l → ReadString (l ++ CRLF ++ rest) = Some (l ++ CRLF, rest).
Proof.
  induction l as [|c l IH]; intros Hl; [done|]. apply not_elem_of_cons in Hl as [Hc Hl].
  rewrite <- !app_comm_cons. cbn [ReadString]. rewrite decide_False by congruence. by rewrite (IH Hl).
Qed.

Lemma strip_prefix_head p c s : (∀ p', p ≠ c :: p') → p ≠ [] → strip_prefix p (c :: s) = None.
Proof. intros Hp Hne. destruct p as [|a p]; [done|]. simpl. rewrite decide_False; [done|]. intros ->. by eapply Hp. Qed.

(** No white space begins (or, reversed, ends) with such a character. *)
Lemma trim_stop fuel ps c s :
  forallb (λ p, match p with a :: _ => negb (bool_decide (a = c)) | [] => false end) ps = true →
  trim fuel ps (c :: s) = c :: s.
Proof.
  intros Hps. destruct fuel; simpl; [done|]. assert (strip_any ps (c :: s) = None) as ->; [|done].
  induction ps as [|p ps IH]; simpl; [done|]. simpl in Hps. apply andb_prop in Hps as [Hp Hps].
  destruct p as [|a p]; [done|]. rewrite strip_prefix_head; [auto| |done].
  intros p' [= -> _]. by rewrite bool_decide_true in Hp.
Qed.

Lemma digit_not_space c :
  is_digit c = true →
  forallb (λ p, match p with a :: _ => negb (bool_decide (a = c)) | [] => false end) (map (@rev _) SPACES) = true.
Proof. by destruct c. Qed.

Lemma TrimSpace_line tag l c :
  tag = STAR ∨ tag = DOLLAR → is_digit c = true →
  TrimSpace (tag :: l ++ [c] ++ CRLF) = tag :: l ++ [c].
Proof.
  intros Htag Hc. unfold TrimSpace. rewrite trim_stop by (by destruct Htag as [->| ->]).
  rewrite app_assoc, app_comm_cons, rev_app_distr. change (rev CRLF) with [LF; CR].
  rewrite app_comm_cons, length_app, rev_unit. change (length CRLF) with 2%nat.
  rewrite Nat.add_comm. cbn [app Nat.add trim].
  assert (∀ t, strip_any (map (@rev _) SPACES) (LF :: t) = Some t) as -> by done.
  assert (∀ t, strip_any (map (@rev _) SPACES) (CR :: t) = Some t) as -> by done.
  rewrite trim_stop by (by apply digit_not_space). cbn [rev]. by rewrite rev_app_distr, rev_involutive.
Qed.

Lemma read_number_show tag n rest :
  tag = STAR ∨ tag = DOLLAR → - 2 ^ 63 <= n < 2 ^ 63 →
  read_number tag ([tag] ++ show n ++ CRLF ++ rest) = ReadOk n rest.
Proof.
  intros Htag Hn. unfold read_number. rewrite app_assoc, ReadString_line.
  - destruct (show_last n) as (ds & c & E & Hc). rewrite E, <- !app_assoc.
    change ([tag] ++ ds ++ [c] ++ CRLF) with (tag :: ds ++ [c] ++ CRLF). rewrite (TrimSpace_line tag ds c Htag Hc), decide_True by done. by rewrite <- E, Atoi_show.
  - apply not_elem_of_app. split; [|apply show_no_LF]. intros E%list_elem_of_singleton. by destruct Htag; subst tag.
Qed.

(** ** Commands on the wire *)

(** A command as a client sends it. *)
Definition encode (cmd : list bytes) : bytes := serialize (Array (BulkString <$> cmd)).

(** Lengths the server can allocate for. *)
Definition sendable (cmd : list bytes) : Prop :=
  STRING_SIZE * zlen cmd <= 2 ^ 48 ∧ Forall (λ b, zlen b + 2 <= 2 ^ 48) cmd.

Lemma read_bulk_encode b rest :
  zlen b + 2 <= 2 ^ 48 → read_bulk (serialize (BulkString b) ++ rest) = ReadOk b rest.
Proof.
  intros Hb. pose proof (zlen_nonneg b). unfold read_bulk. cbn [serialize].
  rewrite <- !app_assoc, read_number_show by (auto || lia).
  rewrite s64_small by lia. unfold make_panics. destruct (Z.ltb_spec (zlen b + 2) 0); [lia|].
  destruct (Z.ltb_spec (2 ^ 48) (1 * (zlen b + 2))); [lia|]. simpl orb. cbv iota.
  assert (zlen (b ++ CRLF ++ rest) = zlen b + 2 + zlen rest) as Hlen.
  { rewrite !zlen_app. change (zlen CRLF) with 2. lia. }
  pose proof (zlen_nonneg rest). destruct (Z.ltb_spec (zlen (b ++ CRLF ++ rest)) (zlen b + 2)); [lia|].
  destruct (Z.ltb_spec (zlen b) 0); [lia|]. f_equal.
  - unfold zlen. rewrite Nat2Z.id. by rewrite take_app_length.
  - rewrite app_assoc. replace (Z.to_nat (zlen b + 2)) with (length (b ++ CRLF)); [by rewrite drop_app_length|].
    rewrite length_app. unfold zlen. simpl. lia.
Qed.

Lemma read_bulks_encode fuel cmd rest :
  (length cmd <= fuel)%nat → Forall (λ b, zlen b + 2 <= 2 ^ 48) cmd →
  read_bulks fuel (zlen cmd) (concat (serialize <$> (BulkString <$> cmd)) ++ rest) = ReadOk cmd rest.
Proof.
  intros Hf Hcmd. revert fuel Hf. induction Hcmd as [|b cmd Hb _ IH]; intros fuel Hf; [by destruct fuel|].
  destruct fuel as [|fuel]; simpl in Hf; [lia|]. rewrite zlen_cons. cbn [read_bulks].
  pose proof (zlen_nonneg cmd). destruct (Z.leb_spec (zlen cmd + 1) 0); [lia|].
  rewrite !fmap_cons. cbn [concat]. rewrite <- app_assoc, read_bulk_encode by done.
  replace (zlen cmd + 1 - 1) with (zlen cmd) by lia. rewrite IH by lia. done.
Qed.

Lemma bulks_length cmd : (length cmd <= length (concat (serialize <$> (BulkString <$> cmd))))%nat.
Proof.
  induction cmd as [|b cmd IH]; [done|]. rewrite !fmap_cons. cbn [concat]. rewrite length_app.
  cbn [serialize]. rewrite !length_app. simpl. lia.
Qed.

Lemma read_encode cmd rest : sendable cmd → readRESPArray (encode cmd ++ rest) = ReadOk cmd rest.
Proof.
  intros [Hc Hb]. pose proof (zlen_nonneg cmd). unfold readRESPArray, encode, STRING_SIZE in *. cbn [serialize].
  assert (zlen (BulkString <$> cmd) = zlen cmd) as -> by (unfold zlen; by rewrite length_fmap).
  rewrite <- !app_assoc, read_number_show by (auto || lia). unfold make_panics.
  destruct (Z.ltb_spec (zlen cmd) 0); [lia|]. destruct (Z.ltb_spec (2 ^ 48) (16 * zlen cmd)); [lia|]. simpl orb. cbv iota.
  apply read_bulks_encode; [|done]. rewrite length_app. pose proof (bulks_length cmd). lia.
Qed.

(** ** Termination *)

Lemma ReadString_shorter s line rest : ReadString s = Some (line, rest) → (length rest < length s)%nat.
Proof.
  revert line. induction s as [|c s IH]; intros line; simpl; [done|]. destruct (decide (c = LF)); [intros [= _ <-]; lia|].
  destruct (ReadString s) as [[l r]|]; [|done]. intros [= _ <-]. specialize (IH l eq_refl). lia.
Qed.

Lemma read_number_shorter tag s n rest : read_number tag s = ReadOk n rest → (length rest < length s)%nat.
Proof.
  unfold read_number. destruct (ReadString s) as [[line r]|] eqn:Hr; [|done].
  destruct (TrimSpace line) as [|c num]; [done|]. destruct (decide (c = tag)); [|done].
  destruct (Atoi num); [|done]. intros [= _ <-]. by eapply ReadString_shorter.
Qed.

Lemma read_number_fuel tag s : read_number tag s ≠ ReadFuel.
Proof.
  unfold read_number. destruct (ReadString s) as [[line r]|]; [|done].
  destruct (TrimSpace line); [done|]. destruct (decide _); [|done]. by destruct (Atoi _).
Qed.

Lemma read_bulk_spec s :
  read_bulk s ≠ ReadFuel ∧ ∀ b rest, read_bulk s = ReadOk b rest → (length rest < length s)%nat.
Proof.
  unfold read_bulk. pose proof (read_number_fuel DOLLAR s) as Hf.
  destruct (read_number DOLLAR s) as [n r| | |] eqn:Hn; [|done..]. apply read_number_shorter in Hn.
  destruct (make_panics _ _); [done|]. destruct (_ <? _); [done|]. destruct (_ <? _); [done|].
  split; [done|]. intros b rest [= _ <-]. rewrite length_drop. lia.
Qed.

Lemma read_bulks_spec fuel count s :
  (length s < fuel)%nat →
  read_bulks fuel count s ≠ ReadFuel ∧ ∀ bs rest, read_bulks fuel count s = ReadOk bs rest → (length rest <= length s)%nat.
Proof.
  revert count s. induction fuel as [|fuel IH]; intros count s Hf; [lia|]. cbn [read_bulks].
  destruct (count <=? 0); [split; [done|]; intros bs rest [= _ <-]; lia|].
  destruct (read_bulk_spec s) as [Hnf Hlen]. destruct (read_bulk s) as [b r| | |] eqn:Hb; [|done..].
  specialize (Hlen b r eq_refl). destruct (IH (count - 1) r) as [Hnf' Hlen']; [lia|].
  destruct (read_bulks fuel (count - 1) r) as [bs r'| | |]; [|done..]. split; [done|].
  intros bs' rest [= _ <-]. specialize (Hlen' bs r' eq_refl). lia.
Qed.

Lemma readRESPArray_spec s :
  readRESPArray s ≠ ReadFuel ∧ ∀ cmd rest, readRESPArray s = ReadOk cmd rest → (length rest < length s)%nat.
Proof.
  unfold readRESPArray. pose proof (read_number_fuel STAR s) as Hf.
  destruct (read_number STAR s) as [n r| | |] eqn:Hn; [|done..]. apply read_number_shorter in Hn.
  destruct (make_panics _ _); [done|]. destruct (read_bulks_spec (S (length r)) n r) as [Hnf Hlen]; [lia|].
  split; [done|]. intros cmd rest Hr. apply Hlen in Hr. lia.
Qed.

Section theorems.
Context {H : Type} `{!LFU.PriorityQueue H}.
Context (upper_unicode : bytes → bytes).

Abbreviation handle := (handleCommand (H := H) upper_unicode).
Abbreviation upper := (ToUpper upper_unicode).

(** The commands one after the other. *)
Fixpoint run_commands (clock : nat → Z * Z * Z) (k : nat) (cmds : list (list bytes)) (e : EngineHandle)
  : list bytes * EngineHandle :=
  match cmds with
  | [] => ([], e)
  | cmd :: cmds =>
      let '(reply, e) := handle cmd (clock k) e in
      let '(replies, e) := run_commands clock (S k) cmds e in (reply :: replies, e)
  end.

Lemma connection_loop_commands fuel clock k cmds e :
  (length cmds < fuel)%nat → Forall sendable cmds →
  connection_loop upper_unicode fuel clock (λ _, true) k (concat (encode <$> cmds)) e
  = (run_commands clock k cmds e, Closed).
Proof.
  intros Hf Hcmds. revert fuel k e Hf. induction Hcmds as [|cmd cmds Hc _ IH]; intros fuel k e Hf.
  { destruct fuel as [|fuel]; [simpl in Hf; lia|]. done. }
  destruct fuel as [|fuel]; [lia|]. rewrite fmap_cons. cbn [concat connection_loop]. rewrite read_encode by done.
  cbn [run_commands]. destruct (handle cmd (clock k) e) as [reply e1]. simpl in Hf. rewrite IH by lia.
  by destruct (run_commands clock (S k) cmds e1).
Qed.

Lemma encode_length cmds : (length cmds <= length (concat (encode <$> cmds)))%nat.
Proof.
  induction cmds as [|cmd cmds IH]; [done|]. rewrite fmap_cons. cbn [concat]. rewrite length_app.
  unfold encode at 1. cbn [serialize]. rewrite length_app. simpl. lia.
Qed.

(** C18: Commands that a client sends back to back, in the encoding of the
    engine's own serialiser, are all read, run in order and answered in order. *)
Theorem go_server_serves_pipeline clock cmds e :
  Forall sendable cmds →
  handleConnection upper_unicode clock (λ _, true) (concat (encode <$> cmds)) e = (run_commands clock 0 cmds e, Closed).
Proof.
  intros Hc. unfold handleConnection. apply connection_loop_commands; [|done]. pose proof (encode_length cmds). lia.
Qed.

Lemma connection_loop_ends fuel clock writes k s e :
  (length s < fuel)%nat → (connection_loop upper_unicode fuel clock writes k s e).2 ≠ OutOfFuel.
Proof.
  revert k s e. induction fuel as [|fuel IH]; intros k s e Hf; [lia|]. cbn [connection_loop].
  destruct (readRESPArray_spec s) as [Hnf Hlen]. destruct (readRESPArray s) as [cmd rest| | |]; [|done..].
  destruct (handle cmd (clock k) e) as [reply e1]. destruct (writes k); [|done].
  specialize (Hlen cmd rest eq_refl). specialize (IH (S k) rest e1). 
  destruct (connection_loop upper_unicode fuel clock writes (S k) rest e1) as [[replies e2] st]. apply IH. lia.
Qed.

(** Whatever arrives, the loop of a connection ends. *)
Theorem go_server_connection_ends clock writes s e :
  (handleConnection upper_unicode clock writes s e).2 ≠ OutOfFuel.
Proof. apply connection_loop_ends. lia. Qed.

(** A command that announces a negative number of arguments makes the
    goroutine panic, and with it the process, whatever else is sent. *)
Theorem go_server_negative_count_crashes clock writes n rest e :
  - 2 ^ 63 <= n < 0 →
  handleConnection upper_unicode clock writes ([STAR] ++ show n ++ CRLF ++ rest) e = ([], e, Crashed).
Proof.
  intros Hn. unfold handleConnection. cbn [connection_loop]. unfold readRESPArray.
  rewrite read_number_show by (auto || lia). unfold make_panics. by destruct (Z.ltb_spec n 0); [|lia].
Qed.

(** ** What the commands mean

    The names of commands and options are words of capital letters, which may
    be written with small ones. *)

(** The same letter, or its small form. *)
Definition letter_of (w c : Init.Byte.byte) : Prop := c = w ∨ byte.unsigned c = byte.unsigned w + 32.

#[local] Instance letter_of_dec w c : Decision (letter_of w c).
Proof. unfold letter_of. apply _. Defined.

Definition spells (word s : bytes) : Prop := Forall2 letter_of word s.

(** [d] is [c] in capitals. *)
Definition capital_of (c d : Init.Byte.byte) : Prop :=
  if decide (97 <= byte.unsigned c <= 122) then byte.unsigned d = byte.unsigned c - 32 else d = c.

(** Words the theorem speaks of: ASCII, where the server compares them. *)
Definition ascii_words (cmd : list bytes) : bool :=
  match cmd with
  | [] => true
  | name :: args => is_ascii name && forallb is_ascii (drop 2 args)
  end.

Definition LETTERS : bytes := str "PINGSETDLX".

#[local] Ltac by_letter c :=
  destruct c; vm_compute; (split; [intros E; try discriminate E; auto|intros [E|E]; try discriminate E; reflexivity]).

Lemma upper_letter w c : w ∈ LETTERS → upper_byte c = w ↔ letter_of w c.
Proof.
  intros Hw. unfold letter_of. unfold LETTERS in Hw.
  repeat (apply elem_of_cons in Hw as [->|Hw]; [by_letter c|]). by apply not_elem_of_nil in Hw.
Qed.

Lemma ToUpper_spells word s :
  is_ascii s = true → Forall (.∈ LETTERS) word → upper s = word ↔ spells word s.
Proof.
  intros Hs Hw. unfold ToUpper. rewrite Hs. clear Hs. unfold spells.
  revert s. induction Hw as [|w word Hw _ IH]; intros [|c s]; simpl.
  - split; [constructor|done].
  - split; [done|]. by intros ?%Forall2_nil_cons_inv.
  - split; [done|]. by intros ?%Forall2_cons_nil_inv.
  - rewrite Forall2_cons, <- upper_letter, <- IH by done. split; [by intros [= -> ->]|by intros [-> ->]].
Qed.

Lemma capital_upper s : is_ascii s = true → Forall2 capital_of s (upper s).
Proof.
  intros Hs. unfold ToUpper. rewrite Hs. clear Hs. induction s as [|c s IH]; simpl; constructor; [|done].
  clear. unfold capital_of. by destruct c.
Qed.

(** What the server says to a command it refuses. *)
Inductive refused : list bytes → bytes → Prop :=
| refused_empty : refused [] (str "empty command")
| refused_set name args :
    spells (str "SET") name → (length args < 2)%nat →
    refused (name :: args) (str "wrong number of arguments for 'set'")
| refused_get name args :
    spells (str "GET") name → length args ≠ 1%nat →
    refused (name :: args) (str "wrong number of arguments for 'get'")
| refused_del name args :
    spells (str "DEL") name → length args ≠ 1%nat →
    refused (name :: args) (str "wrong number of arguments for 'del'")
| refused_unknown name shown args :
    ¬ spells (str "PING") name → ¬ spells (str "SET") name → ¬ spells (str "GET") name →
    ¬ spells (str "DEL") name → Forall2 capital_of name shown →
    refused (name :: args) (str "unknown command '" ++ shown ++ str "'").

(** The time to live, in nanoseconds, that the options of SET ask for: none,
    seconds, or milliseconds. The comment in the code names these forms. *)
Inductive asks_for : list bytes → Z → Prop :=
| asks_nothing : asks_for [] 0
| asks_seconds o n :
    spells (str "EX") o → - 2 ^ 63 <= n * 1000000000 < 2 ^ 63 → asks_for [o; show n] (n * 1000000000)
| asks_milliseconds o n :
    spells (str "PX") o → - 2 ^ 63 <= n * 1000000 < 2 ^ 63 → asks_for [o; show n] (n * 1000000).

(** When an entry set at [now] to live for [ttl] expires; 0: never. *)
Definition expires_at (ttl now : Z) : Z := if decide (0 < ttl) then now + ttl else 0.

(** The answers to a command on a map with deadlines. Options in any other form
    are accepted too, with a deadline that the specification leaves open. DEL
    answers 1 also where there was nothing to delete, unlike in the protocol the
    server speaks, whose answer is the number of keys deleted. *)
Inductive answers (now : Z * Z * Z) (m : gmap bytes ValueEntry)
  : list bytes → bytes → gmap bytes ValueEntry → Prop :=
| answers_ping name args :
    spells (str "PING") name → answers now m (name :: args) (str "+PONG" ++ CRLF) m
| answers_set name k v opts ttl m' :
    spells (str "SET") name → asks_for opts ttl → zlen v <= 512 * 1024 → kept DEFAULT_LIMIT m m' →
    answers now m (name :: k :: v :: opts) (str "+OK" ++ CRLF)
      (<[k := new_entry v (expires_at ttl now.1.1)]> m')
| answers_set_other name k v opts expiry m' :
    spells (str "SET") name → (∀ ttl, ¬ asks_for opts ttl) → zlen v <= 512 * 1024 → kept DEFAULT_LIMIT m m' →
    answers now m (name :: k :: v :: opts) (str "+OK" ++ CRLF) (<[k := new_entry v expiry]> m')
| answers_set_large name k v opts :
    spells (str "SET") name → 512 * 1024 < zlen v →
    answers now m (name :: k :: v :: opts) (str "-ERR value too large (max 512KB)" ++ CRLF) m
| answers_get name k v :
    spells (str "GET") name → m !! k = Some v → is_expired now.1.1 v = false → is_expired now.2 v = false →
    answers now m [name; k] (str "$" ++ show (zlen (value v)) ++ CRLF ++ value v ++ CRLF)
      (<[k := touched now.1.2 v]> m)
| answers_get_none name k m' :
    spells (str "GET") name → (∀ v, m !! k = Some v → is_expired now.1.1 v = true ∨ is_expired now.2 v = true) →
    (m' = m ∨ m' = delete k m) → answers now m [name; k] (str "$-1" ++ CRLF) m'
| answers_del name k :
    spells (str "DEL") name → is_Some (m !! k) → answers now m [name; k] (str ":1" ++ CRLF) (delete k m)
| answers_del_none name k :
    spells (str "DEL") name → m !! k = None → answers now m [name; k] (str ":1" ++ CRLF) m
| answers_error cmd msg : refused cmd msg → answers now m cmd (str "-ERR " ++ msg ++ CRLF) m.

Lemma set_ttl_asked opts ttl :
  forallb is_ascii opts = true → asks_for opts ttl → set_ttl upper_unicode opts 0 = ttl.
Proof.
  intros Ha Hopts. destruct Hopts as [|o n Ho Hn|o n Ho Hn]; [done|..]; simpl in Ha; apply andb_prop in Ha as [Ha _].
  - apply ToUpper_spells in Ho; [|done|repeat constructor; set_solver]. cbn [set_ttl]. rewrite Ho, decide_True by done.
    rewrite Atoi_show by lia. unfold SECOND. apply s64_small. lia.
  - apply ToUpper_spells in Ho; [|done|repeat constructor; set_solver]. cbn [set_ttl]. rewrite Ho, decide_False by done.
    rewrite decide_True, Atoi_show by (done || lia). unfold MILLISECOND. apply s64_small. lia.
Qed.

Lemma asks_for_bound opts ttl : asks_for opts ttl → ttl < 2 ^ 63.
Proof. destruct 1; lia. Qed.

(** The deadline of the engine is the end of the time to live. *)
Lemma deadline_expires ttl now : 0 <= now < 2 ^ 63 → ttl < 2 ^ 63 → deadline ttl now = expires_at ttl now.
Proof.
  intros Hn Ht. unfold deadline, expires_at. destruct (Z.ltb_spec 0 ttl); [|by rewrite decide_False by lia].
  rewrite decide_True, (u64_small now), (u64_small ttl) by lia. apply u64_small. lia.
Qed.

(** Whether the options have one of the forms. *)
Lemma factor_range b n u : 1 <= u → - b <= n * u < b → - b <= n < b.
Proof. intros Hu Hr. destruct (Z.le_gt_cases 0 n); nia. Qed.

Lemma numeral_dec a u :
  1 <= u → (∃ n, a = show n ∧ - 2 ^ 63 <= n * u < 2 ^ 63) ∨ ¬ ∃ n, a = show n ∧ - 2 ^ 63 <= n * u < 2 ^ 63.
Proof.
  intros Hu. destruct (Atoi a) as [n|] eqn:Ha.
  - destruct (decide (a = show n ∧ - 2 ^ 63 <= n * u < 2 ^ 63)) as [|Hn]; [left; eauto|right].
    intros (n' & -> & Hr). rewrite Atoi_show in Ha by (by eapply factor_range). injection Ha as ->. by apply Hn.
  - right. intros (n' & -> & Hr). by rewrite Atoi_show in Ha by (by eapply factor_range).
Qed.

Lemma asks_for_dec opts : (∃ ttl, asks_for opts ttl) ∨ ∀ ttl, ¬ asks_for opts ttl.
Proof.
  destruct opts as [|o [|a [|? ?]]]; [left; eexists; constructor|right; inversion 1| |right; inversion 1].
  assert (∀ word u, 1 <= u →
    let form := spells word o ∧ ∃ n, a = show n ∧ - 2 ^ 63 <= n * u < 2 ^ 63 in form ∨ ¬ form) as Hdec.
  { intros word u Hu. destruct (decide (Forall2 letter_of word o)), (numeral_dec a u Hu); simpl; tauto. }
  destruct (Hdec (str "EX") 1000000000) as [[Ho (n & -> & Hn)]|Hex]; [lia|left; eexists; by apply asks_seconds|].
  destruct (Hdec (str "PX") 1000000) as [[Ho (n & -> & Hn)]|Hpx]; [lia|left; eexists; by apply asks_milliseconds|].
  right. intros ttl. inversion 1; subst; [apply Hex|apply Hpx]; eauto.
Qed.

Lemma set_correct name k v opts clock e :
  engine_ok e → total (contents (table e)) + zlen v < 2 ^ 64 → 0 <= clock.1.1 < 2 ^ 63 →
  forallb is_ascii opts = true → spells (str "SET") name →
  let '(err, h) := go_set k v (set_ttl upper_unicode opts 0) clock.1.1 e in
  engine_ok (default e h)
  ∧ answers clock (contents (table e)) (name :: k :: v :: opts)
      (match err with
       | Some err => err_reply (err_text err (str "engine_set failed"))
       | None => OK_REPLY
       end) (contents (table (default e h))).
Proof.
  intros Hok Hroom Hnow Ha Hset.
  destruct (go_set_refines k v (set_ttl upper_unicode opts 0) clock.1.1 e Hok Hroom) as (e' & -> & Hok' & Hc).
  destruct (Z.ltb_spec MAX_VALUE (zlen v)); simpl.
  - split; [done|]. rewrite Hc. by apply answers_set_large.
  - destruct Hc as (m' & Hk & ->). split; [done|]. destruct (asks_for_dec opts) as [[ttl Hopts]|Hopts].
    + rewrite (set_ttl_asked opts ttl Ha Hopts), deadline_expires by eauto using asks_for_bound.
      by apply answers_set.
    + by apply answers_set_other.
Qed.

Lemma get_correct name k clock e :
  engine_ok e → spells (str "GET") name →
  let '(res, h) := go_get k clock e in
  engine_ok (default e h)
  ∧ answers clock (contents (table e)) [name; k]
      (match res with
       | inr ErrNotFound => NULL_REPLY
       | inr err => err_reply (err_text err (str "engine_get failed"))
       | inl value => bulk_reply value
       end) (contents (table (default e h))).
Proof.
  intros Hok Hget. destruct (go_get_refines k clock e Hok) as (e' & Hh & Hok' & Hc).
  destruct (go_get k clock e) as [res h]. simpl in Hh. subst h. simpl in *. split; [done|].
  destruct Hc as [(v & Hk & Hx & Hx2 & -> & ->)|(-> & Hk & Hc)]; [by apply answers_get|by apply answers_get_none].
Qed.

Lemma del_correct name k clock e :
  engine_ok e → spells (str "DEL") name →
  let '(err, h) := go_delete k e in
  engine_ok (default e h)
  ∧ answers clock (contents (table e)) [name; k]
      (match err with
       | None | Some ErrNotFound => ONE_REPLY
       | Some err => err_reply (err_text err (str "engine_delete failed"))
       end) (contents (table (default e h))).
Proof.
  intros Hok Hdel. destruct (go_delete_refines k e Hok) as (e' & err & -> & Hok' & Herr & Hc). simpl.
  split; [done|]. rewrite Hc. destruct Herr as [[-> Hk]|[-> Hk]]; [by apply answers_del|].
  rewrite delete_id by done. by apply answers_del_none.
Qed.

Lemma spelt_word name word :
  is_ascii name = true → word ∈ [str "PING"; str "SET"; str "GET"; str "DEL"] → upper name = word ↔ spells word name.
Proof.
  intros Ha Hw. apply ToUpper_spells; [done|].
  repeat (apply elem_of_cons in Hw as [->|Hw]; [repeat constructor; set_solver|]). by apply not_elem_of_nil in Hw.
Qed.

(** C17: The server is a map with deadlines: on a sound engine with room for the
    value, every command whose words are ASCII is answered as the map says, and
    changes it so. Names are read in small or capital letters, EX gives a time to
    live in seconds and PX in milliseconds, an entry without such a time has no
    deadline; options of another form are accepted with some deadline. DEL answers
    1 whether or not there was a key to delete. *)
Theorem go_server_command_correct cmd clock e :
  engine_ok e → (∀ name k v opts, cmd = name :: k :: v :: opts → total (contents (table e)) + zlen v < 2 ^ 64) →
  ascii_words cmd = true → 0 <= clock.1.1 < 2 ^ 63 →
  engine_ok (handle cmd clock e).2
  ∧ answers clock (contents (table e)) cmd (handle cmd clock e).1 (contents (table (handle cmd clock e).2)).
Proof.
  intros Hok Hroom Ha Hnow. unfold handleCommand.
  destruct cmd as [|name args]; [split; [done|apply answers_error, refused_empty]|].
  apply andb_prop in Ha as [Ha Hargs]. cbv zeta.
  assert (∀ word, word ∈ [str "PING"; str "SET"; str "GET"; str "DEL"] → upper name = word ↔ spells word name)
    as Hword by (intros; by apply spelt_word).
  destruct (decide (upper name = str "PING")) as [Hping|Hping]; rewrite Hword in Hping by set_solver.
  { split; [done|]. by apply answers_ping. }
  destruct (decide (upper name = str "SET")) as [Hset|Hset]; rewrite Hword in Hset by set_solver.
  { destruct args as [|k [|v opts]]; [split; [done|]; apply answers_error, refused_set; simpl; (done || lia)..|].
    pose proof (set_correct name k v opts clock e Hok (Hroom _ _ _ _ eq_refl) Hnow Hargs Hset) as Hs.
    by destruct (go_set _ _ _ _ _). }
  destruct (decide (upper name = str "GET")) as [Hget|Hget]; rewrite Hword in Hget by set_solver.
  { destruct args as [|k [|? ?]]; [split; [done|]; by apply answers_error, refused_get| |
      split; [done|]; by apply answers_error, refused_get].
    pose proof (get_correct name k clock e Hok Hget) as Hg. by destruct (go_get _ _ _). }
  destruct (decide (upper name = str "DEL")) as [Hdel|Hdel]; rewrite Hword in Hdel by set_solver.
  { destruct args as [|k [|? ?]]; [split; [done|]; by apply answers_error, refused_del| |
      split; [done|]; by apply answers_error, refused_del].
    pose proof (del_correct name k clock e Hok Hdel) as Hg. by destruct (go_delete _ _). }
  split; [done|]. apply answers_error, refused_unknown; try done. by apply capital_upper.
Qed.
End theorems.

(** An unknown command is echoed as it is: its line ends become line ends of
    the answer. *)
Lemma unknown_command_echoed :
  (handleCommand (λ s, s) [str "X" ++ CRLF ++ str "+OK"] (0, 0, 0) demo_engine).1
  = (str "-ERR unknown command 'X" ++ CRLF) ++ str "+OK'" ++ CRLF.
Proof. by vm_compute. Qed.

(** ** Instances *)

Definition session : list (list bytes) :=
  [[str "set"; str "k"; str "v"; str "EX"; str "10"]; [str "GET"; str "k"]; [str "DEL"; str "k"]; [str "GET"; str "k"]].

Lemma session_sendable : Forall sendable session.
Proof. unfold session, sendable, STRING_SIZE. repeat constructor; vm_compute; discriminate. Qed.

Lemma go_server_serves_pipeline_witness :
  (handleConnection (λ s, s) (λ _, (0, 0, 0)) (λ _, true) (concat (encode <$> session)) demo_engine).1.1
  = [OK_REPLY; bulk_reply (str "v"); ONE_REPLY; NULL_REPLY].
Proof.
  rewrite (go_server_serves_pipeline (λ s, s) (λ _, (0, 0, 0)) session demo_engine session_sendable). by vm_compute.
Defined.

Lemma go_server_negative_count_crashes_witness :
  handleConnection (λ s, s) (λ _, (0, 0, 0)) (λ _, true) (str "*-1" ++ CRLF ++ encode [str "PING"]) demo_engine
  = ([], demo_engine, Crashed).
Proof. apply (go_server_negative_count_crashes (λ s, s) (λ _, (0, 0, 0)) (λ _, true) (-1)). lia. Defined.

Lemma demo_engine_ok : engine_ok demo_engine.
Proof. by apply (create_ok 4 1 empty_disk). Qed.

Lemma go_server_command_correct_witness :
  answers (5, 0, 0) (contents (table demo_engine)) [str "Set"; str "k"; str "v"; str "px"; str "7"] (str "+OK" ++ CRLF)
    (contents (table (handleCommand (λ s, s) [str "Set"; str "k"; str "v"; str "px"; str "7"] (5, 0, 0) demo_engine).2)).
Proof.
  refine (proj2 (go_server_command_correct (λ s, s) [str "Set"; str "k"; str "v"; str "px"; str "7"] (5, 0, 0)
                   demo_engine demo_engine_ok _ _ _)).
  - intros name k v opts [= <- <- <- <-]. by vm_compute.
  - by vm_compute.
  - simpl. lia.
Defined.
