(* ===== verification/RaftStore.v ===== *)
(** * The stores of Raft

    src/node/raft/storage.go: the log store in memory and the file that holds
    term and vote. [encoding/json] is a pair of functions with the round trip it
    documents for strings of valid UTF-8. No node uses either store. *)

From S2P Require Import Prelude Files Raft.

(** ** The log store *)

(** A result, an error value, or a panic. *)
Inductive go_result (A : Type) := GoValue (a : A) | GoError | GoPanic.
Arguments GoValue {A}.
Arguments GoError {A}.
Arguments GoPanic {A}.

(** The interface [LogStore]: what its methods do, on the list of entries the
    store holds. Ranges are for [start <= end + 1]. *)
Class LogStore (S : Type) := {
  ls_entries : S → list LogEntry;
  ls_Append : list LogEntry → S → S;
  ls_Get : Z → S → go_result LogEntry;
  ls_GetRange : Z → Z → S → go_result (list LogEntry);
  ls_GetLast : S → go_result LogEntry;
  ls_DeleteFrom : Z → S → go_result S;
  ls_Len : S → Z;
  ls_append_spec es s : ls_entries (ls_Append es s) = ls_entries s ++ es;
  ls_get_spec i s : 0 <= i < 2 ^ 64 →
    ls_Get i s = match (if 0 <? i then ls_entries s !! Z.to_nat (i - 1) else None) with
                 | Some e => GoValue e | None => GoError end;
  ls_range_spec a b s : zlen (ls_entries s) < 2 ^ 63 → 0 <= a <= b + 1 → b < 2 ^ 64 →
    ls_GetRange a b s
    = if (1 <=? a) && (a <=? zlen (ls_entries s)) && (b <=? zlen (ls_entries s))
      then GoValue (take (Z.to_nat (b - a + 1)) (drop (Z.to_nat (a - 1)) (ls_entries s))) else GoError;
  ls_last_spec s : ls_GetLast s = match last (ls_entries s) with Some e => GoValue e | None => GoError end;
  ls_delete_spec i s s' : 0 <= i < 2 ^ 64 → ls_DeleteFrom i s = GoValue s' →
    1 <= i ∧ ls_entries s' = take (Z.to_nat (i - 1)) (ls_entries s);
  ls_delete_total i s : 1 <= i < 2 ^ 64 → ∃ s', ls_DeleteFrom i s = GoValue s';
  ls_len_spec s : ls_Len s = zlen (ls_entries s);
}.

Record MemoryLogStore := mkLogStore { ms_entries : list LogEntry }.

Definition NewMemoryLogStore : MemoryLogStore := mkLogStore [].

Definition ms_Append (es : list LogEntry) (m : MemoryLogStore) : MemoryLogStore := mkLogStore (ms_entries m ++ es).

Definition ms_Get (index : Z) (m : MemoryLogStore) : go_result LogEntry :=
  if (index =? 0) || (zlen (ms_entries m) <? index) then GoError
  else match ms_entries m !! Z.to_nat (index -64 1) with Some e => GoValue e | None => GoPanic end.

(** [make] panics on a length that is not an [int]; slicing panics when the
    bounds are out of order. *)
Definition ms_GetRange (start end_ : Z) (m : MemoryLogStore) : go_result (list LogEntry) :=
  let len := zlen (ms_entries m) in
  if (start =? 0) || (len <? start) || (len <? end_) then GoError
  else
    let n := (end_ -64 start) +64 1 in
    if 2 ^ 63 <=? n then GoPanic
    else if end_ <? start -64 1 then GoPanic
    else
      let src := take (Z.to_nat (end_ - (start -64 1))) (drop (Z.to_nat (start -64 1)) (ms_entries m)) in
      GoValue (take (Z.to_nat n) src ++ replicate (Z.to_nat n - length src) zero_entry).

Definition ms_GetLast (m : MemoryLogStore) : go_result LogEntry :=
  match last (ms_entries m) with Some e => GoValue e | None => GoError end.

Definition ms_DeleteFrom (index : Z) (m : MemoryLogStore) : go_result MemoryLogStore :=
  if index =? 0 then GoError
  else GoValue (if index <=? zlen (ms_entries m) then mkLogStore (take (Z.to_nat (index -64 1)) (ms_entries m)) else m).

Definition ms_Len (m : MemoryLogStore) : Z := zlen (ms_entries m).

Lemma ms_get_spec i m :
  0 <= i < 2 ^ 64 →
  ms_Get i m = match (if 0 <? i then ms_entries m !! Z.to_nat (i - 1) else None) with
               | Some e => GoValue e | None => GoError end.
Proof.
  intros Hi. unfold ms_Get. destruct (Z.eqb_spec i 0) as [->|]; [done|]. destruct (Z.ltb_spec 0 i); [|lia]. simpl.
  destruct (Z.ltb_spec (zlen (ms_entries m)) i) as [Hgt|Hle].
  - rewrite lookup_ge_None_2; [done|]. unfold zlen in *. lia.
  - rewrite u64_small by lia.
    destruct (lookup_lt_is_Some_2 (ms_entries m) (Z.to_nat (i - 1))) as [e ->]; [unfold zlen in *; lia|done].
Qed.

Lemma ms_range_spec a b m :
  zlen (ms_entries m) < 2 ^ 63 → 0 <= a <= b + 1 → b < 2 ^ 64 →
  ms_GetRange a b m
  = if (1 <=? a) && (a <=? zlen (ms_entries m)) && (b <=? zlen (ms_entries m))
    then GoValue (take (Z.to_nat (b - a + 1)) (drop (Z.to_nat (a - 1)) (ms_entries m))) else GoError.
Proof.
  intros Hlen Ha Hb. unfold ms_GetRange.
  destruct (Z.eqb_spec a 0) as [->|]; [done|]. destruct (Z.leb_spec 1 a); [|lia]. simpl.
  destruct (Z.ltb_spec (zlen (ms_entries m)) a), (Z.leb_spec a (zlen (ms_entries m))); try lia; [done|]. simpl.
  destruct (Z.ltb_spec (zlen (ms_entries m)) b), (Z.leb_spec b (zlen (ms_entries m))); try lia; [done|].
  assert ((b -64 a) +64 1 = b - a + 1) as ->.
  { unfold u64. rewrite Zplus_mod_idemp_l. apply Z.mod_small. lia. }
  rewrite (u64_small (a - 1)) by lia. destruct (Z.leb_spec (2 ^ 63) (b - a + 1)); [lia|].
  destruct (Z.ltb_spec b (a - 1)); [lia|]. f_equal. replace (b - (a - 1)) with (b - a + 1) by lia.
  rewrite take_take, Nat.min_id.
  assert (length (take (Z.to_nat (b - a + 1)) (drop (Z.to_nat (a - 1)) (ms_entries m))) = Z.to_nat (b - a + 1)) as ->.
  { rewrite length_take, length_drop. unfold zlen in *. lia. }
  by rewrite Nat.sub_diag, app_nil_r.
Qed.

Lemma ms_delete_spec i m m' :
  0 <= i < 2 ^ 64 → ms_DeleteFrom i m = GoValue m' → 1 <= i ∧ ms_entries m' = take (Z.to_nat (i - 1)) (ms_entries m).
Proof.
  intros Hi. unfold ms_DeleteFrom. destruct (Z.eqb_spec i 0); [done|]. intros [= <-]. split; [lia|].
  destruct (Z.leb_spec i (zlen (ms_entries m))); simpl; [by rewrite u64_small by lia|].
  rewrite take_ge; [done|]. unfold zlen in *. lia.
Qed.

(** The store in memory implements the interface. *)
#[global] Instance memory_log_store : LogStore MemoryLogStore.
Proof.
  refine {| ls_entries := ms_entries; ls_Append := ms_Append; ls_Get := ms_Get; ls_GetRange := ms_GetRange;
            ls_GetLast := ms_GetLast; ls_DeleteFrom := ms_DeleteFrom; ls_Len := ms_Len;
            ls_get_spec := ms_get_spec; ls_range_spec := ms_range_spec; ls_delete_spec := ms_delete_spec |}; try done.
  intros i s Hi. unfold ms_DeleteFrom. destruct (Z.eqb_spec i 0); [lia|]. by eexists.
Defined.

(** ** Using a log store *)

Section client.
Context {St : Type} `{!LogStore St}.

(** Replacing the log from an index on, as a follower has to. *)
Definition overwrite (i : Z) (es : list LogEntry) (s : St) : go_result St :=
  match ls_DeleteFrom i s with GoValue s' => GoValue (ls_Append es s') | GoError => GoError | GoPanic => GoPanic end.

(** With any store that implements the interface, deleting from an index
    and appending leaves the entries before the index, then the new ones; they
    can be read back as a range. *)
Theorem log_store_overwrite i es s :
  1 <= i <= ls_Len s + 1 → 0 < zlen es → ls_Len s + zlen es < 2 ^ 63 →
  ∃ s', overwrite i es s = GoValue s'
  ∧ ls_entries s' = take (Z.to_nat (i - 1)) (ls_entries s) ++ es
  ∧ ls_Len s' = i - 1 + zlen es
  ∧ ls_GetRange i (i + zlen es - 1) s' = GoValue es
  ∧ ∀ j, 1 <= j < i → ls_Get j s' = ls_Get j s.
Proof.
  intros Hi Hes Hb. rewrite ls_len_spec in *. pose proof (zlen_nonneg (ls_entries s)).
  destruct (ls_delete_total i s) as [s1 Hd]; [lia|]. destruct (ls_delete_spec i s s1 ltac:(lia) Hd) as [_ He].
  unfold overwrite. rewrite Hd. exists (ls_Append es s1). rewrite ls_len_spec, ls_append_spec, He.
  set (pre := take (Z.to_nat (i - 1)) (ls_entries s)).
  assert (zlen pre = i - 1) as Hpre by (unfold pre, zlen in *; rewrite length_take; lia).
  assert (zlen (pre ++ es) = i - 1 + zlen es) as Hlen by (rewrite zlen_app; lia).
  split_and!; [done|done|done| |].
  - rewrite ls_range_spec; rewrite ?ls_append_spec, ?He; fold pre; rewrite ?Hlen; [|lia..].
    destruct (Z.leb_spec 1 i), (Z.leb_spec i (i - 1 + zlen es)), (Z.leb_spec (i + zlen es - 1) (i - 1 + zlen es));
      try lia. simpl. f_equal. replace (Z.to_nat (i - 1)) with (length pre) by (unfold zlen in Hpre; lia).
    rewrite drop_app_length, take_ge; [done|]. unfold zlen. lia.
  - intros j Hj. rewrite !ls_get_spec by lia. destruct (Z.ltb_spec 0 j); [|lia].
    rewrite ls_append_spec, He. fold pre. rewrite lookup_app_l by (unfold zlen in Hpre; lia).
    unfold pre. by rewrite lookup_take_lt by lia.
Qed.
End client.

(** ** Term and vote on disk *)

Section state_store.
Context (marshal : Z * bytes → bytes) (unmarshal : bytes → option (Z * bytes)).

(** [ss_path]: the file raft_state.json in the directory of the store. *)
Record FileStateStore := mkStateStore { ss_path : bytes; ss_term : Z; ss_votedFor : bytes }.

Definition tmp_path (path : bytes) : bytes := path ++ str ".tmp".

(** [os.Rename]: the file appears under its new name, at once. *)
Definition rename (from to : bytes) (d : Disk) : option Disk :=
  match files d !! from with
  | Some c => if decide (to ∈ denied d) then None
              else Some (mkDisk (<[to := c]> (delete from (files d))) (denied d))
  | None => None
  end.

(** [persist] up to the point where the process dies: before anything is
    written, after [k] bytes of the temporary file, or after the rename. *)
Inductive crash_point := BeforeWrite | AfterBytes (k : nat) | AfterRename.

Definition persist_crash (f : FileStateStore) (p : crash_point) (d : Disk) : Disk :=
  let data := marshal (ss_term f, ss_votedFor f) in
  match open_trunc d (tmp_path (ss_path f)) with
  | None => d
  | Some d1 =>
      match p with
      | BeforeWrite => d
      | AfterBytes k => set_file d1 (tmp_path (ss_path f)) (take k data)
      | AfterRename =>
          let d2 := set_file d1 (tmp_path (ss_path f)) data in
          default d2 (rename (tmp_path (ss_path f)) (ss_path f) d2)
      end
  end.

(** The whole of [persist]: the disk, and whether it succeeded. *)
Definition persist (f : FileStateStore) (d : Disk) : bool * Disk :=
  let data := marshal (ss_term f, ss_votedFor f) in
  match open_trunc d (tmp_path (ss_path f)) with
  | None => (false, d)
  | Some d1 =>
      let d2 := set_file d1 (tmp_path (ss_path f)) data in
      match rename (tmp_path (ss_path f)) (ss_path f) d2 with
      | Some d3 => (true, d3)
      | None => (false, d2)
      end
  end.

(** [load]: [None] is an error; a file that does not exist leaves the zero
    values. *)
Definition load (path : bytes) (d : Disk) : option (Z * bytes) :=
  if decide (path ∈ denied d) then None
  else match files d !! path with
       | None => Some (0, [])
       | Some c => unmarshal c
       end.

(** [made]: whether [os.MkdirAll] finds or makes the directory. *)
Definition NewFileStateStore (made : bool) (path : bytes) (d : Disk) : option FileStateStore :=
  if negb made then None
  else '(t, v) ← load path d; Some (mkStateStore path t v).

Definition GetTerm (f : FileStateStore) : Z := ss_term f.
Definition GetVotedFor (f : FileStateStore) : bytes := ss_votedFor f.

Definition SetTerm (term : Z) (f : FileStateStore) (d : Disk) : FileStateStore * (bool * Disk) :=
  let f := mkStateStore (ss_path f) term (ss_votedFor f) in (f, persist f d).

Definition SetVotedFor (c : bytes) (f : FileStateStore) (d : Disk) : FileStateStore * (bool * Disk) :=
  let f := mkStateStore (ss_path f) (ss_term f) c in (f, persist f d).

(** *** Calls *)

Inductive store_call := CallSetTerm (t : Z) | CallSetVotedFor (c : bytes).

Definition updated (c : store_call) (f : FileStateStore) : FileStateStore :=
  match c with
  | CallSetTerm t => mkStateStore (ss_path f) t (ss_votedFor f)
  | CallSetVotedFor v => mkStateStore (ss_path f) (ss_term f) v
  end.

Definition call (c : store_call) (f : FileStateStore) (d : Disk) : FileStateStore * (bool * Disk) :=
  match c with CallSetTerm t => SetTerm t f d | CallSetVotedFor v => SetVotedFor v f d end.

Context (valid : bytes → Prop).
Context (json_roundtrip : ∀ t v, 0 <= t < 2 ^ 64 → valid v → unmarshal (marshal (t, v)) = Some (t, v)).

Definition storable (f : FileStateStore) : Prop := 0 <= ss_term f < 2 ^ 64 ∧ valid (ss_votedFor f).

Definition writable (f : FileStateStore) (d : Disk) : Prop :=
  (ss_path f ∉ denied d) ∧ (tmp_path (ss_path f) ∉ denied d).

Lemma tmp_path_ne path : tmp_path path ≠ path.
Proof. intros E. apply (f_equal length) in E. unfold tmp_path in E. rewrite length_app in E. simpl in E. lia. Qed.

Lemma load_tmp path c d : load path (set_file d (tmp_path path) c) = load path d.
Proof. unfold load, set_file. simpl. by rewrite lookup_insert_ne by apply tmp_path_ne. Qed.

Lemma load_renamed f d :
  writable f d → storable f → load (ss_path f) (persist f d).2 = Some (ss_term f, ss_votedFor f)
  ∧ (persist f d).1 = true ∧ denied (persist f d).2 = denied d
  ∧ persist_crash f AfterRename d = (persist f d).2.
Proof.
  intros [Hw Ht] [Hterm Hvote]. unfold persist, persist_crash, open_trunc, rename.
  rewrite (decide_False (P := tmp_path _ ∈ _)) by done. simpl. rewrite lookup_insert_eq.
  rewrite decide_False by done. simpl. unfold load. simpl. rewrite decide_False by done. rewrite lookup_insert_eq.
  by rewrite json_roundtrip.
Qed.

(** What the next process finds when it opens the store; the directory is
    there. *)
Definition reopens (path : bytes) (d : Disk) (f : FileStateStore) : Prop := NewFileStateStore true path d = Some f.

Lemma load_reopens f d :
  load (ss_path f) d = Some (ss_term f, ss_votedFor f) → reopens (ss_path f) d f.
Proof. unfold reopens, NewFileStateStore. simpl. intros ->. by destruct f. Qed.

Lemma reopens_path path d f : reopens path d f → ss_path f = path.
Proof. unfold reopens, NewFileStateStore. intros ([t v] & _ & [= <-])%bind_Some. done. Qed.

(** A call that returns, and one that does not. *)
Lemma call_reopens c f d :
  writable f d → storable (updated c f) →
  writable (updated c f) (call c f d).2.2 ∧ reopens (ss_path f) (call c f d).2.2 (updated c f).
Proof.
  intros Hw Hs. assert (writable (updated c f) d) as Hw' by (by destruct c).
  destruct (load_renamed (updated c f) d Hw' Hs) as (Hl & _ & Hd & _).
  assert ((call c f d).2.2 = (persist (updated c f) d).2) as -> by (by destruct c).
  split; [unfold writable; by rewrite Hd|]. replace (ss_path f) with (ss_path (updated c f)) by (by destruct c).
  by apply load_reopens.
Qed.

Lemma crash_reopens f f' p d :
  ss_path f' = ss_path f → writable f' d → storable f' → reopens (ss_path f) d f →
  reopens (ss_path f) (persist_crash f' p d) f ∨ reopens (ss_path f) (persist_crash f' p d) f'.
Proof.
  intros Hp Hw Hs Ho. destruct p as [|k|].
  - left. unfold persist_crash. by destruct (open_trunc _ _).
  - left. unfold persist_crash, open_trunc. rewrite decide_False by apply Hw.
    unfold reopens, NewFileStateStore in *. rewrite Hp in *.
    by rewrite !load_tmp.
  - right. destruct (load_renamed f' d Hw Hs) as (Hl & _ & _ & ->). rewrite <- Hp. by apply load_reopens.
Qed.

(** The calls of a process, all of which return. *)
Definition run_calls (cs : list store_call) (f : FileStateStore) (d : Disk) : FileStateStore * Disk :=
  fold_left (λ fd c, (updated c fd.1, (call c fd.1 fd.2).2.2)) cs (f, d).

Lemma run_calls_reopens cs f d :
  writable f d → reopens (ss_path f) d f → storable f →
  Forall (λ c, ∀ f, storable f → storable (updated c f)) cs →
  let '(f', d') := run_calls cs f d in
  ss_path f' = ss_path f ∧ writable f' d' ∧ storable f' ∧ reopens (ss_path f) d' f'.
Proof.
  intros Hw Ho Hs Hcs. revert f d Hw Ho Hs. induction Hcs as [|c cs Hc _ IH]; intros f d Hw Ho Hs; [done|].
  unfold run_calls. cbn [fold_left fst snd]. destruct (call_reopens c f d Hw (Hc f Hs)) as [Hw1 Ho1].
  assert (ss_path (updated c f) = ss_path f) as Hp by (by destruct c). rewrite <- Hp in Ho1.
  specialize (IH (updated c f) (call c f d).2.2 Hw1 Ho1 (Hc f Hs)). unfold run_calls in IH.
  destruct (fold_left _ cs _) as [f' d']. by rewrite Hp in IH.
Qed.

(** C25: Term and vote survive a crash. After any calls that returned, if the
    process dies at any point of a further one, the next process finds what was
    stored before that call or what it was storing. The directory is there, its
    two files can be written, and the votes are valid UTF-8, which the encoding
    needs to be read back. *)
Theorem state_store_crash_atomic cs c p path d f0 :
  reopens path d f0 → path ∉ denied d → tmp_path path ∉ denied d → storable f0 →
  Forall (λ c, ∀ f, storable f → storable (updated c f)) (cs ++ [c]) →
  let '(f, d') := run_calls cs f0 d in
  reopens path d' f
  ∧ (reopens path (persist_crash (updated c f) p d') f ∨ reopens path (persist_crash (updated c f) p d') (updated c f)).
Proof.
  intros Ho Hd Ht Hs [Hcs Hc]%Forall_app. pose proof (reopens_path _ _ _ Ho) as Hp. subst path.
  pose proof (run_calls_reopens cs f0 d (conj Hd Ht) Ho Hs Hcs) as Hrun.
  destruct (run_calls cs f0 d) as [f d']. destruct Hrun as (Hp & Hw & Hs' & Ho'). split; [done|].
  apply Forall_cons in Hc as [Hc _]. rewrite <- Hp in *.
  apply crash_reopens; [by destruct c|by destruct c|by apply Hc|done].
Qed.
End state_store.

(** ** Instances *)

Lemma log_store_overwrite_witness :
  ∃ s', overwrite 2 [mkEntry 2 2 (str "b")] (mkLogStore [mkEntry 1 1 (str "a"); mkEntry 1 2 (str "x")]) = GoValue s'
  ∧ ls_GetRange 2 2 s' = GoValue [mkEntry 2 2 (str "b")].
Proof.
  destruct (log_store_overwrite 2 [mkEntry 2 2 (str "b")] (mkLogStore [mkEntry 1 1 (str "a"); mkEntry 1 2 (str "x")]))
    as (s' & Ho & _ & _ & Hr & _); [vm_compute; done|done|done|]. by exists s'.
Defined.

(** A fixed-width encoding in place of the textual one. *)
Definition plain_marshal (x : Z * bytes) : bytes := le_split 8 x.1 ++ x.2.
Definition plain_unmarshal (b : bytes) : option (Z * bytes) := Some (le_combine (take 8 b), drop 8 b).

Lemma plain_roundtrip t v : 0 <= t < 2 ^ 64 → True → plain_unmarshal (plain_marshal (t, v)) = Some (t, v).
Proof.
  intros Ht _. unfold plain_unmarshal, plain_marshal. simpl. rewrite le_split_take, le_split_drop, le_roundtrip; [done|].
  simpl. lia.
Qed.

Lemma state_store_crash_atomic_witness :
  let '(f, d) := run_calls plain_marshal [CallSetTerm 4; CallSetVotedFor (str "node-1")]
                   (mkStateStore (str "raft_state.json") 0 []) empty_disk in
  reopens plain_unmarshal (str "raft_state.json") d f
  ∧ (reopens plain_unmarshal (str "raft_state.json")
       (persist_crash plain_marshal (updated (CallSetTerm 5) f) (AfterBytes 3) d) f
     ∨ reopens plain_unmarshal (str "raft_state.json")
         (persist_crash plain_marshal (updated (CallSetTerm 5) f) (AfterBytes 3) d) (updated (CallSetTerm 5) f)).
Proof.
  apply (state_store_crash_atomic plain_marshal plain_unmarshal (λ _, True) plain_roundtrip
    [CallSetTerm 4; CallSetVotedFor (str "node-1")] (CallSetTerm 5) (AfterBytes 3)).
  - done.
  - set_solver.
  - set_solver.
  - by split; [simpl; lia|].
  - rewrite !Forall_app, !Forall_cons, !Forall_nil. split_and!; try done; intros f [? ?]; split; simpl; try done; lia.
Defined.
