(* ===== verification/Router.v ===== *)
(** * Routing to shards

    src/node/sharding/multi_raft.go and router.go: one Raft node per shard in a
    process, and the router that proposes an operation to the shard of its key,
    with retries. Between two attempts other goroutines may change the nodes in
    any way. *)

From S2P Require Import Prelude Resp Raft RaftNode HashRing.

(** ** The manager of the Raft groups *)

Record ShardRaft := mkShard {
  sh_NodeID : bytes;
  sh_Node : Node;
  sh_Leader : bytes;
  sh_Term : Z;
}.

Record MultiRaftManager := mkManager {
  mr_shards : gmap ShardID ShardRaft;
  mr_NodeID : Z;
}.

Record ShardStatus := mkStatus {
  st_ShardID : ShardID;
  st_Leader : bytes;
  st_Term : Z;
  st_State : bytes;
  st_CommitIndex : Z;
}.

Definition NewMultiRaftManager (nodeID : Z) : MultiRaftManager := mkManager ∅ nodeID.

(** The node id of this process within a shard. *)
Definition shard_node_id (shardID : ShardID) (nodeID : Z) : bytes :=
  str "shard" ++ show shardID ++ str "_node" ++ show nodeID.

Definition not_found (shardID : ShardID) : bytes := str "shard " ++ show shardID ++ str " not found".

Definition set_shard (s : ShardID) (sh : ShardRaft) (m : MultiRaftManager) : MultiRaftManager :=
  mkManager (<[s := sh]> (mr_shards m)) (mr_NodeID m).

(** [inr]: the text of the error. *)
Definition StartShard (shardID : ShardID) (peers : list NodeID) (m : MultiRaftManager) : MultiRaftManager + bytes :=
  if decide (is_Some (mr_shards m !! shardID)) then inr (str "shard " ++ show shardID ++ str " already started")
  else
    let nodeID := shard_node_id shardID (mr_NodeID m) in
    inl (set_shard shardID (mkShard nodeID (NewNode nodeID peers) [] 0) m).

(** The node is shut down and forgotten; the result has the node as well. *)
Definition StopShard (shardID : ShardID) (m : MultiRaftManager) : (Node * MultiRaftManager) + bytes :=
  match mr_shards m !! shardID with
  | None => inr (not_found shardID)
  | Some sh => inl (Shutdown (sh_Node sh), mkManager (delete shardID (mr_shards m)) (mr_NodeID m))
  end.

Definition GetShardLeader (shardID : ShardID) (m : MultiRaftManager) : bytes + bytes :=
  match mr_shards m !! shardID with
  | None => inr (not_found shardID)
  | Some sh =>
      if decide (sh_Leader sh = []) then inr (str "shard " ++ show shardID ++ str " has no leader")
      else inl (sh_Leader sh)
  end.

(** [Some e]: the text of the error. *)
Definition ProposeToShard (grow : nat → nat) (shardID : ShardID) (command : bytes) (m : MultiRaftManager)
  : option bytes * MultiRaftManager :=
  match mr_shards m !! shardID with
  | None => (Some (not_found shardID), m)
  | Some sh =>
      let '(_, _, isLeader, n) := Propose grow command (sh_Node sh) in
      if isLeader : bool
      then (None, set_shard shardID (mkShard (sh_NodeID sh) n (sh_Leader sh) (sh_Term sh)) m)
      else (Some (str "not leader"), m)
  end.

Definition nodeStateToString (isLeader : bool) : bytes := if isLeader then str "Leader" else str "Follower".

Definition shard_status (shardID : ShardID) (sh : ShardRaft) : ShardStatus :=
  let '(term, isLeader) := GetState (sh_Node sh) in
  mkStatus shardID (sh_Leader sh) term (nodeStateToString isLeader) 0.

Definition GetShardStatus (shardID : ShardID) (m : MultiRaftManager) : ShardStatus + bytes :=
  match mr_shards m !! shardID with
  | None => inr (not_found shardID)
  | Some sh => inl (shard_status shardID sh)
  end.

Definition GetAllShardStatuses (m : MultiRaftManager) : gmap ShardID ShardStatus :=
  map_imap (λ s sh, Some (shard_status s sh)) (mr_shards m).

(** The messages waiting in the channel of the shard. *)
Definition GetApplyChannel (shardID : ShardID) (m : MultiRaftManager) : list ApplyMsg + bytes :=
  match mr_shards m !! shardID with
  | None => inr (not_found shardID)
  | Some sh => inl (applyCh (sh_Node sh))
  end.

(** One tick of [trackLeader]. *)
Definition track_leader (shardID : ShardID) (m : MultiRaftManager) : MultiRaftManager :=
  match mr_shards m !! shardID with
  | None => m
  | Some sh =>
      let '(term, isLeader) := GetState (sh_Node sh) in
      set_shard shardID (mkShard (sh_NodeID sh) (sh_Node sh) (if isLeader then sh_NodeID sh else sh_Leader sh) term) m
  end.

(** ** The router *)

Record ShardRouter := mkRouter {
  hashRing : HashRing;
  shardLeaders : gmap ShardID bytes;
  maxRetries : Z;
}.

Record Operation := mkOp { op_Type : bytes; op_Key : bytes; op_Value : bytes; op_TTL : Z }.

Definition NewShardRouter (hr : HashRing) (retries : Z) : ShardRouter :=
  mkRouter hr ∅ (if retries =? 0 then 3 else retries).

Definition serializeOperation (op : Operation) : bytes :=
  if decide (op_Type op = str "SET")
  then str "SET " ++ op_Key op ++ str " " ++ op_Value op ++ str " " ++ show (op_TTL op)
  else if decide (op_Type op = str "GET") then str "GET " ++ op_Key op
  else if decide (op_Type op = str "DEL") then str "DEL " ++ op_Key op
  else op_Type op ++ str " " ++ op_Key op.

Definition isNotLeaderError (err : bytes) : bool := bool_decide (err = str "not leader").

Definition isShardUnavailableError (err : bytes) : bool :=
  bool_decide (err = str "shard unavailable") || bool_decide (err = str "no leader").

Definition UpdateLeader (s : ShardID) (addr : bytes) (sr : ShardRouter) : ShardRouter :=
  mkRouter (hashRing sr) (<[s := addr]> (shardLeaders sr)) (maxRetries sr).

Definition updateLeader (s : ShardID) (m : MultiRaftManager) (sr : ShardRouter) : ShardRouter :=
  match GetShardLeader s m with
  | inl leader => if decide (leader = []) then sr else UpdateLeader s leader sr
  | inr _ => sr
  end.

Definition GetShardForKey (key : bytes) (sr : ShardRouter) : ShardID := GetShard key (hashRing sr).

Definition router_GetLeader (s : ShardID) (sr : ShardRouter) : option bytes :=
  leader ← shardLeaders sr !! s; if decide (leader = []) then None else Some leader.

(** One tick of [trackLeaders]. *)
Definition track_leaders (m : MultiRaftManager) (sr : ShardRouter) : ShardRouter :=
  mkRouter (hashRing sr)
    (union_with (λ new _, Some new)
       (omap (λ st, if decide (st_Leader st = []) then None else Some (st_Leader st)) (GetAllShardStatuses m))
       (shardLeaders sr))
    (maxRetries sr).

Definition executeOnShard (grow : nat → nat) (s : ShardID) (op : Operation) (m : MultiRaftManager)
  : option bytes * MultiRaftManager :=
  ProposeToShard grow s (serializeOperation op) m.

(** The loop of [Route] from attempt [k] on. [env k] is what happens to the
    manager while attempt [k] waits before the next one. *)
Fixpoint route_loop (grow : nat → nat) (env : nat → MultiRaftManager → MultiRaftManager) (fuel k : nat)
    (s : ShardID) (op : Operation) (m : MultiRaftManager) (sr : ShardRouter)
  : option bytes * MultiRaftManager * ShardRouter :=
  match fuel with
  | O => (Some (str "max retries exceeded for shard " ++ show s), m, sr)
  | S fuel =>
      match executeOnShard grow s op m with
      | (None, m') => (None, m', sr)
      | (Some err, m') =>
          if isNotLeaderError err then route_loop grow env fuel (S k) s op (env k m') (updateLeader s m' sr)
          else if isShardUnavailableError err then (Some err, m', sr)
          else route_loop grow env fuel (S k) s op (env k m') sr
      end
  end.

Definition Route (grow : nat → nat) (env : nat → MultiRaftManager → MultiRaftManager) (op : Operation)
    (m : MultiRaftManager) (sr : ShardRouter) : option bytes * MultiRaftManager * ShardRouter :=
  route_loop grow env (Z.to_nat (maxRetries sr)) 0 (GetShard (op_Key op) (hashRing sr)) op m sr.

(** ** Proposals *)

(** This process leads the shard. *)
Definition leads_shard (s : ShardID) (m : MultiRaftManager) : bool :=
  match mr_shards m !! s with Some sh => bool_decide (state (sh_Node sh) = Leader) | None => false end.

(** The manager when attempt [k] starts, if all earlier ones failed. *)
Fixpoint before_attempt (env : nat → MultiRaftManager → MultiRaftManager) (k : nat) (m : MultiRaftManager)
  : MultiRaftManager :=
  match k with O => m | S k => env k (before_attempt env k m) end.

Lemma propose_fails grow s cmd m :
  leads_shard s m = false → ∃ err, ProposeToShard grow s cmd m = (Some err, m) ∧ isShardUnavailableError err = false.
Proof.
  unfold leads_shard, ProposeToShard. destruct (mr_shards m !! s) as [sh|].
  - intros Hst. unfold Propose. rewrite Hst. exists (str "not leader"). by split.
  - intros _. eexists. split; [done|]. unfold isShardUnavailableError, not_found.
    rewrite !bool_decide_false; [done|..]; intros E;
      apply (f_equal last) in E; rewrite !last_app in E; vm_compute in E; done.
Qed.

Lemma propose_succeeds grow s cmd m :
  leads_shard s m = true →
  ∃ sh e, mr_shards m !! s = Some sh ∧ le_Term e = currentTerm (sh_Node sh) ∧ le_Command e = cmd
  ∧ ProposeToShard grow s cmd m
    = (None, set_shard s (mkShard (sh_NodeID sh) (set_log (go_append grow e (log (sh_Node sh))) (sh_Node sh))
                            (sh_Leader sh) (sh_Term sh)) m).
Proof.
  unfold leads_shard, ProposeToShard. destruct (mr_shards m !! s) as [sh|]; [|done]. intros Hst.
  unfold Propose. rewrite Hst.
  exists sh, (mkEntry (currentTerm (sh_Node sh)) (zlen (entries (log (sh_Node sh))) +64 1) cmd). by split_and!.
Qed.

Lemma route_loop_spec grow env fuel k s op m0 sr :
  (∀ j, (j < k)%nat → leads_shard s (before_attempt env j m0) = false) →
  let '(err, m', sr') := route_loop grow env fuel k s op (before_attempt env k m0) sr in
  hashRing sr' = hashRing sr
  ∧ match err with
    | None => ∃ j, (k <= j < k + fuel)%nat ∧ leads_shard s (before_attempt env j m0) = true
                ∧ (∀ i, (i < j)%nat → leads_shard s (before_attempt env i m0) = false)
                ∧ (None, m') = ProposeToShard grow s (serializeOperation op) (before_attempt env j m0)
    | Some _ => (∀ i, (i < k + fuel)%nat → leads_shard s (before_attempt env i m0) = false)
                ∧ m' = before_attempt env (k + fuel) m0
    end.
Proof.
  revert k sr. induction fuel as [|fuel IH]; intros k sr Hno; cbn [route_loop].
  { rewrite Nat.add_0_r. by split_and!. }
  unfold executeOnShard. destruct (leads_shard s (before_attempt env k m0)) eqn:Hl.
  - destruct (propose_succeeds grow s (serializeOperation op) _ Hl) as (sh & e & _ & _ & _ & Hp).
    rewrite Hp. split; [done|]. exists k. split_and!; [lia|lia|done|done|done].
  - destruct (propose_fails grow s (serializeOperation op) _ Hl) as (err & -> & Hun). rewrite Hun.
    assert (∀ j, (j < S k)%nat → leads_shard s (before_attempt env j m0) = false) as Hno'.
    { intros j Hj. destruct (decide (j = k)) as [->|]; [done|]. apply Hno. lia. }
    change (env k (before_attempt env k m0)) with (before_attempt env (S k) m0).
    replace (k + S fuel)%nat with (S k + fuel)%nat by lia.
    assert (∀ sr1, hashRing sr1 = hashRing sr →
      let '(err, m', sr') := route_loop grow env fuel (S k) s op (before_attempt env (S k) m0) sr1 in
      hashRing sr' = hashRing sr
      ∧ match err with
        | None => ∃ j, (k <= j < S k + fuel)%nat ∧ leads_shard s (before_attempt env j m0) = true
                    ∧ (∀ i, (i < j)%nat → leads_shard s (before_attempt env i m0) = false)
                    ∧ (None, m') = ProposeToShard grow s (serializeOperation op) (before_attempt env j m0)
        | Some _ => (∀ i, (i < S k + fuel)%nat → leads_shard s (before_attempt env i m0) = false)
                    ∧ m' = before_attempt env (S k + fuel) m0
        end) as Hgo.
    { intros sr1 Hsr1. specialize (IH (S k) sr1 Hno').
      destruct (route_loop grow env fuel (S k) s op (before_attempt env (S k) m0) sr1) as [[e' m'] sr'].
      destruct IH as [Hr IH]. split; [congruence|]. destruct e' as [|]; [done|].
      destruct IH as (j & Hj & IH). exists j. split; [lia|done]. }
    destruct (isNotLeaderError err); [|by apply Hgo]. apply Hgo. unfold updateLeader.
    destruct (GetShardLeader _ _); [|done]. by case_decide.
Qed.

(** C24: [Route] proposes the operation to the shard of its key once, at the
    first attempt at which this process leads it, and reports success; if there
    is no such attempt it proposes nothing and reports an error. *)
Theorem route_proposes_once grow env op m sr :
  let s := GetShard (op_Key op) (hashRing sr) in
  let '(err, m', _) := Route grow env op m sr in
  match err with
  | None => ∃ j, (j < Z.to_nat (maxRetries sr))%nat
      ∧ (∀ i, (i < j)%nat → leads_shard s (before_attempt env i m) = false)
      ∧ ∃ sh e, mr_shards (before_attempt env j m) !! s = Some sh ∧ state (sh_Node sh) = Leader
         ∧ le_Term e = currentTerm (sh_Node sh) ∧ le_Command e = serializeOperation op
         ∧ m' = set_shard s (mkShard (sh_NodeID sh) (set_log (go_append grow e (log (sh_Node sh))) (sh_Node sh))
                               (sh_Leader sh) (sh_Term sh)) (before_attempt env j m)
  | Some _ => (∀ i, (i < Z.to_nat (maxRetries sr))%nat → leads_shard s (before_attempt env i m) = false)
      ∧ m' = before_attempt env (Z.to_nat (maxRetries sr)) m
  end.
Proof.
  cbv zeta. set (s := GetShard (op_Key op) (hashRing sr)).
  pose proof (route_loop_spec grow env (Z.to_nat (maxRetries sr)) 0 s op m sr) as Hspec.
  unfold Route. fold s. change (before_attempt env 0 m) with m in Hspec.
  destruct (route_loop grow env (Z.to_nat (maxRetries sr)) 0 s op m sr) as [[err m'] sr'].
  destruct Hspec as [_ Hspec]; [intros j Hj; lia|]. destruct err as [e|]; [done|].
  destruct Hspec as (j & Hj & Hl & Hno & Hp). exists j. split_and!; [lia|done|].
  destruct (propose_succeeds grow s (serializeOperation op) _ Hl) as (sh & e & Hsh & Ht & Hc & Hp').
  rewrite Hp' in Hp. injection Hp as ->. exists sh, e. split_and!; try done.
  unfold leads_shard in Hl. rewrite Hsh in Hl. by apply bool_decide_eq_true in Hl.
Qed.

(** ** Leader tracking *)

(** What changes the manager and the router: starting and stopping shards, the
    ticks of the two trackers, the refresh after a refused proposal, and a node
    changing in any way (proposals and Raft itself). *)
Inductive track_event :=
| TStart (s : ShardID) (peers : list NodeID)
| TStop (s : ShardID)
| TNode (s : ShardID) (n : Node)
| TShardTick (s : ShardID)
| TRouterTick
| TRefresh (s : ShardID).

Definition track_exec (ev : track_event) (st : MultiRaftManager * ShardRouter) : MultiRaftManager * ShardRouter :=
  let '(m, sr) := st in
  match ev with
  | TStart s ps => match StartShard s ps m with inl m' => (m', sr) | inr _ => st end
  | TStop s => match StopShard s m with inl (_, m') => (m', sr) | inr _ => st end
  | TNode s n =>
      match mr_shards m !! s with
      | Some sh => (set_shard s (mkShard (sh_NodeID sh) n (sh_Leader sh) (sh_Term sh)) m, sr)
      | None => st
      end
  | TShardTick s => (track_leader s m, sr)
  | TRouterTick => (m, track_leaders m sr)
  | TRefresh s => (m, updateLeader s m sr)
  end.

Definition track_all (evs : list track_event) (st : MultiRaftManager * ShardRouter) :=
  foldl (λ st ev, track_exec ev st) st evs.

Definition shard_tracked (self : Z) (s : ShardID) (sh : ShardRaft) : Prop :=
  sh_NodeID sh = shard_node_id s self ∧ (sh_Leader sh = [] ∨ sh_Leader sh = shard_node_id s self).

Definition tracked (self : Z) (st : MultiRaftManager * ShardRouter) : Prop :=
  mr_NodeID st.1 = self
  ∧ map_Forall (shard_tracked self) (mr_shards st.1)
  ∧ map_Forall (λ s l, l = shard_node_id s self) (shardLeaders st.2).

Lemma set_shard_tracked self s sh m sr :
  tracked self (m, sr) → shard_tracked self s sh → tracked self (set_shard s sh m, sr).
Proof. intros (Hid & Hm & Hr) Hsh. split_and!; [done| |done]. by apply map_Forall_insert_2. Qed.

Lemma known_leader self s m sr l :
  tracked self (m, sr) → GetShardLeader s m = inl l → l = shard_node_id s self ∧ l ≠ [].
Proof.
  intros (_ & Hm & _). unfold GetShardLeader. destruct (mr_shards m !! s) as [sh|] eqn:Hs; [|done].
  case_decide; [done|]. intros [= <-]. destruct (Hm _ _ Hs) as [_ [?|?]]; done.
Qed.

Lemma track_leaders_tracked self m sr : tracked self (m, sr) → tracked self (m, track_leaders m sr).
Proof.
  intros (Hid & Hm & Hr). split_and!; [done|done|]. intros s l. cbn.
  rewrite lookup_union_with, lookup_omap. unfold GetAllShardStatuses. rewrite map_lookup_imap.
  destruct (mr_shards m !! s) as [sh|] eqn:Hs; cbn.
  - destruct (Hm _ _ Hs) as [_ [Hl|Hl]]; rewrite Hl.
    + rewrite decide_True by done. destruct (shardLeaders sr !! s) as [l'|] eqn:E; [|done].
      cbn. intros [= <-]. by apply Hr.
    + rewrite decide_False by done. destruct (shardLeaders sr !! s); cbn; congruence.
  - destruct (shardLeaders sr !! s) as [l'|] eqn:E; [|done]. cbn. intros [= <-]. by apply Hr.
Qed.

Lemma track_exec_tracked self ev st : tracked self st → tracked self (track_exec ev st).
Proof.
  destruct st as [m sr]. intros Ht. pose proof Ht as (Hid & Hm & Hr).
  destruct ev as [s ps|s|s n|s| |s]; cbn [track_exec].
  - unfold StartShard. case_decide; [done|]. apply set_shard_tracked; [done|]. cbn in Hid. rewrite Hid. split; [done|by left].
  - unfold StopShard. destruct (mr_shards m !! s) as [sh|]; [|done].
    split_and!; [done| |done]. by apply map_Forall_delete.
  - destruct (mr_shards m !! s) as [sh|] eqn:Hs; [|done]. apply set_shard_tracked; [done|]. exact (Hm _ _ Hs).
  - unfold track_leader. destruct (mr_shards m !! s) as [sh|] eqn:Hs; [|done]. unfold GetState.
    apply set_shard_tracked; [done|]. destruct (Hm _ _ Hs) as [Hn Hl].
    split; [done|]. cbn [sh_Leader]. case_bool_decide; [by right|done].
  - by apply track_leaders_tracked.
  - unfold updateLeader. destruct (GetShardLeader s m) as [l|] eqn:Hl; [|done].
    destruct (known_leader _ _ _ _ _ Ht Hl) as [-> Hne]. rewrite decide_False by done.
    split_and!; [done|done|]. by apply map_Forall_insert_2.
Qed.

Lemma track_all_tracked self evs st : tracked self st → tracked self (track_all evs st).
Proof. revert st. induction evs as [|ev evs IH]; intros st Ht; [done|]. apply IH. by apply track_exec_tracked. Qed.

(** The manager holds [own] as the leader of shard [s], and as its own id there. *)
Definition claims (s : ShardID) (own : bytes) (m : MultiRaftManager) : Prop :=
  ∃ sh, mr_shards m !! s = Some sh ∧ sh_NodeID sh = own ∧ sh_Leader sh = own.

Lemma set_shard_claims s own s' sh m :
  claims s own m → (s' = s → sh_NodeID sh = own ∧ sh_Leader sh = own) → claims s own (set_shard s' sh m).
Proof.
  intros (x & Hx & Ho) Hsh. unfold claims. cbn. destruct (decide (s' = s)) as [->|].
  - exists sh. rewrite lookup_insert_eq. split; [done|by apply Hsh].
  - exists x. by rewrite lookup_insert_ne.
Qed.

(** Nothing but stopping the shard makes the manager forget a leader. *)
Lemma claims_exec s own ev st : ev ≠ TStop s → claims s own st.1 → claims s own (track_exec ev st).1.
Proof.
  destruct st as [m sr]. intros Hev Hc. pose proof Hc as (sh & Hsh & Hn & Hl). cbn in Hsh.
  destruct ev as [s' ps|s'|s' n|s'| |s']; cbn [track_exec]; try done.
  - unfold StartShard. case_decide as Hd; [done|]. apply set_shard_claims; [done|]. intros ->. destruct Hd. eauto.
  - unfold StopShard. destruct (mr_shards m !! s'); [|done]. exists sh. cbn. rewrite lookup_delete_ne by congruence. done.
  - destruct (mr_shards m !! s') as [x|] eqn:Hx; [|done]. apply set_shard_claims; [done|]. intros ->. by simplify_eq.
  - cbn [fst]. unfold track_leader. destruct (mr_shards m !! s') as [x|] eqn:Hx; [|done]. unfold GetState.
    apply set_shard_claims; [done|]. intros ->. simplify_eq. cbn. by case_bool_decide.
Qed.

Lemma claims_all s own evs st : TStop s ∉ evs → claims s own st.1 → claims s own (track_all evs st).1.
Proof.
  revert st. induction evs as [|ev evs IH]; intros st Hns Hc; [done|].
  apply not_elem_of_cons in Hns as [Hne Hns]. apply IH; [done|]. by apply claims_exec.
Qed.

Definition started (self : Z) (hr : HashRing) (retries : Z) : MultiRaftManager * ShardRouter :=
  (NewMultiRaftManager self, NewShardRouter hr retries).

Lemma started_tracked self hr retries : tracked self (started self hr retries).
Proof. split_and!; [done|apply map_Forall_empty|apply map_Forall_empty]. Qed.

(** The leader that the manager or the router reports for a shard is always
    this process itself, never another one, however the trackers, the shards and
    the nodes interleave. *)
Theorem router_knows_only_itself self hr retries evs s l :
  GetShardLeader s (track_all evs (started self hr retries)).1 = inl l
  ∨ router_GetLeader s (track_all evs (started self hr retries)).2 = Some l →
  l = shard_node_id s self.
Proof.
  pose proof (track_all_tracked self evs _ (started_tracked self hr retries)) as Ht.
  destruct (track_all evs (started self hr retries)) as [m sr]. cbn [fst snd]. intros [Hl|Hl].
  - by destruct (known_leader _ _ _ _ _ Ht Hl).
  - unfold router_GetLeader in Hl. destruct (shardLeaders sr !! s) as [l'|] eqn:E; cbn in Hl; [|done].
    case_decide; [done|]. injection Hl as <-. by apply Ht.
Qed.

(** Once a tick has seen this process lead a shard, the manager reports it as
    the leader until the shard is stopped, also when its node has stepped down. *)
Theorem router_keeps_deposed_leader self hr retries evs s evs' :
  let st := track_all evs (started self hr retries) in
  leads_shard s st.1 = true →
  TStop s ∉ evs' →
  GetShardLeader s (track_all evs' (track_exec (TShardTick s) st)).1 = inl (shard_node_id s self).
Proof.
  cbv zeta. pose proof (track_all_tracked self evs _ (started_tracked self hr retries)) as (_ & Hm & _).
  destruct (track_all evs (started self hr retries)) as [m sr]. cbn [fst] in *. intros Hl Hns.
  assert (claims s (shard_node_id s self) (track_exec (TShardTick s) (m, sr)).1) as Hc.
  { unfold leads_shard in Hl. cbn [track_exec fst]. unfold track_leader, GetState.
    destruct (mr_shards m !! s) as [sh|] eqn:Hs; [|done]. rewrite Hl. destruct (Hm _ _ Hs) as [Hn _].
    eexists. cbn. rewrite lookup_insert_eq. by split_and!. }
  destruct (claims_all _ _ evs' _ Hns Hc) as (sh & Hs & _ & Hlead).
  unfold GetShardLeader. rewrite Hs, Hlead. by rewrite decide_False.
Qed.

(** A leader that handles its own heartbeat, as in a shard whose peers include
    the process itself, steps down and forgets its vote. *)
Theorem own_heartbeat_deposes grow reads peer n w req n2 resp n3 :
  build_append peer n = Built w req →
  currentTerm n2 = currentTerm n →
  HandleAppendEntries grow reads (marshal w req n2) n2 = Some (resp, n3) →
  state n3 = Follower ∧ votedFor n3 = [].
Proof.
  intros Hb Ht Hh. assert (ae_Term req = currentTerm n) as Hreq.
  { unfold build_append in Hb. case_bool_decide; [|done].
    destruct (_ <=? zlen (entries (log n))); [destruct (zlen (entries (log n)) <? _)|]; [done|by injection Hb as _ <-..]. }
  destruct (append_entries_role _ _ _ _ _ _ Hh) as (_ & _ & [(Hlt & _)|(_ & Hs & _ & Hv)]); [cbn in Hlt; lia|done].
Qed.

(** ** The lock of the manager

    [sync.RWMutex]: a goroutine that calls [Lock] first announces itself, which
    holds back further calls of [RLock], and then waits for the readers. *)

Inductive lock_op := RLock | RUnlock | Announce | Acquire | Unlock.

Record goroutine := mkGo { g_reads : nat; g_announced : bool; g_todo : list lock_op }.

Definition announced (gs : list goroutine) : bool := existsb g_announced gs.

Definition reading (gs : list goroutine) : bool := existsb (λ g, (0 <? g_reads g)%nat) gs.

(** The goroutine after its next operation; [None] when it blocks. *)
Definition lock_step (gs : list goroutine) (g : goroutine) : option goroutine :=
  match g_todo g with
  | RLock :: k => if announced gs then None else Some (mkGo (S (g_reads g)) (g_announced g) k)
  | RUnlock :: k => Some (mkGo (pred (g_reads g)) (g_announced g) k)
  | Announce :: k => if announced gs then None else Some (mkGo (g_reads g) true k)
  | Acquire :: k => if reading gs then None else Some (mkGo (g_reads g) (g_announced g) k)
  | Unlock :: k => Some (mkGo (g_reads g) false k)
  | [] => None
  end.

Definition lock_exec (gs : list goroutine) (i : nat) : list goroutine :=
  match gs !! i with
  | Some g => match lock_step gs g with Some g' => <[i := g']> gs | None => gs end
  | None => gs
  end.

Definition lock_run (sched : list nat) (gs : list goroutine) : list goroutine := foldl lock_exec gs sched.

(** The lock operations of [GetAllShardStatuses] over [n] shards and of one tick
    of [trackLeader]. *)
Definition statuses_locks (n : nat) : list lock_op :=
  RLock :: mjoin (replicate n [RLock; RUnlock]) ++ [RUnlock].

Definition tracker_locks : list lock_op := [RLock; RUnlock; Announce; Acquire; Unlock].

Definition waiting_for (a b : goroutine) : Prop :=
  (0 < g_reads a)%nat ∧ head (g_todo a) = Some RLock ∧ g_announced b = true ∧ head (g_todo b) = Some Acquire.

Lemma announced_lookup gs j b : gs !! j = Some b → g_announced b = true → announced gs = true.
Proof. intros Hb Hann. apply existsb_exists. exists b. split; [|done]. by eapply list_elem_of_In, list_elem_of_lookup_2. Qed.

Lemma reading_lookup gs i a : gs !! i = Some a → (0 < g_reads a)%nat → reading gs = true.
Proof.
  intros Ha Hr. apply existsb_exists. exists a. split; [|by apply Nat.ltb_lt].
  by eapply list_elem_of_In, list_elem_of_lookup_2.
Qed.

Lemma stuck_exec gs i j k a b :
  gs !! i = Some a → gs !! j = Some b → waiting_for a b →
  lock_exec gs k !! i = Some a ∧ lock_exec gs k !! j = Some b.
Proof.
  intros Ha Hb (Hra & Hta & Hab & Htb). unfold lock_exec.
  destruct (gs !! k) as [g|] eqn:Hg; [|done]. destruct (lock_step gs g) as [g'|] eqn:Hs; [|done].
  pose proof (announced_lookup _ _ _ Hb Hab) as Hann. pose proof (reading_lookup _ _ _ Ha Hra) as Hread.
  assert (k ≠ i).
  { intros ->. assert (g = a) as -> by congruence. unfold lock_step in Hs. destruct (g_todo a) as [|[]]; try done.
    by rewrite Hann in Hs. }
  assert (k ≠ j).
  { intros ->. assert (g = b) as -> by congruence. unfold lock_step in Hs. destruct (g_todo b) as [|[]]; try done.
    by rewrite Hread in Hs. }
  by rewrite !list_lookup_insert_ne.
Qed.

Lemma stuck_run gs i j sched a b :
  gs !! i = Some a → gs !! j = Some b → waiting_for a b →
  lock_run sched gs !! i = Some a ∧ lock_run sched gs !! j = Some b.
Proof.
  revert gs. induction sched as [|k sched IH]; intros gs Ha Hb Hw; [done|].
  destruct (stuck_exec _ _ _ k _ _ Ha Hb Hw). by apply IH.
Qed.

(** [GetAllShardStatuses] can deadlock with a tick of [trackLeader]: once the
    tick asks for the lock after the outer [RLock], neither ever moves again,
    whatever other goroutines there are and however they are scheduled. *)
Theorem statuses_may_deadlock n others :
  (0 < n)%nat →
  announced others = false →
  ∃ sched, ∀ sched' gs,
    gs = lock_run (sched ++ sched') (mkGo 0 false (statuses_locks n) :: mkGo 0 false tracker_locks :: others) →
    ∃ a b, gs !! 0%nat = Some a ∧ gs !! 1%nat = Some b
           ∧ lock_step gs a = None ∧ lock_step gs b = None ∧ g_todo a ≠ [] ∧ g_todo b ≠ [].
Proof.
  intros Hn Hann. exists [1; 1; 0; 1]%nat. intros sched' gs ->. unfold lock_run. rewrite foldl_app.
  destruct n as [|n]; [lia|].
  set (rest := mjoin (replicate n [RLock; RUnlock]) ++ [RUnlock]).
  set (a := mkGo 1 false (RLock :: RUnlock :: rest)). set (b := mkGo 0 true [Acquire; Unlock]).
  assert (foldl lock_exec (mkGo 0 false (statuses_locks (S n)) :: mkGo 0 false tracker_locks :: others) [1; 1; 0; 1]%nat
          = a :: b :: others) as ->.
  { unfold announced in Hann. cbn [foldl]. unfold lock_exec at 4. cbn. unfold lock_step, announced. cbn.
    rewrite Hann. cbn. unfold lock_exec, lock_step, announced. cbn. rewrite !Hann. cbn. by rewrite !Hann. }
  assert (waiting_for a b) as Hw by (split_and!; cbn; [lia|done..]).
  destruct (stuck_run (a :: b :: others) 0 1 sched' a b eq_refl eq_refl Hw) as [Ha Hb]. unfold lock_run in Ha, Hb.
  exists a, b. set (gs := foldl lock_exec _ sched') in *. split_and!; [done|done| | |done|done].
  - unfold lock_step. cbn. by rewrite (announced_lookup _ _ _ Hb eq_refl).
  - unfold lock_step. cbn. rewrite (reading_lookup _ _ _ Ha); [done|cbn; lia].
Qed.

(** ** Witnesses *)

Definition leading : Node := becomeLeader (NewNode (shard_node_id 2 1) [str "localhost:9200"]).

Definition led : list track_event := [TStart 2 [str "localhost:9200"]; TNode 2 leading; TShardTick 2].

Lemma router_knows_only_itself_witness :
  GetShardLeader 2 (track_all led (started 1 small_ring 0)).1 = inl (str "shard2_node1")
  ∧ str "shard2_node1" = shard_node_id 2 1.
Proof.
  split; [vm_compute; reflexivity|].
  apply (router_knows_only_itself 1 small_ring 0 led 2). left. vm_compute. reflexivity.
Defined.

Lemma router_keeps_deposed_leader_witness :
  GetShardLeader 2 (track_all [TNode 2 (becomeFollower 7 leading); TShardTick 2]
    (track_exec (TShardTick 2) (track_all led (started 1 small_ring 0)))).1 = inl (shard_node_id 2 1).
Proof.
  apply (router_keeps_deposed_leader 1 small_ring 0 led 2); [vm_compute; reflexivity|].
  apply not_elem_of_cons. split; [done|]. apply not_elem_of_cons. split; [done|]. apply not_elem_of_nil.
Defined.

Lemma statuses_may_deadlock_witness :
  ∃ sched, ∀ sched' gs,
    gs = lock_run (sched ++ sched') (mkGo 0 false (statuses_locks 3) :: mkGo 0 false tracker_locks :: [mkGo 0 false tracker_locks]) →
    ∃ a b, gs !! 0%nat = Some a ∧ gs !! 1%nat = Some b
           ∧ lock_step gs a = None ∧ lock_step gs b = None ∧ g_todo a ≠ [] ∧ g_todo b ≠ [].
Proof. apply (statuses_may_deadlock 3 [mkGo 0 false tracker_locks]); [lia|reflexivity]. Defined.
