(* ===== verification/Replica.v ===== *)
(** * A replica of the distributed server

    src/node/cmd/distributed_server/main.go: a process with an engine and a Raft
    node. Clients send lines of text; writes go through the Raft log as text and
    are applied to the engine when Raft gives them back, reads are answered by
    the engine at once. *)

From S2P Require Import Prelude Files Policy Lru Lfu Dispatch HashTable Store TableFacts Table Resp Engine Binding GoServer.
From S2P Require Import Raft RaftNode RaftVotes RaftLogs RaftSafety.

(** ** What the program uses of the standard library *)

(** The word read so far, if any. *)
Definition end_word (word : bytes) : list bytes := if decide (word = []) then [] else [word].

Fixpoint fields_loop (fuel : nat) (s word : bytes) : list bytes :=
  match fuel, s with
  | S fuel, c :: s' =>
      match strip_any SPACES s with
      | Some rest => end_word word ++ fields_loop fuel rest []
      | None => fields_loop fuel s' (word ++ [c])
      end
  | _, _ => end_word word
  end.

(** [strings.Fields]; no encoding of a space overlaps another character. *)
Definition Fields (s : bytes) : list bytes := fields_loop (length s) s [].

Definition SP : Init.Byte.byte := byte.of_Z 32.

(** [strings.Join] with a space. *)
Fixpoint Join (ws : list bytes) : bytes :=
  match ws with
  | [] => []
  | [w] => w
  | w :: ws => w ++ [SP] ++ Join ws
  end.

(** [fmt.Sscanf] with ["%d"] into a variable that is zero: a sign and digits; on
    an error the variable keeps its value. *)
Definition Sscanf_d (s : bytes) : Z :=
  let tok := match s with
             | c :: t => if decide (c = PLUS ∨ c = MINUS) then c :: digit_run t else digit_run s
             | [] => []
             end in
  default 0 (Atoi tok).

Definition MaxScanTokenSize : Z := 64 * 1024.

(** The line without a carriage return at its end. *)
Definition dropCR (line : bytes) : bytes :=
  match last line with Some c => if decide (c = CR) then removelast line else line | None => line end.

(** [bufio.Scanner]: the lines it returns; a line that does not fit its buffer
    ends the scan. *)
Fixpoint scan_lines (fuel : nat) (s : bytes) : list bytes :=
  match fuel, s with
  | S fuel, _ :: _ =>
      match ReadString s with
      | Some (line, rest) =>
          if MaxScanTokenSize <? zlen line then [] else dropCR (removelast line) :: scan_lines fuel rest
      | None => if MaxScanTokenSize <=? zlen s then [] else [dropCR s]
      end
  | _, _ => []
  end.

(** ** The program *)

Section replica.
Context {H : Type} `{!LFU.PriorityQueue H}.
Context (upper_unicode : bytes → bytes) (grow : nat → nat).

Abbreviation upper := (ToUpper upper_unicode).

(** The duration of [SET key value EX seconds]. *)
Definition ex_ttl (parts : list bytes) : Z :=
  match parts with
  | _ :: _ :: _ :: ex :: seconds :: _ => if decide (upper ex = str "EX") then s64 (Sscanf_d seconds * SECOND) else 0
  | _ => 0
  end.

Definition applyCommand (msg : ApplyMsg) (now : Z) (e : EngineHandle (H := H)) : EngineHandle :=
  match Fields (am_Command msg) with
  | [] => e
  | (name :: args) as parts =>
      if decide (upper name = str "SET") then
        match args with
        | key :: value :: _ => default e (go_set key value (ex_ttl parts) now e).2
        | _ => e
        end
      else if decide (upper name = str "DEL") then
        match args with
        | key :: _ => default e (go_delete key e).2
        | _ => e
        end
      else e
  end.

Definition WRONG_ARGS : bytes := str "-ERR wrong number of arguments" ++ CRLF.

(** The command goes to Raft, and [reply] to the client if this node leads;
    heartbeats follow as in Raft.v. *)
Definition propose_line (parts : list bytes) (reply : bytes) (n : Node) : bytes * Node :=
  let '(_, _, isLeader, n') := Propose grow (Join parts) n in
  (if isLeader : bool then reply else str "-ERR not leader" ++ CRLF, n').

(** One round of the loop of [handleClient]; [None] when nothing is written. *)
Definition handle_line (nodeID line : bytes) (clock : Z * Z * Z) (n : Node) (e : EngineHandle (H := H))
  : option bytes * Node * EngineHandle :=
  match Fields (TrimSpace line) with
  | [] => (None, n, e)
  | (name :: args) as parts =>
      let cmd := upper name in
      if decide (cmd = str "PING") then (Some PONG_REPLY, n, e)
      else if decide (cmd = str "GET") then
        match args with
        | key :: _ =>
            let '(r, h) := go_get key clock e in
            (Some (match r with inl value => bulk_reply value | inr _ => NULL_REPLY end), n, default e h)
        | [] => (Some WRONG_ARGS, n, e)
        end
      else if decide (cmd = str "SET") then
        match args with
        | _ :: _ :: _ => let '(reply, n') := propose_line parts OK_REPLY n in (Some reply, n', e)
        | _ => (Some WRONG_ARGS, n, e)
        end
      else if decide (cmd = str "DEL") then
        match args with
        | _ :: _ => let '(reply, n') := propose_line parts ONE_REPLY n in (Some reply, n', e)
        | [] => (Some WRONG_ARGS, n, e)
        end
      else if decide (cmd = str "RAFT_STATUS") then
        let '(term, isLeader) := GetState n in
        (Some (str "+Node: " ++ nodeID ++ str ", Term: " ++ show term ++ str ", Status: "
               ++ (if isLeader : bool then str "leader" else str "follower") ++ CRLF), n, e)
      else (Some (str "-ERR unknown command" ++ CRLF), n, e)
  end.

(** The loop of [handleClient]; line [k] is handled with the readings [clock k],
    and [between k] is what the rest of the process does before it. *)
Fixpoint client_loop (nodeID : bytes) (clock : nat → Z * Z * Z) (between : nat → Node * EngineHandle → Node * EngineHandle)
    (k : nat) (lines : list bytes) (st : Node * EngineHandle) : list bytes * (Node * EngineHandle) :=
  match lines with
  | [] => ([], st)
  | line :: lines =>
      let '(n, e) := between k st in
      let '(reply, n, e) := handle_line nodeID line (clock k) n e in
      let '(replies, st) := client_loop nodeID clock between (S k) lines (n, e) in
      (match reply with Some r => r :: replies | None => replies end, st)
  end.

(** A connection on which the bytes [s] arrive. *)
Definition handleClient (nodeID : bytes) (clock : nat → Z * Z * Z) (between : nat → Node * EngineHandle → Node * EngineHandle)
    (s : bytes) (st : Node * EngineHandle) : list bytes * (Node * EngineHandle) :=
  client_loop nodeID clock between 0 (scan_lines (length s) s) st.

(** What the process does to its engine: commands that Raft gives back, and
    reads of its clients, one after the other. The goroutines of the process do
    nothing to keep them apart: a call of the engine in the middle of another is a
    data race, of which this model says nothing. *)
Inductive replica_event :=
| RApply (msg : ApplyMsg) (now : Z)
| RRead (key : bytes) (clock : Z * Z * Z).

Definition replica_step (e : EngineHandle (H := H)) (ev : replica_event) : EngineHandle :=
  match ev with
  | RApply msg now => applyCommand msg now e
  | RRead key clock => default e (go_get key clock e).2
  end.

Definition replica_run (evs : list replica_event) (e : EngineHandle) : EngineHandle := foldl replica_step e evs.

Definition given (evs : list replica_event) : list ApplyMsg :=
  omap (λ ev, match ev with RApply msg _ => Some msg | RRead _ _ => None end) evs.

(** What a command of the log does to the values. *)
Definition write_of (cmd : bytes) (m : gmap bytes bytes) : gmap bytes bytes :=
  match Fields cmd with
  | name :: key :: rest =>
      if decide (upper name = str "SET") then
        match rest with
        | value :: _ => if MAX_VALUE <? zlen value then m else <[key := value]> m
        | [] => m
        end
      else if decide (upper name = str "DEL") then delete key m else m
  | _ => m
  end.

(** Commands that give no deadline. *)
Definition untimed (cmd : bytes) : bool := ex_ttl (Fields cmd) <=? 0.

Definition values (e : EngineHandle (H := H)) : gmap bytes bytes := value <$> contents (table e).
End replica.

(** ** Words and lines *)

Definition word (w : bytes) : Prop := w ≠ [] ∧ ∀ j, (j < length w)%nat → strip_any SPACES (drop j w) = None.

Lemma strip_prefix_app p s t r : strip_prefix p s = Some r → strip_prefix p (s ++ t) = Some (r ++ t).
Proof.
  revert s. induction p as [|a p IH]; intros s; [by intros [= ->]|]. destruct s as [|b s]; [done|].
  simpl. case_decide; [apply IH|done].
Qed.

Lemma strip_any_None ps s : strip_any ps s = None ↔ Forall (λ p, strip_prefix p s = None) ps.
Proof.
  induction ps as [|p ps IH]; simpl; [by split|]. rewrite Forall_cons, <- IH.
  destruct (strip_prefix p s); [|naive_solver]. split; [done|by intros [? _]].
Qed.

Lemma strip_any_app ps s t : strip_any ps (s ++ t) = None → strip_any ps s = None.
Proof.
  rewrite !strip_any_None. intros Hf. eapply Forall_impl; [exact Hf|]. intros p Hp.
  destruct (strip_prefix p s) as [r|] eqn:E; [|done]. apply (strip_prefix_app _ _ t) in E. cbn in Hp. congruence.
Qed.

Lemma strip_prefix_SP p s t : SP ∉ p → strip_prefix p s = None → strip_prefix p (s ++ SP :: t) = None.
Proof.
  revert s. induction p as [|a p IH]; intros s; [done|]. rewrite not_elem_of_cons. intros [Ha Hp].
  destruct s as [|b s]; simpl; [by rewrite decide_False by done|]. case_decide; [by apply IH|done].
Qed.

Lemma strip_any_SP c s t :
  strip_any SPACES (c :: s) = None → strip_any SPACES (c :: s ++ SP :: t) = None.
Proof.
  assert (Forall (λ p, SP ∉ tail p) SPACES) as Hps by (by apply (bool_decide_unpack _); vm_compute).
  rewrite !strip_any_None. intros Hf. rewrite Forall_forall in Hf, Hps. apply Forall_forall. intros p Hp.
  specialize (Hf p Hp). specialize (Hps p Hp). cbn in Hf, Hps. destruct p as [|a p]; [done|]. simpl in *.
  case_decide; [by apply strip_prefix_SP|done].
Qed.

Lemma strip_prefix_length p s r : strip_prefix p s = Some r → (length s = length p + length r)%nat.
Proof.
  revert s. induction p as [|a p IH]; intros s; [by intros [= ->]|]. destruct s as [|b s]; [done|].
  simpl. case_decide; [|done]. intros E%IH. lia.
Qed.

Lemma strip_any_shorter s r : strip_any SPACES s = Some r → (length r < length s)%nat.
Proof.
  assert (Forall (λ p : bytes, p ≠ []) SPACES) as Hps by (by apply (bool_decide_unpack _); vm_compute).
  induction Hps as [|p ps Hp _ IH]; simpl; [done|]. destruct (strip_prefix p s) as [r'|] eqn:E; [|done].
  intros [= <-]. apply strip_prefix_length in E. destruct p; [done|]. simpl in E. lia.
Qed.

Lemma fields_fuel fuel s w : (length s <= fuel)%nat → fields_loop fuel s w = fields_loop (length s) s w.
Proof.
  revert s w. induction fuel as [fuel IH] using lt_wf_ind. intros s w Hs. destruct s as [|c s]; [by destruct fuel|].
  simpl in Hs. destruct fuel as [|fuel]; [lia|]. cbn [fields_loop length].
  destruct (strip_any SPACES (c :: s)) as [r|] eqn:E; [|apply IH; lia].
  apply strip_any_shorter in E. simpl in E. f_equal. rewrite IH by lia. symmetry. apply IH; lia.
Qed.

Lemma fields_word w s cur :
  (∀ j, (j < length w)%nat → strip_any SPACES (drop j w ++ s) = None) →
  fields_loop (length (w ++ s)) (w ++ s) cur = fields_loop (length s) s (cur ++ w).
Proof.
  revert cur. induction w as [|c w IH]; intros cur Hw; [by rewrite app_nil_r|].
  cbn [app length fields_loop]. pose proof (Hw 0%nat ltac:(simpl; lia)) as H0. cbn [drop app] in H0. rewrite H0, IH.
  - by rewrite <- app_assoc.
  - intros j Hj. apply (Hw (S j)). simpl. lia.
Qed.

Lemma word_before_SP w t j : word w → (j < length w)%nat → strip_any SPACES (drop j w ++ SP :: t) = None.
Proof.
  intros [_ Hw] Hj. specialize (Hw j Hj). destruct (drop j w) as [|c r] eqn:E.
  - apply (f_equal length) in E. rewrite length_drop in E. simpl in E. lia.
  - by apply strip_any_SP.
Qed.

Lemma end_word_word w : w ≠ [] → end_word w = [w].
Proof. intros Hw. unfold end_word. by rewrite decide_False. Qed.

Lemma fields_join ws : Forall word ws → Fields (Join ws) = ws.
Proof.
  unfold Fields. induction 1 as [|w ws Hw Hws IH]; [done|]. destruct ws as [|w' ws].
  - cbn [Join]. pose proof (fields_word w [] []) as Hf. rewrite !app_nil_r in Hf. rewrite Hf; [by apply end_word_word, Hw|].
    intros j Hj. rewrite app_nil_r. by apply Hw.
  - change (Join (w :: w' :: ws)) with (w ++ SP :: Join (w' :: ws)).
    rewrite fields_word by (intros j Hj; by apply word_before_SP). rewrite app_nil_l.
    change (length (SP :: Join (w' :: ws))) with (S (length (Join (w' :: ws)))). cbn [fields_loop].
    assert (∀ t, strip_any SPACES (SP :: t) = Some t) as -> by done.
    rewrite IH, end_word_word by apply Hw. done.
Qed.

Lemma end_word_words s cur :
  (∀ j, (j < length cur)%nat → strip_any SPACES (drop j cur ++ s) = None) → Forall word (end_word cur).
Proof.
  intros Hc. unfold end_word. case_decide; [done|]. apply Forall_singleton. split; [done|].
  intros j Hj. by eapply strip_any_app, Hc.
Qed.

Lemma fields_loop_words fuel s cur :
  (∀ j, (j < length cur)%nat → strip_any SPACES (drop j cur ++ s) = None) → Forall word (fields_loop fuel s cur).
Proof.
  revert s cur. induction fuel as [|fuel IH]; intros s cur Hc; [by eapply end_word_words|].
  destruct s as [|c s]; [by eapply end_word_words|]. cbn [fields_loop].
  destruct (strip_any SPACES (c :: s)) as [r|] eqn:E.
  - apply Forall_app. split; [by eapply end_word_words|]. apply IH. simpl. lia.
  - apply IH. intros j Hj. rewrite length_app in Hj. simpl in Hj. destruct (decide (j < length cur)%nat) as [Hlt|].
    + rewrite drop_app_le, <- app_assoc by lia. by apply Hc.
    + replace j with (length cur) by lia. by rewrite drop_app_length.
Qed.

(** The text of a command is read back as the words it was made of. *)
Lemma fields_roundtrip s : Fields (Join (Fields s)) = Fields s.
Proof. apply fields_join, fields_loop_words. simpl. lia. Qed.

(** Lines a client may send. *)
Definition sendable_line (l : bytes) : Prop := (LF ∉ l) ∧ zlen l + 2 <= MaxScanTokenSize.

(** Every line arrives, whole and in order. *)
Lemma scan_lines_roundtrip ls fuel :
  Forall sendable_line ls → (length (concat (map (λ l, l ++ CRLF) ls)) <= fuel)%nat →
  scan_lines fuel (concat (map (λ l, l ++ CRLF) ls)) = ls.
Proof.
  intros Hls. revert fuel. induction Hls as [|l ls [Hlf Hlen] _ IH]; intros fuel Hf; [by destruct fuel|].
  cbn [map concat] in *. rewrite <- app_assoc in *. rewrite !length_app in Hf. change (length CRLF) with 2%nat in Hf.
  destruct fuel as [|fuel]; [lia|].
  assert (∀ t, scan_lines (S fuel) (l ++ CRLF ++ t) = l :: scan_lines fuel t) as ->; [|by rewrite IH by lia].
  intros t. cbn [scan_lines]. rewrite ReadString_line by done. destruct (l ++ CRLF ++ t) eqn:E; [by destruct l|].
  rewrite zlen_app. change (zlen CRLF) with 2. destruct (Z.ltb_spec MaxScanTokenSize (zlen l + 2)); [lia|]. f_equal.
  change CRLF with ([CR] ++ [LF]). rewrite app_assoc, removelast_last. unfold dropCR. rewrite last_snoc, decide_True by done.
  by rewrite removelast_last.
Qed.

Lemma fields_length fuel s cur w : w ∈ fields_loop fuel s cur → (length w <= length cur + length s)%nat.
Proof.
  assert (∀ c, w ∈ end_word c → w = c) as Hend.
  { intros c. unfold end_word. case_decide; [by intros ?%elem_of_nil|by intros ?%list_elem_of_singleton]. }
  revert s cur. induction fuel as [|fuel IH]; intros s cur; [intros ->%Hend; lia|].
  destruct s as [|c s]; [intros ->%Hend; lia|]. cbn [fields_loop].
  destruct (strip_any SPACES (c :: s)) as [r|] eqn:E.
  - apply strip_any_shorter in E. intros [->%Hend|Hw%IH]%elem_of_app; simpl in *; lia.
  - intros Hw%IH. rewrite length_app in Hw. simpl in *. lia.
Qed.

Lemma Fields_zlen s w : w ∈ Fields s → zlen w <= zlen s.
Proof. intros Hw%fields_length. unfold zlen. simpl in Hw. lia. Qed.

(** ** The values of a replica *)

Section values.
Context {H : Type} `{!LFU.PriorityQueue H}.
Context (upper_unicode : bytes → bytes).

Abbreviation upper := (ToUpper upper_unicode).

(** The engine is sound, nothing in it has a deadline, and its values take up at
    most [room] bytes. *)
Definition replica_ok (room : Z) (e : EngineHandle (H := H)) : Prop :=
  engine_ok e ∧ map_Forall (λ _ v, expiry_ns v = 0) (contents (table e)) ∧ total (contents (table e)) <= room.

Lemma replica_set room k v ttl now (e : EngineHandle (H := H)) :
  replica_ok room e → room + zlen v <= DEFAULT_LIMIT → ttl <= 0 →
  let e' := default e (go_set k v ttl now e).2 in
  replica_ok (room + zlen v) e' ∧ values e' = if MAX_VALUE <? zlen v then values e else <[k := v]> (values e).
Proof.
  intros (Hok & Hx & Ht) Hroom Httl. pose proof (zlen_nonneg v).
  destruct (go_set_refines k v ttl now e Hok) as (e' & -> & Hok' & Hc); [unfold DEFAULT_LIMIT in *; lia|]. cbv zeta. cbn [snd from_option Datatypes.id].
  unfold values. destruct (MAX_VALUE <? zlen v).
  - rewrite Hc. split; [|done]. split_and!; [done|by rewrite Hc|rewrite Hc; lia].
  - destruct Hc as (m' & (_ & Hm & _) & Hc). rewrite Hm in Hc by lia. rewrite Hc, fmap_insert. split; [|done].
    unfold deadline in Hc. destruct (Z.ltb_spec 0 ttl); [lia|]. split_and!; [done| |].
    + rewrite Hc. by apply map_Forall_insert_2.
    + rewrite Hc, total_insert. pose proof (total_delete_le (contents (table e)) k). simpl. lia.
Qed.

Lemma replica_delete room k (e : EngineHandle (H := H)) :
  replica_ok room e →
  let e' := default e (go_delete k e).2 in replica_ok room e' ∧ values e' = delete k (values e).
Proof.
  intros (Hok & Hx & Ht). destruct (go_delete_refines k e Hok) as (e' & err & -> & Hok' & _ & Hc). cbn.
  unfold values. rewrite Hc, fmap_delete. split; [|done]. split_and!; [done| |].
  - rewrite Hc. by apply map_Forall_delete.
  - rewrite Hc. pose proof (total_delete_le (contents (table e)) k). lia.
Qed.

Lemma replica_read room k clock (e : EngineHandle (H := H)) :
  replica_ok room e →
  let e' := default e (go_get k clock e).2 in
  replica_ok room e' ∧ values e' = values e
  ∧ (go_get k clock e).1 = match values e !! k with Some v => inl v | None => inr ErrNotFound end.
Proof.
  intros (Hok & Hx & Ht). destruct (go_get_refines k clock e Hok) as (e' & -> & Hok' & Hc). cbn.
  unfold values. rewrite lookup_fmap. destruct Hc as [(v & Hk & _ & _ & -> & Hc)|(-> & Hk & Hc)].
  - rewrite Hc, Hk, fmap_insert. split; [|split; [|done]].
    + split_and!; [done| |].
      * rewrite Hc. apply map_Forall_insert_2; [|done]. exact (Hx _ _ Hk).
      * rewrite Hc, total_insert. rewrite (total_delete _ _ _ Hk) in Ht. done.
    + apply insert_id. by rewrite lookup_fmap, Hk.
  - assert (contents (table e) !! k = None) as Hnone.
    { destruct (contents (table e) !! k) as [v|] eqn:E; [|done].
      destruct (Hk v eq_refl) as [Hv|Hv]; unfold is_expired in Hv; by rewrite (Hx _ _ E) in Hv. }
    rewrite delete_id in Hc by done. assert (contents (table e') = contents (table e)) as -> by (by destruct Hc).
    rewrite Hnone. split_and!; [|done|done]. split_and!; [done|destruct Hc as [-> | ->]; done|destruct Hc as [-> | ->]; done].
Qed.

Lemma replica_apply room msg now (e : EngineHandle (H := H)) :
  replica_ok room e → room + zlen (am_Command msg) <= DEFAULT_LIMIT → untimed upper_unicode (am_Command msg) = true →
  let e' := applyCommand upper_unicode msg now e in
  replica_ok (room + zlen (am_Command msg)) e' ∧ values e' = write_of upper_unicode (am_Command msg) (values e).
Proof.
  intros Hok Hroom Httl. pose proof (zlen_nonneg (am_Command msg)).
  assert (∀ r, r <= room + zlen (am_Command msg) → ∀ e', replica_ok r e' → replica_ok (room + zlen (am_Command msg)) e')
    as Hmono by (intros r Hr e' (? & ? & ?); split_and!; [done..|lia]).
  assert (replica_ok (room + zlen (am_Command msg)) e) as Hsame by (apply (Hmono room); [lia|done]).
  unfold applyCommand, write_of, untimed in *. apply Z.leb_le in Httl.
  pose proof (Fields_zlen (am_Command msg)) as Hlen.
  destruct (Fields (am_Command msg)) as [|name [|k rest]]; [done|by repeat case_decide|].
  case_decide; [|case_decide; [|done]].
  - destruct rest as [|v rest]; [done|]. assert (zlen v <= zlen (am_Command msg)) as Hv.
    { apply Hlen. do 2 right. by left. }
    destruct (replica_set room k v _ now e Hok ltac:(lia) Httl) as [Hok' Hvals]. split; [|done].
    by apply (Hmono (room + zlen v)); [lia|].
  - destruct (replica_delete room k e Hok) as [Hok' Hvals]. split; [|done]. by apply (Hmono room); [lia|].
Qed.

(** The bytes of the commands of a history. *)
Definition volume (evs : list replica_event) : Z := foldr (λ msg z, zlen (am_Command msg) + z) 0 (given evs).

Lemma volume_nonneg evs : 0 <= volume evs.
Proof.
  unfold volume. induction (given evs) as [|m ms IH]; simpl; [lia|]. pose proof (zlen_nonneg (am_Command m)). lia.
Qed.

Lemma replica_run_ok room evs (e : EngineHandle (H := H)) :
  replica_ok room e → room + volume evs <= DEFAULT_LIMIT →
  Forall (λ msg, untimed upper_unicode (am_Command msg) = true) (given evs) →
  replica_ok (room + volume evs) (replica_run upper_unicode evs e)
  ∧ values (replica_run upper_unicode evs e)
    = foldl (λ m msg, write_of upper_unicode (am_Command msg) m) (values e) (given evs).
Proof.
  revert room e. induction evs as [|ev evs IH]; intros room e Hok Hroom Hun.
  { split; [|done]. unfold volume. simpl. by rewrite Z.add_0_r. }
  unfold replica_run. cbn [foldl]. fold (replica_run upper_unicode evs (replica_step upper_unicode e ev)).
  destruct ev as [msg now|k clock]; cbn [replica_step].
  - unfold volume in Hroom |- *. cbn [given omap list_omap foldr] in Hroom, Hun |- *. apply Forall_cons in Hun as [Hu Hun].
    fold (given evs) in *. fold (volume evs) in *. pose proof (volume_nonneg evs).
    destruct (replica_apply room msg now e Hok) as [Hok' Hv]; [lia|done|].
    destruct (IH _ _ Hok') as [Hok'' Hv'']; [lia|done|]. rewrite Z.add_assoc. split; [done|]. by rewrite Hv'', Hv.
  - destruct (replica_read room k clock e Hok) as (Hok' & Hv & _).
    destruct (IH _ _ Hok') as [Hok'' Hv'']; [done|done|]. split; [done|]. by rewrite Hv'', Hv.
Qed.
End values.

(** ** Replication *)

Section replication.
Context {H : Type} `{!LFU.PriorityQueue H}.
Context (upper_unicode : bytes → bytes).

Abbreviation upper := (ToUpper upper_unicode).
Abbreviation run := (replica_run (H := H) upper_unicode).

(** The commands of the history are the first that the node was given, none
    left out because the channel was full. *)
Definition from_log (n : Node) (evs : list replica_event) : Prop :=
  Forall (λ msg, msg ∈ applied n) (given evs) ∧ am_Index <$> given evs = seqZ 1 (zlen (given evs)).

Lemma from_log_commands ids grow c c' i j n n' evs evs' :
  NoDup ids → [] ∉ ids → (length ids <= 3)%nat →
  rtc (timely_step grow) (NewCluster ids) c → rtc (timely_step grow) c c' →
  nodes c !! i = Some n → nodes c' !! j = Some n' → from_log n evs → from_log n' evs' →
  length (given evs) = length (given evs') →
  am_Command <$> given evs = am_Command <$> given evs'.
Proof.
  intros Hnd Hnil Hlen Hr Hr' Hi Hj [Hf Hx] [Hf' Hx'] Hl. rewrite Forall_forall in Hf, Hf'.
  apply list_eq_same_length with (length (given evs)); rewrite ?length_fmap; [done|done|].
  intros k cmd cmd' _. rewrite !list_lookup_fmap.
  destruct (given evs !! k) as [m|] eqn:Hm; [|done]. destruct (given evs' !! k) as [m'|] eqn:Hm'; [|done].
  intros [= <-] [= <-]. apply (applied_agree ids grow c c' i j n n' m m' Hnd Hnil Hlen Hr Hr' Hi Hj).
  - by eapply Hf, list_elem_of_lookup_2.
  - by eapply Hf', list_elem_of_lookup_2.
  - apply (f_equal (lookup k)) in Hx, Hx'. rewrite list_lookup_fmap, Hm in Hx. rewrite list_lookup_fmap, Hm' in Hx'.
    replace (zlen (given evs')) with (zlen (given evs)) in Hx' by (unfold zlen; lia). rewrite <- Hx' in Hx. by injection Hx.
Qed.

Lemma volume_commands evs evs' : am_Command <$> given evs = am_Command <$> given evs' → volume evs = volume evs'.
Proof.
  unfold volume. generalize (given evs), (given evs'). intros l. induction l as [|m l IH]; intros [|m' l']; try done.
  simpl. intros [= -> Hl]. by rewrite (IH l').
Qed.

Lemma created_ok num lim d (e : EngineHandle (H := H)) :
  engine_create num lim d = Some e → replica_ok 0 e ∧ values e = ∅.
Proof.
  intros [Hok Hc]%create_ok. unfold replica_ok, values. rewrite Hc, fmap_empty. split_and!; [done|apply map_Forall_empty| |done].
  unfold total, sizes. rewrite fmap_empty, map_total_empty. lia.
Qed.

Lemma history_values num lim d (e : EngineHandle (H := H)) evs :
  engine_create num lim d = Some e → volume evs <= DEFAULT_LIMIT →
  Forall (λ cmd, untimed upper_unicode cmd = true) (am_Command <$> given evs) →
  replica_ok (volume evs) (run evs e)
  ∧ values (run evs e) = foldl (λ m cmd, write_of upper_unicode cmd m) ∅ (am_Command <$> given evs).
Proof.
  intros [Hok Hv]%created_ok Hvol Hun. rewrite Forall_fmap in Hun.
  destruct (replica_run_ok upper_unicode 0 evs e Hok Hvol Hun) as [Hok' Hv'].
  split; [done|]. rewrite Hv', Hv, foldl_fmap. done.
Qed.

(** C10: In a cluster of at most three nodes, wired as [NewCluster] wires them and
    with timely vote requests, two processes that have applied equally many
    commands hold the same values, whatever their clients read in between, as long
    as no command was lost in a full channel, none gives a deadline, all fit into
    memory, and no read of a process overlaps with a command that it applies.
    (main.go gives each process another table of addresses, and runs reads and
    applied commands in goroutines that share the engine without a lock; the
    statement is about processes in which neither does harm.) *)
Theorem replicas_agree ids grow c c' i j n n' num lim d e num' lim' d' e' evs evs' :
  NoDup ids → [] ∉ ids → (length ids <= 3)%nat →
  rtc (timely_step grow) (NewCluster ids) c → rtc (timely_step grow) c c' →
  nodes c !! i = Some n → nodes c' !! j = Some n' →
  engine_create num lim d = Some e → engine_create num' lim' d' = Some e' →
  from_log n evs → from_log n' evs' → length (given evs) = length (given evs') →
  volume evs <= DEFAULT_LIMIT → Forall (λ cmd, untimed upper_unicode cmd = true) (am_Command <$> given evs) →
  values (run evs e) = values (run evs' e').
Proof.
  intros Hnd Hnil Hlen Hr Hr' Hi Hj He He' Hg Hg' Hl Hvol Hun.
  pose proof (from_log_commands _ _ _ _ _ _ _ _ _ _ Hnd Hnil Hlen Hr Hr' Hi Hj Hg Hg' Hl) as Hc.
  destruct (history_values _ _ _ _ _ He Hvol Hun) as [_ ->].
  rewrite (volume_commands _ _ Hc) in Hvol. rewrite Hc in Hun |- *.
  by destruct (history_values _ _ _ _ _ He' Hvol Hun) as [_ ->].
Qed.

(** ** Writes of clients *)

(** The write that the words of a line ask for: SET with a key and a value, and
    EX with a number of seconds where the value shall not stay, or DEL with a
    key. *)
Inductive write := WriteSet (key value : bytes) (ttl : Z) | WriteDel (key : bytes).

Inductive asks_write : list bytes → write → Prop :=
| asks_set name key value more :
    spells (str "SET") name → (∀ ex seconds more', more = ex :: seconds :: more' → ¬ spells (str "EX") ex) →
    asks_write (name :: key :: value :: more) (WriteSet key value 0)
| asks_set_ex name key value ex n more :
    spells (str "SET") name → spells (str "EX") ex → - 2 ^ 63 <= n * 1000000000 < 2 ^ 63 →
    asks_write (name :: key :: value :: ex :: show n :: more) (WriteSet key value (n * 1000000000))
| asks_del name key more :
    spells (str "DEL") name → asks_write (name :: key :: more) (WriteDel key).

(** How it is acknowledged, and what it does to the map of a replica that
    applies it at [now]. *)
Definition acknowledgement (w : write) : bytes :=
  match w with WriteSet _ _ _ => str "+OK" ++ CRLF | WriteDel _ => str ":1" ++ CRLF end.

Inductive written (now : Z) (m : gmap bytes ValueEntry) : write → gmap bytes ValueEntry → Prop :=
| written_set key value ttl m' :
    kept DEFAULT_LIMIT m m' →
    written now m (WriteSet key value ttl) (<[key := new_entry value (expires_at ttl now)]> m')
| written_del key : written now m (WriteDel key) (delete key m).

Lemma Sscanf_show n : - 2 ^ 63 <= n < 2 ^ 63 → Sscanf_d (show n) = n.
Proof.
  intros Hn. assert (Sscanf_d (show n) = default 0 (Atoi (show n))) as ->; [|by rewrite Atoi_show].
  unfold Sscanf_d. f_equal. f_equal. unfold show. destruct (Z.ltb_spec n 0).
  - cbn [app]. rewrite decide_True by auto. by rewrite digit_run_all by (apply decimal_digits; lia).
  - pose proof (decimal_digits n ltac:(lia)) as Hd. destruct (decimal n) as [|c ds]; [done|].
    assert (is_digit c = true) as Hc by (by apply Forall_cons in Hd as [? _]).
    destruct (is_digit_plain c Hc) as (_ & Hp & Hm & _). rewrite decide_False by naive_solver. by apply digit_run_all.
Qed.

Lemma trim_length fuel ps s : (length (trim fuel ps s) <= length s)%nat.
Proof.
  assert (∀ s r, strip_any ps s = Some r → (length r <= length s)%nat) as Hstrip.
  { clear s. intros s r. induction ps as [|p ps IH]; simpl; [done|]. destruct (strip_prefix p s) as [r'|] eqn:E; [|done].
    intros [= <-]. apply strip_prefix_length in E. lia. }
  revert s. induction fuel as [|fuel IH]; intros s; simpl; [lia|]. destruct (strip_any ps s) as [r|] eqn:E; [|lia].
  apply Hstrip in E. specialize (IH r). lia.
Qed.

Lemma TrimSpace_zlen s : zlen (TrimSpace s) <= zlen s.
Proof.
  unfold TrimSpace, zlen. rewrite length_rev. set (s1 := trim (length s) SPACES s).
  pose proof (trim_length (length s) SPACES s) as H1. pose proof (trim_length (length s1) (map (@rev _) SPACES) (rev s1)) as H2.
  rewrite length_rev in H2. fold s1 in H1. lia.
Qed.

#[local] Ltac letters := repeat constructor; set_solver.

(** The name and the options as the code compares them. *)
Lemma spelt_name name (word : bytes) :
  is_ascii name = true → Forall (.∈ LETTERS) word → spells word name → upper name = word.
Proof. intros. by apply ToUpper_spells. Qed.

Lemma asked_ttl parts key value ttl :
  ascii_words parts = true → asks_write parts (WriteSet key value ttl) → ex_ttl upper_unicode parts = ttl.
Proof.
  intros Ha Hw. inversion Hw as [name ? ? more Hn Hno|name ? ? ex n more Hn Hex Hr|]; subst;
    apply andb_prop in Ha as [_ Ha]; simpl in Ha; unfold ex_ttl.
  - destruct more as [|ex [|seconds more]]; [done..|]. simpl in Ha. apply andb_prop in Ha as [Ha _].
    rewrite decide_False; [done|]. rewrite ToUpper_spells by (done || letters). by eapply Hno.
  - apply andb_prop in Ha as [Ha _].
    rewrite decide_True by (apply spelt_name; [done|letters|done]).
    rewrite Sscanf_show by lia. unfold SECOND. apply s64_small. lia.
Qed.

(** A command of the log with these words does what they ask for. *)
Lemma apply_written parts w msg now (e : EngineHandle (H := H)) :
  Fields (am_Command msg) = parts → ascii_words parts = true → asks_write parts w →
  (∀ key value ttl, w = WriteSet key value ttl → zlen value <= MAX_VALUE ∧ total (contents (table e)) + zlen value < 2 ^ 64) →
  0 <= now < 2 ^ 63 → engine_ok e →
  engine_ok (applyCommand upper_unicode msg now e)
  ∧ written now (contents (table e)) w (contents (table (applyCommand upper_unicode msg now e))).
Proof.
  intros Hf Ha Hw Hroom Hnow Hok. unfold applyCommand. rewrite Hf. clear Hf.
  assert (∀ name args, parts = name :: args → is_ascii name = true) as Hname.
  { intros name args ->. by apply andb_prop in Ha as [? _]. }
  destruct w as [key value ttl|key].
  - destruct (Hroom _ _ _ eq_refl) as [Hmax Hlt]. pose proof (asked_ttl _ _ _ _ Ha Hw) as Httl.
    assert (ttl < 2 ^ 63) as Hb by (inversion Hw; lia).
    assert (∃ name more, parts = name :: key :: value :: more ∧ upper name = str "SET") as (name & more & -> & Hn).
    { inversion Hw; subst; eexists _, _; (split; [done|]);
        (apply spelt_name; [by eapply Hname|letters|done]). }
    rewrite decide_True by done. rewrite Httl.
    destruct (go_set_refines key value ttl now e Hok Hlt) as (e' & -> & Hok' & Hc). cbn [snd from_option Datatypes.id].
    destruct (Z.ltb_spec MAX_VALUE (zlen value)); [lia|]. destruct Hc as (m' & Hk & ->).
    rewrite deadline_expires by done. split; [done|]. by apply written_set.
  - inversion Hw as [| |name ? more Hn]; subst.
    assert (upper name = str "DEL") as Hu by (apply spelt_name; [by eapply Hname|letters|done]).
    rewrite Hu, decide_False, decide_True by done.
    destruct (go_delete_refines key e Hok) as (e' & err & -> & Hok' & _ & Hc). cbn [snd from_option Datatypes.id].
    rewrite Hc. split; [done|]. apply written_del.
Qed.

(** The answer to a line with these words. *)
Lemma line_proposed grow nodeID line clock n (e : EngineHandle (H := H)) parts w :
  Fields (TrimSpace line) = parts → ascii_words parts = true → asks_write parts w →
  handle_line upper_unicode grow nodeID line clock n e
  = (Some (propose_line grow parts (acknowledgement w) n).1, (propose_line grow parts (acknowledgement w) n).2, e).
Proof.
  intros Hf Ha Hw. unfold handle_line. rewrite Hf. clear Hf.
  inversion Hw as [name key value more Hn|name key value ex k more Hn|name key more Hn]; subst;
    apply andb_prop in Ha as [Ha _];
    match type of Hn with spells ?word _ =>
      assert (upper name = word) as Hu by (apply spelt_name; [done|letters|done]) end;
    cbv zeta; rewrite Hu; repeat (rewrite decide_False by done); rewrite decide_True by done;
    unfold acknowledgement, OK_REPLY, ONE_REPLY; by destruct (propose_line _ _ _ _).
Qed.

(** C16: a line with which a client asks for a write. On the leader it is
    appended to the log, and a SET is answered by "+OK" and a DEL by ":1". The
    command in the log does what the line asks for on every engine with room for
    the value that applies it: it sets the key to the value, with a deadline EX
    seconds from then or none, or it deletes the key. On another node the line is
    refused and changes nothing. The line has no more bytes than the scanner
    accepts, and its name and options are ASCII. *)
Theorem client_write_logged grow nodeID line clock n (e : EngineHandle (H := H)) w :
  asks_write (Fields (TrimSpace line)) w → ascii_words (Fields (TrimSpace line)) = true →
  zlen line <= MaxScanTokenSize →
  ∃ reply n', handle_line upper_unicode grow nodeID line clock n e = (Some reply, n', e)
  ∧ if decide (state n = Leader)
    then reply = acknowledgement w
       ∧ ∃ entry, log n' = go_append grow entry (log n) ∧ le_Term entry = currentTerm n
         ∧ ∀ index now (replica : EngineHandle (H := H)),
             engine_ok replica → total (contents (table replica)) + zlen line < 2 ^ 64 → 0 <= now < 2 ^ 63 →
             let replica' := applyCommand upper_unicode (mkApplyMsg index (le_Command entry)) now replica in
             engine_ok replica' ∧ written now (contents (table replica)) w (contents (table replica'))
    else reply = str "-ERR not leader" ++ CRLF ∧ n' = n.
Proof.
  intros Hw Ha Hlen. pose proof (fields_roundtrip (TrimSpace line)) as Hrt.
  rewrite (line_proposed grow nodeID line clock n e _ w eq_refl Ha Hw).
  eexists _, _. split; [done|]. unfold propose_line, Propose. destruct (decide (state n = Leader)) as [Hs|Hs].
  2: { by rewrite bool_decide_false. }
  rewrite bool_decide_true by done. split; [done|]. eexists. split; [done|]. split; [done|].
  intros index now replica Hok Hroom Hnow. cbv zeta.
  apply (apply_written (Fields (TrimSpace line))); try done. intros key value ttl ->.
  assert (value ∈ Fields (TrimSpace line)) as Hv%Fields_zlen by (inversion Hw; do 2 right; by left).
  pose proof (TrimSpace_zlen line). unfold MaxScanTokenSize, MAX_VALUE in *. lia.
Qed.

(** A read on a process is answered by the values that the commands it has
    applied leave, in their order. *)
Theorem replica_read_correct grow nodeID line clock n num lim d (e : EngineHandle (H := H)) evs name key rest :
  engine_create num lim d = Some e → volume evs <= DEFAULT_LIMIT →
  Forall (λ cmd, untimed upper_unicode cmd = true) (am_Command <$> given evs) →
  Fields (TrimSpace line) = name :: key :: rest → upper name = str "GET" →
  (handle_line upper_unicode grow nodeID line clock n (run evs e)).1.1
  = Some (match foldl (λ m cmd, write_of upper_unicode cmd m) ∅ (am_Command <$> given evs) !! key with
          | Some v => bulk_reply v | None => NULL_REPLY end).
Proof.
  intros He Hvol Hun Hf Hn. destruct (history_values _ _ _ _ _ He Hvol Hun) as [Hok Hv].
  destruct (replica_read _ key clock _ Hok) as (_ & _ & Hget). rewrite <- Hv.
  unfold handle_line. rewrite Hf. cbv zeta. rewrite Hn. cbn -[go_get bulk_reply NULL_REPLY values lookup].
  destruct (go_get key clock (run evs e)) as [r h]. cbn in Hget. rewrite Hget. cbn -[bulk_reply NULL_REPLY values lookup].
  by destruct (values (run evs e) !! key).
Qed.
End replication.

(** ** Witnesses *)

#[global] Instance apply_msg_eq_dec : EqDecision ApplyMsg.
Proof. solve_decision. Defined.

Definition set_x : ApplyMsg := mkApplyMsg 1 (str "SET x 1").

Definition has_msg (i : NodeID) (m : ApplyMsg) (c : Cluster) : bool :=
  match nodes c !! i with Some n => bool_decide (m ∈ applied n) | None => false end.

Lemma has_msg_spec i m c : has_msg i m c = true → ∃ n, nodes c !! i = Some n ∧ m ∈ applied n.
Proof. unfold has_msg. destruct (nodes c !! i) as [n|]; [|done]. intros ?%bool_decide_eq_true. by exists n. Qed.

(** One process reads before the command comes, the other applies it later. *)
Definition early_reader : list replica_event := [RRead (str "x") (1, 2, 3); RApply set_x 5].
Definition late_reader : list replica_event := [RApply set_x 70; RRead (str "x") (80, 81, 82)].

Lemma replicas_agree_witness :
  ∃ c n n', rtc (timely_step S) (NewCluster three) c ∧ nodes c !! A = Some n ∧ nodes c !! B = Some n'
  ∧ set_x ∈ applied n ∧ set_x ∈ applied n'
  ∧ values (replica_run (λ s, s) early_reader demo_engine) = values (replica_run (λ s, s) late_reader demo_engine).
Proof.
  destruct three_ok as (Hnd & Hnil & Hlen).
  destruct (timely_run S commit (NewCluster three) (λ c, has_msg A set_x c && has_msg B set_x c)) as (c & Hr & Hl);
    [by vm_compute|].
  apply andb_prop in Hl as [(n & Hn & Hm)%has_msg_spec (n' & Hn' & Hm')%has_msg_spec].
  exists c, n, n'. split_and!; [done|done|done|done|done|].
  apply (replicas_agree (λ s, s) three S c c A B n n' 4 1 empty_disk demo_engine 4 1 empty_disk demo_engine
           early_reader late_reader Hnd Hnil Hlen Hr (rtc_refl _ c) Hn Hn').
  - by vm_compute.
  - by vm_compute.
  - split; [by apply Forall_singleton|by vm_compute].
  - split; [by apply Forall_singleton|by vm_compute].
  - done.
  - by vm_compute.
  - apply Forall_singleton. by vm_compute.
Defined.

Definition set_line : bytes := str "  set key  value Ex 7".

Lemma client_write_logged_witness :
  ∃ n' entry, handle_line (λ s, s) S A set_line (1, 2, 3) busy demo_engine = (Some (str "+OK" ++ CRLF), n', demo_engine)
  ∧ log n' = go_append S entry (log busy)
  ∧ written 5 (contents (table demo_engine)) (WriteSet (str "key") (str "value") 7000000000)
      (contents (table (applyCommand (λ s, s) (mkApplyMsg 1 (le_Command entry)) 5 demo_engine))).
Proof.
  destruct (client_write_logged (λ s, s) S A set_line (1, 2, 3) busy demo_engine
              (WriteSet (str "key") (str "value") 7000000000)) as (reply & n' & Hh & Hrest).
  - replace (Fields (TrimSpace set_line)) with [str "set"; str "key"; str "value"; str "Ex"; show 7] by (by vm_compute).
    apply (asks_set_ex (str "set") _ _ (str "Ex") 7 []); [..|lia]; unfold spells, letter_of; repeat constructor; by vm_compute; auto.
  - by vm_compute.
  - by vm_compute.
  - destruct Hrest as (-> & entry & Hl & _ & Happ). exists n', entry. split; [exact Hh|]. split; [exact Hl|].
    refine (proj2 (Happ 1 5 demo_engine demo_engine_ok _ _)); [by vm_compute|lia].
Defined.

Lemma replica_read_correct_witness :
  (handle_line (λ s, s) S A (str "GET x") (80, 81, 82) busy (replica_run (λ s, s) early_reader demo_engine)).1.1
  = Some (bulk_reply (str "1")).
Proof.
  rewrite (replica_read_correct (λ s, s) S A (str "GET x") (80, 81, 82) busy 4 1 empty_disk demo_engine early_reader
             (str "GET") (str "x") []);
    [by vm_compute|by vm_compute|by vm_compute|apply Forall_singleton; by vm_compute|by vm_compute|by vm_compute].
Defined.
