(* ===== verification/SimpleServer.v ===== *)
(** * The simple server

    src/node/cmd/simple_server/main.go: clients send lines of text, which are
    run on an engine of the Go binding, without Raft. A connection is modelled
    from its first byte to its end, with no other connection using the engine
    meanwhile; what the program prints is left out. *)

From S2P Require Import Prelude Files Policy Lru Lfu Dispatch HashTable Store TableFacts Table Resp Engine Binding GoServer.
From S2P Require Import Replica.


Section server.
Context {H : Type} `{!LFU.PriorityQueue H}.
Context (upper_unicode : bytes → bytes).

Abbreviation upper := (ToUpper upper_unicode).
Abbreviation Engine := (EngineHandle (H := H)).

(** ** The program *)




(** ** What the lines mean *)




(** ** Words are no longer than their line *)




(** ** One line *)



(** ** Sessions *)




End server.

(** ** Witness *)


