(* ===== verification/Workload.v ===== *)
(** * Workloads that fit

    Sequences of requests over few keys, with values short enough that nothing
    has to be evicted and without expiry: the loops of the benchmarks. Such a
    sequence sees a plain map from keys to values, whether it is served by one
    table or by shards. *)

From S2P Require Import Prelude Files Wal Policy Lru Lfu Dispatch HashTable Store TableFacts Table Recovery Shards.

(** ** A plain map *)

Definition store (m : gmap bytes bytes) (q : request) : gmap bytes bytes :=
  match q with
  | Get _ _ _ => m
  | Set_ k v => <[k := value v]> m
  | Remove k => delete k m
  end.

Definition store_all (m : gmap bytes bytes) (qs : list request) : gmap bytes bytes := foldl store m qs.

(** The answer of a plain map; a get also answers access metadata. *)
Definition answer_ok (m : gmap bytes bytes) (q : request) (a : response) : Prop :=
  match q with
  | Get k _ _ => ∃ r, a = RValue r ∧ value <$> r = m !! k
  | Set_ _ _ => a = RBool true
  | Remove k => a = RBool (bool_decide (is_Some (m !! k)))
  end.

Fixpoint answers_ok (m : gmap bytes bytes) (tr : list (request * response)) : Prop :=
  match tr with
  | [] => True
  | (q, a) :: tr => answer_ok m q a ∧ answers_ok (store m q) tr
  end.

Lemma answers_ok_app m tr1 tr2 :
  answers_ok m (tr1 ++ tr2) ↔ answers_ok m tr1 ∧ answers_ok (store_all m tr1.*1) tr2.
Proof.
  revert m. induction tr1 as [|[q a] tr1 IH]; intros m; simpl; [naive_solver|]. rewrite IH. naive_solver.
Qed.

(** A get that finds the key. *)
Definition hit (a : response) : Prop := ∃ v, a = RValue (Some v).

Lemma answer_hit m k n1 n2 a : answer_ok m (Get k n1 n2) a → is_Some (m !! k) → hit a.
Proof. intros (r & -> & Hr) [x Hx]. rewrite Hx in Hr. apply fmap_Some in Hr as (v & -> & _). by exists v. Qed.

(** Requests that only read and write. *)
Definition removes (q : request) : bool := match q with Remove _ => true | _ => false end.

Lemma store_all_app m qs1 qs2 : store_all m (qs1 ++ qs2) = store_all (store_all m qs1) qs2.
Proof. unfold store_all. by rewrite foldl_app. Qed.

Lemma store_all_keeps m qs k :
  Forall (λ q, removes q = false) qs → is_Some (m !! k) → is_Some (store_all m qs !! k).
Proof.
  intros Hq. revert m. induction Hq as [|q qs Hr _ IH]; intros m Hm; simpl; [done|].
  apply IH. destruct q; simpl; [done| |done]. rewrite lookup_insert. case_decide; by eauto.
Qed.

Lemma store_all_set m qs k v :
  Forall (λ q, removes q = false) qs → Set_ k v ∈ qs → is_Some (store_all m qs !! k).
Proof.
  intros Hq (qs1 & qs2 & ->)%list_elem_of_split. apply Forall_app in Hq as [_ [_ Hq]%Forall_cons].
  rewrite store_all_app. apply (store_all_keeps _ qs2); [done|]. simpl. rewrite lookup_insert_eq. eauto.
Qed.

(** A loop of sets whose keys repeat: the last value of a key stays. *)
Lemma store_all_sets m (key : Z → bytes) (val : Z → ValueEntry) a n k v :
  0 <= n →
  store_all m ((λ i, Set_ (key i) (val i)) <$> seqZ a n) !! k = Some v ↔
  (∃ i, a <= i < a + n ∧ key i = k ∧ value (val i) = v ∧ ∀ j, i < j < a + n → key j ≠ k)
  ∨ (m !! k = Some v ∧ ∀ j, a <= j < a + n → key j ≠ k).
Proof.
  intros Hn. revert v. pattern n. apply natlike_ind; [| |done].
  - intros v. rewrite seqZ_nil by lia. simpl. naive_solver lia.
  - intros x Hx IH v. replace (Z.succ x) with (x + 1) by lia. rewrite seqZ_app by lia.
    rewrite fmap_app, store_all_app, (seqZ_cons _ 1), (seqZ_nil _ (Z.pred 1)) by lia. simpl.
    rewrite lookup_insert. destruct (decide (key (a + x) = k)) as [E|E]; [|rewrite IH; clear IH].
    + split; [intros [= <-]; left; exists (a + x); split_and!; [lia|lia|done|done|]; intros; lia|].
      intros [(i & Hi & Hk & <- & Hlast)|[_ Hno]]; [|exfalso; apply (Hno (a + x)); [lia|done]].
      f_equal. destruct (decide (i = a + x)) as [->|]; [done|]. exfalso. apply (Hlast (a + x)); [lia|done].
    + split; (intros [(i & Hi & Hk & <- & Hlast)|[? Hno]]; [left|right]).
      * exists i. split_and!; [lia|lia|done|done|]. intros j Hj.
        destruct (decide (j = a + x)) as [->|]; [done|apply Hlast; lia].
      * split; [done|]. intros j Hj. destruct (decide (j = a + x)) as [->|]; [done|apply Hno; lia].
      * exists i. destruct (decide (i = a + x)) as [->|]; [done|].
        split_and!; [lia|lia|done|done|]. intros j Hj. apply Hlast. lia.
      * split; [done|]. intros j Hj. apply Hno. lia.
Qed.

(** ** Requests that fit *)

(** The keys of a workload and the length of its values. *)
Record Room := mkRoom { room_keys : gset bytes; room_value : Z }.

Definition room_bytes (w : Room) : Z := room_value w * Z.of_nat (base.size (room_keys w)).

Definition small_entry (w : Room) (k : bytes) (v : ValueEntry) : Prop :=
  k ∈ room_keys w ∧ zlen (value v) <= room_value w ∧ expiry_ns v = 0
  ∧ 0 <= access_count v < 2 ^ 64 ∧ 0 <= last_access_ns v < 2 ^ 64.

Definition fitting (w : Room) (q : request) : Prop :=
  match q with Set_ k v => small_entry w k v | _ => True end.

Definition small (w : Room) (m : gmap bytes ValueEntry) : Prop :=
  ∀ k v, m !! k = Some v → small_entry w k v.

Lemma small_empty w : small w ∅.
Proof. intros k v. by rewrite lookup_empty. Qed.

Lemma small_subseteq w m m' : m' ⊆ m → small w m → small w m'.
Proof. intros Hsub Hs k v Hk. by eapply Hs, lookup_weaken. Qed.

Lemma small_insert w m k v : small w m → small_entry w k v → small w (<[k := v]> m).
Proof. intros Hs ? k' v'. rewrite lookup_insert. case_decide; [|apply Hs]. intros [= <-]. by subst. Qed.

Lemma total_size m L : (∀ k v, m !! k = Some v → zlen (value v) <= L) → total m <= L * Z.of_nat (base.size m).
Proof.
  induction m as [|k v m Hk IH] using map_ind; intros Hs; [by rewrite map_size_empty, Z.mul_0_r|].
  rewrite total_insert, delete_id, map_size_insert_None by done.
  assert (zlen (value v) <= L) by (apply (Hs k); apply lookup_insert_eq).
  assert (total m <= L * Z.of_nat (base.size m)); [|lia].
  apply IH. intros k' v' Hk'. apply (Hs k'). rewrite lookup_insert_ne; congruence.
Qed.

Lemma small_total w m : 0 <= room_value w → small w m → total m <= room_bytes w.
Proof.
  intros HL Hs. unfold room_bytes. etrans; [apply (total_size m (room_value w)); by intros k v (_ & ? & _)%Hs|].
  apply Z.mul_le_mono_nonneg_l; [done|]. apply inj_le. rewrite <- size_dom. apply subseteq_size.
  intros k [v Hk]%elem_of_dom. by apply (Hs k v).
Qed.

Lemma small_lookup_live w m k v n : small w m → m !! k = Some v → is_expired n v = false.
Proof. intros Hs (_ & _ & He & _)%Hs. unfold is_expired. by rewrite He. Qed.

Lemma small_touched w k v n : small_entry w k v → small_entry w k (touched n v).
Proof. intros (? & ? & ? & _). split_and!; try done; apply u64_bound. Qed.

(** ** Runs of the specification *)

Lemma part_others {n} `{!Router n} i M : part i M ∪ others i M = M.
Proof. apply map_filter_union_complement. Qed.

Lemma others_insert {n} `{!Router n} k v M :
  <[k := v]> (part (route k) M) ∪ others (route k) M = <[k := v]> M.
Proof. by rewrite <- insert_union_l, part_others. Qed.

Lemma others_delete {n} `{!Router n} k M :
  delete k (part (route k) M) ∪ others (route k) M = delete k M.
Proof.
  rewrite <- (part_others (route k) M) at 3. rewrite delete_union. f_equal. symmetry. apply delete_id.
  unfold others. apply map_lookup_filter_None_2. naive_solver.
Qed.

Lemma part_lookup {n} `{!Router n} k M : part (route k) M !! k = M !! k.
Proof. unfold part. rewrite map_lookup_filter. destruct (M !! k); simpl; [|done]. by rewrite option_guard_True. Qed.

Section runs.
Context (w : Room) (limit : Z) (Hw : 0 <= room_value w) (Hlim : room_bytes w <= limit).

Section sharded.
Context {n : nat} `{!Router n}.
Implicit Types M : gmap bytes ValueEntry.

Lemma fitting_step M q a M' :
  sharded_step limit M q a M' → small w M → fitting w q →
  small w M' ∧ value <$> M' = store (value <$> M) q ∧ answer_ok (value <$> M) q a.
Proof.
  intros [m' Hstep] Hs Hq. pose proof (small_subseteq _ _ (part (route (request_key q)) M) (map_filter_subseteq _ _) Hs) as Hp.
  pose proof (part_lookup (request_key q) M) as Hk0.
  remember (part (route (request_key q)) M) as m eqn:Em.
  destruct Hstep as [k n1 n2 v Hk Hex|k n1 n2 v Hk Hex|k n1 n2 Hk|k v m' (_ & Hall & _)|k]; subst m; cbn [request_key] in *.
  - rewrite others_insert. rewrite Hk in Hk0. pose proof (small_touched w k v n2 (Hs k v (eq_sym Hk0))) as Ht.
    split_and!; [by apply small_insert| |].
    + cbn [store]. rewrite fmap_insert. apply insert_id. by rewrite lookup_fmap, <- Hk0.
    + exists (Some (touched n2 v)). split; [done|]. by rewrite lookup_fmap, <- Hk0.
  - by rewrite (small_lookup_live _ _ _ _ _ Hp Hk) in Hex.
  - rewrite part_others. split_and!; [done|done|]. exists None. split; [done|].
    by rewrite lookup_fmap, <- Hk0, Hk.
  - rewrite Hall, others_insert by (pose proof (small_total _ _ Hw Hp); lia).
    split_and!; [by apply small_insert|by rewrite fmap_insert|done].
  - rewrite others_delete. split_and!; [by eapply small_subseteq, Hs; apply delete_subseteq|by rewrite fmap_delete|].
    simpl. rewrite Hk0, lookup_fmap. f_equal. apply bool_decide_ext. by rewrite fmap_is_Some.
Qed.

Lemma fitting_run M tr M' :
  sharded_run limit M tr M' → small w M → Forall (fitting w) tr.*1 →
  small w M' ∧ value <$> M' = store_all (value <$> M) tr.*1 ∧ answers_ok (value <$> M) tr.
Proof.
  induction 1 as [M|M q a M1 tr M' Hstep _ IH]; intros Hs Hq; [done|]. apply Forall_cons in Hq as [Hq Htr].
  destruct (fitting_step _ _ _ _ Hstep Hs Hq) as (Hs1 & Hm & Ha). destruct (IH Hs1 Htr) as (? & Hm' & Hans).
  rewrite Hm in *. done.
Qed.
End sharded.

(** A table is a single shard. *)
Definition one_router : Router 1 := {| route := λ _, 0%nat; route_lt _ H := H |}.

Lemma spec_step_one m q a m' : spec_step limit m q a m' → sharded_step (Router0 := one_router) limit m q a m'.
Proof.
  intros Hs. assert (part (Router0 := one_router) 0 m = m) as Hp by (by apply map_filter_id).
  assert (others (Router0 := one_router) 0 m = ∅) as Ho by 
    (apply map_empty; intros k; apply map_lookup_filter_None_2; right; intros v _ Hx; by apply Hx).
  pose proof (sharded_in_part (Router0 := one_router) limit m q a m') as Hstep.
  change (route (Router := one_router) (request_key q)) with 0%nat in Hstep. rewrite Hp, Ho in Hstep.
  rewrite (right_id_L ∅ (∪)) in Hstep. by apply Hstep.
Qed.
End runs.

(** ** One table *)

Section table.
Context {P : Type} `{!EvictionPolicy P}.
Implicit Types t : HashTable P.

(** A loop of requests, with the answers. *)
Fixpoint serve_all (qs : list request) (t : HashTable P) : list response * HashTable P :=
  match qs with
  | [] => ([], t)
  | q :: qs =>
      let '(a, t1) := serve q t in
      let '(rest, t') := serve_all qs t1 in (a :: rest, t')
  end.

Lemma serve_all_app qs1 qs2 t :
  serve_all (qs1 ++ qs2) t
  = ((serve_all qs1 t).1 ++ (serve_all qs2 (serve_all qs1 t).2).1, (serve_all qs2 (serve_all qs1 t).2).2).
Proof.
  revert t. induction qs1 as [|q qs1 IH]; intros t; simpl; [by destruct (serve_all qs2 t)|].
  destruct (serve q t) as [a t1]. rewrite IH. by destruct (serve_all qs1 t1).
Qed.

Lemma serve_all_length qs t : length (serve_all qs t).1 = length qs.
Proof.
  revert t. induction qs as [|q qs IH]; intros t; simpl; [done|]. destruct (serve q t) as [a t1].
  pose proof (IH t1). destruct (serve_all qs t1). simpl in *. lia.
Qed.

Definition transcript (qs : list request) (t : HashTable P) : list (request * response) := zip qs (serve_all qs t).1.

Lemma transcript_fst qs t : (transcript qs t).*1 = qs.
Proof. apply fst_zip. by rewrite serve_all_length. Qed.

Lemma transcript_cons q qs t :
  transcript (q :: qs) t = (q, (serve q t).1) :: transcript qs (serve q t).2.
Proof. unfold transcript. simpl. destruct (serve q t) as [a t1]. simpl. by destruct (serve_all qs t1). Qed.

Lemma serve_all_cons q qs t : (serve_all (q :: qs) t).2 = (serve_all qs (serve q t).2).2.
Proof. simpl. destruct (serve q t) as [a t1]. simpl. by destruct (serve_all qs t1). Qed.

Section fitting.
Context (w : Room) (limit : Z) (Hw : 0 <= room_value w) (Hlim : room_bytes w <= limit) (H64 : limit + room_value w < 2 ^ 64).

Lemma fitting_admissible q t : small w (contents t) → fitting w q → admissible q t.
Proof.
  intros Hs. destruct q; simpl; [done| |done]. intros (_ & Hv & _). pose proof (small_total _ _ Hw Hs). lia.
Qed.

Lemma room_nonneg : 0 <= limit.
Proof. unfold room_bytes in Hlim. nia. Qed.

(** A table with room serves as a plain map. *)
Lemma serve_all_fitting qs t :
  good limit t → small w (contents t) → Forall (fitting w) qs →
  good limit (serve_all qs t).2 ∧ small w (contents (serve_all qs t).2)
  ∧ value <$> contents (serve_all qs t).2 = store_all (value <$> contents t) qs
  ∧ answers_ok (value <$> contents t) (transcript qs t).
Proof.
  intros Hg Hs Hq. revert t Hg Hs. induction Hq as [|q qs Hq _ IH]; intros t Hg Hs; [done|].
  rewrite serve_all_cons, transcript_cons. destruct (serve q t) as [a t1] eqn:E. simpl.
  destruct (serve_refines limit q a t t1 room_nonneg Hg) as [Hg1 Hstep]; [by apply fitting_admissible|done|].
  destruct (fitting_step w limit Hw Hlim _ _ _ _ (spec_step_one limit _ _ _ _ Hstep) Hs Hq) as (Hs1 & Hm & Ha).
  destruct (IH t1 Hg1 Hs1) as (? & ? & Hm' & Hans). rewrite Hm in *. done.
Qed.

(** Nothing is evicted on the way. *)
Lemma fitting_before_insert k v t :
  good limit t → small w (contents t) → contents (before_insert k v t) = contents t.
Proof.
  intros Hg Hs. destruct (before_insert_kept limit k v t room_nonneg Hg) as (_ & Hall & _).
  apply Hall. pose proof (small_total _ _ Hw Hs). lia.
Qed.
End fitting.
End table.

(** ** The log *)

(** The same data; the logs and disks may differ. *)
Definition same_data {P} (t t' : HashTable P) : Prop :=
  buckets_ t = buckets_ t' ∧ num_entries_ t = num_entries_ t' ∧ policy_ t = policy_ t'.

Section log.
Context {P : Type} `{!EvictionPolicy P}.
Implicit Types t : HashTable P.

Lemma log_record_same r t : same_data (log_record r t) t.
Proof. unfold log_record. destruct (wal_writer_ t); [|done]. by destruct (append _ _). Qed.

Lemma remove_same k t t' :
  same_data t t' → (remove k t).1 = (remove k t').1 ∧ same_data (remove k t).2 (remove k t').2.
Proof.
  intros (Hb & Hn & Hp). unfold remove. set (r := mkWALRecord _ _ _ _).
  destruct (log_record_same r t) as (Hb1 & Hn1 & Hp1), (log_record_same r t') as (Hb2 & Hn2 & Hp2).
  rewrite Hb1, Hb2, <- Hb. destruct (chain_locate _ _) as [[[? ?] ?]|]; simpl.
  - split; [done|]. unfold same_data. simpl. split_and!; congruence.
  - split; [done|]. unfold same_data. split_and!; congruence.
Qed.

Lemma evict_loop_same fuel t t' : same_data t t' → same_data (evict_loop fuel t) (evict_loop fuel t').
Proof.
  revert t t'. induction fuel as [|fuel IH]; intros t t' Hs; simpl; [done|]. pose proof Hs as (Hb & Hn & Hp).
  rewrite <- Hp. destruct (pol_should_evict _); [|done]. destruct (pol_candidate _) as [victim p].
  assert (same_data (set_buckets (buckets_ t) (num_entries_ t) p t) (set_buckets (buckets_ t') (num_entries_ t') p t'))
    as Hs' by (by unfold same_data).
  case_decide; [done|]. by apply IH, remove_same.
Qed.

Lemma resize_same t t' : same_data t t' → same_data (resize_if_needed t) (resize_if_needed t').
Proof.
  intros (Hb & Hn & Hp). unfold resize_if_needed. rewrite <- Hb, <- Hn. case_match; [|done].
  unfold rehash, same_data, entries. simpl. by rewrite <- Hb.
Qed.

Lemma insert_same k v t t' :
  same_data t t' → (insert k v t).1 = (insert k v t').1 ∧ same_data (insert k v t).2 (insert k v t').2.
Proof.
  intros Hs. unfold insert. set (r := mkWALRecord _ _ _ _).
  assert (same_data (evict_if_needed (log_record r t)) (evict_if_needed (log_record r t'))) as He.
  { destruct Hs as (Hb & Hn & Hp). destruct (log_record_same r t) as (Hb1 & Hn1 & Hp1), (log_record_same r t') as (Hb2 & Hn2 & Hp2).
    unfold evict_if_needed, entries. rewrite Hb1, Hb2, <- Hb. apply evict_loop_same. unfold same_data. split_and!; congruence. }
  apply resize_same in He as (Hb & Hn & Hp). rewrite <- Hb.
  destruct (chain_locate _ _) as [[[? ?] ?]|]; simpl; (split; [done|]); unfold same_data; simpl; rewrite <- Hn, <- Hp; done.
Qed.

Lemma get_same k n1 n2 t t' :
  same_data t t' → (get k n1 n2 t).1 = (get k n1 n2 t').1 ∧ same_data (get k n1 n2 t).2 (get k n1 n2 t').2.
Proof.
  intros Hs. pose proof Hs as (Hb & Hn & Hp). unfold get. rewrite <- Hb. destruct (chain_locate _ _) as [[[? ?] ?]|]; [|done].
  destruct (is_expired _ _); [done|]. split; [done|]. unfold same_data. simpl. by rewrite <- Hn, <- Hp.
Qed.

(** A log does not change the answers. *)
Lemma serve_same q t t' :
  same_data t t' → (serve q t).1 = (serve q t').1 ∧ same_data (serve q t).2 (serve q t').2.
Proof.
  intros Hs. destruct q as [k n1 n2|k v|k]; simpl.
  - destruct (get_same k n1 n2 t t' Hs) as [H1 H2]. destruct (get _ _ _ t), (get _ _ _ t'). simpl in *. by subst.
  - destruct (insert_same k v t t' Hs) as [H1 H2]. destruct (insert _ _ t), (insert _ _ t'). simpl in *. by subst.
  - destruct (remove_same k t t' Hs) as [H1 H2]. destruct (remove _ t), (remove _ t'). simpl in *. by subst.
Qed.

Lemma serve_all_same qs t t' :
  same_data t t' → (serve_all qs t).1 = (serve_all qs t').1 ∧ same_data (serve_all qs t).2 (serve_all qs t').2.
Proof.
  revert t t'. induction qs as [|q qs IH]; intros t t' Hs; simpl; [done|].
  destruct (serve_same q t t' Hs) as [H1 H2]. destruct (serve q t) as [a t1], (serve q t') as [a' t1']. simpl in *. subst a'.
  destruct (IH _ _ H2) as [H3 H4]. destruct (serve_all qs t1), (serve_all qs t1'). simpl in *. by subst.
Qed.

Lemma flush_wal_same t : same_data (flush_wal t) t.
Proof. unfold flush_wal. destruct (wal_writer_ t); [|done]. by destruct (flush _). Qed.

Lemma same_data_contents t t' : same_data t t' → contents t = contents t'.
Proof. intros (Hb & _). unfold contents. by rewrite Hb. Qed.

(** What a request leaves in the log when nothing is evicted. *)
Definition record_of (q : request) : option WALRecord :=
  match q with Get _ _ _ => None | Set_ k v => Some (set_record k v) | Remove k => Some (del_record k) end.

Lemma serve_all_logged w limit path rs qs t :
  0 <= room_value w → room_bytes w <= limit → limit + room_value w < 2 ^ 64 →
  good limit t → small w (contents t) → Forall (fitting w) qs → logged path rs t →
  logged path (rs ++ omap record_of qs) (serve_all qs t).2.
Proof.
  intros Hw Hlim H64 Hg Hs Hq. revert rs t Hg Hs. induction Hq as [|q qs Hq Hqs IH]; intros rs t Hg Hs Hlog.
  { simpl. by rewrite app_nil_r. }
  rewrite serve_all_cons.
  destruct (serve_all_fitting w limit Hw Hlim H64 [q] t Hg Hs) as (Hg1 & Hs1 & _); [by constructor|].
  rewrite serve_all_cons in Hg1, Hs1. simpl in Hg1, Hs1.
  assert (logged path (rs ++ omap record_of [q]) (serve q t).2) as Hlog1.
  { pose proof Hg as (Hinv & _). destruct q as [k n1 n2|k v|k]; simpl.
    - rewrite app_nil_r. pose proof (get_logged path rs k n1 n2 t Hlog). by destruct (get _ _ _ t).
    - destruct (insert_logged path rs k v t Hinv Hlog) as (vs & Hl & Hin & Hk).
      rewrite (fitting_before_insert w limit Hw Hlim k v t Hg Hs) in Hk.
      destruct vs as [|x vs]; [|exfalso].
      + simpl in Hl. rewrite app_nil_r in Hl. by destruct (insert _ _ t).
      + destruct (Hin x ltac:(left)) as [e He]. specialize (Hk x). rewrite He, decide_True in Hk by left. done.
    - pose proof (remove_logged path rs k t Hlog). by destruct (remove _ t). }
  apply (IH _ _ Hg1 Hs1) in Hlog1. rewrite <- app_assoc in Hlog1.
  assert (omap record_of [q] ++ omap record_of qs = omap record_of (q :: qs)) as E by (simpl; by destruct (record_of q)).
  by rewrite E in Hlog1.
Qed.
End log.

(** ** Shards with locks *)

Section locks.
Context {H : Type} `{!LFU.PriorityQueue H}.

(** Calls in the order in which they took their locks. *)
Fixpoint sync_serve_all (qs : list request) (e : Sync.ShardedEngineSync (H := H))
  : option (list response * Sync.ShardedEngineSync (H := H)) :=
  match qs with
  | [] => Some ([], e)
  | q :: qs =>
      '(a, e1) ← Sync.sync_serve q e; '(rest, e') ← sync_serve_all qs e1; Some (a :: rest, e')
  end.

Lemma sync_serve_all_fitting w limit (n : nat) qs e :
  0 <= room_value w → room_bytes w <= limit → limit + room_value w < 2 ^ 64 → (0 < n)%nat →
  Sync.num_shards_ e = n → shards_ok (Router0 := murmur_router n) limit (Sync.shards_ e) →
  small w (shards_map (Sync.shards_ e)) → Forall (fitting w) qs →
  ∃ rs e', sync_serve_all qs e = Some (rs, e') ∧ length rs = length qs
  ∧ Sync.num_shards_ e' = n ∧ shards_ok (Router0 := murmur_router n) limit (Sync.shards_ e')
  ∧ small w (shards_map (Sync.shards_ e'))
  ∧ value <$> shards_map (Sync.shards_ e') = store_all (value <$> shards_map (Sync.shards_ e)) qs
  ∧ answers_ok (value <$> shards_map (Sync.shards_ e)) (zip qs rs).
Proof.
  intros Hw Hlim H64 Hn Hnum Hok Hs Hq. revert e Hnum Hok Hs. induction Hq as [|q qs Hq _ IH]; intros e Hnum Hok Hs.
  { exists [], e. done. }
  simpl. rewrite Sync.sync_serve_at, Hnum. set (i := sync_shard_id n (request_key q)).
  destruct (lookup_lt_is_Some_2 (Sync.shards_ e) i) as [t Ht].
  { destruct Hok as [-> _]. by apply (route_lt (Router := murmur_router n)). }
  rewrite Ht. simpl. destruct (serve q t) as [a t'] eqn:Hsv. simpl.
  assert (small w (contents t)) as Hst.
  { rewrite <- (shards_part (Router0 := murmur_router n) (Sync.shards_ e) i t); [|apply Hok|done].
    by eapply small_subseteq, Hs; apply map_filter_subseteq. }
  destruct (serve_shard_refines (Router0 := murmur_router n) limit q a (Sync.shards_ e) t t')
    as [Hok1 Hstep]; [by apply (room_nonneg w)|done|done|by apply (fitting_admissible w limit)|done|].
  destruct (fitting_step w limit Hw Hlim _ _ _ _ Hstep Hs Hq) as (Hs1 & Hm & Ha).
  change (route (Router := murmur_router n) (request_key q)) with i in *.
  destruct (IH (Sync.mkSync n (<[i := t']> (Sync.shards_ e)))) as (rs & e' & -> & Hl & ? & ? & ? & Hm' & Hans); [done|done|done|].
  exists (a :: rs), e'. simpl in Hm', Hans |- *. rewrite Hm in Hm', Hans. split_and!; [done|by rewrite Hl|done..].
Qed.

(** Calls on the engine with one lock. *)
Definition mutex_serve (q : request) (e : Mutex.MutexEngine (H := H)) : response * Mutex.MutexEngine (H := H) :=
  match q with
  | Get k n1 n2 => let '(v, e') := Mutex.mutex_get k n1 n2 e in (RValue v, e')
  | Set_ k v => let '(b, e') := Mutex.mutex_set k v e in (RBool b, e')
  | Remove k => let '(b, e') := Mutex.mutex_remove k e in (RBool b, e')
  end.

Fixpoint mutex_serve_all (qs : list request) (e : Mutex.MutexEngine (H := H))
  : list response * Mutex.MutexEngine (H := H) :=
  match qs with
  | [] => ([], e)
  | q :: qs =>
      let '(a, e1) := mutex_serve q e in
      let '(rest, e') := mutex_serve_all qs e1 in (a :: rest, e')
  end.

Lemma mutex_serve_all_table qs e :
  mutex_serve_all qs e
  = ((serve_all qs (Mutex.mutex_table e)).1, Mutex.mkMutex (serve_all qs (Mutex.mutex_table e)).2).
Proof.
  revert e. induction qs as [|q qs IH]; intros e; simpl; [by destruct e|].
  assert (mutex_serve q e = ((serve q (Mutex.mutex_table e)).1, Mutex.mkMutex (serve q (Mutex.mutex_table e)).2)) as ->.
  { destruct q; simpl; unfold Mutex.mutex_get, Mutex.mutex_set, Mutex.mutex_remove.
    - by destruct (get _ _ _ _). - by destruct (insert _ _ _). - by destruct (remove _ _). }
  rewrite IH. simpl. destruct (serve q _) as [a t1]. simpl. by destruct (serve_all qs t1).
Qed.
End locks.
