(* ===== verification/Bench.v ===== *)
(** * The benchmarks

    The programs of src/engine/bench that run on one thread or on engines with
    locks: bench_single_threaded.cpp, bench_comparison.cpp and
    bench_persistence.cpp. A loop is the list of its requests; the readings of
    the clock and the draws of [std::uniform_int_distribution], whose algorithm
    the standard leaves open, are arguments. The measured times and what is
    printed are left out. *)

From S2P Require Import Prelude Files Wal Policy Lru Lfu Dispatch HashTable Store TableFacts Table Recovery.
From S2P Require Import Snapshot Checkpoint Resp Protocol Shards Workload.

(** ** Numbered keys and values *)

Lemma digits_length fuel n : zlen (digits fuel n) <= Z.of_nat fuel.
Proof.
  revert n. induction fuel as [|fuel IH]; intros n; cbn [digits]; [done|]. specialize (IH (n / 10)).
  case_match; rewrite ?zlen_app, ?zlen_cons, ?zlen_nil; unfold zlen in *; lia.
Qed.

Lemma show_length n k : 0 < k → 0 <= n < 2 ^ k → zlen (show n) <= k.
Proof.
  intros Hk Hn. unfold show. rewrite (proj2 (Z.ltb_ge n 0)) by lia. unfold decimal.
  etrans; [apply digits_length|]. destruct (decide (n = 0)) as [->|]; [simpl; lia|].
  assert (Z.log2 n < k) by (apply Z.log2_lt_pow2; lia). pose proof (Z.log2_nonneg n). lia.
Qed.

Lemma named_inj (name : bytes) i j :
  0 <= i < 2 ^ 63 → 0 <= j < 2 ^ 63 → name ++ show i = name ++ show j → i = j.
Proof. intros Hi Hj E%app_inv_head. by apply show_inj in E; [|lia..]. Qed.

(** The answer at a position of a transcript. *)
Lemma answers_ok_at m qs rs j q a :
  answers_ok m (zip qs rs) → qs !! j = Some q → rs !! j = Some a → answer_ok (store_all m (take j qs)) q a.
Proof.
  revert m rs j. induction qs as [|q' qs IH]; intros m rs j Ha Hq Hr; [done|].
  destruct rs as [|a' rs]; [done|]. destruct Ha as [Ha Hans]. destruct j as [|j]; simplify_eq/=; [done|]. by eapply IH.
Qed.

(** *** A loop over numbered keys *)

Section loops.
Context (key val : Z → bytes) (K L : Z).
Context (HK : 0 < K) (HL : 0 <= L) (Hinj : ∀ i j, 0 <= i < K → 0 <= j < K → key i = key j → i = j).

Definition loop_room : Room := mkRoom (list_to_set (key <$> seqZ 0 K)) L.

Lemma elem_of_loop_room k : k ∈ room_keys loop_room ↔ ∃ i, 0 <= i < K ∧ k = key i.
Proof.
  unfold loop_room. simpl. rewrite elem_of_list_to_set, list_elem_of_fmap. setoid_rewrite elem_of_seqZ.
  split; intros (i & ? & ?); exists i; (split; [lia || done|lia || done]).
Qed.

Lemma loop_keys_nodup : NoDup (key <$> seqZ 0 K).
Proof.
  apply NoDup_fmap_2_strong; [|apply NoDup_seqZ]. intros i j Hi%elem_of_seqZ Hj%elem_of_seqZ. apply Hinj; lia.
Qed.

Lemma loop_room_size : Z.of_nat (base.size (room_keys loop_room)) = K.
Proof.
  unfold loop_room. simpl. rewrite size_list_to_set by apply loop_keys_nodup.
  rewrite length_fmap, length_seqZ, Z2Nat.id by lia. done.
Qed.

Lemma loop_room_bytes : room_bytes loop_room = L * K.
Proof. unfold room_bytes. by rewrite loop_room_size. Qed.

Lemma loop_mod i : key (i mod K) ∈ room_keys loop_room.
Proof. apply elem_of_loop_room. exists (i mod K). split; [|done]. apply Z.mod_pos_bound. lia. Qed.

Lemma loop_key i : 0 <= i < K → key i ∈ room_keys loop_room.
Proof. intros Hi. apply elem_of_loop_room. eauto. Qed.

Lemma fitting_set k v : k ∈ room_keys loop_room → zlen v <= L → fitting loop_room (Set_ k (new_entry v 0)).
Proof. done. Qed.

(** The map the loop that fills the table leaves. *)
Definition filled : gmap bytes bytes := store_all ∅ ((λ i, Set_ (key i) (new_entry (val i) 0)) <$> seqZ 0 K).

Lemma filled_lookup i : 0 <= i < K → filled !! key i = Some (val i).
Proof.
  intros Hi. apply store_all_sets; [lia|]. left. exists i. split_and!; [lia|lia|done|done|].
  intros j Hj E. apply Hinj in E; lia.
Qed.

Lemma filled_only k v : filled !! k = Some v → ∃ i, 0 <= i < K ∧ key i = k ∧ val i = v.
Proof.
  intros [(i & ? & ? & ? & _)|[? _]]%store_all_sets; [|done|lia]. exists i. done.
Qed.

Lemma filled_dom k : is_Some (filled !! k) ↔ k ∈ room_keys loop_room.
Proof.
  rewrite elem_of_loop_room. split.
  - intros [v (i & ? & <- & _)%filled_only]. eauto.
  - intros (i & Hi & ->). rewrite filled_lookup by done. eauto.
Qed.

(** Reading and writing the keys of a filled table keeps exactly these. *)
Lemma filled_stays qs k :
  Forall (λ q, removes q = false ∧ fitting loop_room q) qs →
  is_Some (store_all filled qs !! k) ↔ k ∈ room_keys loop_room.
Proof.
  intros Hqs. split.
  - assert (is_Some (filled !! k) → k ∈ room_keys loop_room) as Hm by apply filled_dom. revert Hm.
    generalize filled as m. induction Hqs as [|q qs [Hr Hq] _ IH]; intros m Hm Hk; [auto|].
    simpl in Hk. apply (IH _) in Hk; [done|]. destruct q as [|k' v|]; simpl in *; [done| |done].
    rewrite lookup_insert. case_decide; [subst; by intros _; apply Hq|done].
  - intros Hk. apply store_all_keeps; [|by apply filled_dom]. by eapply Forall_impl; [exact Hqs|intros ? [? _]].
Qed.

Lemma filled_hit qs rs j k n1 n2 a :
  Forall (λ q, removes q = false ∧ fitting loop_room q) qs → answers_ok filled (zip qs rs) →
  qs !! j = Some (Get k n1 n2) → rs !! j = Some a → k ∈ room_keys loop_room → hit a.
Proof.
  intros Hqs Ha Hq Hr Hk. pose proof (answers_ok_at _ _ _ _ _ _ Ha Hq Hr) as Hok.
  eapply answer_hit; [exact Hok|]. apply filled_stays; [by apply Forall_take|done].
Qed.
End loops.

(** *** New tables *)

Section fresh.
Context {H : Type} `{!LFU.PriorityQueue H}.

Lemma make_table_good cap kind limit path d (t : HashTable (TablePolicy H)) :
  0 <= cap <= 2 ^ 63 → make_table cap (make_policy kind limit) path d = Some t →
  good limit t ∧ contents t = ∅.
Proof.
  intros Hcap Hmk. destruct (make_policy_spec (H := H) kind limit) as (Hi & Htr & Hmem & Hl).
  destruct (make_table_spec cap _ path d t Hcap Hi Htr Hmk) as (Hinv & Hc & Hp & _).
  split; [|done]. split_and!; [done| |by rewrite Hp]. unfold acct. by rewrite Hc, Hp, Hmem.
Qed.

(** 100 megabytes, the default limit. *)
Definition LIMIT : Z := 1024 * 1024 * 100.

(** [HashTable ht;] *)
Definition default_table (d : Disk) : option (HashTable (TablePolicy H)) :=
  make_table 16 (make_policy KindLRU LIMIT) [] d.

Lemma default_table_good d : ∃ t, default_table d = Some t ∧ good LIMIT t ∧ contents t = ∅.
Proof. eexists. split; [reflexivity|]. by eapply (make_table_good 16 KindLRU LIMIT [] d). Qed.
End fresh.

(** ** bench_single_threaded.cpp *)

Module Single.
Definition NUM_OPERATIONS : Z := 1000000.
Definition KEY_SPACE : Z := 100000.

Definition generate_key (i : Z) : bytes := str "key_" ++ show i.
Definition generate_value (i : Z) : bytes := str "value_" ++ show i ++ str "_data".

Definition set_request (key i : Z) : request := Set_ (generate_key key) (new_entry (generate_value i) 0).

(** The loop before the measured one. *)
Definition populate : list request := (λ i, set_request i i) <$> seqZ 0 KEY_SPACE.

(** The body of the measured loop of the mixed benchmarks. *)
Definition mixed_request (clock : Z * Z) (draw i : Z) : request :=
  if draw <? 80 then Get (generate_key (i mod KEY_SPACE)) clock.1 clock.2
  else set_request (i mod KEY_SPACE) i.

Section programs.
Context {H : Type} `{!LFU.PriorityQueue H}.
Abbreviation Table := (HashTable (TablePolicy H)).

(** The benchmarks return the answers of the measured loop, which the code
    drops, and the table. *)
Definition benchmark_set (ht : Table) : list response * Table :=
  serve_all ((λ i, set_request (i mod KEY_SPACE) i) <$> seqZ 0 NUM_OPERATIONS) ht.

Definition benchmark_get (clock : Z → Z * Z) (ht : Table) : list response * Table :=
  let ht := (serve_all populate ht).2 in
  serve_all ((λ i, Get (generate_key (i mod KEY_SPACE)) (clock i).1 (clock i).2) <$> seqZ 0 NUM_OPERATIONS) ht.

Definition benchmark_mixed (clock : Z → Z * Z) (dist : Z → Z) (ht : Table) : list response * Table :=
  let ht := (serve_all populate ht).2 in
  serve_all ((λ i, mixed_request (clock i) (dist i) i) <$> seqZ 0 NUM_OPERATIONS) ht.

(** Each benchmark has a new table. *)
Definition main (clock : Z → Z * Z) (dist : Z → Z) (d : Disk)
  : option ((list response * Table) * (list response * Table) * (list response * Table)) :=
  ht1 ← default_table d;
  ht2 ← default_table d;
  ht3 ← default_table d;
  Some (benchmark_set ht1, benchmark_get clock ht2, benchmark_mixed clock dist ht3).
End programs.

(** *** The workload fits *)

Definition room : Room := loop_room generate_key KEY_SPACE 40.

Lemma key_inj i j : 0 <= i < KEY_SPACE → 0 <= j < KEY_SPACE → generate_key i = generate_key j → i = j.
Proof. unfold KEY_SPACE. intros Hi Hj. apply named_inj; lia. Qed.

Lemma value_length i : 0 <= i < 2 ^ 29 → zlen (generate_value i) <= 40.
Proof.
  intros Hi. unfold generate_value. rewrite !zlen_app. pose proof (show_length i 29 eq_refl Hi).
  change (zlen (str "value_")) with 6. change (zlen (str "_data")) with 5. lia.
Qed.

Lemma room_fits : 0 <= room_value room ∧ room_bytes room <= LIMIT ∧ LIMIT + room_value room < 2 ^ 64.
Proof. unfold room. rewrite loop_room_bytes by (done || apply key_inj). done. Qed.

Lemma set_fits k i : k ∈ room_keys room → 0 <= i < 2 ^ 29 → fitting room (Set_ k (new_entry (generate_value i) 0)).
Proof. intros Hk Hi. apply fitting_set; [done|]. by apply value_length. Qed.

Lemma mod_key i : generate_key (i mod KEY_SPACE) ∈ room_keys room.
Proof. by apply loop_mod. Qed.

Lemma mixed_fits clock draw i :
  0 <= i < 2 ^ 29 → removes (mixed_request clock draw i) = false ∧ fitting room (mixed_request clock draw i).
Proof. intros Hi. unfold mixed_request. case_match; [done|]. split; [done|]. by apply set_fits; [apply mod_key|]. Qed.

Lemma populate_fits : Forall (fitting room) populate.
Proof.
  apply Forall_fmap, Forall_forall. intros i Hi%elem_of_seqZ. unfold KEY_SPACE in *.
  apply set_fits; [|lia]. apply loop_key. unfold KEY_SPACE. lia.
Qed.

Definition populated : gmap bytes bytes := filled generate_key generate_value KEY_SPACE.

Lemma populate_stores : store_all ∅ populate = populated.
Proof. unfold populate, populated, filled, set_request. reflexivity. Qed.

Lemma populated_lookup i : 0 <= i < KEY_SPACE → populated !! generate_key i = Some (generate_value i).
Proof. exact (filled_lookup generate_key generate_value KEY_SPACE eq_refl key_inj i). Qed.

Lemma populated_hit qs rs j k n1 n2 a :
  Forall (λ q, removes q = false ∧ fitting room q) qs → answers_ok populated (zip qs rs) →
  qs !! j = Some (Get k n1 n2) → rs !! j = Some a → k ∈ room_keys room → hit a.
Proof. exact (filled_hit generate_key generate_value KEY_SPACE 40 eq_refl key_inj qs rs j k n1 n2 a). Qed.

#[local] Opaque populate populated store_all.

Section facts.
Context {H : Type} `{!LFU.PriorityQueue H}.
Abbreviation Table := (HashTable (TablePolicy H)).
Implicit Types t : Table.

Lemma populate_table t :
  good LIMIT t → contents t = ∅ →
  good LIMIT (serve_all populate t).2 ∧ small room (contents (serve_all populate t).2)
  ∧ value <$> contents (serve_all populate t).2 = populated.
Proof.
  intros Hg Hc. destruct room_fits as (H1 & H2 & H3).
  assert (small room (contents t)) as Hs by (rewrite Hc; apply small_empty).
  destruct (serve_all_fitting room LIMIT H1 H2 H3 populate t Hg Hs populate_fits) as (Hg1 & Hs1 & Hm & _).
  rewrite Hc, fmap_empty, populate_stores in Hm. exact (conj Hg1 (conj Hs1 Hm)).
Qed.

(** A loop on a filled table. *)
Lemma measured qs t :
  good LIMIT t → contents t = ∅ → Forall (λ q, removes q = false ∧ fitting room q) qs →
  let r := serve_all qs (serve_all populate t).2 in
  length r.1 = length qs ∧ answers_ok populated (zip qs r.1)
  ∧ value <$> contents r.2 = store_all populated qs
  ∧ ∀ k, is_Some (contents r.2 !! k) ↔ ∃ i, 0 <= i < KEY_SPACE ∧ k = generate_key i.
Proof.
  intros Hg Hc Hqs. destruct room_fits as (H1 & H2 & H3). destruct (populate_table t Hg Hc) as (Hg1 & Hs1 & Hm1).
  generalize dependent (serve_all populate t).2. intros t1 Hg1 Hs1 Hm1 r.
  destruct (serve_all_fitting room LIMIT H1 H2 H3 qs t1 Hg1 Hs1) as (_ & _ & Hm & Ha).
  { eapply Forall_impl; [exact Hqs|]. by intros ? [_ ?]. }
  rewrite Hm1 in Hm, Ha. split_and!; [apply serve_all_length|exact Ha|exact Hm|].
  intros k. rewrite <- (elem_of_loop_room _ _ 40), <- (fmap_is_Some value), <- lookup_fmap.
  pose proof (filled_stays generate_key generate_value KEY_SPACE 40 eq_refl key_inj qs k Hqs) as Hk.
  unfold r. rewrite Hm. exact Hk.
Qed.

Lemma seqZ_at n j (i : Z) : seqZ 0 n !! j = Some i → i = Z.of_nat j ∧ Z.of_nat j < n.
Proof. intros [-> Hj]%lookup_seqZ. lia. Qed.

Lemma loop_below i : i ∈ seqZ 0 NUM_OPERATIONS → 0 <= i < 2 ^ 29.
Proof. intros Hi%elem_of_seqZ. unfold NUM_OPERATIONS in Hi. lia. Qed.

Lemma set_loop_fits : Forall (fitting room) ((λ i, set_request (i mod KEY_SPACE) i) <$> seqZ 0 NUM_OPERATIONS).
Proof. apply Forall_fmap, Forall_forall. intros i Hi%loop_below. by apply set_fits; [apply mod_key|]. Qed.

(** The last [KEY_SPACE] rounds decide. *)
Lemma set_loop_stores k v :
  store_all ∅ ((λ i, set_request (i mod KEY_SPACE) i) <$> seqZ 0 NUM_OPERATIONS) !! k = Some v ↔
  ∃ i, 0 <= i < KEY_SPACE ∧ k = generate_key i ∧ v = generate_value (NUM_OPERATIONS - KEY_SPACE + i).
Proof.
  unfold set_request. rewrite (store_all_sets ∅ (λ i, generate_key (i mod KEY_SPACE))) by done. simpl.
  unfold NUM_OPERATIONS, KEY_SPACE. split.
  - intros [(i & Hi & <- & <- & Hlast)|[? _]]; [|done].
    assert (900000 <= i). { apply Z.nlt_ge. intros Hlt. apply (Hlast (i + 100000)); [lia|]. f_equal. zmod. }
    exists (i mod 100000). split_and!; [zmod..|done|f_equal; zmod].
  - intros (i & Hi & -> & ->). left. exists (900000 + i). split_and!; [lia|lia|f_equal; zmod|done|].
    intros j Hj E%key_inj; unfold KEY_SPACE; zmod.
Qed.

Lemma benchmark_set_contents t k v :
  good LIMIT t → contents t = ∅ →
  value <$> contents (benchmark_set t).2 !! k = Some v ↔
  ∃ i, 0 <= i < KEY_SPACE ∧ k = generate_key i ∧ v = generate_value (NUM_OPERATIONS - KEY_SPACE + i).
Proof.
  intros Hg Hc. rewrite <- lookup_fmap, <- set_loop_stores. destruct room_fits as (H1 & H2 & H3).
  assert (small room (contents t)) as Hs by (rewrite Hc; apply small_empty).
  destruct (serve_all_fitting room LIMIT H1 H2 H3 _ t Hg Hs set_loop_fits) as (_ & _ & Hm & _).
  unfold benchmark_set. rewrite Hm, Hc, fmap_empty. reflexivity.
Qed.

Lemma get_all_stores m (qs : list request) :
  Forall (λ q, match q with Get _ _ _ => True | _ => False end) qs → store_all m qs = m.
Proof. induction 1 as [|q qs Hq _ IH]; [done|]. by destruct q. Qed.

Lemma benchmark_get_answers clock t j a :
  good LIMIT t → contents t = ∅ → (benchmark_get clock t).1 !! j = Some a →
  ∃ e, a = RValue (Some e) ∧ value e = generate_value (Z.of_nat j mod KEY_SPACE).
Proof.
  intros Hg Hc Ha. unfold benchmark_get in Ha.
  set (qs := (λ i, Get (generate_key (i mod KEY_SPACE)) (clock i).1 (clock i).2) <$> seqZ 0 NUM_OPERATIONS) in *.
  assert (Forall (λ q, match q with Get _ _ _ => True | _ => False end) qs) as Hget by (by apply Forall_fmap, Forall_forall).
  destruct (measured qs t Hg Hc) as (Hlen & Hans & _).
  { eapply Forall_impl; [exact Hget|]. by intros []. }
  cbv zeta in Ha. destruct (serve_all qs (serve_all populate t).2) as [rs t']. cbn [fst] in Ha, Hlen, Hans.
  destruct (lookup_lt_is_Some_2 qs j) as [q Hq]; [rewrite <- Hlen; by eapply lookup_lt_Some|].
  pose proof (answers_ok_at _ _ _ _ _ _ Hans Hq Ha) as Hok. unfold qs in Hq.
  apply list_lookup_fmap_Some in Hq as (i & -> & [-> _]%seqZ_at). destruct Hok as (r & -> & Hr).
  rewrite (get_all_stores _ _ (Forall_take _ j _ Hget)) in Hr.
  rewrite (populated_lookup _ (Z.mod_pos_bound (Z.of_nat j) KEY_SPACE eq_refl)) in Hr.
  apply fmap_Some in Hr as (e & -> & ->). by exists e.
Qed.

Lemma benchmark_mixed_answers clock dist t :
  good LIMIT t → contents t = ∅ →
  (∀ j a, (benchmark_mixed clock dist t).1 !! j = Some a → dist (Z.of_nat j) < 80 → hit a)
  ∧ ∀ k, is_Some (contents (benchmark_mixed clock dist t).2 !! k) ↔ ∃ i, 0 <= i < KEY_SPACE ∧ k = generate_key i.
Proof.
  intros Hg Hc. unfold benchmark_mixed.
  set (qs := (λ i, mixed_request (clock i) (dist i) i) <$> seqZ 0 NUM_OPERATIONS).
  assert (Forall (λ q, removes q = false ∧ fitting room q) qs) as Hqs.
  { apply Forall_fmap, Forall_forall. intros i Hi%loop_below. by apply mixed_fits. }
  destruct (measured qs t Hg Hc Hqs) as (Hlen & Hans & _ & Hkeys). cbv zeta. split; [|exact Hkeys].
  clear Hkeys. destruct (serve_all qs (serve_all populate t).2) as [rs t']. cbn [fst] in Hlen, Hans |- *. intros j a Ha Hd.
  destruct (lookup_lt_is_Some_2 qs j) as [q Hq]; [rewrite <- Hlen; by eapply lookup_lt_Some|].
  assert (q = Get (generate_key (Z.of_nat j mod KEY_SPACE)) (clock (Z.of_nat j)).1 (clock (Z.of_nat j)).2) as ->.
  { unfold qs in Hq. apply list_lookup_fmap_Some in Hq as (i & -> & [-> _]%seqZ_at).
    unfold mixed_request. by rewrite (proj2 (Z.ltb_lt _ _) Hd). }
  exact (populated_hit qs rs j _ _ _ a Hqs Hans Hq Ha (mod_key _)).
Qed.

Lemma loop_answers (f : Z → request) t : zlen (serve_all (f <$> seqZ 0 NUM_OPERATIONS) t).1 = NUM_OPERATIONS.
Proof. unfold zlen. rewrite serve_all_length, length_fmap, length_seqZ. by apply Z2Nat.id. Qed.

(** The single-threaded benchmarks measure what they say. Whatever the clock
    and the draws, a million requests are answered in each; the sets leave every
    key with the value it was given last; each get finds the value its key was
    filled with; each get of the mixed benchmark finds its key; and no key is
    evicted. *)
Theorem single_threaded_results clock dist d :
  ∃ sets gets mixed, main (H := H) clock dist d = Some (sets, gets, mixed)
  ∧ zlen sets.1 = NUM_OPERATIONS ∧ zlen gets.1 = NUM_OPERATIONS ∧ zlen mixed.1 = NUM_OPERATIONS
  ∧ (∀ k v, value <$> contents sets.2 !! k = Some v ↔
       ∃ i, 0 <= i < KEY_SPACE ∧ k = generate_key i ∧ v = generate_value (NUM_OPERATIONS - KEY_SPACE + i))
  ∧ (∀ j a, gets.1 !! j = Some a →
       ∃ e, a = RValue (Some e) ∧ value e = generate_value (Z.of_nat j mod KEY_SPACE))
  ∧ (∀ j a, mixed.1 !! j = Some a → dist (Z.of_nat j) < 80 → hit a)
  ∧ ∀ k, is_Some (contents mixed.2 !! k) ↔ ∃ i, 0 <= i < KEY_SPACE ∧ k = generate_key i.
Proof.
  destruct (default_table_good (H := H) d) as (t & Hmk & Hg & Hc). unfold main. rewrite Hmk. cbn [mbind option_bind].
  destruct (benchmark_mixed_answers clock dist t Hg Hc) as [Hm1 Hm2].
  do 3 eexists. split; [reflexivity|]. split_and!; [apply loop_answers..| | |exact Hm1|exact Hm2].
  - intros k v. by apply benchmark_set_contents.
  - intros j a. by apply benchmark_get_answers.
Qed.
End facts.
End Single.

(** ** Threads *)

(** The orders in which the steps of several threads can happen. *)
Inductive interleaving {A} : list (list A) → list A → Prop :=
| interleaving_done ls : Forall (λ l, l = []) ls → interleaving ls []
| interleaving_step ls i x l tr :
    ls !! i = Some (x :: l) → interleaving (<[i := l]> ls) tr → interleaving ls (x :: tr).

Lemma interleaving_Forall {A} (Q : A → Prop) ls tr :
  interleaving ls tr → Forall (Forall Q) ls → Forall Q tr.
Proof.
  induction 1 as [|ls i x l tr Hi _ IH]; intros Hls; [constructor|].
  pose proof (Forall_lookup_1 _ _ _ _ Hls Hi) as [Hx Hl]%Forall_cons.
  constructor; [done|]. apply IH. by apply Forall_insert.
Qed.

Lemma sum_lengths_step {A} (ls : list (list A)) i x l :
  ls !! i = Some (x :: l) → sum_list (length <$> ls) = S (sum_list (length <$> <[i := l]> ls)).
Proof.
  revert i. induction ls as [|l0 ls IH]; intros [|i] Hi; simplify_eq/=; [done|].
  exact (eq_trans (f_equal (Nat.add (length l0)) (IH i Hi)) (Nat.add_succ_r _ _)).
Qed.

Lemma interleaving_length {A} (ls : list (list A)) tr :
  interleaving ls tr → length tr = sum_list (length <$> ls).
Proof.
  induction 1 as [ls Hls|ls i x l tr Hi _ IH].
  - induction Hls as [|? ls -> _ IH]; [done|exact IH].
  - rewrite (sum_lengths_step ls i x l Hi), <- IH. done.
Qed.

(** One order that is always possible: thread after thread. *)
Lemma interleaving_after_done {A} (ls : list (list A)) tr : interleaving ls tr → interleaving ([] :: ls) tr.
Proof.
  induction 1 as [ls Hls|ls i x l tr Hi _ IH]; [by repeat constructor|].
  by apply (interleaving_step _ (S i) x l).
Qed.

Lemma interleaving_concat {A} (ls : list (list A)) : interleaving ls (concat ls).
Proof.
  induction ls as [|l ls IH]; [by constructor|]. rewrite concat_cons. induction l as [|x l IHl]; simpl.
  - by apply interleaving_after_done.
  - by apply (interleaving_step _ 0 x l).
Qed.

(** ** bench_comparison.cpp

    The constants, keys and values are those of bench_single_threaded.cpp. *)

Module Comparison.
Import Single.

(** The loop of thread [t]: [t * ops_per_thread + i] stays below
    [NUM_OPERATIONS]. *)
Definition thread_body (num_threads : Z) (clock : Z → Z → Z * Z) (dist : Z → Z → Z) (t : Z) : list request :=
  let ops_per_thread := NUM_OPERATIONS / num_threads in
  (λ i, mixed_request (clock t i) (dist t i) (t * ops_per_thread + i)) <$> seqZ 0 ops_per_thread.

Definition threads (num_threads : Z) (clock : Z → Z → Z * Z) (dist : Z → Z → Z) : list (list request) :=
  thread_body num_threads clock dist <$> seqZ 0 num_threads.

Definition thread_counts : list Z := [1; 2; 4; 8].

Section programs.
Context {H : Type} `{!LFU.PriorityQueue H}.

(** The calls of the threads happen in the order [order], in which they take
    their locks. The result has the answers of the threads. *)
Definition benchmark_sharded (num_threads : Z) (order : list request) (d : Disk)
  : option (list response * Sync.ShardedEngineSync (H := H)) :=
  engine ← Sync.make_sync (Z.to_nat num_threads) LIMIT KindLRU d;
  '(_, engine) ← sync_serve_all populate engine;
  sync_serve_all order engine.

Definition benchmark_mutex (order : list request) (d : Disk)
  : option (list response * Mutex.MutexEngine (H := H)) :=
  engine ← Mutex.make_mutex d;
  let engine := (mutex_serve_all populate engine).2 in
  Some (mutex_serve_all order engine).
End programs.

(** Every get of a sequence of calls is answered with a value. *)
Definition all_hit (qs : list request) (rs : list response) : Prop :=
  length rs = length qs ∧ ∀ j k n1 n2 a, qs !! j = Some (Get k n1 n2) → rs !! j = Some a → hit a.

(** Requests of the threads. *)
Definition thread_request (q : request) : Prop :=
  (removes q = false ∧ fitting room q) ∧ request_key q ∈ room_keys room.

Lemma threads_request num_threads clock dist :
  0 < num_threads → Forall (Forall thread_request) (threads num_threads clock dist).
Proof.
  intros Hn. apply Forall_fmap, Forall_forall. intros t Ht%elem_of_seqZ. apply Forall_fmap, Forall_forall.
  intros i Hi%elem_of_seqZ. split.
  - apply mixed_fits. assert (num_threads * (NUM_OPERATIONS / num_threads) <= NUM_OPERATIONS) by (by apply Z.mul_div_le).
    unfold NUM_OPERATIONS in *. simpl. nia.
  - unfold mixed_request, set_request. destruct (_ <? 80); exact (mod_key _).
Qed.

Lemma sum_list_constant {A} (f : A → nat) (c : nat) (l : list A) :
  (∀ x, f x = c) → sum_list (f <$> l) = (length l * c)%nat.
Proof. intros Hf. induction l as [|x l IH]; [done|]. exact (f_equal2 Nat.add (Hf x) IH). Qed.

Lemma threads_total num_threads clock dist :
  num_threads ∈ thread_counts → Z.of_nat (sum_list (length <$> threads num_threads clock dist)) = NUM_OPERATIONS.
Proof.
  intros Hn. assert (0 < num_threads ∧ num_threads * (NUM_OPERATIONS / num_threads) = NUM_OPERATIONS) as [Hpos Hn'].
  { unfold thread_counts in Hn. rewrite !elem_of_cons, elem_of_nil in Hn. by destruct Hn as [->|[->|[->|[->|[]]]]]. }
  unfold threads. rewrite <- list_fmap_compose, (sum_list_constant _ (Z.to_nat (NUM_OPERATIONS / num_threads))).
  - rewrite length_seqZ. assert (0 <= NUM_OPERATIONS / num_threads) by (by apply Z.div_pos). lia.
  - intros t. unfold compose, thread_body. by rewrite length_fmap, length_seqZ.
Qed.

Section facts.
Context {H : Type} `{!LFU.PriorityQueue H}.

(** What a filled engine answers. *)
Lemma order_hits order rs :
  Forall thread_request order → answers_ok populated (zip order rs) → length rs = length order → all_hit order rs.
Proof.
  intros Ho Ha Hl. split; [exact Hl|]. intros j k n1 n2 a Hq Hr.
  refine (populated_hit order rs j k n1 n2 a _ Ha Hq Hr _).
  - eapply Forall_impl; [exact Ho|]. intros q [Hq' _]. exact Hq'.
  - exact (proj2 (Forall_lookup_1 _ _ _ _ Ho Hq)).
Qed.

Lemma order_keys order k :
  Forall thread_request order →
  is_Some (store_all populated order !! k) ↔ ∃ i, 0 <= i < KEY_SPACE ∧ k = generate_key i.
Proof.
  intros Ho. rewrite <- (elem_of_loop_room _ _ 40).
  apply (filled_stays generate_key generate_value KEY_SPACE 40 eq_refl key_inj order k).
  eapply Forall_impl; [exact Ho|]. intros q [Hq' _]. exact Hq'.
Qed.

Lemma sharded_order num_threads order d :
  0 < num_threads → Forall thread_request order →
  ∃ rs e, benchmark_sharded (H := H) num_threads order d = Some (rs, e) ∧ all_hit order rs
  ∧ ∀ k, is_Some (shards_map (Sync.shards_ e) !! k) ↔ ∃ i, 0 <= i < KEY_SPACE ∧ k = generate_key i.
Proof.
  intros Hn Ho. destruct room_fits as (H1 & H2 & H3). set (n := Z.to_nat num_threads).
  assert (0 < n)%nat as Hn' by (unfold n; lia). unfold benchmark_sharded, Sync.make_sync. fold n.
  destruct (Sync.make_shards n LIMIT KindLRU d) as [ts|] eqn:Hts; cycle 1.
  { exfalso. unfold Sync.make_shards in Hts. apply mapM_None_1, Exists_exists in Hts as (? & _ & Hx). done. }
  destruct (Sync.make_shards_ok n (murmur_router n) LIMIT KindLRU d ts Hts) as [Hok Hempty].
  cbn [mbind option_bind].
  destruct (sync_serve_all_fitting room LIMIT n populate (Sync.mkSync n ts)) as (rs1 & e1 & Hr1 & _ & Hn1 & Hok1 & Hs1 & Hm1 & _);
    [exact H1|exact H2|exact H3|exact Hn'|reflexivity|exact Hok|simpl; rewrite Hempty; apply small_empty|exact populate_fits|].
  rewrite Hr1. cbn [mbind option_bind]. cbn [Sync.shards_] in Hm1. rewrite Hempty, fmap_empty, populate_stores in Hm1.
  destruct (sync_serve_all_fitting room LIMIT n order e1) as (rs & e & Hr & Hl & _ & _ & _ & Hm & Ha);
    [exact H1|exact H2|exact H3|exact Hn'|exact Hn1|exact Hok1|exact Hs1| |].
  { eapply Forall_impl; [exact Ho|]. by intros q [[_ ?] _]. }
  rewrite Hm1 in Hm, Ha. exists rs, e. split_and!; [exact Hr|exact (order_hits order rs Ho Ha Hl)|].
  intros k. rewrite <- (order_keys order k Ho), <- Hm, lookup_fmap. by rewrite fmap_is_Some.
Qed.

Lemma mutex_order order d :
  Forall thread_request order →
  ∃ rs e, benchmark_mutex (H := H) order d = Some (rs, e) ∧ all_hit order rs
  ∧ ∀ k, is_Some (contents (Mutex.mutex_table e) !! k) ↔ ∃ i, 0 <= i < KEY_SPACE ∧ k = generate_key i.
Proof.
  intros Ho. destruct (default_table_good (H := H) d) as (t & Hmk & Hg & Hc).
  unfold benchmark_mutex, Mutex.make_mutex. change (make_table 16 _ [] d) with (default_table (H := H) d). rewrite Hmk.
  cbn [fmap option_fmap option_map mbind option_bind]. rewrite !mutex_serve_all_table. cbn [fst snd Mutex.mutex_table].
  assert (Forall (λ q, removes q = false ∧ fitting room q) order) as Ho'.
  { eapply Forall_impl; [exact Ho|]. intros q [Hq' _]. exact Hq'. }
  destruct (measured order t Hg Hc Ho') as (Hl & Ha & _ & Hk).
  do 2 eexists. split_and!; [reflexivity|exact (order_hits order _ Ho Ha Hl)|exact Hk].
Qed.

(** C32: The two engines of the comparison do the same work. For each of the
    thread counts, and for every order in which the calls of the threads may
    take the locks of either engine, the engines answer exactly a million calls,
    every get finds its key, no call accesses a shard out of bounds, and both
    end with the keys they were filled with. *)
Theorem comparison_same_work num_threads clock dist order1 order2 d :
  num_threads ∈ thread_counts →
  interleaving (threads num_threads clock dist) order1 → interleaving (threads num_threads clock dist) order2 →
  ∃ rs1 e1 rs2 e2, benchmark_sharded (H := H) num_threads order1 d = Some (rs1, e1)
  ∧ benchmark_mutex (H := H) order2 d = Some (rs2, e2)
  ∧ zlen rs1 = NUM_OPERATIONS ∧ zlen rs2 = NUM_OPERATIONS ∧ all_hit order1 rs1 ∧ all_hit order2 rs2
  ∧ ∀ k, (is_Some (shards_map (Sync.shards_ e1) !! k) ↔ ∃ i, 0 <= i < KEY_SPACE ∧ k = generate_key i)
         ∧ (is_Some (contents (Mutex.mutex_table e2) !! k) ↔ ∃ i, 0 <= i < KEY_SPACE ∧ k = generate_key i).
Proof.
  intros Hn Ho1 Ho2. assert (0 < num_threads) as Hpos.
  { unfold thread_counts in Hn. rewrite !elem_of_cons, elem_of_nil in Hn. lia. }
  pose proof (threads_total num_threads clock dist Hn) as Ht. pose proof (threads_request num_threads clock dist Hpos) as Hr.
  destruct (sharded_order num_threads order1 d Hpos (interleaving_Forall _ _ _ Ho1 Hr)) as (rs1 & e1 & H1 & Hh1 & Hk1).
  destruct (mutex_order order2 d (interleaving_Forall _ _ _ Ho2 Hr)) as (rs2 & e2 & H2 & Hh2 & Hk2).
  exists rs1, e1, rs2, e2. unfold zlen.
  rewrite (proj1 Hh1), (proj1 Hh2), (interleaving_length _ _ Ho1), (interleaving_length _ _ Ho2).
  exact (conj H1 (conj H2 (conj Ht (conj Ht (conj Hh1 (conj Hh2 (λ k, conj (Hk1 k) (Hk2 k)))))))).
Qed.
End facts.
End Comparison.

(** *** Witness *)

Section demo.
Import Single Comparison.

Abbreviation demo_threads := (threads 2 (λ t i, (t, i)) (λ t i, (t + i) mod 100)).

Lemma comparison_same_work_witness :
  ∃ rs1 e1 rs2 e2, benchmark_sharded (H := LFU.SortedQueue) 2 (concat demo_threads) empty_disk = Some (rs1, e1)
  ∧ benchmark_mutex (H := LFU.SortedQueue) (concat demo_threads) empty_disk = Some (rs2, e2)
  ∧ zlen rs1 = NUM_OPERATIONS ∧ zlen rs2 = NUM_OPERATIONS
  ∧ all_hit (concat demo_threads) rs1 ∧ all_hit (concat demo_threads) rs2
  ∧ ∀ k, (is_Some (shards_map (Sync.shards_ e1) !! k) ↔ ∃ i, 0 <= i < KEY_SPACE ∧ k = generate_key i)
         ∧ (is_Some (contents (Mutex.mutex_table e2) !! k) ↔ ∃ i, 0 <= i < KEY_SPACE ∧ k = generate_key i).
Proof.
  refine (comparison_same_work (H := LFU.SortedQueue) 2 (λ t i, (t, i)) (λ t i, (t + i) mod 100)
            (concat demo_threads) (concat demo_threads) empty_disk _ _ _).
  - right. left.
  - apply interleaving_concat.
  - apply interleaving_concat.
Defined.
End demo.
