(* ===== verification/BenchPersistence.v ===== *)
(** * The persistence benchmark

    src/engine/bench/bench_persistence.cpp: the same mixed workload with and
    without a log, and recovery from a snapshot and a log. *)

From S2P Require Import Prelude Files Wal Policy Lru Lfu Dispatch HashTable Store TableFacts Table Recovery.
From S2P Require Import Crc Snapshot Lifecycle Checkpoint Resp Protocol Shards Workload Bench.

(** [std::filesystem::remove]. *)
Definition remove_file (path : bytes) (d : Disk) : Disk := mkDisk (delete path (files d)) (denied d).

Lemma remove_file_gone path d : contents_of (remove_file path d) path = [].
Proof. unfold contents_of, remove_file. simpl. by rewrite lookup_delete_eq. Qed.

(** ** Tables with room *)

(** Sets of new entries without expiry, as the loops make them. *)
Definition plain_set (q : request) : Prop := ∃ k v, q = Set_ k (new_entry v 0).

Section table.
Context {P : Type} `{!EvictionPolicy P}.
Implicit Types t r : HashTable P.

Lemma good_same limit t t' : same_data t' t → good limit t → good limit t'.
Proof.
  intros Hs (Hinv & Ha & Hl). pose proof (same_data_contents _ _ Hs) as Hc. destruct Hs as (Hb & Hn & Hp).
  split_and!; [by apply (ht_inv_frame t)| |by rewrite Hp]. unfold acct in *. by rewrite Hc, Hp.
Qed.

Lemma truncate_same t t' : truncate_wal t = Some t' → same_data t' t.
Proof. unfold truncate_wal. case_decide; [by intros [= <-]|]. by intros ?%enable_wal_frame. Qed.

Lemma truncate_some path rs t :
  path ≠ [] → logged path rs t → wal_path_ t = path → ∃ t', truncate_wal t = Some t'.
Proof.
  intros Hpath (Hd & _ & w & Hw & _) Hp. unfold truncate_wal. rewrite Hp, decide_False by done. rewrite Hw.
  destruct (flush_frame (w, disk t)) as (_ & _ & _ & Hdn & _). unfold close_writer, open_trunc.
  rewrite decide_False by (by rewrite Hdn). unfold enable_wal, open_writer, open_append. simpl.
  rewrite decide_False by (by rewrite Hdn). eauto.
Qed.

Lemma create_snapshot_some snap t : snap ∉ denied (disk t) → ∃ t', create_snapshot snap t = Some (true, t').
Proof.
  intros Hd. destruct (create_snapshot snap t) as [[b t']|] eqn:E.
  - apply create_snapshot_file in E as E'. destruct E' as (_ & [= -> _]). eauto.
  - exfalso. revert E. unfold create_snapshot, open_snapshot_writer, open_trunc. by rewrite decide_False.
Qed.

Lemma make_table_some cap p path d : path ∉ denied d → ∃ t : HashTable P, make_table cap p path d = Some t.
Proof.
  intros Hd. unfold make_table. set (t0 := mkTable _ _ _ _ _ _). assert (disk t0 = d) as E by reflexivity. clearbody t0.
  destruct (decide (path = [])); [by exists t0|]. unfold enable_wal, open_writer, open_append.
  rewrite decide_False by (by rewrite E). eauto.
Qed.

(** The log makes no difference to a new table. *)
Lemma make_table_same cap p path d d' t t' :
  make_table cap p [] d = Some t → make_table cap p path d' = Some t' → same_data t t'.
Proof.
  unfold make_table. generalize (Z.to_nat (capacity_loop 64 1 cap)). intros n. rewrite decide_True by done. intros [= <-].
  destruct (decide (path = [])); [by intros [= <-]|]. intros (Hb & Hn & Hp)%enable_wal_frame. by split_and!.
Qed.

Lemma make_table_no_log cap p d t : make_table cap p [] d = Some t → no_log d t.
Proof. unfold make_table. generalize (Z.to_nat (capacity_loop 64 1 cap)). intros n. rewrite decide_True by done. by intros [= <-]. Qed.

Lemma serve_all_apart snap d qs t : apart snap d t → apart snap d (serve_all qs t).2.
Proof.
  revert t. induction qs as [|q qs IH]; intros t Ha; [done|]. rewrite serve_all_cons. by apply IH, serve_apart.
Qed.

Lemma serve_all_wal_path path qs t : wal_path_ t = path → wal_path_ (serve_all qs t).2 = path.
Proof.
  revert t. induction qs as [|q qs IH]; intros t Ha; [done|]. rewrite serve_all_cons. by apply IH, serve_wal_path.
Qed.

(** Replaying the records of sets is setting again. *)
Lemma replay_sets clock i qs t :
  Forall plain_set qs → replay_list clock i (omap record_of qs) t = (serve_all qs t).2.
Proof.
  intros Hq. revert i t. induction Hq as [|q qs (k & v & ->) _ IH]; intros i t; [done|].
  rewrite serve_all_cons. cbn [omap list_omap record_of replay_list]. rewrite IH. do 2 f_equal.
  unfold replay_record. cbn [op_type set_record wkey wvalue ttl_ns new_entry value expiry_ns]. simpl.
  by destruct (insert _ _ t).
Qed.

Lemma plain_records qs : Forall plain_set qs → length (omap record_of qs) = length qs.
Proof. induction 1 as [|q qs (k & v & ->) _ IH]; [done|]. by apply (f_equal S). Qed.

Section room.
Context (w : Room) (limit : Z) (Hw : 0 <= room_value w < 2 ^ 32) (Hlim : room_bytes w <= limit).
Context (H64 : limit + room_value w < 2 ^ 64) (Hkeys : ∀ k, k ∈ room_keys w → zlen k < 2 ^ 32).
Context (Hsize : Z.of_nat (base.size (room_keys w)) < 2 ^ 64).

Lemma fitting_records qs : Forall (fitting w) qs → Forall plain_set qs → Forall plain (omap record_of qs).
Proof.
  induction 1 as [|q qs Hq _ IH]; intros Hp; [constructor|]. apply Forall_cons in Hp as [(k & v & ->) Hp].
  destruct Hq as (Hk & Hv & _). cbn [omap list_omap record_of]. constructor; [|by apply IH].
  apply set_record_plain; [by apply Hkeys|]. lia.
Qed.

Lemma small_snapshotable t : ht_inv t → small w (contents t) → snapshotable t.
Proof.
  intros Hinv Hs. split.
  - assert (zlen (for_each t) = Z.of_nat (base.size (contents t))) as ->.
    { rewrite <- entries_size by done. unfold zlen, for_each, pmap, entries. by rewrite length_fmap. }
    assert (base.size (contents t) ≤ base.size (room_keys w))%nat; [|lia].
    rewrite <- size_dom. apply subseteq_size. intros k [v Hk]%elem_of_dom. by apply (Hs k v).
  - apply Forall_forall. intros [k v] Hin. apply elem_of_list_to_map_1 in Hin; [|by apply for_each_nodup].
    rewrite <- for_each_contents in Hin. destruct (Hs k v Hin) as (Hk & Hv & He & ? & ?).
    unfold entry_fits. cbn [fst snd]. rewrite He. split_and!; try (done || lia). by apply Hkeys.
Qed.

(** Replaying the log of a loop. *)
Lemma replay_fitting fuel clock path qs d r :
  no_log d r → files d !! path = Some (encode_all (omap record_of qs)) → path ∉ denied d →
  good limit r → small w (contents r) → Forall (fitting w) qs → Forall plain_set qs →
  (length (contents_of d path) < fuel)%nat →
  ∃ r', replay_wal fuel clock path r = ReplayDone (u64 (zlen qs)) r'
  ∧ value <$> contents r' = store_all (value <$> contents r) qs.
Proof.
  intros Hnl Hf Hden Hg Hs Hq Hp. unfold contents_of. rewrite Hf. cbn [from_option id]. intros Hfuel.
  set (rs := omap record_of qs) in *. pose proof (fitting_records qs Hq Hp) as Hplain. fold rs in Hplain.
  assert (Forall fits rs) as Hfits by (eapply Forall_impl; [exact Hplain|]; by intros ? [? _]).
  exists (serve_all qs r).2. split.
  - rewrite (replay_wal_torn fuel clock path rs (length (encode_all rs)) d r Hfits Hden);
      [|by rewrite firstn_all|exact Hnl|by rewrite firstn_all].
    rewrite whole_all by done. unfold rs. rewrite replay_sets by done. do 2 f_equal.
    unfold zlen. by rewrite plain_records.
  - by destruct (serve_all_fitting w limit ltac:(lia) Hlim H64 qs r Hg Hs Hq) as (_ & _ & Hm & _).
Qed.

(** Loading the snapshot of a table of the workload. *)
Lemma load_fitting junk snap d (s r : HashTable P) :
  no_log d r → snap ∉ denied d → files d !! snap = Some (image s) → ht_inv s → small w (contents s) →
  good limit r → contents r = ∅ →
  ∃ r', load_snapshot junk snap r = Some (true, r') ∧ no_log d r' ∧ good limit r' ∧ contents r' = contents s.
Proof.
  intros Hnl Hden Hf Hsi Hs Hg Hc. pose proof Hg as (Hinv & Ha & Hl).
  destruct (small_snapshotable s Hsi Hs) as [Hlen Hfits]. assert (0 <= room_value w) as Hw0 by lia.
  pose proof (small_total w _ Hw0 Hs).
  destruct (load_entries junk snap (checksum (payload (ht_size s) (for_each s))) s r Hsi Hlen Hfits Hinv Ha)
    as (r' & -> & Hc' & Hi' & Ha' & Hl' & ->).
  - rewrite Hc, Hl. change (total ∅) with 0. lia.
  - apply checksum_range.
  - unfold serves. rewrite (proj2 Hnl). split_and!; [done|done|]. intros x Hx. rewrite (proj1 Hnl) in Hx. done.
  - eexists. rewrite Z.eqb_refl. split_and!; [done|by apply insert_all_no_log..| |].
    + split_and!; [done|done|congruence].
    + by rewrite Hc', Hc, (right_id_L ∅ (∪)).
Qed.
End room.
End table.

Module Persistence.
Definition NUM_OPERATIONS : Z := 100000.
Definition KEY_SPACE : Z := 10000.

Definition generate_key (i : Z) : bytes := str "bench_key_" ++ show i.
Definition generate_value (i : Z) : bytes :=
  str "bench_value_" ++ show i ++ str "_data_padding_for_realistic_size".

(** The body of both loops. *)
Definition operation (clock : Z * Z) (draw i : Z) : request :=
  let key := generate_key (i mod KEY_SPACE) in
  if draw <? 80 then Get key clock.1 clock.2 else Set_ key (new_entry (generate_value i) 0).

Definition operations (clock : Z → Z * Z) (dist : Z → Z) : list request :=
  (λ i, operation (clock i) (dist i) i) <$> seqZ 0 NUM_OPERATIONS.

Definition bench_wal : bytes := str "/tmp/bench_wal.log".
Definition wal_path : bytes := str "/tmp/recovery_wal.log".
Definition snapshot_path : bytes := str "/tmp/recovery_snap.snap".

(** The dataset of the recovery benchmark. *)
Definition recovery_key (i : Z) : bytes := str "recovery_key_" ++ show i.
Definition recovery_value (i : Z) : bytes := str "recovery_value_" ++ show i ++ str "_with_data".
Definition updated_value (i : Z) : bytes := str "updated_value_" ++ show i.

Definition dataset (num_keys : Z) : list request :=
  (λ i, Set_ (recovery_key i) (new_entry (recovery_value i) 0)) <$> seqZ 0 num_keys.

(** The loop from [num_keys / 2] to [num_keys]. *)
Definition updates (num_keys : Z) : list request :=
  (λ i, Set_ (recovery_key i) (new_entry (updated_value i) 0))
    <$> seqZ (num_keys / 2) (num_keys - num_keys / 2).

Section programs.
Context {H : Type} `{!LFU.PriorityQueue H}.
Abbreviation Table := (HashTable (TablePolicy H)).

Definition benchmark_no_wal (clock : Z → Z * Z) (dist : Z → Z) (d : Disk) : option (list response * Table) :=
  ht ← make_table 128 (make_policy KindLRU LIMIT) [] d;
  Some (serve_all (operations clock dist) ht).

(** Up to the end of the measurement; the file is removed afterwards. *)
Definition benchmark_with_wal (clock : Z → Z * Z) (dist : Z → Z) (d : Disk) : option (list response * Table) :=
  ht ← make_table 128 (make_policy KindLRU LIMIT) bench_wal (remove_file bench_wal d);
  let '(answers, ht) := serve_all (operations clock dist) ht in
  Some (answers, flush_wal ht).

(** The first block of [benchmark_recovery_time]: the disk it leaves. The
    results of [create_snapshot] and [truncate_wal] are not looked at. *)
Definition create_dataset (num_keys : Z) (d : Disk) : option Disk :=
  let d := remove_file snapshot_path (remove_file wal_path d) in
  ht ← make_table 256 (make_policy (H := H) KindLRU LIMIT) wal_path d;
  let ht := flush_wal (serve_all (dataset num_keys) ht).2 in
  ht ← (if 100 <=? num_keys then
          '(_, ht) ← create_snapshot snapshot_path ht;
          ht ← truncate_wal ht;
          Some (flush_wal (serve_all (updates num_keys) ht).2)
        else Some ht);
  Some (disk (flush_wal ht)).

(** The measured block. *)
Definition recover_dataset (fuel : nat) (junk : Z * Z) (clock : nat → Z * Z) (d : Disk)
  : option (replay_result (P := TablePolicy H)) :=
  ht ← make_table 256 (make_policy KindLRU LIMIT) [] d;
  Some (recover fuel junk clock snapshot_path wal_path ht).
End programs.

(** *** The mixed workload *)

Definition room : Room := loop_room generate_key KEY_SPACE 80.

Lemma bench_key_inj i j : 0 <= i < KEY_SPACE → 0 <= j < KEY_SPACE → generate_key i = generate_key j → i = j.
Proof. unfold KEY_SPACE. intros Hi Hj. apply named_inj; lia. Qed.

Lemma bench_value_length i : 0 <= i < 2 ^ 29 → zlen (generate_value i) <= 80.
Proof.
  intros Hi. unfold generate_value. rewrite !zlen_app. pose proof (show_length i 29 eq_refl Hi).
  change (zlen (str "bench_value_")) with 12. change (zlen (str "_data_padding_for_realistic_size")) with 32. lia.
Qed.

Lemma bench_room_fits : 0 <= room_value room ∧ room_bytes room <= LIMIT ∧ LIMIT + room_value room < 2 ^ 64.
Proof. unfold room. rewrite loop_room_bytes by (done || apply bench_key_inj). done. Qed.

Lemma operations_fit clock dist : Forall (fitting room) (operations clock dist).
Proof.
  apply Forall_fmap, Forall_forall. intros i Hi%elem_of_seqZ. unfold NUM_OPERATIONS in Hi.
  unfold compose, operation. destruct (_ <? 80); [done|]. apply fitting_set; [by apply loop_mod|apply bench_value_length; lia].
Qed.

Section facts.
Context {H : Type} `{!LFU.PriorityQueue H}.

(** C33: The log costs time, not answers. With the same draws and clock the
    benchmarks with and without a log give the same answers, those of a plain
    map, and end with the same table; the file then holds exactly the writes, in
    their order. *)
Theorem persistence_same_answers clock dist d :
  bench_wal ∉ denied d →
  ∃ answers t1 t2, benchmark_no_wal (H := H) clock dist d = Some (answers, t1)
  ∧ benchmark_with_wal (H := H) clock dist d = Some (answers, t2)
  ∧ answers_ok ∅ (zip (operations clock dist) answers) ∧ contents t1 = contents t2
  ∧ contents_of (disk t2) bench_wal = encode_all (omap record_of (operations clock dist)).
Proof.
  intros Hd. unfold benchmark_no_wal, benchmark_with_wal. destruct bench_room_fits as (H1 & H2 & H3).
  destruct (make_table 128 (make_policy (H := H) KindLRU LIMIT) [] d) as [u1|] eqn:E1; [|done].
  destruct (make_table_some (P := TablePolicy H) 128 (make_policy KindLRU LIMIT) bench_wal (remove_file bench_wal d) Hd) as [u2 E2].
  rewrite E2. cbn [mbind option_bind]. pose proof (make_table_same _ _ _ _ _ _ _ E1 E2) as Hsame.
  assert (0 <= 128 <= 2 ^ 63) as Hcap by lia.
  destruct (make_table_good (H := H) 128 KindLRU LIMIT [] d u1 Hcap E1) as [Hg1 Hc1].
  destruct (make_table_good (H := H) 128 KindLRU LIMIT bench_wal _ u2 Hcap E2) as [Hg2 Hc2].
  destruct (fresh_logged 128 _ bench_wal _ u2 ltac:(done) (remove_file_gone _ _) E2) as [Hlog _].
  pose proof (operations_fit clock dist) as Hfit. revert Hfit. generalize (operations clock dist) as qs. intros qs Hfit.
  destruct (serve_all_same qs u1 u2 Hsame) as [Hans Hdata].
  assert (small room (contents u1) ∧ small room (contents u2)) as [Hs1 Hs2] by (rewrite Hc1, Hc2; split; apply small_empty).
  destruct (serve_all_fitting room LIMIT H1 H2 H3 qs u1 Hg1 Hs1 Hfit) as (_ & _ & _ & Hok).
  pose proof (serve_all_logged room LIMIT bench_wal [] qs u2 H1 H2 H3 Hg2 Hs2 Hfit Hlog) as Hl.
  apply flush_wal_file in Hl as [Hf _]. unfold transcript in Hok. rewrite Hc1, fmap_empty in Hok.
  destruct (serve_all qs u1) as [rs t1], (serve_all qs u2) as [rs' t2]. cbn [fst snd] in *. subst rs'.
  exists rs, t1, (flush_wal t2). split_and!; [reflexivity|reflexivity|exact Hok| |].
  - rewrite (same_data_contents _ _ Hdata). symmetry. apply same_data_contents, flush_wal_same.
  - unfold contents_of. by rewrite Hf.
Qed.
End facts.

(** *** The dataset *)

Definition data_room : Room := loop_room recovery_key 100000 64.

Lemma recovery_key_inj i j : 0 <= i < 100000 → 0 <= j < 100000 → recovery_key i = recovery_key j → i = j.
Proof. intros Hi Hj. apply named_inj; lia. Qed.

Lemma recovery_lengths i :
  0 <= i < 100000 →
  zlen (recovery_key i) <= 64 ∧ zlen (recovery_value i) <= 64 ∧ zlen (updated_value i) <= 64.
Proof.
  intros Hi. assert (zlen (show i) <= 17) by (apply show_length; lia).
  unfold recovery_key, recovery_value, updated_value. rewrite !zlen_app.
  change (zlen (str "recovery_key_")) with 13. change (zlen (str "recovery_value_")) with 15.
  change (zlen (str "_with_data")) with 10. change (zlen (str "updated_value_")) with 14. lia.
Qed.

Lemma data_room_bytes : room_bytes data_room = 6400000.
Proof. unfold data_room. rewrite loop_room_bytes by (done || apply recovery_key_inj). reflexivity. Qed.

Lemma data_room_size : Z.of_nat (base.size (room_keys data_room)) = 100000.
Proof. unfold data_room. rewrite loop_room_size by (done || apply recovery_key_inj). reflexivity. Qed.

Lemma data_room_keys k : k ∈ room_keys data_room → zlen k < 2 ^ 32.
Proof. unfold data_room. rewrite elem_of_loop_room. intros (i & Hi & ->). destruct (recovery_lengths i Hi). lia. Qed.

Lemma data_room_fits :
  0 <= room_value data_room < 2 ^ 32 ∧ room_bytes data_room <= LIMIT ∧ LIMIT + room_value data_room < 2 ^ 64
  ∧ Z.of_nat (base.size (room_keys data_room)) < 2 ^ 64.
Proof. rewrite data_room_bytes, data_room_size. done. Qed.

Lemma data_set i v : 0 <= i < 100000 → zlen v <= 64 → fitting data_room (Set_ (recovery_key i) (new_entry v 0)).
Proof. intros Hi Hv. exact (fitting_set recovery_key 100000 64 _ v (loop_key recovery_key 100000 64 i Hi) Hv). Qed.

Section data.
Context (num_keys : Z) (Hnum : 0 <= num_keys <= 100000).

Lemma dataset_fits : Forall (fitting data_room) (dataset num_keys) ∧ Forall plain_set (dataset num_keys).
Proof.
  split; apply Forall_fmap, Forall_forall; intros i Hi%elem_of_seqZ; [|by do 2 eexists].
  assert (0 <= i < 100000) as Hi' by lia. destruct (recovery_lengths i Hi') as (_ & Hl & _). exact (data_set i _ Hi' Hl).
Qed.

Lemma updates_fit : Forall (fitting data_room) (updates num_keys) ∧ Forall plain_set (updates num_keys).
Proof.
  split; apply Forall_fmap, Forall_forall; intros i Hi%elem_of_seqZ; [|by do 2 eexists].
  assert (0 <= i < 100000) as Hi' by zmod. destruct (recovery_lengths i Hi') as (_ & _ & Hl). exact (data_set i _ Hi' Hl).
Qed.

(** What is to be recovered. *)
Definition expected (i : Z) : bytes :=
  if (100 <=? num_keys) && (num_keys / 2 <=? i) then updated_value i else recovery_value i.

Lemma dataset_stores k v :
  store_all ∅ (dataset num_keys) !! k = Some v ↔
  ∃ i, 0 <= i < num_keys ∧ k = recovery_key i ∧ v = recovery_value i.
Proof.
  unfold dataset. rewrite store_all_sets by lia. split.
  - intros [(i & Hi & <- & <- & _)|[? _]]; [|done]. exists i. split_and!; [lia..|done|done].
  - intros (i & Hi & -> & ->). left. exists i. split_and!; [lia..|done|done|].
    intros j Hj E%recovery_key_inj; lia.
Qed.

Lemma updates_store k v :
  store_all (store_all ∅ (dataset num_keys)) (updates num_keys) !! k = Some v ↔
  ∃ i, 0 <= i < num_keys ∧ k = recovery_key i
       ∧ v = if num_keys / 2 <=? i then updated_value i else recovery_value i.
Proof.
  unfold updates. rewrite store_all_sets by zmod. rewrite dataset_stores. split.
  - intros [(i & Hi & <- & <- & _)|[(i & Hi & -> & ->) Hno]]; exists i.
    + split_and!; [zmod..|done|]. by rewrite (proj2 (Z.leb_le _ _)) by lia.
    + split_and!; [lia..|done|]. rewrite (proj2 (Z.leb_gt _ _)); [done|]. apply Z.nle_gt. intros Hle. apply (Hno i); [lia|done].
  - intros (i & Hi & -> & ->). destruct (Z.leb_spec (num_keys / 2) i); [left|right].
    + exists i. split_and!; [lia..|done|done|]. intros j Hj E%recovery_key_inj; zmod.
    + split; [exists i; done|]. intros j Hj E%recovery_key_inj; zmod.
Qed.
End data.

(** *** Recovery *)

Lemma paths_differ : wal_path ≠ [] ∧ wal_path ≠ snapshot_path.
Proof. done. Qed.

(** The sets the log holds in the end. *)
Definition logged_sets (num_keys : Z) : list request :=
  if 100 <=? num_keys then updates num_keys else dataset num_keys.

Lemma logged_sets_length num_keys :
  0 <= num_keys <= 100000 →
  zlen (logged_sets num_keys) = if 100 <=? num_keys then num_keys - num_keys / 2 else num_keys.
Proof.
  intros Hn. unfold logged_sets. destruct (100 <=? num_keys); unfold zlen, updates, dataset; rewrite length_fmap, length_seqZ; zmod.
Qed.

#[local] Opaque dataset updates data_room.

Section recovery.
Context {H : Type} `{!LFU.PriorityQueue H}.
Abbreviation Table := (HashTable (TablePolicy H)).
Implicit Types t : Table.
Context (d : Disk) (Hwal : wal_path ∉ denied d) (Hsnap : snapshot_path ∉ denied d).

(** A table of the workload whose log is [rs], over a disk with the snapshot
    file [f]. *)
Definition ready (rs : list WALRecord) (f : option bytes) (t : Table) : Prop :=
  good LIMIT t ∧ small data_room (contents t) ∧ logged wal_path rs t ∧ wal_path_ t = wal_path
  ∧ denied (disk t) = denied d ∧ files (disk t) !! snapshot_path = f.

Lemma ready_start :
  ∃ t, make_table 256 (make_policy (H := H) KindLRU LIMIT) wal_path (remove_file snapshot_path (remove_file wal_path d)) = Some t
  ∧ ready [] None t ∧ contents t = ∅.
Proof.
  destruct paths_differ as [Hne Hdiff]. set (d0 := remove_file snapshot_path (remove_file wal_path d)).
  destruct (make_table_some (P := TablePolicy H) 256 (make_policy KindLRU LIMIT) wal_path d0 Hwal) as [t Ht].
  assert (0 <= 256 <= 2 ^ 63) as Hcap by lia.
  destruct (make_table_good (H := H) 256 KindLRU LIMIT wal_path d0 t Hcap Ht) as [Hg Hc].
  assert (contents_of d0 wal_path = []) as Hnew.
  { unfold d0, contents_of, remove_file. cbn [files]. by rewrite lookup_delete_ne, lookup_delete_eq by congruence. }
  destruct (fresh_logged 256 _ wal_path d0 t Hne Hnew Ht) as (Hlog & Hp & Hden & Hother).
  exists t. split; [exact Ht|]. split; [|exact Hc]. unfold ready. rewrite Hc.
  split_and!; [exact Hg|apply small_empty|exact Hlog|exact Hp|by rewrite Hden|].
  rewrite Hother by congruence. unfold d0, remove_file. cbn [files]. apply lookup_delete_eq.
Qed.

Lemma ready_flush rs f t : ready rs f t → ready rs f (flush_wal t) ∧ contents (flush_wal t) = contents t.
Proof.
  intros (Hg & Hs & Hl & Hp & Hd & Hf). pose proof (flush_wal_same t) as Hsame.
  pose proof (same_data_contents _ _ Hsame) as Hc. split; [|exact Hc]. unfold ready. rewrite Hc.
  destruct (flush_apart snapshot_path (disk t) t (apart_self snapshot_path wal_path (proj2 paths_differ) rs t Hl)) as (Hf' & Hd' & _).
  split_and!; [exact (good_same _ _ _ Hsame Hg)|exact Hs|by apply flush_logged| |congruence|congruence].
  unfold flush_wal. destruct (wal_writer_ t); [|done]. by destruct (flush _).
Qed.

Lemma ready_loop rs f qs t :
  ready rs f t → Forall (fitting data_room) qs →
  ready (rs ++ omap record_of qs) f (serve_all qs t).2
  ∧ value <$> contents (serve_all qs t).2 = store_all (value <$> contents t) qs.
Proof.
  intros (Hg & Hs & Hl & Hp & Hd & Hf) Hq. destruct data_room_fits as ((H1 & _) & H2 & H3 & _).
  destruct (serve_all_fitting data_room LIMIT H1 H2 H3 qs t Hg Hs Hq) as (Hg' & Hs' & Hm & _). split; [|exact Hm].
  pose proof (serve_all_logged data_room LIMIT wal_path rs qs t H1 H2 H3 Hg Hs Hq Hl) as Hl'.
  destruct (serve_all_apart snapshot_path (disk t) qs t (apart_self snapshot_path wal_path (proj2 paths_differ) rs t Hl)) as (Hf' & Hd' & _).
  exact (conj Hg' (conj Hs' (conj Hl' (conj (serve_all_wal_path _ qs t Hp) (conj (eq_trans Hd' Hd) (eq_trans Hf' Hf)))))).
Qed.

Lemma ready_checkpoint rs f t :
  ready rs f t →
  ∃ t1 t2, create_snapshot snapshot_path t = Some (true, t1) ∧ truncate_wal t1 = Some t2
  ∧ ready [] (Some (image t)) t2 ∧ contents t2 = contents t.
Proof.
  intros (Hg & Hs & Hl & Hp & Hd & Hf). destruct paths_differ as [Hne Hdiff].
  destruct (create_snapshot_some snapshot_path t) as [t1 Ht1]; [by rewrite Hd|].
  pose proof Ht1 as (_ & [= E])%create_snapshot_file. fold (image t) in E.
  pose proof (set_file_logged snapshot_path wal_path rs (image t) t Hdiff Hl) as Hl1. rewrite <- E in Hl1.
  assert (wal_path_ t1 = wal_path) as Hp1 by (by rewrite E).
  destruct (truncate_some wal_path rs t1 Hne Hl1 Hp1) as [t2 Ht2]. exists t1, t2.
  destruct (truncate_wal_spec snapshot_path wal_path Hne Hdiff t1 t2 rs Hl1 Hp1 Ht2) as (Hc2 & _ & Hl2 & Hp2 & Hf2 & Hd2 & _).
  assert (contents t1 = contents t ∧ same_data t1 t) as [Hc1 Hsame1] by (by rewrite E).
  split; [exact Ht1|]. split; [exact Ht2|]. unfold ready. rewrite Hc2, Hc1. split; [|reflexivity].
  split_and!; [|exact Hs|exact Hl2|exact Hp2|by rewrite Hd2, E|].
  - apply (good_same LIMIT t1); [by apply truncate_same|]. exact (good_same LIMIT t t1 Hsame1 Hg).
  - rewrite Hf2, E. cbn [disk set_disk files set_file]. apply lookup_insert_eq.
Qed.

(** What the snapshot of the dataset holds. *)
Definition saved (num_keys : Z) : gmap bytes bytes :=
  if 100 <=? num_keys then store_all ∅ (dataset num_keys) else ∅.

Definition snapshot_of (d' : Disk) (m : gmap bytes bytes) : Prop :=
  (files d' !! snapshot_path = None ∧ m = ∅)
  ∨ ∃ s : Table, files d' !! snapshot_path = Some (image s) ∧ ht_inv s ∧ small data_room (contents s)
      ∧ value <$> contents s = m.

Lemma dataset_disk num_keys :
  0 <= num_keys <= 100000 →
  ∃ d', create_dataset (H := H) num_keys d = Some d' ∧ denied d' = denied d
  ∧ files d' !! wal_path = Some (encode_all (omap record_of (logged_sets num_keys)))
  ∧ snapshot_of d' (saved num_keys).
Proof.
  intros Hn. destruct (dataset_fits num_keys Hn) as [Hfit _]. destruct (updates_fit num_keys Hn) as [Hfit' _].
  destruct ready_start as (t0 & Ht0 & Hr0 & Hc0). unfold create_dataset. rewrite Ht0. cbn [mbind option_bind].
  destruct (ready_loop _ _ _ _ Hr0 Hfit) as [Hr1 Hm1]. destruct (ready_flush _ _ _ Hr1) as [Hr2 Hc2].
  rewrite Hc0, fmap_empty, <- Hc2 in Hm1. unfold logged_sets, saved. revert Hr2 Hm1.
  generalize (flush_wal (serve_all (dataset num_keys) t0).2). intros t2 Hr2 Hm1.
  destruct (100 <=? num_keys); cbn [mbind option_bind].
  - destruct (ready_checkpoint _ _ _ Hr2) as (t3 & t4 & -> & Ht4 & Hr4 & Hc4). cbn [mbind option_bind]. rewrite Ht4.
    cbn [mbind option_bind]. destruct (ready_loop _ _ _ _ Hr4 Hfit') as [Hr5 _]. destruct (ready_flush _ _ _ Hr5) as [Hr6 _].
    pose proof (ready_flush _ _ _ Hr6) as [(_ & _ & _ & _ & Hd & Hf) _]. destruct Hr6 as (_ & _ & Hl & _).
    eexists. split; [reflexivity|]. split; [exact Hd|]. split; [exact (proj1 (flush_wal_file _ _ _ Hl))|].
    right. exists t2. destruct Hr2 as ((Hi & _) & Hs & _). exact (conj Hf (conj Hi (conj Hs Hm1))).
  - pose proof (ready_flush _ _ _ Hr2) as [(_ & _ & _ & _ & Hd & Hf) _]. destruct Hr2 as (_ & _ & Hl & _).
    eexists. split; [reflexivity|]. split; [exact Hd|]. split; [exact (proj1 (flush_wal_file _ _ _ Hl))|].
    left. exact (conj Hf eq_refl).
Qed.

Lemma logged_sets_fit num_keys :
  0 <= num_keys <= 100000 → Forall (fitting data_room) (logged_sets num_keys) ∧ Forall plain_set (logged_sets num_keys).
Proof. intros Hn. unfold logged_sets. destruct (100 <=? num_keys); [by apply updates_fit|by apply dataset_fits]. Qed.

Lemma recovered_map num_keys k v :
  0 <= num_keys <= 100000 →
  store_all (saved num_keys) (logged_sets num_keys) !! k = Some v ↔
  ∃ i, 0 <= i < num_keys ∧ k = recovery_key i ∧ v = expected num_keys i.
Proof.
  intros Hn. unfold saved, logged_sets, expected. destruct (100 <=? num_keys); cbn [andb].
  - exact (updates_store num_keys Hn k v).
  - exact (dataset_stores num_keys Hn k v).
Qed.

Lemma recover_disk fuel junk clock d' m qs (r : Table) :
  no_log d' r → good LIMIT r → contents r = ∅ → denied d' = denied d → snapshot_of d' m →
  files d' !! wal_path = Some (encode_all (omap record_of qs)) →
  Forall (fitting data_room) qs → Forall plain_set qs → (length (contents_of d' wal_path) < fuel)%nat →
  ∃ r', recover fuel junk clock snapshot_path wal_path r = ReplayDone (u64 (zlen qs)) r'
  ∧ value <$> contents r' = store_all m qs.
Proof.
  intros Hnl Hg Hc Hden Hsn Hf Hfit Hplain Hfuel. destruct data_room_fits as (H1 & H2 & H3 & H4).
  assert (wal_path ∉ denied d') as Hw' by (by rewrite Hden).
  unfold recover. rewrite (proj2 Hnl). destruct Hsn as [[Hn ->]|(s & Hs & Hsi & Hss & <-)].
  - rewrite decide_False by (rewrite Hn; by intros [? ?]).
    destruct (replay_fitting data_room LIMIT H1 H2 H3 data_room_keys fuel clock wal_path qs d' r Hnl Hf Hw' Hg)
      as (r' & Hr & Hm); [rewrite Hc; apply small_empty|exact Hfit|exact Hplain|exact Hfuel|].
    exists r'. split; [exact Hr|]. by rewrite Hm, Hc, fmap_empty.
  - rewrite decide_True by (rewrite Hs; eauto).
    destruct (load_fitting data_room LIMIT H1 H2 H3 data_room_keys H4 junk snapshot_path d' s r Hnl) as (r1 & -> & Hnl1 & Hg1 & Hc1);
      [by rewrite Hden|exact Hs|exact Hsi|exact Hss|exact Hg|exact Hc|].
    destruct (replay_fitting data_room LIMIT H1 H2 H3 data_room_keys fuel clock wal_path qs d' r1 Hnl1 Hf Hw' Hg1)
      as (r' & Hr & Hm); [rewrite Hc1; exact Hss|exact Hfit|exact Hplain|exact Hfuel|].
    exists r'. split; [exact Hr|]. by rewrite Hm, Hc1.
Qed.

(** C22: The recovery benchmark recovers its dataset. For every number of keys up
    to a hundred thousand, on a disk where its two files can be written, the data is written, saved and updated without error;
    and loading what is on disk into a new table of the same size ends, replays
    every set since the snapshot once, and restores exactly the keys, each with
    the value it was last given. *)
Theorem benchmark_recovers_dataset num_keys :
  0 <= num_keys <= 100000 →
  ∃ d', create_dataset (H := H) num_keys d = Some d'
  ∧ ∀ fuel junk clock, (length (contents_of d' wal_path) < fuel)%nat →
    ∃ n r, recover_dataset (H := H) fuel junk clock d' = Some (ReplayDone n r)
    ∧ n = (if 100 <=? num_keys then num_keys - num_keys / 2 else num_keys)
    ∧ ∀ k v, value <$> contents r !! k = Some v ↔
        ∃ i, 0 <= i < num_keys ∧ k = recovery_key i ∧ v = expected num_keys i.
Proof.
  intros Hn. destruct (dataset_disk num_keys Hn) as (d' & Hmk & Hden & Hf & Hsn). exists d'. split; [exact Hmk|].
  intros fuel junk clock Hfuel. unfold recover_dataset. destruct (logged_sets_fit num_keys Hn) as [Hfit Hplain].
  destruct (make_table 256 (make_policy (H := H) KindLRU LIMIT) [] d') as [r0|] eqn:E; [|done]. cbn [mbind option_bind].
  assert (0 <= 256 <= 2 ^ 63) as Hcap by lia. destruct (make_table_good (H := H) 256 KindLRU LIMIT [] d' r0 Hcap E) as [Hg Hc].
  destruct (recover_disk fuel junk clock d' _ (logged_sets num_keys) r0 (make_table_no_log _ _ _ _ E) Hg Hc Hden Hsn Hf Hfit Hplain Hfuel)
    as (r & -> & Hm).
  do 2 eexists. split; [reflexivity|]. split.
  - rewrite logged_sets_length by exact Hn. apply u64_small. destruct (100 <=? num_keys); zmod.
  - intros k v. rewrite <- lookup_fmap, Hm. by apply recovered_map.
Qed.
End recovery.
End Persistence.

(** ** Witnesses *)

Lemma persistence_same_answers_witness :
  ∃ answers t1 t2,
    Persistence.benchmark_no_wal (H := LFU.SortedQueue) (λ i, (i, i)) (λ i, i mod 100) empty_disk = Some (answers, t1)
  ∧ Persistence.benchmark_with_wal (H := LFU.SortedQueue) (λ i, (i, i)) (λ i, i mod 100) empty_disk = Some (answers, t2)
  ∧ answers_ok ∅ (zip (Persistence.operations (λ i, (i, i)) (λ i, i mod 100)) answers) ∧ contents t1 = contents t2
  ∧ contents_of (disk t2) Persistence.bench_wal
    = encode_all (omap record_of (Persistence.operations (λ i, (i, i)) (λ i, i mod 100))).
Proof.
  refine (Persistence.persistence_same_answers (H := LFU.SortedQueue) (λ i, (i, i)) (λ i, i mod 100) empty_disk _).
  cbn [denied empty_disk]. apply not_elem_of_empty.
Defined.

Lemma benchmark_recovers_dataset_witness :
  ∃ d', Persistence.create_dataset (H := LFU.SortedQueue) 1000 empty_disk = Some d'
  ∧ ∀ fuel junk clock, (length (contents_of d' Persistence.wal_path) < fuel)%nat →
    ∃ n r, Persistence.recover_dataset (H := LFU.SortedQueue) fuel junk clock d' = Some (ReplayDone n r)
    ∧ n = (if 100 <=? 1000 then 1000 - 1000 / 2 else 1000)
    ∧ ∀ k v, value <$> contents r !! k = Some v ↔
        ∃ i, 0 <= i < 1000 ∧ k = Persistence.recovery_key i ∧ v = Persistence.expected 1000 i.
Proof.
  refine (Persistence.benchmark_recovers_dataset (H := LFU.SortedQueue) empty_disk _ _ 1000 _).
  - cbn [denied empty_disk]. apply not_elem_of_empty.
  - cbn [denied empty_disk]. apply not_elem_of_empty.
  - lia.
Defined.
