(* ===== verification/BenchThreads.v ===== *)
(** * The benchmark with worker threads

    src/engine/bench/bench_multi_threaded.cpp: client threads that call an
    engine with worker threads and wait for each answer. The clients, the
    notifications and the workers interleave; a worker wakes only when it is
    notified. The run ends with the joins; the [stop] after them is that of
    Sharded.v, and need not return (ShardedFacts.v). *)

From S2P Require Import Prelude Files Wal Policy Lru Lfu Dispatch HashTable Store TableFacts Table Recovery.
From S2P Require Import Resp Protocol Shards Sharded ShardedFacts Workload Bench.

Import Single.

(** ** Clients *)

Inductive call := CGet (key : bytes) | CSet (key : bytes) (v : ValueEntry).

Definition event_of (c : call) : event := match c with CGet k => EGet k | CSet k v => ESet k v end.

(** What a call pushes. *)
Definition request_of (c : call) (id : nat) : Request :=
  match c with CGet k => mkRequest GET k None id | CSet k v => mkRequest SET k (Some v) id end.

Definition call_key (c : call) : bytes := match c with CGet k | CSet k _ => k end.

(** A thread: the calls it has still to make, and the call whose future it
    waits for. *)
Record Client := mkClient { todo : list call; in_call : option (call * nat) }.

Definition idle : Client := mkClient [] None.

#[global] Instance idle_dec cl : Decision (cl = idle).
Proof. destruct cl as [[|] [|]]; first [by left|by right]. Defined.

(** The loop before the threads, and the body of thread [t]. *)
Definition populate_calls : list call :=
  (λ i, CSet (generate_key i) (new_entry (generate_value i) 0)) <$> seqZ 0 KEY_SPACE.

Definition mixed_call (draw i : Z) : call :=
  if draw <? 80 then CGet (generate_key (i mod KEY_SPACE))
  else CSet (generate_key (i mod KEY_SPACE)) (new_entry (generate_value i) 0).

Definition thread_calls (num_threads : Z) (dist : Z → Z → Z) (t : Z) : list call :=
  let ops_per_thread := NUM_OPERATIONS / num_threads in
  (λ i, mixed_call (dist t i) (t * ops_per_thread + i)) <$> seqZ 0 ops_per_thread.

Definition thread_counts : list Z := [1; 2; 4; 8].

Section bench.
Context {H : Type} `{!LFU.PriorityQueue H}.
Abbreviation Engine := (ShardedEngine (H := H)).

(** The main thread is client 0; [got] are the results of the calls that have
    returned. *)
Record Run := mkRun { engine : Engine; clients : list Client; got : list (call * option ValueEntry) }.

Definition benchmark_sharded_mixed (num_threads : Z) (dist : Z → Z → Z) (d : Disk) : option Run :=
  engine ← make_sharded (Z.to_nat num_threads) LIMIT KindLRU d;
  engine ← start engine;
  Some (mkRun engine (mkClient populate_calls None
                      :: ((λ t, mkClient (thread_calls num_threads dist t) None) <$> seqZ 0 num_threads)) []).

(** The threads are launched when the main thread has filled the engine. *)
Inductive run_step (b : Run) : Run → Prop :=
| step_call i c cs s' :
    clients b !! i = Some (mkClient (c :: cs) None) → (i = 0%nat ∨ clients b !! 0%nat = Some idle) →
    exec (event_of c) (engine b) = Some s' →
    run_step b (mkRun s' (<[i := mkClient cs (Some (c, length (submitted (engine b))))]> (clients b)) (got b))
| step_return i cs c id v :
    clients b !! i = Some (mkClient cs (Some (c, id))) → promises (engine b) !! id = Some v →
    run_step b (mkRun (engine b) (<[i := mkClient cs None]> (clients b)) (got b ++ [(c, v)]))
| step_notify i s' :
    notify i (engine b) = Some s' → run_step b (mkRun s' (clients b) (got b))
| step_worker i now s' :
    worker_step i now (engine b) = Some s' → run_step b (mkRun s' (clients b) (got b)).

(** Every thread has been joined. *)
Definition finished (b : Run) : Prop := Forall (λ cl, cl = idle) (clients b).

(** ** Lists *)

Lemma prefix_before {A} (x : A) l1 l2 l3 l4 : l1 ++ x :: l2 = l3 ++ l4 → x ∉ l3 → ∃ l, l1 = l3 ++ l.
Proof.
  revert l1. induction l3 as [|y l3 IH]; intros l1 E Hx; [by exists l1|].
  destruct l1 as [|z l1]; simplify_eq/=; [set_solver|].
  destruct (IH l1) as [l ->]; [done|set_solver|]. by exists l.
Qed.

Lemma sum_update {A} (f : A → nat) l i x y :
  l !! i = Some x → (sum_list (f <$> <[i := y]> l) + f x = sum_list (f <$> l) + f y)%nat.
Proof.
  revert i. induction l as [|z l IH]; intros [|i] Hi; [done|done| |].
  - injection Hi as ->. change (f y + sum_list (f <$> l) + f x = f x + sum_list (f <$> l) + f y)%nat. lia.
  - specialize (IH i Hi).
    change (f z + sum_list (f <$> <[i := y]> l) + f x = f z + sum_list (f <$> l) + f y)%nat. lia.
Qed.

(** ** Every run ends

    A call still to be made counts for the request it pushes, the notification
    and the wait; a request and a notification for the steps of the worker they
    lead to. *)

Definition worker_weight (w : Worker) : nat :=
  match w with Asleep | Exited => 0 | Presleep => 1 | Locked => 2 | Top => 3 | Busy _ => 4 end.

Definition client_weight (cl : Client) : nat :=
  8 * length (todo cl) + match in_call cl with Some _ => 1 | None => 0 end.

Definition engine_weight (s : Engine) : nat :=
  3 * length (notifying s) + 3 * sum_list (length <$> request_queues_ s) + sum_list (worker_weight <$> workers s).

Definition weight (b : Run) : nat := engine_weight (engine b) + sum_list (client_weight <$> clients b).

Lemma take_out_length i l rest : take_out i l = Some rest → length l = S (length rest).
Proof.
  revert rest. induction l as [|j l IH]; intros rest; simpl; [done|]. case_decide; [by intros [= <-]|].
  intros (r & Hr & ->)%fmap_Some. simpl. by rewrite (IH r).
Qed.

Lemma worker_update i w w' (s : Engine) :
  length (workers s) = num_shards_ s → (i < num_shards_ s)%nat → worker s i = w' →
  (sum_list (worker_weight <$> <[i := w]> (workers s)) + worker_weight w'
   = sum_list (worker_weight <$> workers s) + worker_weight w)%nat.
Proof.
  intros Hl Hi Hw. unfold worker in Hw. destruct (lookup_lt_is_Some_2 (workers s) i) as [x Hx]; [lia|].
  rewrite Hx in Hw. simpl in Hw. subst x. by apply sum_update.
Qed.

Lemma enqueue_weight r (s s' : Engine) :
  inv s → (0 < num_shards_ s)%nat → enqueue r s = Some s' → engine_weight s' = (engine_weight s + 6)%nat.
Proof.
  intros Hinv Hn. unfold enqueue. destruct (holds_lock _); [done|]. intros [= <-].
  set (i := get_shard_id (num_shards_ s) (req_key r)).
  assert (i < num_shards_ s)%nat as Hi by (by apply (route_lt (Router := fnv_router (num_shards_ s)))).
  destruct (lookup_lt_is_Some_2 (request_queues_ s) i) as [q Hq]; [by rewrite (inv_queues s Hinv)|].
  unfold engine_weight, queue. cbn [notifying request_queues_ workers]. rewrite Hq. cbn [from_option id].
  pose proof (sum_update length (request_queues_ s) i q (q ++ [r]) Hq) as E.
  rewrite !length_app in *. simpl length in *. lia.
Qed.

Lemma notify_weight i (s s' : Engine) :
  inv s → notify i s = Some s' → (engine_weight s' < engine_weight s)%nat.
Proof.
  intros Hinv. unfold notify. destruct (take_out i (notifying s)) as [rest|] eqn:E; [|done]. intros [= <-].
  apply take_out_length in E. unfold engine_weight. cbn [notifying request_queues_ workers].
  destruct (decide (worker s i = Asleep)) as [Ha|]; [|lia].
  assert (i < num_shards_ s)%nat by (apply worker_lt; [apply Hinv|by rewrite Ha]).
  pose proof (worker_update i Locked Asleep s (inv_workers s Hinv) ltac:(done) Ha). simpl in *. lia.
Qed.

Lemma worker_step_weight i now (s s' : Engine) :
  inv s → running_ s = true → worker_step i now s = Some s' → (engine_weight s' < engine_weight s)%nat.
Proof.
  intros Hinv Hrun. unfold worker_step. destruct (worker s i) eqn:Hw; try done.
  all: assert (i < num_shards_ s)%nat as Hi by (apply worker_lt; [apply Hinv|by rewrite Hw]).
  all: pose proof (λ w, worker_update i w _ s (inv_workers s Hinv) Hi Hw) as Hu; unfold engine_weight.
  - rewrite Hrun. intros [= <-]. simpl. specialize (Hu Locked). simpl in Hu. lia.
  - destruct (queue s i) as [|r q] eqn:Hq.
    + rewrite Hrun. intros [= <-]. simpl. specialize (Hu Presleep). simpl in Hu. lia.
    + intros [= <-]. cbn [set_worker set_queue notifying request_queues_ workers]. specialize (Hu (Busy r)). simpl in Hu.
      unfold queue in Hq. destruct (request_queues_ s !! i) as [q'|] eqn:Hq'; [|done]. simpl in Hq. subst q'.
      pose proof (sum_update length (request_queues_ s) i _ q Hq') as E. simpl length in *. lia.
  - intros [= <-]. simpl. specialize (Hu Asleep). simpl in Hu. lia.
  - unfold finish. destruct (shards_ s !! i); [|done]. simpl. destruct (process_request _ _ _) as [[v t']|]; [|done].
    intros [= <-]. simpl. specialize (Hu Top). simpl in Hu. lia.
Qed.

(** ** What the engine has been asked *)

Definition call_ok (w : Room) (c : call) : Prop :=
  match c with CGet k => k ∈ room_keys w | CSet k v => small_entry w k v end.

Definition requests (cs : list call) : list Request := imap (λ id c, request_of c id) cs.

Lemma populate_calls_ok : Forall (call_ok room) populate_calls.
Proof.
  apply Forall_fmap, Forall_forall. intros i Hi%elem_of_seqZ. unfold KEY_SPACE in Hi.
  assert (0 <= i < 2 ^ 29) as Hi' by lia. refine (set_fits (generate_key i) i _ Hi').
  apply (loop_key generate_key KEY_SPACE 40). unfold KEY_SPACE. lia.
Qed.

Lemma populate_sets c : c ∈ populate_calls → ∃ k v, c = CSet k v.
Proof. intros (i & -> & _)%list_elem_of_fmap. by do 2 eexists. Qed.

(** A key of the workload is set by the main thread. *)
Lemma populate_key k : k ∈ room_keys room → ∃ v, CSet k v ∈ populate_calls.
Proof.
  intros (i & Hi & ->)%(elem_of_loop_room generate_key KEY_SPACE 40).
  exists (new_entry (generate_value i) 0). unfold populate_calls.
  apply (list_elem_of_fmap_2 (λ i, CSet (generate_key i) (new_entry (generate_value i) 0))).
  apply elem_of_seqZ. lia.
Qed.

Lemma elem_of_requests r cs : r ∈ requests cs → ∃ c id, c ∈ cs ∧ r = request_of c id.
Proof. intros (id & c & -> & Hc)%elem_of_lookup_imap. exists c, id. split; [by eapply list_elem_of_lookup_2|done]. Qed.

(** Requests are processed once. *)
Lemma logged_nodup (s0 s : Engine) :
  inv s0 → (0 < num_shards_ s0)%nat → log s0 = [] → rtc step s0 s → NoDup (logged s).
Proof.
  intros Hinv Hn Hlog Hs. assert (NoDup (logged s0)) as Hnd by (unfold logged; rewrite Hlog; constructor).
  clear Hlog. induction Hs as [s|s s1 s' [ev He] _ IH]; [done|].
  apply IH; [by eapply exec_inv|by rewrite (exec_num_shards _ _ _ He)|].
  destruct (exec_quiet _ _ _ He) as [[E _]|(i & r & now & Hw & Hf)]; [unfold logged; by rewrite E|].
  destruct (in_hand_fresh i r s Hinv Hw) as (_ & _ & Hfresh).
  unfold finish in Hf. destruct (shards_ s !! i); [|done]. simpl in Hf. destruct (process_request _ _ _) as [[v t']|]; [|done].
  injection Hf as <-. unfold logged. simpl. rewrite fmap_app. apply NoDup_app. split_and!; [done| |apply NoDup_singleton].
  intros r' Hr' ->%list_elem_of_singleton. by apply (Hfresh r).
Qed.

Lemma logged_bytes_sum (l : list (Request * (Z * Z) * option ValueEntry)) L :
  Forall (λ x, set_bytes x.1.1 <= L) l → logged_bytes l <= L * zlen l.
Proof.
  unfold logged_bytes. induction 1 as [|x l Hx _ IH]; simpl; [unfold zlen; simpl; lia|]. rewrite zlen_cons. lia.
Qed.

(** *** Steps of the engine *)

Definition frame (s s' : Engine) : Prop :=
  running_ s' = running_ s ∧ ∀ id, is_Some (promises s !! id) → is_Some (promises s' !! id).

Lemma notify_frame i (s s' : Engine) : notify i s = Some s' → submitted s' = submitted s ∧ frame s s'.
Proof. unfold notify, frame. destruct (take_out _ _); [|done]. by intros [= <-]. Qed.

Lemma worker_frame i now (s s' : Engine) : worker_step i now s = Some s' → submitted s' = submitted s ∧ frame s s'.
Proof.
  unfold worker_step, frame. destruct (worker s i); try done; [by intros [= <-]|destruct (queue s i); by intros [= <-]|by intros [= <-]|].
  unfold finish. destruct (shards_ s !! i); [|done]. simpl. destruct (process_request _ _ _) as [[v t']|]; [|done].
  intros [= <-]. simpl. split_and!; [done|done|]. intros id Hid. rewrite lookup_insert. case_decide; eauto.
Qed.

Lemma call_frame c (s s' : Engine) :
  exec (event_of c) s = Some s' →
  submitted s' = submitted s ++ [request_of c (length (submitted s))] ∧ frame s s'.
Proof.
  unfold frame. destruct c; cbn [event_of exec request_of]; unfold call_get, call_set, enqueue;
    destruct (holds_lock _); try done; by intros [= <-].
Qed.

(** A main thread that sets the keys of the workload, and nothing else. *)
Section main.
Context (w : Room) (pop : list call) (Hok : Forall (call_ok w) pop) (Hsets : ∀ c, c ∈ pop → ∃ k v, c = CSet k v).
Context (Hkeys : ∀ k, k ∈ room_keys w → ∃ v, CSet k v ∈ pop).

(** The calls of the main thread come first; [rest] are those of the others. *)
Record asked (s : Engine) (left : list call) (rest : list call) : Prop := {
  asked_calls : ∃ dn, submitted s = requests (dn ++ rest) ∧ dn ++ left = pop;
  asked_order : rest = [] ∨ left = [];
  asked_rest : Forall (call_ok w) rest;
}.

Lemma asked_ok s left rest r : asked s left rest → r ∈ submitted s → ∃ c id, call_ok w c ∧ r = request_of c id.
Proof.
  intros [(dn & -> & Hpop) _ Hrest] (c & id & Hc & ->)%elem_of_requests. exists c, id. split; [|done].
  pose proof Hok as Hp. rewrite <- Hpop in Hp. apply Forall_app in Hp as [Hd _].
  apply elem_of_app in Hc as [Hc|Hc]; [by eapply Forall_forall in Hd|by eapply Forall_forall in Hrest].
Qed.

(** A processed get comes after the set of its key. *)
Lemma set_before_get s left rest l1 k id now v l2 :
  inv s → asked s left rest → log s = l1 ++ (request_of (CGet k) id, now, v) :: l2 → k ∈ room_keys w →
  ∃ v0 id0, request_of (CSet k v0) id0 ∈ (λ x, x.1.1) <$> l1.
Proof.
  intros Hinv [(dn & Hsub & Hpop) Hord _] Hlog Hk.
  set (n := num_shards_ s). set (i := get_shard_id n k). pose proof (inv_order s Hinv i) as Ho. fold n in Ho.
  unfold logged in Ho. rewrite Hlog, fmap_app, fmap_cons in Ho. cbn [fst] in Ho. unfold for_shard in Ho.
  rewrite filter_app, filter_cons_True in Ho by done. rewrite <- app_assoc in Ho. cbn [app] in Ho.
  rewrite Hsub in Ho. unfold requests in Ho. rewrite imap_app, filter_app in Ho.
  assert (rest ≠ [] ∧ left = []) as [Hne ->].
  { assert (request_of (CGet k) id ∈ submitted s) as Hin.
    { apply (inv_logged s Hinv). unfold logged. rewrite Hlog, fmap_app, fmap_cons. apply elem_of_app. right. left. }
    rewrite Hsub in Hin. apply elem_of_requests in Hin as (c & id' & Hc & E).
    assert (c = CGet k) as -> by (destruct c; by simplify_eq).
    apply elem_of_app in Hc as [Hc|Hc]; [|destruct Hord as [->|]; [by apply not_elem_of_nil in Hc|by destruct rest; [apply not_elem_of_nil in Hc|]]].
    exfalso. destruct (Hsets (CGet k)) as (? & ? & ?); [|done]. rewrite <- Hpop. apply elem_of_app. by left. }
  rewrite app_nil_r in Hpop. subst dn. clear Hord Hne. apply prefix_before in Ho as [l El].
  - destruct (Hkeys k Hk) as [v0 [id0 Hid]%list_elem_of_lookup_1]. exists v0, id0.
    assert (request_of (CSet k v0) id0 ∈ filter (λ r, get_shard_id n (req_key r) = i) (requests pop)) as Hin.
    { apply list_elem_of_filter. split; [done|]. apply elem_of_lookup_imap. eauto. }
    unfold requests in Hin. apply (list_elem_of_filter (λ r, get_shard_id n (req_key r) = i)).
    rewrite El. apply elem_of_app. by left.
  - intros [_ (c & id' & Hc & E)%elem_of_requests]%list_elem_of_filter. by apply Hsets in Hc as (? & ? & ->).
Qed.

Context (limit : Z) (Hw : 0 <= room_value w) (Hlim : room_bytes w <= limit).

Lemma asked_fits s left rest r now q :
  asked s left rest → r ∈ submitted s → as_request r now = Some q → removes q = false ∧ fitting w q.
Proof.
  intros Ha Hr Hq. destruct (asked_ok s left rest r Ha Hr) as (c & id & Hc & ->). by destruct c; injection Hq as <-.
Qed.

Lemma asked_bytes s0 s left rest :
  inv s0 → (0 < num_shards_ s0)%nat → log s0 = [] → rtc step s0 s → asked s left rest →
  logged_bytes (log s) <= room_value w * zlen (submitted s).
Proof.
  intros Hinv0 Hn Hl0 Hs Ha. destruct (sharded_reachable_inv s0 s Hinv0 Hn Hs) as [Hinv _].
  pose proof (logged_nodup s0 s Hinv0 Hn Hl0 Hs) as Hnd. pose proof (inv_logged s Hinv) as Hsub.
  etrans; [apply (logged_bytes_sum _ (room_value w))|].
  - apply Forall_forall. intros [[r now] v] Hin. simpl.
    assert (r ∈ submitted s) as Hr by (apply Hsub; unfold logged; by apply (list_elem_of_fmap_2 (λ x, x.1.1)) in Hin).
    destruct (asked_ok s left rest r Ha Hr) as (c & id & Hc & ->). destruct c as [k|k e]; [done|]. by destruct Hc as (_ & ? & _).
  - apply Z.mul_le_mono_nonneg_l; [done|]. unfold zlen. apply inj_le.
    rewrite <- (length_fmap (λ x, x.1.1) (log s)). by apply submseteq_length, NoDup_submseteq.
Qed.

(** The run of the specification behind a reachable state. *)
Lemma asked_run s0 s left rest :
  inv s0 → (0 < num_shards_ s0)%nat → log s0 = [] → served limit s0 → rtc step s0 s → asked s left rest →
  room_value w * zlen (submitted s) < 2 ^ 64 →
  ∃ tr, Forall2 answers (log s) tr ∧ Forall (λ q, removes q = false ∧ fitting w q) tr.*1
  ∧ small w (shards_map (shards_ s)) ∧ value <$> shards_map (shards_ s) = store_all ∅ tr.*1 ∧ answers_ok ∅ tr.
Proof.
  intros Hinv0 Hn Hl0 Hserved Hs Ha Hb. destruct (sharded_reachable_inv s0 s Hinv0 Hn Hs) as [Hinv En].
  pose proof (asked_bytes s0 s left rest Hinv0 Hn Hl0 Hs Ha) as Hbytes.
  assert (0 <= limit) as Hl by (unfold room_bytes in Hlim; nia).
  destruct (reachable_served limit s0 s Hl Hinv0 Hn Hs ltac:(lia) Hserved) as [_ (tr & Htr & Hrun) _].
  assert (Forall (λ q, removes q = false ∧ fitting w q) tr.*1) as Hfit.
  { apply Forall_fmap, Forall_forall. intros qa Hin. apply list_elem_of_lookup_1 in Hin as [j Hj].
    destruct (Forall2_lookup_r _ _ _ _ _ Htr Hj) as ([[r now] v] & Hlog & Hq & _). simpl in Hq.
    apply (asked_fits s left rest r now qa.1 Ha); [|exact Hq]. apply (inv_logged s Hinv). unfold logged.
    apply (list_elem_of_fmap_2 (λ x, x.1.1) (log s) (r, now, v)). by eapply list_elem_of_lookup_2. }
  exists tr. split; [exact Htr|]. split; [exact Hfit|].
  destruct (fitting_run w limit Hw Hlim _ _ _ Hrun (small_empty w)) as (Hsm & Hm & Hans).
  { eapply Forall_impl; [exact Hfit|]. by intros q [_ ?]. }
  rewrite fmap_empty in Hm, Hans. done.
Qed.

(** Every get that was processed found its key. *)
Lemma get_found s0 s left rest k id now v :
  inv s0 → (0 < num_shards_ s0)%nat → log s0 = [] → served limit s0 → rtc step s0 s → asked s left rest →
  room_value w * zlen (submitted s) < 2 ^ 64 → (request_of (CGet k) id, now, v) ∈ log s → is_Some v.
Proof.
  intros Hinv0 Hn Hl0 Hserved Hs Ha Hb (l1 & l2 & Hlog)%list_elem_of_split.
  destruct (sharded_reachable_inv s0 s Hinv0 Hn Hs) as [Hinv _].
  destruct (asked_run s0 s left rest Hinv0 Hn Hl0 Hserved Hs Ha Hb) as (tr & Htr & Hfit & _ & _ & Hans).
  assert (k ∈ room_keys w) as Hk.
  { assert (request_of (CGet k) id ∈ submitted s) as Hin.
    { apply (inv_logged s Hinv). unfold logged. rewrite Hlog, fmap_app, fmap_cons. apply elem_of_app. right. left. }
    destruct (asked_ok s left rest _ Ha Hin) as (c & id' & Hc & E). by destruct c; simplify_eq. }
  destruct (set_before_get s left rest l1 k id now v l2 Hinv Ha Hlog Hk) as (v0 & id0 & Hin).
  rewrite Hlog in Htr. apply Forall2_app_inv_l in Htr as (tr1 & tr2' & Htr1 & Htr2 & ->).
  apply Forall2_cons_inv_l in Htr2 as ([q a] & tr2 & [Hq Hv] & _ & ->). simpl in Hq, Hv. injection Hq as <-.
  apply answers_ok_app in Hans as [_ [Hans1 _]]. rewrite fmap_app in Hfit. apply Forall_app in Hfit as [Hfit1 _].
  destruct (answer_hit _ _ _ _ _ Hans1) as [e ->]; [|subst v; by exists e].
  apply list_elem_of_fmap in Hin as (x & Hx & Hin). apply list_elem_of_lookup_1 in Hin as [j Hj].
  destruct (Forall2_lookup_l _ _ _ _ _ Htr1 Hj) as ([q0 a0] & Hj0 & Hq0 & _). rewrite <- Hx in Hq0. injection Hq0 as <-.
  apply (store_all_set _ _ k v0); [eapply Forall_impl; [exact Hfit1|]; by intros q [? _]|].
  apply (list_elem_of_fmap_2 fst tr1 (Set_ k v0, a0)). by eapply list_elem_of_lookup_2.
Qed.

(** ** The invariant of a run *)

Context (s1 : Engine) (Hinv1 : inv s1) (Hn1 : (0 < num_shards_ s1)%nat) (Hlog1 : log s1 = []).
Context (Hserved1 : served limit s1) (N : nat) (HN : room_value w * Z.of_nat N < 2 ^ 64).

Definition busy (cl : Client) : nat := match in_call cl with Some _ => 1 | None => 0 end.

Record run_ok (b : Run) : Prop := {
  ok_steps : rtc step s1 (engine b);
  ok_running : running_ (engine b) = true;
  ok_asked : ∃ m rest, clients b !! 0%nat = Some m ∧ asked (engine b) (todo m) rest;
  ok_threads i cl : clients b !! S i = Some cl → Forall (call_ok w) (todo cl);
  ok_pending i cl c id : clients b !! i = Some cl → in_call cl = Some (c, id) →
    submitted (engine b) !! id = Some (request_of c id);
  ok_calls : (length (submitted (engine b)) + sum_list ((λ cl, length (todo cl)) <$> clients b) = N)%nat;
  ok_returned : (length (got b) + sum_list (busy <$> clients b) = length (submitted (engine b)))%nat;
  ok_answered id : (id < length (submitted (engine b)))%nat →
    is_Some (promises (engine b) !! id) ∨ ∃ i cl c, clients b !! i = Some cl ∧ in_call cl = Some (c, id);
  ok_got k v : (CGet k, v) ∈ got b → is_Some v;
}.

(** A step of the engine alone. *)
Lemma engine_step_ok b s' :
  run_ok b → step (engine b) s' → submitted s' = submitted (engine b) → frame (engine b) s' →
  run_ok (mkRun s' (clients b) (got b)).
Proof.
  intros Hb Hs Hsub [Hrun Hpr]. split; cbn [engine clients got]; rewrite ?Hsub; try apply Hb.
  - eapply rtc_r; [apply Hb|exact Hs].
  - rewrite Hrun. apply Hb.
  - destruct (ok_asked b Hb) as (m & rest & Hm & [Hc Ho Hr]). exists m, rest. split; [done|]. split; [by rewrite Hsub|done..].
  - intros id Hid. destruct (ok_answered b Hb id Hid) as [?|?]; [left; auto|by right].
Qed.

Lemma asked_snoc s s' left c rest :
  asked s left rest → submitted s' = submitted s ++ [request_of c (length (submitted s))] → left = [] → call_ok w c →
  asked s' [] (rest ++ [c]).
Proof.
  intros [(dn & Hsub & Hpop) _ Hrest] Hs' -> Hc. split; [|by right|by apply Forall_app; split; [|constructor]].
  exists dn. split; [|exact Hpop]. rewrite Hs', Hsub. unfold requests.
  rewrite app_assoc, (imap_app _ _ [c]), length_imap. simpl. by rewrite Nat.add_0_r.
Qed.

Lemma asked_main s s' c left rest :
  asked s (c :: left) rest → submitted s' = submitted s ++ [request_of c (length (submitted s))] → asked s' left [].
Proof.
  intros [(dn & Hsub & Hpop) [->|?] _] Hs'; [|done]. rewrite app_nil_r in Hsub. split; [|by left|constructor].
  exists (dn ++ [c]). rewrite app_nil_r, <- app_assoc. split; [|exact Hpop]. rewrite Hs', Hsub. unfold requests.
  rewrite (imap_app _ _ [c]), length_imap. simpl. by rewrite Nat.add_0_r.
Qed.

(** A call: of the main thread, or of another when that one is done. *)
Lemma call_asked b i c cs s' :
  run_ok b → clients b !! i = Some (mkClient (c :: cs) None) → (i = 0%nat ∨ clients b !! 0%nat = Some idle) →
  submitted s' = submitted (engine b) ++ [request_of c (length (submitted (engine b)))] →
  ∃ m rest, <[i := mkClient cs (Some (c, length (submitted (engine b))))]> (clients b) !! 0%nat = Some m
  ∧ asked s' (todo m) rest.
Proof.
  intros Hb Hi Hmay Hsub. destruct (ok_asked b Hb) as (m & rest & Hm & Ha). destruct i as [|i].
  - rewrite Hm in Hi. injection Hi as ->. eexists _, []. split.
    { apply list_lookup_insert_eq. by eapply lookup_lt_Some. }
    exact (asked_main _ _ _ _ _ Ha Hsub).
  - destruct Hmay as [?|Hidle]; [done|]. rewrite Hidle in Hm. injection Hm as <-. exists idle, (rest ++ [c]). split.
    { by rewrite list_lookup_insert_ne. }
    apply (asked_snoc _ _ _ _ _ Ha Hsub eq_refl). by apply ok_threads in Hi as [? _]%Forall_cons.
Qed.

Lemma call_step_ok b i c cs s' :
  run_ok b → clients b !! i = Some (mkClient (c :: cs) None) → (i = 0%nat ∨ clients b !! 0%nat = Some idle) →
  exec (event_of c) (engine b) = Some s' →
  run_ok (mkRun s' (<[i := mkClient cs (Some (c, length (submitted (engine b))))]> (clients b)) (got b)).
Proof.
  intros Hb Hi Hmay He. destruct (call_frame c _ _ He) as (Hsub & Hrun & Hpr).
  set (cl' := mkClient cs _). pose proof (lookup_lt_Some _ _ _ Hi) as Hlt. split; cbn [engine clients got].
  - eapply rtc_r; [apply Hb|]. by exists (event_of c).
  - rewrite Hrun. apply Hb.
  - exact (call_asked b i c cs s' Hb Hi Hmay Hsub).
  - intros j cl. rewrite list_lookup_insert_Some. intros [(-> & <- & _)|[_ Hj]]; [|by eapply ok_threads].
    by apply ok_threads in Hi as [_ ?]%Forall_cons.
  - intros j cl c' id. rewrite Hsub, list_lookup_insert_Some. intros [(-> & <- & _)|[_ Hj]] Hc.
    + injection Hc as <- <-. rewrite lookup_app_r, Nat.sub_diag by done. done.
    + eapply lookup_app_l_Some, ok_pending; eauto.
  - pose proof (ok_calls b Hb). pose proof (sum_update (λ cl, length (todo cl)) _ i _ cl' Hi) as E.
    rewrite Hsub, length_app. cbn [todo length cl'] in *. lia.
  - pose proof (ok_returned b Hb). pose proof (sum_update busy _ i _ cl' Hi) as E.
    rewrite Hsub, length_app. unfold busy in E at 2 4. cbn [in_call length cl'] in *. lia.
  - intros id. rewrite Hsub, length_app. cbn [length]. intros Hid.
    destruct (decide (id = length (submitted (engine b)))) as [->|].
    + right. exists i, cl', c. split; [by apply list_lookup_insert_eq|done].
    + destruct (ok_answered b Hb id) as [?|(j & cl & c' & Hj & Hc)]; [lia|left; auto|].
      right. exists j, cl, c'. split; [|done]. rewrite list_lookup_insert_ne; [done|]. intros ->. rewrite Hi in Hj. by injection Hj as <-.
  - apply Hb.
Qed.

(** The answer that a future delivers is the processed one. *)
Lemma promise_logged b id r v :
  run_ok b → submitted (engine b) !! id = Some r → promise r = id → promises (engine b) !! id = Some v →
  ∃ now, (r, now, v) ∈ log (engine b).
Proof.
  intros Hb Hr Hid Hv. destruct (sharded_reachable_inv s1 _ Hinv1 Hn1 (ok_steps b Hb)) as [Hinv _].
  destruct (list_elem_of_fmap_1 _ _ _ (inv_only _ Hinv id ltac:(eauto))) as (r' & Hid' & Hr').
  apply list_elem_of_fmap in Hr' as ([[r'' now] v'] & -> & Hlog). cbn [fst] in *.
  assert (r'' ∈ submitted (engine b)) as [j Hj]%list_elem_of_lookup_1.
  { apply (inv_logged _ Hinv). unfold logged. by apply (list_elem_of_fmap_2 (λ x, x.1.1)) in Hlog. }
  assert (promise r'' = j) as Hpj.
  { pose proof (inv_promise _ Hinv) as Hp. apply (f_equal (λ l, l !! j)) in Hp. rewrite list_lookup_fmap, Hj in Hp.
    symmetry in Hp. by apply lookup_seq in Hp as [Hp _]. }
  assert (j = id) as -> by congruence. rewrite Hr in Hj. injection Hj as <-. exists now.
  pose proof (inv_kept _ Hinv _ _ _ Hlog) as Hk. rewrite Hid, Hv in Hk. by injection Hk as <-.
Qed.

Lemma return_step_ok b i cs c id v :
  run_ok b → clients b !! i = Some (mkClient cs (Some (c, id))) → promises (engine b) !! id = Some v →
  run_ok (mkRun (engine b) (<[i := mkClient cs None]> (clients b)) (got b ++ [(c, v)])).
Proof.
  intros Hb Hi Hv. set (cl' := mkClient cs None). split; cbn [engine clients got]; try apply Hb.
  - destruct (ok_asked b Hb) as (m & rest & Hm & Ha). destruct i as [|i].
    + rewrite Hm in Hi. injection Hi as ->. exists cl', rest. split; [|done].
      apply list_lookup_insert_eq. by eapply lookup_lt_Some.
    + exists m, rest. split; [|done]. by rewrite list_lookup_insert_ne.
  - intros j cl. rewrite list_lookup_insert_Some. intros [(-> & <- & _)|[_ Hj]]; [|by eapply ok_threads].
    by apply (ok_threads b Hb) in Hi.
  - intros j cl c' id'. rewrite list_lookup_insert_Some. intros [(-> & <- & _)|[_ Hj]] Hc; [done|]. by eapply ok_pending.
  - pose proof (ok_calls b Hb). pose proof (sum_update (λ cl, length (todo cl)) _ i _ cl' Hi) as E. cbn [todo cl'] in E. lia.
  - pose proof (ok_returned b Hb). pose proof (sum_update busy _ i _ cl' Hi) as E. rewrite length_app.
    unfold busy in E at 2 4. cbn [in_call length cl'] in *. lia.
  - intros id' Hid'. destruct (ok_answered b Hb id' Hid') as [?|(j & cl & c' & Hj & Hc)]; [by left|].
    destruct (decide (i = j)) as [<-|].
    + rewrite Hi in Hj. injection Hj as <-. injection Hc as <- <-. left. eauto.
    + right. exists j, cl, c'. by rewrite list_lookup_insert_ne.
  - intros k v' [Hin|Hin]%elem_of_app; [by eapply ok_got|]. apply list_elem_of_singleton in Hin as [= <- <-].
    pose proof (ok_pending b Hb i _ _ _ Hi eq_refl) as Hr. destruct (ok_asked b Hb) as (m & rest & _ & Ha).
    destruct (promise_logged b id _ v' Hb Hr eq_refl Hv) as [now Hlog].
    refine (get_found s1 (engine b) _ rest k id now v' Hinv1 Hn1 Hlog1 Hserved1 (ok_steps b Hb) Ha _ Hlog).
    pose proof (ok_calls b Hb). unfold zlen. nia.
Qed.

Lemma run_step_ok b b' : run_ok b → run_step b b' → run_ok b'.
Proof.
  intros Hb [i c cs s' Hi Hmay He|i cs c id v Hi Hv|i s' Hs|i now s' Hs].
  - by apply call_step_ok.
  - by eapply return_step_ok.
  - destruct (notify_frame i _ _ Hs). apply engine_step_ok; [done|by exists (ENotify i)|done..].
  - destruct (worker_frame i now _ _ Hs). apply engine_step_ok; [done|by exists (EWorker i now)|done..].
Qed.

(** Every step brings the end closer. *)
Lemma run_step_weight b b' : run_ok b → run_step b b' → (weight b' < weight b)%nat.
Proof.
  intros Hb Hs. destruct (sharded_reachable_inv s1 _ Hinv1 Hn1 (ok_steps b Hb)) as [Hinv En].
  destruct Hs as [i c cs s' Hi _ He|i cs c id v Hi _|i s' Hs|i now s' Hs]; unfold weight; cbn [engine clients].
  - assert (engine_weight s' = (engine_weight (engine b) + 6)%nat) as ->.
    { destruct c; cbn [event_of exec] in He; unfold call_get, call_set in He; eapply enqueue_weight; [exact Hinv|lia|exact He|exact Hinv|lia|exact He]. }
    pose proof (sum_update client_weight _ i _ (mkClient cs (Some (c, length (submitted (engine b))))) Hi) as E.
    unfold client_weight in E at 2 4. cbn [todo in_call length] in E. lia.
  - pose proof (sum_update client_weight _ i _ (mkClient cs None) Hi) as E.
    unfold client_weight in E at 2 4. cbn [todo in_call length] in E. lia.
  - pose proof (notify_weight i _ _ Hinv Hs). lia.
  - pose proof (worker_step_weight i now _ _ Hinv (ok_running b Hb) Hs). lia.
Qed.

(** Some thread can go on until all are done. *)
Lemma run_progress b : run_ok b → finished b ∨ ∃ b', run_step b b'.
Proof.
  intros Hb. destruct (sharded_reachable_inv s1 _ Hinv1 Hn1 (ok_steps b Hb)) as [Hinv En].
  assert (finished b ∨ ∃ i cl, clients b !! i = Some cl ∧ cl ≠ idle ∧ (i = 0%nat ∨ clients b !! 0%nat = Some idle)) as [?|(i & cl & Hi & Hne & Hmay)];
    [|by left|right].
  { destruct (ok_asked b Hb) as (m & _ & Hm & _).
    destruct (decide (m = idle)) as [->|].
    - destruct (decide (Forall (λ cl, cl = idle) (clients b))) as [?|Hex]; [by left|right].
      apply not_Forall_Exists, Exists_exists in Hex as (cl & [i Hi]%list_elem_of_lookup_1 & Hcl); [|apply _]. exists i, cl. eauto.
    - right. exists 0%nat, m. eauto. }
  destruct cl as [cs [[c id]|]].
  - pose proof (ok_pending b Hb i _ _ _ Hi eq_refl) as Hr.
    destruct (submitted_cases (request_of c id) _ Hinv) as [[v Hv]|(k & Hk & _)]; [by eapply list_elem_of_lookup_2| |].
    + replace (promise (request_of c id)) with id in Hv by (by destruct c). eexists. by eapply step_return.
    + apply waits_enabled in Hk as [Hk|(s' & Hk & _)]; [|by eexists; eapply step_notify|done|apply Hb|].
      * destruct (Hk (0, 0)) as [s' Hs']. eexists. by eapply step_worker.
      * apply (route_lt (Router := fnv_router _)). lia.
  - destruct cs as [|c cs]; [done|]. destruct (exec (event_of c) (engine b)) as [s'|] eqn:He.
    { eexists. by eapply step_call. }
    assert (∃ j, holds_lock (worker (engine b) j) = true) as [j Hj].
    { destruct c; cbn [event_of exec] in He; unfold call_get, call_set, enqueue in He; destruct (holds_lock _) eqn:E; eauto; done. }
    assert (is_Some (worker_step j (0, 0) (engine b))) as [s' Hs'].
    { unfold worker_step. destruct (worker (engine b) j); try done. destruct (queue _ j); by eexists. }
    eexists. by eapply step_worker.
Qed.

(** When all are done, every call has returned and the keys are all there. *)
Lemma finished_all b :
  run_ok b → finished b → length (got b) = N ∧ ∀ k, is_Some (shards_map (shards_ (engine b)) !! k) ↔ k ∈ room_keys w.
Proof.
  intros Hb Hf. destruct (sharded_reachable_inv s1 _ Hinv1 Hn1 (ok_steps b Hb)) as [Hinv En].
  assert (∀ f : Client → nat, f idle = 0%nat → sum_list (f <$> clients b) = 0%nat) as Hzero.
  { intros f Hf0. clear -Hf Hf0. induction Hf as [|cl cls -> _ IH]; [done|]. change (f idle + sum_list (f <$> cls) = 0)%nat. lia. }
  pose proof (ok_calls b Hb) as Hc. pose proof (ok_returned b Hb) as Hr. rewrite Hzero in Hc, Hr by done.
  split; [lia|]. intros k. destruct (ok_asked b Hb) as (m & rest & Hm & Ha).
  destruct (asked_run s1 (engine b) (todo m) rest Hinv1 Hn1 Hlog1 Hserved1 (ok_steps b Hb) Ha) as (tr & Htr & Hfit & Hsm & Hst & _).
  { unfold zlen. nia. }
  split; [intros [v Hv]; by apply (Hsm k v)|]. intros Hk. rewrite <- (fmap_is_Some value), <- lookup_fmap, Hst.
  pose proof (Forall_lookup_1 _ _ _ _ Hf Hm) as ->.
  destruct Ha as [(dn & Hsub & Hpop) _ _]. cbn [todo idle] in Hpop. rewrite app_nil_r in Hpop. subst dn.
  destruct (Hkeys k Hk) as (v0 & [id Hid]%list_elem_of_lookup_1).
  assert (submitted (engine b) !! id = Some (request_of (CSet k v0) id)) as Hid'.
  { rewrite Hsub. unfold requests. rewrite list_lookup_imap. erewrite lookup_app_l_Some by exact Hid. done. }
  destruct (ok_answered b Hb id) as [[v Hv]|(i & cl & c & Hi & Hcl)]; [by eapply lookup_lt_Some| |].
  - destruct (promise_logged b id _ v Hb Hid' eq_refl Hv) as [now [j Hj]%list_elem_of_lookup_1].
    destruct (Forall2_lookup_l _ _ _ _ _ Htr Hj) as ([q a] & Hq & Eq & _). injection Eq as <-.
    apply (store_all_set _ _ k v0); [eapply Forall_impl; [exact Hfit|]; by intros q [? _]|].
    apply (list_elem_of_fmap_2 fst tr (Set_ k v0, a)). by eapply list_elem_of_lookup_2.
  - rewrite (Forall_lookup_1 _ _ _ _ Hf Hi) in Hcl. done.
Qed.

Lemma initial_ok (threads : list (list call)) :
  submitted s1 = [] → running_ s1 = true → Forall (Forall (call_ok w)) threads →
  N = (length pop + sum_list (length <$> threads))%nat →
  run_ok (mkRun s1 (mkClient pop None :: ((λ cs, mkClient cs None) <$> threads)) []).
Proof.
  intros Hsub Hrun Hth HN'. split; cbn [engine clients got]; rewrite ?Hsub; try done.
  - exists (mkClient pop None), []. split; [done|]. split; [by exists []|by left|constructor].
  - intros i cl Hi. change (((λ cs, mkClient cs None) <$> threads) !! i = Some cl) in Hi.
    apply list_lookup_fmap_Some in Hi as (cs & -> & Hi). by eapply Forall_lookup_1 in Hth.
  - intros [|i] cl c id Hi Hc; [by injection Hi as <-|].
    change (((λ cs, mkClient cs None) <$> threads) !! i = Some cl) in Hi. by apply list_lookup_fmap_Some in Hi as (cs & -> & _).
  - rewrite HN', fmap_cons. cbn [todo length sum_list]. rewrite <- list_fmap_compose. reflexivity.
  - rewrite fmap_cons, <- list_fmap_compose. clear. induction threads as [|cs cls IH]; [done|exact IH].
  - cbn [length]. lia.
  - intros k v Hin. by apply not_elem_of_nil in Hin.
Qed.

Lemma run_all b0 b :
  run_ok b0 → rtc run_step b0 b →
  (∀ k v, (CGet k, v) ∈ got b → is_Some v)
  ∧ (finished b ∨ ∃ b', run_step b b')
  ∧ (∀ n b', nsteps run_step n b b' → (n ≤ weight b)%nat)
  ∧ (finished b → length (got b) = N ∧ ∀ k, is_Some (shards_map (shards_ (engine b)) !! k) ↔ k ∈ room_keys w).
Proof.
  intros Hb Hs. induction Hs as [b|b0 b1 b Hstep _ IH]; [|by apply IH; eapply run_step_ok].
  split_and!; [by apply ok_got|by apply run_progress| |by apply finished_all].
  intros n. revert b Hb. induction n as [|n IH]; intros b Hb b' Hn; [lia|].
  inversion Hn as [|? ? b1 ? Hstep Hrest]; subst. pose proof (run_step_weight b b1 Hb Hstep).
  assert (n ≤ weight b1)%nat; [|lia]. eapply IH, Hrest. by eapply run_step_ok.
Qed.
End main.

(** ** The program *)

Lemma make_shards_some n limit kind d : ∃ ts, Sync.make_shards (H := H) n limit kind d = Some ts.
Proof.
  destruct (Sync.make_shards n limit kind d) as [ts|] eqn:E; [by exists ts|]. exfalso.
  apply mapM_None_1, Exists_exists in E as (? & _ & Hx). done.
Qed.

Lemma started_engine n limit d :
  (0 < n)%nat → 0 <= limit →
  ∃ s0 s1 : Engine, make_sharded n limit KindLRU d = Some s0 ∧ start s0 = Some s1 ∧ inv s1 ∧ num_shards_ s1 = n
  ∧ log s1 = [] ∧ submitted s1 = [] ∧ running_ s1 = true ∧ served limit s1.
Proof.
  intros Hn Hl. destruct (make_shards_some n limit KindLRU d) as [ts Hts].
  assert (∃ s0, make_sharded (H := H) n limit KindLRU d = Some s0) as [s0 Hmk] by (unfold make_sharded; rewrite Hts; eauto).
  pose proof (sharded_make_inv _ _ _ _ _ Hmk) as Hinv. pose proof (make_served _ _ _ _ _ Hmk) as Hsv.
  assert (∃ s1, start s0 = Some s1 ∧ log s1 = [] ∧ submitted s1 = [] ∧ running_ s1 = true ∧ num_shards_ s1 = n) as (s1 & Hst & Hlog & Hsub & Hrun & En).
  { unfold make_sharded in Hmk. rewrite Hts in Hmk. injection Hmk as <-. unfold start. cbn [running_].
    assert (joined (mkSharded (H := H) n ts (replicate n []) (replicate n Exited) false [] ∅ [] []) = true) as ->; [|by eexists].
    unfold joined. cbn [workers]. clear. by induction n. }
  exists s0, s1. split_and!; try done; [by eapply sharded_start_inv|].
  apply (exec_served limit EStart s0 s1 Hl Hinv Hst); [by rewrite Hlog|exact Hsv].
Qed.

Lemma thread_calls_ok num_threads dist :
  0 < num_threads → Forall (Forall (call_ok room)) (thread_calls num_threads dist <$> seqZ 0 num_threads).
Proof.
  intros Hn. apply Forall_fmap, Forall_forall. intros t Ht%elem_of_seqZ. apply Forall_fmap, Forall_forall.
  intros i Hi%elem_of_seqZ. unfold compose, mixed_call. destruct (_ <? 80); [exact (mod_key _)|].
  assert (num_threads * (NUM_OPERATIONS / num_threads) <= NUM_OPERATIONS) as Hm by (by apply Z.mul_div_le).
  assert (0 <= t * (NUM_OPERATIONS / num_threads) + i < 2 ^ 29) as Hb by (unfold NUM_OPERATIONS in *; simpl; nia).
  exact (set_fits _ _ (mod_key _) Hb).
Qed.

Lemma calls_total num_threads dist :
  num_threads ∈ thread_counts →
  Z.of_nat (length populate_calls + sum_list (length <$> (thread_calls num_threads dist <$> seqZ 0 num_threads)))
  = KEY_SPACE + NUM_OPERATIONS.
Proof.
  intros Hn. assert (0 < num_threads ∧ num_threads * (NUM_OPERATIONS / num_threads) = NUM_OPERATIONS) as [Hpos Hn'].
  { unfold thread_counts in Hn. rewrite !elem_of_cons, elem_of_nil in Hn. by destruct Hn as [->|[->|[->|[->|[]]]]]. }
  rewrite <- list_fmap_compose, (Comparison.sum_list_constant _ (Z.to_nat (NUM_OPERATIONS / num_threads))).
  - unfold populate_calls. rewrite length_fmap, !length_seqZ.
    assert (0 <= NUM_OPERATIONS / num_threads) by (by apply Z.div_pos). assert (0 <= KEY_SPACE) by done. lia.
  - intros t. unfold compose, thread_calls. by rewrite length_fmap, length_seqZ.
Qed.

(** C21: The multi-threaded benchmark runs to its end and reads what it wrote.
    For each of the thread counts and all draws, in every interleaving of the
    client threads, the notifications and the workers: each get that has
    returned found its key; until every thread is done some thread can take a
    step, and no schedule is longer than a bound that is known from the state,
    so the threads are all joined; and then all 1.1 million calls have returned
    and the engine holds exactly the keys it was filled with. *)
Theorem multi_threaded_completes num_threads dist d :
  num_threads ∈ thread_counts →
  ∃ b0, benchmark_sharded_mixed num_threads dist d = Some b0
  ∧ ∀ b, rtc run_step b0 b →
    (∀ k v, (CGet k, v) ∈ got b → is_Some v)
    ∧ (finished b ∨ ∃ b', run_step b b')
    ∧ (∀ n b', nsteps run_step n b b' → (n ≤ weight b)%nat)
    ∧ (finished b → zlen (got b) = KEY_SPACE + NUM_OPERATIONS
       ∧ ∀ k, is_Some (shards_map (shards_ (engine b)) !! k) ↔ ∃ i, 0 <= i < KEY_SPACE ∧ k = generate_key i).
Proof.
  intros Hn. assert (0 < num_threads) as Hpos.
  { unfold thread_counts in Hn. rewrite !elem_of_cons, elem_of_nil in Hn. lia. }
  destruct (started_engine (Z.to_nat num_threads) LIMIT d ltac:(lia) ltac:(done))
    as (s0 & s1 & Hmk & Hst & Hinv & En & Hlog & Hsub & Hrun & Hsv).
  pose proof (calls_total num_threads dist Hn) as HN. set (N := (_ + _)%nat) in HN.
  assert (room_value room * Z.of_nat N < 2 ^ 64) as HN64 by (rewrite HN; done).
  assert (0 < num_shards_ s1)%nat as Hn1 by lia. destruct room_fits as (H1 & H2 & _).
  pose proof (initial_ok room populate_calls s1 Hn1 N _ Hsub Hrun (thread_calls_ok num_threads dist Hpos) eq_refl) as Hok.
  unfold benchmark_sharded_mixed. rewrite Hmk. cbn [mbind option_bind]. rewrite Hst. cbn [mbind option_bind].
  eexists. split; [reflexivity|]. intros b Hb. rewrite <- list_fmap_compose in Hok.
  destruct (run_all room populate_calls populate_calls_ok populate_sets populate_key LIMIT H1 H2 s1 Hinv Hn1 Hlog Hsv N HN64 _ b Hok Hb)
    as (Hgot & Hprog & Hbound & Hfin).
  split; [exact Hgot|]. split; [exact Hprog|]. split; [exact Hbound|]. intros Hf. destruct (Hfin Hf) as [Hlen Hkeys].
  split; [unfold zlen; by rewrite Hlen|]. intros k. rewrite (Hkeys k). apply elem_of_loop_room.
Qed.
End bench.

(** ** Witness *)

Lemma multi_threaded_completes_witness :
  ∃ b0, benchmark_sharded_mixed (H := LFU.SortedQueue) 4 (λ t i, (t + i) mod 100) empty_disk = Some b0
  ∧ ∀ b, rtc run_step b0 b →
    (∀ k v, (CGet k, v) ∈ got b → is_Some v)
    ∧ (finished b ∨ ∃ b', run_step b b')
    ∧ (∀ n b', nsteps run_step n b b' → (n ≤ weight b)%nat)
    ∧ (finished b → zlen (got b) = KEY_SPACE + NUM_OPERATIONS
       ∧ ∀ k, is_Some (shards_map (shards_ (engine b)) !! k) ↔ ∃ i, 0 <= i < KEY_SPACE ∧ k = generate_key i).
Proof.
  refine (multi_threaded_completes (H := LFU.SortedQueue) 4 (λ t i, (t + i) mod 100) empty_disk _).
  right. right. left.
Defined.
